(* ===== verification/_CoqProject ===== *)
-Q . S2P
Prelude.v
VarInt.v
MapInterface.v
HashMap.v
InflatableMap.v
Sequence.v
NavigableHashMap.v
PrefixTreeMap.v
SortedList.v
LZW.v
Decompressor.v
QuyteTree.v
LZWRoundtrip.v
LZWDecompression.v
EventBuffer.v
EventBufferList.v
EventsWriter.v
EventBuffers.v
Pipeline.v
PipelineSpec.v
PipelineTheorems.v
PipelineLiveness.v
EventPointerList.v
EventsRuntime.v
FlushAll.v
EventPointers.v
RootPointers.v
Dict.v
ObjectStartArray.v
StackTraces.v
AllocationSites.v
SymbolsWriter.v
SymbolsParser.v
SymbolsRoundtrip.v
TypeIds.v
ClassFiles.v
SiteTables.v
SiteInvariant.v
SiteTheorems.v
SlowAllocs.v
EventsGC.v
TraceSlaveParser.v
ParserThreads.v
ParserPool.v
ParserOrder.v
ParserTheorems.v
ParserTermination.v
EventsRoundtrip.v
EventsTheorems.v
EndToEnd.v
Allocations.v
EventSizes.v
PointersRoundtrip.v
GCTheorems.v
