(* ===== verification/Prelude.v ===== *)
(** * AntTracks: a verified model of the object tracing code of the VM

    AntTracks is a HotSpot VM that records every allocation and every
    movement of an object, and an analyzer that reads the record.  This
    library models the recording part of the VM
    ([src/ant-tracks-jvm/src/src/share/vm/prims] and the places of the
    runtime and the collectors it is wired into) and the part of the analyzer
    that reads the files back
    ([src/ant-tracks-analyzer/Tool/Parser/.../parser]).

    ** The program

    A Java thread, a compiled method or a collector reports what happens to
    an object by firing an event ([EventsRuntime.cpp]): a few 32-bit words,
    stored into the event buffer of the thread ([EventBuffer.cpp]).  A full
    buffer is handed to the compression queue ([EventBuffers.cpp],
    [EventBufferList.cpp]); compression threads compress it
    ([LZWCompression.cpp] with [VarInt.hpp] and one of thirteen dictionaries,
    or [QuyteTreeCompression.cpp]) and put it into the flush queue in the order
    of the hand over; the worker thread writes it as a frame of the trace file
    ([EventsWriter.cpp], [AllocationTracingIO.cpp]) and returns the buffer to
    the free list.  A collection fires its start, the moved objects (merged
    into regions), their pointers, the roots and its end
    ([EventsGCRuntime.cpp], [EventPointers.cpp], [ClosureCollection.cpp]); when
    the trace is to be rotated a new file begins with a full description of
    the heap ([EventSynchronization.cpp]).  The allocation site of an object is
    kept in its identity hash code ([AllocationSiteStorage.cpp]).  The
    analyzer splits the file into buffers and gives them to threads of its own,
    which keep the order within a traced thread and the order a buffer with a
    sync level asks for ([TraceParser.java]); these decompress them
    ([Decompressor.java]) and turn their words into handler calls
    ([TraceSlaveParser.java]).

    Events name allocation sites and types by number.  The stack of an
    allocation is fetched with its recursions folded
    ([AllocationTracingStackTraces.cpp]) and looked up in the table of sites
    ([AllocationSites.cpp] on [libadt/dict.cpp]); new sites, and the classes
    they allocate ([AllocatedTypes.cpp]), are written to the symbols file
    ([SymbolsWriter.cpp]), which the analyzer reads first
    ([SymbolsParser.java], [Scanner.java]).  The class files themselves can be
    copied into a file of their own ([ClassDefinitionWriter.cpp],
    [ClassDefinitionsParser.java]).  An allocation that compiled or interpreted
    code leaves to the VM finds its event type and site in the thread, where
    [SlowAllocPatcher] puts them.  At a synchronisation, and when tracing ends,
    one thread flushes the buffers of all ([EventBuffersFlushAll.cpp]).

    ** Files

    - [Prelude]: integers of fixed width, bytes and bits, lists, tactics.
    - [VarInt]: [VarInt.hpp], bitwise writer and reader.
    - [MapInterface]: [Map.hpp] as the type classes [Map], [NavigableMap] and
      their laws; [HashMap], [InflatableMap] (with [SmallMap.hpp]),
      [NavigableHashMap], [PrefixTreeMap], [SortedList] (with [ListMap.hpp])
      implement it on the keys of [Sequence].
    - [LZW]: the encoder against the interface; [LZWRoundtrip]: its thirteen
      strategies and the round trip; [Decompressor]: the Java decoder;
      [LZWDecompression]: the decoder of the VM; [QuyteTree]: the other
      compressor and its round trip.
    - [EventBuffer], [EventBufferList], [EventBuffers], [EventsWriter]:
      buffers, the ring, the queues, the file and its reader.
    - [Pipeline]: the threads as a transition system; [PipelineSpec] its
      invariant, [PipelineTheorems] and [PipelineLiveness] the guarantees;
      [FlushAll]: flushing all threads and waiting for it.
    - [EventPointerList], [EventsRuntime], [EventPointers], [RootPointers]:
      events, the pointers of objects and the roots; [EventSizes]: their sizes.
    - [Dict]: [libadt/dict.cpp]; [AllocationSites]: sites in object headers;
      [ObjectStartArray]: the table that finds object starts.
    - [StackTraces]: the stack of an allocation; [SiteTables]: the table of
      sites; [SiteInvariant] its invariant, [SiteTheorems] the guarantees;
      [SlowAllocs]: the sites of allocations on the slow path.
    - [SymbolsWriter]: the symbols file and the identifiers of types;
      [SymbolsParser]: its reader; [SymbolsRoundtrip]: what is written is read
      back; [TypeIds]: types are numbered and written once; [ClassFiles]:
      class definitions, from the class file parser to the analyzer.
    - [EventsGC]: collections, regions, rotation and synchronisation.
    - [ParserThreads]: dispatcher, master and slaves of the analyzer as a
      transition system; [ParserPool] and [ParserOrder] its invariant,
      [ParserTheorems] and [ParserTermination] the guarantees.
    - [TraceSlaveParser]: the event parser; [EventsRoundtrip],
      [EventsTheorems], [PointersRoundtrip]: written events are read back;
      [GCTheorems]: the events of a collection; [EndToEnd]: the trace, from the
      threads to the parser; [Allocations]: trace and symbols together.

    ** Correspondence

    Definitions carry the names of the source.  The platform is Linux on
    x86_64, a product build: 32-bit [int], 64-bit pointers and [size_t], little
    endian, [char] signed, [ASSERT] off, [BITWISE_COMPRESSION] and
    [SORTED_LIST_USE_GAPS] defined.  Integers are [Z], with [wrap] and [swrap]
    where the code converts.  Objects with mutable fields are records passed
    through their methods; arrays are lists, an access outside of which is
    [None] (or [Wrong], [Undefined]); a Java exception is [None]; a wait on a
    monitor is an outcome of the operation ([Blocks]) and critical sections
    are the atomic actions of [Pipeline] and [ParserThreads].  What the tracing code asks the rest
    of the VM (the layout of an object, the frames of a thread, the hash code
    of an object, the memory allocator) is a parameter, with what the code
    relies on as hypotheses of the section.

    ** What the theorems show

    - Compression: what either compressor writes for a buffer, the analyzer
      decodes to the buffer; thirteen dictionaries agree on the longest known
      prefix, and each map, list and sequence refines its abstract type.
    - Pipeline: in every reachable state, per thread, what was fired is what
      is written, in process, queued or in the current buffer, in order; no
      access is out of range; synchronised buffers are barriers; from every
      reachable state everything can be written; flushing all threads and
      waiting returns, and then the file has all that was fired.
    - Events: each fired event occupies exactly the words it reserved and is
      read back as the call with its values, pointers and roots included.
    - Collections: regions expand to the moves, postponed space events follow
      the end, files begin where requested, and the tasks of a synchronisation
      report every object.
    - Symbols: the symbols file is read back record by record; every class
      gets one identifier, under which the file describes it; two requests for
      a site get the same identifier exactly if stack and class agree, and the
      file describes that stack and that class; folded stacks repeat no frame.
      Class files are found under the identifiers of their classes, and an
      allocation on the slow path is reported with the site of the innermost
      block around it.
    - Analyzer threads: for every interleaving, the entries of a traced thread
      are parsed one by one in the order of the file, an entry with a sync
      level after all earlier and before all later ones; all runs end, and
      none before everything is parsed.
    - End to end: a run of the threads, written and read by those of the
      analyzer, calls the handlers with the fired events; and if the events name sites of the table, the
      symbols read from the symbols file tell, for every allocation, its stack
      and its class.
    - Some theorems state where the code does not do what it means to: the
      second buffer of an LZW compressor, the capacity check of the encoder,
      the decoder of the VM, the array of threads in process, the iteration
      over a full ring, preserved headers, the patch of the collectors, and
      others.

    ** Bounds and fuel

    Recursion is structural, or on a bound computed from the input: the number
    of bytes or words left, the number of cells of an array, the length of a
    probe.  Every theorem about a result proves that the result is reached.
    The iterations of the decoder of the VM are counted to show that it does
    not stop; the delivery of [PipelineLiveness] is by the number of buffers
    on their way, and every step of [ParserThreads] decreases a measure that
    is quadratic in the number of buffers.  The buffers of a trace are assumed
    not to be larger than the bound of the dispatcher's queue, without which
    it stops (see [ParserTermination]).  The requests to the table of sites are bounded in number
    where a theorem needs it: by 32752, beyond which small identifiers run
    out, and by 29476, up to which no stack is shortened.  The identifiers of
    classes with a definition are below 2^30, the longest array the analyzer
    can double to; the loop that doubles it is given 33 steps, more than an
    [int] can be doubled before it is 0.

    ** Not modelled

    The collectors, the compilers and the interpreter (which only call the
    event functions, through assembler stubs), class loading, the agent, the
    build; the assertions and the self monitoring; the start and the end of
    the threads, the safepoints (no other thread fires while buffers are
    flushed) and the options of [AllocationTracing.cpp]; file names and
    the file system; in the analyzer, the heap the handlers build, what happens after
    an exception of a handler, cancellation, and the user interface; the scripts and benchmarks around it.  The decision whether to
    compress a buffer is an arbitrary choice in [Pipeline].  Of the symbols,
    the derived names and mirror types the analyzer adds after parsing and its
    analysis of call contexts are left out, and the theorems about sites are about runs without class unloading
    (its operations are definitions of [SiteTables]). *)

From Stdlib Require Import ZArith Lia Bool Ascii String.
From stdpp Require Export base list option numbers gmap.
From stdpp Require Import sorting.

Declare Scope ant_scope.
Delimit Scope ant_scope with ant.
#[global] Open Scope Z_scope.

(** Text as bytes. *)
Definition bytes_of_string (s : string) : list Z := (fun c => Z.of_N (N_of_ascii c)) <$> list_ascii_of_string s.

(** ** Machine integers

    A C++ integer of width [w] is a [Z]; a conversion to the type is one of
    the functions below (LP64: [int] and [jint] 32 bits, [size_t] and
    pointers 64 bits, [char] signed). *)

Definition wrap (w z : Z) : Z := z mod 2 ^ w.

Definition swrap (w z : Z) : Z := (z + 2 ^ (w - 1)) mod 2 ^ w - 2 ^ (w - 1).

Abbreviation u8 := (wrap 8).
Abbreviation u16 := (wrap 16).
Abbreviation u32 := (wrap 32).
Abbreviation u64 := (wrap 64).
Abbreviation s8 := (swrap 8).
Abbreviation s32 := (swrap 32).
Abbreviation s64 := (swrap 64).

Notation "x '.&' y" := (Z.land x y) (at level 54, left associativity) : ant_scope.
Notation "x '.|' y" := (Z.lor x y) (at level 56, left associativity) : ant_scope.

#[global] Open Scope ant_scope.

Definition is_byte (b : Z) : Prop := 0 <= b < 256.

#[global] Instance is_byte_dec (b : Z) : Decision (is_byte b).
Proof. unfold is_byte. apply _. Defined.

(** [ant]: facts about bytes and powers of two; [antz]: lengths and splits of
    encoded numbers. *)
Create HintDb ant discriminated.
Create Rewrite HintDb antz.

(** Case analysis on the boolean test of an [if] or on an option match, in
    the goal or a hypothesis. *)
Ltac case_test :=
  match goal with
  | |- context [if ?b then _ else _] => destruct b eqn:?
  | H : context [if ?b then _ else _] |- _ => destruct b eqn:?
  end.

(** Decide a closed decidable proposition by computation. *)
Ltac by_decide := refine (bool_decide_unpack _ _); vm_compute; exact I.

(** Turn boolean comparisons in hypotheses into propositions. *)
Ltac zbool :=
  repeat match goal with
  | H : (_ <? _) = true |- _ => apply Z.ltb_lt in H
  | H : (_ <? _) = false |- _ => apply Z.ltb_ge in H
  | H : (_ <=? _) = true |- _ => apply Z.leb_le in H
  | H : (_ <=? _) = false |- _ => apply Z.leb_gt in H
  | H : (_ =? _) = true |- _ => apply Z.eqb_eq in H
  | H : (_ =? _) = false |- _ => apply Z.eqb_neq in H
  | H : (_ && _)%bool = true |- _ => apply andb_prop in H; destruct H
  | H : bool_decide _ = true |- _ => apply bool_decide_eq_true in H
  | H : bool_decide _ = false |- _ => apply bool_decide_eq_false in H
  end.

(** ** Facts on wrapping *)

Lemma pow2_pos (w : Z) : 0 <= w -> 0 < 2 ^ w.
Proof. intros. apply Z.pow_pos_nonneg; lia. Qed.

Lemma wrap_range (w z : Z) : 0 <= w -> 0 <= wrap w z < 2 ^ w.
Proof. intros. apply Z.mod_pos_bound, pow2_pos; lia. Qed.

Lemma wrap_small (w z : Z) : 0 <= z < 2 ^ w -> wrap w z = z.
Proof. apply Z.mod_small. Qed.

Lemma wrap_idemp (w z : Z) : wrap w (wrap w z) = wrap w z.
Proof. apply Zmod_mod. Qed.

Lemma swrap_small (w z : Z) : - 2 ^ (w - 1) <= z < 2 ^ (w - 1) -> 1 <= w -> swrap w z = z.
Proof.
  intros Hz Hw. unfold swrap.
  assert (2 ^ w = 2 * 2 ^ (w - 1)) by (rewrite <- Z.pow_succ_r by lia; f_equal; lia).
  rewrite Z.mod_small; lia.
Qed.

Lemma swrap_mod w z : swrap w (z mod 2 ^ w) = swrap w z.
Proof. unfold swrap. by rewrite Zplus_mod_idemp_l. Qed.

Lemma swrap_swrap w z : 0 <= w -> swrap w (swrap w z) = swrap w z.
Proof.
  intros Hw. unfold swrap. rewrite Z.sub_add, Z.mod_mod; [done|]. pose proof (pow2_pos w Hw). lia.
Qed.

Lemma wrap_swrap (w z : Z) : 0 <= w -> wrap w (swrap w z) = wrap w z.
Proof.
  intros Hw. unfold wrap, swrap.
  pose proof (pow2_pos w Hw) as Hp.
  rewrite Zminus_mod_idemp_l. f_equal. lia.
Qed.

Lemma wrap_testbit (w z i : Z) :
  0 <= w -> 0 <= i -> Z.testbit (wrap w z) i = (i <? w) && Z.testbit z i.
Proof.
  intros Hw Hi. unfold wrap. destruct (i <? w) eqn:E; zbool.
  - by rewrite Z.mod_pow2_bits_low by lia.
  - by rewrite Z.mod_pow2_bits_high by lia.
Qed.

Lemma testbit_above (w z i : Z) : 0 <= z < 2 ^ w -> w <= i -> Z.testbit z i = false.
Proof.
  intros Hz Hi. destruct (Z.lt_ge_cases w 0).
  - rewrite Z.pow_neg_r in Hz by lia. lia.
  - rewrite <- (Z.mod_small z (2 ^ w)) by lia. by apply Z.mod_pow2_bits_high.
Qed.

Lemma wrap_lor (w a b : Z) : 0 <= w -> wrap w (a .| b) = wrap w a .| wrap w b.
Proof.
  intros Hw. apply Z.bits_inj'. intros i Hi.
  rewrite Z.lor_spec, !wrap_testbit, Z.lor_spec by lia.
  by destruct (i <? w).
Qed.

Lemma lor_range (w a b : Z) : 0 <= a < 2 ^ w -> 0 <= b < 2 ^ w -> 0 <= a .| b < 2 ^ w.
Proof.
  intros Ha Hb. assert (0 <= w).
  { destruct (Z.lt_ge_cases w 0); [rewrite Z.pow_neg_r in Ha by lia|]; lia. }
  rewrite <- (wrap_small w a), <- (wrap_small w b), <- wrap_lor by lia.
  by apply wrap_range.
Qed.

Lemma land_ones_wrap (w z : Z) : 0 <= w -> z .& (2 ^ w - 1) = wrap w z.
Proof.
  intros Hw. rewrite Z.sub_1_r, <- Z.ones_equiv. by apply Z.land_ones.
Qed.

Lemma land_le (a b : Z) : 0 <= a -> a .& b <= a.
Proof.
  intros Ha. apply Z.ldiff_le; [done|]. apply Z.bits_inj'. intros i Hi.
  rewrite Z.ldiff_spec, Z.land_spec, Z.bits_0. by destruct (Z.testbit a i), (Z.testbit b i).
Qed.

Lemma shiftl_1 (w : Z) : 0 <= w -> 1 ≪ w = 2 ^ w.
Proof. intros. rewrite Z.shiftl_mul_pow2 by lia. lia. Qed.

Lemma lor_disjoint_add (a b k : Z) :
  0 <= k -> 0 <= b < 2 ^ k -> (a ≪ k) .| b = a * 2 ^ k + b.
Proof.
  intros Hk Hb. rewrite Z.shiftl_mul_pow2 by lia.
  rewrite <- Z.lxor_lor, <- Z.add_nocarry_lxor; [done|..].
  all: apply Z.bits_inj'; intros i Hi; rewrite Z.land_spec, Z.bits_0.
  all: destruct (Z.lt_ge_cases i k).
  all: rewrite <- Z.shiftl_mul_pow2 by lia.
  all: try (rewrite Z.shiftl_spec_low by lia; done).
  all: rewrite (testbit_above k b i) by lia; apply andb_false_r.
Qed.

(** ** Bit strings, most significant bit first *)

Fixpoint bits_of (n : nat) (v : Z) : list bool :=
  match n with
  | O => []
  | S m => Z.testbit v (Z.of_nat m) :: bits_of m v
  end.

Fixpoint bits_val (l : list bool) : Z :=
  match l with
  | [] => 0
  | b :: l' => Z.b2z b * 2 ^ Z.of_nat (length l') + bits_val l'
  end.

Definition byte_bits (b : Z) : list bool := bits_of 8 b.

Lemma bits_of_length n v : length (bits_of n v) = n.
Proof. induction n; simpl; congruence. Qed.

Lemma byte_bits_length b : length (byte_bits b) = 8%nat.
Proof. apply bits_of_length. Qed.

Lemma bits_of_lookup n v i :
  (i < n)%nat -> bits_of n v !! i = Some (Z.testbit v (Z.of_nat n - 1 - Z.of_nat i)).
Proof.
  revert i. induction n as [|n IH]; intros i Hi; [lia|].
  destruct i as [|i]; cbn [bits_of].
  - simpl. f_equal. f_equal. lia.
  - cbn. rewrite IH by lia. f_equal. f_equal. lia.
Qed.

Lemma bits_of_app a b v :
  bits_of (a + b) v = bits_of a (v ≫ Z.of_nat b) ++ bits_of b v.
Proof.
  induction a as [|a IH]; [done|]. cbn [bits_of Nat.add app]. f_equal; [|done].
  rewrite Z.shiftr_spec by lia. f_equal. lia.
Qed.

Lemma bits_of_drop a n v : (a <= n)%nat -> drop a (bits_of n v) = bits_of (n - a) v.
Proof.
  intros H. replace n with (a + (n - a))%nat at 1 by lia.
  rewrite bits_of_app. apply drop_app_length'. by rewrite bits_of_length.
Qed.

Lemma bits_of_wrap n w v : (Z.of_nat n <= w) -> bits_of n (wrap w v) = bits_of n v.
Proof.
  intros Hw. induction n as [|n IH]; [done|]. cbn [bits_of].
  rewrite IH, wrap_testbit by lia. f_equal.
  destruct (Z.ltb_spec (Z.of_nat n) w); [done|lia].
Qed.

Lemma bits_of_multiple n v : bits_of n (v * 2 ^ Z.of_nat n) = bits_of n 0.
Proof.
  rewrite <- (bits_of_wrap n (Z.of_nat n)) by lia. unfold wrap.
  by rewrite Z.mod_mul by (pose proof (pow2_pos (Z.of_nat n)); lia).
Qed.

Lemma bits_val_range l : 0 <= bits_val l < 2 ^ Z.of_nat (length l).
Proof.
  induction l as [|b l IH]; [by cbv|]. cbn [bits_val length].
  rewrite Nat2Z.inj_succ, Z.pow_succ_r by lia. destruct b; simpl Z.b2z; lia.
Qed.

Lemma bits_val_app l1 l2 :
  bits_val (l1 ++ l2) = bits_val l1 * 2 ^ Z.of_nat (length l2) + bits_val l2.
Proof.
  induction l1 as [|b l1 IH]; [done|]. cbn [bits_val app].
  rewrite IH, length_app, Nat2Z.inj_add, Z.pow_add_r by lia. ring.
Qed.

Lemma bits_val_of n v : bits_val (bits_of n v) = wrap (Z.of_nat n) v.
Proof.
  induction n as [|n IH]; cbn [bits_of bits_val].
  - unfold wrap. by rewrite Z.mod_1_r.
  - rewrite IH, bits_of_length, Nat2Z.inj_succ. unfold wrap.
    rewrite Z.pow_succ_r, (Z.mul_comm 2), Z.rem_mul_r by (pose proof (pow2_pos (Z.of_nat n)); lia).
    rewrite Z.testbit_spec' by lia. lia.
Qed.

Lemma bits_of_val l : bits_of (length l) (bits_val l) = l.
Proof.
  apply list_eq_same_length with (n := length l); [done|by rewrite bits_of_length|].
  intros i x y Hi Hx Hy. rewrite bits_of_lookup in Hx by done. simplify_eq.
  apply list_elem_of_split_length in Hy as (l1 & l2 & -> & ->).
  rewrite bits_val_app, length_app. cbn [length bits_val].
  replace (Z.of_nat (length l1 + S (length l2)) - 1 - Z.of_nat (length l1))
    with (Z.of_nat (length l2)) by lia.
  pose proof (bits_val_range l2) as Hr.
  rewrite Nat2Z.inj_succ, Z.pow_succ_r by lia.
  replace (bits_val l1 * (2 * 2 ^ Z.of_nat (length l2)) +
    (Z.b2z y * 2 ^ Z.of_nat (length l2) + bits_val l2))
    with ((2 * bits_val l1 + Z.b2z y) * 2 ^ Z.of_nat (length l2) + bits_val l2) by ring.
  rewrite <- lor_disjoint_add by lia.
  rewrite Z.lor_spec, Z.shiftl_spec, (testbit_above (Z.of_nat (length l2)) (bits_val l2)) by lia.
  rewrite Z.sub_diag, orb_false_r. apply Z.testbit_0_r.
Qed.

(** ** Lists *)

Lemma app_eq_prefix {A} (p s l rest : list A) :
  p ++ s = l ++ rest -> (length p <= length l)%nat -> exists l2, l = p ++ l2 /\ s = l2 ++ rest.
Proof.
  revert l. induction p as [|x p IH]; intros l H Hl; simpl in *; [by exists l|].
  destruct l as [|y l]; simpl in *; [lia|]. simplify_eq.
  destruct (IH l) as (l2 & -> & ->); [done|lia|]. by exists l2.
Qed.

(** ** Little-endian bytes *)

Fixpoint le_val (l : list Z) : Z :=
  match l with
  | [] => 0
  | b :: l => b + 256 * le_val l
  end.

Fixpoint le_bytes (n : nat) (z : Z) : list Z :=
  match n with
  | O => []
  | S n => z mod 256 :: le_bytes n (z / 256)
  end.

Lemma pow2_bytes_succ n : 2 ^ (8 * Z.of_nat (S n)) = 256 * 2 ^ (8 * Z.of_nat n).
Proof. replace (8 * Z.of_nat (S n)) with (8 + 8 * Z.of_nat n) by lia. by rewrite Z.pow_add_r by lia. Qed.

Lemma le_val_range l : Forall is_byte l -> 0 <= le_val l < 2 ^ (8 * Z.of_nat (length l)).
Proof.
  induction 1 as [|b l Hb Hl IH]; [done|]. cbn [le_val length]. rewrite pow2_bytes_succ.
  unfold is_byte in Hb. lia.
Qed.

Lemma le_bytes_length n z : length (le_bytes n z) = n.
Proof. revert z. induction n; intros z; simpl; auto. Qed.

Lemma le_bytes_are_bytes n z : Forall is_byte (le_bytes n z).
Proof.
  revert z. induction n; intros z; simpl; constructor; [|done].
  unfold is_byte. pose proof (Z.mod_pos_bound z 256). lia.
Qed.

#[export] Hint Resolve le_bytes_are_bytes pow2_pos : ant.

Lemma take_le_bytes n z l : take n (le_bytes n z ++ l) = le_bytes n z.
Proof. by rewrite take_app_length' by (by rewrite le_bytes_length). Qed.

Lemma drop_le_bytes n z l : drop n (le_bytes n z ++ l) = l.
Proof. by rewrite drop_app_length' by (by rewrite le_bytes_length). Qed.

#[export] Hint Rewrite @length_app le_bytes_length bits_of_length take_le_bytes drop_le_bytes : antz.

Lemma le_bytes_val l : Forall is_byte l -> le_bytes (length l) (le_val l) = l.
Proof.
  induction 1 as [|b l Hb Hl IH]; [done|]. cbn [le_val length le_bytes]. unfold is_byte in Hb.
  rewrite Z.mul_comm, Z.mod_add, Z.mod_small, Z.div_add, Z.div_small by lia. by rewrite Z.add_0_l, IH.
Qed.

Lemma le_val_bytes n z : le_val (le_bytes n z) = z mod 2 ^ (8 * Z.of_nat n).
Proof.
  revert z. induction n as [|n IH]; intros z; cbn [le_val le_bytes].
  - simpl. by rewrite Z.mod_1_r.
  - pose proof (pow2_pos (8 * Z.of_nat n)). rewrite IH, pow2_bytes_succ, Z.rem_mul_r by lia. lia.
Qed.

Lemma le_bytes_mod n z : le_bytes n (z mod 2 ^ (8 * Z.of_nat n)) = le_bytes n z.
Proof.
  rewrite <- le_val_bytes. rewrite <- (le_bytes_length n z) at 1.
  apply le_bytes_val; auto with ant.
Qed.

Lemma le_bytes_take n m z : (m <= n)%nat -> take m (le_bytes n z) = le_bytes m z.
Proof.
  revert n z. induction m as [|m IH]; intros [|n] z Hm; simpl; try done; [lia|].
  f_equal. apply IH. lia.
Qed.

Lemma le_bytes_lookup n z i :
  (i < n)%nat -> le_bytes n z !! i = Some (z / 256 ^ Z.of_nat i mod 256).
Proof.
  revert z i. induction n as [|n IH]; intros z i Hi; [lia|].
  destruct i as [|i]; cbn [le_bytes]; [simpl; by rewrite Z.div_1_r|].
  rewrite Nat2Z.inj_succ, Z.pow_succ_r by lia. cbn [lookup list_lookup]. rewrite IH by lia.
  by rewrite Z.div_div by (pose proof (Z.pow_pos_nonneg 256 (Z.of_nat i)); lia).
Qed.

Lemma le_val_app l1 l2 : le_val (l1 ++ l2) = le_val l1 + 2 ^ (8 * Z.of_nat (length l1)) * le_val l2.
Proof.
  induction l1 as [|b l1 IH]; [simpl; lia|]. cbn [le_val app length]. rewrite IH, pow2_bytes_succ. ring.
Qed.

Lemma le_val_take_mod l n :
  Forall is_byte l -> le_val (take n l) = le_val l mod 2 ^ (8 * Z.of_nat n).
Proof.
  intros Hl. destruct (decide (n <= length l)%nat) as [Hn|Hn].
  - pose proof (pow2_pos (8 * Z.of_nat n)). rewrite <- (take_drop n l) at 2. rewrite le_val_app, length_take, Nat.min_l by done.
    rewrite Z.mul_comm, Z.mod_add by lia. symmetry. apply Z.mod_small.
    pose proof (le_val_range (take n l) (Forall_take _ _ _ Hl)) as Hr. by rewrite length_take, Nat.min_l in Hr.
  - rewrite take_ge by lia. symmetry. apply Z.mod_small. pose proof (le_val_range l Hl).
    assert (2 ^ (8 * Z.of_nat (length l)) <= 2 ^ (8 * Z.of_nat n)) by (apply Z.pow_le_mono_r; lia). lia.
Qed.

Lemma wrap_wrap_le (m w z : Z) : 0 <= m <= w -> wrap m (wrap w z) = wrap m z.
Proof.
  intros H. apply Z.bits_inj'. intros i Hi. rewrite !wrap_testbit by lia.
  destruct (Z.ltb_spec i m); [|done]. by destruct (Z.ltb_spec i w); [|lia].
Qed.

Lemma wrap_swrap_le (m w z : Z) : 0 <= m <= w -> wrap m (swrap w z) = wrap m z.
Proof. intros H. by rewrite <- (wrap_wrap_le m w), wrap_swrap, wrap_wrap_le by lia. Qed.

Lemma wrap_shiftr (m k z : Z) : 0 <= m -> 0 <= k -> wrap m (z ≫ k) = wrap (m + k) z ≫ k.
Proof.
  intros Hm Hk. apply Z.bits_inj'. intros i Hi.
  rewrite wrap_testbit, !Z.shiftr_spec, wrap_testbit by lia. f_equal.
  destruct (Z.ltb_spec i m), (Z.ltb_spec (i + k) (m + k)); lia || done.
Qed.

Lemma snoc_lookup {A} (l : list A) x i y :
  (l ++ [x]) !! i = Some y <-> l !! i = Some y \/ (i = length l /\ y = x).
Proof.
  rewrite lookup_app_Some, list_lookup_singleton_Some. split.
  - intros [?|[? [? <-]]]; [by left|right; split; [lia|done]].
  - intros [?|[-> ->]]; [by left|right; split; [done|split; [lia|done]]].
Qed.

Lemma take_split {A} (n m : nat) (l : list A) : (n <= m)%nat -> take m l = take n l ++ take (m - n) (drop n l).
Proof.
  revert m l. induction n as [|n IH]; intros m l H; simpl; [by rewrite Nat.sub_0_r, drop_0|].
  destruct m as [|m]; [lia|]. destruct l as [|x l]; simpl; [by rewrite take_nil|]. f_equal. apply IH. lia.
Qed.

Lemma drop_split {A} (n m : nat) (l : list A) : (n <= m)%nat -> drop n l = take (m - n) (drop n l) ++ drop m l.
Proof.
  intros H. rewrite <- (take_drop (m - n) (drop n l)) at 1. rewrite drop_drop. do 2 f_equal. lia.
Qed.

Lemma list_fmap_id_Forall {A} (f : A -> A) (l : list A) : Forall (fun x => f x = x) l -> f <$> l = l.
Proof. induction 1 as [|x l Hx _ IH]; [done|]. cbn [fmap list_fmap]. by rewrite Hx, IH. Qed.

(** ** Removal from an array, the last element filling the hole *)

Lemma fill_hole_perm {A} (l : list A) i x z :
  l !! i = Some x -> l !! (length l - 1)%nat = Some z -> l ≡ₚ x :: take (length l - 1) (<[i := z]> l).
Proof.
  intros E Ez. pose proof (lookup_lt_Some _ _ _ E) as Hi.
  assert (l = take (length l - 1) l ++ [z]) as Hl.
  { rewrite <- (take_drop_middle _ _ _ Ez) at 1. by rewrite drop_ge by lia. }
  destruct (decide (i = length l - 1)%nat) as [->|Hne].
  - rewrite Ez in E. simplify_eq. rewrite take_insert_ge by lia. rewrite Hl at 1. by rewrite Permutation_app_comm.
  - rewrite take_insert_lt by lia. set (l1 := take (length l - 1) l) in *.
    assert (l1 !! i = Some x) as E1 by (unfold l1; rewrite lookup_take_lt by lia; done).
    rewrite Hl at 1. rewrite <- (take_drop_middle _ _ _ E1) at 1. rewrite insert_take_drop by (by eapply lookup_lt_Some).
    solve_Permutation.
Qed.

(** ** Sums over lists *)

Definition sumz {A} (f : A -> Z) (l : list A) : Z := foldr (fun x n => f x + n) 0 l.
#[global] Arguments sumz : simpl never.

Lemma sumz_nil {A} (f : A -> Z) : sumz f [] = 0.
Proof. done. Qed.

Lemma sumz_cons {A} (f : A -> Z) x l : sumz f (x :: l) = f x + sumz f l.
Proof. done. Qed.

Lemma sumz_app {A} (f : A -> Z) l l' : sumz f (l ++ l') = sumz f l + sumz f l'.
Proof. induction l as [|x l IH]; [done|]. rewrite <- app_comm_cons, !sumz_cons. lia. Qed.

#[export] Hint Rewrite @sumz_nil @sumz_cons @sumz_app : antz.

Lemma sumz_insert {A} (f : A -> Z) l i x y : l !! i = Some x -> sumz f (<[i := y]> l) = sumz f l - f x + f y.
Proof.
  intros Hi. rewrite insert_take_drop by (by eapply lookup_lt_Some). rewrite <- (take_drop_middle l i x Hi) at 3.
  rewrite !sumz_app, !sumz_cons. lia.
Qed.

Lemma sumz_ext {A} (f g : A -> Z) l : (forall x, x ∈ l -> f x = g x) -> sumz f l = sumz g l.
Proof.
  induction l as [|x l IH]; intros H; [done|]. rewrite !sumz_cons, H by constructor. f_equal. apply IH. intros y Hy.
  apply H. by constructor.
Qed.

Lemma sumz_zero {A} (f : A -> Z) l : (forall x, x ∈ l -> f x = 0) -> sumz f l = 0.
Proof. intros H. rewrite (sumz_ext f (fun _ => 0)) by done. clear H. by induction l. Qed.

Lemma sumz_le {A} (f g : A -> Z) l : (forall x, x ∈ l -> f x <= g x) -> sumz f l <= sumz g l.
Proof.
  induction l as [|x l IH]; intros H; [done|]. rewrite !sumz_cons. assert (f x <= g x) by (apply H; constructor).
  assert (sumz f l <= sumz g l) by (apply IH; intros y Hy; apply H; by constructor). lia.
Qed.

Lemma sumz_nonneg {A} (f : A -> Z) l : (forall x, x ∈ l -> 0 <= f x) -> 0 <= sumz f l.
Proof.
  induction l as [|x l IH]; intros H; [done|]. assert (0 <= f x) by (apply H; constructor).
  assert (0 <= sumz f l) by (apply IH; intros y Hy; apply H; by constructor). rewrite sumz_cons. lia.
Qed.
