(* ===== verification/VarInt.v ===== *)
(** * Bitwise variable-width integers ([prims/VarInt.hpp])

    [VarIntWriter] packs integers most significant bit first into bytes with
    a code width that starts at 8 and grows by one whenever the all-ones
    marker is written; [VarIntReader] is the C++ reader.  Both classes are
    modelled as built: [BITWISE_COMPRESSION] is defined, [ASSERT] is not.
    A pointer the code writes through and advances is the list of bytes
    written; a pointer it reads through is an index into the byte list. *)

From S2P Require Import Prelude.
From Stdlib Require Import ZArith Lia Bool.

(** The bits of a byte string, in stream order. *)
Definition bytes_bits (bs : list Z) : list bool := concat (byte_bits <$> bs).

Module VarIntWriter.

Record writer := Writer { width : Z; fill_level : Z; buffer : Z }.

Definition init : writer := {| width := 8; fill_level := 0; buffer := 0 |}.

(** The loop of [write0]; [out] are the bytes stored so far.  [None] when the
    fuel is exhausted, which [write0_spec] excludes. *)
Fixpoint write0_loop (fuel : nat) (w : writer) (value bits : Z) (out : list Z) :
    option (writer * list Z) :=
  match fuel with
  | O => None
  | S fuel' =>
      let '(w, out) :=
        if fill_level w =? 8
        then (Writer (width w) 0 0, out ++ [u8 (buffer w)])
        else (w, out) in
      let bits_to_write := Z.min (8 - fill_level w) bits in
      let value_mask := u32 (u32 (1 ≪ bits_to_write) - 1) in
      let value_to_write := u8 ((value ≫ (bits - bits_to_write)) .& value_mask) in
      let location := 8 - fill_level w - bits_to_write in
      let value_in_place := u8 (value_to_write ≪ location) in
      let w := Writer (width w) (fill_level w + bits_to_write)
                      (s8 (buffer w .| value_in_place)) in
      let bits := bits - bits_to_write in
      if 0 <? bits then write0_loop fuel' w value bits out else Some (w, out)
  end.

Definition write0 (w : writer) (value bits : Z) : option (writer * list Z) :=
  write0_loop (S (Z.to_nat bits)) w value bits [].

Definition expand (w : writer) : option (writer * list Z) :=
  let marker := u32 (s32 (1 ≪ width w) - 1) in
  write0 (Writer (width w + 1) (fill_level w) (buffer w)) marker (width w).

(** [while(value >= (1u << width) - 1 - 1) cursor += expand(cursor);].  The
    width stays below 32 (the shift is undefined beyond), which bounds the
    number of rounds. *)
Fixpoint write_loop (fuel : nat) (w : writer) (value : Z) (out : list Z) :
    option (writer * list Z) :=
  match fuel with
  | O => None
  | S fuel' =>
      if u32 (u32 (1 ≪ width w) - 1 - 1) <=? value then
        '(w, bs) ← expand w;
        write_loop fuel' w value (out ++ bs)
      else Some (w, out)
  end.

Definition write (w : writer) (value : Z) : option (writer * list Z) :=
  '(w, out) ← write_loop 32 w value [];
  '(w, bs) ← write0 w value (width w);
  Some (w, out ++ bs).

Definition flush (w : writer) : option (writer * list Z) :=
  '(w, out) ← expand w;
  '(w, bs) ← write0 w 0 (width w);
  Some (w, out ++ bs ++ [u8 (buffer w)]).

End VarIntWriter.

Module VarIntReader.

Record reader := Reader { width : Z; in_byte_offset : Z }.

Definition init : reader := {| width := 8; in_byte_offset := 0 |}.

(** The loop of [read0].  [cursor] is an index into [src]; an access outside
    [src] is undefined in C++ and gives [None]. *)
Fixpoint read0_loop (fuel : nat) (src : list Z) (r : reader) (cursor : nat) (value bits : Z) :
    option (reader * nat * Z) :=
  match fuel with
  | O => None
  | S fuel' =>
      let '(r, cursor) :=
        if in_byte_offset r =? 8 then (Reader (width r) 0, S cursor) else (r, cursor) in
      let bits_to_read := Z.min (8 - in_byte_offset r) bits in
      let value_part_mask := u8 (u32 (1 ≪ bits_to_read) - 1) in
      value_part_in_place ← src !! cursor;
      let value_part :=
        u8 ((value_part_in_place ≫ (8 - in_byte_offset r - bits_to_read)) .& value_part_mask) in
      let value := u32 (value .| (value_part ≪ (bits - bits_to_read))) in
      let bits := bits - bits_to_read in
      let r := Reader (width r) (in_byte_offset r + bits_to_read) in
      if 0 <? bits then read0_loop fuel' src r cursor value bits else Some (r, cursor, value)
  end.

Definition read0 (src : list Z) (r : reader) (cursor : nat) (value bits : Z) :
    option (reader * nat * Z) :=
  read0_loop (S (Z.to_nat bits)) src r cursor value bits.

(** [read] calls itself after a marker, with the width one larger; the width
    stays below 32, which bounds the recursion. *)
Fixpoint read_rec (fuel : nat) (src : list Z) (r : reader) (cursor : nat) :
    option (reader * nat * Z) :=
  match fuel with
  | O => None
  | S fuel' =>
      '(r, cursor, value) ← read0 src r cursor 0 (width r);
      if value =? u32 (u32 (1 ≪ width r) - 1)
      then read_rec fuel' src (Reader (width r + 1) (in_byte_offset r)) cursor
      else Some (r, cursor, value)
  end.

Definition read (src : list Z) (r : reader) (cursor : nat) : option (reader * nat * Z) :=
  read_rec 32 src r cursor.

End VarIntReader.

(** ** The writer appends bit strings

    [rep w l]: the pending bits of the writer are [l]; they sit at the top of
    [buffer], the rest of which is zero. *)

Module WriterSpec.
Import VarIntWriter.

Definition rep (w : writer) (l : list bool) : Prop :=
  fill_level w = Z.of_nat (length l) /\ (length l <= 8)%nat /\
  u8 (buffer w) = bits_val l * 2 ^ (8 - Z.of_nat (length l)).

Lemma rep_init : rep init [].
Proof. split_and!; [done|simpl; lia|done]. Qed.

Lemma rep_full w l : rep w l -> length l = 8%nat -> byte_bits (u8 (buffer w)) = l.
Proof.
  intros (_ & _ & Hb) Hl. rewrite Hb, Hl, Z.mul_1_r. unfold byte_bits.
  rewrite <- Hl. apply bits_of_val.
Qed.

(** The or-ed part of one round, as the new low bits of the pending ones. *)
Lemma merge_part (A X n k : Z) :
  0 <= A < 2 ^ n -> 0 <= n -> 0 <= k -> n + k <= 8 ->
  A * 2 ^ (8 - n) .| u8 (u8 (X .& u32 (u32 (1 ≪ k) - 1)) ≪ (8 - n - k))
  = (A * 2 ^ k + wrap k X) * 2 ^ (8 - (n + k)).
Proof.
  intros HA Hn Hk Hnk.
  assert (2 ^ k <= 2 ^ 8) by (apply Z.pow_le_mono_r; lia).
  pose proof (pow2_pos k Hk). pose proof (wrap_range k X Hk) as HX.
  rewrite shiftl_1, (wrap_small 32 (2 ^ k)), (wrap_small 32) by lia.
  rewrite land_ones_wrap, (wrap_small 8 (wrap k X)), Z.shiftl_mul_pow2 by lia.
  assert (wrap k X * 2 ^ (8 - n - k) < 2 ^ 8).
  { apply Z.lt_le_trans with (2 ^ k * 2 ^ (8 - n - k)).
    - apply Z.mul_lt_mono_pos_r; [apply pow2_pos|]; lia.
    - rewrite <- Z.pow_add_r by lia. apply Z.pow_le_mono_r; lia. }
  rewrite wrap_small by (pose proof (pow2_pos (8 - n - k)); nia).
  rewrite <- lor_disjoint_add, <- !Z.shiftl_mul_pow2, Z.shiftl_lor, Z.shiftl_shiftl by lia.
  f_equal; f_equal; lia.
Qed.

Lemma rep_part w l k X wd :
  rep w l -> 0 <= k -> Z.of_nat (length l) + k <= 8 ->
  rep (Writer wd (fill_level w + k)
         (s8 (buffer w .| u8 (u8 (X .& u32 (u32 (1 ≪ k) - 1)) ≪ (8 - fill_level w - k)))))
      (l ++ bits_of (Z.to_nat k) X).
Proof.
  intros (Hf & Hl & Hb) Hk Hlk. unfold rep. cbn [fill_level buffer].
  rewrite length_app, bits_of_length, bits_val_app, bits_of_length, bits_val_of, Hf.
  split_and!; [lia..|]. pose proof (bits_val_range l).
  rewrite wrap_swrap, wrap_lor, wrap_idemp, Hb, merge_part by lia.
  f_equal; [f_equal; [f_equal|f_equal]|f_equal]; f_equal; lia.
Qed.

Lemma bytes_bits_app bs cs : bytes_bits (bs ++ cs) = bytes_bits bs ++ bytes_bits cs.
Proof. unfold bytes_bits. by rewrite fmap_app, concat_app. Qed.

Lemma bytes_bits_one b : bytes_bits [b] = byte_bits b.
Proof. apply app_nil_r. Qed.

Lemma bytes_bits_length bs : length (bytes_bits bs) = (8 * length bs)%nat.
Proof.
  induction bs as [|b bs IH]; [done|]. cbn [bytes_bits fmap list_fmap concat].
  rewrite length_app, byte_bits_length.
  change (concat (byte_bits <$> bs)) with (bytes_bits bs). rewrite IH. simpl. lia.
Qed.

(** What a writing operation promises: from pending bits [l] it emits bytes
    [out] and leaves pending bits [l'], together [l] followed by [bs]; it
    leaves at least one bit pending. *)
Definition appends (w : writer) (l bs : list bool) (res : option (writer * list Z)) (wd : Z) : Prop :=
  exists w' out l', res = Some (w', out) /\ rep w' l' /\ l' <> [] /\ width w' = wd /\
    bytes_bits out ++ l' = l ++ bs /\ Forall is_byte out.

Lemma write0_loop_spec fuel w l value bits out :
  rep w l -> 0 < bits -> (Z.to_nat bits < fuel)%nat ->
  exists w' out' l', write0_loop fuel w value bits out = Some (w', out ++ out') /\
    rep w' l' /\ l' <> [] /\ width w' = width w /\
    bytes_bits out' ++ l' = l ++ bits_of (Z.to_nat bits) value /\ Forall is_byte out'.
Proof.
  revert w l bits out. induction fuel as [|fuel IH]; intros w l bits out Hr Hb Hf; [lia|].
  cbn [write0_loop].
  assert (exists w1 l1 o1, (if fill_level w =? 8 then (Writer (width w) 0 0, out ++ [u8 (buffer w)])
      else (w, out)) = (w1, out ++ o1) /\ rep w1 l1 /\ (length l1 < 8)%nat /\
      width w1 = width w /\ bytes_bits o1 ++ l1 = l /\ Forall is_byte o1) as
    (w1 & l1 & o1 & -> & Hr1 & Hl1 & Hw1 & Hs1 & Ho1).
  { pose proof Hr as (Hfl & Hl & Hv). destruct (Z.eqb_spec (fill_level w) 8) as [E|E].
    - exists (Writer (width w) 0 0), [], [u8 (buffer w)]. split_and!; [done|split_and!; [done|simpl; lia|done]| |done| |].
      + simpl. lia.
      + rewrite app_nil_r, bytes_bits_one. apply rep_full; [done|lia].
      + constructor; [|done]. apply (wrap_range 8). lia.
    - exists w, l, []. rewrite app_nil_r. split_and!; try done. lia. }
  pose proof Hr1 as (Hfl & _ & _).
  set (k := Z.min (8 - fill_level w1) bits).
  pose proof (rep_part w1 l1 k (value ≫ (bits - k)) (width w1) Hr1 ltac:(lia) ltac:(lia)) as Hr2.
  set (w2 := Writer _ _ _) in *.
  assert (l1 ++ bits_of (Z.to_nat k) (value ≫ (bits - k)) <> []) as Hne.
  { intros [_ E]%app_eq_nil. apply (f_equal length) in E. rewrite bits_of_length in E.
    simpl in E. lia. }
  destruct (Z.ltb_spec 0 (bits - k)) as [Hlt|Hge].
  - destruct (IH w2 _ (bits - k) (out ++ o1) Hr2 Hlt ltac:(lia))
      as (w' & o' & l' & -> & Hr' & Hn' & Hw' & Hs' & Ho').
    exists w', (o1 ++ o'), l'. rewrite app_assoc. split_and!; try done.
    + by rewrite Hw'.
    + rewrite bytes_bits_app, <- app_assoc, Hs', !app_assoc, Hs1, <- app_assoc. f_equal.
      replace (Z.to_nat bits) with (Z.to_nat k + Z.to_nat (bits - k))%nat by lia.
      rewrite bits_of_app, Z2Nat.id by lia. done.
    + by apply Forall_app.
  - exists w2, o1, (l1 ++ bits_of (Z.to_nat k) (value ≫ (bits - k))). split_and!; try done.
    rewrite app_assoc, Hs1. replace (bits - k) with 0 by lia. rewrite Z.shiftr_0_r.
    by replace k with bits by lia.
Qed.

Lemma write0_spec w l value bits :
  rep w l -> 0 < bits ->
  appends w l (bits_of (Z.to_nat bits) value) (write0 w value bits) (width w).
Proof.
  intros Hr Hb. destruct (write0_loop_spec (S (Z.to_nat bits)) w l value bits [] Hr Hb) as
    (w' & out & l' & E & H); [lia|].
  exists w', out, l'. tauto.
Qed.

Lemma expand_spec w l :
  rep w l -> 8 <= width w < 31 ->
  appends w l (bits_of (Z.to_nat (width w)) (2 ^ width w - 1)) (expand w) (width w + 1).
Proof.
  intros Hr Hw. unfold expand.
  assert (2 ^ width w <= 2 ^ 30) by (apply Z.pow_le_mono_r; lia).
  pose proof (pow2_pos (width w)).
  rewrite shiftl_1, (swrap_small 32 (2 ^ width w)), wrap_small by (simpl; lia).
  apply write0_spec; [|lia]. done.
Qed.

(** Two writing operations in sequence. *)
Lemma appends_bind w l bs1 bs2 r wd1 wd2 (f : writer -> option (writer * list Z)) :
  appends w l bs1 r wd1 ->
  (forall w1 l1, rep w1 l1 -> width w1 = wd1 -> appends w1 l1 bs2 (f w1) wd2) ->
  appends w l (bs1 ++ bs2)
    ('(w1, o1) ← r; '(w2, o2) ← f w1; Some (w2, o1 ++ o2)) wd2.
Proof.
  intros (w1 & o1 & l1 & -> & Hr1 & _ & Hw1 & Hs1 & Ho1) Hf.
  destruct (Hf w1 l1 Hr1 Hw1) as (w2 & o2 & l2 & E2 & Hr2 & Hn2 & Hw2 & Hs2 & Ho2).
  exists w2, (o1 ++ o2), l2. simpl. rewrite E2. simpl. split_and!; try done.
  - rewrite bytes_bits_app, <- app_assoc, Hs2, app_assoc, Hs1. by rewrite app_assoc.
  - by apply Forall_app.
Qed.

(** The bits of one integer: markers that widen the code until the value
    fits, then the value.  [emits w v w' bs]: from width [w] the value [v] is
    written as [bs], leaving width [w']. *)
Inductive emits : Z -> Z -> Z -> list bool -> Prop :=
| emits_fits w v :
    0 <= v < 2 ^ w - 2 -> emits w v w (bits_of (Z.to_nat w) v)
| emits_widen w v w' bs :
    2 ^ w - 2 <= v -> emits (w + 1) v w' bs ->
    emits w v w' (bits_of (Z.to_nat w) (2 ^ w - 1) ++ bs).

Lemma emits_width w v w' bs : emits w v w' bs -> w <= w'.
Proof. induction 1; lia. Qed.

Lemma emits_length w v w' bs : 0 <= w -> emits w v w' bs -> Z.of_nat (length bs) >= w.
Proof.
  intros Hw H. revert Hw. induction H; intros Hw; autorewrite with antz; lia.
Qed.

Lemma limit_eq w : 2 <= w < 32 -> u32 (u32 (1 ≪ w) - 1 - 1) = 2 ^ w - 2.
Proof.
  intros Hw. assert (2 ^ w <= 2 ^ 31) by (apply Z.pow_le_mono_r; lia).
  assert (2 ^ 2 <= 2 ^ w) by (apply Z.pow_le_mono_r; lia).
  rewrite shiftl_1, (wrap_small 32 (2 ^ w)), wrap_small by (simpl in *; lia). lia.
Qed.

Lemma marker_eq w : 0 <= w < 32 -> u32 (u32 (1 ≪ w) - 1) = 2 ^ w - 1.
Proof.
  intros Hw. assert (2 ^ w <= 2 ^ 31) by (apply Z.pow_le_mono_r; lia). pose proof (pow2_pos w).
  rewrite shiftl_1, (wrap_small 32 (2 ^ w)), wrap_small by (simpl in *; lia). lia.
Qed.

Lemma pow2_gap w v : 0 <= w < 30 -> 2 ^ w - 2 <= v -> v < 2 ^ 29 - 2 -> w < 29.
Proof.
  intros Hw Hv Hm. destruct (Z.lt_ge_cases w 29) as [|H]; [done|].
  assert (2 ^ 29 <= 2 ^ w) by (apply Z.pow_le_mono_r; lia). lia.
Qed.

(** [write] is the widening loop followed by the value: the loop and the
    final [write0] together emit the bits of [emits]. *)
Lemma write_loop_spec fuel w l v out :
  rep w l -> 8 <= width w < 30 -> 0 <= v < 2 ^ 29 - 2 -> 30 - width w <= Z.of_nat fuel ->
  exists w' wd bs, emits (width w) v wd bs /\ 8 <= wd < 30 /\
    ('(w1, o1) ← write_loop fuel w v out; '(w2, o2) ← write0 w1 v (width w1); Some (w2, o1 ++ o2))
      = Some w' /\
    appends w l bs (Some (w'.1, drop (length out) w'.2)) wd /\ prefix out w'.2.
Proof.
  revert w l out. induction fuel as [|fuel IH]; intros w l out Hr Hw Hv Hf; [lia|].
  cbn [write_loop]. rewrite limit_eq by lia. destruct (Z.leb_spec (2 ^ width w - 2) v) as [Hle|Hgt].
  - pose proof (pow2_gap (width w) v ltac:(lia) Hle ltac:(lia)) as Hlt.
    destruct (expand_spec w l Hr ltac:(lia)) as (w1 & o1 & l1 & E1 & Hr1 & _ & Hw1 & Hs1 & Ho1).
    rewrite E1. simpl.
    destruct (IH w1 l1 (out ++ o1) Hr1 ltac:(lia) Hv ltac:(lia)) as
      (w' & wd & bs & He & Hwd & E & (w2 & o2 & l2 & Eo & Hr2 & Hn2 & Hw2 & Hs2 & Ho2) & [o3 Hp]).
    exists w', wd, (bits_of (Z.to_nat (width w)) (2 ^ width w - 1) ++ bs).
    rewrite Hw1 in He. split_and!; [by apply emits_widen|lia|lia|done| |].
    + injection Eo as Ew Eo. rewrite Hp in Eo. rewrite drop_app_length in Eo. subst o3.
      exists w2, (o1 ++ o2), l2. rewrite Hp, <- app_assoc, drop_app_length.
      split_and!; [by rewrite Ew|done..| |by apply Forall_app].
      by rewrite bytes_bits_app, <- app_assoc, Hs2, app_assoc, Hs1, app_assoc.
    + exists (o1 ++ o3). by rewrite Hp, app_assoc.
  - destruct (write0_spec w l v (width w) Hr ltac:(lia)) as
      (w2 & o2 & l2 & E & Hr2 & Hn2 & Hw2 & Hs2 & Ho2).
    exists (w2, out ++ o2), (width w), (bits_of (Z.to_nat (width w)) v). simpl.
    rewrite E. split_and!; [apply emits_fits; lia|lia|lia|done| |by eexists].
    rewrite drop_app_length. exists w2, o2, l2. done.
Qed.

Lemma write_spec w l v :
  rep w l -> 8 <= width w < 30 -> 0 <= v < 2 ^ 29 - 2 ->
  exists wd bs, emits (width w) v wd bs /\ 8 <= wd < 30 /\ appends w l bs (write w v) wd.
Proof.
  intros Hr Hw Hv. destruct (write_loop_spec 32 w l v [] Hr Hw Hv) as
    ([w' o] & wd & bs & He & Hwd & E & Ha & _); [lia|].
  exists wd, bs. unfold write. rewrite E. split_and!; [done|lia|lia|]. done.
Qed.

(** [flush] writes the end mark, a marker followed by a zero, and pads the
    last byte with zero bits. *)
Definition end_mark (w : Z) : list bool :=
  bits_of (Z.to_nat w) (2 ^ w - 1) ++ bits_of (Z.to_nat (w + 1)) 0.

Lemma flush_spec w l :
  rep w l -> 8 <= width w < 30 ->
  exists w' out pad, flush w = Some (w', out) /\ bytes_bits out = l ++ end_mark (width w) ++ pad /\
    (length pad < 8)%nat /\ Forall is_byte out.
Proof.
  intros Hr Hw.
  assert (appends w l (end_mark (width w))
    ('(w1, o1) ← expand w; '(w2, o2) ← write0 w1 0 (width w1); Some (w2, o1 ++ o2)) (width w + 1))
    as (w' & out & l' & E & (Hf & Hl & Hb) & Hn & _ & Hs & Ho).
  { apply appends_bind with (width w + 1); [apply expand_spec; [done|lia]|].
    intros w1 l1 Hr1 Hw1. rewrite <- Hw1. apply write0_spec; [done|lia]. }
  exists w', (out ++ [u8 (buffer w')]), (bits_of (8 - length l') 0). split_and!.
  - unfold flush. destruct (expand w) as [[w1 o1]|]; [|done]. simpl in *.
    destruct (write0 w1 0 (width w1)) as [[w2 o2]|]; [|done]. simpl in *. simplify_eq.
    by rewrite app_assoc.
  - rewrite bytes_bits_app, bytes_bits_one, app_assoc, <- Hs, <- app_assoc. f_equal.
    rewrite Hb. unfold byte_bits. replace 8%nat with (length l' + (8 - length l'))%nat at 1 by lia.
    rewrite bits_of_app, Nat2Z.inj_sub by done. change (Z.of_nat 8) with 8.
    rewrite <- Z.shiftl_mul_pow2, Z.shiftr_shiftl_l, Z.sub_diag, Z.shiftl_0_r by lia.
    f_equal; [apply bits_of_val|].
    rewrite Z.shiftl_mul_pow2 by lia.
    replace (8 - Z.of_nat (length l')) with (Z.of_nat (8 - length l')) by lia.
    apply bits_of_multiple.
  - rewrite bits_of_length. destruct l'; [done|simpl; lia].
  - apply Forall_app; split; [done|]. constructor; [|done]. apply (wrap_range 8). lia.
Qed.

End WriterSpec.

(** ** The reader consumes bit strings

    [stream src cursor off]: the bits from bit [off] of byte [cursor] on. *)

Module ReaderSpec.
Import VarIntReader.
Import WriterSpec.

Definition stream (src : list Z) (cursor off : nat) : list bool :=
  drop off (bytes_bits (drop cursor src)).

Lemma stream_next src cursor : stream src cursor 8 = stream src (S cursor) 0.
Proof.
  unfold stream. rewrite drop_0. destruct (src !! cursor) as [b|] eqn:E.
  - rewrite (drop_S _ _ _ E). unfold bytes_bits. cbn [fmap list_fmap concat].
    by rewrite drop_app_length' by (by rewrite byte_bits_length).
  - apply lookup_ge_None in E. by rewrite (drop_ge src cursor), (drop_ge src (S cursor)) by lia.
Qed.

Lemma byte_bits_part b off k :
  (off + k <= 8)%nat ->
  drop off (byte_bits b) = bits_of k (b ≫ Z.of_nat (8 - off - k)) ++ drop (off + k) (byte_bits b).
Proof.
  intros H. unfold byte_bits. rewrite !bits_of_drop by lia.
  replace (bits_of (8 - off) b) with (bits_of (k + (8 - off - k)) b) by (f_equal; lia).
  rewrite bits_of_app.
  f_equal. f_equal. lia.
Qed.

Lemma stream_part src cursor off k b :
  src !! cursor = Some b -> (off + k <= 8)%nat ->
  stream src cursor off
  = bits_of k (b ≫ Z.of_nat (8 - off - k)) ++ stream src cursor (off + k).
Proof.
  intros E H. unfold stream. rewrite (drop_S _ _ _ E).
  unfold bytes_bits. cbn [fmap list_fmap concat].
  rewrite !drop_app_le by (rewrite byte_bits_length; lia).
  rewrite (byte_bits_part b off k H), <- app_assoc. done.
Qed.

Lemma stream_byte src cursor off s :
  stream src cursor off = s -> s <> [] -> exists b, src !! cursor = Some b.
Proof.
  intros <- Hn. destruct (src !! cursor) eqn:E; [eauto|]. apply lookup_ge_None in E.
  exfalso. apply Hn. unfold stream. rewrite (drop_ge src) by lia. apply drop_nil.
Qed.

(** The part of the current byte that one round takes. *)
Lemma part_value b off k :
  0 <= off -> 0 < k -> off + k <= 8 ->
  u8 ((b ≫ (8 - off - k)) .& u8 (u32 (1 ≪ k) - 1))
  = bits_val (bits_of (Z.to_nat k) (b ≫ Z.of_nat (8 - Z.to_nat off - Z.to_nat k))).
Proof.
  intros Ho Hk Hok. rewrite bits_val_of, Z2Nat.id by lia.
  assert (2 ^ k <= 2 ^ 8) by (apply Z.pow_le_mono_r; lia). pose proof (pow2_pos k).
  rewrite shiftl_1, (wrap_small 32 (2 ^ k)), (wrap_small 8 (2 ^ k - 1)) by (simpl in *; lia).
  rewrite land_ones_wrap by lia.
  replace (Z.of_nat (8 - Z.to_nat off - Z.to_nat k)) with (8 - off - k) by lia.
  apply wrap_small. pose proof (wrap_range k (b ≫ (8 - off - k))). lia.
Qed.

Lemma accumulate lim h n m P :
  0 <= h -> 0 <= m -> 0 <= n -> 0 <= P < 2 ^ n -> (h + 1) * 2 ^ (n + m) <= lim -> lim <= 2 ^ 32 ->
  u32 (h * 2 ^ (n + m) .| (P ≪ m)) = (h * 2 ^ n + P) * 2 ^ m /\ (h * 2 ^ n + P + 1) * 2 ^ m <= lim.
Proof.
  intros Hh Hm Hn HP Hb Hlim. rewrite Z.pow_add_r in * by lia.
  pose proof (pow2_pos n). pose proof (pow2_pos m).
  assert ((h * 2 ^ n + P + 1) * 2 ^ m <= lim) by nia.
  split; [|done]. rewrite Z.mul_assoc, <- (Z.shiftl_mul_pow2 _ m), <- Z.shiftl_lor by lia.
  rewrite <- (Z.shiftl_mul_pow2 h n), lor_disjoint_add, !Z.shiftl_mul_pow2 by lia.
  apply wrap_small. nia.
Qed.

(** One round of a reading loop: the bits [bs] asked for lose their first
    part, which moves into the value. *)
Lemma read_round lim src c off h bits bs rest b :
  src !! c = Some b -> 0 <= off < 8 -> 0 < bits ->
  stream src c (Z.to_nat off) = bs ++ rest -> length bs = Z.to_nat bits ->
  0 <= h -> (h + 1) * 2 ^ bits <= lim -> lim <= 2 ^ 32 ->
  let k := Z.min (8 - off) bits in
  exists h' bs2,
    u32 (h * 2 ^ bits .| (u8 ((b ≫ (8 - off - k)) .& u8 (u32 (1 ≪ k) - 1)) ≪ (bits - k)))
      = h' * 2 ^ (bits - k) /\
    0 <= h' /\ (h' + 1) * 2 ^ (bits - k) <= lim /\
    h' * 2 ^ (bits - k) + bits_val bs2 = h * 2 ^ bits + bits_val bs /\
    length bs2 = Z.to_nat (bits - k) /\ stream src c (Z.to_nat (off + k)) = bs2 ++ rest.
Proof.
  intros Eb Ho Hb Hs Hl Hh Hm Hlim k.
  rewrite (stream_part _ _ _ (Z.to_nat k) _ Eb) in Hs by lia.
  rewrite part_value by lia. set (p := bits_of _ _) in *.
  assert (length p = Z.to_nat k) as Hp by apply bits_of_length.
  apply app_eq_prefix in Hs as (bs2 & -> & Hs); [|lia].
  rewrite length_app, Hp in Hl. pose proof (bits_val_range p) as Hr. rewrite Hp, Z2Nat.id in Hr by lia.
  destruct (accumulate lim h k (bits - k) (bits_val p)) as [E Hm2]; try lia.
  { by replace (k + (bits - k)) with bits by lia. }
  exists (h * 2 ^ k + bits_val p), bs2. pose proof (pow2_pos k).
  replace (k + (bits - k)) with bits in E by lia. split_and!; [done|nia|done| |lia|].
  - rewrite bits_val_app. replace (Z.of_nat (length bs2)) with (bits - k) by lia.
    replace bits with (k + (bits - k)) at 2 by lia. rewrite Z.pow_add_r by lia. ring.
  - by rewrite Z2Nat.inj_add by lia.
Qed.

Lemma read0_loop_spec fuel src r cursor h bits bs rest :
  0 <= in_byte_offset r <= 8 -> 0 < bits -> (Z.to_nat bits < fuel)%nat ->
  stream src cursor (Z.to_nat (in_byte_offset r)) = bs ++ rest -> length bs = Z.to_nat bits ->
  0 <= h -> (h + 1) * 2 ^ bits <= 2 ^ 32 ->
  exists r' cursor', read0_loop fuel src r cursor (h * 2 ^ bits) bits
      = Some (r', cursor', h * 2 ^ bits + bits_val bs) /\
    0 <= in_byte_offset r' <= 8 /\ width r' = width r /\
    stream src cursor' (Z.to_nat (in_byte_offset r')) = rest.
Proof.
  revert r cursor h bits bs.
  induction fuel as [|fuel IH]; intros r cursor h bits bs Ho Hb Hf Hs Hl Hh Hm; [lia|].
  cbn [read0_loop].
  assert (exists r1 c1, (if in_byte_offset r =? 8 then (Reader (width r) 0, S cursor) else (r, cursor))
    = (r1, c1) /\ 0 <= in_byte_offset r1 < 8 /\ width r1 = width r /\
    stream src c1 (Z.to_nat (in_byte_offset r1)) = bs ++ rest) as (r1 & c1 & -> & Ho1 & Hw1 & Hs1).
  { destruct (Z.eqb_spec (in_byte_offset r) 8) as [E|E].
    - exists (Reader (width r) 0), (S cursor). split_and!; try done. by rewrite <- Hs, E, <- stream_next.
    - exists r, cursor. split_and!; try done; lia. }
  destruct (stream_byte _ _ _ _ Hs1) as [b Eb].
  { intros [E _]%app_eq_nil. subst. simpl in Hl. lia. }
  rewrite Eb. cbn [mbind option_bind].
  destruct (read_round (2 ^ 32) src c1 _ h bits bs rest b Eb Ho1 Hb Hs1 Hl Hh Hm ltac:(lia))
    as (h' & bs2 & -> & Hh' & Hm' & Hv & Hl2 & Hs2).
  set (k := Z.min (8 - in_byte_offset r1) bits) in *. rewrite <- Hv.
  destruct (Z.ltb_spec 0 (bits - k)).
  - destruct (IH (Reader (width r1) (in_byte_offset r1 + k)) c1 h' (bits - k) bs2) as
      (r' & c' & -> & Ho' & Hw' & Hs'); simpl; try done; try lia.
    exists r', c'. split_and!; [done|lia|lia| |done]. by rewrite Hw'.
  - replace (bits - k) with 0 in * by lia. destruct bs2; [|done]. simpl in Hs2.
    exists (Reader (width r1) (in_byte_offset r1 + k)), c1. simpl.
    split_and!; [by rewrite Z.add_0_r|lia|lia|done|done].
Qed.

Lemma read0_spec src r cursor bits bs rest :
  0 <= in_byte_offset r <= 8 -> 0 < bits <= 32 ->
  stream src cursor (Z.to_nat (in_byte_offset r)) = bs ++ rest -> length bs = Z.to_nat bits ->
  exists r' cursor', read0 src r cursor 0 bits = Some (r', cursor', bits_val bs) /\
    0 <= in_byte_offset r' <= 8 /\ width r' = width r /\
    stream src cursor' (Z.to_nat (in_byte_offset r')) = rest.
Proof.
  intros Ho Hb Hs Hl. unfold read0.
  apply (read0_loop_spec (S (Z.to_nat bits)) src r cursor 0 bits bs rest); try lia; try done.
  rewrite Z.mul_1_l. apply Z.pow_le_mono_r; lia.
Qed.

(** The C++ reader gets back what the writer emitted for one integer. *)
Lemma read_rec_emits fuel src r cursor v wd bs rest :
  emits (width r) v wd bs -> 8 <= width r -> wd < 30 -> 0 <= in_byte_offset r <= 8 ->
  stream src cursor (Z.to_nat (in_byte_offset r)) = bs ++ rest ->
  wd - width r < Z.of_nat fuel ->
  exists r' cursor', read_rec fuel src r cursor = Some (r', cursor', v) /\
    0 <= in_byte_offset r' <= 8 /\ width r' = wd /\
    stream src cursor' (Z.to_nat (in_byte_offset r')) = rest.
Proof.
  intros He. remember (width r) as w eqn:Ew.
  revert r cursor fuel Ew. induction He as [w v Hv|w v w' bs Hv He IH];
    intros r cursor fuel -> Hw Hwd Ho Hs Hf.
  - destruct fuel as [|fuel]; [lia|]. cbn [read_rec].
    destruct (read0_spec src r cursor (width r) _ rest Ho ltac:(lia) Hs)
      as (r1 & c1 & -> & Ho1 & Hw1 & Hs1); [apply bits_of_length|].
    cbn [mbind option_bind]. rewrite bits_val_of, Z2Nat.id, wrap_small, Hw1, marker_eq by lia.
    rewrite (proj2 (Z.eqb_neq v _)) by lia. eauto 10.
  - apply emits_width in He as Hle. destruct fuel as [|fuel]; [lia|]. cbn [read_rec].
    rewrite <- app_assoc in Hs.
    destruct (read0_spec src r cursor (width r) _ _ Ho ltac:(lia) Hs)
      as (r1 & c1 & -> & Ho1 & Hw1 & Hs1); [apply bits_of_length|].
    cbn [mbind option_bind]. pose proof (pow2_pos (width r)).
    rewrite bits_val_of, Z2Nat.id, wrap_small, Hw1, marker_eq, Z.eqb_refl by lia.
    apply IH; simpl; try done; lia.
Qed.

Lemma read_emits src r cursor v wd bs rest :
  emits (width r) v wd bs -> 8 <= width r -> wd < 30 -> 0 <= in_byte_offset r <= 8 ->
  stream src cursor (Z.to_nat (in_byte_offset r)) = bs ++ rest ->
  exists r' cursor', read src r cursor = Some (r', cursor', v) /\
    0 <= in_byte_offset r' <= 8 /\ width r' = wd /\
    stream src cursor' (Z.to_nat (in_byte_offset r')) = rest.
Proof. intros. apply read_rec_emits with bs; try done. lia. Qed.

End ReaderSpec.

(** ** Sequences of integers

    [write_all] and [write_flushed] drive the writer the way the encoders do:
    one [write] per integer, a final [flush]. *)

Module Sequences.
Import VarIntWriter.
Import WriterSpec.

Fixpoint write_all (w : writer) (vs : list Z) (out : list Z) : option (writer * list Z) :=
  match vs with
  | [] => Some (w, out)
  | v :: vs => '(w, bs) ← write w v; write_all w vs (out ++ bs)
  end.

Definition write_flushed (vs : list Z) : option (list Z) :=
  '(w, out) ← write_all init vs [];
  '(_, bs) ← flush w;
  Some (out ++ bs).

(** [read_n n]: [n] integers read one after the other. *)
Fixpoint read_n (n : nat) (src : list Z) (r : VarIntReader.reader) (cursor : nat) :
    option (list Z) :=
  match n with
  | O => Some []
  | S n =>
      '(r, cursor, v) ← VarIntReader.read src r cursor;
      vs ← read_n n src r cursor;
      Some (v :: vs)
  end.

Inductive emits_all : Z -> list Z -> Z -> list bool -> Prop :=
| emits_all_nil w : emits_all w [] w []
| emits_all_cons w v w1 bs1 vs w2 bs2 :
    emits w v w1 bs1 -> emits_all w1 vs w2 bs2 -> emits_all w (v :: vs) w2 (bs1 ++ bs2).

Definition code_ok (v : Z) : Prop := 0 <= v < 2 ^ 29 - 2.

#[global] Instance code_ok_dec v : Decision (code_ok v).
Proof. unfold code_ok. apply _. Defined.

Lemma emits_all_app w vs1 w1 bs1 vs2 w2 bs2 :
  emits_all w vs1 w1 bs1 -> emits_all w1 vs2 w2 bs2 ->
  emits_all w (vs1 ++ vs2) w2 (bs1 ++ bs2).
Proof.
  induction 1 as [|w v w1' bs1' vs w1 bs He Hes IH]; [done|]; intros H. simpl.
  rewrite <- app_assoc. econstructor; [done|by apply IH].
Qed.

Lemma emits_all_width w vs w' bs : emits_all w vs w' bs -> w <= w'.
Proof. induction 1 as [|????????He]; [lia|]. apply emits_width in He. lia. Qed.

(** The state after writing [vs] from [init]: what was emitted and what is
    pending is the code of [vs]. *)
Definition wrote (vs : list Z) (w : writer) (out : list Z) : Prop :=
  exists l bs, rep w l /\ 8 <= width w < 30 /\ emits_all 8 vs (width w) bs /\
    bytes_bits out ++ l = bs /\ Forall is_byte out.

Lemma wrote_init : wrote [] init [].
Proof.
  exists [], []. split_and!; [apply rep_init|simpl; lia|simpl; lia|constructor|done|done].
Qed.

Lemma wrote_write vs w out v :
  wrote vs w out -> code_ok v ->
  exists w' bs, write w v = Some (w', bs) /\ wrote (vs ++ [v]) w' (out ++ bs).
Proof.
  intros (l & bs & Hr & Hw & He & Hs & Ho) Hv.
  destruct (write_spec w l v Hr Hw Hv) as (wd & bs' & Hev & Hwd & w' & o & l' & E & Hr' & _ & <- & Hs' & Ho').
  exists w', o. split; [done|]. exists l', (bs ++ bs').
  split_and!; [done|lia|lia| | |by apply Forall_app].
  - apply emits_all_app with (width w); [done|]. rewrite <- (app_nil_r bs').
    econstructor; [done|constructor].
  - by rewrite bytes_bits_app, <- app_assoc, Hs', app_assoc, Hs.
Qed.

Lemma wrote_all vs vs0 w out :
  wrote vs0 w out -> Forall code_ok vs ->
  exists w' out', write_all w vs out = Some (w', out') /\ wrote (vs0 ++ vs) w' out'.
Proof.
  revert vs0 w out. induction vs as [|v vs IH]; intros vs0 w out Hw Hv; simpl.
  - rewrite app_nil_r. eauto.
  - apply Forall_cons in Hv as [Hv Hvs].
    destruct (wrote_write vs0 w out v Hw Hv) as (w1 & bs & -> & Hw1). simpl.
    destruct (IH _ _ _ Hw1 Hvs) as (w' & out' & -> & Hw'). rewrite <- app_assoc in Hw'. eauto.
Qed.

Lemma wrote_flush vs w out :
  wrote vs w out ->
  exists w' bs wd code pad, flush w = Some (w', bs) /\ emits_all 8 vs wd code /\ 8 <= wd < 30 /\
    bytes_bits (out ++ bs) = code ++ end_mark wd ++ pad /\ Forall is_byte (out ++ bs).
Proof.
  intros (l & bs & Hr & Hw & He & Hs & Ho).
  destruct (flush_spec w l Hr Hw) as (w' & o & pad & E & Hb & _ & Hob).
  exists w', o, (width w), bs, pad. split_and!; [done|done|lia|lia| |by apply Forall_app].
  by rewrite bytes_bits_app, Hb, app_assoc, Hs.
Qed.

Lemma write_flushed_spec vs :
  Forall code_ok vs ->
  exists bytes wd code pad, write_flushed vs = Some bytes /\ emits_all 8 vs wd code /\ 8 <= wd < 30 /\
    bytes_bits bytes = code ++ end_mark wd ++ pad /\ Forall is_byte bytes.
Proof.
  intros Hv. destruct (wrote_all vs [] init [] wrote_init Hv) as (w & out & E & Hw).
  destruct (wrote_flush _ _ _ Hw) as (w' & bs & wd & code & pad & E' & H).
  exists (out ++ bs), wd, code, pad. unfold write_flushed. by rewrite E; simpl; rewrite E'.
Qed.

Lemma read_n_emits vs src r cursor wd bs rest :
  emits_all (VarIntReader.width r) vs wd bs -> 8 <= VarIntReader.width r -> wd < 30 ->
  0 <= VarIntReader.in_byte_offset r <= 8 ->
  ReaderSpec.stream src cursor (Z.to_nat (VarIntReader.in_byte_offset r)) = bs ++ rest ->
  read_n (length vs) src r cursor = Some vs.
Proof.
  intros He. remember (VarIntReader.width r) as w eqn:Ew. revert r cursor Ew.
  induction He as [|w v w1 bs1 vs w2 bs2 He Hes IH]; intros r cursor -> Hw Hwd Ho Hs; [done|].
  cbn [length read_n]. apply emits_all_width in Hes as Hle. rewrite <- app_assoc in Hs.
  destruct (ReaderSpec.read_emits src r cursor v w1 bs1 _ He ltac:(lia) ltac:(lia) Ho Hs)
    as (r' & c' & -> & Ho' & Hw' & Hs'). cbn [mbind option_bind].
  apply emits_width in He. by rewrite (IH r' c') by (done || lia).
Qed.

End Sequences.

(** C4: A sequence of integers below 2^29 - 2 written by [VarIntWriter] and
    flushed is read back, integer by integer, by [VarIntReader], and every
    stored value is a byte. *)
Theorem varint_roundtrip (vs : list Z) :
  Forall Sequences.code_ok vs ->
  exists bytes, Sequences.write_flushed vs = Some bytes /\ Forall is_byte bytes /\
    Sequences.read_n (length vs) bytes VarIntReader.init 0 = Some vs.
Proof.
  intros Hv. destruct (Sequences.write_flushed_spec vs Hv) as (bytes & wd & code & pad & E & He & Hwd & Hb & Ho).
  exists bytes. split_and!; [done|done|].
  apply Sequences.read_n_emits with wd code (WriterSpec.end_mark wd ++ pad); simpl; try done; try lia.
Qed.

Lemma varint_roundtrip_witness :
  exists bytes, Sequences.write_flushed [65; 300; 7; 16383] = Some bytes /\ Forall is_byte bytes /\
    Sequences.read_n 4 bytes VarIntReader.init 0 = Some [65; 300; 7; 16383].
Proof.
  apply (varint_roundtrip [65; 300; 7; 16383]). by_decide.
Defined.
