(* ===== verification/MapInterface.v ===== *)
(** * The map interfaces ([prims/Map.hpp])

    The abstract classes [Map] and [NavigableMap] as type classes: the
    operations, and what an implementation promises, stated against a finite
    map.  An operation that the C++ code could leave undefined (an access
    outside an array) or that could fail to return has an option result;
    the laws say that on represented maps it does not happen.  [remove] is
    declared by the C++ class and implemented nowhere: every implementation
    returns [false] and leaves the map as it is. *)

From S2P Require Import Prelude.
From Stdlib Require Import ZArith Lia.

(** [Maybe<T>] is [option T]; [MapEntry<K,V>] is [K * V]. *)

Class Map (M K V : Type) := {
  map_get_size : M -> Z;
  map_get : M -> K -> option (option V);
  map_put : M -> K -> V -> option (M * bool);
  map_remove : M -> K -> M * bool;
  map_clear : M -> M;
}.

(** [put] never overwrites: the first value registered for a key stays. *)
Definition put_fresh `{Countable K} {V} (d : gmap K V) (k : K) (v : V) : gmap K V :=
  match d !! k with Some _ => d | None => <[k := v]> d end.

Definition absent {V} (o : option V) : bool :=
  match o with Some _ => false | None => true end.

Class MapSpec (M K V : Type) `{Countable K, !Map M K V} := {
  map_rep : M -> gmap K V -> Prop;
  map_get_size_spec m d : map_rep m d -> map_get_size m = Z.of_nat (size d);
  map_get_spec m d k : map_rep m d -> map_get m k = Some (d !! k);
  map_put_spec m d k v : map_rep m d ->
    exists m', map_put m k v = Some (m', absent (d !! k)) /\ map_rep m' (put_fresh d k v);
  map_remove_spec m k : map_remove m k = (m, false);
  map_clear_spec m d : map_rep m d -> map_rep (map_clear m) ∅;
}.

(** ** Navigable maps

    Keys are byte strings (the contents of a [Sequence]).  [get_floor] is the
    entry of the longest non-empty prefix of the key. *)

Class NavigableMap (M : Type) := {
  nav_put : M -> list Z -> Z -> option (M * bool);
  nav_get_floor : M -> list Z -> option (option (list Z * Z));
  nav_clear : M -> M;
}.

(** The longest prefix of [k], of length at most [n], that [d] has. *)
Fixpoint longest_prefix (d : gmap (list Z) Z) (n : nat) (k : list Z) : option (list Z * Z) :=
  match n with
  | O => None
  | S m =>
      match d !! take (S m) k with
      | Some v => Some (take (S m) k, v)
      | None => longest_prefix d m k
      end
  end.

(** Dictionaries of the LZW encoder: non-empty keys, every shorter non-empty
    prefix of a key is a key. *)
Definition prefix_closed (d : gmap (list Z) Z) : Prop :=
  d !! [] = None /\
  forall k n, is_Some (d !! k) -> (0 < n <= length k)%nat -> is_Some (d !! take n k).

(** What an implementation promises to the encoder; the keys are byte strings
    and new keys extend an existing key by one byte (or are single bytes). *)
Class NavigableMapSpec (M : Type) `{!NavigableMap M} := {
  nav_rep : M -> gmap (list Z) Z -> Prop;
  nav_put_spec m d k v : nav_rep m d -> prefix_closed d -> d !! k = None -> k <> [] ->
    Forall is_byte k -> (forall n, (0 < n < length k)%nat -> is_Some (d !! take n k)) ->
    exists m' b, nav_put m k v = Some (m', b) /\ nav_rep m' (<[k := v]> d);
  nav_floor_spec m d k : nav_rep m d -> prefix_closed d -> k <> [] -> Forall is_byte k ->
    is_Some (d !! take 1 k) ->
    nav_get_floor m k = Some (longest_prefix d (length k) k);
  nav_clear_spec m d : nav_rep m d -> nav_rep (nav_clear m) ∅;
}.

(** ** Facts on prefixes *)

Lemma longest_prefix_spec d n k p v :
  longest_prefix d n k = Some (p, v) ->
  exists i, (0 < i <= n)%nat /\ p = take i k /\ d !! p = Some v /\
    forall j, (i < j <= n)%nat -> d !! take j k = None.
Proof.
  revert p v. induction n as [|n IH]; intros p v H; cbn [longest_prefix] in H; [done|].
  destruct (d !! take (S n) k) as [w|] eqn:E.
  - simplify_eq. exists (S n). split_and!; [lia|lia|done|done|]. lia.
  - destruct (IH p v H) as (i & Hi & -> & Hd & Hj). exists i. split_and!; [lia|lia|done|done|].
    intros j Hij. destruct (decide (j = S n)) as [->|]; [done|]. apply Hj. lia.
Qed.

Lemma longest_prefix_intro d n i k v :
  (0 < i <= n)%nat -> d !! take i k = Some v ->
  (forall j, (i < j <= n)%nat -> d !! take j k = None) ->
  longest_prefix d n k = Some (take i k, v).
Proof.
  intros Hi Hd Hj. induction n as [|n IH]; [lia|]. cbn [longest_prefix].
  destruct (decide (i = S n)) as [->|]; [by rewrite Hd|].
  rewrite Hj by lia. apply IH; [lia|]. intros j ?. apply Hj. lia.
Qed.

Lemma longest_prefix_exists d n k :
  (0 < n)%nat -> is_Some (d !! take 1 k) -> exists p v, longest_prefix d n k = Some (p, v).
Proof.
  intros Hn [v Hv]. induction n as [|n IH]; [lia|]. cbn [longest_prefix].
  destruct (d !! take (S n) k) as [w|] eqn:E; [eauto|].
  destruct n as [|n]; [congruence|]. apply IH. lia.
Qed.

Lemma prefix_closed_empty : prefix_closed ∅.
Proof. split; [done|]. intros k n [v Hv]. by rewrite lookup_empty in Hv. Qed.

Lemma prefix_closed_insert d k v :
  prefix_closed d -> k <> [] ->
  (forall n, (0 < n < length k)%nat -> is_Some (d !! take n k)) -> prefix_closed (<[k := v]> d).
Proof.
  intros [H0 H1] Hk Hp. split; [by rewrite lookup_insert_ne by done|].
  intros k' n Hk' Hn. apply lookup_insert_is_Some'. apply lookup_insert_is_Some' in Hk' as [<-|Hk'].
  - destruct (decide (n = length k)) as [->|]; [left; by rewrite take_ge by lia|].
    right. apply Hp. lia.
  - right. by apply H1.
Qed.

(** ** Sequences of puts

    Clients of the interface: after any sequence of [put]s the map has, for
    each key, the first value put. *)

Section puts.
Context {M K V : Type} `{Countable K} `{!Map M K V} `{!MapSpec M K V}.

Fixpoint puts (m : M) (l : list (K * V)) : option M :=
  match l with
  | [] => Some m
  | (k, v) :: l => '(m, _) ← map_put m k v; puts m l
  end.

(** The first value of [k] in an association list. *)
Fixpoint assoc (k : K) (l : list (K * V)) : option V :=
  match l with
  | [] => None
  | (k', v) :: l => if decide (k = k') then Some v else assoc k l
  end.

Definition put_list (d : gmap K V) (l : list (K * V)) : gmap K V :=
  foldl (fun d e => put_fresh d e.1 e.2) d l.

Lemma put_fresh_lookup (d : gmap K V) k v k' :
  put_fresh d k v !! k' = match d !! k' with Some w => Some w | None => if decide (k' = k) then Some v else None end.
Proof.
  unfold put_fresh. destruct (decide (k' = k)) as [->|Hne].
  - destruct (d !! k) eqn:E; [done|]. by rewrite lookup_insert_eq.
  - destruct (d !! k) eqn:E; [by destruct (d !! k')|]. rewrite lookup_insert_ne by done. by destruct (d !! k').
Qed.

Lemma put_list_lookup l (d : gmap K V) k :
  put_list d l !! k = match d !! k with Some w => Some w | None => assoc k l end.
Proof.
  revert d. induction l as [|[k' v] l IH]; intros d; simpl; [by destruct (d !! k)|].
  unfold put_list in *. simpl. rewrite IH, put_fresh_lookup.
  by destruct (d !! k), (decide (k = k')).
Qed.

Lemma puts_spec m d l :
  map_rep m d -> exists m', puts m l = Some m' /\ map_rep m' (put_list d l).
Proof.
  revert m d. induction l as [|[k v] l IH]; intros m d Hr; simpl; [eauto|].
  destruct (map_put_spec m d k v Hr) as (m1 & -> & Hr1). simpl. by apply IH.
Qed.

Lemma puts_get m l k :
  map_rep m ∅ -> exists m', puts m l = Some m' /\ map_get m' k = Some (assoc k l) /\
    map_get_size m' = Z.of_nat (size (put_list ∅ l)).
Proof.
  intros Hr. destruct (puts_spec m ∅ l Hr) as (m' & E & Hr'). exists m'. split_and!; [done| |].
  - by rewrite (map_get_spec _ _ _ Hr'), put_list_lookup, lookup_empty.
  - by apply map_get_size_spec.
Qed.

End puts.

(** ** Dictionaries built by a client

    Entries are registered prefix first, as the encoder does. *)

Section builds.
Context {M : Type} `{!NavigableMap M} `{!NavigableMapSpec M}.

Fixpoint nav_puts (m : M) (es : list (list Z * Z)) : option M :=
  match es with
  | [] => Some m
  | (k, v) :: es => '(m, _) ← nav_put m k v; nav_puts m es
  end.

(** Each key is a non-empty byte string, new, and its shorter non-empty
    prefixes come before it. *)
Fixpoint buildable (d : gmap (list Z) Z) (es : list (list Z * Z)) : Prop :=
  match es with
  | [] => True
  | (k, v) :: es =>
      d !! k = None /\ k <> [] /\ Forall is_byte k /\
      (forall n, (0 < n < length k)%nat -> is_Some (d !! take n k)) /\ buildable (<[k := v]> d) es
  end.

Definition insert_all (d : gmap (list Z) Z) (es : list (list Z * Z)) : gmap (list Z) Z :=
  foldl (fun d e => <[e.1 := e.2]> d) d es.

Lemma nav_puts_spec es m d :
  nav_rep m d -> prefix_closed d -> buildable d es ->
  exists m', nav_puts m es = Some m' /\ nav_rep m' (insert_all d es) /\ prefix_closed (insert_all d es).
Proof.
  revert m d. induction es as [|[k v] es IH]; intros m d Hr Hc Hb; simpl; [by exists m|].
  destruct Hb as (Hk & Hne & Hkb & Hp & Hb).
  destruct (nav_put_spec m d k v Hr Hc Hk Hne Hkb Hp) as (m1 & b & -> & Hr1). cbn [mbind option_bind].
  apply IH; [done|by apply prefix_closed_insert|done].
Qed.

Lemma insert_all_mono (es : list (list Z * Z)) (d : gmap (list Z) Z) k : is_Some (d !! k) -> is_Some (insert_all d es !! k).
Proof.
  revert d. induction es as [|[k' v] es IH]; intros d Hd; [done|]. simpl. apply IH.
  apply lookup_insert_is_Some'. by right.
Qed.

Lemma insert_all_elem (es : list (list Z * Z)) (d : gmap (list Z) Z) k : k ∈ es.*1 -> is_Some (insert_all d es !! k).
Proof.
  revert d. induction es as [|[k' v] es IH]; intros d Hd; simpl in *; [by apply not_elem_of_nil in Hd|].
  apply elem_of_cons in Hd as [->|Hd]; [|by apply IH].
  apply insert_all_mono, lookup_insert_is_Some'. by left.
Qed.

End builds.
