(* ===== verification/HashMap.v ===== *)
(** * The hash map ([prims/HashMap.hpp], class [HashMap])

    Buckets are arrays of entries with a capacity; the model keeps the live
    entries of a bucket and its capacity.  The hash function returns an [int]
    whose sign-extended bits are masked with [bucket_count - 1]. *)

From S2P Require Import Prelude MapInterface.
From Stdlib Require Import ZArith Lia.

Module HashMap.

Section HashMap.
Context {K V : Type}.
Variable hash : K -> Z.
Variable equals : K -> K -> bool.

Record bucket := Bucket { entries : list (K * V); capacity : Z }.

(** [buckets] has [bucket_count] elements. *)
Record hashmap := HMap { buckets : list bucket; count : Z }.

Definition bucket_count (m : hashmap) : Z := Z.of_nat (length (buckets m)).

Definition init_bucket : bucket := Bucket [] 0.

(** [while(better_init_capacity < init_capacity) better_init_capacity *= 2]. *)
Fixpoint better_capacity (fuel : nat) (better init_capacity : Z) : Z :=
  match fuel with
  | O => better
  | S fuel' =>
      if better <? init_capacity then better_capacity fuel' (better * 2) init_capacity else better
  end.

Definition make (init_capacity : Z) : hashmap :=
  let n := better_capacity (Z.to_nat init_capacity) 1 init_capacity in
  HMap (replicate (Z.to_nat n) init_bucket) 0.

Definition get_size (m : hashmap) : Z := count m.

(** [h & (bucket_count - 1)] *)
Definition index_for (n : Z) (k : K) : nat := Z.to_nat (hash k .& (n - 1)).

Fixpoint find_entry (k : K) (es : list (K * V)) : option V :=
  match es with
  | [] => None
  | (candidate, v) :: es => if equals k candidate then Some v else find_entry k es
  end.

Definition get (m : hashmap) (k : K) : option (option V) :=
  b ← buckets m !! index_for (bucket_count m) k;
  Some (find_entry k (entries b)).

Definition grow_bucket (b : bucket) : bucket :=
  Bucket (entries b) (Z.max 1 (capacity b * 2)).

(** Append an entry to a bucket, growing it when it is full. *)
Definition insert_entry (b : bucket) (e : K * V) : bucket :=
  let b := if Z.of_nat (length (entries b)) =? capacity b then grow_bucket b else b in
  Bucket (entries b ++ [e]) (capacity b).

(** The inner loop of [grow] over the entries of bucket [bi]: an entry that
    belongs elsewhere is removed (the rest moves down) and appended to its
    bucket. *)
Fixpoint rehash_bucket (fuel : nat) (bs : list bucket) (n : Z) (old bi ei : nat) (changed : bool) :
    option (list bucket * bool) :=
  match fuel with
  | O => None
  | S fuel' =>
      b ← bs !! bi;
      match entries b !! ei with
      | None => Some (bs, changed)
      | Some e =>
          let ni := index_for n e.1 in
          if (bi =? ni)%nat then rehash_bucket fuel' bs n old bi (S ei) changed
          else
            let bs := <[bi := Bucket (take ei (entries b) ++ drop (S ei) (entries b)) (capacity b)]> bs in
            nb ← bs !! ni;
            let bs := <[ni := insert_entry nb e]> bs in
            rehash_bucket fuel' bs n old bi ei (changed || (ni <? old)%nat)
      end
  end.

(** One pass over the old buckets. *)
Fixpoint rehash_pass (todo : nat) (bs : list bucket) (n : Z) (old bi : nat) (changed : bool) :
    option (list bucket * bool) :=
  match todo with
  | O => Some (bs, changed)
  | S todo' =>
      b ← bs !! bi;
      '(bs, changed) ← rehash_bucket (S (length (entries b))) bs n old bi 0 changed;
      rehash_pass todo' bs n old (S bi) changed
  end.

(** [do ... while(change_in_old)] *)
Fixpoint rehash_loop (fuel : nat) (bs : list bucket) (n : Z) (old : nat) : option (list bucket) :=
  match fuel with
  | O => None
  | S fuel' =>
      '(bs, change_in_old) ← rehash_pass old bs n old 0 false;
      if (change_in_old : bool) then rehash_loop fuel' bs n old else Some bs
  end.

Definition grow (m : hashmap) : option hashmap :=
  let old := length (buckets m) in
  let n := Z.max 3 (Z.of_nat old * 2) in
  let bs := buckets m ++ replicate (Z.to_nat n - old) init_bucket in
  bs ← rehash_loop 2 bs n old;
  Some (HMap bs (count m)).

Definition put (m : hashmap) (k : K) (v : V) : option (hashmap * bool) :=
  m ← (if count m =? bucket_count m then grow m else Some m);
  let index := index_for (bucket_count m) k in
  b ← buckets m !! index;
  match find_entry k (entries b) with
  | Some _ => Some (m, false)
  | None => Some (HMap (<[index := insert_entry b (k, v)]> (buckets m)) (count m + 1), true)
  end.

Definition remove (m : hashmap) (k : K) : hashmap * bool := (m, false).

Definition clear (m : hashmap) : hashmap :=
  HMap ((fun b => Bucket [] (capacity b)) <$> buckets m) 0.

(** The destructor drops every bucket, then the array. *)
Definition reset_bucket (b : bucket) : bucket := Bucket [] 0.

(** ** Correctness *)

Context `{Countable K}.
Hypothesis equals_spec : forall a b, equals a b = true <-> a = b.

(** All live entries, in bucket order. *)
Definition all_entries (bs : list bucket) : list (K * V) := concat (entries <$> bs).

(** Every entry of bucket [i] hashes to [i]. *)
Definition bucket_placed (n : Z) (i : nat) (b : bucket) : Prop :=
  Forall (fun e => index_for n e.1 = i) (entries b).

Definition placed (n : Z) (bs : list bucket) : Prop :=
  forall i b, bs !! i = Some b -> bucket_placed n i b.

(** The capacity covers the live entries. *)
Definition fits (bs : list bucket) : Prop :=
  Forall (fun b => Z.of_nat (length (entries b)) <= capacity b) bs.

Definition rep (m : hashmap) (d : gmap K V) : Prop :=
  buckets m <> [] /\ placed (bucket_count m) (buckets m) /\ fits (buckets m) /\
  NoDup (all_entries (buckets m)).*1 /\
  d = list_to_map (all_entries (buckets m)) /\
  count m = Z.of_nat (length (all_entries (buckets m))).

Lemma index_for_range n k : 0 < n -> (index_for n k < Z.to_nat n)%nat.
Proof.
  intros Hn. unfold index_for. apply Z2Nat.inj_lt; [apply Z.land_nonneg; lia|lia|].
  rewrite Z.land_comm. pose proof (land_le (n - 1) (hash k)). lia.
Qed.

Lemma find_entry_None k es : find_entry k es = None <-> k ∉ es.*1.
Proof.
  induction es as [|[c v] es IH]; simpl; [split; [intros _; apply not_elem_of_nil|done]|].
  rewrite not_elem_of_cons. pose proof (equals_spec k c) as Hs.
  destruct (equals k c).
  - split; [done|]. intros [Hne _]. by destruct Hne; apply Hs.
  - rewrite IH. split; [|tauto]. intros Hi. split; [|done]. intros E. by apply Hs in E.
Qed.

Lemma find_entry_elem k v es : find_entry k es = Some v -> (k, v) ∈ es.
Proof.
  induction es as [|[c w] es IH]; simpl; [done|]. pose proof (equals_spec k c) as Hs.
  destruct (equals k c); intros Hf; [|right; auto].
  simplify_eq. rewrite (proj1 Hs) by done. left.
Qed.

Lemma all_entries_insert bs i b b' :
  bs !! i = Some b ->
  all_entries (<[i := b']> bs) = concat (entries <$> take i bs) ++ entries b' ++ concat (entries <$> drop (S i) bs).
Proof.
  intros E. unfold all_entries. rewrite insert_take_drop by (by eapply lookup_lt_Some).
  rewrite fmap_app, concat_app. done.
Qed.

Lemma all_entries_split bs i b :
  bs !! i = Some b ->
  all_entries bs = concat (entries <$> take i bs) ++ entries b ++ concat (entries <$> drop (S i) bs).
Proof. intros E. rewrite <- all_entries_insert with (b := b) by done. by rewrite list_insert_id. Qed.

Lemma elem_of_all_entries e bs :
  e ∈ all_entries bs <-> exists i b, bs !! i = Some b /\ e ∈ entries b.
Proof.
  unfold all_entries. rewrite list_elem_of_In, in_concat. split.
  - intros (es & Hin & He). apply list_elem_of_In in Hin, He.
    apply list_elem_of_fmap in Hin as (b & -> & [i Hi]%list_elem_of_lookup). eauto.
  - intros (i & b & Hi & He). exists (entries b). rewrite <- !list_elem_of_In. split; [|done].
    apply list_elem_of_fmap. exists b. split; [done|]. by eapply list_elem_of_lookup_2.
Qed.

Lemma insert_entry_entries b e : entries (insert_entry b e) = entries b ++ [e].
Proof. unfold insert_entry. by destruct (_ =? _). Qed.

Lemma insert_entry_fits b e :
  Z.of_nat (length (entries b)) <= capacity b ->
  Z.of_nat (length (entries (insert_entry b e))) <= capacity (insert_entry b e).
Proof.
  intros Hc. rewrite insert_entry_entries, length_app. unfold insert_entry. simpl.
  destruct (Z.eqb_spec (Z.of_nat (length (entries b))) (capacity b)); simpl; lia.
Qed.

(** During a pass: entries of buckets before [bi], of new buckets, and the
    first [ei] entries of bucket [bi] are in place. *)
Definition scanned (n : Z) (old bi ei : nat) (bs : list bucket) : Prop :=
  forall i b j e, bs !! i = Some b -> entries b !! j = Some e ->
    (i < bi \/ old <= i \/ (i = bi /\ j < ei))%nat -> index_for n e.1 = i.

Lemma fits_insert bs i b :
  fits bs -> Z.of_nat (length (entries b)) <= capacity b -> fits (<[i := b]> bs).
Proof. intros Hf Hb. by apply Forall_insert. Qed.

(** Moving one entry keeps the entries, up to order. *)
Lemma move_entry bs bi ni b ei e nb :
  bs !! bi = Some b -> entries b !! ei = Some e -> bi <> ni ->
  let bs1 := <[bi := Bucket (take ei (entries b) ++ drop (S ei) (entries b)) (capacity b)]> bs in
  bs1 !! ni = Some nb ->
  all_entries (<[ni := insert_entry nb e]> bs1) ≡ₚ all_entries bs.
Proof.
  intros Eb Ee Hne bs1 En.
  rewrite (all_entries_insert _ _ _ _ En), insert_entry_entries.
  assert (all_entries bs ≡ₚ e :: all_entries bs1) as ->.
  { unfold bs1. rewrite (all_entries_insert _ _ _ _ Eb), (all_entries_split _ _ _ Eb).
    cbn [entries]. rewrite <- (take_drop_middle _ _ _ Ee) at 1. solve_Permutation. }
  rewrite (all_entries_split _ _ _ En). solve_Permutation.
Qed.

Lemma scanned_move n old bi ei bs b e nb :
  scanned n old bi ei bs -> bs !! bi = Some b -> entries b !! ei = Some e -> (bi < old)%nat ->
  let ni := index_for n e.1 in bi <> ni -> bs !! ni = Some nb ->
  let b1 := Bucket (take ei (entries b) ++ drop (S ei) (entries b)) (capacity b) in
  scanned n old bi ei (<[ni := insert_entry nb e]> (<[bi := b1]> bs)).
Proof.
  intros Hs Eb Ee Ho ni Hne En b1 i b' j e' Hi Hj Hlt.
  destruct (decide (i = ni)) as [->|Hi1].
  - rewrite list_lookup_insert_eq in Hi by (rewrite length_insert; by eapply lookup_lt_Some).
    simplify_eq. rewrite insert_entry_entries in Hj.
    apply lookup_app_Some in Hj as [Hj|[_ Hj]]; [by apply (Hs ni nb j)|].
    apply list_lookup_singleton_Some in Hj as [_ <-]. done.
  - rewrite list_lookup_insert_ne in Hi by done. destruct (decide (i = bi)) as [->|Hi2].
    + rewrite list_lookup_insert_eq in Hi by (by eapply lookup_lt_Some). simplify_eq.
      cbn [entries] in Hj. apply lookup_lt_Some in Ee.
      rewrite lookup_app_l in Hj by (rewrite length_take; lia).
      rewrite lookup_take_lt in Hj by lia. apply (Hs bi b j); [done..|lia].
    + rewrite list_lookup_insert_ne in Hi by done. by apply (Hs i b' j).
Qed.

Lemma rehash_bucket_spec fuel bs n old bi ei ch b :
  n = Z.of_nat (length bs) -> 0 < n -> bs !! bi = Some b -> fits bs -> (bi < old)%nat ->
  scanned n old bi ei bs -> (length (entries b) < fuel + ei)%nat -> (ei <= length (entries b))%nat ->
  exists bs' ch', rehash_bucket fuel bs n old bi ei ch = Some (bs', ch') /\
    length bs' = length bs /\ fits bs' /\ all_entries bs' ≡ₚ all_entries bs /\
    scanned n old (S bi) 0 bs'.
Proof.
  revert bs ei ch b. induction fuel as [|fuel IH]; intros bs ei ch b Hn Hp Eb Hf Ho Hs Hl He; [lia|].
  cbn [rehash_bucket]. rewrite Eb. cbn [mbind option_bind].
  destruct (entries b !! ei) as [e|] eqn:Ee.
  2:{ apply lookup_ge_None in Ee. exists bs, ch. split_and!; try done.
    intros i b' j e' Hi Hj Hlt. apply (Hs i b' j e' Hi Hj).
    destruct (decide (i = bi)) as [->|]; [|lia]. simplify_eq. apply lookup_lt_Some in Hj. lia. }
  apply lookup_lt_Some in Ee as Hlt. destruct (Nat.eqb_spec bi (index_for n e.1)) as [Hi|Hi].
  { apply IH with b; try done; try lia. intros i b' j e' Hi' Hj Hlt'.
    destruct (decide (i = bi /\ j = ei)) as [[-> ->]|]; [by simplify_eq|]. apply (Hs i b' j e' Hi' Hj). lia. }
  set (b1 := Bucket _ _). set (bs1 := <[bi := b1]> bs). set (ni := index_for n e.1) in *.
  assert (ni < length bs)%nat as Hni by (pose proof (index_for_range n e.1 Hp); lia).
  destruct (lookup_lt_is_Some_2 bs1 ni) as [nb Enb]; [by unfold bs1; rewrite length_insert|].
  rewrite Enb. cbn [mbind option_bind].
  assert (bs !! ni = Some nb) as Enb' by (unfold bs1 in Enb; by rewrite list_lookup_insert_ne in Enb).
  assert (length (entries b1) = length (entries b) - 1)%nat as Hl1.
  { unfold b1; simpl. rewrite length_app, length_take, length_drop. lia. }
  assert (Z.of_nat (length (entries b)) <= capacity b) as Hc by (eapply (Forall_lookup_1 _ _ _ _ Hf Eb)).
  assert (fits bs1) as Hf1 by (apply fits_insert; [done|]; unfold b1 in *; simpl in *; lia).
  edestruct (IH (<[ni := insert_entry nb e]> bs1) ei (ch || (ni <? old)%nat) b1)
    as (bs' & ch' & -> & Hlen & Hf' & Hperm & Hs'); try done.
  - unfold bs1. by rewrite !length_insert.
  - rewrite list_lookup_insert_ne by done. apply list_lookup_insert_eq. by eapply lookup_lt_Some.
  - apply fits_insert; [done|]. apply insert_entry_fits. by eapply (Forall_lookup_1 _ _ _ _ Hf1).
  - by apply scanned_move.
  - lia.
  - lia.
  - exists bs', ch'. split_and!; try done.
    + rewrite Hlen. unfold bs1. by rewrite !length_insert.
    + rewrite Hperm. by apply move_entry.
Qed.

Lemma rehash_pass_spec todo bs n old bi ch :
  n = Z.of_nat (length bs) -> 0 < n -> fits bs -> (bi + todo = old)%nat -> (old <= length bs)%nat ->
  scanned n old bi 0 bs ->
  exists bs' ch', rehash_pass todo bs n old bi ch = Some (bs', ch') /\
    length bs' = length bs /\ fits bs' /\ all_entries bs' ≡ₚ all_entries bs /\
    scanned n old old 0 bs'.
Proof.
  revert bs bi ch. induction todo as [|todo IH]; intros bs bi ch Hn Hp Hf Hb Ho Hs; cbn [rehash_pass].
  - exists bs, ch. assert (bi = old) as -> by lia. by split_and!.
  - destruct (lookup_lt_is_Some_2 bs bi) as [b Eb]; [lia|]. rewrite Eb. cbn [mbind option_bind].
    destruct (rehash_bucket_spec (S (length (entries b))) bs n old bi 0 ch b)
      as (bs1 & ch1 & -> & Hl1 & Hf1 & Hp1 & Hs1); try done; try lia.
    cbn [mbind option_bind].
    destruct (IH bs1 (S bi) ch1) as (bs2 & ch2 & -> & Hl2 & Hf2 & Hp2 & Hs2); try done; try lia.
    exists bs2, ch2. split_and!; try done; [lia|]. by rewrite Hp2.
Qed.

Lemma scanned_placed n old bs : scanned n old old 0 bs <-> placed n bs.
Proof.
  split.
  - intros Hs i b Hi. apply Forall_lookup_2. intros j e Hj. apply (Hs i b j); [done..|lia].
  - intros Hp i b j e Hi Hj _. by apply (Forall_lookup_1 _ _ _ _ (Hp i b Hi) Hj).
Qed.

(** A pass over entries that are all in place changes nothing. *)
Lemma rehash_bucket_placed fuel bs n old bi ei ch b :
  bs !! bi = Some b -> bucket_placed n bi b ->
  (length (entries b) < fuel + ei)%nat -> (ei <= length (entries b))%nat ->
  rehash_bucket fuel bs n old bi ei ch = Some (bs, ch).
Proof.
  intros Eb Hb. revert ei. induction fuel as [|fuel IH]; intros ei Hf He; [lia|].
  cbn [rehash_bucket]. rewrite Eb. cbn [mbind option_bind].
  destruct (entries b !! ei) as [e|] eqn:Ee; [|done].
  rewrite (Forall_lookup_1 _ _ _ _ Hb Ee), Nat.eqb_refl.
  apply lookup_lt_Some in Ee. apply IH; lia.
Qed.

Lemma rehash_pass_placed todo bs n old bi ch :
  placed n bs -> (bi + todo <= length bs)%nat -> rehash_pass todo bs n old bi ch = Some (bs, ch).
Proof.
  intros Hp. revert bi. induction todo as [|todo IH]; intros bi Hl; cbn [rehash_pass]; [done|].
  destruct (lookup_lt_is_Some_2 bs bi) as [b Eb]; [lia|]. rewrite Eb. cbn [mbind option_bind].
  rewrite (rehash_bucket_placed _ _ _ _ _ _ _ _ Eb (Hp _ _ Eb)) by lia.
  apply IH. lia.
Qed.

(** Two passes are enough: the first puts every entry in place. *)
Lemma rehash_loop_spec fuel bs n old :
  n = Z.of_nat (length bs) -> 0 < n -> fits bs -> (old <= length bs)%nat ->
  scanned n old 0 0 bs ->
  exists bs', rehash_loop (S (S fuel)) bs n old = Some bs' /\
    length bs' = length bs /\ fits bs' /\ all_entries bs' ≡ₚ all_entries bs /\ placed n bs'.
Proof.
  intros Hn Hp Hf Ho Hs. cbn [rehash_loop].
  destruct (rehash_pass_spec old bs n old 0 false) as (bs1 & ch1 & -> & Hl1 & Hf1 & Hp1 & Hs1); try done.
  apply scanned_placed in Hs1. cbn [mbind option_bind].
  destruct ch1; [rewrite rehash_pass_placed by (done || lia)|]; exists bs1; done.
Qed.

Lemma all_entries_app bs cs : all_entries (bs ++ cs) = all_entries bs ++ all_entries cs.
Proof. unfold all_entries. by rewrite fmap_app, concat_app. Qed.

Lemma all_entries_empty k : all_entries (replicate k init_bucket) = [].
Proof. induction k as [|k IH]; [done|]. unfold all_entries in *. simpl. done. Qed.

Lemma rep_permutation m bs d :
  rep m d -> bs <> [] -> placed (Z.of_nat (length bs)) bs -> fits bs ->
  all_entries bs ≡ₚ all_entries (buckets m) -> rep (HMap bs (count m)) d.
Proof.
  intros (_ & _ & _ & Hnd & -> & Hc) Hne Hp Hf Hperm. split_and!; try done; simpl.
  - by rewrite Hperm.
  - apply list_to_map_proper; [|by symmetry]. done.
  - by rewrite Hperm.
Qed.

(** [grow] keeps the map, doubles the buckets (at least 3) and returns. *)
Lemma hashmap_grow_spec m d :
  rep m d ->
  exists m', grow m = Some m' /\ rep m' d /\ bucket_count m' = Z.max 3 (bucket_count m * 2).
Proof.
  intros Hr. pose proof Hr as (Hne & _ & Hf & _). unfold grow.
  set (old := length (buckets m)). set (n := Z.max 3 (Z.of_nat old * 2)).
  set (bs := buckets m ++ _).
  assert (length bs = Z.to_nat n) as Hl by (unfold bs; rewrite length_app, length_replicate; lia).
  destruct (rehash_loop_spec 0 bs n old) as (bs' & -> & Hl' & Hf' & Hperm & Hp'); try lia.
  - apply Forall_app; split; [done|]. by apply Forall_replicate.
  - intros i b j e Hi Hj Hlt. unfold bs in Hi.
    rewrite lookup_app_r in Hi by lia. apply lookup_replicate in Hi as [-> _]. done.
  - cbn [mbind option_bind]. exists (HMap bs' (count m)). split_and!; [done| |].
    + apply rep_permutation; try done.
      * intros ->. simpl in Hl'. lia.
      * rewrite Hl'. by replace (Z.of_nat (length bs)) with n by lia.
      * rewrite Hperm. unfold bs. by rewrite all_entries_app, all_entries_empty, app_nil_r.
    + unfold bucket_count. simpl. lia.
Qed.

Lemma rep_bucket m d k :
  rep m d -> exists b, buckets m !! index_for (bucket_count m) k = Some b /\
    find_entry k (entries b) = d !! k.
Proof.
  intros (Hne & Hp & _ & Hnd & -> & _).
  assert (0 < bucket_count m) as Hn by (unfold bucket_count; destruct (buckets m); [done|simpl; lia]).
  pose proof (index_for_range _ k Hn) as Hi.
  destruct (lookup_lt_is_Some_2 (buckets m) (index_for (bucket_count m) k)) as [b Eb].
  { unfold bucket_count in *. lia. }
  exists b. split; [done|]. destruct (find_entry k (entries b)) as [v|] eqn:E; symmetry.
  - apply find_entry_elem in E. apply elem_of_list_to_map_1; [done|].
    apply elem_of_all_entries. eauto.
  - apply not_elem_of_list_to_map_1. intros Hk. apply find_entry_None in E. apply E.
    apply list_elem_of_fmap in Hk as ([k' v] & -> & Hin). apply elem_of_all_entries in Hin as (i & b' & Hi' & Hin).
    pose proof (proj1 (Forall_forall _ _) (Hp _ _ Hi') _ Hin). simplify_eq/=.
    apply list_elem_of_fmap. by exists (k', v).
Qed.

Lemma hashmap_get_spec m d k : rep m d -> get m k = Some (d !! k).
Proof. intros Hr. destruct (rep_bucket m d k Hr) as (b & Eb & Ef). unfold get. by rewrite Eb; simpl; rewrite Ef. Qed.

Lemma hashmap_get_size_spec m d : rep m d -> get_size m = Z.of_nat (size d).
Proof.
  intros (_ & _ & _ & Hnd & -> & Hc). unfold get_size. by rewrite Hc, map_size_list_to_map.
Qed.

Lemma rep_insert m d k v b :
  rep m d -> d !! k = None -> buckets m !! index_for (bucket_count m) k = Some b ->
  rep (HMap (<[index_for (bucket_count m) k := insert_entry b (k, v)]> (buckets m)) (count m + 1)) (<[k := v]> d).
Proof.
  intros (Hne & Hp & Hf & Hnd & -> & Hc) Hk Eb.
  assert (all_entries (<[index_for (bucket_count m) k := insert_entry b (k, v)]> (buckets m))
    ≡ₚ (k, v) :: all_entries (buckets m)) as Hperm.
  { rewrite (all_entries_insert _ _ _ _ Eb), (all_entries_split _ _ _ Eb), insert_entry_entries.
    solve_Permutation. }
  apply not_elem_of_list_to_map_2 in Hk.
  assert (NoDup ((k, v) :: all_entries (buckets m)).*1) as Hnd' by (simpl; by constructor).
  split_and!; simpl.
  - intros E. apply (f_equal length) in E. rewrite length_insert in E. by destruct (buckets m).
  - intros i b' Hi. unfold bucket_count in *. simpl in *. rewrite length_insert.
    apply list_lookup_insert_Some in Hi as [(<- & <- & _)|[_ Hi]]; [|by apply Hp].
    unfold bucket_placed. rewrite insert_entry_entries. apply Forall_app; split; [by apply Hp|].
    by constructor.
  - apply fits_insert; [done|]. apply insert_entry_fits. by eapply (Forall_lookup_1 _ _ _ _ Hf).
  - by rewrite Hperm.
  - change (<[k := v]> (list_to_map (all_entries (buckets m))))
      with (list_to_map (M := gmap K V) ((k, v) :: all_entries (buckets m))).
    apply list_to_map_proper; [done|by symmetry].
  - rewrite Hperm, Hc. simpl. lia.
Qed.

Lemma hashmap_put_spec m d k v :
  rep m d -> exists m', put m k v = Some (m', absent (d !! k)) /\ rep m' (put_fresh d k v).
Proof.
  intros Hr. assert (exists m1, (if count m =? bucket_count m then grow m else Some m) = Some m1 /\ rep m1 d)
    as (m1 & E1 & Hr1).
  { destruct (_ =? _); [|eauto]. destruct (hashmap_grow_spec m d Hr) as (m' & ? & ? & _). eauto. }
  unfold put. rewrite E1. cbn [mbind option_bind].
  destruct (rep_bucket m1 d k Hr1) as (b & Eb & Ef). rewrite Eb. cbn [mbind option_bind].
  rewrite Ef. unfold put_fresh. destruct (d !! k) as [w|] eqn:Ed; [by exists m1|].
  eexists. split; [done|]. by apply rep_insert.
Qed.

(** A map whose buckets are all empty. *)
Lemma hashmap_rep_empty bs : bs <> [] -> fits bs -> Forall (fun b => entries b = []) bs -> rep (HMap bs 0) ∅.
Proof.
  intros Hne Hf He. assert (all_entries bs = []) as E.
  { unfold all_entries. clear Hne Hf. induction He as [|b bs Hb He IH]; [done|].
    cbn [fmap list_fmap concat]. rewrite Hb. exact IH. }
  split_and!; simpl; try done; rewrite ?E; try done; try constructor.
  intros i b Hi. unfold bucket_placed. by rewrite (Forall_lookup_1 _ _ _ _ He Hi).
Qed.

Lemma hashmap_clear_spec m d : rep m d -> rep (clear m) ∅.
Proof.
  intros (Hne & _ & Hf & _). apply hashmap_rep_empty.
  - by destruct (buckets m).
  - apply Forall_fmap. eapply Forall_impl; [exact Hf|]. simpl. lia.
  - apply Forall_fmap. by apply Forall_true.
Qed.

(** The initial capacity is rounded up to a power of two. *)
Lemma better_capacity_spec fuel e init :
  init <= 2 ^ Z.of_nat (e + fuel) ->
  exists e', better_capacity fuel (2 ^ Z.of_nat e) init = 2 ^ Z.of_nat e' /\ init <= 2 ^ Z.of_nat e'.
Proof.
  revert e. induction fuel as [|fuel IH]; intros e Hi; cbn [better_capacity].
  - rewrite Nat.add_0_r in Hi. eauto.
  - destruct (Z.ltb_spec (2 ^ Z.of_nat e) init); [|by exists e].
    rewrite Z.mul_comm, <- Z.pow_succ_r, <- Nat2Z.inj_succ by lia. apply IH.
    by replace (S e + fuel)%nat with (e + S fuel)%nat by lia.
Qed.

Lemma hashmap_make_spec init : 0 <= init ->
  rep (make init) ∅ /\ init <= bucket_count (make init) /\ exists e, bucket_count (make init) = 2 ^ Z.of_nat e.
Proof.
  intros Hi. destruct (better_capacity_spec (Z.to_nat init) 0 init) as (e & E & Hle).
  { pose proof (Z.pow_gt_lin_r 2 init). simpl. rewrite Z2Nat.id by lia. lia. }
  change (2 ^ Z.of_nat 0) with 1 in E. pose proof (pow2_pos (Z.of_nat e)).
  assert (bucket_count (make init) = 2 ^ Z.of_nat e) as Eb.
  { unfold make, bucket_count. simpl. rewrite E, length_replicate. lia. }
  split_and!; [|lia|by exists e]. apply hashmap_rep_empty.
  - intros E0. unfold bucket_count, make in Eb. simpl in Eb. rewrite E0 in Eb. simpl in Eb. lia.
  - by apply Forall_replicate.
  - by apply Forall_replicate.
Qed.

#[export] Instance hash_map_ops : Map hashmap K V := {
  map_get_size := get_size;
  map_get := get;
  map_put := put;
  map_remove := remove;
  map_clear := clear;
}.

#[export, program] Instance hash_map_spec : MapSpec hashmap K V := {| map_rep := rep |}.
Next Obligation. exact hashmap_get_size_spec. Qed.
Next Obligation. exact hashmap_get_spec. Qed.
Next Obligation. exact hashmap_put_spec. Qed.
Next Obligation. done. Qed.
Next Obligation. exact hashmap_clear_spec. Qed.

(** The hash map is a map whose first [put] of a key wins: after any
    sequence of [put]s, rehashes included, from an empty table of any
    capacity, [get] finds the first value put for each key and nothing else,
    and the size is the number of different keys. *)
Theorem hash_map_first_put_wins init_capacity (l : list (K * V)) :
  0 <= init_capacity ->
  exists m, puts (make init_capacity) l = Some m /\ (forall k, get m k = Some (assoc k l)) /\
    get_size m = Z.of_nat (size (put_list ∅ l)).
Proof.
  intros Hc. destruct (puts_spec (make init_capacity) ∅ l) as (m & E & Hr); [by apply hashmap_make_spec|].
  exists m. split_and!; [done| |by apply hashmap_get_size_spec].
  intros k. by rewrite (hashmap_get_spec _ _ _ Hr), put_list_lookup, lookup_empty.
Qed.

End HashMap.

Arguments bucket : clear implicits.
Arguments hashmap : clear implicits.

Lemma hash_map_first_put_wins_witness : exists m : hashmap Z Z,
  puts (M := hashmap Z Z) (Map0 := hash_map_ops (fun k => k) Z.eqb) (make 2) [(1, 10); (9, 90); (1, 11)] = Some m /\
  get (fun k => k) Z.eqb m 1 = Some (Some 10) /\ get_size m = 2.
Proof.
  destruct (hash_map_first_put_wins (fun k => k) Z.eqb Z.eqb_eq 2 [(1, 10); (9, 90); (1, 11)]) as (m & E & Hg & Hs); [lia|].
  exists m. split; [exact E|]. split; [exact (Hg 1)|exact Hs].
Defined.

End HashMap.
