(* ===== verification/InflatableMap.v ===== *)
(** * Small and inflatable maps ([prims/SmallMap.hpp], [prims/InflatableMap.hpp])

    [SmallMap] is an array of at most [capacity] entries searched linearly.
    [InflatableMap] starts as a [SmallMap] and moves its entries to a map made
    by [create_fat] when an entry no longer fits. *)

From S2P Require Import Prelude MapInterface HashMap.
From Stdlib Require Import ZArith Lia.

Module SmallMap.

Section SmallMap.
Context {K V : Type}.
Variable capacity : Z.
Variable equals : K -> K -> bool.

(** The first [size] entries of the payload. *)
Record smallmap := SMap { payload : list (K * V) }.

Definition empty : smallmap := SMap [].

Definition get_size (m : smallmap) : Z := Z.of_nat (length (payload m)).

Fixpoint get_index_from (index : nat) (k : K) (es : list (K * V)) : option nat :=
  match es with
  | [] => None
  | (candidate, _) :: es => if equals k candidate then Some index else get_index_from (S index) k es
  end.

Definition get_index (m : smallmap) (k : K) : option nat := get_index_from 0 k (payload m).

Definition get_at (m : smallmap) (index : nat) : option (K * V) := payload m !! index.

Definition get (m : smallmap) (k : K) : option (option V) :=
  match get_index m k with
  | Some index => e ← get_at m index; Some (Some e.2)
  | None => Some None
  end.

Definition put (m : smallmap) (k : K) (v : V) : option (smallmap * bool) :=
  o ← get m k;
  match o with
  | Some _ => Some (m, false)
  | None =>
      if get_size m <? capacity then Some (SMap (payload m ++ [(k, v)]), true)
      else Some (m, false)
  end.

Definition remove (m : smallmap) (k : K) : smallmap * bool := (m, false).

Definition clear (m : smallmap) : smallmap := SMap [].

Context `{Countable K}.
Hypothesis equals_spec : forall a b, equals a b = true <-> a = b.

Definition rep (m : smallmap) (d : gmap K V) : Prop :=
  NoDup (payload m).*1 /\ d = list_to_map (payload m) /\ get_size m <= capacity.

Lemma equals_decide a b : equals a b = bool_decide (a = b).
Proof. apply Bool.eq_true_iff_eq. by rewrite equals_spec, bool_decide_eq_true. Qed.

Lemma get_index_from_spec index k es :
  match get_index_from index k es with
  | Some i => exists v, (index <= i)%nat /\ es !! (i - index)%nat = Some (k, v) /\
                (list_to_map es : gmap K V) !! k = Some v
  | None => (list_to_map es : gmap K V) !! k = None
  end.
Proof.
  revert index. induction es as [|[c v] es IH]; intros index; simpl; [apply lookup_empty|].
  rewrite equals_decide. case_bool_decide as E.
  - subst c. exists v. rewrite Nat.sub_diag, lookup_insert_eq. auto.
  - rewrite lookup_insert_ne by done. specialize (IH (S index)).
    destruct (get_index_from (S index) k es) as [i|]; [|done].
    destruct IH as (w & Hi & Hl & Hd). exists w. split_and!; [lia| |done].
    by replace (i - index)%nat with (S (i - S index)) by lia.
Qed.

Lemma smallmap_get_spec m d k : rep m d -> get m k = Some (d !! k).
Proof.
  intros (_ & -> & _). unfold get, get_index, get_at. pose proof (get_index_from_spec 0 k (payload m)) as Hi.
  destruct (get_index_from 0 k (payload m)) as [i|].
  - destruct Hi as (v & _ & Hl & ->). rewrite Nat.sub_0_r in Hl. by rewrite Hl.
  - by rewrite Hi.
Qed.

Lemma smallmap_get_size_spec m d : rep m d -> get_size m = Z.of_nat (size d).
Proof. intros (Hnd & -> & _). by rewrite map_size_list_to_map. Qed.

(** [put] adds an entry while there is room and refuses it when full. *)
Lemma smallmap_put_spec m d k v :
  rep m d -> exists m', put m k v = Some (m', absent (d !! k) && (Z.of_nat (size d) <? capacity)) /\
    rep m' (if absent (d !! k) && (Z.of_nat (size d) <? capacity) then <[k := v]> d else d).
Proof.
  intros Hr. unfold put. rewrite (smallmap_get_spec m d k Hr). simpl.
  destruct (d !! k) as [w|] eqn:E; simpl; [eauto|]. rewrite <- (smallmap_get_size_spec m d Hr).
  destruct (Z.ltb_spec (get_size m) capacity) as [Hlt|]; [|eauto]. eexists. split; [done|].
  destruct Hr as (Hnd & -> & Hc). apply not_elem_of_list_to_map_2 in E.
  assert (payload m ++ [(k, v)] ≡ₚ (k, v) :: payload m) as Hp by (symmetry; apply Permutation_cons_append).
  split_and!; simpl.
  - rewrite Hp. simpl. by constructor.
  - change (<[k := v]> (list_to_map (payload m))) with (list_to_map (M := gmap K V) ((k, v) :: payload m)).
    apply list_to_map_proper; [simpl; by constructor|done].
  - unfold get_size in *. simpl. rewrite length_app. simpl. lia.
Qed.

Lemma smallmap_rep_empty : 0 <= capacity -> rep empty ∅.
Proof. intros Hc. split_and!; [constructor|done|done]. Qed.

End SmallMap.

Arguments smallmap : clear implicits.

End SmallMap.

Module InflatableMap.

Section InflatableMap.
Context {K V F : Type} `{Countable K} `{!Map F K V}.
Variable equals : K -> K -> bool.
Variable thin_capacity : Z.
(** [create_fat(arena)]; [None] is the null pointer. *)
Variable create_fat : option F.

(** The payload is the small map or a pointer to the fat map, tagged by
    [is_inflated]. *)
Inductive inflatable :=
| Thin (m : SmallMap.smallmap K V)
| Fat (m : F).

Definition empty : inflatable := Thin SmallMap.empty.

Definition get_size (m : inflatable) : Z :=
  match m with Thin s => SmallMap.get_size s | Fat f => map_get_size f end.

Definition get (m : inflatable) (k : K) : option (option V) :=
  match m with Thin s => SmallMap.get equals s k | Fat f => map_get f k end.

(** [for(index...) fat->put(entry)] over the thin entries. *)
Fixpoint copy_entries (fat : F) (es : list (K * V)) : option F :=
  match es with
  | [] => Some fat
  | (k, v) :: es => '(fat, _) ← map_put fat k v; copy_entries fat es
  end.

Definition put (m : inflatable) (k : K) (v : V) : option (inflatable * bool) :=
  match m with
  | Thin s =>
      '(s, done) ← SmallMap.put thin_capacity equals s k v;
      if (done : bool) then Some (Thin s, true)
      else
        match create_fat with
        | Some fat =>
            fat ← copy_entries fat (SmallMap.payload s);
            '(fat, b) ← map_put fat k v;
            Some (Fat fat, b)
        | None => Some (Thin s, false)
        end
  | Fat f => '(f, b) ← map_put f k v; Some (Fat f, b)
  end.

Definition remove (m : inflatable) (k : K) : inflatable * bool :=
  match m with
  | Thin s => let '(s, b) := SmallMap.remove s k in (Thin s, b)
  | Fat f => let '(f, b) := map_remove f k in (Fat f, b)
  end.

Definition clear (m : inflatable) : inflatable :=
  match m with Thin s => Thin (SmallMap.clear s) | Fat f => Fat (map_clear f) end.

(** ** Correctness, against the interface of the fat map *)

Context `{!MapSpec F K V}.
Hypothesis equals_spec : forall a b, equals a b = true <-> a = b.
Hypothesis thin_capacity_nonneg : 0 <= thin_capacity.
Variable fat0 : F.
Hypothesis create_fat_spec : create_fat = Some fat0 /\ map_rep fat0 ∅.

Definition rep (m : inflatable) (d : gmap K V) : Prop :=
  match m with Thin s => SmallMap.rep thin_capacity s d | Fat f => map_rep f d end.

Lemma copy_entries_puts f es : copy_entries f es = puts f es.
Proof.
  revert f. induction es as [|[k v] es IH]; intros f; simpl; [done|].
  destruct (map_put f k v) as [[f' b]|]; simpl; auto.
Qed.

Lemma copy_entries_spec s d :
  SmallMap.rep thin_capacity s d ->
  exists f, copy_entries fat0 (SmallMap.payload s) = Some f /\ map_rep f d.
Proof.
  intros (Hnd & -> & _). rewrite copy_entries_puts.
  destruct (puts_spec fat0 ∅ (SmallMap.payload s)) as (f & E & Hr); [apply create_fat_spec|].
  exists f. split; [done|]. replace (list_to_map (SmallMap.payload s)) with (put_list ∅ (SmallMap.payload s) : gmap K V); [done|].
  apply map_eq. intros k. rewrite put_list_lookup, lookup_empty. clear E Hr.
  induction (SmallMap.payload s) as [|[k' v] l IH]; simpl; [by rewrite lookup_empty|].
  simpl in Hnd. apply NoDup_cons in Hnd as [_ Hnd]. destruct (decide (k = k')) as [->|].
  - by rewrite lookup_insert_eq.
  - rewrite lookup_insert_ne by done. by apply IH.
Qed.

Lemma inflatable_put_spec m d k v :
  rep m d -> exists m', put m k v = Some (m', absent (d !! k)) /\ rep m' (put_fresh d k v).
Proof.
  intros Hr. destruct m as [s|f]; simpl in Hr |- *.
  2:{ destruct (map_put_spec f d k v Hr) as (f' & -> & Hr'). by exists (Fat f'). }
  destruct (SmallMap.smallmap_put_spec thin_capacity equals equals_spec s d k v Hr) as (s' & -> & Hr').
  simpl. destruct (absent (d !! k) && _) eqn:E.
  - exists (Thin s'). apply andb_prop in E as [E _]. rewrite E. split; [done|].
    unfold put_fresh. by destruct (d !! k).
  - rewrite (proj1 create_fat_spec). destruct (copy_entries_spec s' d Hr') as (f & -> & Hf). simpl.
    destruct (map_put_spec f d k v Hf) as (f' & -> & Hf'). by exists (Fat f').
Qed.

Lemma inflatable_get_size_spec m d : rep m d -> get_size m = Z.of_nat (size d).
Proof.
  destruct m as [s|f]; intros Hr; [by apply (SmallMap.smallmap_get_size_spec thin_capacity)|].
  by apply (map_get_size_spec f).
Qed.

Lemma inflatable_get_spec m d k : rep m d -> get m k = Some (d !! k).
Proof.
  destruct m as [s|f]; intros Hr; [by eapply SmallMap.smallmap_get_spec|]. by apply (map_get_spec f).
Qed.

Lemma remove_spec m k : remove m k = (m, false).
Proof. destruct m as [s|f]; simpl; [done|]. by rewrite (map_remove_spec f). Qed.

Lemma inflatable_clear_spec m d : rep m d -> rep (clear m) ∅.
Proof.
  destruct m as [s|f]; intros Hr; [by apply SmallMap.smallmap_rep_empty|]. by apply (map_clear_spec f d).
Qed.

#[export] Instance inflatable_ops : Map inflatable K V := {
  map_get_size := get_size;
  map_get := get;
  map_put := put;
  map_remove := remove;
  map_clear := clear;
}.

#[export] Instance inflatable_spec : MapSpec inflatable K V := {|
  map_rep := rep;
  map_get_size_spec := inflatable_get_size_spec;
  map_get_spec := inflatable_get_spec;
  map_put_spec := inflatable_put_spec;
  map_remove_spec := remove_spec;
  map_clear_spec := inflatable_clear_spec;
|}.

Lemma inflatable_rep_empty : rep empty ∅.
Proof. by apply SmallMap.smallmap_rep_empty. Qed.

End InflatableMap.

Arguments inflatable : clear implicits.

End InflatableMap.

(** ** The children map of a prefix tree node

    [InflatableMap<unsigned char, PrefixTreeMapNodeID, equalsChar, 4, createMap>]
    with [createMap] making a hash map of initial capacity 8. *)

Module ByteMap.

Definition hashChar (c : Z) : Z := c.

Definition equalsChar (c1 c2 : Z) : bool := c1 =? c2.

Lemma equalsChar_spec a b : equalsChar a b = true <-> a = b.
Proof. apply Z.eqb_eq. Qed.

Definition fat := HashMap.hashmap Z Z.

#[export] Instance fat_ops : Map fat Z Z := HashMap.hash_map_ops hashChar equalsChar.

#[export] Instance fat_spec : MapSpec fat Z Z :=
  HashMap.hash_map_spec hashChar equalsChar equalsChar_spec.

Definition createMap : option fat := Some (HashMap.make 8).

Definition t := InflatableMap.inflatable Z Z fat.

Definition empty : t := InflatableMap.empty.

Definition get (m : t) (c : Z) : option (option Z) := InflatableMap.get equalsChar m c.

Definition put (m : t) (c id : Z) : option (t * bool) :=
  InflatableMap.put equalsChar 4 createMap m c id.

Definition rep (m : t) (d : gmap Z Z) : Prop := InflatableMap.rep 4 m d.

Lemma createMap_spec : createMap = Some (HashMap.make 8) /\ map_rep (HashMap.make 8 : fat) (∅ : gmap Z Z).
Proof. split; [done|]. apply (HashMap.hashmap_make_spec hashChar). lia. Qed.

Lemma bytemap_rep_empty : rep empty ∅.
Proof. apply InflatableMap.inflatable_rep_empty. lia. Qed.

Lemma bytemap_get_spec m d c : rep m d -> get m c = Some (d !! c).
Proof.
  destruct m as [s|f]; intros Hr.
  - apply (SmallMap.smallmap_get_spec 4 equalsChar equalsChar_spec s d c Hr).
  - apply (map_get_spec f d c Hr).
Qed.

Lemma bytemap_put_spec m d c id :
  rep m d -> exists m', put m c id = Some (m', absent (d !! c)) /\ rep m' (put_fresh d c id).
Proof.
  apply (InflatableMap.inflatable_put_spec equalsChar 4 createMap equalsChar_spec (HashMap.make 8) createMap_spec).
Qed.

End ByteMap.
