(* ===== verification/Sequence.v ===== *)
(** * Byte sequences ([prims/Sequence.hpp])

    A [Sequence*] is either a tagged word that holds up to seven bytes
    ([is_value]) or a pointer to an object with a 15-bit length and its
    bytes.  An array argument is the list of bytes from its address on;
    [beyond] are the bytes that happen to follow it in memory, which the
    eight-byte loads of [create_as_value] and [hash] may touch: every result
    is shown not to depend on them.  A shift of a 64-bit word by [n] bits is
    the one of the platform, by [n] modulo 64. *)

From S2P Require Import Prelude.
From Stdlib Require Import ZArith Lia.

Module Sequence.

Section Sequence.
Variable beyond : list Z.

Inductive sequence :=
| Value (word : Z)
| Obj (length : Z) (data : list Z).

(** The eight bytes at [array] as an [intptr_t]. *)
Definition load64 (array : list Z) : Z := s64 (le_val (take 8 (array ++ beyond))).

Definition can_be_value (length : Z) : bool := length <=? Z.min (8 - 1) ((1 ≪ 7) - 1).

Definition create_as_value (length : Z) (array : list Z) : sequence :=
  Value (s64 (s64 ((load64 array .& (s64 (1 ≪ (length * 8)) - 1)) ≪ (1 * 8)) .| (length ≪ 1) .| 1)).

(** The constructor; [metadata.length] has 15 bits.  The array is copied
    ([must_own_array]) or referenced; neither is written afterwards. *)
Definition create_as_obj (length : Z) (array : list Z) : sequence :=
  Obj (wrap 15 length) array.

Definition create (length : Z) (array : list Z) : sequence :=
  if can_be_value length then create_as_value length array else create_as_obj length array.

Definition create_empty : sequence := create 0 (replicate 8 0).

(** [get_array_of]: the bytes of a value start at the second byte of the
    word. *)
Definition get_array_of (s : sequence) : list Z :=
  match s with
  | Value w => le_bytes 7 (w ≫ 8)
  | Obj _ data => data
  end.

Definition get_length (s : sequence) : Z :=
  match s with
  | Value w => (w .& 255) ≫ 1
  | Obj length _ => length
  end.

Definition get (s : sequence) (index : Z) : option Z :=
  match s with
  | Value w => Some (u8 ((w ≫ ((index + 1) * 8)) .& 255))
  | Obj _ data => data !! Z.to_nat index
  end.

(** [memcpy(dest, src, n)] of [n] bytes. *)
Definition copy_bytes (array : list Z) (n : Z) : list Z := take (Z.to_nat n) array.

Definition concat (s1 s2 : sequence) : sequence :=
  let length1 := get_length s1 in
  let length2 := get_length s2 in
  let data := copy_bytes (get_array_of s1) length1 ++ copy_bytes (get_array_of s2) length2 in
  create (length1 + length2) data.

Definition trim (s : sequence) (new_length : Z) : sequence :=
  create (Z.min (get_length s) new_length) (get_array_of s).

Definition copy_to (s : sequence) : list Z := copy_bytes (get_array_of s) (get_length s).

Fixpoint mismatch_from (i : Z) (n : nat) (a b : list Z) : Z :=
  match n, a, b with
  | S n, x :: a, y :: b => if negb (x =? y) then i else mismatch_from (i + 1) n a b
  | _, _, _ => i
  end.

Definition get_index_of_first_mismatch (s that : sequence) : Z :=
  let length := Z.min (get_length s) (get_length that) in
  mismatch_from 0 (Z.to_nat length) (get_array_of s) (get_array_of that).

Definition starts_with (s prefix : sequence) : bool :=
  (get_length prefix <=? get_length s) &&
  (get_index_of_first_mismatch prefix s =? get_length prefix).

Definition some_big_prime_number : Z := (1 ≪ 19) - 1.

Definition hash (s : sequence) : Z :=
  let length := get_length s in
  let array := get_array_of s in
  let mask := s64 (s64 (1 ≪ (length * 8 mod 64)) - 1) in
  let big_hash := load64 array .& mask in
  let hash := s32 (Z.lxor (big_hash ≫ 0) (big_hash ≫ 32)) in
  let hash := Z.lxor hash length in
  s32 (hash * some_big_prime_number).

(** [memcmp]: the difference of the first bytes that differ. *)
Fixpoint memcmp (a b : list Z) (n : nat) : Z :=
  match n, a, b with
  | S n, x :: a, y :: b => if x =? y then memcmp a b n else x - y
  | _, _, _ => 0
  end.

(** [equals], [compare] and [compareByLength] start with a pointer
    comparison; a sequence equals itself either way ([equals_refl],
    [compare_refl]). *)
Definition equals (s that : sequence) : bool :=
  if get_length s =? get_length that
  then memcmp (get_array_of s) (get_array_of that) (Z.to_nat (get_length s)) =? 0
  else false.

Definition compare (s that : sequence) : Z :=
  let this_length := get_length s in
  let that_length := get_length that in
  let diff := memcmp (get_array_of s) (get_array_of that) (Z.to_nat (Z.min this_length that_length)) in
  if negb (diff =? 0) then diff else this_length - that_length.

Definition compareByLength (s that : sequence) : Z :=
  let this_length := get_length s in
  let that_length := get_length that in
  let diff := this_length - that_length in
  if negb (diff =? 0) then diff
  else memcmp (get_array_of s) (get_array_of that) (Z.to_nat (Z.min this_length that_length)).

(** ** A sequence is its bytes *)

Hypothesis beyond_bytes : Forall is_byte beyond.

(** [rep s l]: the sequence holds the bytes [l]. *)
Definition rep (s : sequence) (l : list Z) : Prop :=
  Forall is_byte (get_array_of s) /\ get_length s = Z.of_nat (length l) /\
  take (length l) (get_array_of s) = l /\ Z.of_nat (length l) < 2 ^ 15.

Lemma load64_land array m :
  Forall is_byte array -> (m <= 7)%nat -> (m <= length array)%nat ->
  load64 array .& (2 ^ (8 * Z.of_nat m) - 1) = le_val (take m array).
Proof.
  intros Ha Hm Hl. rewrite land_ones_wrap by lia. unfold load64.
  assert (Forall is_byte (array ++ beyond)) as Hb by (by apply Forall_app).
  rewrite (le_val_take_mod _ 8 Hb), (wrap_swrap_le (8 * Z.of_nat m) 64) by lia.
  change (8 * Z.of_nat 8) with 64. change (le_val (array ++ beyond) mod 2 ^ 64) with (u64 (le_val (array ++ beyond))).
  rewrite wrap_wrap_le by lia. unfold wrap. rewrite <- le_val_take_mod by done.
  by rewrite take_app_le.
Qed.

(** The word of a value: tag and length in the low byte, then the bytes. *)
Lemma value_word n v :
  0 <= n <= 7 -> 0 <= v < 2 ^ 56 ->
  u64 (s64 (s64 (v ≪ 8) .| (n ≪ 1) .| 1)) = v * 2 ^ 8 + (2 * n + 1).
Proof.
  intros Hn Hv. rewrite wrap_swrap, !wrap_lor, wrap_swrap, (wrap_small 64 (v ≪ 8)) by
    (rewrite ?Z.shiftl_mul_pow2 by lia; lia).
  rewrite <- Z.lor_assoc, <- wrap_lor by lia.
  rewrite (lor_disjoint_add n 1 1), wrap_small, lor_disjoint_add by lia. lia.
Qed.

Lemma create_as_value_rep (n : nat) array :
  Forall is_byte array -> (n <= 7)%nat -> (n <= length array)%nat ->
  rep (create_as_value (Z.of_nat n) array) (take n array).
Proof.
  intros Ha Hn Hl. unfold create_as_value.
  assert (2 ^ (8 * Z.of_nat n) <= 2 ^ 56) by (apply Z.pow_le_mono_r; lia).
  pose proof (pow2_pos (8 * Z.of_nat n)).
  rewrite (Z.mul_comm _ 8), shiftl_1, (swrap_small 64 (2 ^ _)), load64_land
    by (done || lia).
  pose proof (le_val_range (take n array) (Forall_take _ _ _ Ha)) as Hr.
  rewrite length_take, Nat.min_l in Hr by done.
  set (v := le_val (take n array)) in *. set (W := s64 _).
  assert (u64 W = v * 2 ^ 8 + (2 * Z.of_nat n + 1)) as HW by (apply value_word; lia).
  split_and!; cbn [get_array_of get_length].
  - auto with ant.
  - change 255 with (2 ^ 8 - 1). rewrite land_ones_wrap, <- (wrap_wrap_le 8 64), HW by lia.
    unfold wrap. rewrite Z.add_comm, Z.mod_add, Z.mod_small by lia.
    rewrite Z.shiftr_div_pow2, length_take, Nat.min_l by (lia || done).
    change (2 ^ 1) with 2. Z.div_mod_to_equations. lia.
  - rewrite length_take, Nat.min_l by done.
    rewrite le_bytes_take, <- le_bytes_mod by done.
    fold (wrap (8 * Z.of_nat n) (W ≫ 8)).
    rewrite <- (wrap_wrap_le _ 56), wrap_shiftr by lia. change (56 + 8) with 64.
    rewrite HW, Z.shiftr_div_pow2 by lia.
    rewrite Z.div_add_l, (Z.div_small (2 * _ + 1)), Z.add_0_r, wrap_small by lia.
    rewrite <- (Nat.min_l n (length array)) at 1 by done. rewrite <- length_take.
    apply le_bytes_val. by apply Forall_take.
  - rewrite length_take. lia.
Qed.

Lemma create_rep (n : nat) array :
  Forall is_byte array -> (n <= length array)%nat -> Z.of_nat n < 2 ^ 15 ->
  rep (create (Z.of_nat n) array) (take n array).
Proof.
  intros Ha Hl Hn. unfold create. destruct (can_be_value (Z.of_nat n)) eqn:E.
  - unfold can_be_value in E. zbool. simpl in E. apply create_as_value_rep; [done|lia|done].
  - unfold create_as_obj. split_and!; simpl; [done| | |].
    + rewrite wrap_small, length_take by lia. lia.
    + rewrite length_take, Nat.min_l by done. done.
    + rewrite length_take. lia.
Qed.

Lemma rep_array_length s l : rep s l -> (length l <= length (get_array_of s))%nat.
Proof.
  intros (_ & _ & Ht & _). apply (f_equal length) in Ht. rewrite length_take in Ht. lia.
Qed.

Lemma rep_bytes s l : rep s l -> Forall is_byte l.
Proof. intros (Hb & _ & <- & _). by apply Forall_take. Qed.

Lemma copy_to_spec s l : rep s l -> copy_to s = l.
Proof. intros (_ & Hl & Ht & _). unfold copy_to, copy_bytes. by rewrite Hl, Nat2Z.id. Qed.

Lemma sequence_get_spec s l i : rep s l -> (i < length l)%nat -> get s (Z.of_nat i) = l !! i.
Proof.
  intros Hr Hi. pose proof (rep_array_length s l Hr). destruct Hr as (_ & _ & Ht & _).
  assert (get_array_of s !! i = l !! i) as <- by (rewrite <- Ht; by rewrite lookup_take_lt).
  destruct s as [w|n d]; cbn [get get_array_of] in *; [|by rewrite Nat2Z.id].
  rewrite le_bytes_length in *. rewrite le_bytes_lookup by lia. f_equal.
  change 255 with (2 ^ 8 - 1). rewrite land_ones_wrap, wrap_idemp by lia. unfold wrap. f_equal.
  change 256 with (2 ^ 8). rewrite <- Z.pow_mul_r, <- Z.shiftr_div_pow2, Z.shiftr_shiftr by lia.
  f_equal. lia.
Qed.

Lemma concat_spec s1 s2 l1 l2 :
  rep s1 l1 -> rep s2 l2 -> Z.of_nat (length l1 + length l2) < 2 ^ 15 -> rep (concat s1 s2) (l1 ++ l2).
Proof.
  intros H1 H2 Hl. unfold concat. fold (copy_to s1) (copy_to s2).
  rewrite (copy_to_spec _ _ H1), (copy_to_spec _ _ H2).
  pose proof (rep_bytes _ _ H1). pose proof (rep_bytes _ _ H2).
  destruct H1 as (_ & -> & _), H2 as (_ & -> & _).
  rewrite <- Nat2Z.inj_add, <- length_app.
  rewrite <- (firstn_all (l1 ++ l2)) at 3. apply create_rep; [by apply Forall_app|done|].
  by rewrite length_app.
Qed.

Lemma trim_spec s l n : rep s l -> rep (trim s (Z.of_nat n)) (take n l).
Proof.
  intros Hr. pose proof (rep_array_length s l Hr). destruct Hr as (Hb & Hl & Ht & Hm). unfold trim.
  rewrite Hl, <- Nat2Z.inj_min.
  replace (take n l) with (take (Nat.min (length l) n) (get_array_of s)).
  - apply create_rep; [done|lia|lia].
  - rewrite <- Ht at 2. rewrite take_take. f_equal. lia.
Qed.

Lemma mismatch_from_spec i n a b :
  (n <= length a)%nat -> (n <= length b)%nat ->
  i <= mismatch_from i n a b <= i + Z.of_nat n /\
  (mismatch_from i n a b = i + Z.of_nat n <-> take n a = take n b).
Proof.
  revert i a b. induction n as [|n IH]; intros i a b Ha Hb; [|].
  { assert (mismatch_from i 0 a b = i) as -> by (by destruct a, b). rewrite !take_0. split; [lia|]. split; [done|lia]. }
  destruct a as [|x a], b as [|y b]; simpl in Ha, Hb; try lia. cbn [mismatch_from take].
  destruct (IH (i + 1) a b) as [Hr He]; try lia. destruct (Z.eqb_spec x y) as [->|Hne]; cbn [negb].
  - split; [lia|]. split; intros E; [f_equal; apply He; lia|]. simplify_eq. apply He in E. lia.
  - split; [lia|]. split; intros E; [lia|]. by simplify_eq.
Qed.

Lemma starts_with_spec s p l lp :
  rep s l -> rep p lp -> starts_with s p = bool_decide (take (length lp) l = lp /\ (length lp <= length l)%nat).
Proof.
  intros Hs Hp. unfold starts_with, get_index_of_first_mismatch.
  pose proof (rep_array_length _ _ Hs). pose proof (rep_array_length _ _ Hp).
  destruct Hs as (_ & -> & Ht & _), Hp as (_ & -> & Htp & _).
  destruct (Z.leb_spec (Z.of_nat (length lp)) (Z.of_nat (length l))) as [Hle|]; simpl.
  2:{ symmetry. apply bool_decide_eq_false. lia. }
  rewrite Z.min_l, Nat2Z.id by lia.
  destruct (mismatch_from_spec 0 (length lp) (get_array_of p) (get_array_of s)) as [_ He]; [lia..|].
  apply Bool.eq_true_iff_eq. rewrite Z.eqb_eq, bool_decide_eq_true. rewrite Z.add_0_l in He.
  assert (take (length lp) (get_array_of s) = take (length lp) l) as Hts
    by (rewrite <- Ht; by rewrite take_take, Nat.min_l by lia).
  rewrite He, Htp, Hts. split; [intros E; split; [done|lia]|by intros [-> _]].
Qed.

(** ** Order and hash *)

(** Lexicographic order of byte strings, a prefix first. *)
Fixpoint lex_compare (a b : list Z) : comparison :=
  match a, b with
  | [], [] => Eq
  | [], _ :: _ => Lt
  | _ :: _, [] => Gt
  | x :: a, y :: b => match x ?= y with Eq => lex_compare a b | c => c end
  end.

Lemma memcmp_take a b n m : (n <= m)%nat -> memcmp (take m a) (take m b) n = memcmp a b n.
Proof.
  revert a b m. induction n as [|n IH]; intros a b m Hm; [by destruct a, b, m|].
  destruct m as [|m]; [lia|]. destruct a as [|x a], b as [|y b]; try done. cbn [take memcmp].
  rewrite IH by lia. done.
Qed.

Lemma memcmp_lex a b :
  lex_compare a b =
  ((if memcmp a b (Nat.min (length a) (length b)) =? 0
    then Z.of_nat (length a) - Z.of_nat (length b)
    else memcmp a b (Nat.min (length a) (length b))) ?= 0).
Proof.
  revert b. induction a as [|x a IH]; intros [|y b]; try done. cbn [lex_compare length Nat.min memcmp].
  destruct (Z.eqb_spec x y) as [->|Hne].
  - rewrite Z.compare_refl, IH. destruct (_ =? 0); [|done]. f_equal. lia.
  - rewrite (proj2 (Z.eqb_neq (x - y) 0)) by lia. rewrite <- (Z.compare_sub x y).
    by destruct (Z.compare_spec x y).
Qed.

Lemma memcmp_eq a b :
  length a = length b -> (memcmp a b (length a) = 0 <-> a = b).
Proof.
  revert b. induction a as [|x a IH]; intros [|y b] Hl; try done. cbn [memcmp length] in *.
  destruct (Z.eqb_spec x y) as [->|Hne].
  - rewrite IH by lia. split; [by intros ->|by intros [= ->]].
  - split; [lia|by intros [= -> _]].
Qed.

Lemma memcmp_rep s t ls lt n :
  rep s ls -> rep t lt -> (n <= length ls)%nat -> (n <= length lt)%nat ->
  memcmp (get_array_of s) (get_array_of t) n = memcmp ls lt n.
Proof.
  intros (_ & _ & Hs & _) (_ & _ & Ht & _) Hn1 Hn2.
  assert (forall (a l : list Z), take (length l) a = l -> (n <= length l)%nat -> take n a = take n l) as E.
  { intros a l <-. rewrite length_take, take_take. intros. f_equal. lia. }
  rewrite <- (memcmp_take (get_array_of s) _ n n), <- (memcmp_take ls lt n n) by lia.
  by rewrite (E _ _ Hs), (E _ _ Ht).
Qed.

Lemma equals_spec s t ls lt : rep s ls -> rep t lt -> equals s t = bool_decide (ls = lt).
Proof.
  intros Hs Ht. unfold equals. pose proof Hs as (_ & El & _). pose proof Ht as (_ & Er & _).
  rewrite El, Er. destruct (Z.eqb_spec (Z.of_nat (length ls)) (Z.of_nat (length lt))) as [E|E].
  - rewrite Nat2Z.id, (memcmp_rep s t ls lt) by (done || lia).
    apply Bool.eq_true_iff_eq. rewrite Z.eqb_eq, bool_decide_eq_true. apply memcmp_eq. lia.
  - symmetry. apply bool_decide_eq_false. by intros ->.
Qed.

Lemma compare_spec s t ls lt : rep s ls -> rep t lt -> (compare s t ?= 0) = lex_compare ls lt.
Proof.
  intros Hs Ht. unfold compare. pose proof Hs as (_ & El & _). pose proof Ht as (_ & Er & _).
  rewrite El, Er, <- Nat2Z.inj_min, Nat2Z.id, (memcmp_rep s t ls lt) by (done || lia).
  rewrite memcmp_lex. by destruct (_ =? 0).
Qed.

(** Shorter sequences first, then lexicographically. *)
Lemma compareByLength_spec s t ls lt :
  rep s ls -> rep t lt ->
  (compareByLength s t ?= 0) =
  match (length ls ?= length lt)%nat with Eq => lex_compare ls lt | c => c end.
Proof.
  intros Hs Ht. unfold compareByLength. pose proof Hs as (_ & El & _). pose proof Ht as (_ & Er & _).
  rewrite El, Er, <- Nat2Z.inj_min, Nat2Z.id, (memcmp_rep s t ls lt) by (done || lia).
  rewrite <- Nat2Z.inj_compare. destruct (Z.eqb_spec (Z.of_nat (length ls) - Z.of_nat (length lt)) 0) as [E|E]; simpl.
  - destruct (Z.compare_spec (Z.of_nat (length ls)) (Z.of_nat (length lt))); [|lia..]. rewrite memcmp_lex.
    destruct (Z.eqb_spec (memcmp ls lt (Nat.min (length ls) (length lt))) 0) as [E0|]; [|done].
    rewrite E0. by rewrite E.
  - rewrite <- Z.compare_sub. by destruct (Z.compare_spec (Z.of_nat (length ls)) (Z.of_nat (length lt))); [lia|..].
Qed.

(** The hash of a byte string; [hash] computes it from either
    representation. *)
Definition hash_list (l : list Z) : Z :=
  let big_hash := le_val (take (length l mod 8) l) in
  s32 (Z.lxor (s32 (Z.lxor big_hash (big_hash ≫ 32))) (Z.of_nat (length l)) * some_big_prime_number).

Lemma hash_spec s l : rep s l -> hash s = hash_list l.
Proof.
  intros Hr. pose proof (rep_array_length s l Hr) as Ha. destruct Hr as (Hb & Hl & Ht & _).
  unfold hash, hash_list. rewrite Hl.
  assert (Z.of_nat (length l) * 8 mod 64 = 8 * Z.of_nat (length l mod 8)) as ->.
  { rewrite Nat2Z.inj_mod. change 64 with (8 * 8). rewrite Z.mul_mod_distr_r by lia. simpl (Z.of_nat 8). lia. }
  pose proof (Nat.mod_upper_bound (length l) 8 ltac:(lia)) as Hm8.
  pose proof (Nat.Div0.mod_le (length l) 8) as Hml.
  set (m := (length l mod 8)%nat) in *.
  assert (2 ^ (8 * Z.of_nat m) <= 2 ^ 56) by (apply Z.pow_le_mono_r; lia). pose proof (pow2_pos (8 * Z.of_nat m)).
  rewrite shiftl_1, (swrap_small 64 (2 ^ _)), (swrap_small 64 (2 ^ _ - 1)), load64_land by (done || lia).
  rewrite Z.shiftr_0_r. replace (take m (get_array_of s)) with (take m l); [done|].
  rewrite <- Ht. by rewrite take_take, Nat.min_l by lia.
Qed.

End Sequence.

End Sequence.

(** A sequence created from bytes behaves as that byte string whatever
    follows the array in memory and whichever representation is chosen:
    reading it back, indexing, trimming, concatenating, prefix test, equality
    and order agree with the lists, and the hash depends on the bytes only. *)
Theorem sequence_is_byte_string (beyond l1 l2 : list Z) :
  Forall is_byte beyond -> Forall is_byte l1 -> Forall is_byte l2 ->
  Z.of_nat (length l1 + length l2) < 2 ^ 15 ->
  let s1 := Sequence.create beyond (Z.of_nat (length l1)) l1 in
  let s2 := Sequence.create beyond (Z.of_nat (length l2)) l2 in
  Sequence.copy_to s1 = l1 /\ Sequence.get_length s1 = Z.of_nat (length l1) /\
  (forall i, (i < length l1)%nat -> Sequence.get s1 (Z.of_nat i) = l1 !! i) /\
  (forall n, Sequence.copy_to (Sequence.trim beyond s1 (Z.of_nat n)) = take n l1) /\
  Sequence.copy_to (Sequence.concat beyond s1 s2) = l1 ++ l2 /\
  Sequence.starts_with s1 s2 = bool_decide (take (length l2) l1 = l2 /\ (length l2 <= length l1)%nat) /\
  Sequence.equals s1 s2 = bool_decide (l1 = l2) /\
  (Sequence.compare s1 s2 ?= 0) = Sequence.lex_compare l1 l2 /\
  Sequence.hash beyond s1 = Sequence.hash_list l1.
Proof.
  intros Hb H1 H2 Hl s1 s2.
  assert (Sequence.rep s1 l1) as R1.
  { rewrite <- (firstn_all l1). apply Sequence.create_rep; [done..|lia]. }
  assert (Sequence.rep s2 l2) as R2.
  { rewrite <- (firstn_all l2). apply Sequence.create_rep; [done..|lia]. }
  split_and!.
  - by apply Sequence.copy_to_spec.
  - apply R1.
  - intros i. by apply Sequence.sequence_get_spec.
  - intros n. by apply Sequence.copy_to_spec, Sequence.trim_spec.
  - by apply Sequence.copy_to_spec, Sequence.concat_spec.
  - by apply Sequence.starts_with_spec.
  - by apply Sequence.equals_spec.
  - by apply Sequence.compare_spec.
  - by apply Sequence.hash_spec.
Qed.

Lemma sequence_is_byte_string_witness :
  Sequence.copy_to (Sequence.concat [7; 7] (Sequence.create [7; 7] 3 [200; 0; 255])
    (Sequence.create [7; 7] 9 [1; 2; 3; 4; 5; 6; 7; 8; 9])) = [200; 0; 255; 1; 2; 3; 4; 5; 6; 7; 8; 9].
Proof.
  assert (Forall is_byte [7; 7]) as Hb by by_decide.
  refine (proj1 (proj2 (proj2 (proj2 (proj2
    (sequence_is_byte_string [7; 7] [200; 0; 255] [1; 2; 3; 4; 5; 6; 7; 8; 9] Hb _ _ _)))))).
  - by_decide.
  - by_decide.
  - reflexivity.
Defined.
