(* ===== verification/NavigableHashMap.v ===== *)
(** * The navigable hash map ([prims/HashMap.hpp], class [NavigableHashMap])

    One hash map per key class (the length of the sequence minus one), the
    longest classes sharing the last map.  [get_floor] looks for the longest
    prefix of the key: top down, bottom up or by binary search over the
    classes.  Keys are the byte strings of the sequences, hashed and compared
    as [Sequence] does. *)

From S2P Require Import Prelude MapInterface HashMap Sequence.
From Stdlib Require Import ZArith Lia.

Module NavigableHashMap.

Section NavigableHashMap.

(** The template parameters. *)
Variable assume_continous_elements : bool.
Variable lucky_clazz : Z.

Definition hashSequence (s : list Z) : Z := Sequence.hash_list s.

Definition equalsSequence (s1 s2 : list Z) : bool := bool_decide (s1 = s2).

Definition dictionary : Type := HashMap.hashmap (list Z) Z.

Abbreviation navmap := (list dictionary).

Definition getSequenceClass (s : list Z) : Z := Z.of_nat (length s) - 1.

Definition reduceSequence (s : list Z) (clazz : Z) : list Z := take (Z.to_nat (clazz + 1)) s.

(** The two constructors: a single dictionary, or one per class. *)
Definition make_single (init_capacity : Z) : navmap := [HashMap.make init_capacity].

Definition make_classes (dictionary_count : nat) (get_init_capacity : Z -> Z) : navmap :=
  (fun index => HashMap.make (get_init_capacity (Z.of_nat index))) <$> seq 0 dictionary_count.

(** [MIN2(dictionary_count - 1, clazz)] *)
Definition dictionary_index (m : navmap) (clazz : Z) : nat :=
  Nat.min (length m - 1) (Z.to_nat clazz).

Definition get_dictionary (m : navmap) (clazz : Z) : option dictionary :=
  m !! dictionary_index m clazz.

Definition get_size (m : navmap) : Z := foldr (fun d n => HashMap.get_size d + n) 0 m.

Definition get (m : navmap) (key : list Z) : option (option Z) :=
  d ← get_dictionary m (getSequenceClass key);
  HashMap.get hashSequence equalsSequence d key.

Definition put (m : navmap) (key : list Z) (value : Z) : option (navmap * bool) :=
  let clazz := getSequenceClass key in
  d ← get_dictionary m clazz;
  '(d, b) ← HashMap.put hashSequence equalsSequence d key value;
  Some (<[dictionary_index m clazz := d]> m, b).

Definition clear (m : navmap) : navmap := HashMap.clear <$> m.

Definition try_get_floor (m : navmap) (key : list Z) (clazz : Z) : option (option (list Z * Z)) :=
  let reduced_key := reduceSequence key clazz in
  d ← get_dictionary m clazz;
  value ← HashMap.get hashSequence equalsSequence d reduced_key;
  Some (match value with Some v => Some (reduced_key, v) | None => None end).

(** The loops return [None] when the fuel runs out: for [get_floor_top_down]
    without a floor the class wraps below zero in C++. *)
Fixpoint top_down_loop (fuel : nat) (m : navmap) (key : list Z) (clazz min_clazz : Z) :
    option (option (list Z * Z)) :=
  match fuel with
  | O => None
  | S fuel' =>
      if min_clazz <=? clazz then
        result ← try_get_floor m key clazz;
        match result with
        | Some e => Some (Some e)
        | None => if clazz =? 0 then None else top_down_loop fuel' m key (clazz - 1) min_clazz
        end
      else Some None
  end.

Definition get_floor_top_down (m : navmap) (key : list Z) (min_clazz max_clazz : Z) :=
  top_down_loop (S (Z.to_nat max_clazz)) m key max_clazz min_clazz.

Fixpoint bottom_up_loop (fuel : nat) (m : navmap) (key : list Z) (clazz max_clazz : Z)
    (result : option (list Z * Z)) : option (option (list Z * Z)) :=
  match fuel with
  | O => None
  | S fuel' =>
      if clazz <=? max_clazz then
        next ← try_get_floor m key clazz;
        match next with
        | None => Some result
        | Some e => bottom_up_loop fuel' m key (clazz + 1) max_clazz (Some e)
        end
      else Some result
  end.

Definition get_floor_bottom_up (m : navmap) (key : list Z) (min_clazz max_clazz : Z) :=
  bottom_up_loop (S (S (Z.to_nat (max_clazz - min_clazz)))) m key min_clazz max_clazz None.

Fixpoint binary_search_loop (fuel : nat) (m : navmap) (key : list Z) (lo hi : Z)
    (result : option (list Z * Z)) : option (option (list Z * Z)) :=
  match fuel with
  | O => None
  | S fuel' =>
      if lo <=? hi then
        let mi := lo + (hi - lo) / 2 in
        middle ← try_get_floor m key mi;
        match middle with
        | Some e => binary_search_loop fuel' m key (mi + 1) hi (Some e)
        | None => binary_search_loop fuel' m key lo (mi - 1) result
        end
      else Some result
  end.

Definition get_floor_binary_search (m : navmap) (key : list Z) (min_clazz max_clazz : Z) :=
  binary_search_loop (S (S (Z.to_nat (max_clazz - min_clazz)))) m key min_clazz max_clazz None.

Definition get_floor_lucky_guess (m : navmap) (key : list Z) : option (option (list Z * Z)) :=
  let clazz := getSequenceClass key in
  if negb assume_continous_elements then get_floor_top_down m key 0 clazz
  else
    guess ← (if (0 <? lucky_clazz) && (lucky_clazz * 2 <=? clazz)
             then try_get_floor m key lucky_clazz else Some None);
    match guess with
    | Some _ => get_floor_binary_search m key lucky_clazz clazz
    | None => get_floor_bottom_up m key 0 clazz
    end.

Definition get_floor (m : navmap) (key : list Z) : option (option (list Z * Z)) :=
  get_floor_lucky_guess m key.

(** ** Correctness *)

Lemma equalsSequence_spec a b : equalsSequence a b = true <-> a = b.
Proof. apply bool_decide_eq_true. Qed.

Definition dict_rep : dictionary -> gmap (list Z) Z -> Prop := HashMap.rep hashSequence.

(** Each dictionary represents a map; a key belongs to that of its class. *)
Definition rep (m : navmap) (d : gmap (list Z) Z) : Prop :=
  m <> [] /\ exists ds, Forall2 dict_rep m ds /\
    forall k, d !! k = ds !! dictionary_index m (getSequenceClass k) ≫= (.!! k).

Lemma rep_dictionary m d clazz :
  rep m d -> exists h dc, get_dictionary m clazz = Some h /\ dict_rep h dc /\
    forall k, dictionary_index m (getSequenceClass k) = dictionary_index m clazz -> dc !! k = d !! k.
Proof.
  intros (Hne & ds & Hds & Hd). unfold get_dictionary.
  destruct (lookup_lt_is_Some_2 m (dictionary_index m clazz)) as [h Hh].
  { unfold dictionary_index. destruct m; [done|simpl; lia]. }
  destruct (Forall2_lookup_l _ _ _ _ _ Hds Hh) as (dc & Edc & Hr).
  exists h, dc. split_and!; [done|done|]. intros k E. by rewrite Hd, E, Edc.
Qed.

(** The entry for the prefix of length [j]. *)
Definition entry (d : gmap (list Z) Z) (key : list Z) (j : Z) : option (list Z * Z) :=
  match d !! take (Z.to_nat j) key with Some v => Some (take (Z.to_nat j) key, v) | None => None end.

Lemma try_get_floor_spec m d key clazz :
  rep m d -> 0 <= clazz < Z.of_nat (length key) ->
  try_get_floor m key clazz = Some (entry d key (clazz + 1)).
Proof.
  intros Hr Hc. unfold try_get_floor. destruct (rep_dictionary m d clazz Hr) as (h & dc & -> & Hh & Hk).
  cbn [mbind option_bind]. rewrite (HashMap.hashmap_get_spec hashSequence equalsSequence equalsSequence_spec _ _ _ Hh).
  cbn [mbind option_bind]. unfold entry, reduceSequence. rewrite Hk; [by destruct (d !! _)|].
  unfold getSequenceClass. rewrite length_take. f_equal. lia.
Qed.

Lemma entry_down d key i j e :
  prefix_closed d -> 0 < i <= j -> j <= Z.of_nat (length key) -> entry d key j = Some e ->
  exists e', entry d key i = Some e'.
Proof.
  intros [_ Hc] Hi Hj He. unfold entry in *. destruct (d !! take (Z.to_nat j) key) as [v|] eqn:E; [|done].
  destruct (Hc (take (Z.to_nat j) key) (Z.to_nat i)) as [w Hw]; [by eexists|rewrite length_take; lia|].
  rewrite take_take, Nat.min_l in Hw by lia. rewrite Hw. eauto.
Qed.

Lemma entry_longest d key j e :
  prefix_closed d -> 0 < j <= Z.of_nat (length key) -> entry d key j = Some e ->
  (j < Z.of_nat (length key) -> entry d key (j + 1) = None) ->
  longest_prefix d (length key) key = Some e.
Proof.
  intros Hc Hj He Hn. unfold entry in He. destruct (d !! take (Z.to_nat j) key) as [v|] eqn:E; [|done]. simplify_eq.
  apply longest_prefix_intro; [lia|done|]. intros i Hi.
  destruct (d !! take i key) as [w|] eqn:Ei; [|done].
  destruct (entry_down d key (j + 1) (Z.of_nat i) (take i key, w) Hc) as [e' He']; [lia|lia| |].
  - unfold entry. by rewrite Nat2Z.id, Ei.
  - rewrite Hn in He' by lia. done.
Qed.

Section floor.
Context (m : navmap) (d : gmap (list Z) Z) (key : list Z).
Hypothesis Hrep : rep m d.
Hypothesis Hclosed : prefix_closed d.
Hypothesis Hfirst : is_Some (d !! take 1 key).
Hypothesis Hkey : key <> [].

Lemma entry_first : exists e, entry d key 1 = Some e.
Proof. unfold entry. destruct Hfirst as [v Hv]. change (Z.to_nat 1) with 1%nat. rewrite Hv. eauto. Qed.

Lemma bottom_up_spec fuel c r :
  0 <= c <= Z.of_nat (length key) -> Z.of_nat (length key) - c < Z.of_nat fuel ->
  (0 < c -> entry d key c = r) -> (c = 0 -> r = None) ->
  (0 < c -> is_Some r) ->
  bottom_up_loop fuel m key c (Z.of_nat (length key) - 1) r = Some (longest_prefix d (length key) key).
Proof.
  revert c r. induction fuel as [|fuel IH]; intros c r Hc Hf Hr H0 Hs; [lia|]. cbn [bottom_up_loop].
  destruct (Z.leb_spec c (Z.of_nat (length key) - 1)) as [Hle|Hgt].
  - rewrite (try_get_floor_spec m d) by (done || lia). cbn [mbind option_bind].
    destruct (entry d key (c + 1)) as [e|] eqn:E.
    + apply IH; try lia; eauto.
    + f_equal. destruct (decide (c = 0)) as [->|].
      { destruct entry_first as [e' He']. change (0 + 1) with 1 in E. congruence. }
      destruct (Hs ltac:(lia)) as [e ->]. symmetry. apply (entry_longest d key c); try done; try lia.
      apply Hr. lia.
  - f_equal. assert (0 < Z.of_nat (length key)) by (destruct key; [done|simpl; lia]).
    destruct (Hs ltac:(lia)) as [e ->]. symmetry. apply (entry_longest d key c); try done; try lia.
    apply Hr. lia.
Qed.

Lemma top_down_spec fuel c :
  0 <= c < Z.of_nat (length key) -> c < Z.of_nat fuel ->
  (forall j, c + 1 < j <= Z.of_nat (length key) -> entry d key j = None) ->
  top_down_loop fuel m key c 0 = Some (longest_prefix d (length key) key).
Proof.
  revert c. induction fuel as [|fuel IH]; intros c Hc Hf Hn; [lia|]. cbn [top_down_loop].
  rewrite (proj2 (Z.leb_le 0 c)) by lia. rewrite (try_get_floor_spec m d) by (done || lia). cbn [mbind option_bind].
  destruct (entry d key (c + 1)) as [e|] eqn:E.
  - do 2 f_equal. symmetry. apply (entry_longest d key (c + 1)); try done; [lia|]. intros. apply Hn. lia.
  - destruct (Z.eqb_spec c 0) as [->|].
    { destruct entry_first as [e' He']. change (0 + 1) with 1 in E. congruence. }
    apply IH; [lia|lia|]. intros j Hj. destruct (decide (j = c + 1)) as [->|]; [done|]. apply Hn. lia.
Qed.

Lemma binary_search_spec fuel lo hi mn r :
  0 <= mn <= lo -> mn < Z.of_nat (length key) -> lo <= hi + 1 -> hi < Z.of_nat (length key) -> hi - lo + 1 < Z.of_nat fuel ->
  is_Some (entry d key (mn + 1)) ->
  (mn < lo -> entry d key lo = r /\ is_Some r) ->
  (hi + 1 < Z.of_nat (length key) -> entry d key (hi + 2) = None) ->
  binary_search_loop fuel m key lo hi r = Some (longest_prefix d (length key) key).
Proof.
  revert lo hi r. induction fuel as [|fuel IH]; intros lo hi r Hlo Hml Hhi Hk Hf Hmn Hr Hn; [lia|].
  cbn [binary_search_loop]. destruct (Z.leb_spec lo hi) as [Hle|Hgt].
  - set (mi := lo + (hi - lo) / 2).
    assert (lo <= mi <= hi) by (unfold mi; pose proof (Z.div_pos (hi - lo) 2); pose proof (Z.div_le_upper_bound (hi - lo) 2 (hi - lo)); lia).
    rewrite (try_get_floor_spec m d) by (done || lia). cbn [mbind option_bind].
    destruct (entry d key (mi + 1)) as [e|] eqn:E; apply IH; try lia; try done.
    intros _. by replace (mi - 1 + 2) with (mi + 1) by lia.
  - assert (lo = hi + 1) as -> by lia. f_equal. destruct (decide (mn < hi + 1)) as [Hlt|].
    + destruct (Hr Hlt) as [He [e ->]]. symmetry. apply (entry_longest d key (hi + 1)); try done; [lia|].
      intros. replace (hi + 1 + 1) with (hi + 2) by lia. by apply Hn.
    + assert (mn = hi + 1) as -> by lia. replace (hi + 1 + 1) with (hi + 2) in Hmn by lia.
      rewrite Hn in Hmn by lia. by destruct Hmn.
Qed.

Lemma navhash_get_floor_spec : get_floor m key = Some (longest_prefix d (length key) key).
Proof.
  assert (0 < Z.of_nat (length key)) by (destruct key; [done|simpl; lia]).
  unfold get_floor, get_floor_lucky_guess, getSequenceClass.
  destruct assume_continous_elements; cbn [negb].
  2:{ unfold get_floor_top_down. apply top_down_spec; intros; lia. }
  assert (get_floor_bottom_up m key 0 (Z.of_nat (length key) - 1) = Some (longest_prefix d (length key) key))
    as Hbu by (apply bottom_up_spec; intros; done || lia).
  destruct ((0 <? lucky_clazz) && _) eqn:E; [|done]. apply andb_prop in E as [E1 E2]. zbool.
  rewrite (try_get_floor_spec m d) by (done || lia). cbn [mbind option_bind].
  destruct (entry d key (lucky_clazz + 1)) as [e|] eqn:Ee; [|done].
  unfold get_floor_binary_search. apply (binary_search_spec _ _ _ lucky_clazz); intros; try lia. by eexists.
Qed.

End floor.

Lemma navhash_put_spec m d key v :
  rep m d -> d !! key = None -> exists m', put m key v = Some (m', true) /\ rep m' (<[key := v]> d).
Proof.
  intros Hr Hk. unfold put. destruct (rep_dictionary m d (getSequenceClass key) Hr) as (h & dc & E & Hh & Hd).
  rewrite E. cbn [mbind option_bind].
  destruct (HashMap.hashmap_put_spec hashSequence equalsSequence equalsSequence_spec h dc key v Hh) as (h' & -> & Hh').
  cbn [mbind option_bind]. rewrite (Hd key) in * by done. rewrite Hk. simpl. eexists. split; [done|].
  assert (put_fresh dc key v = <[key := v]> dc) as Ef by (unfold put_fresh; by rewrite Hd, Hk by done).
  rewrite Ef in Hh'. destruct Hr as (Hne & ds & Hds & Hlk). unfold get_dictionary in E.
  destruct (Forall2_lookup_l _ _ _ _ _ Hds E) as (dc' & Edc & _).
  set (i := dictionary_index m (getSequenceClass key)) in *.
  split. { intros E0. apply (f_equal length) in E0. rewrite length_insert in E0. by destruct m. }
  exists (<[i := <[key := v]> dc]> ds). split; [by apply Forall2_insert|].
  intros k. unfold dictionary_index. rewrite length_insert. fold (dictionary_index m (getSequenceClass k)).
  destruct (decide (dictionary_index m (getSequenceClass k) = i)) as [Ei|Ei].
  - rewrite Ei, list_lookup_insert_eq by (by eapply lookup_lt_Some). simpl.
    destruct (decide (k = key)) as [->|Hne'].
    + by rewrite !lookup_insert_eq.
    + rewrite !lookup_insert_ne by done. symmetry. by apply Hd.
  - rewrite list_lookup_insert_ne by done. rewrite lookup_insert_ne by (by intros ->). apply Hlk.
Qed.

Lemma navhash_clear_spec m d : rep m d -> rep (clear m) ∅.
Proof.
  intros (Hne & ds & Hds & _). split; [by destruct m|].
  exists (const ∅ <$> ds). split.
  - apply Forall2_fmap. eapply Forall2_impl; [exact Hds|]. intros h dc Hh. by apply HashMap.hashmap_clear_spec with dc.
  - intros k. rewrite lookup_empty, list_lookup_fmap. by destruct (ds !! _).
Qed.

Lemma navhash_make_rep (m : navmap) :
  m <> [] -> (forall h, h ∈ m -> dict_rep h ∅) -> rep m ∅.
Proof.
  intros Hne Hm. split; [done|]. exists (replicate (length m) ∅). split.
  - apply Forall2_same_length_lookup_2; [by rewrite length_replicate|].
    intros i h dc Hh Hdc. apply lookup_replicate in Hdc as [-> _]. apply Hm. by eapply list_elem_of_lookup_2.
  - intros k. rewrite lookup_empty. destruct (replicate _ _ !! _) as [dc|] eqn:E; [|done].
    apply lookup_replicate in E as [-> _]. done.
Qed.

Lemma make_single_rep cap : 0 <= cap -> rep (make_single cap) ∅.
Proof. intros. apply navhash_make_rep; [done|]. intros h ->%list_elem_of_singleton. by apply HashMap.hashmap_make_spec. Qed.

Lemma make_classes_rep n f :
  (0 < n)%nat -> (forall i, 0 <= f i) -> rep (make_classes n f) ∅.
Proof.
  intros Hn Hf. apply navhash_make_rep; [by destruct n; [lia|]|].
  intros h (i & -> & _)%list_elem_of_fmap. by apply HashMap.hashmap_make_spec.
Qed.

#[export] Instance navigable_ops : NavigableMap navmap := {
  nav_put := put; nav_get_floor := get_floor; nav_clear := clear;
}.

#[export, program] Instance navigable_spec : NavigableMapSpec navmap := {| nav_rep := rep |}.
Next Obligation.
  intros m d k v Hr _ Hk _ _ _. destruct (navhash_put_spec m d k v Hr Hk) as (m' & ? & ?). eauto.
Qed.
Next Obligation. intros m d k Hr Hc Hk _ Hf. by apply navhash_get_floor_spec. Qed.
Next Obligation. exact navhash_clear_spec. Qed.

End NavigableHashMap.

End NavigableHashMap.
