(* ===== verification/PrefixTreeMap.v ===== *)
(** * The prefix tree map ([prims/PrefixTreeMap.hpp])

    A trie over the elements of the key: whole bytes, nibbles or two-bit
    groups of the sequence ([LZWCompression.cpp], [getSequence...Element]).
    Nodes live in a growing array and are named by their position plus one;
    0 names no node. *)

From S2P Require Import Prelude MapInterface HashMap InflatableMap.
From Stdlib Require Import ZArith Lia.

Module PrefixTreeMap.

Record node := Node { entry : option (list Z * Z); children : ByteMap.t }.

(** [nodes] has [node_count] elements. *)
Record ptree := PTree { nodes : list node; nodes_capacity : Z }.

Definition NO_NODE : Z := 0.
Definition ROOT : Z := 1.

Definition get_node (t : ptree) (id : Z) : option node :=
  if id <=? 0 then None else nodes t !! Z.to_nat (id - 1).

(** [allocate_node] grows the array when it is full and counts the node;
    [new_node] initialises it. *)
Definition allocate_node (t : ptree) : Z * Z :=
  let capacity := if Z.of_nat (length (nodes t)) =? nodes_capacity t
                  then Z.max 1 (nodes_capacity t * 2) else nodes_capacity t in
  (capacity, Z.of_nat (length (nodes t)) + 1).

Definition new_node (t : ptree) : ptree * Z :=
  let '(capacity, id) := allocate_node t in
  (PTree (nodes t ++ [Node None ByteMap.empty]) capacity, id).

Definition clear (t : ptree) : ptree := (new_node (PTree [] (nodes_capacity t))).1.

Definition make (init_capacity : Z) : ptree := clear (PTree [] init_capacity).

Definition get_size (t : ptree) : Z := Z.of_nat (length (nodes t)) - 1.

Section PrefixTreeMap.
(** [get_length] and [get_element] of the template. *)
Variable get_length : list Z -> Z.
Variable get_element : list Z -> Z -> option Z.

Definition get_or_put (t : ptree) (parent : Z) (key : list Z) (index : Z) (create : bool) :
    option (ptree * Z * bool) :=
  element ← get_element key index;
  n ← get_node t parent;
  maybe ← ByteMap.get (children n) element;
  let id := match maybe with Some id => id | None => NO_NODE end in
  if negb (id =? NO_NODE) then Some (t, id, false)
  else if create then
    let '(t, id) := new_node t in
    n ← get_node t parent;
    '(ch, _) ← ByteMap.put (children n) element id;
    Some (PTree (<[Z.to_nat (parent - 1) := Node (entry n) ch]> (nodes t)) (nodes_capacity t), id, true)
  else Some (t, NO_NODE, false).

(** The walk of [get_floor]: [node] is the current node, [last_node] the last
    one seen with an entry. *)
Fixpoint floor_loop (todo : nat) (t : ptree) (key : list Z) (index node last_node : Z) : option Z :=
  match todo with
  | O => Some last_node
  | S todo' =>
      if node =? NO_NODE then Some last_node
      else
        '(_, node, _) ← get_or_put t node key index false;
        if node =? NO_NODE then Some last_node
        else
          n ← get_node t node;
          let last_node := match entry n with Some _ => node | None => last_node end in
          floor_loop todo' t key (index + 1) node last_node
  end.

Definition get_floor (t : ptree) (key : list Z) : option (option (list Z * Z)) :=
  last_node ← floor_loop (Z.to_nat (get_length key)) t key 0 ROOT ROOT;
  n ← get_node t last_node;
  Some (entry n).

Definition get (t : ptree) (key : list Z) : option (option Z) :=
  result ← get_floor t key;
  Some (match result with
        | Some (k, v) => if get_length k =? get_length key then Some v else None
        | None => None
        end).

Fixpoint put_loop (todo : nat) (t : ptree) (key : list Z) (index node : Z) (create : bool) :
    option (ptree * Z * bool) :=
  match todo with
  | O => Some (t, node, create)
  | S todo' =>
      '(t, node, create) ← get_or_put t node key index true;
      put_loop todo' t key (index + 1) node create
  end.

Definition put (t : ptree) (key : list Z) (value : Z) : option (ptree * bool) :=
  '(t, node, create) ← put_loop (Z.to_nat (get_length key)) t key 0 ROOT false;
  if (create : bool) then
    n ← get_node t node;
    Some (PTree (<[Z.to_nat (node - 1) := Node (Some (key, value)) (children n)]> (nodes t))
                (nodes_capacity t), true)
  else Some (t, false).

Definition remove (t : ptree) (key : list Z) : ptree * bool := (t, false).

End PrefixTreeMap.

End PrefixTreeMap.

(** ** The three ways to cut a sequence into elements *)

Module Elements.

Definition getSequenceLength (s : list Z) : Z := Z.of_nat (length s).

Definition getSequenceElement (s : list Z) (index : Z) : option Z := s !! Z.to_nat index.

Definition getSequenceNibbleLength (s : list Z) : Z := Z.of_nat (length s) * 2.

Definition getSequenceNibbleElement (s : list Z) (index : Z) : option Z :=
  let nibble_mask := (1 ≪ 4) - 1 in
  let byte_index := index / 2 in
  c ← s !! Z.to_nat byte_index;
  let hibble_index := index mod 2 in
  Some (u8 ((c ≫ ((2 - 1 - hibble_index) * 4)) .& nibble_mask)).

Definition getSequenceHibbleLength (s : list Z) : Z := Z.of_nat (length s) * 4.

Definition getSequenceHibbleElement (s : list Z) (index : Z) : option Z :=
  let hibble_mask := (1 ≪ 2) - 1 in
  let byte_index := index / 4 in
  c ← s !! Z.to_nat byte_index;
  let hibble_index := index mod 4 in
  Some (u8 ((c ≫ ((4 - 1 - hibble_index) * 2)) .& hibble_mask)).

(** What the tree needs of a decomposition: every byte gives [r] elements,
    different bytes different elements. *)
Class Decomposition (get_length : list Z -> Z) (get_element : list Z -> Z -> option Z)
    (r : nat) (expand : Z -> list Z) : Prop := {
  expand_pos : (0 < r)%nat;
  expand_length b : length (expand b) = r;
  expand_inj a b : is_byte a -> is_byte b -> expand a = expand b -> a = b;
  elements_length k : get_length k = Z.of_nat (r * length k);
  elements_lookup k i : (i < r * length k)%nat ->
    get_element k (Z.of_nat i) = concat (expand <$> k) !! i;
}.

Lemma concat_expand_lookup (expand : Z -> list Z) r k i :
  (forall b, length (expand b) = r) -> (0 < r)%nat -> (i < r * length k)%nat ->
  concat (expand <$> k) !! i = k !! (i / r)%nat ≫= (fun b => expand b !! (i mod r)%nat).
Proof.
  intros He Hr. revert i. induction k as [|b k IH]; intros i Hi; [simpl in Hi; lia|].
  cbn [fmap list_fmap concat length] in *. destruct (decide (i < r)%nat) as [Hlt|Hge].
  - rewrite lookup_app_l by (rewrite He; lia). by rewrite Nat.div_small, Nat.mod_small by lia.
  - rewrite lookup_app_r by (rewrite He; lia). rewrite He. fold (expand <$> k). rewrite IH by lia.
    assert (i = i - r + 1 * r)%nat as Ei by lia.
    assert (i / r = S ((i - r) / r))%nat as -> by (rewrite Ei at 1; rewrite Nat.div_add; lia).
    assert (i mod r = (i - r) mod r)%nat as -> by (rewrite Ei at 1; by rewrite Nat.Div0.mod_add). done.
Qed.

#[export] Instance byte_decomposition :
  Decomposition getSequenceLength getSequenceElement 1 (fun b => [b]).
Proof.
  split; try done; try lia.
  - intros a b _ _ [= ->]. done.
  - intros k. unfold getSequenceLength. lia.
  - intros k i Hi. unfold getSequenceElement. rewrite Nat2Z.id.
    rewrite (concat_expand_lookup _ 1) by (done || lia). rewrite Nat.div_1_r. by destruct (k !! i).
Qed.

(** The elements of a byte, most significant first, determine it. *)
Lemma nibbles_inj a b :
  is_byte a -> is_byte b ->
  [u8 ((a ≫ 4) .& 15); u8 ((a ≫ 0) .& 15)] = [u8 ((b ≫ 4) .& 15); u8 ((b ≫ 0) .& 15)] -> a = b.
Proof.
  unfold is_byte. intros Ha Hb [= H1 H2]. revert H1 H2.
  change 15 with (2 ^ 4 - 1). rewrite !land_ones_wrap, !Z.shiftr_0_r, !(Z.shiftr_div_pow2 _ 4) by lia.
  unfold wrap. rewrite !(Z.mod_small _ (2 ^ 8)); try (Z.div_mod_to_equations; lia).
Qed.

#[export] Instance nibble_decomposition :
  Decomposition getSequenceNibbleLength getSequenceNibbleElement 2
    (fun b => [u8 ((b ≫ 4) .& 15); u8 ((b ≫ 0) .& 15)]).
Proof.
  split; try done; try lia.
  - exact nibbles_inj.
  - intros k. unfold getSequenceNibbleLength. lia.
  - intros k i Hi. unfold getSequenceNibbleElement. rewrite (concat_expand_lookup _ 2) by (done || lia).
    replace (Z.of_nat i / 2) with (Z.of_nat (i / 2)) by (by rewrite Nat2Z.inj_div).
    replace (Z.of_nat i mod 2) with (Z.of_nat (i mod 2)) by (by rewrite Nat2Z.inj_mod).
    rewrite Nat2Z.id. destruct (k !! (i / 2)%nat) as [c|]; [|done]. cbn [mbind option_bind].
    pose proof (Nat.mod_upper_bound i 2 ltac:(lia)).
    assert (i mod 2 = 0 \/ i mod 2 = 1)%nat as [-> | ->] by lia; done.
Qed.

Lemma hibbles_inj a b :
  is_byte a -> is_byte b ->
  [u8 ((a ≫ 6) .& 3); u8 ((a ≫ 4) .& 3); u8 ((a ≫ 2) .& 3); u8 ((a ≫ 0) .& 3)] =
  [u8 ((b ≫ 6) .& 3); u8 ((b ≫ 4) .& 3); u8 ((b ≫ 2) .& 3); u8 ((b ≫ 0) .& 3)] -> a = b.
Proof.
  unfold is_byte. intros Ha Hb [= H1 H2 H3 H4]. revert H1 H2 H3 H4.
  change 3 with (2 ^ 2 - 1). rewrite !land_ones_wrap, !Z.shiftr_0_r, !(Z.shiftr_div_pow2 _ 6),
    !(Z.shiftr_div_pow2 _ 4), !(Z.shiftr_div_pow2 _ 2) by lia.
  unfold wrap. rewrite !(Z.mod_small _ (2 ^ 8)); try (Z.div_mod_to_equations; lia).
Qed.

#[export] Instance hibble_decomposition :
  Decomposition getSequenceHibbleLength getSequenceHibbleElement 4
    (fun b => [u8 ((b ≫ 6) .& 3); u8 ((b ≫ 4) .& 3); u8 ((b ≫ 2) .& 3); u8 ((b ≫ 0) .& 3)]).
Proof.
  split; try done; try lia.
  - exact hibbles_inj.
  - intros k. unfold getSequenceHibbleLength. lia.
  - intros k i Hi. unfold getSequenceHibbleElement. rewrite (concat_expand_lookup _ 4) by (done || lia).
    replace (Z.of_nat i / 4) with (Z.of_nat (i / 4)) by (by rewrite Nat2Z.inj_div).
    replace (Z.of_nat i mod 4) with (Z.of_nat (i mod 4)) by (by rewrite Nat2Z.inj_mod).
    rewrite Nat2Z.id. destruct (k !! (i / 4)%nat) as [c|]; [|done]. cbn [mbind option_bind].
    pose proof (Nat.mod_upper_bound i 4 ltac:(lia)).
    assert (i mod 4 = 0 \/ i mod 4 = 1 \/ i mod 4 = 2 \/ i mod 4 = 3)%nat as [-> | [-> | [-> | ->]]] by lia; done.
Qed.

End Elements.

(** ** The tree represents a finite map *)

Module TreeSpec.
Import PrefixTreeMap Elements.

Section TreeSpec.
Context {get_length : list Z -> Z} {get_element : list Z -> Z -> option Z} {r : nat} {expand : Z -> list Z}.
Context `{D : !Decomposition get_length get_element r expand}.

Definition elems (k : list Z) : list Z := concat (expand <$> k).

Lemma elems_length k : length (elems k) = (r * length k)%nat.
Proof.
  unfold elems. induction k as [|b k IH]; [simpl; lia|]. cbn [fmap list_fmap concat length].
  rewrite length_app, expand_length. fold (expand <$> k). rewrite IH. lia.
Qed.

Lemma get_length_elems k : get_length k = Z.of_nat (length (elems k)).
Proof. rewrite elems_length. by apply (elements_length (Decomposition := D)). Qed.

Lemma elems_take k j : (j <= length k)%nat -> elems (take j k) = take (r * j) (elems k).
Proof.
  unfold elems. revert j. induction k as [|b k IH]; intros [|j] Hj; simpl in Hj; try lia;
    [by rewrite Nat.mul_0_r..|].
  cbn [take fmap list_fmap concat]. fold (expand <$> k) (expand <$> take j k).
  rewrite IH by lia. rewrite take_app_ge by (rewrite expand_length; lia).
  do 2 f_equal. rewrite expand_length. lia.
Qed.

(** A key whose elements begin another key's elements is its prefix. *)
Lemma elems_prefix k k' i :
  Forall is_byte k -> Forall is_byte k' -> elems k' = take i (elems k) -> k' = take (length k') k.
Proof.
  intros Hk. revert i k'. induction Hk as [|b k Hb Hk IH]; intros i k' Hk' E.
  - apply (f_equal length) in E. rewrite elems_length, length_take, elems_length in E. simpl in E.
    pose proof expand_pos. destruct k'; [done|]. simpl in E. lia.
  - destruct k' as [|b' k']; [done|]. apply Forall_cons in Hk' as [Hb' Hk'].
    unfold elems in E. cbn [fmap list_fmap concat] in E.
    fold (expand <$> k') (expand <$> k) in E. fold (elems k') (elems k) in E.
    pose proof (f_equal length E) as El. rewrite length_take, !length_app, !expand_length in El.
    rewrite take_app_ge in E by (rewrite expand_length; lia).
    apply app_inj_1 in E as [E1 E2]; [|by rewrite !expand_length].
    apply expand_inj in E1 as ->; [|done..]. cbn [length take]. f_equal. by apply IH in E2.
Qed.

(** [shape t d paths]: node [i] is the node of the path [paths !! i]; its
    children are the paths one longer, its entry the key with these
    elements. *)
Record shape (t : ptree) (d : gmap (list Z) Z) (paths : list (list Z)) : Prop := {
  shape_length : length paths = length (nodes t);
  shape_root : paths !! 0%nat = Some [];
  shape_nodup : NoDup paths;
  shape_closed p e : p ++ [e] ∈ paths -> p ∈ paths;
  shape_keys k : is_Some (d !! k) -> Forall is_byte k /\ elems k ∈ paths;
  shape_node i n p : nodes t !! i = Some n -> paths !! i = Some p ->
    (forall k v, entry n = Some (k, v) <-> elems k = p /\ d !! k = Some v) /\
    exists cm, ByteMap.rep (children n) cm /\
      forall e c, cm !! e = Some c <-> exists j, c = Z.of_nat j + 1 /\ paths !! j = Some (p ++ [e]);
}.

Lemma shape_get_node t d paths i p :
  shape t d paths -> paths !! i = Some p -> exists n, get_node t (Z.of_nat i + 1) = Some n /\ nodes t !! i = Some n.
Proof.
  intros Hs Hp. apply lookup_lt_Some in Hp. rewrite (shape_length _ _ _ Hs) in Hp.
  destruct (lookup_lt_is_Some_2 _ _ Hp) as [n Hn]. exists n. unfold get_node.
  rewrite (proj2 (Z.leb_gt _ _)) by lia. replace (Z.to_nat (Z.of_nat i + 1 - 1)) with i by lia. done.
Qed.

(** Following an existing edge or none. *)
Lemma get_or_put_lookup t d paths i p key x e b :
  shape t d paths -> paths !! i = Some p -> get_element key x = Some e ->
  (forall j, paths !! j = Some (p ++ [e]) ->
     get_or_put get_element t (Z.of_nat i + 1) key x b = Some (t, Z.of_nat j + 1, false)) /\
  (p ++ [e] ∉ paths -> get_or_put get_element t (Z.of_nat i + 1) key x false = Some (t, NO_NODE, false)).
Proof.
  intros Hs Hp He. destruct (shape_get_node _ _ _ _ _ Hs Hp) as (n & En & Hn).
  destruct (shape_node _ _ _ Hs _ _ _ Hn Hp) as (_ & cm & Hcm & Hc).
  unfold get_or_put. rewrite He, En. cbn [mbind option_bind]. rewrite (ByteMap.bytemap_get_spec _ _ _ Hcm).
  cbn [mbind option_bind]. split.
  - intros j Hj. assert (cm !! e = Some (Z.of_nat j + 1)) as -> by (apply Hc; eauto).
    unfold NO_NODE. by rewrite (proj2 (Z.eqb_neq _ _)) by lia.
  - intros Hn'. destruct (cm !! e) as [c|] eqn:E; [|done].
    apply Hc in E as (j & _ & Hj). destruct Hn'. by eapply list_elem_of_lookup_2.
Qed.

(** Creating the node of path [q = p ++ [e]] below the node of [p]: the new
    node, the parent and the other nodes. *)
Lemma extend_nodes t d paths i p e n ch cm :
  shape t d paths -> paths !! i = Some p -> p ++ [e] ∉ paths -> nodes t !! i = Some n ->
  (forall e c, cm !! e = Some c <-> exists j, c = Z.of_nat j + 1 /\ paths !! j = Some (p ++ [e])) ->
  ByteMap.rep ch (<[e := Z.of_nat (length (nodes t)) + 1]> cm) ->
  forall i' n' p', <[i := Node (entry n) ch]> (nodes t ++ [Node None ByteMap.empty]) !! i' = Some n' ->
    (paths ++ [p ++ [e]]) !! i' = Some p' ->
    (forall k v, entry n' = Some (k, v) <-> elems k = p' /\ d !! k = Some v) /\
    exists cm', ByteMap.rep (children n') cm' /\ forall e' c, cm' !! e' = Some c <->
      exists j, c = Z.of_nat j + 1 /\ (paths ++ [p ++ [e]]) !! j = Some (p' ++ [e']).
Proof.
  intros Hs Hp Hq Hn Hc Hch i' n' p' Hn' Hp'. pose proof (shape_length _ _ _ Hs) as Hl.
  apply lookup_lt_Some in Hn as Hin. apply snoc_lookup in Hp' as [Hp'|[-> ->]].
  2:{ rewrite list_lookup_insert_ne in Hn' by lia. rewrite Hl, list_lookup_middle in Hn' by done.
      simplify_eq. cbn [entry children]. split.
      - intros k v. split; [done|]. intros [E Hk]. destruct Hq. rewrite <- E. eapply shape_keys; [done|by eexists].
      - exists ∅. split; [apply ByteMap.bytemap_rep_empty|]. intros e' c. rewrite lookup_empty. split; [done|].
        intros (j & _ & [Hj|[_ Hj]]%snoc_lookup); exfalso.
        + apply Hq. eapply (shape_closed _ _ _ Hs). by eapply list_elem_of_lookup_2.
        + apply (f_equal length) in Hj. rewrite !length_app in Hj. simpl in Hj. lia. }
  assert (i' < length (nodes t))%nat as Hi' by (rewrite <- Hl; by eapply lookup_lt_Some).
  destruct (decide (i' = i)) as [->|Hne].
  - rewrite list_lookup_insert_eq in Hn' by (rewrite length_app; simpl; lia). simplify_eq. cbn [entry children].
    split; [apply (shape_node _ _ _ Hs _ _ _ Hn Hp)|]. eexists. split; [exact Hch|].
    intros e' c. destruct (decide (e' = e)) as [->|He].
    + rewrite lookup_insert_eq. split.
      * intros [= <-]. exists (length paths). rewrite Hl. split; [done|]. apply snoc_lookup. right. by rewrite Hl.
      * intros (j & -> & [Hj|[-> _]]%snoc_lookup); [|by rewrite Hl]. destruct Hq. by eapply list_elem_of_lookup_2.
    + rewrite lookup_insert_ne by done. rewrite Hc. f_equiv. intros j. rewrite snoc_lookup.
      split; intros [-> Hj]; (split; [done|]); [by left|].
      destruct Hj as [|[_ Hj]]; [done|]. by apply app_inj_tail in Hj as [_ ->].
  - rewrite list_lookup_insert_ne, lookup_app_l in Hn' by (done || lia).
    destruct (shape_node _ _ _ Hs _ _ _ Hn' Hp') as [He (cm' & Hcm' & Hc')]. split; [done|].
    exists cm'. split; [done|]. intros e' c. rewrite Hc'. f_equiv. intros j. rewrite snoc_lookup.
    split; intros [-> Hj]; (split; [done|]); [by left|].
    destruct Hj as [|[_ Hj]]; [done|]. apply app_inj_tail in Hj as [-> _].
    destruct Hne. eapply NoDup_lookup; [apply (shape_nodup _ _ _ Hs)|done..].
Qed.

Lemma shape_extend t d paths i p e n ch cm cap :
  shape t d paths -> paths !! i = Some p -> p ++ [e] ∉ paths -> nodes t !! i = Some n ->
  (forall e c, cm !! e = Some c <-> exists j, c = Z.of_nat j + 1 /\ paths !! j = Some (p ++ [e])) ->
  ByteMap.rep ch (<[e := Z.of_nat (length (nodes t)) + 1]> cm) ->
  shape (PTree (<[i := Node (entry n) ch]> (nodes t ++ [Node None ByteMap.empty])) cap) d (paths ++ [p ++ [e]]).
Proof.
  intros Hs Hp Hq Hn Hc Hch. split; simpl.
  - by rewrite length_insert, !length_app, (shape_length _ _ _ Hs).
  - apply snoc_lookup. left. apply (shape_root _ _ _ Hs).
  - apply NoDup_app. split_and!; [apply (shape_nodup _ _ _ Hs)| |apply NoDup_singleton].
    intros x Hx ->%list_elem_of_singleton. done.
  - intros p' e' [Hin|Hin]%elem_of_app; apply elem_of_app; left; [by eapply (shape_closed _ _ _ Hs)|].
    apply list_elem_of_singleton, app_inj_tail in Hin as [-> _]. by eapply list_elem_of_lookup_2.
  - intros k Hk. destruct (shape_keys _ _ _ Hs k Hk). split; [done|]. apply elem_of_app. by left.
  - by eapply extend_nodes.
Qed.

Lemma get_or_put_create t d paths i p key x e :
  shape t d paths -> paths !! i = Some p -> get_element key x = Some e -> p ++ [e] ∉ paths ->
  exists t', get_or_put get_element t (Z.of_nat i + 1) key x true = Some (t', Z.of_nat (length paths) + 1, true) /\
    shape t' d (paths ++ [p ++ [e]]).
Proof.
  intros Hs Hp He Hq. destruct (shape_get_node _ _ _ _ _ Hs Hp) as (n & En & Hn).
  destruct (shape_node _ _ _ Hs _ _ _ Hn Hp) as (_ & cm & Hcm & Hc).
  unfold get_or_put. rewrite He, En. cbn [mbind option_bind]. rewrite (ByteMap.bytemap_get_spec _ _ _ Hcm).
  cbn [mbind option_bind]. assert (cm !! e = None) as Ee.
  { destruct (cm !! e) as [c|] eqn:E; [|done]. apply Hc in E as (j & _ & Hj).
    destruct Hq. by eapply list_elem_of_lookup_2. }
  rewrite Ee. cbn [NO_NODE Z.eqb negb]. unfold new_node, allocate_node. cbn iota beta.
  unfold get_node in *. rewrite (proj2 (Z.leb_gt _ _)) in * by lia. cbn [nodes nodes_capacity].
  replace (Z.to_nat (Z.of_nat i + 1 - 1)) with i in * by lia.
  rewrite lookup_app_l by (by eapply lookup_lt_Some). rewrite Hn. cbn [mbind option_bind].
  destruct (ByteMap.bytemap_put_spec _ _ e (Z.of_nat (length (nodes t)) + 1) Hcm) as (ch & -> & Hch).
  cbn [mbind option_bind]. eexists. rewrite (shape_length _ _ _ Hs). split; [done|].
  unfold put_fresh in Hch. rewrite Ee in Hch. by eapply shape_extend.
Qed.

Lemma element_at key x :
  (x < length (elems key))%nat -> exists e, get_element key (Z.of_nat x) = Some e /\
    take (S x) (elems key) = take x (elems key) ++ [e].
Proof.
  intros Hx. destruct (lookup_lt_is_Some_2 _ _ Hx) as [e He]. exists e. rewrite elems_length in Hx.
  rewrite (elements_lookup key x Hx). split; [done|]. by apply take_S_r.
Qed.

Lemma put_loop_spec todo t d paths i key x b :
  shape t d paths -> paths !! i = Some (take x (elems key)) -> (x + todo = length (elems key))%nat ->
  elems key ∉ paths ->
  exists t' paths' j b', put_loop get_element todo t key (Z.of_nat x) (Z.of_nat i + 1) b
      = Some (t', Z.of_nat j + 1, b') /\
    shape t' d paths' /\ paths' !! j = Some (elems key) /\
    ((0 < todo)%nat -> b' = true) /\
    forall p, p ∈ paths' -> p ∈ paths \/ p `prefix_of` elems key.
Proof.
  revert t paths i x b. induction todo as [|todo IH]; intros t paths i x b Hs Hi Hx Hk; cbn [put_loop].
  { rewrite Nat.add_0_r in Hx. rewrite Hx, firstn_all in Hi. destruct Hk. by eapply list_elem_of_lookup_2. }
  destruct (element_at key x) as (e & He & Ht); [lia|].
  destruct (decide (take x (elems key) ++ [e] ∈ paths)) as [Hin|Hin].
  - apply list_elem_of_lookup in Hin as [j Hj].
    rewrite (proj1 (get_or_put_lookup _ _ _ _ _ key (Z.of_nat x) e true Hs Hi He) j Hj). cbn [mbind option_bind].
    rewrite <- Ht in Hj.
    destruct (IH t paths j (S x) false Hs Hj ltac:(lia) Hk) as (t' & ps & j' & b' & E & Hs' & Hj' & Hb & Hp).
    exists t', ps, j', b'. rewrite Nat2Z.inj_succ in E. unfold Z.succ in E. rewrite E.
    split_and!; try done. intros _. apply Hb. destruct todo; [|lia].
    rewrite Nat.add_1_r in Hx. rewrite Hx, firstn_all in Hj. destruct Hk. by eapply list_elem_of_lookup_2.
  - destruct (get_or_put_create _ _ _ _ _ key (Z.of_nat x) e Hs Hi He Hin) as (t1 & -> & Hs1).
    cbn [mbind option_bind]. rewrite <- Ht in Hs1.
    assert ((paths ++ [take (S x) (elems key)]) !! length paths = Some (take (S x) (elems key))) as Hj
      by (apply snoc_lookup; by right).
    destruct todo as [|todo].
    { rewrite Nat.add_1_r in Hx. rewrite Hx, firstn_all in Hs1, Hj. cbn [put_loop].
      exists t1, (paths ++ [elems key]), (length paths), true. split_and!; try done.
      intros p [?| ->%list_elem_of_singleton]%elem_of_app; [by left|right; done]. }
    destruct (IH t1 _ _ (S x) true Hs1 Hj ltac:(lia)) as (t' & ps & j' & b' & E & Hs' & Hj' & Hb & Hp).
    { intros [|Hk'%list_elem_of_singleton]%elem_of_app; [done|]. apply (f_equal length) in Hk'.
      rewrite length_take in Hk'. lia. }
    exists t', ps, j', b'. rewrite Nat2Z.inj_succ in E. unfold Z.succ in E. rewrite E.
    split_and!; try done; [intros _; apply Hb; lia|].
    intros p [[Hp'| ->%list_elem_of_singleton]%elem_of_app|Hp']%Hp; [by left|right; apply prefix_take|by right].
Qed.

(** The final node gets the entry of the new key. *)
Lemma shape_set_entry t d paths j key v n :
  shape t d paths -> paths !! j = Some (elems key) -> d !! key = None -> Forall is_byte key ->
  nodes t !! j = Some n ->
  shape (PTree (<[j := Node (Some (key, v)) (children n)]> (nodes t)) (nodes_capacity t)) (<[key := v]> d) paths.
Proof.
  intros Hs Hj Hk Hb Hn.
  assert (forall k, is_Some (d !! k) -> elems k = elems key -> k = key) as Hinj.
  { intros k Hd E. destruct (shape_keys _ _ _ Hs k Hd) as [Hbk _].
    assert (length k = length key) as El.
    { pose proof expand_pos. apply (f_equal length) in E. rewrite !elems_length in E. nia. }
    rewrite <- (firstn_all key), <- El. apply (elems_prefix key k (length (elems key))); [done..|].
    by rewrite firstn_all. }
  split; simpl; try apply Hs.
  - rewrite length_insert. apply Hs.
  - intros k [ -> | Hd]%lookup_insert_is_Some'; [|by apply (shape_keys _ _ _ Hs)].
    split; [done|]. by eapply list_elem_of_lookup_2.
  - intros i n' p Hn' Hp. apply list_lookup_insert_Some in Hn' as [(-> & <- & _)|[Hne Hn']].
    + simplify_eq. cbn [entry children]. split; [|by apply (shape_node _ _ _ Hs _ _ _ Hn Hj)].
      intros k w. split.
      * intros [= <- <-]. by rewrite lookup_insert_eq.
      * intros [E Hd]. destruct (decide (k = key)) as [->|Hne]; [by rewrite lookup_insert_eq in Hd; simplify_eq|].
        rewrite lookup_insert_ne in Hd by done. destruct Hne. apply Hinj; [by eexists|done].
    + destruct (shape_node _ _ _ Hs _ _ _ Hn' Hp) as [He Hc]. split; [|done]. intros k w. rewrite He.
      destruct (decide (k = key)) as [->|Hne']; [|by rewrite lookup_insert_ne].
      rewrite Hk, lookup_insert_eq. split; intros [E ?]; [done|]. subst p. destruct Hne.
      eapply NoDup_lookup; [apply (shape_nodup _ _ _ Hs)|done..].
Qed.

Definition rep (t : ptree) (d : gmap (list Z) Z) : Prop :=
  exists paths, shape t d paths /\
    forall p, p ∈ paths -> p <> [] -> exists k, is_Some (d !! k) /\ p `prefix_of` elems k.

Lemma tree_put_spec t d key v :
  rep t d -> prefix_closed d -> d !! key = None -> key <> [] -> Forall is_byte key ->
  exists t', put get_length get_element t key v = Some (t', true) /\ rep t' (<[key := v]> d).
Proof.
  intros (paths & Hs & Hcov) [_ Hc] Hd Hne Hb. pose proof expand_pos as Hr.
  assert (0 < length key)%nat by (destruct key; [done|simpl; lia]).
  assert (elems key ∉ paths) as Hk.
  { intros Hin. destruct (Hcov _ Hin) as (k' & Hk' & [q Hq]).
    { intros E. apply (f_equal length) in E. rewrite elems_length in E. simpl in E. nia. }
    destruct (shape_keys _ _ _ Hs k' Hk') as [Hb' _].
    assert (key = take (length key) k') as E.
    { apply (elems_prefix k' key (length (elems key))); [done..|]. by rewrite Hq, take_app_length. }
    pose proof (f_equal length E) as El. rewrite length_take in El.
    destruct (Hc k' (length key) Hk' ltac:(lia)) as [w Hw]. rewrite <- E in Hw. congruence. }
  unfold put. rewrite get_length_elems, Nat2Z.id.
  destruct (put_loop_spec (length (elems key)) t d paths 0 key 0 false Hs) as
    (t' & ps & j & b' & E & Hs' & Hj & Hb' & Hp); [by rewrite take_0; apply Hs|done|done|].
  change (Z.of_nat 0) with 0 in E. change (0 + 1) with ROOT in E. rewrite E. cbn [mbind option_bind].
  rewrite Hb' by (rewrite elems_length; nia).
  destruct (shape_get_node _ _ _ _ _ Hs' Hj) as (n & -> & Hn). cbn [mbind option_bind].
  replace (Z.to_nat (Z.of_nat j + 1 - 1)) with j by lia. eexists. split; [done|].
  exists ps. split; [by apply shape_set_entry|]. intros p Hin Hnil. destruct (Hp p Hin) as [Hold|Hpre].
  - destruct (Hcov p Hold Hnil) as (k & Hk1 & Hk2). exists k. split; [|done]. apply lookup_insert_is_Some'. by right.
  - exists key. rewrite lookup_insert_eq. split; [by eexists|done].
Qed.

Lemma missing_below t d paths l x z :
  shape t d paths -> take (S x) l ∉ paths -> (x < z <= length l)%nat -> take z l ∉ paths.
Proof.
  intros Hs Hx. induction z as [|z IH]; intros Hz; [lia|].
  destruct (decide (z = x)) as [->|]; [done|]. intros Hin. apply IH; [lia|].
  destruct (lookup_lt_is_Some_2 l z) as [e He]; [lia|]. rewrite (take_S_r _ _ _ He) in Hin.
  by eapply (shape_closed _ _ _ Hs).
Qed.

(** [best d key i y]: [y] is the largest length up to [i] at which the
    elements of the key are those of an entry, or 0. *)
Definition best (d : gmap (list Z) Z) (key : list Z) (i y : nat) : Prop :=
  (y <= i)%nat /\ (y = 0%nat \/ exists k v, elems k = take y (elems key) /\ d !! k = Some v) /\
  forall z k, (y < z <= i)%nat -> is_Some (d !! k) -> elems k <> take z (elems key).

Lemma floor_loop_spec todo t d paths i key x l y :
  shape t d paths -> paths !! i = Some (take x (elems key)) -> (x + todo = length (elems key))%nat ->
  paths !! l = Some (take y (elems key)) -> best d key x y ->
  exists l' y', floor_loop get_element todo t key (Z.of_nat x) (Z.of_nat i + 1) (Z.of_nat l + 1)
      = Some (Z.of_nat l' + 1) /\
    paths !! l' = Some (take y' (elems key)) /\ best d key (length (elems key)) y'.
Proof.
  revert i x l y. induction todo as [|todo IH]; intros i x l y Hs Hi Hx Hl Hbest; cbn [floor_loop].
  { rewrite Nat.add_0_r in Hx. subst x. eauto. }
  unfold NO_NODE in *. rewrite (proj2 (Z.eqb_neq _ _)) by lia.
  destruct (element_at key x) as (e & He & Ht); [lia|].
  destruct (decide (take x (elems key) ++ [e] ∈ paths)) as [Hin|Hin].
  - apply list_elem_of_lookup in Hin as [j Hj].
    rewrite (proj1 (get_or_put_lookup _ _ _ _ _ key (Z.of_nat x) e false Hs Hi He) j Hj). cbn [mbind option_bind].
    rewrite (proj2 (Z.eqb_neq _ _)) by lia. rewrite <- Ht in Hj.
    destruct (shape_get_node _ _ _ _ _ Hs Hj) as (n & -> & Hn). cbn [mbind option_bind].
    destruct (shape_node _ _ _ Hs _ _ _ Hn Hj) as [Hent _].
    replace (Z.of_nat x + 1) with (Z.of_nat (S x)) by lia. destruct Hbest as (Hy & Hy0 & Hz).
    destruct (entry n) as [[k v]|] eqn:Een.
    + destruct (proj1 (Hent k v) eq_refl). apply (IH j (S x) j (S x)); try done; [lia|].
      split_and!; [lia|right; eauto|]. lia.
    + apply (IH j (S x) l y); try done; [lia|]. split_and!; [lia|done|].
      intros z k Hlt [v Hk] E. destruct (decide (z = S x)) as [->|]; [|apply (Hz z k); [lia|by eexists|done]].
      discriminate (proj2 (Hent k v) (conj E Hk)).
  - rewrite (proj2 (get_or_put_lookup _ _ _ _ _ key (Z.of_nat x) e false Hs Hi He) Hin). cbn [mbind option_bind Z.eqb].
    exists l, y. split_and!; [done..|]. destruct Hbest as (Hy & Hy0 & Hz). rewrite <- Ht in Hin.
    split_and!; [lia|done|]. intros z k Hlt Hk E.
    destruct (decide (z <= x)%nat); [by apply (Hz z k); [lia|..]|].
    apply (missing_below t d paths (elems key) x z Hs Hin); [lia|]. rewrite <- E. by apply (shape_keys _ _ _ Hs).
Qed.

Lemma tree_get_floor_spec t d key :
  rep t d -> prefix_closed d -> key <> [] -> Forall is_byte key -> is_Some (d !! take 1 key) ->
  get_floor get_length get_element t key = Some (longest_prefix d (length key) key).
Proof.
  intros (paths & Hs & _) _ Hne Hb Hf. unfold get_floor.
  assert (0 < length key)%nat by (destruct key; [done|simpl; lia]). pose proof expand_pos as Hr.
  rewrite get_length_elems, Nat2Z.id.
  destruct (floor_loop_spec (length (elems key)) t d paths 0 key 0 0 0 Hs) as (l & y & E & Hl & Hy & Hy0 & Hz);
    [by rewrite take_0; apply Hs|done|by rewrite take_0; apply Hs|split_and!; [lia|by left|lia]|].
  change (Z.of_nat 0) with 0 in E. change (0 + 1) with ROOT in E. rewrite E. cbn [mbind option_bind].
  destruct (shape_get_node _ _ _ _ _ Hs Hl) as (n & -> & Hn). cbn [mbind option_bind]. f_equal.
  destruct (shape_node _ _ _ Hs _ _ _ Hn Hl) as [Hent _].
  assert (forall j, (y < r * j)%nat -> (j <= length key)%nat -> d !! take j key = None) as Hnone.
  { intros j Hj Hjl. destruct (d !! take j key) as [w|] eqn:Ew; [|done]. exfalso.
    apply (Hz (r * j)%nat (take j key)); [rewrite elems_length; nia|by eexists|by apply elems_take]. }
  destruct Hy0 as [->|(k & v & Ek & Hk)].
  { destruct Hf as [w Hw]. rewrite Hnone in Hw by lia. done. }
  rewrite (proj2 (Hent k v) (conj Ek Hk)). symmetry.
  destruct (shape_keys _ _ _ Hs k) as [Hbk _]; [by eexists|].
  assert (y = r * length k)%nat as Ey.
  { apply (f_equal length) in Ek. rewrite length_take, elems_length in Ek. lia. }
  apply elems_prefix in Ek; [|done..]. rewrite elems_length in Hy. rewrite Ek.
  apply longest_prefix_intro; [|by rewrite <- Ek|].
  - destruct k as [|b k]; [|simpl in *; nia]. destruct Hf as [w Hw]. rewrite Hnone in Hw; [done|simpl in *; nia|lia].
  - intros j Hj. apply Hnone; [nia|lia].
Qed.

Lemma clear_rep t : rep (clear t) ∅.
Proof.
  exists [[]]. split.
  - split; simpl; try done.
    + apply NoDup_singleton.
    + intros p e Hin%list_elem_of_singleton. by destruct p.
    + intros k [v Hv]. by rewrite lookup_empty in Hv.
    + intros [|i] n p Hn Hp; [|done]. simpl in *. simplify_eq. simpl. split.
      * intros k v. rewrite lookup_empty. split; [done|by intros [_ ?]].
      * exists ∅. split; [apply ByteMap.bytemap_rep_empty|]. intros e c. rewrite lookup_empty. split; [done|].
        intros ([|j] & _ & Hj); simpl in Hj; done.
  - intros p ->%list_elem_of_singleton. done.
Qed.

Instance prefix_tree_ops : NavigableMap ptree := {
  nav_put := put get_length get_element; nav_get_floor := get_floor get_length get_element; nav_clear := clear;
}.

#[program] Instance prefix_tree_spec : NavigableMapSpec ptree := {| nav_rep := rep |}.
Next Obligation.
  intros t d k v Hr Hc Hk Hne Hb _. destruct (tree_put_spec t d k v Hr Hc Hk Hne Hb) as (t' & ? & ?). eauto.
Qed.
Next Obligation. intros t d k Hr Hc Hne Hb Hf. by apply tree_get_floor_spec. Qed.
Next Obligation. intros t d _. apply clear_rep. Qed.

End TreeSpec.

End TreeSpec.
