(* ===== verification/SortedList.v ===== *)
(** * Sorted gap lists ([prims/SortedList.hpp]) and the list map on top
    ([prims/ListMap.hpp])

    A sorted array with a gap of unused cells: [data] has [capacity] cells,
    the elements are those outside the gap of [capacity - size] cells that
    starts at [gap_start].  [SORTED_LIST_USE_GAPS] is defined.  An unused cell
    is [None]; reading one, or outside the array, is undefined in C++ and
    gives [None], as does a [memcpy] of overlapping ranges. *)

From S2P Require Import Prelude MapInterface Sequence.
From Stdlib Require Import ZArith Lia.

Module SortedList.

Section SortedList.
Context {E : Type}.
Variable compare : E -> E -> Z.
Variable is_floor_of : E -> E -> bool.

Record slist := SList { data : list (option E); size : Z; gap_start : Z }.

Definition capacity (s : slist) : Z := Z.of_nat (length (data s)).
Definition gap_length (s : slist) : Z := capacity s - size s.
Definition gap_end (s : slist) : Z := gap_start s + gap_length s.

Definition make (init_capacity : Z) : slist := SList (replicate (Z.to_nat init_capacity) None) 0 0.

Definition get (s : slist) (index : Z) : option E :=
  let index := if gap_start s <=? index then index + gap_length s else index in
  mjoin (data s !! Z.to_nat index).

(** [memmove] of [n] cells inside the array. *)
Definition move_cells (d : list (option E)) (dest src n : nat) : list (option E) :=
  take dest d ++ take n (drop src d) ++ drop (dest + n) d.

Definition move_gap_to (s : slist) (index : Z) : option slist :=
  let relocation := index - gap_start s in
  if negb (relocation =? 0) then
    let elements_to_move := Z.abs relocation in
    let '(dest, src) :=
      if 0 <=? relocation then (gap_start s, gap_end s)
      else (gap_end s - elements_to_move, gap_start s - elements_to_move) in
    let overlap := Z.abs (dest - src) <? elements_to_move in
    if (elements_to_move <=? gap_length s) && overlap then None
    else Some (SList (move_cells (data s) (Z.to_nat dest) (Z.to_nat src) (Z.to_nat elements_to_move))
                     (size s) (gap_start s + relocation))
  else Some s.

Definition grow (s : slist) : option slist :=
  s ← move_gap_to s (size s);
  let new_capacity := Z.max 1 (capacity s * 2) in
  Some (SList (data s ++ replicate (Z.to_nat (new_capacity - capacity s)) None) (size s) (gap_start s)).

Fixpoint search_loop (fuel : nat) (s : slist) (element : E) (lo hi : Z) : option (Z * bool) :=
  match fuel with
  | O => None
  | S fuel' =>
      if lo <=? hi then
        let mi := lo + Z.quot (hi - lo) 2 in
        x ← get s mi;
        let comparison := compare x element in
        if comparison <? 0 then search_loop fuel' s element (mi + 1) hi
        else if 0 <? comparison then search_loop fuel' s element lo (mi - 1)
        else Some (mi, true)
      else Some (lo, false)
  end.

(** The position of an equal element, or the insert position: first the two
    neighbours of the gap, then binary search. *)
Definition get_index (s : slist) (element : E) : option (Z * bool) :=
  comparison_left ←
    (if gap_start s =? 0 then Some 1 else x ← get s (gap_start s - 1); Some (compare x element));
  comparison_right ←
    (if (gap_start s =? 0) || (comparison_left <=? 0) then
       if size s <=? gap_start s then Some 1 else x ← get s (gap_start s); Some (compare element x)
     else Some 1);
  if ((gap_start s =? 0) || (comparison_left <=? 0)) &&
     ((size s <=? gap_start s) || (comparison_right <=? 0))
  then
    if comparison_left =? 0 then Some (gap_start s - 1, true)
    else if comparison_right =? 0 then Some (gap_start s, true)
    else Some (gap_start s, false)
  else search_loop (S (S (Z.to_nat (size s)))) s element 0 (size s - 1).

Definition contains (s : slist) (obj : E) : option bool :=
  '(_, found) ← get_index s obj; Some found.

Fixpoint floor_down (fuel : nat) (s : slist) (obj : E) (floor_index : Z) : option Z :=
  match fuel with
  | O => None
  | S fuel' =>
      if 0 <=? floor_index then
        x ← get s floor_index;
        if is_floor_of x obj then Some floor_index else floor_down fuel' s obj (floor_index - 1)
      else Some floor_index
  end.

Definition floor (s : slist) (obj : E) : option Z :=
  '(floor_index, exact) ← get_index s obj;
  if (exact : bool) then Some floor_index
  else floor_down (S (S (Z.to_nat (size s)))) s obj (floor_index - 1).

Definition clear (s : slist) : slist := SList (data s) 0 0.

Definition add (s : slist) (element : E) : option slist :=
  s ← (if size s =? capacity s then grow s else Some s);
  '(index, found) ← get_index s element;
  s ← (if negb found then
         s ← move_gap_to s index;
         Some (SList (data s) (size s + 1) (gap_start s + 1))
       else Some s);
  if (0 <=? index) && (index <? capacity s)
  then Some (SList (<[Z.to_nat index := Some element]> (data s)) (size s) (gap_start s))
  else None.

Fixpoint is_sorted_from (todo : nat) (s : slist) (index : Z) : option bool :=
  match todo with
  | O => Some true
  | S todo' =>
      a ← get s (index - 1);
      b ← get s index;
      if 0 <? compare a b then Some false else is_sorted_from todo' s (index + 1)
  end.

Definition is_sorted (s : slist) : option bool := is_sorted_from (Z.to_nat (size s - 1)) s 1.

(** ** The elements of the list *)

(** [rep s l]: the elements are [l], those from the [gap_start]-th on shifted
    behind the gap. *)
Definition rep (s : slist) (l : list E) : Prop :=
  exists g : nat, exists junk : list (option E),
    gap_start s = Z.of_nat g /\ (g <= length l)%nat /\ size s = Z.of_nat (length l) /\
    data s = (Some <$> take g l) ++ junk ++ (Some <$> drop g l).

Lemma rep_capacity s l : rep s l -> exists g junk,
  gap_start s = Z.of_nat g /\ (g <= length l)%nat /\ size s = Z.of_nat (length l) /\
  data s = (Some <$> take g l) ++ junk ++ (Some <$> drop g l) /\
  gap_length s = Z.of_nat (length junk) /\ capacity s = Z.of_nat (length l + length junk).
Proof.
  intros (g & junk & Hg & Hgl & Hs & Hd). exists g, junk. unfold gap_length, capacity.
  rewrite Hd, !length_app, !length_fmap, length_take, length_drop, Hs. split_and!; try done; lia.
Qed.

Lemma slist_get_spec s l i : rep s l -> 0 <= i < Z.of_nat (length l) -> get s i = l !! Z.to_nat i.
Proof.
  intros Hr Hi. destruct (rep_capacity s l Hr) as (g & junk & Hg & Hgl & Hs & Hd & Hgap & Hc).
  unfold get. rewrite Hg, Hgap, Hd. destruct (Z.leb_spec (Z.of_nat g) i).
  - rewrite lookup_app_r by (rewrite length_fmap, length_take; lia).
    rewrite lookup_app_r by (rewrite length_fmap, length_take; lia).
    rewrite list_lookup_fmap, lookup_drop, length_fmap, length_take.
    replace (g + _)%nat with (Z.to_nat i) by lia. by destruct (l !! Z.to_nat i).
  - rewrite lookup_app_l by (rewrite length_fmap, length_take; lia).
    rewrite list_lookup_fmap, lookup_take_lt by lia. by destruct (l !! Z.to_nat i).
Qed.

(** Moving cells right of the gap to its left end, and back. *)
Lemma move_cells_right (A J B1 B2 : list (option E)) :
  exists J', move_cells (A ++ J ++ B1 ++ B2) (length A) (length A + length J) (length B1) = A ++ B1 ++ J' ++ B2 /\
    length J' = length J.
Proof.
  exists (drop (length B1) (J ++ B1)). split; [|rewrite length_drop, length_app; lia].
  unfold move_cells. rewrite take_app_length. f_equal. f_equal.
  - rewrite <- drop_drop, drop_app_length, drop_app_length. by rewrite take_app_length.
  - rewrite <- drop_drop, drop_app_length, (app_assoc J), drop_app_le by (rewrite length_app; lia). done.
Qed.

Lemma move_cells_left (A1 A2 J B : list (option E)) :
  exists J', move_cells (A1 ++ A2 ++ J ++ B) (length A1 + length J) (length A1) (length A2) = A1 ++ J' ++ A2 ++ B /\
    length J' = length J.
Proof.
  exists (take (length J) (A2 ++ J)). split; [|rewrite length_take, length_app; lia].
  unfold move_cells. rewrite take_app_add', drop_app_length, take_app_length by done.
  rewrite (app_assoc A2 J B), take_app_le by (rewrite length_app; lia). rewrite <- !app_assoc. f_equal. f_equal. f_equal.
  rewrite !app_assoc. apply drop_app_length'. rewrite !length_app. lia.
Qed.

Lemma moved_rep s (l : list E) n (J J' : list (option E)) :
  size s = Z.of_nat (length l) -> capacity s = Z.of_nat (length l + length J) -> length J' = length J ->
  (n <= length l)%nat ->
  let s' := SList ((Some <$> take n l) ++ J' ++ (Some <$> drop n l)) (size s) (Z.of_nat n) in
  rep s' l /\ gap_start s' = Z.of_nat n /\ capacity s' = capacity s.
Proof.
  intros Hs Hc HJ Hn. split_and!; [exists n, J'; by split_and!|done|].
  rewrite Hc. unfold capacity. simpl. rewrite !length_app, !length_fmap, length_take, length_drop. lia.
Qed.

Lemma move_gap_spec s l i :
  rep s l -> 0 <= i <= Z.of_nat (length l) ->
  exists s', move_gap_to s i = Some s' /\ rep s' l /\ gap_start s' = i /\ capacity s' = capacity s.
Proof.
  intros Hr Hi. destruct (rep_capacity s l Hr) as (g & J & Hg & Hgl & Hs & Hd & Hgap & Hc).
  unfold move_gap_to, gap_end. rewrite Hg, Hgap.
  destruct (Z.eqb_spec (i - Z.of_nat g) 0) as [E0|E0]; cbn [negb].
  { exists s. split_and!; [done|done|lia|done]. }
  set (n := Z.to_nat i). replace (Z.of_nat g + (i - Z.of_nat g)) with (Z.of_nat n) by lia.
  assert (exists J' cells, length J' = length J /\ cells = (Some <$> take n l) ++ J' ++ (Some <$> drop n l) /\
    (let '(dest, src) := if 0 <=? i - Z.of_nat g then (Z.of_nat g, Z.of_nat g + Z.of_nat (length J))
       else (Z.of_nat g + Z.of_nat (length J) - Z.abs (i - Z.of_nat g), Z.of_nat g - Z.abs (i - Z.of_nat g)) in
     Z.abs (dest - src) = Z.of_nat (length J) /\
     move_cells (data s) (Z.to_nat dest) (Z.to_nat src) (Z.to_nat (Z.abs (i - Z.of_nat g))) = cells))
    as (J' & cells & HJ & Hcells & Hm).
  { rewrite Hd. destruct (Z.leb_spec 0 (i - Z.of_nat g)).
    - edestruct (move_cells_right (Some <$> take g l) J (Some <$> take (n - g) (drop g l)) (Some <$> drop n l)) as (J' & Em & HJ).
      rewrite !length_fmap, !length_take, length_drop in Em. exists J'. eexists. split_and!; [done|done|lia|].
      rewrite (drop_split g n), (take_split g n l), !fmap_app, <- app_assoc, <- Em by lia. f_equal; lia.
    - edestruct (move_cells_left (Some <$> take n l) (Some <$> take (g - n) (drop n l)) J (Some <$> drop g l)) as (J' & Em & HJ).
      rewrite !length_fmap, !length_take, length_drop in Em. exists J'. eexists. split_and!; [done|done|lia|].
      rewrite (drop_split n g), (take_split n g l), !fmap_app, <- app_assoc, <- Em by lia. f_equal; lia. }
  destruct (if 0 <=? i - Z.of_nat g then _ else _) as [dest src]. destruct Hm as [Ha ->]. rewrite Ha, Hcells.
  rewrite (proj2 (andb_false_iff _ _)).
  2:{ destruct (Z.leb_spec (Z.abs (i - Z.of_nat g)) (Z.of_nat (length J))); [right; apply Z.ltb_ge; lia|by left]. }
  eexists. split; [done|]. replace i with (Z.of_nat n) by lia. apply moved_rep with J; done || lia.
Qed.

(** [grow] makes room and keeps the elements. *)
Lemma slist_grow_spec s l : rep s l -> exists s', grow s = Some s' /\ rep s' l /\
  capacity s' = Z.max 1 (capacity s * 2).
Proof.
  intros Hr. unfold grow. assert (size s = Z.of_nat (length l)) as Hs by (by destruct Hr as (? & ? & _ & _ & ? & _)).
  destruct (move_gap_spec s l (size s) Hr) as (s1 & -> & Hr1 & Hg1 & Hc1); [lia|]. cbn [mbind option_bind].
  eexists. split; [done|]. destruct Hr1 as (g & J & Hg & Hgl & Hs1 & Hd). split.
  - exists g, (J ++ replicate (Z.to_nat (Z.max 1 (capacity s1 * 2) - capacity s1)) None). simpl. split_and!; try done.
    rewrite Hd. rewrite (drop_ge l g) by lia. simpl. by rewrite !app_nil_r, app_assoc.
  - unfold capacity in *. simpl. rewrite length_app, length_replicate, Hc1. lia.
Qed.

(** ** Search in a sorted list *)

Hypothesis compare_sym : forall a b, compare a b < 0 <-> 0 < compare b a.
Hypothesis compare_trans : forall a b c, compare a b < 0 -> compare b c < 0 -> compare a c < 0.

(** Strictly ascending. *)
Definition ascending (l : list E) : Prop :=
  forall i j a b, l !! i = Some a -> l !! j = Some b -> (i < j)%nat -> compare a b < 0.

(** [below l i e], [above l i e]: the elements before [i] are smaller than
    [e], those from [i] on are greater. *)
Definition below (l : list E) (i : Z) (e : E) : Prop :=
  forall j a, Z.of_nat j < i -> l !! j = Some a -> compare a e < 0.
Definition above (l : list E) (i : Z) (e : E) : Prop :=
  forall j a, i <= Z.of_nat j -> l !! j = Some a -> 0 < compare a e.

(** What [get_index] answers. *)
Definition position (l : list E) (e : E) (i : Z) (exact : bool) : Prop :=
  if exact then 0 <= i /\ exists a, l !! Z.to_nat i = Some a /\ compare a e = 0
  else 0 <= i <= Z.of_nat (length l) /\ below l i e /\ above l i e.

Lemma below_next l i a e :
  ascending l -> 0 <= i -> l !! Z.to_nat i = Some a -> compare a e < 0 -> below l (i + 1) e.
Proof.
  intros Ha Hi Hl Hc j b Hj Hb. destruct (decide (j = Z.to_nat i)) as [->|]; [congruence|].
  apply compare_trans with a; [|done]. eapply Ha; [done..|lia].
Qed.

Lemma above_from l i a e :
  ascending l -> 0 <= i -> l !! Z.to_nat i = Some a -> 0 < compare a e -> above l i e.
Proof.
  intros Ha Hi Hl Hc j b Hj Hb. destruct (decide (j = Z.to_nat i)) as [->|]; [congruence|].
  apply compare_sym. apply compare_trans with a; [by apply compare_sym|]. eapply Ha; [done..|lia].
Qed.

Lemma search_loop_spec fuel s l e lo hi :
  rep s l -> ascending l -> 0 <= lo -> lo <= hi + 1 -> hi < Z.of_nat (length l) -> hi - lo + 1 < Z.of_nat fuel ->
  below l lo e -> above l (hi + 1) e ->
  exists i exact, search_loop fuel s e lo hi = Some (i, exact) /\ position l e i exact.
Proof.
  intros Hr Ha. revert lo hi. induction fuel as [|fuel IH]; intros lo hi Hlo Hlh Hhi Hf Hb Hab; [lia|].
  cbn [search_loop]. destruct (Z.leb_spec lo hi).
  - rewrite Z.quot_div_nonneg by lia. set (mi := lo + (hi - lo) / 2).
    assert (lo <= mi <= hi) by (unfold mi; pose proof (Z.div_pos (hi - lo) 2); pose proof (Z.div_le_upper_bound (hi - lo) 2 (hi - lo)); lia).
    rewrite (slist_get_spec s l) by (done || lia).
    destruct (lookup_lt_is_Some_2 l (Z.to_nat mi)) as [x Hx]; [lia|]. rewrite Hx. cbn [mbind option_bind].
    destruct (Z.ltb_spec (compare x e) 0); [apply IH; try lia; try done; by apply below_next with x; try lia|].
    destruct (Z.ltb_spec 0 (compare x e)).
    + apply IH; try lia; try done. replace (mi - 1 + 1) with mi by lia. apply above_from with x; done || lia.
    + exists mi, true. split; [done|]. split; [lia|]. exists x. split; [done|lia].
  - exists lo, false. split; [done|]. split_and!; [lia|lia|done|]. by replace lo with (hi + 1) by lia.
Qed.

(** The comparisons with the neighbours of the gap. *)
Lemma left_neighbour s l g e :
  rep s l -> (g <= length l)%nat ->
  exists cl, (if Z.of_nat g =? 0 then Some 1 else x ← get s (Z.of_nat g - 1); Some (compare x e)) = Some cl /\
    ((g = 0%nat /\ cl = 1) \/ exists x, (0 < g)%nat /\ l !! (g - 1)%nat = Some x /\ cl = compare x e).
Proof.
  intros Hr Hg. destruct (Z.eqb_spec (Z.of_nat g) 0); [exists 1; split; [done|left; lia]|].
  rewrite (slist_get_spec s l) by (done || lia). replace (Z.to_nat (Z.of_nat g - 1)) with (g - 1)%nat by lia.
  destruct (lookup_lt_is_Some_2 l (g - 1)) as [x Hx]; [lia|]. rewrite Hx. eexists. split; [done|].
  right. exists x. split_and!; [lia|done..].
Qed.

Lemma right_neighbour s l g e :
  rep s l -> size s = Z.of_nat (length l) -> (g <= length l)%nat ->
  exists cr, (if size s <=? Z.of_nat g then Some 1 else x ← get s (Z.of_nat g); Some (compare e x)) = Some cr /\
    ((g = length l /\ cr = 1) \/ exists x, l !! g = Some x /\ cr = compare e x).
Proof.
  intros Hr Hs Hg. destruct (Z.leb_spec (size s) (Z.of_nat g)); [exists 1; split; [done|left; lia]|].
  rewrite (slist_get_spec s l) by (done || lia). rewrite Nat2Z.id.
  destruct (lookup_lt_is_Some_2 l g) as [x Hx]; [lia|]. rewrite Hx. eexists. split; [done|]. right. by exists x.
Qed.

Lemma get_index_spec s l e :
  rep s l -> ascending l -> exists i exact, get_index s e = Some (i, exact) /\ position l e i exact.
Proof.
  intros Hr Ha. destruct (rep_capacity s l Hr) as (g & J & Hg & Hgl & Hs & _).
  assert (exists i exact, search_loop (S (S (Z.to_nat (size s)))) s e 0 (size s - 1) = Some (i, exact) /\ position l e i exact) as Hsearch.
  { apply (search_loop_spec _ s l); try done; try lia.
    - intros j a. lia.
    - intros j a Hj Hja%lookup_lt_Some. lia. }
  unfold get_index. rewrite Hg.
  destruct (left_neighbour s l g e Hr Hgl) as (cl & -> & Hcl).
  destruct (right_neighbour s l g e Hr Hs Hgl) as (cr & Hcr & Hr').
  cbn [mbind option_bind]. destruct ((Z.of_nat g =? 0) || (cl <=? 0)) eqn:El; [|done]. rewrite Hcr. cbn [mbind option_bind andb].
  destruct ((size s <=? Z.of_nat g) || (cr <=? 0)) eqn:Er; [|done].
  apply orb_true_iff in El, Er. rewrite Z.eqb_eq, Z.leb_le in El. rewrite !Z.leb_le in Er.
  destruct (Z.eqb_spec cl 0) as [E0|E0].
  { exists (Z.of_nat g - 1), true. split; [done|]. destruct Hcl as [[? ?]|(x & ? & Hx & ->)]; [lia|].
    split; [lia|]. exists x. by replace (Z.to_nat (Z.of_nat g - 1)) with (g - 1)%nat by lia. }
  assert (compare_zero : forall a b, compare a b = 0 -> compare b a = 0).
  { intros a b Hab. pose proof (compare_sym a b). pose proof (compare_sym b a). lia. }
  destruct (Z.eqb_spec cr 0) as [E1|E1].
  { exists (Z.of_nat g), true. split; [done|]. destruct Hr' as [[? ?]|(x & Hx & ->)]; [lia|].
    split; [lia|]. exists x. rewrite Nat2Z.id. auto. }
  exists (Z.of_nat g), false. split; [done|]. split_and!; [lia|lia| |].
  - destruct Hcl as [[-> _]|(x & Hp & Hx & ->)]; [intros j a; lia|].
    replace (Z.of_nat g) with (Z.of_nat g - 1 + 1) by lia. apply below_next with x; try done; try lia.
    by replace (Z.to_nat (Z.of_nat g - 1)) with (g - 1)%nat by lia.
  - destruct Hr' as [[-> _]|(x & Hx & ->)]; [intros j a Hj Hja%lookup_lt_Some; lia|].
    apply above_from with x; [done|lia|by rewrite Nat2Z.id|]. apply compare_sym. apply lookup_lt_Some in Hx. lia.
Qed.

(** Storing into the first cell of the gap. *)
Lemma insert_rep s l (i : nat) e :
  rep s l -> gap_start s = Z.of_nat i -> size s < capacity s ->
  rep (SList (<[i := Some e]> (data s)) (size s + 1) (gap_start s + 1)) (take i l ++ e :: drop i l) /\
  Z.of_nat i < capacity s.
Proof.
  intros Hr Hi Hc. destruct (rep_capacity s l Hr) as (g & J & Hg & Hgl & Hs & Hd & Hgap & Hcap).
  assert (g = i) as -> by lia. destruct J as [|c J]; [simpl in *; lia|].
  assert (length (take i l) = i) as Hli by (rewrite length_take; lia).
  split; [|lia]. exists (S i), J. cbn [gap_start size data].
  split_and!; [lia|rewrite length_app; simpl; lia|rewrite length_app, length_take; simpl; rewrite length_drop; lia|].
  rewrite Hd, insert_app_r_alt by (rewrite length_fmap; lia). rewrite length_fmap, Hli, Nat.sub_diag. cbn [insert list_insert app].
  rewrite take_app_ge, drop_app_ge by lia. rewrite Hli, Nat.sub_succ_l, Nat.sub_diag by lia. cbn [take drop].
  by rewrite fmap_app, take_0, <- app_assoc.
Qed.

Lemma ascending_insert l i e :
  ascending l -> (i <= length l)%nat -> below l (Z.of_nat i) e -> above l (Z.of_nat i) e ->
  ascending (take i l ++ e :: drop i l).
Proof.
  intros Ha Hi Hb Hab x y a b Hx Hy Hlt.
  assert (forall z c, (take i l ++ e :: drop i l) !! z = Some c ->
    ((z < i)%nat /\ l !! z = Some c) \/ (z = i /\ c = e) \/ ((i < z)%nat /\ l !! (z - 1)%nat = Some c)) as Hlk.
  { intros z c Hz. apply lookup_app_Some in Hz as [Hz|[Hz1 Hz]].
    - apply lookup_take_Some in Hz as [Hz ?]. left. done.
    - rewrite length_take, Nat.min_l in Hz1, Hz by done. apply lookup_cons_Some in Hz as [[Hz ->]|[Hz1' Hz]].
      + right; left. split; [lia|done].
      + right; right. rewrite lookup_drop in Hz. split; [lia|]. by replace (z - 1)%nat with (i + (z - i - 1))%nat by lia. }
  destruct (Hlk x a Hx) as [[Hx1 Hxl]|[[-> ->]|[Hx1 Hxl]]], (Hlk y b Hy) as [[Hy1 Hyl]|[[-> ->]|[Hy1 Hyl]]]; try lia.
  - by apply (Ha x y).
  - apply (Hb x); [lia|done].
  - apply (Ha x (y - 1)%nat); [done..|lia].
  - apply compare_sym. apply (Hab (y - 1)%nat); [lia|done].
  - apply (Ha (x - 1)%nat (y - 1)%nat); [done..|lia].
Qed.

(** [add] of a new element inserts it at its place, growing when full. *)
Lemma add_spec s l e :
  rep s l -> ascending l -> (forall a, a ∈ l -> compare a e <> 0) ->
  exists s' i, add s e = Some s' /\ rep s' (take i l ++ e :: drop i l) /\
    ascending (take i l ++ e :: drop i l) /\ (i <= length l)%nat.
Proof.
  intros Hr Ha Hne. unfold add.
  assert (exists s1, (if size s =? capacity s then grow s else Some s) = Some s1 /\ rep s1 l /\ size s1 < capacity s1)
    as (s1 & -> & Hr1 & Hc1).
  { destruct (rep_capacity s l Hr) as (g & J & _ & _ & Hs & _ & _ & Hc).
    destruct (Z.eqb_spec (size s) (capacity s)) as [E0|E0]; [|exists s; split_and!; [done|done|lia]].
    destruct (slist_grow_spec s l Hr) as (s1 & E1 & Hr1 & Hc1). exists s1. split_and!; [done|done|].
    destruct Hr1 as (? & ? & _ & _ & Hs1 & _). lia. }
  cbn [mbind option_bind]. destruct (get_index_spec s1 l e Hr1 Ha) as (i & exact & -> & Hp).
  cbn [mbind option_bind]. destruct exact.
  { destruct Hp as (_ & a & Hla & Hca). destruct (Hne a); [by eapply list_elem_of_lookup_2|done]. }
  destruct Hp as (Hi & Hb & Hab). cbn [negb].
  destruct (move_gap_spec s1 l i Hr1 Hi) as (s2 & -> & Hr2 & Hg2 & Hc2). cbn [mbind option_bind].
  assert (size s2 = size s1) as Hs2 by (destruct Hr1 as (? & ? & _ & _ & -> & _), Hr2 as (? & ? & _ & _ & -> & _); done).
  destruct (insert_rep s2 l (Z.to_nat i) e Hr2) as [Hr3 Hcap]; [lia|lia|].
  unfold capacity in *. cbn [data size gap_start].
  rewrite (proj2 (Z.leb_le _ _)), (proj2 (Z.ltb_lt _ _)) by lia. cbn [andb].
  exists (SList (<[Z.to_nat i := Some e]> (data s2)) (size s2 + 1) (gap_start s2 + 1)), (Z.to_nat i).
  split_and!; [done|done| |lia]. apply ascending_insert; [done|lia|..]; by rewrite Z2Nat.id by lia.
Qed.

Lemma floor_down_spec fuel s l obj i :
  rep s l -> -1 <= i < Z.of_nat (length l) -> i + 1 < Z.of_nat fuel ->
  exists j, floor_down fuel s obj i = Some j /\ -1 <= j <= i /\
    (0 <= j -> exists a, l !! Z.to_nat j = Some a /\ is_floor_of a obj = true) /\
    forall k a, j < Z.of_nat k <= i -> l !! k = Some a -> is_floor_of a obj = false.
Proof.
  intros Hr. revert i. induction fuel as [|fuel IH]; intros i Hi Hf; [lia|]. cbn [floor_down].
  destruct (Z.leb_spec 0 i).
  - rewrite (slist_get_spec s l) by (done || lia). destruct (lookup_lt_is_Some_2 l (Z.to_nat i)) as [x Hx]; [lia|].
    rewrite Hx. cbn [mbind option_bind]. destruct (is_floor_of x obj) eqn:Ex.
    + exists i. split_and!; [done|lia|lia|eauto|]. intros k a Hk. lia.
    + destruct (IH (i - 1)) as (j & E1 & Hj & Hfl & Hk); [lia|lia|]. exists j. split_and!; [done|lia|lia|done|].
      intros k a Hlt Hka. destruct (decide (Z.of_nat k = i)) as [<-|]; [|apply (Hk k a); [lia|done]].
      rewrite Nat2Z.id in Hx. congruence.
  - exists i. split_and!; [done|lia|lia|lia|]. intros k a Hk. lia.
Qed.

Fixpoint adds (s : slist) (es : list E) : option slist :=
  match es with
  | [] => Some s
  | e :: es => s ← add s e; adds s es
  end.

Lemma make_list_rep cap : rep (make cap) [].
Proof. exists 0%nat, (replicate (Z.to_nat cap) None). split_and!; try done. simpl. by rewrite app_nil_r. Qed.

Lemma adds_spec es s l :
  rep s l -> ascending l -> (forall a e, a ∈ l -> e ∈ es -> compare a e <> 0) ->
  (forall i j a b, es !! i = Some a -> es !! j = Some b -> (i < j)%nat -> compare a b <> 0) ->
  exists s' l', adds s es = Some s' /\ rep s' l' /\ ascending l' /\ l' ≡ₚ l ++ es.
Proof.
  revert s l. induction es as [|e es IH]; intros s l Hr Ha Hd He; simpl.
  { exists s, l. by rewrite app_nil_r. }
  destruct (add_spec s l e Hr Ha) as (s1 & i & -> & Hr1 & Ha1 & Hi).
  { intros a Hin. apply Hd; [done|constructor]. }
  cbn [mbind option_bind].
  assert (take i l ++ e :: drop i l ≡ₚ e :: l) as Hp by (rewrite <- Permutation_middle, take_drop; done).
  destruct (IH s1 _ Hr1 Ha1) as (s2 & l2 & E2 & Hr2 & Ha2 & Hp2).
  { intros a b Hin Hb. rewrite Hp in Hin. apply elem_of_cons in Hin as [->|Hin].
    - apply list_elem_of_lookup in Hb as [j Hj]. apply (He 0%nat (S j)); [done|done|lia].
    - apply Hd; [done|by constructor]. }
  { intros i' j a b Hi' Hj Hlt. apply (He (S i') (S j)); [done|done|lia]. }
  exists s2, l2. split_and!; [done..|]. rewrite Hp2, Hp. by rewrite <- Permutation_middle.
Qed.

Lemma is_sorted_from_spec todo s l i :
  rep s l -> ascending l -> 1 <= i -> i + Z.of_nat todo <= Z.of_nat (length l) ->
  is_sorted_from todo s i = Some true.
Proof.
  intros Hr Ha. revert i. induction todo as [|todo IH]; intros i Hi Hl; [done|]. cbn [is_sorted_from].
  rewrite !(slist_get_spec s l) by (done || lia).
  destruct (lookup_lt_is_Some_2 l (Z.to_nat (i - 1))) as [a Ea]; [lia|].
  destruct (lookup_lt_is_Some_2 l (Z.to_nat i)) as [b Eb]; [lia|]. rewrite Ea, Eb. cbn [mbind option_bind].
  pose proof (Ha _ _ _ _ Ea Eb ltac:(lia)). rewrite (proj2 (Z.ltb_ge _ _)) by lia. apply IH; lia.
Qed.

(** The gap list sorts: after any sequence of [add]s of elements that are
    pairwise different, from an empty list of any capacity, the elements by
    index are the added ones, each once, in ascending order, and [is_sorted]
    answers true. *)
Theorem sorted_list_sorts cap es :
  (forall i j a b, es !! i = Some a -> es !! j = Some b -> (i < j)%nat -> compare a b <> 0) ->
  exists s l, adds (make cap) es = Some s /\ l ≡ₚ es /\ ascending l /\ size s = Z.of_nat (length es) /\
    (forall i, 0 <= i < Z.of_nat (length es) -> get s i = l !! Z.to_nat i) /\ is_sorted s = Some true.
Proof.
  intros He. destruct (adds_spec es (make cap) [] (make_list_rep cap)) as (s & l & Ex & Hr & Ha & Hp); [|set_solver|done|].
  { intros i j a b Hi. by rewrite lookup_nil in Hi. }
  simpl in Hp. pose proof (Permutation_length Hp) as Hl. exists s, l.
  assert (size s = Z.of_nat (length l)) as Hs by (by destruct Hr as (? & ? & _ & _ & ? & _)).
  split_and!; [done..|lia| |].
  - intros i Hi. apply slist_get_spec; [done|lia].
  - unfold is_sorted. destruct (decide (length l = 0%nat)) as [E0|]; [by rewrite Hs, E0|].
    apply is_sorted_from_spec with l; [done|done|lia|lia].
Qed.

End SortedList.

Arguments slist : clear implicits.

Lemma sorted_list_sorts_witness : exists s l, adds Z.sub (make 0) [30; 10; 20] = Some s /\ l ≡ₚ [30; 10; 20] /\
  size s = 3 /\ is_sorted Z.sub s = Some true.
Proof.
  destruct (sorted_list_sorts Z.sub ltac:(intros; lia) ltac:(intros; lia) 0 [30; 10; 20]) as (s & l & E & Hp & _ & Hs & _ & Hi).
  - intros [|[|[|i]]] [|[|[|j]]] a b; simpl; intros; simplify_eq; lia.
  - exists s, l. split; [exact E|]. split; [exact Hp|]. split; [exact Hs|exact Hi].
Defined.

End SortedList.

(** * [ListMap]: a navigable map on a sorted list of entries *)

Module ListMap.

Abbreviation entry := (list Z * Z)%type.

(** [isEntryFloorOf]: the floor's key is a prefix of the other key. *)
Definition isSequenceFloorOf (floor sequence : list Z) : bool :=
  bool_decide (take (length floor) sequence = floor /\ (length floor <= length sequence)%nat).

Definition isEntryFloorOf (floor e : entry) : bool := isSequenceFloorOf floor.1 e.1.

(** [compareSequence] and [compareSequenceByLength] on the bytes of the
    sequences ([Sequence.compare], [Sequence.compareByLength]). *)
Definition compareSequence (a b : list Z) : Z :=
  let diff := Sequence.memcmp a b (Nat.min (length a) (length b)) in
  if negb (diff =? 0) then diff else Z.of_nat (length a) - Z.of_nat (length b).

Definition compareSequenceByLength (a b : list Z) : Z :=
  let diff := Z.of_nat (length a) - Z.of_nat (length b) in
  if negb (diff =? 0) then diff else Sequence.memcmp a b (Nat.min (length a) (length b)).

Section ListMap.
Variable compareKey : list Z -> list Z -> Z.

Definition compareEntry (e1 e2 : entry) : Z := compareKey e1.1 e2.1.

Definition listmap := SortedList.slist entry.

Definition make : listmap := SortedList.make 0.

Definition get_size (m : listmap) : Z := SortedList.size m.

(** The probe entry carries only the key; its value is never read. *)
Definition get_floor (m : listmap) (key : list Z) : option (option entry) :=
  floor_index ← SortedList.floor compareEntry isEntryFloorOf m (key, 0);
  if (0 <=? floor_index) && (floor_index <? SortedList.size m)
  then e ← SortedList.get m floor_index; Some (Some e)
  else Some None.

Definition get (m : listmap) (key : list Z) : option (option Z) :=
  floor ← get_floor m key;
  Some (match floor with
        | Some (k, v) => if compareKey k key =? 0 then Some v else None
        | None => None
        end).

Definition put (m : listmap) (key : list Z) (value : Z) : option (listmap * bool) :=
  m ← SortedList.add compareEntry m (key, value);
  Some (m, true).

Definition remove (m : listmap) (key : list Z) : listmap * bool := (m, false).

Definition clear (m : listmap) : listmap := SortedList.clear m.

(** ** Correctness, for any order in which prefixes ascend *)

Hypothesis compare_sym : forall a b, compareKey a b < 0 <-> 0 < compareKey b a.
Hypothesis compare_trans : forall a b c, compareKey a b < 0 -> compareKey b c < 0 -> compareKey a c < 0.
Hypothesis compare_eq : forall a b, compareKey a b = 0 <-> a = b.
Hypothesis compare_prefix : forall k i j, (i < j <= length k)%nat -> compareKey (take i k) (take j k) < 0.

Definition rep (m : listmap) (d : gmap (list Z) Z) : Prop :=
  exists l, SortedList.rep m l /\ SortedList.ascending compareEntry l /\ d = list_to_map l.

Lemma ascending_nodup l : SortedList.ascending compareEntry l -> NoDup l.*1.
Proof.
  intros Ha. apply NoDup_alt. intros i j k Hi Hj.
  apply list_lookup_fmap_Some in Hi as ([k1 v1] & -> & E1), Hj as ([k2 v2] & Hk & E2). simpl in Hk |- *. subst k2. assert (compareKey k1 k1 = 0) as H0 by (by apply compare_eq).
  destruct (lt_eq_lt_dec i j) as [[Hlt|]|Hlt]; [|done|].
  - pose proof (Ha i j _ _ E1 E2 Hlt) as Hc. unfold compareEntry in Hc. simpl in Hc. lia.
  - pose proof (Ha j i _ _ E2 E1 Hlt) as Hc. unfold compareEntry in Hc. simpl in Hc. lia.
Qed.

Lemma listmap_put_spec m d key v :
  rep m d -> d !! key = None -> exists m', put m key v = Some (m', true) /\ rep m' (<[key := v]> d).
Proof.
  intros (l & Hr & Ha & ->) Hk. apply not_elem_of_list_to_map_2 in Hk. unfold put.
  destruct (SortedList.add_spec compareEntry) with (s := m) (l := l) (e := (key, v)) as (m' & i & -> & Hr' & Ha' & Hi); try done.
  { intros a b. apply compare_sym. }
  { intros a b c. apply compare_trans. }
  { intros [k w] Hin E0. apply compare_eq in E0. simpl in E0. subst. apply Hk. apply list_elem_of_fmap. by exists (key, w). }
  simpl. eexists. split; [done|]. exists (take i l ++ (key, v) :: drop i l). split_and!; [done|done|].
  assert (take i l ++ (key, v) :: drop i l ≡ₚ (key, v) :: l) as Hp.
  { rewrite <- (take_drop i l) at 3. by rewrite Permutation_middle. }
  change (<[key := v]> (list_to_map l)) with (list_to_map (M := gmap (list Z) Z) ((key, v) :: l)).
  apply list_to_map_proper; [|by symmetry]. simpl. constructor; [done|by apply ascending_nodup].
Qed.

Lemma isEntryFloorOf_take k v key w j :
  k = take j key -> (j <= length key)%nat -> isEntryFloorOf (k, v) (key, w) = true.
Proof.
  intros -> Hj. apply bool_decide_eq_true. simpl. rewrite length_take, Nat.min_l by lia. split; [done|lia].
Qed.

(** An entry whose key is a proper prefix of [key] is before the insert
    position of [key]. *)
Lemma prefix_before l i ip p key v :
  SortedList.above compareEntry l i (key, 0) -> l !! ip = Some (take p key, v) -> (p < length key)%nat ->
  Z.of_nat ip < i.
Proof.
  intros Hab Hip Hp. destruct (Z.lt_ge_cases (Z.of_nat ip) i) as [|Hge]; [done|].
  pose proof (Hab ip _ Hge Hip) as Hc. unfold compareEntry in Hc. simpl in Hc.
  pose proof (compare_prefix key p (length key)) as Hl. rewrite firstn_all in Hl. lia.
Qed.

(** Scanning down from the insert position finds the longest prefix. *)
Lemma scan_longest l key i j :
  SortedList.ascending compareEntry l -> (list_to_map l : gmap (list Z) Z) !! [] = None ->
  is_Some ((list_to_map l : gmap (list Z) Z) !! take 1 key) -> key <> [] ->
  SortedList.below compareEntry l i (key, 0) -> SortedList.above compareEntry l i (key, 0) ->
  0 <= i <= Z.of_nat (length l) -> -1 <= j <= i - 1 ->
  (0 <= j -> exists a, l !! Z.to_nat j = Some a /\ isEntryFloorOf a (key, 0) = true) ->
  (forall k a, j < Z.of_nat k <= i - 1 -> l !! k = Some a -> isEntryFloorOf a (key, 0) = false) ->
  0 <= j /\ l !! Z.to_nat j = longest_prefix (list_to_map l) (length key) key /\ j < Z.of_nat (length l).
Proof.
  intros Ha Hnil Hf Hne Hb Hab Hi Hj Hfl Hno. pose proof (ascending_nodup l Ha) as Hnd.
  set (d := list_to_map l : gmap (list Z) Z) in *.
  assert (forall p v, (0 < p <= length key)%nat -> d !! take p key = Some v ->
    exists ip, l !! ip = Some (take p key, v) /\ Z.of_nat ip < i) as Hpos.
  { intros p v Hp Hv. apply elem_of_list_to_map_2, list_elem_of_lookup in Hv as [ip Hip]. exists ip. split; [done|].
    destruct (decide (p = length key)) as [->|]; [|apply (prefix_before l i ip p key v); try done; lia].
    rewrite firstn_all in Hip. destruct (Z.lt_ge_cases (Z.of_nat ip) i) as [|Hge]; [done|].
    pose proof (Hab ip _ Hge Hip) as Hc. unfold compareEntry in Hc. simpl in Hc.
    rewrite (proj2 (compare_eq key key)) in Hc by done. lia. }
  assert (0 < length key)%nat by (destruct key; [done|simpl; lia]).
  assert (0 <= j) as Hj0.
  { destruct Hf as [v Hv]. destruct (Hpos 1%nat v) as (ip & Hip & Hlt); [lia|done|].
    destruct (Z.lt_ge_cases j (Z.of_nat ip)); [|lia]. pose proof (Hno ip _ ltac:(lia) Hip) as Hfalse.
    rewrite (isEntryFloorOf_take _ v key 0 1) in Hfalse by (done || lia). done. }
  destruct (Hfl Hj0) as ([k v] & Hjl & Hk). apply bool_decide_eq_true in Hk as [Hk Hkl]. simpl in Hk, Hkl.
  assert (d !! k = Some v) as Hd by (apply elem_of_list_to_map_1; [done|by eapply list_elem_of_lookup_2]).
  split_and!; [done| |apply lookup_lt_Some in Hjl; lia]. rewrite Hjl. symmetry. rewrite <- Hk at 1.
  apply longest_prefix_intro; [|by rewrite Hk|].
  { destruct k; [|simpl; simpl in Hkl; lia]. congruence. }
  intros p Hp. destruct (d !! take p key) as [w|] eqn:Ew; [|done]. exfalso.
  destruct (Hpos p w) as (ip & Hip & Hlt); [lia|done|].
  pose proof (compare_prefix key (length k) p ltac:(lia)) as Hc. rewrite Hk in Hc.
  destruct (lt_eq_lt_dec (Z.to_nat j) ip) as [[Hlt'|Heq]|Hgt].
  - pose proof (Hno ip _ ltac:(lia) Hip) as Hfalse. rewrite (isEntryFloorOf_take _ w key 0 p) in Hfalse by (done || lia). done.
  - subst ip. simplify_eq. rewrite (proj2 (compare_eq _ _)) in Hc by done. lia.
  - pose proof (Ha _ _ _ _ Hip Hjl Hgt) as Hc'. unfold compareEntry in Hc'. simpl in Hc'. apply compare_sym in Hc'. lia.
Qed.

Lemma listmap_get_floor_spec m d key :
  rep m d -> prefix_closed d -> is_Some (d !! take 1 key) -> key <> [] ->
  get_floor m key = Some (longest_prefix d (length key) key).
Proof.
  intros (l & Hr & Ha & ->) [Hnil _] Hf Hne. unfold get_floor, SortedList.floor.
  destruct (SortedList.get_index_spec compareEntry) with (s := m) (l := l) (e := (key, 0)) as (i & exact & -> & Hp); try done.
  { intros a b. apply compare_sym. }
  { intros a b c. apply compare_trans. }
  destruct (SortedList.rep_capacity m l Hr) as (_ & _ & _ & _ & Hs & _).
  assert (0 < length key)%nat by (destruct key; [done|simpl; lia]).
  cbn [mbind option_bind]. destruct exact.
  - destruct Hp as (Hi & [k v] & Hla & Hca). apply compare_eq in Hca. simpl in Hca. subst k.
    apply lookup_lt_Some in Hla as Hlt. cbn [mbind option_bind].
    rewrite (proj2 (Z.leb_le _ _)), (proj2 (Z.ltb_lt _ _)) by lia. cbn [andb].
    rewrite (SortedList.slist_get_spec _ l) by (done || lia). rewrite Hla. cbn [mbind option_bind]. do 2 f_equal. symmetry.
    pose proof (longest_prefix_intro (list_to_map l) (length key) (length key) key v) as Hlp.
    rewrite firstn_all in Hlp. apply Hlp; [lia| |lia].
    apply elem_of_list_to_map_1; [by apply ascending_nodup|by eapply list_elem_of_lookup_2].
  - destruct Hp as (Hi & Hb & Hab).
    destruct (SortedList.floor_down_spec isEntryFloorOf (S (S (Z.to_nat (SortedList.size m)))) m l (key, 0) (i - 1) Hr)
      as (j & -> & Hj & Hfl & Hno); [lia|lia|]. cbn [mbind option_bind].
    destruct (scan_longest l key i j) as (Hj0 & Hjl & Hjlt); try done.
    rewrite (proj2 (Z.leb_le _ _)), (proj2 (Z.ltb_lt _ _)) by lia. cbn [andb].
    rewrite (SortedList.slist_get_spec _ l), Hjl by (done || lia).
    destruct (longest_prefix_exists (list_to_map l) (length key) key) as (p & v & ->); done || lia.
Qed.

Lemma listmap_clear_spec m d : rep m d -> rep (clear m) ∅.
Proof.
  intros _. exists []. split_and!; [|intros i j a b Hi; by rewrite lookup_nil in Hi|done].
  exists 0%nat, (SortedList.data m). simpl. rewrite app_nil_r. by split_and!.
Qed.

Lemma listmap_make_rep : rep make ∅.
Proof.
  exists []. split_and!; [|intros i j a b Hi; by rewrite lookup_nil in Hi|done].
  exists 0%nat, []. by split_and!.
Qed.

Instance list_map_ops : NavigableMap listmap := {
  nav_put := put; nav_get_floor := get_floor; nav_clear := clear;
}.

#[program] Instance list_map_spec : NavigableMapSpec listmap := {| nav_rep := rep |}.
Next Obligation. intros m d k v Hr _ Hk _ _ _. destruct (listmap_put_spec m d k v Hr Hk) as (m' & ? & ?). eauto. Qed.
Next Obligation. intros m d k Hr Hc Hne _ Hf. by apply listmap_get_floor_spec. Qed.
Next Obligation. exact listmap_clear_spec. Qed.

End ListMap.

End ListMap.

(** ** The two orders of the encoder's strategies *)

Module Orders.
Import ListMap.

Lemma lex_sym a b : Sequence.lex_compare b a = CompOpp (Sequence.lex_compare a b).
Proof.
  revert b. induction a as [|x a IH]; intros [|y b]; simpl; try done.
  rewrite (Z.compare_antisym x y). destruct (x ?= y); simpl; auto.
Qed.

Lemma lex_eq a b : Sequence.lex_compare a b = Eq <-> a = b.
Proof.
  revert b. induction a as [|x a IH]; intros [|y b]; simpl; try done.
  destruct (Z.compare_spec x y) as [->|Hlt|Hgt].
  - rewrite IH. split; [by intros ->|by intros [= ->]].
  - split; [done|]. intros [= -> _]. lia.
  - split; [done|]. intros [= -> _]. lia.
Qed.

Lemma lex_trans a b c :
  Sequence.lex_compare a b = Lt -> Sequence.lex_compare b c = Lt -> Sequence.lex_compare a c = Lt.
Proof.
  revert b c. induction a as [|x a IH]; intros [|y b] [|z c]; simpl; try done.
  destruct (Z.compare_spec x y), (Z.compare_spec y z), (Z.compare_spec x z); subst; try done; try lia.
  apply IH.
Qed.

Lemma lex_prefix k i j : (i < j <= length k)%nat -> Sequence.lex_compare (take i k) (take j k) = Lt.
Proof.
  revert i j. induction k as [|x k IH]; intros i j Hij; simpl in Hij; [lia|].
  destruct j as [|j]; [lia|]. destruct i as [|i]; [done|]. cbn [take Sequence.lex_compare].
  rewrite Z.compare_refl. apply IH. lia.
Qed.

Lemma compareSequence_lex a b : (compareSequence a b ?= 0) = Sequence.lex_compare a b.
Proof.
  rewrite Sequence.memcmp_lex. unfold compareSequence. by destruct (_ =? 0).
Qed.

Lemma compareByLength_lex a b :
  (compareSequenceByLength a b ?= 0) =
  match (length a ?= length b)%nat with Eq => Sequence.lex_compare a b | c => c end.
Proof.
  unfold compareSequenceByLength. rewrite <- Nat2Z.inj_compare, Sequence.memcmp_lex.
  destruct (Z.eqb_spec (Z.of_nat (length a) - Z.of_nat (length b)) 0) as [E|E]; cbn [negb].
  - rewrite E. destruct (Z.compare_spec (Z.of_nat (length a)) (Z.of_nat (length b))); [|lia..].
    by destruct (Z.eqb_spec (Sequence.memcmp a b (Nat.min (length a) (length b))) 0) as [->|].
  - rewrite <- Z.compare_sub. by destruct (Z.compare_spec (Z.of_nat (length a)) (Z.of_nat (length b))); [lia|..].
Qed.

(** An order given by its sign. *)
Section from_sign.
Context (cmp : list Z -> list Z -> Z) (sign : list Z -> list Z -> comparison).
Hypothesis Hsign : forall a b, (cmp a b ?= 0) = sign a b.

Lemma cmp_lt a b : cmp a b < 0 <-> sign a b = Lt.
Proof. by rewrite <- Hsign. Qed.

Lemma cmp_gt a b : 0 < cmp a b <-> sign a b = Gt.
Proof. rewrite <- Hsign, Z.compare_gt_iff. done. Qed.

Lemma cmp_eq a b : cmp a b = 0 <-> sign a b = Eq.
Proof. by rewrite <- Hsign, Z.compare_eq_iff. Qed.
End from_sign.

Lemma length_lex_trans (a b c : list Z) :
  match (length a ?= length b)%nat with Eq => Sequence.lex_compare a b | r => r end = Lt ->
  match (length b ?= length c)%nat with Eq => Sequence.lex_compare b c | r => r end = Lt ->
  match (length a ?= length c)%nat with Eq => Sequence.lex_compare a c | r => r end = Lt.
Proof.
  destruct (Nat.compare_spec (length a) (length b)), (Nat.compare_spec (length b) (length c)),
    (Nat.compare_spec (length a) (length c)); try done; try lia. apply lex_trans.
Qed.

#[export] Instance lexicographic_ops : NavigableMap listmap := list_map_ops compareSequence.

#[export] Instance lexicographic_spec : NavigableMapSpec listmap.
Proof.
  refine (list_map_spec compareSequence _ _ _ _).
  - intros a b. rewrite (cmp_lt _ _ compareSequence_lex), (cmp_gt _ _ compareSequence_lex), (lex_sym a b).
    by destruct (Sequence.lex_compare a b).
  - intros a b c. rewrite !(cmp_lt _ _ compareSequence_lex). apply lex_trans.
  - intros a b. rewrite (cmp_eq _ _ compareSequence_lex). apply lex_eq.
  - intros k i j Hij. apply (cmp_lt _ _ compareSequence_lex). by apply lex_prefix.
Defined.

Definition by_length_ops : NavigableMap listmap := list_map_ops compareSequenceByLength.

Definition by_length_spec : @NavigableMapSpec listmap by_length_ops.
Proof.
  refine (list_map_spec compareSequenceByLength _ _ _ _).
  - intros a b. rewrite (cmp_lt _ _ compareByLength_lex), (cmp_gt _ _ compareByLength_lex), (lex_sym a b), (Nat.compare_antisym (length a)).
    by destruct (length a ?= length b)%nat, (Sequence.lex_compare a b).
  - intros a b c. rewrite !(cmp_lt _ _ compareByLength_lex). apply length_lex_trans.
  - intros a b. rewrite (cmp_eq _ _ compareByLength_lex). destruct (Nat.compare_spec (length a) (length b)) as [E|E|E].
    + apply lex_eq.
    + split; [done|]. intros ->. lia.
    + split; [done|]. intros ->. lia.
  - intros k i j Hij. apply (cmp_lt _ _ compareByLength_lex). rewrite !length_take.
    destruct (Nat.compare_spec (i `min` length k) (j `min` length k)); [lia|done|lia].
Defined.

End Orders.
