(* ===== verification/LZW.v ===== *)
(** * LZW compression ([prims/LZWCompression.cpp], [prims/Compression.cpp])

    The encoder keeps a dictionary of byte strings behind the [NavigableMap]
    interface; the thirteen collection strategies of the constructor are
    instances of it.  [encode] writes, with a [VarIntWriter], the index of the
    longest known prefix of the remaining input and registers that prefix
    extended by one byte. *)

From S2P Require Import Prelude VarInt MapInterface.
From Stdlib Require Import ZArith Lia.

(** [CompressionDefinitions.hpp] *)
Module CompressionDefinitions.

Definition INDEX_MAX_WIDTH : Z := 2.
Definition INDEX_MASK : Z := (1 ≪ (INDEX_MAX_WIDTH * 8)) - 1.
Definition FIRST_CUSTOM_INDEX : Z := 1 ≪ 8.
Definition MAX_INDEX : Z := (u32 (Z.lnot 0) .& INDEX_MASK) ≫ INDEX_MAX_WIDTH.

End CompressionDefinitions.

Module LZWCompression.
Import CompressionDefinitions.

Section LZWCompression.
Context {M : Type} `{!NavigableMap M}.

Record lzw := LZW { dictionary : M; next_index : Z; max_length : Z }.

(** [array] are the bytes from the given address on. *)
Definition registerIndex (l : lzw) (array : list Z) (length : Z) : option lzw :=
  if next_index l <=? MAX_INDEX then
    let sequence := take (Z.to_nat length) array in
    let index := next_index l in
    '(d, _) ← nav_put (dictionary l) sequence index;
    Some (LZW d (index + 1) (Z.max (max_length l) length))
  else Some l.

(** The new [*length] and the index; a missing floor is undefined. *)
Definition resolveIndex (l : lzw) (array : list Z) (length : Z) : option (Z * Z) :=
  let sequence := take (Z.to_nat length) array in
  maybe ← nav_get_floor (dictionary l) sequence;
  '(k, index) ← maybe;
  Some (Z.of_nat (List.length k), index).

Fixpoint register_bytes (todo : nat) (index : Z) (l : lzw) : option lzw :=
  match todo with
  | O => Some l
  | S todo' =>
      let c := u8 (index .& 255) in
      l ← registerIndex l [c] 1;
      register_bytes todo' (index + 1) l
  end.

Definition reset (l : lzw) : option lzw :=
  register_bytes (Z.to_nat FIRST_CUSTOM_INDEX) 0 (LZW (nav_clear (dictionary l)) 0 0).

(** The loop of [encode]; [dest] are the bytes stored so far. *)
Fixpoint encode_loop (fuel : nat) (l : lzw) (writer : VarIntWriter.writer) (src : list Z) (src_index : Z)
    (dest : list Z) (dest_length : Z) : option (lzw * VarIntWriter.writer * Z * list Z) :=
  let src_length := Z.of_nat (length src) in
  match fuel with
  | O => None
  | S fuel' =>
      if (src_index <? src_length) && (Z.of_nat (length dest) + INDEX_MAX_WIDTH * 2 <? dest_length) then
        let array := drop (Z.to_nat src_index) src in
        let len := Z.min (max_length l) (src_length - src_index) in
        '(len, index) ← resolveIndex l array len;
        '(writer, bs) ← VarIntWriter.write writer index;
        l ← (if src_index + len + 1 <? src_length then registerIndex l array (len + 1) else Some l);
        encode_loop fuel' l writer src (src_index + len) (dest ++ bs) dest_length
      else Some (l, writer, src_index, dest)
  end.

(** [Result]: [src_compressed_length] and the bytes written, whose number is
    [dest_length]. *)
Definition encode (l : lzw) (src : list Z) (dest_length : Z) : option (lzw * (Z * list Z)) :=
  '(l, writer, src_index, dest) ←
    encode_loop (S (length src)) l VarIntWriter.init src 0 [] dest_length;
  if Z.of_nat (length dest) + INDEX_MAX_WIDTH * 2 <? dest_length then
    '(_, bs) ← VarIntWriter.flush writer;
    Some (l, (src_index, dest ++ bs))
  else Some (l, (0, dest)).

(** [Compression::encode] on event buffers: the bytes of the source buffer,
    the capacity of the destination in bytes; [Some] bytes when the whole
    source was compressed. *)
Definition compress (l : lzw) (src : list Z) (dest_capacity : Z) : option (lzw * option (list Z)) :=
  '(l, (src_compressed_length, dest)) ← encode l src dest_capacity;
  if Z.of_nat (length dest) <=? dest_capacity then
    Some (l, if src_compressed_length =? Z.of_nat (length src) then Some dest else None)
  else None.

End LZWCompression.

Arguments lzw : clear implicits.

End LZWCompression.

(** ** The dictionary during encoding *)

Module EncoderSpec.
Import CompressionDefinitions LZWCompression.

Section EncoderSpec.
Context {M : Type} `{!NavigableMap M} `{!NavigableMapSpec M}.

(** The single bytes are always registered, with their own value. *)
Definition dict_ok (d : gmap (list Z) Z) (n : Z) : Prop :=
  prefix_closed d /\ 256 <= n <= MAX_INDEX + 1 /\
  (forall b, is_byte b -> d !! [b] = Some b) /\
  (forall k i, d !! k = Some i -> 0 <= i < n /\ Forall is_byte k).

Definition rep (l : lzw M) (d : gmap (list Z) Z) : Prop :=
  nav_rep (dictionary l) d /\
  0 <= max_length l /\ forall k, is_Some (d !! k) -> Z.of_nat (length k) <= max_length l.

(** A stretch of the encoding: [enc_run d n input cs rest d' n']: the codes
    [cs] are emitted for [input] up to [rest], the dictionary growing from
    [d] with next index [n] to [d'] with [n']. *)
Definition grow_dict (d : gmap (list Z) Z) (n : Z) (p rest : list Z) : gmap (list Z) Z * Z :=
  match rest with
  | x :: _ :: _ => if n <=? MAX_INDEX then (<[p ++ [x] := n]> d, n + 1) else (d, n)
  | _ => (d, n)
  end.

Inductive enc_run : gmap (list Z) Z -> Z -> list Z -> list Z -> list Z -> gmap (list Z) Z -> Z -> Prop :=
| enc_done d n rest : enc_run d n rest [] rest d n
| enc_step d n p i rest cs rest' d' n' :
    p <> [] -> d !! p = Some i ->
    (forall x, head rest = Some x -> d !! (p ++ [x]) = None) ->
    enc_run (grow_dict d n p rest).1 (grow_dict d n p rest).2 rest cs rest' d' n' ->
    enc_run d n (p ++ rest) (i :: cs) rest' d' n'.

Lemma max_index : MAX_INDEX = 16383.
Proof. done. Qed.

Lemma resolve_spec l d n rest :
  rep l d -> dict_ok d n -> rest <> [] -> Forall is_byte rest ->
  exists (p rest' : list Z) i, rest = p ++ rest' /\ p <> [] /\ d !! p = Some i /\
    resolveIndex l rest (Z.min (max_length l) (Z.of_nat (length rest))) = Some (Z.of_nat (length p), i) /\
    forall x, head rest' = Some x -> d !! (p ++ [x]) = None.
Proof.
  intros (Hr & Hm0 & Hmax) (Hc & _ & Hb & _) Hne Hby.
  destruct rest as [|b rest]; [done|]. apply Forall_cons in Hby as Hb1. destruct Hb1 as [Hb1 _].
  assert (1 <= max_length l) as Hm1 by (apply (Hmax [b]); rewrite Hb by done; by eexists).
  set (len := Z.to_nat (Z.min (max_length l) (Z.of_nat (length (b :: rest))))).
  assert (0 < len <= length (b :: rest))%nat as Hlen by (unfold len; simpl length in *; lia).
  assert (take 1 (take len (b :: rest)) = [b]) as Ht1 by (destruct len; [lia|]; simpl; by rewrite take_0).
  unfold resolveIndex. fold len.
  assert (is_Some (d !! take 1 (take len (b :: rest)))) as Hfirst by (rewrite Ht1, Hb by done; by eexists).
  assert (take len (b :: rest) <> []) as Hnil by (destruct len; [lia|done]).
  rewrite (nav_floor_spec _ d) by (try done; by apply Forall_take).
  cbn [mbind option_bind]. rewrite length_take, Nat.min_l by lia.
  destruct (longest_prefix_exists d len (take len (b :: rest))) as (p & i & Elp);
    [lia|done|].
  rewrite Elp. cbn [mbind option_bind]. apply longest_prefix_spec in Elp as (j & Hj & -> & Hd & Hlong).
  rewrite take_take, Nat.min_l in Hd |- * by lia.
  exists (take j (b :: rest)), (drop j (b :: rest)), i. rewrite take_drop. split_and!; try done.
  - destruct j; [lia|done].
  - intros x Hx. destruct (drop j (b :: rest)) as [|y rest'] eqn:Ed; simplify_eq/=.
    assert ((b :: rest) !! j = Some x) as Hx by (rewrite <- (Nat.add_0_r j), <- lookup_drop, Ed; done).
    rewrite <- (take_S_r _ _ _ Hx). apply lookup_lt_Some in Hx as Hjl.
    destruct (decide (S j <= len)%nat) as [Hle|Hgt].
    + specialize (Hlong (S j) ltac:(lia)). by rewrite take_take, Nat.min_l in Hlong by lia.
    + destruct (d !! take (S j) (b :: rest)) as [w|] eqn:Ew; [|done]. exfalso.
      assert (Z.of_nat (length (take (S j) (b :: rest))) <= max_length l) as Hml by (apply Hmax; by eexists).
      rewrite length_take in Hml. cbn [length] in *. lia.
Qed.

Lemma register_spec l d n p x (rest : list Z) i :
  rep l d -> dict_ok d n -> next_index l = n -> d !! p = Some i -> p <> [] -> is_byte x ->
  d !! (p ++ [x]) = None ->
  exists l', registerIndex l (p ++ x :: rest) (Z.of_nat (length p) + 1) = Some l' /\
    let '(d', n') := if n <=? MAX_INDEX then (<[p ++ [x] := n]> d, n + 1) else (d, n) in
    rep l' d' /\ dict_ok d' n' /\ next_index l' = n'.
Proof.
  intros (Hr & Hm0 & Hmax) (Hc & Hn & Hb & Hv) Hnx Hp Hpne Hx Hnew. unfold registerIndex. rewrite Hnx.
  destruct (Z.leb_spec n MAX_INDEX) as [Hle|Hgt]; [|exists l; by split_and!].
  assert (take (Z.to_nat (Z.of_nat (length p) + 1)) (p ++ x :: rest) = p ++ [x]) as ->.
  { replace (Z.to_nat (Z.of_nat (length p) + 1)) with (length p + 1)%nat by lia.
    rewrite take_app_add. done. }
  destruct (Hv p i Hp) as [_ Hpb].
  assert (Forall is_byte (p ++ [x])) as Hbx by (apply Forall_app; split; [done|by constructor]).
  assert (forall m, (0 < m < length (p ++ [x]))%nat -> is_Some (d !! take m (p ++ [x]))) as Hpre.
  { intros m Hm. rewrite length_app in Hm. simpl in Hm. rewrite take_app_le by lia.
    apply Hc; [by eexists|lia]. }
  destruct (nav_put_spec (dictionary l) d (p ++ [x]) n) as (m' & b' & -> & Hr'); try done; [by destruct p|].
  cbn [mbind option_bind]. eexists. split; [done|]. split; [split; [done|split]|]; simpl; [lia| |].
  { intros k [<-|Hk]%lookup_insert_is_Some'; [rewrite length_app; simpl; lia|].
    pose proof (Hmax k Hk). lia. }
  split; [|done]. split; [apply prefix_closed_insert; [done|by destruct p|done]|]. split_and!; [lia|lia| |].
  - intros c Hc'. rewrite lookup_insert_ne; [by apply Hb|]. by destruct p as [|? [|]].
  - intros k j Hk. apply lookup_insert_Some in Hk as [[<- <-]|[_ Hk]]; [split; [lia|done]|].
    destruct (Hv k j Hk). split; [lia|done].
Qed.

Lemma code_in_range d n p i : dict_ok d n -> d !! p = Some i -> Sequences.code_ok i.
Proof.
  intros (_ & Hn & _ & Hv) Hp. destruct (Hv p i Hp). rewrite max_index in Hn.
  unfold Sequences.code_ok. lia.
Qed.

(** One round of the loop: the register step matches [grow_dict]. *)
Lemma register_step l d n p rest i :
  rep l d -> dict_ok d n -> next_index l = n -> d !! p = Some i -> p <> [] -> Forall is_byte rest ->
  (forall x, head rest = Some x -> d !! (p ++ [x]) = None) ->
  exists l', (if Z.of_nat (length p) + 1 <? Z.of_nat (length (p ++ rest))
              then registerIndex l (p ++ rest) (Z.of_nat (length p) + 1) else Some l) = Some l' /\
    rep l' (grow_dict d n p rest).1 /\ dict_ok (grow_dict d n p rest).1 (grow_dict d n p rest).2 /\
    next_index l' = (grow_dict d n p rest).2.
Proof.
  intros Hr Hok Hn Hp Hpne Hb Hnew. rewrite length_app.
  destruct rest as [|x [|y rest]]; cbn [length grow_dict].
  1, 2: rewrite (proj2 (Z.ltb_ge _ _)) by lia; by exists l.
  rewrite (proj2 (Z.ltb_lt _ _)) by lia. apply Forall_cons in Hb as [Hx _].
  destruct (register_spec l d n p x (y :: rest) i) as (l' & E & H); try done; [by apply Hnew|].
  exists l'. split; [done|]. by destruct (n <=? MAX_INDEX).
Qed.

Lemma encode_loop_spec fuel l d n w src si dest dest_length cs0 :
  rep l d -> dict_ok d n -> next_index l = n -> Sequences.wrote cs0 w dest ->
  Forall is_byte src -> (si <= length src)%nat -> (length src < si + fuel)%nat ->
  exists l' w' si' dest' cs d' n',
    encode_loop fuel l w src (Z.of_nat si) dest dest_length = Some (l', w', Z.of_nat si', dest') /\
    (si <= si' <= length src)%nat /\ Sequences.wrote (cs0 ++ cs) w' dest' /\
    enc_run d n (drop si src) cs (drop si' src) d' n' /\ rep l' d' /\ dict_ok d' n' /\ next_index l' = n' /\
    (si' = length src \/ dest_length <= Z.of_nat (length dest') + INDEX_MAX_WIDTH * 2).
Proof.
  revert l d n w si dest cs0. induction fuel as [|fuel IH];
    intros l d n w si dest cs0 Hr Hok Hn Hw Hb Hsi Hf; [lia|]. cbn [encode_loop].
  destruct (Z.ltb_spec (Z.of_nat si) (Z.of_nat (length src))) as [Hlt|Hge]; cbn [andb].
  2:{ exists l, w, si, dest, [], d, n. rewrite app_nil_r. split_and!; try done; try lia. constructor. }
  destruct (Z.ltb_spec (Z.of_nat (length dest) + INDEX_MAX_WIDTH * 2) dest_length) as [Hd|Hd].
  2:{ exists l, w, si, dest, [], d, n. rewrite app_nil_r. split_and!; try done; try lia. constructor. }
  rewrite Nat2Z.id. set (rest := drop si src).
  assert (Z.of_nat (length src) - Z.of_nat si = Z.of_nat (length rest)) as -> by (unfold rest; rewrite length_drop; lia).
  assert (Forall is_byte rest) as Hbr by (by apply Forall_drop).
  destruct (resolve_spec l d n rest) as (p & rest' & i & Erest & Hpne & Hp & -> & Hnew); try done.
  { intros E. apply (f_equal length) in E. unfold rest in E. rewrite length_drop in E. simpl in E. lia. }
  cbn [mbind option_bind]. rewrite Erest in *. apply Forall_app in Hbr as [_ Hbr].
  destruct (Sequences.wrote_write cs0 w dest i Hw (code_in_range d n p i Hok Hp)) as (w1 & bs & -> & Hw1).
  cbn [mbind option_bind].
  destruct (register_step l d n p rest' i) as (l1 & El1 & Hr1 & Hok1 & Hn1); try done.
  assert (length rest = length p + length rest')%nat as Hlr by (rewrite Erest; apply length_app).
  unfold rest in Hlr. rewrite length_drop in Hlr.
  replace (Z.of_nat si + Z.of_nat (length p) + 1 <? Z.of_nat (length src))
    with (Z.of_nat (length p) + 1 <? Z.of_nat (length (p ++ rest'))).
  2:{ rewrite length_app. destruct (Z.ltb_spec (Z.of_nat (length p) + 1) (Z.of_nat (length p + length rest')));
      symmetry; [apply Z.ltb_lt|apply Z.ltb_ge]; lia. }
  rewrite El1. cbn [mbind option_bind]. rewrite <- Nat2Z.inj_add.
  assert (0 < length p)%nat by (destruct p; [done|simpl; lia]).
  destruct (IH l1 _ _ w1 (si + length p)%nat (dest ++ bs) (cs0 ++ [i]) Hr1 Hok1 Hn1 Hw1 Hb ltac:(lia) ltac:(lia))
    as (l' & w' & si' & dest' & cs & d' & n' & -> & Hsi' & Hw' & Hrun & Hr' & Hok' & Hn' & Hend).
  exists l', w', si', dest', (i :: cs), d', n'. rewrite <- app_assoc in Hw'.
  split_and!; try done; try lia. apply enc_step; try done.
  rewrite <- drop_drop in Hrun. fold rest in Hrun. by rewrite Erest, drop_app_length in Hrun.
Qed.

(** ** [reset] *)

(** The dictionary of the first [k] single bytes. *)
Definition bytes_dict (d : gmap (list Z) Z) (k : Z) : Prop :=
  forall key i, d !! key = Some i <-> key = [i] /\ 0 <= i < k.

Lemma bytes_dict_closed d k : bytes_dict d k -> prefix_closed d.
Proof.
  intros Hd. split.
  - destruct (d !! []) as [i|] eqn:E; [|done]. by apply Hd in E as [? _].
  - intros key n [i Hi] Hn. pose proof Hi as [-> _]%Hd. simpl in Hn. assert (n = 1)%nat as -> by lia. by eexists.
Qed.

Lemma register_bytes_spec todo k l d :
  0 <= k -> k + Z.of_nat todo = 256 -> nav_rep (dictionary l) d -> bytes_dict d k -> next_index l = k ->
  0 <= max_length l -> (0 < k -> 1 <= max_length l) ->
  exists l' d', register_bytes todo k l = Some l' /\ nav_rep (dictionary l') d' /\ bytes_dict d' 256 /\
    next_index l' = 256 /\ 1 <= max_length l'.
Proof.
  revert k l d. induction todo as [|todo IH]; intros k l d Hk Ht Hr Hd Hn Hm Hm1; cbn [register_bytes].
  { assert (k = 256) as -> by lia. exists l, d. split_and!; try done. apply Hm1. lia. }
  assert (u8 (k .& 255) = k) as ->.
  { change 255 with (2 ^ 8 - 1). by rewrite land_ones_wrap, wrap_idemp, wrap_small by lia. }
  unfold registerIndex. rewrite Hn, max_index, (proj2 (Z.leb_le k 16383)) by lia.
  change (take (Z.to_nat 1) [k]) with [k].
  assert (d !! [k] = None) as Hnew.
  { destruct (d !! [k]) as [i|] eqn:E; [|done]. apply Hd in E as [[= <-] ?]. lia. }
  destruct (nav_put_spec (dictionary l) d [k] k) as (m' & b' & -> & Hr'); try done.
  { by eapply bytes_dict_closed. }
  { constructor; [unfold is_byte; lia|done]. }
  { intros n Hn'. simpl in Hn'. lia. }
  cbn [mbind option_bind]. apply (IH (k + 1) _ (<[[k] := k]> d)); simpl; try done; try lia.
  intros key i. destruct (decide (key = [k])) as [->|Hne].
  - rewrite lookup_insert_eq. split; [intros [= <-]; split; [done|lia]|by intros [[= ->] _]].
  - rewrite lookup_insert_ne by done. rewrite (Hd key i). split; intros [-> Hi]; (split; [done|]); [lia|].
    assert (i <> k) by congruence. lia.
Qed.

Lemma bytes_dict_ok d : bytes_dict d 256 -> dict_ok d 256.
Proof.
  intros Hd. split; [by eapply bytes_dict_closed|]. rewrite max_index. split_and!; [lia|lia| |].
  - intros c Hc. by apply Hd.
  - intros key i [-> Hi]%Hd. split; [lia|]. by constructor.
Qed.

Lemma reset_spec l d0 :
  nav_rep (dictionary l) d0 ->
  exists l' d, reset l = Some l' /\ rep l' d /\ bytes_dict d 256 /\ dict_ok d 256 /\ next_index l' = 256.
Proof.
  intros Hr. unfold reset.
  destruct (register_bytes_spec 256 0 (LZW (nav_clear (dictionary l)) 0 0) ∅) as (l' & d & E & Hr' & Hd & Hn & Hm);
    simpl; try lia; try done.
  { by eapply nav_clear_spec. }
  { intros key i. rewrite lookup_empty. split; [done|lia]. }
  exists l', d. split; [exact E|]. split; [split; [done|split; [lia|]]|split; [done|split; [by apply bytes_dict_ok|done]]].
  intros k [i [-> _]%Hd]. simpl. lia.
Qed.

(** ** What [encode] and [compress] return *)

(** The encoder's invariant. *)
Definition good (l : lzw M) : Prop :=
  exists d, rep l d /\ dict_ok d (next_index l).

Lemma reset_good l : good l -> exists l' d, reset l = Some l' /\ rep l' d /\ bytes_dict d 256 /\
  next_index l' = 256 /\ good l'.
Proof.
  intros (d0 & (Hr & _) & _). destruct (reset_spec l d0 Hr) as (l' & d & E & Hr' & Hd & Hok & Hn).
  exists l', d. split_and!; try done; try apply Hr'. exists d. by rewrite Hn.
Qed.

(** [encode] always returns and keeps the invariant; when it reports the
    whole input as compressed, the bytes written are the code of a complete
    run. *)
Lemma encode_spec l d src dest_length :
  rep l d -> dict_ok d (next_index l) -> Forall is_byte src ->
  exists l' si dest, encode l src dest_length = Some (l', (si, dest)) /\ good l' /\
    (src <> [] -> si = Z.of_nat (length src) ->
     exists cs wd code pad d' n', enc_run d (next_index l) src cs [] d' n' /\
       Sequences.emits_all 8 cs wd code /\ 8 <= wd < 30 /\
       bytes_bits dest = code ++ WriterSpec.end_mark wd ++ pad /\ Forall is_byte dest).
Proof.
  intros Hr Hok Hb. unfold encode.
  destruct (encode_loop_spec (S (length src)) l d _ VarIntWriter.init src 0 [] dest_length [] Hr Hok eq_refl
    Sequences.wrote_init Hb ltac:(lia) ltac:(lia)) as
    (l' & w' & si' & dest' & cs & d' & n' & E & Hsi & Hw & Hrun & Hr' & Hok' & Hn' & _).
  change (Z.of_nat 0) with 0 in E. rewrite E. cbn [mbind option_bind].
  assert (good l') as Hgood by (exists d'; by rewrite Hn').
  destruct (_ <? dest_length).
  - destruct (Sequences.wrote_flush _ _ _ Hw) as (w'' & bs & wd & code & pad & -> & He & Hwd & Hbits & Hby).
    cbn [mbind option_bind]. eexists _, _, _. split; [done|]. split; [done|]. intros _ Hlen.
    assert (si' = length src) as -> by lia. rewrite drop_0, (drop_ge src (length src)) in Hrun by lia.
    by exists cs, wd, code, pad, d', n'.
  - eexists _, _, _. split; [done|]. split; [done|]. intros Hne Hlen. destruct src; [done|simpl in Hlen; lia].
Qed.

End EncoderSpec.

End EncoderSpec.
