(* ===== verification/Decompressor.v ===== *)
(** * The decoder of compressed buffers (the analyzer's [Decompressor.java])

    The trace reader that consumes the buffers the VM compressed.  Bytes are
    numbers from 0 to 255; [in.read() & 0xFF] past the end of the buffer
    throws, which is [None] here, as is an access to [last[0]] of an empty
    array. *)

From S2P Require Import Prelude VarInt MapInterface LZW.
From Stdlib Require Import ZArith Lia.

Module Decompressor.

Definition INDEX_MAX_WIDTH : Z := 2.
Definition INDEX_MASK : Z := (1 ≪ (INDEX_MAX_WIDTH * 8)) - 1.
Definition FIRST_CUSTOM_INDEX : Z := 1 ≪ 8.
Definition MAX_INDEX : Z := (Z.lnot 0 .& INDEX_MASK) ≫ INDEX_MAX_WIDTH.

(** [BitwiseVarIntReader]; [input] are the bytes not yet read. *)
Record reader := Reader { input : list Z; width : Z; in_byte_offset : Z; b : Z }.

Definition init (src : list Z) : reader := Reader src 8 8 0.

Fixpoint read_loop (fuel : nat) (r : reader) (value bits : Z) : option (reader * Z) :=
  match fuel with
  | O => None
  | S fuel' =>
      r ← (if in_byte_offset r =? 8 then
             match input r with
             | [] => None
             | c :: rest => Some (Reader rest (width r) 0 (c .& 255))
             end
           else Some r);
      let bits_to_read := Z.min (8 - in_byte_offset r) bits in
      let value_part_mask := s32 (1 ≪ bits_to_read) - 1 in
      let value_part := (b r ≫ (8 - in_byte_offset r - bits_to_read)) .& value_part_mask in
      let value := value .| s32 (value_part ≪ (bits - bits_to_read)) in
      let bits := bits - bits_to_read in
      let r := Reader (input r) (width r) (in_byte_offset r + bits_to_read) (b r) in
      if 0 <? bits then read_loop fuel' r value bits else Some (r, value)
  end.

Definition read (r : reader) : option (reader * Z) :=
  read_loop (S (Z.to_nat (width r))) r 0 (width r).

(** After a marker the width grows and the next value is read; a zero there
    is the end mark. *)
Fixpoint next_rec (fuel : nat) (r : reader) : option (reader * Z) :=
  match fuel with
  | O => None
  | S fuel' =>
      '(r, value) ← read r;
      if value =? s32 (1 ≪ width r) - 1 then
        '(r, value) ← next_rec fuel' (Reader (input r) (width r + 1) (in_byte_offset r) (b r));
        if value =? 0 then Some (r, -1) else Some (r, value)
      else Some (r, value)
  end.

(** The width stays below 32, which bounds the recursion. *)
Definition next (r : reader) : option (reader * Z) := next_rec 32 r.

Record state := State { dictionary : gmap Z (list Z); nextIndex : Z; last : list Z }.

Definition init_state : state := State ∅ FIRST_CUSTOM_INDEX [].

Definition registerIndex (s : state) (current : list Z) : option (gmap Z (list Z) * Z) :=
  if negb (Z.of_nat (length (last s)) =? 0) && (nextIndex s <=? MAX_INDEX) then
    c ← current !! 0%nat;
    Some (<[nextIndex s := last s ++ [c]]> (dictionary s), nextIndex s + 1)
  else Some (dictionary s, nextIndex s).

(** The body of the loop of [decode]: the bytes written and the next state. *)
Definition decode_index (s : state) (index : Z) : option (list Z * state) :=
  '(current, written, mergeLastWithCurrent) ←
    (if index <? FIRST_CUSTOM_INDEX then Some ([index .& 255], [], false)
     else match dictionary s !! index with
          | Some current => Some (current, [], false)
          | None => c ← last s !! 0%nat; Some ([c], last s, true)
          end);
  '(d, n) ← registerIndex s current;
  Some (written ++ current,
        State d n (if mergeLastWithCurrent : bool then last s ++ current else current)).

Fixpoint decode_loop (fuel : nat) (limit : Z) (r : reader) (s : state) (dest : list Z) : option (list Z) :=
  match fuel with
  | O => None
  | S fuel' =>
      '(r, index) ← next r;
      if (0 <=? index) && (Z.of_nat (length dest) <? limit) then
        '(bs, s) ← decode_index s index;
        decode_loop fuel' limit r s (dest ++ bs)
      else Some dest
  end.

(** Every code takes at least eight bits. *)
Definition decode (limit : Z) (src : list Z) : option (list Z) :=
  decode_loop (S (length src)) limit (init src) init_state [].

End Decompressor.

Module DecoderSpec.
Import Decompressor.

(** ** The reader *)

Definition stream (r : reader) : list bool :=
  ReaderSpec.stream (b r :: input r) 0 (Z.to_nat (in_byte_offset r)).

Definition reader_ok (r : reader) : Prop := 0 <= in_byte_offset r <= 8 /\ Forall is_byte (input r).

Lemma part_eq (c off k : Z) :
  0 <= off -> 0 < k -> off + k <= 8 ->
  (c ≫ (8 - off - k)) .& (s32 (1 ≪ k) - 1) = u8 ((c ≫ (8 - off - k)) .& u8 (u32 (1 ≪ k) - 1)).
Proof.
  intros Ho Hk Hok. assert (2 ^ k <= 2 ^ 8) by (apply Z.pow_le_mono_r; lia). pose proof (pow2_pos k).
  rewrite shiftl_1, (swrap_small 32 (2 ^ k)), (wrap_small 32 (2 ^ k)), (wrap_small 8 (2 ^ k - 1)) by (simpl in *; lia).
  rewrite land_ones_wrap by lia. pose proof (wrap_range k (c ≫ (8 - off - k))). symmetry. apply wrap_small. lia.
Qed.

Lemma byte_mask c : is_byte c -> c .& 255 = c.
Proof.
  intros Hc. change 255 with (2 ^ 8 - 1). rewrite land_ones_wrap by lia. by apply wrap_small.
Qed.

(** The or-ed value stays below 2^30, where [int] arithmetic does not wrap. *)
Lemma value_eq h bits k c off :
  0 <= h -> (h + 1) * 2 ^ bits <= 2 ^ 30 -> 0 <= off -> 0 < k <= bits -> off + k <= 8 ->
  let part := u8 ((c ≫ (8 - off - k)) .& u8 (u32 (1 ≪ k) - 1)) in
  h * 2 ^ bits .| s32 (part ≪ (bits - k)) = u32 (h * 2 ^ bits .| (part ≪ (bits - k))).
Proof.
  intros Hh Hm Ho Hk Hok part. pose proof (pow2_pos bits).
  assert (0 <= part < 2 ^ k) as Hp.
  { unfold part. rewrite ReaderSpec.part_value by lia.
    pose proof (bits_val_range (bits_of (Z.to_nat k) (c ≫ Z.of_nat (8 - Z.to_nat off - Z.to_nat k)))) as Hr.
    by rewrite bits_of_length, Z2Nat.id in Hr by lia. }
  assert (0 <= part * 2 ^ (bits - k) < 2 ^ 30) as Hs.
  { assert (2 ^ bits = 2 ^ k * 2 ^ (bits - k)) as E by (rewrite <- Z.pow_add_r by lia; f_equal; lia).
    pose proof (pow2_pos (bits - k)). nia. }
  pose proof (lor_range 30 (h * 2 ^ bits) (part * 2 ^ (bits - k)) ltac:(nia) Hs).
  by rewrite Z.shiftl_mul_pow2, swrap_small, wrap_small by lia.
Qed.

Lemma read_loop_spec fuel r h bits bs rest :
  reader_ok r -> 0 < bits -> (Z.to_nat bits < fuel)%nat ->
  stream r = bs ++ rest -> length bs = Z.to_nat bits -> 0 <= h -> (h + 1) * 2 ^ bits <= 2 ^ 30 ->
  exists r', read_loop fuel r (h * 2 ^ bits) bits = Some (r', h * 2 ^ bits + bits_val bs) /\
    reader_ok r' /\ width r' = width r /\ stream r' = rest.
Proof.
  revert r h bits bs. induction fuel as [|fuel IH]; intros r h bits bs Hr Hb Hf Hs Hl Hh Hm; [lia|].
  cbn [read_loop].
  assert (exists r1, (if in_byte_offset r =? 8 then
      match input r with [] => None | c :: rest => Some (Reader rest (width r) 0 (c .& 255)) end else Some r) = Some r1 /\
      reader_ok r1 /\ in_byte_offset r1 < 8 /\ width r1 = width r /\ stream r1 = bs ++ rest) as (r1 & -> & Hr1 & Ho1 & Hw1 & Hs1).
  { destruct Hr as [Ho Hi]. destruct (Z.eqb_spec (in_byte_offset r) 8) as [E|E].
    - unfold stream in Hs. rewrite E in Hs. change (Z.to_nat 8) with 8%nat in Hs. rewrite ReaderSpec.stream_next in Hs.
      destruct (input r) as [|c inp] eqn:Ei.
      { symmetry in Hs. apply app_eq_nil in Hs as [-> _]. simpl in Hl. lia. }
      apply Forall_cons in Hi as [Hc Hi]. rewrite byte_mask by done.
      eexists. split; [done|]. split_and!; simpl; try done; lia.
    - exists r. split_and!; try done; lia. }
  cbn [mbind option_bind]. destruct Hr1 as [Ho1' Hi1].
  destruct (ReaderSpec.read_round (2 ^ 30) (b r1 :: input r1) 0 (in_byte_offset r1) h bits bs rest (b r1) eq_refl ltac:(lia) Hb Hs1 Hl Hh Hm)
    as (h' & bs2 & Ev & Hh' & Hm' & Hv & Hl2 & Hs2); [lia|].
  set (k := Z.min (8 - in_byte_offset r1) bits) in *.
  rewrite part_eq by lia. rewrite (value_eq h bits k) by (done || lia). rewrite Ev, <- Hv.
  destruct (Z.ltb_spec 0 (bits - k)).
  - destruct (IH (Reader (input r1) (width r1) (in_byte_offset r1 + k) (b r1)) h' (bits - k) bs2)
      as (r' & -> & Hr' & Hw' & Hs'); try done; try lia.
    { split; simpl; [lia|done]. }
    exists r'. split_and!; try done; try apply Hr'. by rewrite Hw'.
  - replace (bits - k) with 0 in * by lia. destruct bs2; [|done].
    eexists. split; [by rewrite Z.add_0_r|]. split; [split; [simpl; lia|done]|]. split; [done|exact Hs2].
Qed.

Lemma read_spec r bs rest :
  reader_ok r -> 8 <= width r <= 30 -> stream r = bs ++ rest -> length bs = Z.to_nat (width r) ->
  exists r', read r = Some (r', bits_val bs) /\ reader_ok r' /\ width r' = width r /\ stream r' = rest.
Proof.
  intros Hr Hw Hs Hl. unfold read.
  apply (read_loop_spec (S (Z.to_nat (width r))) r 0 (width r) bs rest); try done; try lia.
  rewrite Z.mul_1_l. apply Z.pow_le_mono_r; lia.
Qed.

Lemma java_marker w : 0 <= w < 31 -> s32 (1 ≪ w) - 1 = 2 ^ w - 1.
Proof.
  intros Hw. assert (2 ^ w <= 2 ^ 30) by (apply Z.pow_le_mono_r; lia). pose proof (pow2_pos w).
  by rewrite shiftl_1, swrap_small by (simpl in *; lia).
Qed.

Lemma read_width r n v rest :
  reader_ok r -> 8 <= width r <= 30 -> n = Z.to_nat (width r) -> 0 <= v < 2 ^ width r ->
  stream r = bits_of n v ++ rest ->
  exists r', read r = Some (r', v) /\ reader_ok r' /\ width r' = width r /\ stream r' = rest.
Proof.
  intros Hr Hw -> Hv Hs. destruct (read_spec r _ _ Hr Hw Hs) as (r' & E & H); [apply bits_of_length|].
  rewrite bits_val_of, Z2Nat.id, wrap_small in E by lia. eauto.
Qed.

(** One emitted integer is read back; it is not taken for the end mark
    because a widened value is at least 254. *)
Lemma next_rec_emits fuel r v wd bs rest :
  WriterSpec.emits (width r) v wd bs -> 8 <= width r -> wd < 30 -> reader_ok r ->
  stream r = bs ++ rest -> wd - width r < Z.of_nat fuel ->
  exists r', next_rec fuel r = Some (r', v) /\ reader_ok r' /\ width r' = wd /\ stream r' = rest.
Proof.
  intros He. remember (width r) as w eqn:Ew. revert r fuel Ew.
  induction He as [w v Hv|w v w' bs Hv He IH]; intros r fuel -> Hw Hwd Hr Hs Hf.
  - destruct fuel as [|fuel]; [lia|]. cbn [next_rec].
    destruct (read_width r _ v rest Hr ltac:(lia) eq_refl ltac:(lia) Hs) as (r1 & -> & Hr1 & Hw1 & Hs1).
    cbn [mbind option_bind]. rewrite Hw1, java_marker, (proj2 (Z.eqb_neq v _)) by lia. eauto.
  - apply WriterSpec.emits_width in He as Hle. destruct fuel as [|fuel]; [lia|]. cbn [next_rec].
    rewrite <- app_assoc in Hs. pose proof (pow2_pos (width r)).
    destruct (read_width r _ (2 ^ width r - 1) _ Hr ltac:(lia) eq_refl ltac:(lia) Hs) as (r1 & -> & Hr1 & Hw1 & Hs1).
    cbn [mbind option_bind]. rewrite Hw1, java_marker, Z.eqb_refl by lia.
    destruct (IH (Reader (input r1) (width r + 1) (in_byte_offset r1) (b r1)) fuel) as (r2 & -> & H2); try done; try lia.
    cbn [mbind option_bind]. assert (2 ^ 8 <= 2 ^ width r) by (apply Z.pow_le_mono_r; lia).
    rewrite (proj2 (Z.eqb_neq v 0)) by lia. eauto.
Qed.

Lemma next_emits r v wd bs rest :
  WriterSpec.emits (width r) v wd bs -> 8 <= width r -> wd < 30 -> reader_ok r -> stream r = bs ++ rest ->
  exists r', next r = Some (r', v) /\ reader_ok r' /\ width r' = wd /\ stream r' = rest.
Proof. intros. apply next_rec_emits with bs; try done. lia. Qed.

Lemma next_end r rest :
  8 <= width r < 30 -> reader_ok r -> stream r = WriterSpec.end_mark (width r) ++ rest ->
  exists r', next r = Some (r', -1).
Proof.
  intros Hw Hr Hs. unfold WriterSpec.end_mark in Hs. rewrite <- app_assoc in Hs. pose proof (pow2_pos (width r)).
  destruct (read_width r _ (2 ^ width r - 1) _ Hr ltac:(lia) eq_refl ltac:(lia) Hs) as (r1 & E1 & Hr1 & Hw1 & Hs1).
  unfold next. change 32%nat with (S (S 30)). cbn [next_rec]. rewrite E1. cbn [mbind option_bind].
  rewrite Hw1, java_marker, Z.eqb_refl by lia. pose proof (pow2_pos (width r + 1)).
  destruct (read_width (Reader (input r1) (width r + 1) (in_byte_offset r1) (b r1))
    (Z.to_nat (width r + 1)) 0 rest Hr1)
    as (r2 & E2 & _ & Hw2 & _); simpl; try done; try lia.
  rewrite E2. cbn [mbind option_bind]. rewrite Hw2. cbn [width].
  assert (2 ^ 1 <= 2 ^ (width r + 1)) by (apply Z.pow_le_mono_r; lia).
  rewrite java_marker, (proj2 (Z.eqb_neq 0 _)) by lia. simpl. eauto.
Qed.

(** ** The decoder's dictionary follows the encoder's

    The decoder is one entry behind: [pend] is the entry the encoder has
    registered last, which the decoder completes with the next code. *)

Definition known (d : gmap (list Z) Z) (s : state) (pend : option (list Z)) : Prop :=
  (forall k i, d !! k = Some i <->
    (k = [i] /\ is_byte i) \/ dictionary s !! i = Some k \/ (pend = Some k /\ i = nextIndex s)) /\
  (forall i k, dictionary s !! i = Some k -> 256 <= i < nextIndex s) /\ 256 <= nextIndex s.

Definition related (d : gmap (list Z) Z) (n : Z) (s : state) (rest : list Z) (pend : option (list Z)) : Prop :=
  known d s pend /\
  match pend with
  | Some e => last s <> [] /\ n = nextIndex s + 1 /\ nextIndex s <= MAX_INDEX /\
              exists x, head rest = Some x /\ e = last s ++ [x]
  | None => (n = nextIndex s /\ (last s = [] \/ MAX_INDEX < n)) \/ (length rest <= 1)%nat
  end.

Fixpoint decode_codes (s : state) (cs : list Z) : option (list Z) :=
  match cs with
  | [] => Some []
  | i :: cs => '(bs, s) ← decode_index s i; out ← decode_codes s cs; Some (bs ++ out)
  end.

(** What the decoder registers for a code whose string is [p]. *)
Definition registered (s : state) (x : Z) : gmap Z (list Z) * Z :=
  if negb (Z.of_nat (length (last s)) =? 0) && (nextIndex s <=? MAX_INDEX)
  then (<[nextIndex s := last s ++ [x]]> (dictionary s), nextIndex s + 1)
  else (dictionary s, nextIndex s).

(** The decoder turns the code of [p] into [p], for all three kinds of
    codes. *)
Lemma decode_index_spec d n s p rest i pend :
  related d n s (p ++ rest) pend -> d !! p = Some i -> p <> [] ->
  exists x, head p = Some x /\
    decode_index s i = Some (p, State (registered s x).1 (registered s x).2 p).
Proof.
  intros [(Hk & Hdom & Hm) Hp] Hi Hne. unfold decode_index. change FIRST_CUSTOM_INDEX with 256.
  apply Hk in Hi as [[-> Hb]|[Hi|[-> ->]]].
  - exists i. unfold is_byte in Hb. rewrite (proj2 (Z.ltb_lt _ _)), byte_mask by (unfold is_byte; lia).
    split; [done|]. cbn [mbind option_bind]. unfold registerIndex, registered. by destruct (_ && _).
  - destruct (Hdom _ _ Hi) as [Hlo _]. rewrite (proj2 (Z.ltb_ge _ _)), Hi by lia. cbn [mbind option_bind].
    destruct p as [|x p]; [done|]. exists x. split; [done|].
    unfold registerIndex, registered. by destruct (_ && _).
  - destruct Hp as (Hl & _ & Hmax & x & Hx & ->). rewrite (proj2 (Z.ltb_ge _ _)) by lia.
    assert (dictionary s !! nextIndex s = None) as ->.
    { destruct (dictionary s !! nextIndex s) eqn:E; [|done]. apply Hdom in E. lia. }
    destruct (last s) as [|y l] eqn:El; [done|]. simpl in Hx. simplify_eq. exists x. split; [done|].
    cbn [lookup list_lookup mbind option_bind]. unfold registerIndex, registered. rewrite El.
    by destruct (_ && _).
Qed.

(** After registering, the decoder knows all the encoder knew before this
    code. *)
Lemma registered_known d n s p rest pend x :
  related d n s (p ++ rest) pend -> p <> [] -> rest <> [] -> head p = Some x ->
  exists D, registered s x = (D, n) /\ known d (State D n p) None.
Proof.
  intros [(Hk & Hdom & Hm) Hp] Hne Hrest Hx. unfold registered. destruct pend as [e|].
  - destruct Hp as (Hl & -> & Hmax & x' & Hx' & ->).
    assert (x' = x) as -> by (destruct p; [done|]; simpl in *; congruence).
    rewrite (proj2 (Z.leb_le _ _)) by done.
    rewrite (proj2 (Z.eqb_neq (Z.of_nat (length (last s))) 0)) by (destruct (last s); [done|simpl; lia]).
    cbn [negb andb]. eexists. split; [done|].
    assert (dictionary s !! nextIndex s = None) as Hnone.
    { destruct (dictionary s !! nextIndex s) eqn:E; [|done]. apply Hdom in E. lia. }
    split; [|split; [|simpl; lia]]; simpl.
    + intros k i. rewrite Hk. destruct (decide (i = nextIndex s)) as [->|Hi].
      * rewrite lookup_insert_eq, Hnone. split; [|intros [?|[[= <-]|[? _]]]; done || tauto].
        intros [?|[?|[[= <-] _]]]; done || tauto.
      * rewrite lookup_insert_ne by done. split; intros [?|[?|[? ?]]]; tauto || done.
    + intros i k Hi. apply lookup_insert_Some in Hi as [[<- _]|[_ Hi]]; [lia|]. apply Hdom in Hi. lia.
  - assert (n = nextIndex s /\ (last s = [] \/ MAX_INDEX < n)) as [-> Hc].
    { destruct Hp as [|Hlen]; [done|]. rewrite length_app in Hlen. destruct p, rest; simpl in Hlen; done || lia. }
    exists (dictionary s). split; [|done]. destruct Hc as [->|Hc]; [done|].
    rewrite (proj2 (Z.leb_gt _ _)) by lia. by rewrite andb_false_r.
Qed.

Lemma grow_related d n s p rest pend x :
  related d n s (p ++ rest) pend -> p <> [] -> rest <> [] -> head p = Some x ->
  (forall y, head rest = Some y -> d !! (p ++ [y]) = None) ->
  exists pend', related (EncoderSpec.grow_dict d n p rest).1 (EncoderSpec.grow_dict d n p rest).2
    (State (registered s x).1 (registered s x).2 p) rest pend'.
Proof.
  intros Hr Hne Hrest Hx Hnew.
  destruct (registered_known d n s p rest pend x Hr Hne Hrest Hx) as (D & -> & Hkn). cbn [fst snd].
  destruct rest as [|y [|z rest]]; [done|..]; cbn [EncoderSpec.grow_dict fst snd].
  { exists None. split; [done|right; simpl; lia]. }
  change CompressionDefinitions.MAX_INDEX with MAX_INDEX. destruct (Z.leb_spec n MAX_INDEX); cbn [fst snd].
  2:{ exists None. split; [done|left; simpl; split; [done|right; lia]]. }
  exists (Some (p ++ [y])). split; [|simpl; split_and!; try done; by exists y].
  destruct Hkn as (Hk & Hdom & Hm). split; [|done]. simpl in *. intros k i.
  assert (d !! (p ++ [y]) = None) as Hq by (by apply Hnew).
  destruct (decide (k = p ++ [y])) as [->|Hkne].
  - rewrite lookup_insert_eq. split; [intros [= <-]; by right; right|].
    intros [[E _]|[E|[_ ->]]]; [by destruct p as [|? [|]]| |done].
    assert (d !! (p ++ [y]) = Some i) by (apply Hk; by right; left). congruence.
  - rewrite lookup_insert_ne by done. rewrite Hk. split; intros [?|[?|[E ?]]]; try tauto; [done|].
    congruence.
Qed.

(** The run of the encoder is undone by the decoder. *)
Lemma decode_codes_spec d n input cs rest d' n' s pend :
  EncoderSpec.enc_run d n input cs rest d' n' -> rest = [] -> related d n s input pend ->
  decode_codes s cs = Some input.
Proof.
  intros Hrun. revert s pend. induction Hrun as [d n rest|d n p i rest cs rest' d' n' Hne Hi Hnew Hrun IH];
    intros s pend Hend Hr; [by subst|]. cbn [decode_codes].
  destruct (decode_index_spec d n s p rest i pend Hr Hi Hne) as (x & Hx & ->). cbn [mbind option_bind].
  destruct (decide (rest = [])) as [->|Hrest].
  - inversion Hrun as [|? ? p' ? rest1 ? ? ? ? Hne' ? ? ? E]; subst; [done|].
    by destruct p'.
  - destruct (grow_related d n s p rest pend x Hr Hne Hrest Hx Hnew) as [pend' Hr'].
    by rewrite (IH _ pend' Hend Hr').
Qed.

(** ** Decoding the bytes *)

Lemma emits_nonneg w v wd bs : 8 <= w -> WriterSpec.emits w v wd bs -> 0 <= v.
Proof.
  intros Hw H. destruct H as [w v Hv|w v w' bs Hv _]; [lia|].
  assert (2 ^ 8 <= 2 ^ w) by (apply Z.pow_le_mono_r; lia). lia.
Qed.

Lemma emits_all_length w cs wd code :
  8 <= w -> Sequences.emits_all w cs wd code -> (8 * length cs <= length code)%nat.
Proof.
  intros Hw H. induction H as [|w v w1 bs1 vs w2 bs2 He Hes IH]; [simpl; lia|].
  pose proof (WriterSpec.emits_length w v w1 bs1 ltac:(lia) He). apply WriterSpec.emits_width in He.
  rewrite length_app. cbn [length]. specialize (IH ltac:(lia)). lia.
Qed.

Lemma decode_loop_spec fuel limit r s cs wd code pad dest out :
  Sequences.emits_all (width r) cs wd code -> 8 <= width r -> wd < 30 -> reader_ok r ->
  stream r = code ++ WriterSpec.end_mark wd ++ pad -> decode_codes s cs = Some out ->
  Z.of_nat (length dest + length out) < limit -> (length cs < fuel)%nat ->
  decode_loop fuel limit r s dest = Some (dest ++ out).
Proof.
  intros He. remember (width r) as w eqn:Ew. revert fuel r s dest out Ew.
  induction He as [w|w v w1 bs1 vs w2 bs2 He Hes IH]; intros fuel r s dest out -> Hw Hwd Hr Hs Hd Hlim Hf;
    (destruct fuel as [|fuel]; [lia|]); cbn [decode_loop decode_codes] in *.
  - simplify_eq. destruct (next_end r pad ltac:(lia) Hr Hs) as (r' & ->). simpl. by rewrite app_nil_r.
  - apply Sequences.emits_all_width in Hes as Hle. rewrite <- app_assoc in Hs.
    destruct (next_emits r v w1 bs1 _ He ltac:(lia) ltac:(lia) Hr Hs) as (r1 & -> & Hr1 & Hw1 & Hs1).
    destruct (decode_index s v) as [[bs s1]|] eqn:Ei; [|done]. cbn [mbind option_bind] in *.
    destruct (decode_codes s1 vs) as [out1|] eqn:Ec; [|done]. cbn [mbind option_bind] in *. simplify_eq.
    rewrite length_app in Hlim. rewrite (proj2 (Z.leb_le 0 v)) by (by eapply emits_nonneg).
    rewrite (proj2 (Z.ltb_lt _ _)) by lia. cbn [andb mbind option_bind].
    apply WriterSpec.emits_width in He. rewrite app_assoc.
    rewrite Ei. cbn [mbind option_bind]. apply IH; try done; try lia; cbn [length] in *; [rewrite length_app; lia|lia].
Qed.

(** Decoding the bytes of a complete run gives the input back. *)
Lemma decode_spec limit input cs wd code pad src d d' n' :
  EncoderSpec.bytes_dict d 256 -> EncoderSpec.enc_run d 256 input cs [] d' n' ->
  Sequences.emits_all 8 cs wd code -> 8 <= wd < 30 ->
  bytes_bits src = code ++ WriterSpec.end_mark wd ++ pad -> Forall is_byte src ->
  Z.of_nat (length input) < limit ->
  decode limit src = Some input.
Proof.
  intros Hd Hrun He Hwd Hbits Hb Hlim. unfold decode.
  assert (related d 256 init_state input None) as Hrel.
  { split; [|left; split; [done|by left]]. split; [|done]. simpl. intros k i. rewrite (Hd k i), lookup_empty.
    unfold is_byte. split; [tauto|]. intros [?|[?|[? _]]]; done. }
  pose proof (decode_codes_spec _ _ _ _ _ _ _ _ _ Hrun eq_refl Hrel) as Hc.
  apply (decode_loop_spec _ limit (init src) init_state cs wd code pad [] input); try done; try lia.
  pose proof (emits_all_length 8 cs wd code ltac:(lia) He) as Hl. apply (f_equal length) in Hbits.
    rewrite WriterSpec.bytes_bits_length, length_app in Hbits. lia.
Qed.

End DecoderSpec.
