(* ===== verification/QuyteTree.v ===== *)
(** * Compression with a tree of bit pairs ([prims/QuyteTreeCompression.cpp])

    The compressor that is used unless [TraceObjectsCompressTraceUseLZW] is
    set. Strings are paths in a tree of nodes with four children, two bits of
    a byte at a time; the nodes are in an array that is cleared after each
    buffer. Accesses outside of the array are [None]. *)

From stdpp Require Import gmap.
From S2P Require Import Prelude VarInt MapInterface LZW Decompressor.
From Stdlib Require Import ZArith Lia.

Module QuyteTreeCompression.
Import CompressionDefinitions.

Record QuyteNode := Node { nodeID : Z; children : list Z }.

Definition zero_node : QuyteNode := Node 0 [0; 0; 0; 0].
Definition sizeof_QuyteNode : Z := 10.

(** The number of nodes, which the code multiplies by the size of a node. *)
Definition maximumNodes (bufferSize : Z) : Z :=
  let '(nodes, bufferSize) :=
    if bufferSize <=? 1024 then (256 + bufferSize * 4, 0) else (256 + 1024 * 4, bufferSize - 1024) in
  let '(nodes, bufferSize) :=
    if 0 <? bufferSize then
      if bufferSize <=? 1024 * 3 then (nodes + bufferSize * 3, 0) else (nodes + 1024 * 3 * 4, bufferSize - 1024 * 3)
    else (nodes, bufferSize) in
  nodes + bufferSize * 2.

Definition requiredStorageForBufferSize (bufferSize : Z) : Z := maximumNodes bufferSize * sizeof_QuyteNode.

(** The compressor between buffers: the nodes that are not all zero, the
    size of the storage in bytes and the length it is for. *)
Record quyte := Quyte { tempStorage : gmap Z QuyteNode; storage_size : Z; tempStorageLength : Z }.

Definition make : quyte := Quyte ∅ 0 0.

Section Run.
(** The size of the storage. *)
Variable size : Z.

Definition in_storage (i : Z) : bool := (0 <=? i) && ((i + 1) * sizeof_QuyteNode <=? size).

Definition read_node (nodes : gmap Z QuyteNode) (i : Z) : option QuyteNode :=
  if in_storage i then Some (default zero_node (nodes !! i)) else None.

Definition write_node (nodes : gmap Z QuyteNode) (i : Z) (n : QuyteNode) : option (gmap Z QuyteNode) :=
  if in_storage i then Some (<[i := n]> nodes) else None.

(** One step of two bits: the child of [current], created if there is none;
    the flag tells whether it was. *)
Definition next_node (nodes : gmap Z QuyteNode) (nodeCount current quyte : Z) :
    option (gmap Z QuyteNode * Z * Z * bool) :=
  n ← read_node nodes current;
  nextNodeID ← children n !! Z.to_nat quyte;
  if nextNodeID =? 0 then
    let nextNodeID := u16 nodeCount in
    nodes ← write_node nodes current (Node (nodeID n) (<[Z.to_nat quyte := nextNodeID]> (children n)));
    Some (nodes, nodeCount + 1, nextNodeID, true)
  else Some (nodes, nodeCount, nextNodeID, false).

(** The pairs of bits of a byte, from the most significant. *)
Definition quytes (byte : Z) : list Z := [byte ≫ 6; (byte ≫ 4) .& 3; (byte ≫ 2) .& 3; byte .& 3].

Fixpoint find_or_create (nodes : gmap Z QuyteNode) (nodeCount current : Z) (qs : list Z) (created : bool) :
    option (gmap Z QuyteNode * Z * Z * bool) :=
  match qs with
  | [] => Some (nodes, nodeCount, current, created)
  | q :: qs =>
      '(nodes, nodeCount, current, created) ← next_node nodes nodeCount current q;
      find_or_create nodes nodeCount current qs created
  end.

(** The state of the loop. *)
Record run := Run {
  nodeArray : gmap Z QuyteNode;
  nodeCount : Z;
  nextID : Z;
  lastMatchID : Z;
  currentNode : Z;
  writer : VarIntWriter.writer;
  output : list Z;
}.

Definition room (outputLength : Z) (out : list Z) : bool := Z.of_nat (length out) + INDEX_MAX_WIDTH * 2 <? outputLength.

(** The bytes of the input one after the other; the result has the bytes
    that are left when the output is full. *)
Fixpoint encode_loop (outputLength : Z) (input : list Z) (s : run) : option (run * list Z) :=
  match input with
  | [] => Some (s, [])
  | byte :: rest =>
      if room outputLength (output s) then
        '(nodes, count, node, created) ← find_or_create (nodeArray s) (nodeCount s) (currentNode s) (quytes byte) false;
        n ← read_node nodes node;
        if created : bool then
          nodes ← write_node nodes node (Node (u16 (nextID s)) (children n));
          '(w, bs) ← VarIntWriter.write (writer s) (lastMatchID s);
          encode_loop outputLength rest (Run nodes count (nextID s + 1) byte byte w (output s ++ bs))
        else encode_loop outputLength rest (Run nodes count (nextID s) (nodeID n) node (writer s) (output s))
      else Some (s, byte :: rest)
  end.

End Run.

(** [Result]: the length of the input that was compressed, and the bytes
    written. Reading the first byte of an empty input is [None]. *)
Definition encode (q : quyte) (src : list Z) (outputLength : Z) : option (quyte * (Z * list Z)) :=
  let inputLength := Z.of_nat (length src) in
  let q := if tempStorageLength q <? inputLength then Quyte ∅ (requiredStorageForBufferSize inputLength) inputLength else q in
  match src with
  | [] => None
  | byte :: rest =>
      '(s, unread) ← encode_loop (storage_size q) outputLength rest
        (Run (tempStorage q) 256 256 byte byte VarIntWriter.init []);
      let consumed := inputLength - Z.of_nat (length unread) in
      '(w, out, consumed) ←
        (if negb (lastMatchID s =? 65535) then
           if room outputLength (output s) then
             '(w, bs) ← VarIntWriter.write (writer s) (lastMatchID s); Some (w, output s ++ bs, consumed)
           else Some (writer s, output s, 0)
         else Some (writer s, output s, consumed));
      let q := Quyte (filter (fun kv => nodeCount s <= kv.1) (nodeArray s)) (storage_size q) (tempStorageLength q) in
      if room outputLength out then
        '(_, bs) ← VarIntWriter.flush w; Some (q, (consumed, out ++ bs))
      else Some (q, (0, out))
  end.

(** [Compression::encode] with this compressor. *)
Definition compress (q : quyte) (src : list Z) (dest_capacity : Z) : option (quyte * option (list Z)) :=
  '(q, (src_compressed_length, dest)) ← encode q src dest_capacity;
  if Z.of_nat (length dest) <=? dest_capacity then
    Some (q, if src_compressed_length =? Z.of_nat (length src) then Some dest else None)
  else None.

End QuyteTreeCompression.

(** ** The tree *)

Module QuyteSpec.
Import CompressionDefinitions QuyteTreeCompression.

Definition is_quyte (q : Z) : Prop := 0 <= q < 4.

(** Paths: a byte and the pairs of bits after it. *)
Definition key_ok (k : list Z) : Prop := exists b qs, k = b :: qs /\ is_byte b /\ Forall is_quyte qs.

Definition node_at (nodes : gmap Z QuyteNode) (i : Z) : QuyteNode := default zero_node (nodes !! i).

(** [P] maps the paths of the tree to nodes. *)
Record tree_ok (nodes : gmap Z QuyteNode) (count : Z) (P : gmap (list Z) Z) : Prop := {
  tree_root : forall b, is_byte b -> P !! [b] = Some b;
  tree_key : forall k i, P !! k = Some i -> key_ok k /\ 0 <= i < count /\ (length k = 1%nat \/ 256 <= i);
  tree_inj : forall k k' i, P !! k = Some i -> P !! k' = Some i -> k = k';
  tree_child : forall k i q, P !! k = Some i -> is_quyte q ->
    children (node_at nodes i) !! Z.to_nat q = Some (default 0 (P !! (k ++ [q])));
  tree_closed : forall k q, k <> [] -> is_Some (P !! (k ++ [q])) -> is_Some (P !! k);
  tree_count : 256 <= count;
  tree_zero : forall i, count <= i -> nodes !! i = None;
}.

Lemma node_at_insert nodes i n j : node_at (<[i := n]> nodes) j = if decide (i = j) then n else node_at nodes j.
Proof. unfold node_at. destruct (decide (i = j)) as [->|H]; [by rewrite lookup_insert_eq|by rewrite lookup_insert_ne]. Qed.

Lemma snoc_inj_l {A} (k k' : list A) q q' : k ++ [q] = k' ++ [q'] -> k = k' /\ q = q'.
Proof. intros H. by apply app_inj_tail in H. Qed.

(** A new child. *)
Lemma tree_insert nodes count P k cur q :
  tree_ok nodes count P -> P !! k = Some cur -> is_quyte q -> P !! (k ++ [q]) = None ->
  tree_ok (<[cur := Node (nodeID (node_at nodes cur)) (<[Z.to_nat q := count]> (children (node_at nodes cur)))]> nodes)
    (count + 1) (<[k ++ [q] := count]> P).
Proof.
  intros Ht Hk Hq Hnew. pose proof (tree_count _ _ _ Ht) as Hc. destruct (tree_key _ _ _ Ht k cur Hk) as ((b & qs & Hkk & Hb & Hqs) & Hcur & _).
  assert (k <> []) as Hkne by (by subst k).
  assert (forall k' i, P !! k' = Some i -> k' <> k ++ [q]) as Hne by (intros k' i Hi ->; congruence).
  assert (forall k', P !! k' = Some count -> False) as Hfresh by (intros k' Hi; destruct (tree_key _ _ _ Ht k' _ Hi); lia).
  split.
  - intros b' Hb'. rewrite lookup_insert_ne; [by apply (tree_root _ _ _ Ht)|]. subst k. by destruct qs.
  - intros k' i Hi. apply lookup_insert_Some in Hi as [[<- <-]|[_ Hi]].
    + split_and!; [|lia|lia|right; lia]. exists b, (qs ++ [q]). subst k. split_and!; [done|done|]. apply Forall_app. split; [done|by apply Forall_singleton].
    + destruct (tree_key _ _ _ Ht k' i Hi) as (? & ? & ?). split_and!; [done|lia|lia|done].
  - intros k1 k2 i H1 H2. apply lookup_insert_Some in H1. apply lookup_insert_Some in H2.
    destruct H1 as [[<- <-]|[_ H1]], H2 as [[E1 E2]|[_ H2]]; [done|by destruct (Hfresh k2)| |by apply (tree_inj _ _ _ Ht k1 k2 i)].
    subst i. by destruct (Hfresh k1).
  - intros k' i q' Hi Hq'. rewrite node_at_insert. apply lookup_insert_Some in Hi as [[<- <-]|[Hk' Hi]].
    + rewrite decide_False by lia. unfold node_at. rewrite (tree_zero _ _ _ Ht) by lia. cbn [default zero_node children].
      rewrite lookup_insert_ne by (intros E; apply (f_equal length) in E; rewrite !length_app in E; simpl in E; lia).
      assert (P !! ((k ++ [q]) ++ [q']) = None) as ->.
      { destruct (P !! ((k ++ [q]) ++ [q'])) eqn:E; [|done]. destruct (tree_closed _ _ _ Ht (k ++ [q]) q') as [? ?]; [by destruct k|by eexists|congruence]. }
      unfold is_quyte in Hq'. assert (q' = 0 \/ q' = 1 \/ q' = 2 \/ q' = 3) as [-> | [-> | [-> | ->]]] by lia; done.
    + pose proof (tree_child _ _ _ Ht k' i q' Hi Hq') as Hch. destruct (decide (cur = i)) as [<-|Hi'].
      * assert (k' = k) as -> by (by apply (tree_inj _ _ _ Ht k' k cur)). cbn [children].
        destruct (decide (q = q')) as [<-|Hqq].
        -- rewrite lookup_insert_eq. cbn [default from_option]. unfold id. apply lookup_lt_Some in Hch. by rewrite list_lookup_insert_eq.
        -- rewrite lookup_insert_ne by (intros E; by apply snoc_inj_l in E as [_ E]). rewrite list_lookup_insert_ne; [done|].
           unfold is_quyte in *. lia.
      * rewrite lookup_insert_ne; [done|]. intros E. apply snoc_inj_l in E as [-> ->]. congruence.
  - intros k' q' Hne' [i Hi]. apply lookup_insert_Some in Hi as [[E _]|[_ Hi]].
    + apply snoc_inj_l in E as [<- _]. exists cur. rewrite lookup_insert_ne; [done|]. intros E. apply (f_equal length) in E. rewrite length_app in E. simpl in E. lia.
    + destruct (tree_closed _ _ _ Ht k' q' Hne') as [j Hj]; [by eexists|]. exists j. rewrite lookup_insert_ne; [done|]. intros <-. congruence.
  - lia.
  - intros i Hi. rewrite lookup_insert_ne by lia. apply (tree_zero _ _ _ Ht). lia.
Qed.

(** What [find_or_create] does to the paths. *)
Fixpoint grow (P : gmap (list Z) Z) (count : Z) (k qs : list Z) : gmap (list Z) Z * Z :=
  match qs with
  | [] => (P, count)
  | q :: qs =>
      match P !! (k ++ [q]) with
      | Some _ => grow P count (k ++ [q]) qs
      | None => grow (<[k ++ [q] := count]> P) (count + 1) (k ++ [q]) qs
      end
  end.

Lemma grow_count P count k qs : count <= (grow P count k qs).2.
Proof.
  revert P count k. induction qs as [|q qs IH]; intros P count k; cbn [grow]; [simpl; lia|].
  destruct (P !! _); [apply IH|]. specialize (IH (<[k ++ [q] := count]> P) (count + 1) (k ++ [q])). lia.
Qed.

Lemma grow_keeps P count k qs key i : P !! key = Some i -> (grow P count k qs).1 !! key = Some i.
Proof.
  revert P count k. induction qs as [|q qs IH]; intros P count k H; cbn [grow]; [done|].
  destruct (P !! (k ++ [q])) eqn:E; apply IH; [done|]. rewrite lookup_insert_ne; [done|]. intros <-. congruence.
Qed.

Lemma grow_other P count k qs key :
  (forall j, (0 < j <= length qs)%nat -> key <> k ++ take j qs) -> (grow P count k qs).1 !! key = P !! key.
Proof.
  revert P count k. induction qs as [|q qs IH]; intros P count k H; cbn [grow]; [done|].
  assert (forall j, (0 < j <= length qs)%nat -> key <> (k ++ [q]) ++ take j qs) as H'.
  { intros j Hj. specialize (H (S j)). cbn [take length] in H. rewrite <- app_assoc. apply H. lia. }
  destruct (P !! (k ++ [q])); rewrite IH by done; [done|]. apply lookup_insert_ne.
  specialize (H 1%nat). cbn [take] in H. rewrite take_0 in H. intros E. apply H; [cbn [length]; lia|done].
Qed.

Lemma grow_full P count k qs i :
  (forall k q, k <> [] -> is_Some (P !! (k ++ [q])) -> is_Some (P !! k)) -> k <> [] ->
  P !! (k ++ qs) = Some i -> grow P count k qs = (P, count).
Proof.
  intros Hc. revert k. induction qs as [|q qs IH]; intros k Hk Hi; cbn [grow]; [done|].
  rewrite cons_middle, app_assoc in Hi.
  assert (forall qs', is_Some (P !! ((k ++ [q]) ++ qs')) -> is_Some (P !! (k ++ [q]))) as Hpre.
  { intros qs'. induction qs' as [|x qs' IH'] using rev_ind; [by rewrite app_nil_r|]. rewrite app_assoc. intros H. apply IH'.
    apply (Hc _ x); [by destruct k|done]. }
  destruct (Hpre qs) as [j ->]; [by eexists|]. apply IH; [by destruct k|done].
Qed.

(** ** Counting nodes *)

(** The number of paths of a length. *)
Definition cnt (P : gmap (list Z) Z) (n : nat) : Z := Z.of_nat (size (filter (fun kv => length kv.1 = n) P)).

Lemma cnt_insert P k v n : P !! k = None -> cnt (<[k := v]> P) n = cnt P n + (if decide (length k = n) then 1 else 0).
Proof.
  intros H. unfold cnt. destruct (decide (length k = n)) as [E|E].
  - rewrite map_filter_insert_True by done. rewrite map_size_insert_None; [lia|]. apply map_lookup_filter_None. by left.
  - rewrite map_filter_insert_False by done. rewrite delete_id by done. lia.
Qed.

Lemma grow_cnt P count k qs n :
  cnt P n <= cnt (grow P count k qs).1 n <=
  cnt P n + (if decide (length k < n <= length k + length qs)%nat then 1 else 0).
Proof.
  revert P count k. induction qs as [|q qs IH]; intros P count k; cbn [grow].
  - cbn [fst]. destruct (decide _); lia.
  - destruct (P !! (k ++ [q])) eqn:E.
    + specialize (IH P count (k ++ [q])). rewrite length_app in IH. cbn [length] in *. repeat destruct (decide _); lia.
    + specialize (IH (<[k ++ [q] := count]> P) (count + 1) (k ++ [q])). rewrite cnt_insert in IH by done. rewrite length_app in IH.
      cbn [length] in *. repeat destruct (decide _); lia.
Qed.

(** New nodes beyond the third level cost; the others are counted. *)
Lemma grow_bound P count k qs :
  (grow P count k qs).2 - count <=
    (cnt (grow P count k qs).1 2 - cnt P 2) + (cnt (grow P count k qs).1 3 - cnt P 3) +
    (if decide (length k < 3)%nat then Z.max 0 (Z.of_nat (length k + length qs) - 3) else Z.of_nat (length qs)) +
    (if decide (length k < 1)%nat then 1 else 0).
Proof.
  revert P count k. induction qs as [|q qs IH]; intros P count k; cbn [grow].
  - cbn [fst snd]. repeat destruct (decide _); simpl; lia.
  - destruct (P !! (k ++ [q])) eqn:E.
    + specialize (IH P count (k ++ [q])). rewrite length_app in IH. cbn [length] in *. repeat destruct (decide _); lia.
    + specialize (IH (<[k ++ [q] := count]> P) (count + 1) (k ++ [q])). rewrite !cnt_insert in IH by done. rewrite length_app in IH.
      cbn [length] in *. repeat destruct (decide _); lia.
Qed.

Lemma few_keys P (l : list (list Z)) n :
  (forall k i, P !! k = Some i -> length k = n -> k ∈ l) -> cnt P n <= Z.of_nat (length l).
Proof.
  intros H. unfold cnt. apply inj_le. rewrite <- length_map_to_list, <- (length_fmap fst).
  apply submseteq_length, NoDup_submseteq; [apply NoDup_fst_map_to_list|].
  intros k ([k' i] & -> & Hi)%list_elem_of_fmap. apply elem_of_map_to_list, map_lookup_filter_Some in Hi as [Hi Hl]. by apply (H k' i).
Qed.

Definition bytes_list : list Z := seqZ 0 256.
Definition keys_2 : list (list Z) := b ← bytes_list; q ← seqZ 0 4; [[b; q]].
Definition keys_3 : list (list Z) := b ← bytes_list; q ← seqZ 0 4; r ← seqZ 0 4; [[b; q; r]].

Definition keys_ok (P : gmap (list Z) Z) : Prop := forall k i, P !! k = Some i -> key_ok k.

Lemma grow_keys P count k qs : keys_ok P -> key_ok k -> Forall is_quyte qs -> keys_ok (grow P count k qs).1.
Proof.
  revert P count k. induction qs as [|q qs IH]; intros P count k HP Hk Hqs; cbn [grow]; [done|]. apply Forall_cons in Hqs as [Hq Hqs].
  assert (key_ok (k ++ [q])) as Hk'.
  { destruct Hk as (b & qs' & -> & Hb & Hqs'). exists b, (qs' ++ [q]). split_and!; [done|done|]. apply Forall_app. split; [done|by apply Forall_singleton]. }
  destruct (P !! (k ++ [q])); apply IH; try done. intros k' i [[<- _]|[_ Hi]]%lookup_insert_Some; [done|by apply (HP k' i)].
Qed.

Lemma cnt_bounds P : keys_ok P -> cnt P 2 <= 1024 /\ cnt P 3 <= 4096.
Proof.
  intros Ht. split.
  - change 1024 with (Z.of_nat (length keys_2)). apply few_keys. intros k i Hi Hl.
    destruct (Ht k i Hi) as (b & [|q [|]] & -> & Hb & Hq); try done. rewrite Forall_singleton in Hq.
    unfold keys_2. apply list_elem_of_bind. exists b. split; [|apply elem_of_seqZ; unfold is_quyte, is_byte in *; lia].
    apply list_elem_of_bind. exists q. split; [by apply list_elem_of_singleton|apply elem_of_seqZ; unfold is_quyte, is_byte in *; lia].
  - change 4096 with (Z.of_nat (length keys_3)). apply few_keys. intros k i Hi Hl.
    destruct (Ht k i Hi) as (b & [|q [|r [|]]] & -> & Hb & Hq); try done. apply Forall_cons in Hq as [Hq Hr].
    rewrite Forall_singleton in Hr. unfold keys_3. apply list_elem_of_bind. exists b. split; [|apply elem_of_seqZ; unfold is_quyte, is_byte in *; lia].
    apply list_elem_of_bind. exists q. split; [|apply elem_of_seqZ; unfold is_quyte, is_byte in *; lia]. apply list_elem_of_bind. exists r.
    split; [by apply list_elem_of_singleton|apply elem_of_seqZ; unfold is_quyte, is_byte in *; lia].
Qed.

(** ** Steps of the compressor *)

Section Steps.
Variable size : Z.

Lemma read_in nodes count P i : tree_ok nodes count P -> 0 <= i < count -> count * sizeof_QuyteNode <= size ->
  read_node size nodes i = Some (node_at nodes i).
Proof.
  intros _ Hi Hs. unfold read_node, in_storage, sizeof_QuyteNode in *. by rewrite (proj2 (Z.leb_le 0 i)), (proj2 (Z.leb_le _ size)) by lia.
Qed.

Lemma write_in nodes count i n : 0 <= i < count -> count * sizeof_QuyteNode <= size -> write_node size nodes i n = Some (<[i := n]> nodes).
Proof. intros Hi Hs. unfold write_node, in_storage, sizeof_QuyteNode in *. by rewrite (proj2 (Z.leb_le 0 i)), (proj2 (Z.leb_le _ size)) by lia. Qed.

Definition same_ids (nodes nodes' : gmap Z QuyteNode) : Prop := forall i, nodeID (node_at nodes' i) = nodeID (node_at nodes i).

Lemma next_node_spec nodes count P k cur q :
  tree_ok nodes count P -> P !! k = Some cur -> is_quyte q -> count * sizeof_QuyteNode <= size ->
  (P !! (k ++ [q]) = None -> count < 65536) ->
  match P !! (k ++ [q]) with
  | Some i => next_node size nodes count cur q = Some (nodes, count, i, false)
  | None => exists nodes', next_node size nodes count cur q = Some (nodes', count + 1, count, true) /\
      tree_ok nodes' (count + 1) (<[k ++ [q] := count]> P) /\ same_ids nodes nodes'
  end.
Proof.
  intros Ht Hk Hq Hs Hc. destruct (tree_key _ _ _ Ht k cur Hk) as ((b & qs & -> & _) & Hcur & _). pose proof (tree_count _ _ _ Ht).
  unfold next_node. rewrite (read_in nodes count P cur Ht Hcur Hs). cbn [mbind option_bind].
  rewrite (tree_child _ _ _ Ht _ cur q Hk Hq). cbn [mbind option_bind]. destruct (P !! ((b :: qs) ++ [q])) as [i|] eqn:E; cbn [default from_option]; unfold id.
  - destruct (tree_key _ _ _ Ht _ i E) as (_ & _ & [Hl|Hi]); [rewrite length_app in Hl; simpl in Hl; lia|].
    by rewrite (proj2 (Z.eqb_neq i 0)) by lia.
  - specialize (Hc eq_refl). rewrite Z.eqb_refl, (wrap_small 16 count) by lia. rewrite (write_in nodes count) by done. cbn [mbind option_bind].
    eexists. split; [reflexivity|]. split; [by apply tree_insert|]. intros j. rewrite node_at_insert. by destruct (decide _) as [->|].
Qed.

Lemma find_spec qs nodes count P k cur created :
  tree_ok nodes count P -> P !! k = Some cur -> Forall is_quyte qs ->
  (grow P count k qs).2 * sizeof_QuyteNode <= size -> (grow P count k qs).2 <= 65536 ->
  exists nodes' i, find_or_create size nodes count cur qs created =
      Some (nodes', (grow P count k qs).2, i, match qs with [] => created | _ => bool_decide (P !! (k ++ qs) = None) end) /\
    tree_ok nodes' (grow P count k qs).2 (grow P count k qs).1 /\ (grow P count k qs).1 !! (k ++ qs) = Some i /\ same_ids nodes nodes'.
Proof.
  revert nodes count P k cur created. induction qs as [|q qs IH]; intros nodes count P k cur created Ht Hk Hqs Hs Hc; cbn [grow find_or_create] in *.
  - exists nodes, cur. by rewrite app_nil_r.
  - apply Forall_cons in Hqs as [Hq Hqs]. pose proof (next_node_spec nodes count P k cur q Ht Hk Hq) as Hn.
    pose proof (tree_key _ _ _ Ht k cur Hk) as ((b & qs' & Hkk & _) & _ & _). destruct (P !! (k ++ [q])) as [i|] eqn:E.
    + pose proof (grow_count P count (k ++ [q]) qs) as Hg. rewrite Hn by (done || (unfold sizeof_QuyteNode in *; lia)). cbn [mbind option_bind].
      destruct (IH nodes count P (k ++ [q]) i false Ht E Hqs Hs Hc) as (nodes' & i' & -> & Ht' & Hi' & Hids).
      exists nodes', i'. rewrite <- app_assoc in Hi'. split_and!; [|done|done|done]. do 2 f_equal. rewrite <- app_assoc. cbn [app].
      destruct qs; [|done]. by rewrite bool_decide_false by (rewrite E; done).
    + pose proof (grow_count (<[k ++ [q] := count]> P) (count + 1) (k ++ [q]) qs) as Hg.
      destruct Hn as (nodes1 & -> & Ht1 & Hids1); [unfold sizeof_QuyteNode in *; lia|lia|]. cbn [mbind option_bind].
      destruct (IH nodes1 (count + 1) _ (k ++ [q]) count true Ht1 ltac:(apply lookup_insert_eq) Hqs Hs Hc) as (nodes' & i' & -> & Ht' & Hi' & Hids).
      exists nodes', i'. rewrite <- app_assoc in Hi'. split_and!; [|done|done|by intros j; rewrite Hids, Hids1]. do 2 f_equal. rewrite <- app_assoc. cbn [app].
      destruct qs as [|q' qs]; [by rewrite bool_decide_true|]. rewrite lookup_insert_ne; [done|].
      intros E'. apply (f_equal length) in E'. rewrite !length_app in E'. simpl in E'. lia.
Qed.

End Steps.

(** ** Strings *)

(** The path of a string. *)
Definition path (p : list Z) : list Z := match p with [] => [] | b :: bs => b :: concat (quytes <$> bs) end.

Lemma quyte_parts x :
  is_byte x -> quytes x = [x / 64; (x / 16) mod 4; (x / 4) mod 4; x mod 4].
Proof.
  intros Hx. unfold quytes. change 3 with (2 ^ 2 - 1). rewrite !land_ones_wrap by lia. rewrite !Z.shiftr_div_pow2 by lia. done.
Qed.

Lemma quytes_ok x : is_byte x -> Forall is_quyte (quytes x).
Proof.
  intros Hx. rewrite quyte_parts by done. unfold is_byte in Hx. unfold is_quyte.
  repeat (apply Forall_cons; split; [Z.to_euclidean_division_equations; lia|]). done.
Qed.

Lemma quytes_inj x y : is_byte x -> is_byte y -> quytes x = quytes y -> x = y.
Proof.
  intros Hx Hy. rewrite !quyte_parts by done. unfold is_byte in *. intros [= H1 H2 H3 H4]. Z.to_euclidean_division_equations. lia.
Qed.

Lemma path_snoc p x : p <> [] -> path (p ++ [x]) = path p ++ quytes x.
Proof.
  destruct p as [|b bs]; [done|]. intros _. cbn [path app]. rewrite fmap_app, concat_app. cbn [fmap list_fmap concat]. by rewrite app_nil_r.
Qed.

Lemma path_length b bs : length (path (b :: bs)) = (1 + 4 * length bs)%nat.
Proof. cbn [path length]. f_equal. induction bs as [|x bs IH]; [done|]. cbn [fmap list_fmap concat]. rewrite length_app, IH. cbn. lia. Qed.

Lemma path_inj p p' : Forall is_byte p -> Forall is_byte p' -> path p = path p' -> p = p'.
Proof.
  destruct p as [|b bs], p' as [|b' bs']; try done. intros Hp Hp' [= -> H]. f_equal. apply Forall_cons in Hp as [_ Hp], Hp' as [_ Hp'].
  revert bs' H Hp'. induction bs as [|x bs IH]; intros [|x' bs'] H Hp'; try done.
  apply Forall_cons in Hp as [Hx Hp], Hp' as [Hx' Hp']. cbn [fmap list_fmap concat] in H. apply app_inj_1 in H as [Hq H]; [|done].
  f_equal; [by apply quytes_inj|by apply IH].
Qed.

(** [D] maps strings to the numbers in their nodes. *)
Record dict_ok (D P : gmap (list Z) Z) (nodes : gmap Z QuyteNode) (n : Z) : Prop := {
  dict_byte : forall b, is_byte b -> D !! [b] = Some b;
  dict_long : forall p, Forall is_byte p -> (1 < length p)%nat -> D !! p = (fun i => nodeID (node_at nodes i)) <$> P !! path p;
  dict_range : forall p j, D !! p = Some j -> 0 <= j < n;
}.

(** The tree of the single bytes, also their dictionary. *)
Definition P0 : gmap (list Z) Z := list_to_map ((fun b => ([b], b)) <$> bytes_list).

Lemma P0_lookup k i : P0 !! k = Some i <-> k = [i] /\ is_byte i.
Proof.
  unfold P0. rewrite <- elem_of_list_to_map.
  - rewrite list_elem_of_fmap. split.
    + intros (b & [= -> ->] & Hb). split; [done|]. apply elem_of_seqZ in Hb. unfold is_byte. lia.
    + intros [-> Hi]. exists i. split; [done|]. apply elem_of_seqZ. unfold is_byte in Hi. lia.
  - rewrite <- list_fmap_compose. apply NoDup_fmap_2; [by intros x y [= ->]|]. apply NoDup_seqZ.
Qed.

#[local] Opaque P0.

Lemma tree_init : tree_ok ∅ 256 P0.
Proof.
  assert (forall k q, k <> [] -> P0 !! (k ++ [q]) = None) as Hnone.
  { intros k q Hk. destruct (P0 !! (k ++ [q])) eqn:E; [|done]. apply P0_lookup in E as [E _]. by destruct k as [|? [|]]. }
  split.
  - intros b Hb. by apply P0_lookup.
  - intros k i [-> Hi]%P0_lookup. split_and!; [by exists i, []|unfold is_byte in Hi; lia|unfold is_byte in Hi; lia|by left].
  - by intros k k' i [-> _]%P0_lookup [-> _]%P0_lookup.
  - intros k i q Hk Hq. apply P0_lookup in Hk as [-> _]. rewrite Hnone by done. unfold node_at. rewrite lookup_empty. cbn.
    unfold is_quyte in Hq. assert (q = 0 \/ q = 1 \/ q = 2 \/ q = 3) as [-> | [-> | [-> | ->]]] by lia; done.
  - intros k q Hk [i Hi]. by rewrite Hnone in Hi.
  - lia.
  - intros i _. apply lookup_empty.
Qed.

Lemma dict_init : dict_ok P0 P0 ∅ 256.
Proof.
  split.
  - intros b Hb. by apply P0_lookup.
  - intros p Hp Hl. assert (forall k, (1 < length k)%nat -> P0 !! k = None) as Hnone.
    { intros k Hk. destruct (P0 !! k) eqn:E; [|done]. apply P0_lookup in E as [-> _]. simpl in Hk. lia. }
    rewrite !Hnone; [done| |done]. destruct p as [|b [|x bs]]; [simpl in Hl; lia..|]. rewrite path_length. simpl. lia.
  - intros p j [-> Hj]%P0_lookup. unfold is_byte in Hj. lia.
Qed.

Lemma bytes_dict_init : EncoderSpec.bytes_dict P0 256.
Proof. intros key i. rewrite P0_lookup. unfold is_byte. split; intros [-> H]; (split; [done|lia]). Qed.

Lemma cnt_init n : n <> 1%nat -> cnt P0 n = 0.
Proof.
  intros Hn. pose proof (few_keys P0 [] n) as H. assert (cnt P0 n <= Z.of_nat (length (@nil (list Z)))) as H'.
  { apply H. intros k i [-> _]%P0_lookup Hl. simpl in Hl. lia. }
  unfold cnt in *. simpl in H'. lia.
Qed.

(** ** One byte *)

(** Nodes for [i] bytes after the first, [a] and [b] paths of the first two
    levels. *)
Lemma nodes_fit i a b len :
  0 <= i < len -> a <= i -> a <= 1024 -> b <= i -> b <= 4096 -> 256 + 2 * i + a + b <= maximumNodes len.
Proof.
  intros Hi Ha Ha' Hb Hb'. unfold maximumNodes. destruct (Z.leb_spec len 1024); [simpl; lia|].
  destruct (Z.ltb_spec 0 (len - 1024)); [|lia]. destruct (Z.leb_spec (len - 1024) (1024 * 3)); lia.
Qed.

Lemma maximumNodes_mono m n : 0 <= m <= n -> maximumNodes m <= maximumNodes n.
Proof.
  intros H. unfold maximumNodes.
  repeat match goal with
  | |- context [Z.leb ?a ?b] => destruct (Z.leb_spec a b)
  | |- context [Z.ltb ?a ?b] => destruct (Z.ltb_spec a b)
  end; lia.
Qed.

Section Loop.
Variables (size len : Z).
Hypothesis Hsize : maximumNodes len * sizeof_QuyteNode <= size.
Hypothesis Hlen : len <= 28544.

(** [p] is the match so far, [i] the number of bytes after the first. *)
Record inv (s : run) (D P : gmap (list Z) Z) (p : list Z) (i : Z) (cs : list Z) : Prop := {
  inv_tree : tree_ok (nodeArray s) (nodeCount s) P;
  inv_dict : dict_ok D P (nodeArray s) (nextID s);
  inv_bytes : p <> [] /\ Forall is_byte p;
  inv_node : P !! path p = Some (currentNode s);
  inv_match : D !! p = Some (lastMatchID s);
  inv_next : 256 <= nextID s <= 256 + i;
  inv_depth : Z.of_nat (length p) - 1 <= i;
  inv_count : nodeCount s <= 256 + 2 * (i - (Z.of_nat (length p) - 1)) + cnt P 2 + cnt P 3;
  inv_levels : cnt P 2 <= i /\ cnt P 3 <= i;
  inv_wrote : Sequences.wrote cs (writer s) (output s);
}.

Lemma max_65536 : maximumNodes len <= 65536.
Proof.
  destruct (Z.lt_ge_cases len 0).
  - unfold maximumNodes. rewrite (proj2 (Z.leb_le len 1024)) by lia. simpl. lia.
  - etransitivity; [apply (maximumNodes_mono len 28544); lia|]. by vm_compute.
Qed.

(** All nodes that the next byte may need are in the storage. *)
Lemma step_room s D P p i cs x :
  inv s D P p i cs -> i + 1 < len -> is_byte x ->
  let g := grow P (nodeCount s) (path p) (quytes x) in
  g.2 <= 256 + 2 * (i + 1) + cnt g.1 2 + cnt g.1 3 /\ cnt g.1 2 <= i + 1 /\ cnt g.1 3 <= i + 1 /\
  g.2 * sizeof_QuyteNode <= size /\ g.2 <= 65536.
Proof.
  intros H Hi Hx g. destruct (inv_bytes _ _ _ _ _ _ H) as [Hp Hpb]. destruct p as [|b bs]; [done|].
  pose proof (inv_count _ _ _ _ _ _ H) as Hc. destruct (inv_levels _ _ _ _ _ _ H) as [H2 H3].
  pose proof (inv_depth _ _ _ _ _ _ H) as Hd.
  pose proof (grow_bound P (nodeCount s) (path (b :: bs)) (quytes x)) as Hb. fold g in Hb.
  pose proof (grow_cnt P (nodeCount s) (path (b :: bs)) (quytes x) 2) as Hc2. fold g in Hc2.
  pose proof (grow_cnt P (nodeCount s) (path (b :: bs)) (quytes x) 3) as Hc3. fold g in Hc3.
  rewrite path_length in Hb, Hc2, Hc3. change (length (quytes x)) with 4%nat in *. cbn [length] in *.
  assert (g.2 <= 256 + 2 * (i + 1) + cnt g.1 2 + cnt g.1 3) as Hg.
  { destruct bs; cbn [length] in *; repeat destruct (decide _); lia. }
  assert (cnt g.1 2 <= i + 1 /\ cnt g.1 3 <= i + 1) as [H2' H3'] by (repeat destruct (decide _); lia).
  assert (keys_ok g.1) as Hk.
  { pose proof (inv_tree _ _ _ _ _ _ H) as Ht. apply grow_keys; [by intros k j Hj; apply (tree_key _ _ _ Ht k j)| |by apply quytes_ok].
    apply (tree_key _ _ _ Ht _ _ (inv_node _ _ _ _ _ _ H)). }
  destruct (cnt_bounds g.1 Hk) as [Ha Hb'].
  pose proof (nodes_fit (i + 1) (cnt g.1 2) (cnt g.1 3) len ltac:(cbn [length] in *; lia) H2' Ha H3' Hb') as Hfit.
  pose proof max_65536. unfold sizeof_QuyteNode in *. lia.
Qed.

Lemma tree_set_id nodes count P i id :
  tree_ok nodes count P -> 0 <= i < count -> tree_ok (<[i := Node id (children (node_at nodes i))]> nodes) count P.
Proof.
  intros Ht Hi. destruct Ht as [H1 H2 H3 H4 H5 H6 H7]. split; try done.
  - intros k j q Hj Hq. rewrite node_at_insert. destruct (decide (i = j)) as [<-|]; cbn [children]; by apply H4.
  - intros j Hj. rewrite lookup_insert_ne by lia. by apply H7.
Qed.

(** The match goes on. *)
Lemma step_match s D P p i cs x j :
  inv s D P p i cs -> i + 1 < len -> is_byte x -> D !! (p ++ [x]) = Some j ->
  exists nodes node n,
    find_or_create size (nodeArray s) (nodeCount s) (currentNode s) (quytes x) false = Some (nodes, nodeCount s, node, false) /\
    read_node size nodes node = Some n /\
    inv (Run nodes (nodeCount s) (nextID s) (nodeID n) node (writer s) (output s)) D P (p ++ [x]) (i + 1) cs.
Proof.
  intros H Hi Hx Hj. destruct (step_room s D P p i cs x H Hi Hx) as (_ & _ & _ & Hs & Hc).
  destruct H as [Ht Hd [Hp Hpb] Hn Hm Hnx Hdp Hct [H2 H3] Hw].
  assert (Forall is_byte (p ++ [x])) as Hpx by (apply Forall_app; split; [done|by apply Forall_singleton]).
  assert (1 < length (p ++ [x]))%nat as Hl by (rewrite length_app; destruct p; [done|simpl; lia]).
  pose proof (dict_long _ _ _ _ Hd (p ++ [x]) Hpx Hl) as Hlong. rewrite Hj, path_snoc in Hlong by done.
  destruct (P !! (path p ++ quytes x)) as [node|] eqn:EP; [|done]. cbn in Hlong. injection Hlong as ->.
  assert (grow P (nodeCount s) (path p) (quytes x) = (P, nodeCount s)) as Eg.
  { apply (grow_full _ _ _ _ node); [apply (tree_closed _ _ _ Ht)|by destruct p|done]. }
  destruct (find_spec size (quytes x) (nodeArray s) (nodeCount s) P (path p) (currentNode s) false Ht Hn (quytes_ok x Hx) Hs Hc)
    as (nodes & node' & Hf & Ht' & Hnode & Hids). rewrite Eg in Hf, Ht', Hnode, Hs. cbn [fst snd] in *.
  assert (node' = node) as -> by congruence. change (match quytes x with [] => _ | _ => ?y end) with y in Hf.
  rewrite bool_decide_false in Hf by (rewrite EP; done). destruct (tree_key _ _ _ Ht' _ _ Hnode) as (_ & Hrange & _).
  exists nodes, node, (node_at nodes node). split_and!; [done|by apply (read_in size nodes (nodeCount s) P)|].
  constructor; cbn [nodeArray nodeCount nextID lastMatchID currentNode writer output]; try done.
  - destruct Hd as [Hd1 Hd2 Hd3]. split; try done. intros p' Hp' Hl'. rewrite Hd2 by done. destruct (P !! path p'); [|done]. cbn. by rewrite Hids.
  - split; [by destruct p|done].
  - by rewrite path_snoc.
  - by rewrite Hj, Hids.
  - lia.
  - rewrite length_app. simpl. lia.
  - rewrite length_app. simpl. lia.
  - lia.
Qed.

(** Paths of other strings are not among those of a new one. *)
Lemma grow_strings P count p x p' :
  Forall is_byte (p ++ [x]) -> Forall is_byte p' -> p <> [] -> p' <> [] -> p' <> p ++ [x] ->
  (grow P count (path p) (quytes x)).1 !! path p' = P !! path p'.
Proof.
  intros Hb Hb' Hp Hp' Hne. apply grow_other. intros j Hj E. change (length (quytes x)) with 4%nat in Hj.
  destruct (decide (j = 4%nat)) as [->|Hj4].
  - apply Hne, path_inj; [done|done|]. rewrite path_snoc by done. exact E.
  - apply (f_equal length) in E. destruct p as [|b bs], p' as [|b' bs']; try done. rewrite length_app, !path_length, length_take in E.
    change (length (quytes x)) with 4%nat in E. lia.
Qed.

Lemma dict_new D P nodes0 nodes n count p x node cnt' :
  dict_ok D P nodes0 n -> n < 65536 -> 0 <= n -> p <> [] -> Forall is_byte (p ++ [x]) -> same_ids nodes0 nodes ->
  tree_ok nodes cnt' (grow P count (path p) (quytes x)).1 -> (grow P count (path p) (quytes x)).1 !! path (p ++ [x]) = Some node ->
  dict_ok (<[p ++ [x] := n]> D) (grow P count (path p) (quytes x)).1
    (<[node := Node (u16 n) (children (node_at nodes node))]> nodes) (n + 1).
Proof.
  intros Hd Hn Hn0 Hp Hb Hids Ht Hnode. split.
  - intros b Hb'. rewrite lookup_insert_ne; [by apply (dict_byte _ _ _ _ Hd)|]. by destruct p as [|? [|]].
  - intros p' Hp' Hl. destruct (decide (p' = p ++ [x])) as [->|Hne].
    + rewrite lookup_insert_eq, Hnode. cbn. rewrite node_at_insert, decide_True by done. cbn [nodeID]. by rewrite wrap_small by lia.
    + rewrite lookup_insert_ne by done. rewrite (dict_long _ _ _ _ Hd p' Hp' Hl).
      pose proof (grow_strings P count p x p' Hb Hp' Hp ltac:(by intros ->; simpl in Hl; lia) Hne) as <-.
      destruct (_ !! path p') as [i|] eqn:Ei; [|done]. cbn. rewrite node_at_insert, decide_False; [by rewrite Hids|].
      intros ->. apply Hne, path_inj; [done|done|]. by apply (tree_inj _ _ _ Ht _ _ i).
  - intros p' j [[<- <-]|[_ Hj]]%lookup_insert_Some; [lia|]. apply (dict_range _ _ _ _ Hd) in Hj. lia.
Qed.

(** The match ends and a new string is registered. *)
Lemma step_new s D P p i cs x :
  inv s D P p i cs -> i + 1 < len -> is_byte x -> D !! (p ++ [x]) = None ->
  exists nodes count node n nodes' w bs P',
    find_or_create size (nodeArray s) (nodeCount s) (currentNode s) (quytes x) false = Some (nodes, count, node, true) /\
    read_node size nodes node = Some n /\ write_node size nodes node (Node (u16 (nextID s)) (children n)) = Some nodes' /\
    VarIntWriter.write (writer s) (lastMatchID s) = Some (w, bs) /\
    inv (Run nodes' count (nextID s + 1) x x w (output s ++ bs)) (<[p ++ [x] := nextID s]> D) P' [x] (i + 1) (cs ++ [lastMatchID s]).
Proof.
  intros H Hi Hx Hnew. destruct (step_room s D P p i cs x H Hi Hx) as (Hg & Hg2 & Hg3 & Hs & Hc).
  destruct H as [Ht Hd [Hp Hpb] Hn Hm Hnx Hdp Hct [H2 H3] Hw].
  assert (Forall is_byte (p ++ [x])) as Hpx by (apply Forall_app; split; [done|by apply Forall_singleton]).
  assert (1 < length (p ++ [x]))%nat as Hl by (rewrite length_app; destruct p; [done|simpl; lia]).
  pose proof (dict_long _ _ _ _ Hd (p ++ [x]) Hpx Hl) as Hlong. rewrite Hnew, path_snoc in Hlong by done.
  destruct (P !! (path p ++ quytes x)) as [node|] eqn:EP; [done|]. clear Hlong.
  destruct (find_spec size (quytes x) (nodeArray s) (nodeCount s) P (path p) (currentNode s) false Ht Hn (quytes_ok x Hx) Hs Hc)
    as (nodes & node & Hf & Ht' & Hnode & Hids). change (match quytes x with [] => _ | _ => ?y end) with y in Hf.
  rewrite bool_decide_true in Hf by done. destruct (tree_key _ _ _ Ht' _ _ Hnode) as (_ & Hrange & _).
  pose proof (dict_range _ _ _ _ Hd _ _ Hm) as Hlm.
  destruct (Sequences.wrote_write cs (writer s) (output s) (lastMatchID s) Hw) as (w & bs & Hwr & Hw'); [unfold Sequences.code_ok; lia|].
  eexists nodes, _, node, (node_at nodes node), _, w, bs, (grow P (nodeCount s) (path p) (quytes x)).1.
  split_and!; [exact Hf|by eapply read_in|by eapply write_in|exact Hwr|].
  assert (is_byte x -> (grow P (nodeCount s) (path p) (quytes x)).1 !! path [x] = Some x) as Hroot.
  { intros _. apply (tree_root _ _ _ Ht' x Hx). }
  constructor; cbn [nodeArray nodeCount nextID lastMatchID currentNode writer output]; try done.
  - by apply tree_set_id.
  - apply (dict_new D P (nodeArray s) nodes (nextID s) _ p x node (grow P (nodeCount s) (path p) (quytes x)).2); try done; try lia. by rewrite path_snoc.
  - split; [done|by apply Forall_singleton].
  - by apply Hroot.
  - rewrite lookup_insert_ne by (by destruct p as [|? [|]]). by apply (dict_byte _ _ _ _ Hd).
  - lia.
  - cbn [length]. lia.
  - cbn [length]. lia.
Qed.

(** The loop returns. If it read all bytes, the codes it wrote and the one of
    the last match are a run of the encoding, as long as the decoder can
    number the strings. *)
Lemma loop_spec cap input s D P p i cs :
  inv s D P p i cs -> i + Z.of_nat (length input) < len -> Forall is_byte input ->
  exists s' rest cs', encode_loop size cap input s = Some (s', rest) /\
    (exists P', tree_ok (nodeArray s') (nodeCount s') P') /\ 0 <= lastMatchID s' < 65535 /\
    Sequences.wrote (cs ++ cs') (writer s') (output s') /\
    (len <= 16130 -> rest = [] ->
     exists d' n', EncoderSpec.enc_run D (nextID s) (p ++ input) (cs' ++ [lastMatchID s']) [] d' n').
Proof.
  revert s D P p i cs. induction input as [|x input IH]; intros s D P p i cs H Hi Hb; cbn [encode_loop length] in *.
  - exists s, [], []. rewrite !app_nil_r. pose proof (dict_range _ _ _ _ (inv_dict _ _ _ _ _ _ H) _ _ (inv_match _ _ _ _ _ _ H)) as Hr.
    pose proof (inv_next _ _ _ _ _ _ H). split_and!; [done|by exists P; apply (inv_tree _ _ _ _ _ _ H)|lia|lia|apply (inv_wrote _ _ _ _ _ _ H)|].
    intros _ _. exists D, (nextID s). rewrite <- (app_nil_r p). cbn [app].
    apply (EncoderSpec.enc_step D (nextID s) p (lastMatchID s) []); [apply (inv_bytes _ _ _ _ _ _ H)|apply (inv_match _ _ _ _ _ _ H)|done|constructor].
  - apply Forall_cons in Hb as [Hx Hb]. destruct (room cap (output s)).
    2:{ exists s, (x :: input), []. rewrite !app_nil_r. pose proof (dict_range _ _ _ _ (inv_dict _ _ _ _ _ _ H) _ _ (inv_match _ _ _ _ _ _ H)) as Hr.
        pose proof (inv_next _ _ _ _ _ _ H). split_and!; [done|by exists P; apply (inv_tree _ _ _ _ _ _ H)|lia|lia|apply (inv_wrote _ _ _ _ _ _ H)|done]. }
    destruct (D !! (p ++ [x])) as [j|] eqn:Ej.
    + destruct (step_match s D P p i cs x j H ltac:(lia) Hx Ej) as (nodes & node & n & -> & Hread & Hinv). cbn [mbind option_bind].
      rewrite Hread. cbn [mbind option_bind]. destruct (IH _ D P (p ++ [x]) (i + 1) cs Hinv ltac:(lia) Hb) as (s' & rest & cs' & -> & Ht & Hl & Hw & Hrun).
      exists s', rest, cs'. split_and!; [done|done|lia|lia|done|]. intros Hle Hrest. destruct (Hrun Hle Hrest) as (d' & n' & Hr).
      exists d', n'. by rewrite <- app_assoc in Hr.
    + destruct (step_new s D P p i cs x H ltac:(lia) Hx Ej) as (nodes & count & node & n & nodes' & w & bs & P' & -> & Hread & Hwrite & Hwr & Hinv).
      cbn [mbind option_bind]. rewrite Hread. cbn [mbind option_bind]. rewrite Hwrite. cbn [mbind option_bind]. rewrite Hwr. cbn [mbind option_bind].
      pose proof (inv_next _ _ _ _ _ _ H) as Hnx. pose proof (inv_bytes _ _ _ _ _ _ H) as [Hp _]. pose proof (inv_match _ _ _ _ _ _ H) as Hm.
      assert (forall y, head (x :: input) = Some y -> D !! (p ++ [y]) = None) as Hnone by (intros y [= <-]; done).
      destruct input as [|y input].
      * cbn [encode_loop]. eexists _, [], [lastMatchID s]. split; [reflexivity|]. cbn [nodeArray nodeCount lastMatchID writer output].
        unfold is_byte in Hx. split_and!; [exists P'; apply (inv_tree _ _ _ _ _ _ Hinv)|lia|lia|apply (inv_wrote _ _ _ _ _ _ Hinv)|].
        intros _ _. exists D, (nextID s). apply (EncoderSpec.enc_step D (nextID s) p (lastMatchID s) [x]); [done..|]. cbn.
        rewrite <- (app_nil_r [x]) at 2. apply (EncoderSpec.enc_step D (nextID s) [x] x []); [done| |done|constructor].
        apply (dict_byte _ _ _ _ (inv_dict _ _ _ _ _ _ H) x Hx).
      * destruct (IH _ _ P' [x] (i + 1) _ Hinv ltac:(lia) Hb) as (s' & rest & cs' & -> & Ht & Hl & Hw & Hrun).
        exists s', rest, (lastMatchID s :: cs'). rewrite <- app_assoc in Hw. split_and!; [done|done|lia|lia|done|]. intros Hle Hrest.
        destruct (Hrun Hle Hrest) as (d' & n' & Hr). exists d', n'. apply EncoderSpec.enc_step; [done..|].
        cbn [EncoderSpec.grow_dict]. rewrite (proj2 (Z.leb_le _ MAX_INDEX)); [exact Hr|]. cbn [length] in Hi. change MAX_INDEX with 16383. lia.
Qed.

End Loop.

End QuyteSpec.

(** ** Buffers *)

Module QuyteRoundtrip.
Import CompressionDefinitions QuyteTreeCompression QuyteSpec.

(** The longest buffers whose nodes have 16 bit numbers. *)
Definition MAX_BUFFER : Z := 28544.

(** The compressor of a thread: constructed, and used for buffer after buffer. *)
Inductive reachable : quyte -> Prop :=
| reach_make : reachable make
| reach_encode q q' src cap r :
    reachable q -> Forall is_byte src -> Z.of_nat (length src) <= MAX_BUFFER -> encode q src cap = Some (q', r) -> reachable q'.

Definition clean (q : quyte) : Prop :=
  tempStorage q = ∅ /\ 0 <= tempStorageLength q /\
  (tempStorageLength q = 0 \/ storage_size q = requiredStorageForBufferSize (tempStorageLength q)).

Lemma first_inv b : is_byte b -> inv (Run ∅ 256 256 b b VarIntWriter.init []) P0 P0 [b] 0 [].
Proof.
  intros Hb. constructor; cbn [nodeArray nodeCount nextID lastMatchID currentNode writer output].
  - apply tree_init.
  - apply dict_init.
  - split; [done|by apply Forall_singleton].
  - by apply P0_lookup.
  - by apply P0_lookup.
  - lia.
  - cbn [length]. lia.
  - rewrite !cnt_init by lia. cbn [length]. lia.
  - rewrite !cnt_init by lia. lia.
  - apply Sequences.wrote_init.
Qed.

Lemma cleared nodes count P : tree_ok nodes count P -> filter (fun kv => count <= kv.1) nodes = ∅.
Proof.
  intros Ht. apply map_empty. intros i. apply map_lookup_filter_None. destruct (nodes !! i) as [n|] eqn:E; [|by left]. right.
  intros n' _ Hi. cbn in Hi. by rewrite (tree_zero _ _ _ Ht i Hi) in E.
Qed.

(** The storage for a buffer: what there was, or a new one. *)
Lemma storage_spec q (src : list Z) :
  clean q -> src <> [] ->
  let q' := if tempStorageLength q <? Z.of_nat (length src)
    then Quyte ∅ (requiredStorageForBufferSize (Z.of_nat (length src))) (Z.of_nat (length src)) else q in
  clean q' /\ storage_size q' = requiredStorageForBufferSize (tempStorageLength q') /\ maximumNodes (Z.of_nat (length src)) * sizeof_QuyteNode <= storage_size q'.
Proof.
  intros (Ht & Hl & Hs) Hne. assert (0 < Z.of_nat (length src)) as Hpos by (destruct src; [done|cbn [length]; lia]).
  destruct (Z.ltb_spec (tempStorageLength q) (Z.of_nat (length src))) as [Hlt|Hge]; cbv zeta.
  - split_and!; [|done|reflexivity]. split_and!; [done|cbn; lia|by right].
  - destruct Hs as [Hs|Hs]; [lia|]. split_and!; [split_and!; [done|done|by right]|done|]. rewrite Hs. unfold requiredStorageForBufferSize, sizeof_QuyteNode.
    pose proof (maximumNodes_mono (Z.of_nat (length src)) (tempStorageLength q) ltac:(lia)). lia.
Qed.

Lemma quyte_encode_spec q src cap :
  clean q -> src <> [] -> Forall is_byte src -> Z.of_nat (length src) <= MAX_BUFFER ->
  exists q' si dest, encode q src cap = Some (q', (si, dest)) /\
    (clean q' /\ storage_size q' = requiredStorageForBufferSize (tempStorageLength q')) /\
    (Z.of_nat (length src) <= 16130 -> si = Z.of_nat (length src) ->
     exists cs wd code pad d' n', EncoderSpec.enc_run P0 256 src cs [] d' n' /\
       Sequences.emits_all 8 cs wd code /\ 8 <= wd < 30 /\
       bytes_bits dest = code ++ WriterSpec.end_mark wd ++ pad /\ Forall is_byte dest).
Proof.
  intros Hq Hne Hb Hmax. unfold encode. pose proof (storage_spec q src Hq Hne) as Hst. cbv zeta in Hst.
  set (q1 := if _ <? _ then _ else q) in *. destruct Hst as (Hq1 & Hreq & Hsize). pose proof (proj1 Hq1) as Hts. clearbody q1. destruct src as [|b src]; [done|].
  apply Forall_cons in Hb as [Hb Hbs]. rewrite Hts.
  destruct (loop_spec (storage_size q1) (Z.of_nat (length (b :: src))) Hsize Hmax cap src (Run ∅ 256 256 b b VarIntWriter.init []) P0 P0 [b] 0 []
    (first_inv b Hb)) as (s & rest & cs & -> & (P' & Ht) & Hlast & Hw & Hrun); [cbn [length]; lia|done|].
  cbn [mbind option_bind app nextID] in *. rewrite (proj2 (Z.eqb_neq (lastMatchID s) 65535)) by lia. cbn [negb].
  rewrite (cleared _ _ _ Ht). set (q2 := Quyte ∅ (storage_size q1) (tempStorageLength q1)).
  assert (clean q2 /\ storage_size q2 = requiredStorageForBufferSize (tempStorageLength q2)) as Hq2 by (destruct Hq1 as (? & ? & ?); by repeat split).
  destruct (room cap (output s)).
  - destruct (Sequences.wrote_write cs (writer s) (output s) (lastMatchID s) Hw) as (w & bs & -> & Hw'); [unfold Sequences.code_ok; lia|].
    cbn [mbind option_bind]. destruct (room cap (output s ++ bs)).
    + destruct (Sequences.wrote_flush _ _ _ Hw') as (w'' & bs' & wd & code & pad & -> & He & Hwd & Hbits & Hby). cbn [mbind option_bind].
      eexists _, _, _. split; [reflexivity|]. split; [done|]. intros Hle Hsi. assert (rest = []) as -> by (destruct rest; [done|cbn [length] in Hsi; lia]).
      destruct (Hrun Hle eq_refl) as (d' & n' & Hr). by exists (cs ++ [lastMatchID s]), wd, code, pad, d', n'.
    + eexists _, _, _. split; [reflexivity|]. split; [done|]. intros _ Hsi. cbn [length] in Hsi. lia.
  - cbn [mbind option_bind]. destruct (room cap (output s)).
    + destruct (Sequences.wrote_flush _ _ _ Hw) as (w'' & bs' & wd & code & pad & -> & _). cbn [mbind option_bind].
      eexists _, _, _. split; [reflexivity|]. split; [done|]. intros _ Hsi. cbn [length] in Hsi. lia.
    + eexists _, _, _. split; [reflexivity|]. split; [done|]. intros _ Hsi. cbn [length] in Hsi. lia.
Qed.

Lemma reachable_clean q : reachable q -> clean q.
Proof.
  induction 1 as [|q q' src cap r _ IH Hb Hl He]; [by split_and!; [|cbn; lia|left]|].
  destruct (decide (src = [])) as [->|Hne]; [done|]. destruct (quyte_encode_spec q src cap IH Hne Hb Hl) as (q1 & si & dest & E & [Hq1 _] & _).
  rewrite E in He. by injection He as <- _.
Qed.

(** What [compress] returns for a buffer that is short enough. *)
Lemma compress_spec q src capacity q' r :
  reachable q -> src <> [] -> Forall is_byte src -> Z.of_nat (length src) <= 16130 ->
  compress q src capacity = Some (q', r) ->
  reachable q' /\ forall dest, r = Some dest ->
    (Z.of_nat (length dest) <= capacity /\ Forall is_byte dest) /\
    forall limit, Z.of_nat (length src) < limit -> Decompressor.decode limit dest = Some src.
Proof.
  intros Hq Hne Hb Hl Hc. unfold compress in Hc.
  destruct (quyte_encode_spec q src capacity (reachable_clean q Hq) Hne Hb ltac:(unfold MAX_BUFFER; lia)) as (q1 & si & out & E & _ & Hrun).
  rewrite E in Hc. cbn [mbind option_bind] in Hc. case_match; [|done]. injection Hc as <- <-. zbool.
  split; [apply (reach_encode q q1 src capacity (si, out)); [done|done|unfold MAX_BUFFER; lia|done]|]. intros dest Hd. case_match; simplify_eq. zbool.
  destruct (Hrun Hl ltac:(done)) as (cs & wd & code & pad & d' & n' & Hr & He & Hwd & Hbits & Hby). split; [done|]. intros limit Hlim.
  by eapply (DecoderSpec.decode_spec limit src cs wd code pad dest P0 d' n' bytes_dict_init).
Qed.

(** C5: a buffer compressed with the tree of bit pairs, whatever buffers
    the compressor was used for before, is decoded by the analyzer to the
    bytes of the buffer, if it is short enough for the decoder to number all
    strings. *)
Theorem quyte_roundtrip q src capacity q' dest limit :
  reachable q -> Forall is_byte src -> Z.of_nat (length src) <= 16130 -> Z.of_nat (length src) < limit ->
  compress q src capacity = Some (q', Some dest) -> Decompressor.decode limit dest = Some src.
Proof.
  intros Hq Hb Hl Hlim Hc. destruct (decide (src = [])) as [->|Hne]; [done|].
  by apply (compress_spec q src capacity q' (Some dest) Hq Hne Hb Hl Hc).
Qed.

(** C39: the storage of the compressor suffices: for buffers of up to 28544
    bytes no node outside of it is read or written, however many duplicates
    there are, no node number exceeds 16 bits, [encode] returns, and the
    storage is clear for the next buffer. *)
Theorem quyte_storage_suffices q src capacity :
  reachable q -> src <> [] -> Forall is_byte src -> Z.of_nat (length src) <= MAX_BUFFER ->
  exists q' r, encode q src capacity = Some (q', r) /\ tempStorage q' = ∅ /\
    storage_size q' = requiredStorageForBufferSize (tempStorageLength q').
Proof.
  intros Hq%reachable_clean Hne Hb Hl. destruct (quyte_encode_spec q src capacity Hq Hne Hb Hl) as (q' & si & dest & E & [[Ht _] Hs] & _).
  by exists q', (si, dest).
Qed.

(** Two buffers, one after the other. *)
Definition demo_1 : list Z := [1; 2; 1; 2; 1; 2; 255; 255; 255].
Definition demo_2 : list Z := [7; 7; 7; 7; 200; 7; 7; 1; 2].

Definition compress_two (src1 src2 : list Z) (cap : Z) : option (list Z) :=
  '(q, _) ← encode make src1 cap; '(_, r) ← compress q src2 cap; r.

Lemma compress_two_inv src1 src2 cap dest :
  compress_two src1 src2 cap = Some dest ->
  exists q1 r1 q2, encode make src1 cap = Some (q1, r1) /\ compress q1 src2 cap = Some (q2, Some dest).
Proof.
  unfold compress_two. destruct (encode make src1 cap) as [[q1 r1]|] eqn:E1; [|done]. cbn [mbind option_bind].
  destruct (compress q1 src2 cap) as [[q2 [d|]]|] eqn:E2; try done. cbn [mbind option_bind]. intros [= ->]. by exists q1, r1, q2.
Qed.

Definition demo_code : list Z := [7; 255; 128; 1; 217; 16; 0; 8; 11; 254; 0; 0].

Lemma quyte_roundtrip_witness : exists q1 r1 q2, encode make demo_1 64 = Some (q1, r1) /\
  compress q1 demo_2 64 = Some (q2, Some demo_code) /\ Decompressor.decode 100 demo_code = Some demo_2.
Proof.
  destruct (compress_two_inv demo_1 demo_2 64 demo_code) as (q1 & r1 & q2 & E1 & E2); [vm_compute; reflexivity|].
  exists q1, r1, q2. split; [exact E1|]. split; [exact E2|].
  apply (quyte_roundtrip q1 demo_2 64 q2 demo_code 100); [|by_decide|by_decide|by_decide|exact E2].
  eapply reach_encode; [apply reach_make| | |exact E1]; by_decide.
Defined.

Lemma quyte_storage_suffices_witness : exists q' r, encode make demo_1 64 = Some (q', r) /\ tempStorage q' = ∅ /\
  storage_size q' = requiredStorageForBufferSize (tempStorageLength q').
Proof. apply (quyte_storage_suffices make demo_1 64); [apply reach_make|done|by_decide|by_decide]. Defined.

End QuyteRoundtrip.
