(* ===== verification/LZWRoundtrip.v ===== *)
(** * The encoder with its collection strategies, and the round trip

    The constructor of [LZWCompression] picks one of thirteen dictionaries;
    [dict] is the object behind the [NavigableMap] pointer, its operations
    the virtual calls.  A buffer compressed after a reset is decoded by the
    analyzer's [Decompressor] to the original bytes, whatever the strategy. *)

From S2P Require Import Prelude VarInt MapInterface HashMap InflatableMap Sequence NavigableHashMap.
From S2P Require Import PrefixTreeMap SortedList LZW Decompressor.
From Stdlib Require Import ZArith Lia.

Module Strategies.

Definition K : Z := 1024.

Inductive elements := Bytes | Nibbles | Hibbles.

Inductive dict :=
| HashDict (assume_continous_elements : bool) (lucky_clazz : Z) (m : list NavigableHashMap.dictionary)
| ListDict (by_length : bool) (m : ListMap.listmap)
| TreeDict (e : elements) (t : PrefixTreeMap.ptree).

Definition elements_length (e : elements) : list Z -> Z :=
  match e with
  | Bytes => Elements.getSequenceLength
  | Nibbles => Elements.getSequenceNibbleLength
  | Hibbles => Elements.getSequenceHibbleLength
  end.

Definition elements_get (e : elements) : list Z -> Z -> option Z :=
  match e with
  | Bytes => Elements.getSequenceElement
  | Nibbles => Elements.getSequenceNibbleElement
  | Hibbles => Elements.getSequenceHibbleElement
  end.

Definition list_compare (by_length : bool) : list Z -> list Z -> Z :=
  if by_length then ListMap.compareSequenceByLength else ListMap.compareSequence.

Definition dict_put (d : dict) (k : list Z) (v : Z) : option (dict * bool) :=
  match d with
  | HashDict a c m => '(m, b) ← NavigableHashMap.put m k v; Some (HashDict a c m, b)
  | ListDict l m => '(m, b) ← ListMap.put (list_compare l) m k v; Some (ListDict l m, b)
  | TreeDict e t => '(t, b) ← PrefixTreeMap.put (elements_length e) (elements_get e) t k v; Some (TreeDict e t, b)
  end.

Definition dict_get_floor (d : dict) (k : list Z) : option (option (list Z * Z)) :=
  match d with
  | HashDict a c m => NavigableHashMap.get_floor a c m k
  | ListDict l m => ListMap.get_floor (list_compare l) m k
  | TreeDict e t => PrefixTreeMap.get_floor (elements_length e) (elements_get e) t k
  end.

Definition dict_clear (d : dict) : dict :=
  match d with
  | HashDict a c m => HashDict a c (NavigableHashMap.clear m)
  | ListDict l m => ListDict l (ListMap.clear m)
  | TreeDict e t => TreeDict e (PrefixTreeMap.clear t)
  end.

#[export] Instance dict_ops : NavigableMap dict := {
  nav_put := dict_put; nav_get_floor := dict_get_floor; nav_clear := dict_clear;
}.

(** [getMapSize]: a double quotient truncated. *)
Definition getMapSize (id : Z) : Z := if id =? 0 then 1 ≪ 8 else Z.quot (2 * K) id.

(** The [switch] of the constructor; [sizeof(void * )] is 8. *)
Definition make_dictionary (collection_strategy : Z) : dict :=
  if collection_strategy =? 1 then HashDict false 0 (NavigableHashMap.make_single (4 * K))
  else if collection_strategy =? 2 then HashDict true 3 (NavigableHashMap.make_single (4 * K))
  else if collection_strategy =? 3 then HashDict true 4 (NavigableHashMap.make_single (4 * K))
  else if collection_strategy =? 4 then HashDict true 5 (NavigableHashMap.make_single (4 * K))
  else if collection_strategy =? 5 then HashDict true 0 (NavigableHashMap.make_classes 8 getMapSize)
  else if collection_strategy =? 6 then HashDict true 3 (NavigableHashMap.make_classes 8 getMapSize)
  else if collection_strategy =? 8 then HashDict true 5 (NavigableHashMap.make_classes 8 getMapSize)
  else if collection_strategy =? 9 then ListDict false ListMap.make
  else if collection_strategy =? 10 then ListDict true ListMap.make
  else if collection_strategy =? 11 then TreeDict Bytes (PrefixTreeMap.make (K * 4))
  else if collection_strategy =? 12 then TreeDict Nibbles (PrefixTreeMap.make (K * 4))
  else if collection_strategy =? 13 then TreeDict Hibbles (PrefixTreeMap.make (K * 4))
  else HashDict true 4 (NavigableHashMap.make_classes 8 getMapSize).

Definition make (collection_strategy : Z) : option (LZWCompression.lzw dict) :=
  LZWCompression.reset (LZWCompression.LZW (make_dictionary collection_strategy) 0 0).

(** ** Every strategy is a navigable map *)

Definition dict_rep (d : dict) (g : gmap (list Z) Z) : Prop :=
  match d with
  | HashDict a c m => NavigableHashMap.rep m g
  | ListDict l m => ListMap.rep (list_compare l) m g
  | TreeDict Bytes t => TreeSpec.rep (expand := fun b => [b]) t g
  | TreeDict Nibbles t => TreeSpec.rep (expand := fun b => [u8 ((b ≫ 4) .& 15); u8 ((b ≫ 0) .& 15)]) t g
  | TreeDict Hibbles t =>
      TreeSpec.rep (expand := fun b => [u8 ((b ≫ 6) .& 3); u8 ((b ≫ 4) .& 3); u8 ((b ≫ 2) .& 3); u8 ((b ≫ 0) .& 3)]) t g
  end.

Lemma dict_put_spec d g k v :
  dict_rep d g -> prefix_closed g -> g !! k = None -> k <> [] -> Forall is_byte k ->
  (forall n, (0 < n < length k)%nat -> is_Some (g !! take n k)) ->
  exists d' b, dict_put d k v = Some (d', b) /\ dict_rep d' (<[k := v]> g).
Proof.
  intros Hr Hc Hk Hne Hb Hp. destruct d as [a c m|[|] m|[| |] t]; simpl in *.
  - destruct (NavigableHashMap.navhash_put_spec m g k v Hr Hk) as (m' & -> & Hr').
    by exists (HashDict a c m'), true.
  - destruct (nav_put_spec (NavigableMapSpec := Orders.by_length_spec) m g k v Hr Hc Hk Hne Hb Hp) as (m' & b & E & Hr').
    simpl in E. rewrite E. by exists (ListDict true m'), b.
  - destruct (nav_put_spec (NavigableMapSpec := Orders.lexicographic_spec) m g k v Hr Hc Hk Hne Hb Hp) as (m' & b & E & Hr').
    simpl in E. rewrite E. by exists (ListDict false m'), b.
  - destruct (TreeSpec.tree_put_spec (D := Elements.byte_decomposition) t g k v Hr Hc Hk Hne Hb) as (t' & -> & Hr').
    by exists (TreeDict Bytes t'), true.
  - destruct (TreeSpec.tree_put_spec (D := Elements.nibble_decomposition) t g k v Hr Hc Hk Hne Hb) as (t' & -> & Hr').
    by exists (TreeDict Nibbles t'), true.
  - destruct (TreeSpec.tree_put_spec (D := Elements.hibble_decomposition) t g k v Hr Hc Hk Hne Hb) as (t' & -> & Hr').
    by exists (TreeDict Hibbles t'), true.
Qed.

Lemma dict_floor_spec d g k :
  dict_rep d g -> prefix_closed g -> k <> [] -> Forall is_byte k -> is_Some (g !! take 1 k) ->
  dict_get_floor d k = Some (longest_prefix g (length k) k).
Proof.
  intros Hr Hc Hne Hb Hf. destruct d as [a c m|[|] m|[| |] t]; simpl in *.
  - by apply NavigableHashMap.navhash_get_floor_spec.
  - exact (nav_floor_spec (NavigableMapSpec := Orders.by_length_spec) m g k Hr Hc Hne Hb Hf).
  - exact (nav_floor_spec (NavigableMapSpec := Orders.lexicographic_spec) m g k Hr Hc Hne Hb Hf).
  - by apply (TreeSpec.tree_get_floor_spec (D := Elements.byte_decomposition)).
  - by apply (TreeSpec.tree_get_floor_spec (D := Elements.nibble_decomposition)).
  - by apply (TreeSpec.tree_get_floor_spec (D := Elements.hibble_decomposition)).
Qed.

Lemma dict_clear_spec d g : dict_rep d g -> dict_rep (dict_clear d) ∅.
Proof.
  intros Hr. destruct d as [a c m|[|] m|[| |] t]; simpl in *.
  - by eapply NavigableHashMap.navhash_clear_spec.
  - by eapply ListMap.listmap_clear_spec.
  - by eapply ListMap.listmap_clear_spec.
  - apply TreeSpec.clear_rep.
  - apply TreeSpec.clear_rep.
  - apply TreeSpec.clear_rep.
Qed.

#[export] Instance dict_spec : NavigableMapSpec dict := {|
  nav_rep := dict_rep;
  nav_put_spec := dict_put_spec;
  nav_floor_spec := dict_floor_spec;
  nav_clear_spec := dict_clear_spec;
|}.

Lemma getMapSize_nonneg i : 0 <= getMapSize i \/ i < 0.
Proof.
  unfold getMapSize. destruct (Z.eqb_spec i 0); [left; by vm_compute|].
  destruct (Z.lt_ge_cases i 0); [by right|]. left. apply Z.quot_pos; unfold K; lia.
Qed.

Lemma make_dictionary_rep strategy : dict_rep (make_dictionary strategy) ∅.
Proof.
  assert (NavigableHashMap.rep (NavigableHashMap.make_classes 8 getMapSize) ∅) as Hc.
  { apply NavigableHashMap.navhash_make_rep; [done|]. intros h (i & -> & _)%list_elem_of_fmap.
    apply HashMap.hashmap_make_spec. destruct (getMapSize_nonneg (Z.of_nat i)); lia. }
  assert (NavigableHashMap.rep (NavigableHashMap.make_single (4 * K)) ∅) as Hs
    by (apply NavigableHashMap.make_single_rep; unfold K; lia).
  unfold make_dictionary. repeat case_match; simpl; try done.
  - apply ListMap.listmap_make_rep.
  - apply ListMap.listmap_make_rep.
  - apply TreeSpec.clear_rep.
  - apply TreeSpec.clear_rep.
  - apply TreeSpec.clear_rep.
Qed.

Lemma make_nav_rep strategy : nav_rep (make_dictionary strategy) ∅.
Proof. exact (make_dictionary_rep strategy). Qed.

(** C30: every collection strategy finds the longest registered prefix: after
    registering any entries prefix first, [get_floor] of each of the thirteen
    dictionaries is the entry of the longest prefix of the key. *)
Theorem strategies_find_longest_prefix strategy es key :
  buildable ∅ es -> key <> [] -> Forall is_byte key -> take 1 key ∈ es.*1 ->
  exists d, nav_puts (make_dictionary strategy) es = Some d /\
    nav_get_floor d key = Some (longest_prefix (insert_all ∅ es) (length key) key).
Proof.
  intros Hb Hne Hk Hf.
  destruct (nav_puts_spec es (make_dictionary strategy) ∅ (make_nav_rep strategy) prefix_closed_empty Hb) as (d & E & Hr & Hc).
  exists d. split; [done|]. apply nav_floor_spec; [done..|]. by apply insert_all_elem.
Qed.

Lemma strategies_find_longest_prefix_witness : exists d,
  nav_puts (make_dictionary 13) [([1], 1); ([2], 2); ([1; 2], 256); ([1; 2; 3], 257)] = Some d /\
  nav_get_floor d [1; 2; 4; 1] = Some (Some ([1; 2], 256)).
Proof.
  destruct (strategies_find_longest_prefix 13 [([1], 1); ([2], 2); ([1; 2], 256); ([1; 2; 3], 257)] [1; 2; 4; 1]) as (d & E & Hf).
  - simpl. repeat split; try by_decide; intros n Hn; (assert (n = 1 \/ n = 2)%nat as [->| ->] by lia); try lia; by eexists.
  - done.
  - by_decide.
  - by_decide.
  - exists d. split; [exact E|]. rewrite Hf. by vm_compute.
Defined.

End Strategies.

(** ** The round trip *)

Module LZWRoundtrip.
Import Strategies LZWCompression.

(** The states an encoder can be in: constructed, reset, used. *)
Inductive reachable (strategy : Z) : lzw dict -> Prop :=
| reach_make l : make strategy = Some l -> reachable strategy l
| reach_reset l l' : reachable strategy l -> reset l = Some l' -> reachable strategy l'
| reach_encode l l' src cap r :
    reachable strategy l -> Forall is_byte src -> encode l src cap = Some (l', r) -> reachable strategy l'.

Lemma lzw_make_spec strategy : exists l d, make strategy = Some l /\ EncoderSpec.rep l d /\
  EncoderSpec.bytes_dict d 256 /\ next_index l = 256 /\ EncoderSpec.good l.
Proof.
  destruct (EncoderSpec.reset_spec (LZW (make_dictionary strategy) 0 0) ∅ (make_nav_rep strategy))
    as (l & d & E & Hr & Hd & Hok & Hn).
  exists l, d. split_and!; try done; try apply Hr. exists d. by rewrite Hn.
Qed.

Lemma reachable_good strategy l : reachable strategy l -> EncoderSpec.good l.
Proof.
  induction 1 as [l Hm|l l' _ IH Hr|l l' src cap r _ IH Hb He].
  - destruct (lzw_make_spec strategy) as (l' & _ & E & _ & _ & _ & Hg). congruence.
  - destruct (EncoderSpec.reset_good l IH) as (l1 & _ & E & _ & _ & _ & Hg). congruence.
  - destruct IH as (d & Hr & Hok).
    destruct (EncoderSpec.encode_spec l d src cap Hr Hok Hb) as (l1 & si & dest & E & Hg & _). congruence.
Qed.

(** An encoder whose dictionary holds the single bytes only. *)
Definition fresh (strategy : Z) (l : lzw dict) : Prop :=
  make strategy = Some l \/ exists l0, reachable strategy l0 /\ reset l0 = Some l.

Lemma fresh_spec strategy l : fresh strategy l -> exists d, EncoderSpec.rep l d /\
  EncoderSpec.bytes_dict d 256 /\ EncoderSpec.dict_ok d 256 /\ next_index l = 256.
Proof.
  intros [Hm|(l0 & (d0 & [Hr _] & _)%reachable_good & Hs)].
  - destruct (EncoderSpec.reset_spec (LZW (make_dictionary strategy) 0 0) ∅
      (make_nav_rep strategy)) as (l' & d & E & ? & ? & ? & ?).
    unfold make in Hm. rewrite E in Hm. simplify_eq. by exists d.
  - destruct (EncoderSpec.reset_spec l0 d0 Hr) as (l' & d & E & ? & ? & ? & ?). rewrite E in Hs. simplify_eq. by exists d.
Qed.

(** C3: a buffer compressed by a fresh encoder, under any of the thirteen
    collection strategies, is decoded by the analyzer to the bytes of the
    original buffer. *)
Theorem lzw_roundtrip strategy l src capacity l' dest limit :
  fresh strategy l -> Forall is_byte src -> src <> [] -> Z.of_nat (length src) < limit ->
  compress l src capacity = Some (l', Some dest) ->
  Decompressor.decode limit dest = Some src.
Proof.
  intros (d & Hr & Hd & Hok & Hn)%fresh_spec Hb Hne Hlim Hc. unfold compress in Hc. rewrite <- Hn in Hok.
  destruct (EncoderSpec.encode_spec l d src capacity Hr Hok Hb) as (l1 & si & out & E & _ & Hrun).
  rewrite E in Hc. cbn [mbind option_bind] in Hc. repeat case_match; simplify_eq.
  destruct (Hrun Hne ltac:(zbool; lia)) as (cs & wd & code & pad & d' & n' & Hrun' & He & Hw & Hbits & Hdb).
  rewrite Hn in Hrun'. by eapply DecoderSpec.decode_spec.
Qed.

(** A constructed encoder compresses one buffer. *)
Definition compress_first (strategy : Z) (src : list Z) (capacity : Z) : option (lzw dict * list Z) :=
  l ← make strategy;
  '(l', r) ← compress l src capacity;
  dest ← r;
  Some (l', dest).

Lemma compress_first_inv strategy src capacity dest :
  snd <$> compress_first strategy src capacity = Some dest ->
  exists l l', make strategy = Some l /\ compress l src capacity = Some (l', Some dest).
Proof.
  unfold compress_first. destruct (make strategy) as [l|]; [|done]. cbn [mbind option_bind].
  destruct (compress l src capacity) as [[l' [o|]]|] eqn:E; try done. cbn. intros [= ->]. eauto.
Qed.

Lemma lzw_roundtrip_witness : exists l l' dest, compress l [7; 7; 7; 7; 200; 7; 7] 64 = Some (l', Some dest) /\
  Decompressor.decode 100 dest = Some [7; 7; 7; 7; 200; 7; 7].
Proof.
  destruct (compress_first_inv 12 [7; 7; 7; 7; 200; 7; 7] 64 [7; 255; 128; 1; 217; 16; 15; 248; 0]) as (l & l' & Hm & Hc).
  { vm_compute. reflexivity. }
  exists l, l', [7; 255; 128; 1; 217; 16; 15; 248; 0]. split; [done|].
  apply (lzw_roundtrip 12 l _ 64 l'); [by left|by_decide|done|by_decide|done].
Defined.

(** ** Buffers without a reset in between

    [CompressionThread::run] constructs one compressor and calls [encode] for
    every buffer; nothing calls [reset].  The bytes written for [src2] after
    [src1]. *)
Definition compress_second (strategy : Z) (src1 src2 : list Z) (capacity : Z) : option (list Z) :=
  '(l, _) ← compress_first strategy src1 capacity;
  '(_, r) ← compress l src2 capacity;
  r.


(** ** The capacity check

    A walk over bytes below 251 that repeats no pair for [n <= 251 * 250]
    steps: every step is coded with a single byte and registers one pair. *)
Fixpoint walk (n : nat) (i x : Z) : list Z :=
  match n with
  | O => []
  | S n => x :: walk n (i + 1) ((x + i / 251 + 1) mod 251)
  end.

(** ... followed by a pair whose index needs three width changes. *)
Definition escaping : list Z := walk 1810 0 0 ++ drop 1800 (walk 1802 0 0).

(** C36: the capacity check of [encode] reserves five bytes for one code, but
    a code that changes the width several times takes more: there is an input
    shorter than the destination for which [encode] stores past its end. *)
Theorem encode_overruns_destination : exists l l' si dest, make 0 = Some l /\ Forall is_byte escaping /\
  Z.of_nat (length escaping) < 1815 /\ encode l escaping 1815 = Some (l', (si, dest)) /\
  1815 < Z.of_nat (length dest).
Proof.
  destruct (lzw_make_spec 0) as (l & d & Hm & Hr & _ & Hn & Hg). exists l.
  assert (Forall is_byte escaping) as Hb by (apply (bool_decide_eq_true_1 _); by vm_compute).
  destruct Hg as (d' & Hr' & Hok). destruct (EncoderSpec.encode_spec l d' escaping 1815 Hr' Hok Hb) as (l' & si & dest & E & _).
  exists l', si, dest. split_and!; [done|done|by vm_compute|done|].
  assert ((l ← make 0; '(_, (_, dest)) ← encode l escaping 1815; Some (Z.of_nat (length dest))) = Some 1816) as Hl
    by by vm_compute.
  rewrite Hm in Hl. cbn [mbind option_bind] in Hl. rewrite E in Hl. cbn in Hl. injection Hl. lia.
Qed.

End LZWRoundtrip.
