(* ===== verification/LZWDecompression.v ===== *)
(** * The VM's own decoder ([prims/LZWDecompression.cpp])

    Used by the paranoid assertions of the compression thread only.  An
    evaluation ends with [Returned], with [Undefined] (an access outside of
    the source array or of an empty sequence, a map operation that goes
    wrong) or, if the bound on the iterations were too small, with
    [OutOfFuel]. *)

From S2P Require Import Prelude VarInt MapInterface HashMap LZW.
From Stdlib Require Import ZArith Lia.

Module LZWDecompression.
Import CompressionDefinitions.

Inductive outcome (A : Type) := Returned (a : A) | Undefined | OutOfFuel.
Arguments Returned {A}.
Arguments Undefined {A}.
Arguments OutOfFuel {A}.

Definition hashIndex (index : Z) : Z := s32 index.

Definition equalsIndex (index1 index2 : Z) : bool := index1 =? index2.

(** Sequences are their contents. *)
Record decompressor := Dec { dictionary : HashMap.hashmap Z (list Z); next_index : Z }.

Definition reset (s : decompressor) : decompressor :=
  Dec (HashMap.clear (dictionary s)) FIRST_CUSTOM_INDEX.

Definition make : decompressor := reset (Dec (HashMap.make (1024 * 4)) 0).

Definition getDictionarySize (s : decompressor) : Z :=
  HashMap.get_size (dictionary s) + FIRST_CUSTOM_INDEX.

Definition resolveIndex (s : decompressor) (index : Z) : option (option (list Z)) :=
  HashMap.get hashIndex equalsIndex (dictionary s) index.

Definition registerIndex (s : decompressor) (last current : list Z) : option decompressor :=
  if negb (Z.of_nat (length last) =? 0) && (next_index s <=? MAX_INDEX) then
    let index := next_index s in
    '(d, _) ← HashMap.put hashIndex equalsIndex (dictionary s) index (last ++ take 1 current);
    Some (Dec d (index + 1))
  else Some s.

(** One iteration after the index was read: the bytes stored, the new state
    and the new [last]. *)
Definition decode_index (s : decompressor) (last : list Z) (index : Z) :
    option (list Z * decompressor * list Z) :=
  if index <? FIRST_CUSTOM_INDEX then
    let current := [u8 index] in
    s ← registerIndex s last current;
    Some (current, s, current)
  else
    maybe ← resolveIndex s index;
    match maybe with
    | Some current =>
        s ← registerIndex s last current;
        Some (current, s, current)
    | None =>
        c ← last !! 0%nat;
        let current := [c] in
        s ← registerIndex s last current;
        Some (last ++ current, s, last ++ current)
    end.

Fixpoint decode_loop (fuel : nat) (s : decompressor) (reader : VarIntReader.reader) (src : list Z)
    (src_index : nat) (last dest : list Z) : outcome (decompressor * list Z) :=
  match fuel with
  | O => OutOfFuel
  | S fuel' =>
      if (src_index <? length src)%nat then
        match VarIntReader.read src reader src_index with
        | None => Undefined
        | Some (reader, src_index, index) =>
            match decode_index s last index with
            | None => Undefined
            | Some (bytes, s, last) => decode_loop fuel' s reader src src_index last (dest ++ bytes)
            end
        end
      else Returned (s, dest)
  end.

Definition decode (s : decompressor) (src : list Z) : outcome (decompressor * list Z) :=
  decode_loop (S (length src)) s VarIntReader.init src 0 [] [].

End LZWDecompression.

Module ReaderProgress.
Import VarIntReader.

Definition position (r : reader) (cursor : nat) : Z := 8 * Z.of_nat cursor + in_byte_offset r.

(** A read consumes all its bits and leaves the cursor on the last byte it
    has read from. *)
Lemma read0_loop_progress fuel src r cursor value bits r' cursor' v :
  0 <= in_byte_offset r <= 8 -> 0 < bits ->
  read0_loop fuel src r cursor value bits = Some (r', cursor', v) ->
  position r' cursor' = position r cursor + bits /\ (cursor' < length src)%nat /\
  0 <= in_byte_offset r' <= 8 /\ width r' = width r.
Proof.
  revert r cursor value bits. induction fuel as [|fuel IH]; intros r cursor value bits Hr Hb; [done|].
  cbn [read0_loop]. unfold position in *.
  set (st := if in_byte_offset r =? 8 then _ else _).
  assert (exists r1 c1, st = (r1, c1) /\ 0 <= in_byte_offset r1 < 8 /\ width r1 = width r /\
    8 * Z.of_nat c1 + in_byte_offset r1 = 8 * Z.of_nat cursor + in_byte_offset r) as (r1 & c1 & -> & Hr1 & Hw & Hp).
  { subst st. destruct (Z.eqb_spec (in_byte_offset r) 8); eexists _, _; (split; [reflexivity|]); simpl; lia. }
  destruct (src !! c1) as [b|] eqn:Eb; [|done]. cbn [mbind option_bind].
  apply lookup_lt_Some in Eb.
  destruct (Z.ltb_spec 0 (bits - Z.min (8 - in_byte_offset r1) bits)) as [Hl|Hl].
  - intros (E1 & E2 & E3 & E4)%IH; simpl in *; lia.
  - intros [= <- <- <-]. simpl. lia.
Qed.

Lemma read_rec_progress fuel src r cursor r' cursor' v :
  0 <= in_byte_offset r <= 8 -> 8 <= width r -> read_rec fuel src r cursor = Some (r', cursor', v) ->
  position r cursor + 8 <= position r' cursor' /\ (cursor' < length src)%nat /\
  0 <= in_byte_offset r' <= 8 /\ 8 <= width r'.
Proof.
  revert r cursor. induction fuel as [|fuel IH]; intros r cursor Hr Hw; [done|]. cbn [read_rec].
  destruct (read0 src r cursor 0 (width r)) as [[[r1 c1] v1]|] eqn:E; [|done]. cbn [mbind option_bind].
  apply read0_loop_progress in E as (Hp & Hc & Hr1 & Hw1); [|done|lia].
  case_match.
  - intros (Hp' & ?)%IH; simpl; try lia. unfold position in *. simpl in *. lia.
  - intros [= <- <- <-]. lia.
Qed.

End ReaderProgress.

Module DecoderDefect.
Import LZWDecompression ReaderProgress.

Lemma decode_loop_undefined fuel s r src cursor last dest :
  0 <= VarIntReader.in_byte_offset r <= 8 -> 8 <= VarIntReader.width r -> (cursor < length src)%nat ->
  8 * Z.of_nat (length src) - position r cursor < 8 * Z.of_nat fuel ->
  decode_loop fuel s r src cursor last dest = Undefined.
Proof.
  revert s r cursor last dest. induction fuel as [|fuel IH]; intros s r cursor last dest Hr Hw Hc Hf.
  { unfold position in Hf. lia. }
  cbn [decode_loop]. rewrite (proj2 (Nat.ltb_lt _ _)) by done.
  destruct (VarIntReader.read src r cursor) as [[[r' c'] v]|] eqn:E; [|done].
  apply read_rec_progress in E as (Hp & Hc' & Hr' & Hw'); [|done|done].
  destruct (decode_index s last v) as [[[bytes s'] last']|]; [|done].
  apply IH; try done. lia.
Qed.

(** C37: [LZWDecompression::decode] does not return within the bounds of its
    source on any non-empty input: the reader's cursor stays on the byte it
    last read from, so the loop condition holds until a read is outside. *)
Theorem decode_reads_past_end s src : src <> [] -> decode s src = Undefined.
Proof.
  intros Hne. apply decode_loop_undefined; simpl; try lia.
  - destruct src; [done|simpl; lia].
  - unfold position. simpl. lia.
Qed.

Lemma decode_reads_past_end_witness : [7; 255; 128; 0] <> [] /\ decode make [7; 255; 128; 0] = Undefined.
Proof. split; [done|]. apply (decode_reads_past_end make). done. Defined.

End DecoderDefect.
