(* ===== verification/EventBuffer.v ===== *)
(** * Event buffers ([prims/EventBuffer.hpp], [prims/EventBuffer.cpp])

    A buffer owns an area of memory; [data] are its bytes, [top] the offset of
    the first free byte from [bottom].  Buffers are passed by value, the area
    belongs to the last copy: the code never uses the copy it handed on. *)

From S2P Require Import Prelude.
From Stdlib Require Import ZArith Lia.

Module EventBuffer.

Inductive EventBufferSyncLevel := Sync_None | Sync_Ensure_Order | Sync_Full.

Definition sync_code (s : EventBufferSyncLevel) : Z :=
  match s with Sync_None => 0 | Sync_Ensure_Order => 1 | Sync_Full => 2 end.

#[global] Instance sync_eq_dec : EqDecision EventBufferSyncLevel.
Proof. solve_decision. Defined.

(** [owner] is the address of the thread, [NULL] is 0. *)
Record buffer := Buffer {
  data : list Z;
  top : Z;
  id : Z;
  owner : Z;
  sync : EventBufferSyncLevel;
  is_compressed : bool;
}.

Definition NULL : Z := 0.

Definition sizeof_jint : Z := 4.

Definition MAX_EVENT_SIZE : Z := 200.

Section create.

(** [malloc_usable_size] of an area of the given number of bytes. *)
Variable malloc_usable_size : Z -> Z.

(** [last_id] is the static counter. *)
Definition create (last_id capacity : Z) (enforce_exact_capacity : bool) : Z * buffer :=
  let capacity := Z.max MAX_EVENT_SIZE capacity in
  let id := s32 (last_id + 1) in
  let capacity :=
    if negb enforce_exact_capacity then malloc_usable_size (capacity * sizeof_jint) / sizeof_jint else capacity in
  (id, Buffer (replicate (Z.to_nat (capacity * sizeof_jint)) 0) 0 id NULL Sync_None false).

End create.

Definition create_dummy : buffer := Buffer [] 0 (-1) NULL Sync_None false.

Definition destroy (b : buffer) : buffer := Buffer [] 0 0 NULL (sync b) false.

Definition is_valid (b : buffer) : bool := 0 <? id b.

Definition get_data (b : buffer) : list Z := data b.

Definition set_compression (b : buffer) (compressed_length : Z) : buffer :=
  Buffer (data b) compressed_length (id b) (owner b) (sync b) true.

Definition get_raw_length (b : buffer) : Z := top b.

(** Differences of [jint] pointers. *)
Definition get_length (b : buffer) : Z := top b / sizeof_jint.

Definition get_capacity (b : buffer) : Z := Z.of_nat (length (data b)) / sizeof_jint.

(** The offset of the allocated words, or [NULL]. *)
Definition allocate (b : buffer) (size : Z) : buffer * option Z :=
  let top_new := top b + size * sizeof_jint in
  if top_new <=? Z.of_nat (length (data b))
  then (Buffer (data b) top_new (id b) (owner b) (sync b) (is_compressed b), Some (top b))
  else (b, None).

Definition reset (b : buffer) : buffer := Buffer (data b) 0 (id b) NULL Sync_None false.

Definition set_owner (b : buffer) (thread : Z) : buffer :=
  Buffer (data b) (top b) (id b) thread (sync b) (is_compressed b).

Definition set_sync (b : buffer) (s : EventBufferSyncLevel) : buffer :=
  Buffer (data b) (top b) (id b) (owner b) s (is_compressed b).

Definition get_owner (b : buffer) : Z := owner b.

(** A store of bytes at an offset of the area. *)
Definition store (b : buffer) (offset : Z) (bytes : list Z) : buffer :=
  Buffer (take (Z.to_nat offset) (data b) ++ bytes ++ drop (Z.to_nat offset + length bytes) (data b))
    (top b) (id b) (owner b) (sync b) (is_compressed b).

(** ** Contents *)

Definition contents (b : buffer) : list Z := take (Z.to_nat (top b)) (data b).

(** [EventBuffer_assert_is_valid], except for the data. *)
Definition wf (b : buffer) : Prop :=
  0 <= top b <= Z.of_nat (length (data b)) /\ (4 | Z.of_nat (length (data b))) /\
  (is_compressed b = false -> (4 | top b)) /\ Forall is_byte (data b).

(** Stored little endian. *)
Definition words_bytes (ws : list Z) : list Z := concat (le_bytes 4 <$> ws).

Definition append (b : buffer) (ws : list Z) : option buffer :=
  match allocate b (Z.of_nat (length ws)) with
  | (b', Some p) => Some (store b' p (words_bytes ws))
  | (_, None) => None
  end.

Lemma words_bytes_length ws : length (words_bytes ws) = (4 * length ws)%nat.
Proof.
  unfold words_bytes. induction ws as [|w ws IH]; [done|]. cbn [fmap list_fmap concat].
  autorewrite with antz. rewrite IH. simpl. lia.
Qed.

Lemma words_bytes_are_bytes ws : Forall is_byte (words_bytes ws).
Proof.
  unfold words_bytes. induction ws as [|w ws IH]; [done|]. cbn [fmap list_fmap concat]. apply Forall_app. split; auto with ant.
Qed.

Lemma wf_reset b : wf b -> wf (reset b).
Proof. intros (Ht & Hd & _ & Hb). split_and!; simpl; [lia|lia|done|intros _; by exists 0|done]. Qed.

Lemma contents_reset b : contents (reset b) = [].
Proof. done. Qed.

Lemma contents_length b : wf b -> Z.of_nat (length (contents b)) = top b.
Proof. intros (Ht & _). unfold contents. rewrite length_take. lia. Qed.

Lemma contents_empty b : wf b -> is_compressed b = false -> get_length b = 0 -> contents b = [].
Proof.
  intros (Ht & _ & Hc & _) Hu Hl. destruct (Hc Hu) as [k Hk]. unfold get_length, sizeof_jint, contents in *.
  rewrite Hk, Z.div_mul in Hl by lia. by rewrite Hk, Hl.
Qed.

Section create_spec.
Variable malloc_usable_size : Z -> Z.

(** The documented behaviour: at least the requested number of bytes. *)
Hypothesis usable_ge : forall n, 0 <= n -> n <= malloc_usable_size n.

Lemma create_spec last_id capacity exact :
  0 <= last_id < 2 ^ 31 - 1 ->
  let '(last_id', b) := create malloc_usable_size last_id capacity exact in
  last_id' = last_id + 1 /\ id b = last_id' /\ is_valid b = true /\ wf b /\ contents b = [] /\
  Z.max MAX_EVENT_SIZE capacity <= get_capacity b /\ is_compressed b = false /\ owner b = NULL /\ sync b = Sync_None.
Proof.
  intros Hi. unfold create. set (cap := if negb exact then _ else _).
  assert (Z.max MAX_EVENT_SIZE capacity <= cap) as Hc.
  { subst cap. destruct exact; simpl; [lia|]. unfold sizeof_jint, MAX_EVENT_SIZE.
    apply Z.div_le_lower_bound; [lia|]. pose proof (usable_ge (Z.max 200 capacity * 4)). lia. }
  unfold MAX_EVENT_SIZE in *. rewrite swrap_small by lia.
  split_and!; simpl; try done; try lia.
  - unfold is_valid. simpl. apply Z.ltb_lt. lia.
  - unfold wf. simpl. rewrite length_replicate, Z2Nat.id by (unfold sizeof_jint; lia). split_and!; try lia.
    + unfold sizeof_jint. lia.
    + by exists cap.
    + intros _. by exists 0.
    + by apply Forall_replicate.
  - unfold get_capacity, sizeof_jint. simpl. rewrite length_replicate, Z2Nat.id, Z.div_mul by lia. done.
Qed.

End create_spec.

(** Allocating and storing words appends them to the contents; a refused
    allocation leaves the buffer alone, and is refused only for want of
    space. *)
Lemma append_spec b ws :
  wf b -> is_compressed b = false ->
  match append b ws with
  | Some b' => wf b' /\ contents b' = contents b ++ words_bytes ws /\
      get_capacity b' = get_capacity b /\ id b' = id b /\ owner b' = owner b /\ sync b' = sync b /\
      is_compressed b' = false
  | None => get_capacity b < get_length b + Z.of_nat (length ws)
  end.
Proof.
  intros (Ht & Hd & Hu & Hb) Hc. pose proof (words_bytes_length ws) as Hw. pose proof (words_bytes_are_bytes ws) as Hwb.
  destruct (Hu Hc) as [k Hk]. destruct Hd as [n Hn].
  unfold append, allocate, sizeof_jint. destruct (Z.leb_spec (top b + Z.of_nat (length ws) * 4) (Z.of_nat (length (data b)))) as [Hle|Hgt].
  - unfold store, wf, contents, get_capacity. cbn [data top id owner sync is_compressed].
    assert (length (take (Z.to_nat (top b)) (data b) ++ words_bytes ws ++
      drop (Z.to_nat (top b) + length (words_bytes ws)) (data b)) = length (data b)) as Hlen
      by (rewrite !length_app, length_take, length_drop; lia).
    rewrite Hlen. split_and!; try done; try lia.
    + by exists n.
    + intros _. exists (k + Z.of_nat (length ws)). lia.
    + apply Forall_app. split; [by apply Forall_take|]. apply Forall_app. split; [done|by apply Forall_drop].
    + replace (Z.to_nat (top b + Z.of_nat (length ws) * 4)) with (Z.to_nat (top b) + 4 * length ws)%nat by lia.
      rewrite take_app_add'; [|rewrite length_take; lia]. f_equal. apply take_app_length'. lia.
  - unfold get_capacity, get_length, sizeof_jint. rewrite Hn, Hk, !Z.div_mul by lia. lia.
Qed.

End EventBuffer.
