(* ===== verification/EventBufferList.v ===== *)
(** * Lists of event buffers ([prims/EventBufferList.hpp], [.cpp])

    A bounded ring that may grow, guarded by a monitor.  Every operation below
    is one critical section: it returns, or it waits for a notification, which
    gives up the monitor in the state shown; a notified thread evaluates the
    loop again, that is, calls the operation again on the state it finds. *)

From S2P Require Import Prelude.
From Stdlib Require Import ZArith Lia.

Module EventBufferList.

Inductive EventBufferListResizeMode :=
  resize_disabled | resize_enabled_preserve_order | resize_enabled_no_order.

Section EventBufferList.

(** [E] is the state the callbacks work on, [blank] the content of a cell
    that was never assigned. *)
Context {A E : Type}.
Variable blank : A.

(** The callbacks, [None] for [NULL]. *)
Variable underflow : option (E -> E * option A).
Variable overflow : option (A -> E -> E * bool).

Record ring := Ring {
  cells : list A;
  capacity : Z;
  max_capacity : Z;
  head : Z;
  tail : Z;
  resize_mode : EventBufferListResizeMode;
  finalized : bool;
}.

Inductive outcome (R : Type) :=
| Returns (q : ring) (e : E) (r : R)
| Waits (q : ring) (e : E).

Definition make (capacity : Z) (resize_mode : EventBufferListResizeMode) (max_capacity : Z) : ring :=
  let capacity := if capacity <? 1 then 1 else capacity in
  Ring (replicate (Z.to_nat capacity) blank) capacity max_capacity (-1) 0 resize_mode false.

Definition get_length (q : ring) : Z :=
  if head q <? 0 then 0
  else if head q <? tail q then tail q - head q else capacity q - (head q - tail q).

Definition is_empty (q : ring) : bool := (head q <? 0) && (tail q =? 0).

Definition is_full (q : ring) : bool := head q =? tail q.

(** [memcpy] and [realloc] stay inside the new array, otherwise [None]; so is
    a wait until the elements fit. *)
Definition resize_to (q : ring) (new_capacity : Z) (preserve_order : bool) : option ring :=
  let length := get_length q in
  if length <=? new_capacity then
    let grown := take (Z.to_nat (capacity q)) (cells q) ++
      replicate (Z.to_nat (new_capacity - capacity q)) blank in
    if preserve_order then
      let h := Z.to_nat (head q) in
      let c := Z.to_nat (capacity q) in
      if (0 <=? head q) && (capacity q + head q <=? new_capacity) then
        Some (Ring (take c grown ++ take h grown ++ drop (c + h) grown) new_capacity (max_capacity q)
          (head q) (head q + capacity q) (resize_mode q) (finalized q))
      else None
    else
      Some (Ring grown new_capacity (max_capacity q) 0 length (resize_mode q) (finalized q))
  else None.

Definition resizes (q : ring) : bool :=
  match resize_mode q with resize_disabled => false | _ => true end && (capacity q <? max_capacity q).

Definition preserves (q : ring) : bool :=
  match resize_mode q with resize_enabled_preserve_order => true | _ => false end.

(** The last part of [enqueue]; a store outside the array is undefined. *)
Definition append (q : ring) (buffer : A) : option ring :=
  let head := if head q <? 0 then tail q else head q in
  if (0 <=? tail q) && (tail q <? Z.of_nat (length (cells q))) && (0 <? capacity q) then
    Some (Ring (<[Z.to_nat (tail q) := buffer]> (cells q)) (capacity q) (max_capacity q)
      head ((tail q + 1) mod capacity q) (resize_mode q) (finalized q))
  else None.

Fixpoint enqueue_loop (fuel : nat) (q : ring) (e : E) (buffer : A) : option (outcome bool) :=
  match fuel with
  | O => None
  | S fuel' =>
      if negb (finalized q) && is_full q then
        if resizes q then
          q ← resize_to q (capacity q * 2) (preserves q);
          enqueue_loop fuel' q e buffer
        else
          match overflow with
          | Some f =>
              let '(e, handled) := f buffer e in
              Some (if handled : bool then Returns bool q e false else Waits bool q e)
          | None => Some (Waits bool q e)
          end
      else if finalized q then
        let e := match overflow with Some f => (f buffer e).1 | None => e end in
        Some (Returns bool q e false)
      else
        q ← append q buffer;
        Some (Returns bool q e true)
  end.

(** A resized ring is not full: at most two evaluations of the condition. *)
Definition enqueue (q : ring) (e : E) (buffer : A) : option (outcome bool) := enqueue_loop 2 q e buffer.

(** The common loop of [dequeue] and [peek]: [None] goes on. *)
Definition await (q : ring) (e : E) : option (outcome (option A)) :=
  if negb (finalized q) && is_empty q then
    match underflow with
    | Some f =>
        match f e with
        | (e, Some buffer) => Some (Returns (option A) q e (Some buffer))
        | (e, None) => Some (Waits (option A) q e)
        end
    | None => Some (Waits (option A) q e)
    end
  else if finalized q then Some (Returns (option A) q e None)
  else None.

Definition dequeue (q : ring) (e : E) : option (outcome (option A)) :=
  match await q e with
  | Some o => Some o
  | None =>
      if head q <? 0 then None else
      buffer ← cells q !! Z.to_nat (head q);
      let head := (head q + 1) mod capacity q in
      let '(head, tail) := if head =? tail q then (-1, 0) else (head, tail q) in
      Some (Returns (option A) (Ring (cells q) (capacity q) (max_capacity q) head tail (resize_mode q) (finalized q))
        e (Some buffer))
  end.

Definition peek (q : ring) (e : E) : option (outcome (option A)) :=
  match await q e with
  | Some o => Some o
  | None =>
      if head q <? 0 then None else
      buffer ← cells q !! Z.to_nat (head q);
      Some (Returns (option A) q e (Some buffer))
  end.

(** [handle] works on the state of the callbacks. *)
Fixpoint dequeue_all_loop (fuel : nat) (q : ring) (e : E) (handle : A -> E -> option E) : option (ring * E) :=
  match fuel with
  | O => None
  | S fuel' =>
      if is_empty q then Some (q, e)
      else
        o ← dequeue q e;
        match o with
        | Returns _ q e (Some buffer) =>
            e ← handle buffer e;
            dequeue_all_loop fuel' q e handle
        | Returns _ q e None => Some (q, e)
        | Waits _ _ _ => None
        end
  end.

Definition dequeue_all (q : ring) (e : E) (handle : A -> E -> option E) : option (ring * E) :=
  dequeue_all_loop (S (Z.to_nat (get_length q))) q e handle.

(** The elements [iterate] is called with, in order. *)
Fixpoint for_each_loop (fuel : nat) (q : ring) (i stop : Z) : option (list A) :=
  match fuel with
  | O => None
  | S fuel' =>
      if i =? stop then Some []
      else
        a ← cells q !! Z.to_nat i;
        l ← for_each_loop fuel' q ((i + 1) mod capacity q) stop;
        Some (a :: l)
  end.

Definition for_each (q : ring) (elements : bool) : option (list A) :=
  if elements && is_empty q then Some []
  else if negb elements && is_full q then Some []
  else
    let '(start, stop) := if elements then (head q, tail q) else (tail q, head q) in
    for_each_loop (S (Z.to_nat (capacity q))) q start stop.

Definition finalize (q : ring) : ring :=
  Ring (cells q) (capacity q) (max_capacity q) (head q) (tail q) (resize_mode q) true.

(** ** The elements of a ring *)

Definition rep (q : ring) (l : list A) : Prop :=
  0 < capacity q /\ Z.of_nat (length (cells q)) = capacity q /\ Z.of_nat (length l) <= capacity q /\
  (l = [] /\ head q = -1 /\ tail q = 0 \/
   l <> [] /\ 0 <= head q < capacity q /\ tail q = (head q + Z.of_nat (length l)) mod capacity q /\
   forall i a, l !! i = Some a -> cells q !! Z.to_nat ((head q + Z.of_nat i) mod capacity q) = Some a).

(** Offsets from the head wrap around at most once. *)
Lemma wrap_once h n c : 0 <= h < c -> 0 <= n <= c -> (h + n) mod c = if h + n <? c then h + n else h + n - c.
Proof.
  intros Hh Hn. destruct (Z.ltb_spec (h + n) c); [by apply Z.mod_small; lia|].
  symmetry. apply Z.mod_unique with 1; lia.
Qed.

Lemma is_empty_spec q l : rep q l -> is_empty q = bool_decide (l = []).
Proof.
  intros (Hc & _ & _ & [(-> & Hh & Ht)|(Hl & Hh & _)]); unfold is_empty.
  - by rewrite Hh, Ht.
  - rewrite (proj2 (Z.ltb_ge _ _)) by lia. by rewrite bool_decide_eq_false_2.
Qed.

Lemma length_pos (l : list A) : l <> [] -> (0 < length l)%nat.
Proof. destruct l; simpl; [done|lia]. Qed.

Lemma is_full_spec q l : rep q l -> is_full q = (Z.of_nat (length l) =? capacity q).
Proof.
  intros (Hc & _ & Hn & [(-> & Hh & Ht)|(Hl%length_pos & Hh & Ht & _)]); unfold is_full.
  - rewrite Hh, Ht. symmetry. apply Z.eqb_neq. cbn [length]. lia.
  - rewrite Ht, wrap_once by lia. destruct (Z.ltb_spec (head q + Z.of_nat (length l)) (capacity q));
      destruct (Z.eqb_spec (Z.of_nat (length l)) (capacity q)); (apply Z.eqb_eq || apply Z.eqb_neq); lia.
Qed.

Lemma get_length_spec q l : rep q l -> get_length q = Z.of_nat (length l).
Proof.
  intros (Hc & _ & Hn & [(-> & Hh & Ht)|(Hl%length_pos & Hh & Ht & _)]); unfold get_length.
  - by rewrite Hh.
  - rewrite (proj2 (Z.ltb_ge _ _)) by lia. rewrite Ht, wrap_once by lia.
    destruct (Z.ltb_spec (head q + Z.of_nat (length l)) (capacity q)); case_match; zbool; lia.
Qed.

Lemma make_ring_rep c mode max : rep (make c mode max) [].
Proof.
  unfold make, rep. simpl. rewrite length_replicate. destruct (Z.ltb_spec c 1); split_and!; try lia; by left.
Qed.

Lemma append_rep q l b :
  rep q l -> Z.of_nat (length l) < capacity q -> exists q', append q b = Some q' /\ rep q' (l ++ [b]) /\
    capacity q' = capacity q /\ max_capacity q' = max_capacity q /\ resize_mode q' = resize_mode q /\
    finalized q' = finalized q.
Proof.
  intros (Hc & Hlen & Hn & Hcase) Hroom. unfold append.
  assert (0 <= tail q < capacity q) as Ht.
  { destruct Hcase as [(_ & _ & ->)|(_ & _ & -> & _)]; [lia|]. apply Z.mod_pos_bound. lia. }
  rewrite (proj2 (Z.leb_le 0 (tail q))), (proj2 (Z.ltb_lt (tail q) _)), (proj2 (Z.ltb_lt 0 _)) by lia. cbn [andb].
  eexists. split; [done|]. split; [|done]. unfold rep. simpl. rewrite length_insert, length_app. simpl.
  split_and!; [lia..|]. right. split; [by destruct l|].
  destruct Hcase as [(-> & Hh & Htl)|(Hl%length_pos & Hh & Htl & Hat)].
  - rewrite Hh, Htl. simpl. split_and!; [lia|lia|done|]. intros i a Hi.
    destruct i as [|i]; simpl in Hi; simplify_eq. rewrite Z.mod_small by lia. apply list_lookup_insert_eq. lia.
  - rewrite (proj2 (Z.ltb_ge (head q) 0)) by lia. split_and!; [lia|lia| |].
    { rewrite Htl, Zplus_mod_idemp_l. f_equal. lia. }
    intros i a Hi. destruct (decide (i = length l)) as [->|Hne].
    + rewrite lookup_app_r, Nat.sub_diag in Hi by lia. simpl in Hi. simplify_eq.
      rewrite <- Htl. apply list_lookup_insert_eq. lia.
    + assert (i < length l)%nat as Hil by (apply lookup_lt_Some in Hi; rewrite length_app in Hi; simpl in Hi; lia).
      rewrite lookup_app_l in Hi by lia. rewrite list_lookup_insert_ne; [by apply Hat|].
      rewrite Htl, !wrap_once by lia. repeat case_match; zbool; lia.
Qed.

(** A full ring is its array, rotated. *)
Lemma full_cells q l : rep q l -> Z.of_nat (length l) = capacity q ->
  0 <= head q < capacity q /\ tail q = head q /\
  l = drop (Z.to_nat (head q)) (cells q) ++ take (Z.to_nat (head q)) (cells q).
Proof.
  intros (Hc & Hlen & _ & [(-> & _)|(Hl%length_pos & Hh & Ht & Hat)]) Hf; [simpl in Hf; lia|].
  split; [done|]. split. { rewrite Ht, wrap_once by lia. rewrite (proj2 (Z.ltb_ge _ _)); lia. }
  apply list_eq_same_length with (length l); [rewrite length_app, length_drop, length_take; lia|done|].
  intros i x y Hi Hx Hy. specialize (Hat i x Hx). rewrite wrap_once in Hat by lia.
  destruct (Z.ltb_spec (head q + Z.of_nat i) (capacity q)).
  - rewrite lookup_app_l, lookup_drop in Hy by (rewrite length_drop; lia).
    replace (Z.to_nat (head q) + i)%nat with (Z.to_nat (head q + Z.of_nat i)) in Hy by lia. congruence.
  - rewrite lookup_app_r, length_drop, lookup_take_lt in Hy by (rewrite ?length_drop; lia).
    replace (i - _)%nat with (Z.to_nat (head q + Z.of_nat i - capacity q)) in Hy by lia. congruence.
Qed.

Lemma resize_rep q l :
  rep q l -> Z.of_nat (length l) = capacity q ->
  exists q' l', resize_to q (capacity q * 2) (preserves q) = Some q' /\ rep q' l' /\ l' ≡ₚ l /\
    (preserves q = true -> l' = l) /\ capacity q' = capacity q * 2 /\ max_capacity q' = max_capacity q /\
    resize_mode q' = resize_mode q /\ finalized q' = finalized q.
Proof.
  intros Hr Hf. destruct (full_cells q l Hr Hf) as (Hh & Ht & Hl). pose proof (get_length_spec q l Hr) as Hg.
  destruct Hr as (Hc & Hlen & _ & _). unfold resize_to. rewrite Hg, (proj2 (Z.leb_le _ _)) by lia.
  rewrite (take_ge (cells q)) by lia. destruct (preserves q) eqn:Hp.
  - rewrite (proj2 (Z.leb_le 0 (head q))), (proj2 (Z.leb_le (capacity q + head q) _)) by lia. cbn [andb].
    eexists _, l. split; [done|]. split; [|done]. set (h := Z.to_nat (head q)) in *.
    rewrite take_app_length', (take_app_le _ _ h), drop_app_ge by lia.
    replace (Z.to_nat (capacity q) + h - length (cells q))%nat with h by lia.
    unfold rep. simpl. rewrite !length_app, length_take, length_drop, length_replicate.
    split_and!; [lia..|]. right. split; [by destruct l; [simpl in Hf; lia|]|]. split; [lia|].
    split; [rewrite Z.mod_small; lia|]. intros i a Hi.
    pose proof (lookup_lt_Some _ _ _ Hi). rewrite Z.mod_small by lia.
    assert (cells q ++ take h (cells q) = take h (cells q) ++ l) as Hrot
      by (rewrite Hl, app_assoc, take_drop; done).
    rewrite app_assoc, Hrot, lookup_app_l by (rewrite length_app, length_take; lia).
    rewrite lookup_app_r by (rewrite length_take; lia). rewrite length_take, <- Hi. f_equal. lia.
  - eexists _, (cells q). split; [done|]. split_and!; try done.
    + unfold rep. simpl. rewrite length_app, length_replicate. split_and!; [lia..|]. right.
      split; [by destruct (cells q); [simpl in Hlen; lia|]|]. split; [lia|].
      split; [rewrite Z.mod_small; lia|]. intros i a Hi. pose proof (lookup_lt_Some _ _ _ Hi).
      rewrite Z.mod_small, Z.add_0_l, Nat2Z.id by lia. by rewrite lookup_app_l by lia.
    + rewrite Hl, Permutation_app_comm. by rewrite take_drop.
Qed.

Lemma await_spec q l e :
  rep q l -> l <> [] -> finalized q = false -> await q e = None.
Proof.
  intros Hr Hl Hf. unfold await. rewrite Hf, (is_empty_spec q l Hr), bool_decide_eq_false_2 by done. done.
Qed.

Lemma head_cell q b l : rep q (b :: l) -> (head q <? 0) = false /\ cells q !! Z.to_nat (head q) = Some b.
Proof.
  intros (Hc & _ & _ & [(? & _)|(_ & Hh & _ & Hat)]); [done|]. split; [apply Z.ltb_ge; lia|].
  specialize (Hat 0%nat b eq_refl). by rewrite Z.add_0_r, Z.mod_small in Hat by lia.
Qed.

(** The outcomes of the operations in terms of the elements. *)

Lemma dequeue_spec q b l e :
  rep q (b :: l) -> finalized q = false ->
  exists q', dequeue q e = Some (Returns (option A) q' e (Some b)) /\ rep q' l /\
    capacity q' = capacity q /\ max_capacity q' = max_capacity q /\ resize_mode q' = resize_mode q /\ finalized q' = false.
Proof.
  intros Hr Hf. unfold dequeue. rewrite (await_spec q (b :: l)) by done.
  destruct (head_cell q b l Hr) as [-> ->]. cbn [mbind option_bind].
  destruct Hr as (Hc & Hlen & Hn & [(? & _)|(_ & Hh & Ht & Hat)]); [done|]. cbn [length] in *.
  assert (tail q = ((head q + 1) mod capacity q + Z.of_nat (length l)) mod capacity q) as Ht'.
  { rewrite Zplus_mod_idemp_l, Ht. f_equal. lia. }
  pose proof (Z.mod_pos_bound (head q + 1) (capacity q) ltac:(lia)) as Hb.
  destruct l as [|b2 l].
  - simpl in Ht'. rewrite Z.add_0_r, Z.mod_mod in Ht' by lia. rewrite <- Ht', Z.eqb_refl.
    eexists. split; [done|]. split; [|done]. unfold rep. simpl. split_and!; [lia..|]. by left.
  - assert ((head q + 1) mod capacity q <> tail q) as Hne.
    { rewrite Ht, !wrap_once by (cbn [length] in *; lia). cbn [length] in *. repeat case_match; zbool; lia. }
    rewrite (proj2 (Z.eqb_neq _ _) Hne). eexists. split; [done|]. split; [|done]. unfold rep. simpl.
    split_and!; [lia|lia|cbn [length] in *; lia|]. right. split_and!; [done|lia|lia|done|].
    intros i a Hi. rewrite Zplus_mod_idemp_l.
    replace (head q + 1 + Z.of_nat i) with (head q + Z.of_nat (S i)) by lia. by apply Hat.
Qed.

Lemma peek_spec q b l e :
  rep q (b :: l) -> finalized q = false -> peek q e = Some (Returns (option A) q e (Some b)).
Proof.
  intros Hr Hf. unfold peek. rewrite (await_spec q (b :: l)) by done. by destruct (head_cell q b l Hr) as [-> ->].
Qed.

Lemma empty_spec q e :
  rep q [] -> finalized q = false ->
  dequeue q e = peek q e /\
  dequeue q e = match underflow with
    | Some f => match f e with
                | (e, Some b) => Some (Returns (option A) q e (Some b))
                | (e, None) => Some (Waits (option A) q e)
                end
    | None => Some (Waits (option A) q e)
    end.
Proof.
  intros Hr Hf. unfold dequeue, peek, await. rewrite Hf, (is_empty_spec q [] Hr). simpl.
  by destruct underflow as [f|]; [destruct (f e) as [? [?|]]|].
Qed.

(** Whether an element may be added: there is room, or the ring may grow. *)
Definition accepts (q : ring) (l : list A) : bool := (Z.of_nat (length l) <? capacity q) || resizes q.

Lemma enqueue_spec q l e b :
  rep q l -> finalized q = false -> accepts q l = true ->
  exists q' l', enqueue q e b = Some (Returns bool q' e true) /\ rep q' (l' ++ [b]) /\ l' ≡ₚ l /\
    (preserves q = true \/ resize_mode q = resize_disabled -> l' = l) /\
    capacity q' = (if Z.of_nat (length l) <? capacity q then capacity q else capacity q * 2) /\
    max_capacity q' = max_capacity q /\ resize_mode q' = resize_mode q /\ finalized q' = false.
Proof.
  intros Hr Hf Ha. unfold enqueue. cbn [enqueue_loop]. rewrite Hf, (is_full_spec q l Hr). simpl.
  unfold accepts in Ha. pose proof Hr as (Hpos & _ & Hn & _). destruct (Z.ltb_spec (Z.of_nat (length l)) (capacity q)) as [Hlt|Hge].
  - rewrite (proj2 (Z.eqb_neq _ _)) by lia. destruct (append_rep q l b Hr Hlt) as (q' & -> & Hr' & Hc & Hm & Hrm & Hfin).
    cbn [mbind option_bind]. exists q', l. split_and!; try done. congruence.
  - rewrite (proj2 (Z.eqb_eq _ _)) by lia. simpl in Ha. rewrite Ha.
    destruct (resize_rep q l Hr ltac:(lia)) as (q1 & l1 & -> & Hr1 & Hp & Heq & Hc & Hm & Hrm & Hfin). cbn [mbind option_bind].
    pose proof (Permutation_length Hp) as Hlp. rewrite Hfin, Hf, (is_full_spec q1 l1 Hr1). simpl.
    rewrite (proj2 (Z.eqb_neq _ _)) by lia.
    destruct (append_rep q1 l1 b Hr1) as (q2 & -> & Hr2 & Hc2 & Hm2 & Hrm2 & Hfin2); [lia|]. cbn [mbind option_bind].
    exists q2, l1. split_and!; try done; try congruence.
    intros [?|Hd]; [by apply Heq|]. unfold resizes in Ha. by rewrite Hd in Ha.
Qed.

Lemma enqueue_full q l e b :
  rep q l -> finalized q = false -> accepts q l = false ->
  enqueue q e b = Some (match overflow with
    | Some f => let '(e, handled) := f b e in if handled then Returns bool q e false else Waits bool q e
    | None => Waits bool q e
    end).
Proof.
  intros Hr Hf Ha. unfold enqueue. cbn [enqueue_loop]. unfold accepts in Ha. apply orb_false_iff in Ha as [Hl Hz].
  pose proof Hr as (_ & _ & Hn & _). zbool.
  rewrite Hf, (is_full_spec q l Hr), (proj2 (Z.eqb_eq _ _)), Hz by lia. simpl.
  destruct overflow as [f|]; [|done]. by destruct (f b e) as [? [|]].
Qed.

Lemma for_each_loop_spec fuel q l h stop :
  0 <= h < capacity q -> Z.of_nat (length l) < capacity q -> stop = (h + Z.of_nat (length l)) mod capacity q ->
  (forall i a, l !! i = Some a -> cells q !! Z.to_nat ((h + Z.of_nat i) mod capacity q) = Some a) ->
  (length l < fuel)%nat -> for_each_loop fuel q h stop = Some l.
Proof.
  revert h l. induction fuel as [|fuel IH]; intros h l Hh Hl -> Hat Hf; [lia|]. cbn [for_each_loop].
  destruct l as [|a l].
  - simpl. rewrite Z.add_0_r, Z.mod_small, Z.eqb_refl by lia. done.
  - cbn [length] in *. rewrite (proj2 (Z.eqb_neq _ _)).
    2:{ rewrite wrap_once by lia. case_match; zbool; lia. }
    pose proof (Hat 0%nat a eq_refl) as H0. rewrite Z.add_0_r, Z.mod_small in H0 by lia. rewrite H0. cbn [mbind option_bind].
    rewrite (IH _ l); [done|apply Z.mod_pos_bound; lia|lia| | |lia].
    + rewrite Zplus_mod_idemp_l. f_equal. lia.
    + intros i x Hi. rewrite Zplus_mod_idemp_l. replace (h + 1 + Z.of_nat i) with (h + Z.of_nat (S i)) by lia. by apply Hat.
Qed.

(** [for_each] visits the elements in order, unless the ring is full:
    then its first index is its last and it visits nothing. *)
Theorem for_each_visits q l :
  rep q l -> for_each q true = Some (if Z.of_nat (length l) =? capacity q then [] else l).
Proof.
  intros Hr. unfold for_each. rewrite (is_empty_spec q l Hr). cbn [andb negb].
  destruct Hr as (Hc & Hlen & Hn & [(-> & Hh & Ht)|(Hl & Hh & Ht & Hat)]).
  { rewrite bool_decide_eq_true_2 by done. by destruct (_ =? _). }
  rewrite bool_decide_eq_false_2 by done. destruct (Z.eqb_spec (Z.of_nat (length l)) (capacity q)) as [Hf|Hf].
  - rewrite Ht, wrap_once, (proj2 (Z.ltb_ge _ _)) by lia. cbn [for_each_loop].
    by rewrite (proj2 (Z.eqb_eq _ _)) by lia.
  - apply for_each_loop_spec; [done|lia|done|done|lia].
Qed.

(** ** Refinement

    The contract: a first-in first-out queue with room for [room] elements,
    doubled on demand while it is below [max]. *)

Inductive op := Enqueue (b : A) | Dequeue | Peek.
Inductive reply := Accepted | Refused | Got (b : A) | Blocked.

Record fifo := Fifo { items : list A; room : Z }.

Definition fifo_step (growable : bool) (max : Z) (f : fifo) (e : E) (o : op) : fifo * E * reply :=
  match o with
  | Enqueue b =>
      if Z.of_nat (length (items f)) <? room f then (Fifo (items f ++ [b]) (room f), e, Accepted)
      else if growable && (room f <? max) then (Fifo (items f ++ [b]) (room f * 2), e, Accepted)
      else match overflow with
           | Some h => let '(e, handled) := h b e in (f, e, if handled then Refused else Blocked)
           | None => (f, e, Blocked)
           end
  | _ =>
      match items f with
      | b :: l => (match o with Peek => f | _ => Fifo l (room f) end, e, Got b)
      | [] => match underflow with
              | Some h => match h e with (e, Some b) => (f, e, Got b) | (e, None) => (f, e, Blocked) end
              | None => (f, e, Blocked)
              end
      end
  end.

Definition ring_step (q : ring) (e : E) (o : op) : option (ring * E * reply) :=
  match o with
  | Enqueue b =>
      r ← enqueue q e b;
      Some (match r with
            | Returns _ q e true => (q, e, Accepted)
            | Returns _ q e false => (q, e, Refused)
            | Waits _ q e => (q, e, Blocked)
            end)
  | Dequeue | Peek =>
      r ← (match o with Peek => peek q e | _ => dequeue q e end);
      Some (match r with
            | Returns _ q e (Some b) => (q, e, Got b)
            | Returns _ q e None => (q, e, Refused)
            | Waits _ q e => (q, e, Blocked)
            end)
  end.

Fixpoint fifo_run (growable : bool) (max : Z) (f : fifo) (e : E) (os : list op) : E * list reply :=
  match os with
  | [] => (e, [])
  | o :: os =>
      let '(f, e, r) := fifo_step growable max f e o in
      let '(e, rs) := fifo_run growable max f e os in
      (e, r :: rs)
  end.

Fixpoint ring_run (q : ring) (e : E) (os : list op) : option (E * list reply) :=
  match os with
  | [] => Some (e, [])
  | o :: os =>
      '(q, e, r) ← ring_step q e o;
      '(e, rs) ← ring_run q e os;
      Some (e, r :: rs)
  end.

Definition grows (m : EventBufferListResizeMode) : bool :=
  match m with resize_disabled => false | _ => true end.

(** The simulation relation. *)
Definition refines (mode : EventBufferListResizeMode) (max : Z) (q : ring) (f : fifo) : Prop :=
  rep q (items f) /\ capacity q = room f /\ max_capacity q = max /\ resize_mode q = mode /\ finalized q = false.

Lemma ring_step_refines mode max q f e o :
  mode <> resize_enabled_no_order -> refines mode max q f ->
  exists q' f' e' r, ring_step q e o = Some (q', e', r) /\ fifo_step (grows mode) max f e o = (f', e', r) /\
    refines mode max q' f'.
Proof.
  intros Hm (Hr & Hc & Hx & Hrm & Hf). destruct f as [l n]. simpl in *. destruct o as [b| |]; cbn [ring_step fifo_step items room].
  - assert (accepts q l = (Z.of_nat (length l) <? n) || (grows mode && (n <? max))) as Ha
      by (unfold accepts, resizes, grows; by rewrite Hrm, Hc, Hx).
    destruct (accepts q l) eqn:Hacc.
    + destruct (enqueue_spec q l e b Hr Hf Hacc) as (q' & l' & -> & Hr' & _ & Heq & Hc' & Hx' & Hrm' & Hf').
      assert (l' = l) as ->. { apply Heq. unfold preserves. rewrite Hrm. destruct mode; auto. }
      cbn [mbind option_bind]. rewrite Hc in Hc'. destruct (Z.ltb_spec (Z.of_nat (length l)) n); simpl in Ha.
      * exists q', (Fifo (l ++ [b]) n), e, Accepted. split_and!; try done; unfold refines; split_and!; simpl; congruence.
      * rewrite <- Ha. exists q', (Fifo (l ++ [b]) (n * 2)), e, Accepted. split_and!; try done; unfold refines; split_and!; simpl; congruence.
    + rewrite (enqueue_full q l e b Hr Hf Hacc). cbn [mbind option_bind].
      symmetry in Ha. apply orb_false_iff in Ha as [-> ->].
      destruct overflow as [h|]; [destruct (h b e) as [e' [|]]|]; eexists _, _, _, _; done.
  - destruct l as [|b l].
    + destruct (empty_spec q e Hr Hf) as [_ ->]. cbn [mbind option_bind].
      destruct underflow as [h|]; [destruct (h e) as [e' [b|]]|]; eexists _, _, _, _; done.
    + destruct (dequeue_spec q b l e Hr Hf) as (q' & -> & Hr' & ? & ? & ? & ?). cbn [mbind option_bind].
      exists q', (Fifo l n), e, (Got b). split_and!; try done; unfold refines; split_and!; simpl; congruence.
  - destruct l as [|b l].
    + destruct (empty_spec q e Hr Hf) as [<- ->]. cbn [mbind option_bind].
      destruct underflow as [h|]; [destruct (h e) as [e' [b|]]|]; eexists _, _, _, _; done.
    + rewrite (peek_spec q b l e Hr Hf). cbn [mbind option_bind]. by exists q, (Fifo (b :: l) n), e, (Got b).
Qed.

Lemma ring_run_refines mode max os q f e :
  mode <> resize_enabled_no_order -> refines mode max q f ->
  ring_run q e os = Some (fifo_run (grows mode) max f e os).
Proof.
  intros Hm. revert q f e. induction os as [|o os IH]; intros q f e Hr; cbn [ring_run fifo_run]; [done|].
  destruct (ring_step_refines mode max q f e o Hm Hr) as (q' & f' & e' & r & -> & -> & Hr'). cbn [mbind option_bind].
  rewrite (IH q' f' e' Hr'). cbn [mbind option_bind]. by destruct (fifo_run _ _ _ _ _).
Qed.


End EventBufferList.

Arguments ring : clear implicits.
Arguments outcome : clear implicits.
Arguments Returns {A E R}.
Arguments Waits {A E R}.
Arguments op : clear implicits.
Arguments reply : clear implicits.
Arguments Enqueue {A}.
Arguments Dequeue {A}.
Arguments Peek {A}.
Arguments Accepted {A}.
Arguments Refused {A}.
Arguments Got {A}.
Arguments Blocked {A}.

(** A ring of one cell with one element. *)
Definition full_ring : ring Z := Ring [7] 1 1 0 0 resize_disabled false.

Lemma for_each_visits_witness : rep full_ring [7] /\ for_each full_ring true = Some [].
Proof.
  assert (rep full_ring [7]) as Hr.
  { split_and!; simpl; [lia|lia|lia|]. right. split_and!; [done|lia|lia|done|].
    intros [|i] a Hi; [done|]. by destruct i. }
  split; [exact Hr|]. exact (for_each_visits full_ring [7] Hr).
Defined.


End EventBufferList.
