(* ===== verification/EventsWriter.v ===== *)
(** * Trace files ([prims/AllocationTracingIO.cpp], [prims/EventsWriter.cpp])

    A trace file is a header followed by frames, one per event buffer.  The
    reader is the analyzer's ([BaseFile], [TraceFile], [TraceParser.dispatch]);
    [TraceReader] models it on the bytes of a file. *)

From S2P Require Import Prelude EventBuffer.
From Stdlib Require Import ZArith Lia.

Module AllocationTracingIO.

Definition FILE_TYPE_SYMBOLS : Z := 0.
Definition FILE_TYPE_TRACE : Z := 1.
Definition FILE_TYPE_CLASS_DEFINITIONS : Z := 2.

Definition MAGIC : Z := 12648430.

(** [closed] are the files closed by [reset], [file] the bytes of the current
    one.  File names and the failures of the C library are left out. *)
Record io := IO {
  closed : list (list Z);
  file : list Z;
  max_files : Z;
  cur_file_index : Z;
  total_bytes_written : Z;
}.

Definition jint_bytes (z : Z) : list Z := le_bytes 4 z.

Definition write (w : io) (bytes : list Z) : io :=
  IO (closed w) (file w ++ bytes) (max_files w) (cur_file_index w)
    (total_bytes_written w + Z.of_nat (length bytes)).

Definition make (max_files : Z) : io := IO [] [] (Z.max 1 max_files) 0 0.

Section header.

(** [identification_header], chosen at random once for all files of a run. *)
Variable identification_header : list Z.

(** The virtual functions. *)
Variable get_file_type : Z.
Variable write_header : io -> io.

Definition write_global_header (w : io) : io :=
  let w := write w (jint_bytes MAGIC) in
  let w := write w (jint_bytes (Z.of_nat (length identification_header))) in
  let w := write w (concat (jint_bytes <$> identification_header)) in
  let w := write w (jint_bytes get_file_type) in
  write_header w.

Definition create_file (w : io) : io :=
  write_global_header (IO (closed w) [] (max_files w) (cur_file_index w) 0).

Definition init (w : io) : io := create_file w.

Definition close (w : io) : io :=
  IO (closed w ++ [file w]) [] (max_files w) (cur_file_index w) (total_bytes_written w).

Definition reset (w : io) : io :=
  let w := close w in
  create_file (IO (closed w) (file w) (max_files w) (cur_file_index w + 1) (total_bytes_written w)).

End header.

End AllocationTracingIO.

Module EventsWriter.
Import EventBuffer AllocationTracingIO.

Definition get_file_type : Z := FILE_TYPE_TRACE.

Definition write_header (w : io) : io := write w (jint_bytes (s32 (cur_file_index w))).

(** [length | compressed << 31 | sync << 29], truncated to a [jint]. *)
Definition metadata (b : buffer) : Z :=
  s32 ((get_raw_length b .| ((if is_compressed b then 1 else 0) ≪ 31)) .| (sync_code (sync b) ≪ 29)).

Definition write_buffer_unlocked (w : io) (b : buffer) : io * buffer :=
  let length := get_raw_length b in
  let w := write w (le_bytes 8 (get_owner b)) in
  let w := write w (jint_bytes (metadata b)) in
  let w := write w (take (Z.to_nat length) (get_data b)) in
  (w, EventBuffer.reset b).

(** Under the lock. *)
Definition write_buffer (w : io) (b : buffer) : io * buffer := write_buffer_unlocked w b.

Definition write_buffers (w : io) (bs : list buffer) : io := foldl (fun w b => (write_buffer w b).1) w bs.

Definition open (identification_header : list Z) (max_files : Z) : io :=
  init identification_header get_file_type write_header (make max_files).

End EventsWriter.

(** ** The analyzer's reader *)

Module TraceReader.

Definition getInt (bytes : list Z) : option (Z * list Z) :=
  if (4 <=? length bytes)%nat then Some (s32 (le_val (take 4 bytes)), drop 4 bytes) else None.

Definition getLong (bytes : list Z) : option (Z * list Z) :=
  if (8 <=? length bytes)%nat then Some (s64 (le_val (take 8 bytes)), drop 8 bytes) else None.

Definition MAGIC_START : Z := 12648430.

Fixpoint getInts (n : nat) (bytes : list Z) : option (list Z * list Z) :=
  match n with
  | O => Some ([], bytes)
  | S n =>
      '(i, bytes) ← getInt bytes;
      '(l, bytes) ← getInts n bytes;
      Some (i :: l, bytes)
  end.

(** The header and the file type; [None] is an exception. *)
Definition readFileInfo (bytes : list Z) : option (list Z * Z * list Z) :=
  '(magic, bytes) ← getInt bytes;
  if negb (magic =? MAGIC_START) then None else
  '(n, bytes) ← getInt bytes;
  if n <? 0 then None else
  '(header, bytes) ← getInts (Z.to_nat n) bytes;
  '(fileType, bytes) ← getInt bytes;
  Some (header, fileType, bytes).

Definition readTraceFileInfo (bytes : list Z) : option (list Z * Z * Z * list Z) :=
  '(header, fileType, bytes) ← readFileInfo bytes;
  '(index, bytes) ← getInt bytes;
  Some (header, fileType, index, bytes).

Definition COMPRESSED_MASK : Z := s32 (1 ≪ 31).
Definition SYNC_LOCATION : Z := 29.
Definition SYNC_MASK : Z := 3 ≪ SYNC_LOCATION.
Definition LENGTH_MASK : Z := Z.lnot (COMPRESSED_MASK .| SYNC_MASK).

Inductive SyncLevel := NONE | ENSURE_ORDER | FULL.

Definition SyncLevel_parse (id : Z) : option SyncLevel :=
  if id =? 0 then Some NONE else if id =? 1 then Some ENSURE_ORDER else if id =? 2 then Some FULL else None.

Record QueueEntry := Entry { thread : Z; buffer : list Z; isCompressed : bool; sync : option SyncLevel }.

(** The loop of [dispatch] on what is left of the file: the entries put into
    the queue.  It ends when no thread is left; an exception inside a frame
    ends it as well. *)
Fixpoint dispatch_loop (fuel : nat) (bytes : list Z) : option (list QueueEntry) :=
  match fuel with
  | O => None
  | S fuel' =>
      match getLong bytes with
      | None => Some []
      | Some (thread, bytes) =>
          match getInt bytes with
          | None => Some []
          | Some (metadata, bytes) =>
              let len := metadata .& LENGTH_MASK in
              let isCompressed := negb (metadata .& COMPRESSED_MASK =? 0) in
              let sync := SyncLevel_parse ((metadata .& SYNC_MASK) ≫ SYNC_LOCATION) in
              if len <=? Z.of_nat (length bytes) then
                rest ← dispatch_loop fuel' (drop (Z.to_nat len) bytes);
                Some (Entry thread (take (Z.to_nat len) bytes) isCompressed sync :: rest)
              else Some []
          end
      end
  end.

(** Each frame is at least twelve bytes long. *)
Definition dispatch (bytes : list Z) : option (list QueueEntry) := dispatch_loop (S (length bytes)) bytes.

End TraceReader.

(** ** The round trip *)

Module TraceFileRoundtrip.
Import EventBuffer AllocationTracingIO EventsWriter TraceReader.

Lemma getInt_bytes z rest : getInt (jint_bytes z ++ rest) = Some (s32 z, rest).
Proof.
  unfold getInt, jint_bytes. autorewrite with antz. rewrite (proj2 (Nat.leb_le _ _)) by lia. by rewrite le_val_bytes, swrap_mod.
Qed.

Lemma getLong_bytes z rest : getLong (le_bytes 8 z ++ rest) = Some (s64 z, rest).
Proof.
  unfold getLong. autorewrite with antz. rewrite (proj2 (Nat.leb_le _ _)) by lia. by rewrite le_val_bytes, swrap_mod.
Qed.

Lemma getInts_bytes l rest : getInts (length l) (concat (jint_bytes <$> l) ++ rest) = Some (s32 <$> l, rest).
Proof.
  induction l as [|z l IH]; [done|]. cbn [length fmap list_fmap concat getInts].
  rewrite <- app_assoc, getInt_bytes. cbn [mbind option_bind]. by rewrite IH.
Qed.

(** The three fields of the metadata word. *)
Lemma metadata_fields n (c : bool) s :
  0 <= n < 2 ^ 29 -> 0 <= s < 4 ->
  let m := s32 ((n .| ((if c then 1 else 0) ≪ 31)) .| (s ≪ 29)) in
  m .& LENGTH_MASK = n /\ negb (m .& COMPRESSED_MASK =? 0) = c /\ (m .& SYNC_MASK) ≫ SYNC_LOCATION = s.
Proof.
  intros Hn Hs m.
  assert ((n .| ((if c then 1 else 0) ≪ 31)) .| (s ≪ 29) = (if c then 1 else 0) * 2 ^ 31 + (s * 2 ^ 29 + n)) as E.
  { rewrite <- Z.lor_assoc, (Z.lor_comm (_ ≪ 31)), Z.lor_assoc, (Z.lor_comm n), (Z.lor_comm _ (_ ≪ 31)).
    rewrite (lor_disjoint_add s) by lia. rewrite lor_disjoint_add by lia. done. }
  assert (m = (if c then -1 else 0) * 2 ^ 31 + (s * 2 ^ 29 + n)) as Hm.
  { subst m. rewrite E. unfold swrap. destruct c.
    - replace (1 * 2 ^ 31 + (s * 2 ^ 29 + n) + 2 ^ (32 - 1)) with (s * 2 ^ 29 + n + 1 * 2 ^ 32) by lia.
      rewrite Z.mod_add, Z.mod_small by lia. lia.
    - rewrite Z.mod_small by lia. lia. }
  split_and!.
  - change LENGTH_MASK with (Z.ones 29). rewrite Z.land_ones, Hm by lia.
    assert ((if c then -1 else 0) * 2 ^ 31 + (s * 2 ^ 29 + n) = n + ((if c then -1 else 0) * 4 + s) * 2 ^ 29) as -> by (destruct c; lia).
    rewrite Z.mod_add, Z.mod_small by lia. done.
  - change COMPRESSED_MASK with (Z.lnot (Z.ones 31)). rewrite <- Z.ldiff_land, Z.ldiff_ones_r, Hm by lia.
    rewrite Z.shiftr_div_pow2, Z.shiftl_mul_pow2, Z.div_add_l, (Z.div_small (s * 2 ^ 29 + n)) by lia. by destruct c.
  - rewrite Z.shiftr_land. change (SYNC_MASK ≫ SYNC_LOCATION) with (Z.ones 2). rewrite Z.land_ones, Hm by (unfold SYNC_LOCATION; lia).
    unfold SYNC_LOCATION. rewrite Z.shiftr_div_pow2 by lia.
    assert ((if c then -1 else 0) * 2 ^ 31 + (s * 2 ^ 29 + n) = ((if c then -1 else 0) * 4 + s) * 2 ^ 29 + n) as -> by (destruct c; lia).
    rewrite Z.div_add_l, (Z.div_small n) by lia. rewrite Z.add_0_r, Z.add_comm.
    change (2 ^ 2) with 4. rewrite Z.mod_add, Z.mod_small by lia. done.
Qed.

Definition level (s : EventBufferSyncLevel) : SyncLevel :=
  match s with Sync_None => NONE | Sync_Ensure_Order => ENSURE_ORDER | Sync_Full => FULL end.

(** What the reader should find for a buffer. *)
Definition entry_of (b : EventBuffer.buffer) : QueueEntry :=
  Entry (s64 (owner b)) (contents b) (is_compressed b) (Some (level (EventBuffer.sync b))).

Definition frame (b : EventBuffer.buffer) : list Z :=
  le_bytes 8 (owner b) ++ jint_bytes (metadata b) ++ contents b.

(** A length below 2^29 leaves room for the flags. *)
Definition framable (b : EventBuffer.buffer) : Prop := wf b /\ top b < 2 ^ 29.

Lemma write_buffer_frame w b : file (write_buffer w b).1 = file w ++ frame b.
Proof. unfold frame. simpl. by rewrite <- !app_assoc. Qed.

Lemma write_buffers_frames w bs : file (write_buffers w bs) = file w ++ concat (frame <$> bs).
Proof.
  revert w. induction bs as [|b bs IH]; intros w; [by rewrite app_nil_r|].
  unfold write_buffers in *. cbn [foldl fmap list_fmap concat]. rewrite IH, write_buffer_frame. by rewrite <- app_assoc.
Qed.

Lemma sync_parse s : SyncLevel_parse (sync_code s) = Some (level s).
Proof. by destruct s. Qed.

Lemma dispatch_frames bs fuel :
  Forall framable bs -> (length bs < fuel)%nat ->
  dispatch_loop fuel (concat (frame <$> bs)) = Some (entry_of <$> bs).
Proof.
  intros Hb. revert fuel. induction Hb as [|b bs [Hw Ht] Hb IH]; intros fuel Hf; (destruct fuel as [|fuel]; [simpl in Hf; lia|]).
  { done. }
  cbn [fmap list_fmap concat dispatch_loop length] in *. unfold frame at 1.
  rewrite <- !app_assoc, getLong_bytes, getInt_bytes.
  pose proof (contents_length b Hw) as Hl. destruct Hw as (Hpos & _).
  assert (s32 (metadata b) = metadata b) as -> by (unfold metadata; by rewrite swrap_swrap by lia).
  destruct (metadata_fields (get_raw_length b) (is_compressed b) (sync_code (EventBuffer.sync b))) as (E1 & E2 & E3);
    [unfold get_raw_length; lia|by destruct (EventBuffer.sync b)|].
  unfold metadata. rewrite E1, E2, E3, sync_parse. unfold get_raw_length.
  rewrite (proj2 (Z.leb_le _ _)) by (rewrite length_app; lia).
  rewrite drop_app_length', take_app_length' by lia. cbn [mbind option_bind]. rewrite IH by lia. done.
Qed.

Lemma create_file_bytes header w :
  file (create_file header get_file_type write_header w) =
    jint_bytes MAGIC ++ jint_bytes (Z.of_nat (length header)) ++ concat (jint_bytes <$> header) ++
    jint_bytes FILE_TYPE_TRACE ++ jint_bytes (s32 (cur_file_index w)).
Proof.
  unfold create_file, write_global_header, write_header, write. cbn [file cur_file_index].
  by rewrite app_nil_l, <- !app_assoc.
Qed.

(** The part of the header that all files have. *)
Lemma file_info_read header type rest :
  Forall (fun z => s32 z = z) header -> Z.of_nat (length header) < 2 ^ 31 ->
  readFileInfo (jint_bytes MAGIC ++ jint_bytes (Z.of_nat (length header)) ++ concat (jint_bytes <$> header) ++ jint_bytes type ++ rest) =
    Some (header, s32 type, rest).
Proof.
  intros Hh Hl. unfold readFileInfo. rewrite getInt_bytes. cbn [mbind option_bind]. change (negb (s32 MAGIC =? MAGIC_START)) with false.
  rewrite getInt_bytes. cbn [mbind option_bind]. rewrite swrap_small by lia.
  rewrite (proj2 (Z.ltb_ge _ _)) by lia. rewrite Nat2Z.id, getInts_bytes. cbn [mbind option_bind].
  rewrite getInt_bytes. cbn [mbind option_bind]. by rewrite (list_fmap_id_Forall (swrap 32) header).
Qed.

Lemma header_read header w rest :
  Forall (fun z => s32 z = z) header -> Z.of_nat (length header) < 2 ^ 31 -> 0 <= cur_file_index w < 2 ^ 31 ->
  readTraceFileInfo (file (create_file header get_file_type write_header w) ++ rest) =
    Some (header, FILE_TYPE_TRACE, cur_file_index w, rest).
Proof.
  intros Hh Hl Hi. unfold readTraceFileInfo. rewrite create_file_bytes, <- !app_assoc, file_info_read by done. cbn [mbind option_bind].
  rewrite getInt_bytes. cbn [mbind option_bind]. by rewrite !(swrap_small 32 (cur_file_index w)) by lia.
Qed.

Lemma dispatch_read bs : Forall framable bs -> dispatch (concat (frame <$> bs)) = Some (entry_of <$> bs).
Proof.
  intros Hb. apply dispatch_frames; [done|]. clear. induction bs as [|b bs IH]; cbn [length fmap list_fmap concat]; [lia|].
  unfold frame at 1. autorewrite with antz. lia.
Qed.

(** C19: a trace file is read back: from a freshly created file, the first one
    or one after a rotation, the analyzer reads the header, the file type and
    index, and then one entry per written buffer, in order, with its owner,
    its bytes, its compression flag and its synchronisation level. *)
Theorem trace_file_roundtrip header w bs :
  Forall (fun z => s32 z = z) header -> Z.of_nat (length header) < 2 ^ 31 -> 0 <= cur_file_index w < 2 ^ 31 ->
  Forall framable bs ->
  exists rest,
    readTraceFileInfo (file (write_buffers (create_file header get_file_type write_header w) bs)) =
      Some (header, FILE_TYPE_TRACE, cur_file_index w, rest) /\
    dispatch rest = Some (entry_of <$> bs).
Proof.
  intros Hh Hl Hi Hb. exists (concat (frame <$> bs)). split; [|by apply dispatch_read].
  rewrite write_buffers_frames. by apply header_read.
Qed.

Lemma trace_file_roundtrip_witness : exists rest,
  readTraceFileInfo (file (write_buffers (create_file [7; 42] get_file_type write_header (AllocationTracingIO.make 1))
    [Buffer [1; 2; 3; 4; 0; 0; 0; 0] 4 1 4096 Sync_Full false])) = Some ([7; 42], 1, 0, rest) /\
  dispatch rest = Some [Entry 4096 [1; 2; 3; 4] false (Some FULL)].
Proof.
  apply (trace_file_roundtrip [7; 42] (AllocationTracingIO.make 1) [Buffer [1; 2; 3; 4; 0; 0; 0; 0] 4 1 4096 Sync_Full false]).
  - by_decide.
  - reflexivity.
  - by_decide.
  - constructor; [|constructor]. split; [|reflexivity]. split; [by_decide|]. split; [by exists 2|].
    split; [intros _; by exists 1|by_decide].
Defined.

End TraceFileRoundtrip.
