(* ===== verification/EventBuffers.v ===== *)
(** * The way of an event buffer to the trace file
      ([prims/EventBuffers.cpp], [runtime/thread.cpp])

    Threads fill buffers and hand them over; compression threads take them
    from the compression queue, the worker thread takes them from the flush
    queue, writes them and returns them to the free list.  [Blocks] is a call
    that waits for another thread, [Wrong] an access outside of an array. *)

From S2P Require Import Prelude EventBuffer EventBufferList.
From Stdlib Require Import ZArith Lia.

Inductive result (A : Type) := Done (a : A) | Blocks | Wrong.
Arguments Done {A}.
Arguments Blocks {A}.
Arguments Wrong {A}.

#[export] Instance result_ret : MRet result := @Done.
#[export] Instance result_bind : MBind result := fun A B f m =>
  match m with Done a => f a | Blocks => Blocks | Wrong => Wrong end.

(** The cases in which a computation is [Done]. *)
Ltac results :=
  repeat match goal with
  | H : mbind _ ?m = Done _ |- _ => destruct m eqn:?; cbn [mbind result_bind] in H; [|discriminate H..]
  | H : match ?m with _ => _ end = Done _ |- _ => destruct m eqn:?; try discriminate H
  | H : Done _ = Done _ |- _ => injection H as <-
  end.

(** An event buffer on its way.  [origin] is the specification's record of the
    bytes its owner stored; the code does not use it. *)
Record item := Item { buf : EventBuffer.buffer; origin : list Z }.

Module EventBuffers.
Import EventBufferList.

Record flags := Flags {
  TraceObjectsAsyncIO : bool;
  TraceObjectsCompressTrace : bool;
  TraceObjectsCompressTraceAdaptively : bool;
  TraceObjectsFuzzyBufferSizes : bool;
  TraceObjectsMaxFlushBacklog : Z;
  TraceObjectsMaxFreeBuffers : Z;
}.

(** [static last_id] is the state of the callbacks. *)
Record queues := Queues {
  flush_queue : ring item;
  compression_queue : ring item;
  free_list : ring item;
  last_id : Z;
}.

Definition blank : item := Item (EventBuffer.Buffer [] 0 0 EventBuffer.NULL EventBuffer.Sync_None false) [].

Section EventBuffers.
Variable fl : flags.

(** [malloc_usable_size], and the size drawn for the buffer after the one
    numbered [last_id] (the configured one, or a random one near it). *)
Variable malloc_usable_size : Z -> Z.
Variable drawn_size : Z -> Z.

Definition create (last_id : Z) : Z * item :=
  let buffer_size := Z.max (drawn_size last_id) EventBuffer.MAX_EVENT_SIZE in
  let '(last_id, b) := EventBuffer.create malloc_usable_size last_id buffer_size (negb (TraceObjectsFuzzyBufferSizes fl)) in
  (last_id, Item b []).

Definition destroy (b : item) : item := Item (EventBuffer.destroy (buf b)) [].

(** The callbacks of the lists. *)
Definition create_event_buffer : Z -> Z * option item := fun last_id =>
  let '(last_id, b) := create last_id in (last_id, Some b).
Definition destroy_event_buffer : item -> Z -> Z * bool := fun _ last_id => (last_id, true).
Definition report_flush_queue_overflow : item -> Z -> Z * bool := fun _ last_id => (last_id, false).

(** Without asynchronous I/O the two queues are [NULL] and never used; here they are empty. *)
Definition init : queues :=
  Queues (make blank 1 resize_enabled_preserve_order (TraceObjectsMaxFlushBacklog fl))
    (make blank 1 resize_enabled_preserve_order (TraceObjectsMaxFlushBacklog fl))
    (make blank 1 resize_enabled_no_order (TraceObjectsMaxFreeBuffers fl)) 0.

Definition lift {R} (o : option (outcome item Z R)) : result (ring item * Z * R) :=
  match o with
  | Some (Returns q e r) => Done (q, e, r)
  | Some (Waits _ _) => Blocks
  | None => Wrong
  end.

Definition enqueue_to_flush_queue (w : queues) (b : item) : result queues :=
  '(q, e, _) ← lift (enqueue blank (Some report_flush_queue_overflow) (flush_queue w) (last_id w) b);
  Done (Queues q (compression_queue w) (free_list w) e).

Definition dequeue_from_flush_queue (w : queues) : result (queues * option item) :=
  '(q, e, r) ← lift (dequeue None (flush_queue w) (last_id w));
  Done (Queues q (compression_queue w) (free_list w) e, r).

Definition enqueue_to_compression (w : queues) (b : item) : result queues :=
  '(q, e, _) ← lift (enqueue blank None (compression_queue w) (last_id w) b);
  Done (Queues (flush_queue w) q (free_list w) e).

Definition dequeue_from_compression (w : queues) : result (queues * option item) :=
  '(q, e, r) ← lift (dequeue None (compression_queue w) (last_id w));
  Done (Queues (flush_queue w) q (free_list w) e, r).

Definition peek_from_compression (w : queues) : result (queues * option item) :=
  '(q, e, r) ← lift (peek None (compression_queue w) (last_id w));
  Done (Queues (flush_queue w) q (free_list w) e, r).

Definition finalize_compression_queue (w : queues) : queues :=
  Queues (flush_queue w) (finalize (compression_queue w)) (free_list w) (last_id w).

Definition finalize_flush_queue (w : queues) : queues :=
  Queues (finalize (flush_queue w)) (compression_queue w) (free_list w) (last_id w).

Definition enqueue_to_free_list (w : queues) (b : item) : result queues :=
  '(q, e, _) ← lift (enqueue blank (Some destroy_event_buffer) (free_list w) (last_id w) b);
  Done (Queues (flush_queue w) (compression_queue w) q e).

Definition dequeue_from_free_list (w : queues) : result (queues * option item) :=
  '(q, e, r) ← lift (dequeue (Some create_event_buffer) (free_list w) (last_id w));
  Done (Queues (flush_queue w) (compression_queue w) q e, r).

Definition reset_item (b : item) : item := Item (EventBuffer.reset (buf b)) [].

Definition clear_and_add_to_free_list (w : queues) (b : item) : result queues :=
  enqueue_to_free_list w (reset_item b).

(** ** [Thread::flush_event_buffer]

    [write] is [EventsWriter::write_buffer], called directly when the trace
    is written synchronously. *)

Definition set_owner (b : item) (t : Z) : item := Item (EventBuffer.set_owner (buf b) t) (origin b).

(** The state after handing over [b], and the buffer written, if any. *)
Definition hand_over (w : queues) (b : item) : result (queues * option item) :=
  if EventBuffer.is_valid (buf b) then
    if 0 <? EventBuffer.get_length (buf b) then
      if TraceObjectsAsyncIO fl then
        if TraceObjectsCompressTrace fl || TraceObjectsCompressTraceAdaptively fl then
          w ← enqueue_to_compression w b; Done (w, None)
        else
          w ← enqueue_to_flush_queue w b; Done (w, None)
      else
        w ← enqueue_to_free_list w (reset_item b); Done (w, Some b)
    else
      w ← enqueue_to_free_list w (reset_item b); Done (w, None)
  else Done (w, None).

(** The new [_event_buffer] of the thread at address [t]. *)
Definition flush_event_buffer (w : queues) (t : Z) (b : item) (get_new : bool) :
    result (queues * item * option item) :=
  '(w, written) ← hand_over w b;
  '(w, b) ← (if get_new then
               '(w, r) ← dequeue_from_free_list w;
               Done (w, match r with Some b' => b' | None => b end)
             else Done (w, Item EventBuffer.create_dummy []));
  Done (w, set_owner b t, written).

End EventBuffers.

End EventBuffers.

(** ** What the operations do to the elements of the queues *)

Module QueueSpec.
Import EventBufferList EventBuffers.

(** [post W r Q]: a finished computation satisfies [Q]; [W] tells whether going
    wrong is tolerated. *)
Definition post {A} (W : Prop) (r : result A) (Q : A -> Prop) : Prop :=
  match r with Done a => Q a | Blocks => True | Wrong => W end.

Lemma post_bind {A B} W (r : result A) (f : A -> result B) (Q : B -> Prop) :
  post W r (fun a => post W (f a) Q) -> post W (r ≫= f) Q.
Proof. by destruct r. Qed.

Lemma post_weaken {A} W (r : result A) (P Q : A -> Prop) :
  (forall a, P a -> Q a) -> post W r P -> post W r Q.
Proof. intros HPQ. destruct r; simpl; auto. Qed.

(** An empty buffer ready to be used. *)
Definition usable (b : item) : Prop :=
  EventBuffer.wf (buf b) /\ EventBuffer.is_valid (buf b) = true /\
  EventBuffer.MAX_EVENT_SIZE <= EventBuffer.get_capacity (buf b).

Definition free (b : item) : Prop :=
  usable b /\ EventBuffer.contents (buf b) = [] /\ EventBuffer.is_compressed (buf b) = false /\
  EventBuffer.sync (buf b) = EventBuffer.Sync_None /\ origin b = [].

Lemma usable_reset b : usable b -> free (reset_item b).
Proof.
  intros (Hw & Hv & Hc). split_and!; try done. split_and!; try done. by apply EventBuffer.wf_reset.
Qed.

Definition fifo_queue (q : ring item) (l : list item) : Prop :=
  rep q l /\ finalized q = false /\ resize_mode q = resize_enabled_preserve_order.

Definition bag (q : ring item) (l : list item) : Prop :=
  rep q l /\ finalized q = false /\ resize_mode q = resize_enabled_no_order /\ Forall free l.

(** The three lists hold [fq], [cq] and the free buffers [fr]. *)
Record qrep (w : queues) (fq cq : list item) : Prop := {
  qrep_flush : fifo_queue (flush_queue w) fq;
  qrep_compression : fifo_queue (compression_queue w) cq;
  qrep_free : exists fr, bag (free_list w) fr;
}.

Lemma enqueue_fifo overflow q l e b :
  (forall h, overflow = Some h -> exists e', h b e = (e', false)) -> fifo_queue q l ->
  match lift (enqueue blank overflow q e b) with
  | Done (q', e', _) => fifo_queue q' (l ++ [b]) /\ e' = e
  | Blocks => True
  | Wrong => False
  end.
Proof.
  intros Ho (Hr & Hf & Hm). destruct (accepts q l) eqn:Ha.
  - destruct (enqueue_spec blank overflow q l e b Hr Hf Ha) as (q' & l' & -> & Hr' & _ & Heq & _ & _ & Hm' & Hf').
    simpl. rewrite Heq in Hr'; [|left; unfold preserves; by rewrite Hm]. split; [|done]. split_and!; [done|done|congruence].
  - rewrite (enqueue_full blank overflow q l e b Hr Hf Ha). destruct overflow as [h|]; [|done].
    destruct (Ho h eq_refl) as (e' & ->). done.
Qed.

Lemma dequeue_fifo q l e :
  fifo_queue q l ->
  match lift (dequeue None q e) with
  | Done (q', e', r) => exists b l', l = b :: l' /\ r = Some b /\ fifo_queue q' l' /\ e' = e
  | Blocks => l = []
  | Wrong => False
  end.
Proof.
  intros (Hr & Hf & Hm). destruct l as [|b l].
  - by destruct (empty_spec None q e Hr Hf) as [_ ->].
  - destruct (dequeue_spec None q b l e Hr Hf) as (q' & -> & Hr' & _ & _ & Hm' & Hf'). simpl.
    exists b, l. split_and!; try done. split_and!; [done|done|congruence].
Qed.

Lemma peek_fifo q l e :
  fifo_queue q l ->
  match lift (peek None q e) with
  | Done (q', e', r) => exists b l', l = b :: l' /\ r = Some b /\ q' = q /\ e' = e
  | Blocks => l = []
  | Wrong => False
  end.
Proof.
  intros (Hr & Hf & Hm). destruct l as [|b l].
  - by destruct (empty_spec None q e Hr Hf) as [<- ->].
  - rewrite (peek_spec None q b l e Hr Hf). simpl. by exists b, l.
Qed.

Section specs.
Variable fl : flags.
Variable malloc_usable_size : Z -> Z.
Variable drawn_size : Z -> Z.
Hypothesis usable_ge : forall n, 0 <= n -> n <= malloc_usable_size n.
Variable W : Prop.

Lemma enqueue_flush_post w fq cq b :
  qrep w fq cq ->
  post W (enqueue_to_flush_queue w b) (fun w' => qrep w' (fq ++ [b]) cq /\ last_id w' = last_id w).
Proof.
  intros [Hf Hc Hr]. unfold enqueue_to_flush_queue.
  pose proof (enqueue_fifo (Some report_flush_queue_overflow) (flush_queue w) fq (last_id w) b) as H.
  destruct (lift _) as [[[q e] r]| |]; [|done|by destruct H; [intros h [= <-]; eexists|]].
  destruct H as [Hq ->]; [intros h [= <-]; by eexists|done|]. by split.
Qed.

Lemma dequeue_flush_post w fq cq :
  qrep w fq cq ->
  post W (dequeue_from_flush_queue w) (fun '(w', r) =>
    exists b fq', fq = b :: fq' /\ r = Some b /\ qrep w' fq' cq /\ last_id w' = last_id w).
Proof.
  intros [Hf Hc Hr]. unfold dequeue_from_flush_queue. pose proof (dequeue_fifo _ _ (last_id w) Hf) as H.
  destruct (lift _) as [[[q e] r]| |]; [|done|done]. destruct H as (b & l' & -> & -> & Hq & ->). by exists b, l'.
Qed.

Lemma enqueue_compression_post w fq cq b :
  qrep w fq cq ->
  post W (enqueue_to_compression w b) (fun w' => qrep w' fq (cq ++ [b]) /\ last_id w' = last_id w).
Proof.
  intros [Hf Hc Hr]. unfold enqueue_to_compression.
  pose proof (enqueue_fifo None (compression_queue w) cq (last_id w) b ltac:(done) Hc) as H.
  destruct (lift _) as [[[q e] r]| |]; [|done|done]. destruct H as [Hq ->]. by split.
Qed.

Lemma dequeue_compression_post w fq cq :
  qrep w fq cq ->
  post W (dequeue_from_compression w) (fun '(w', r) =>
    exists b cq', cq = b :: cq' /\ r = Some b /\ qrep w' fq cq' /\ last_id w' = last_id w).
Proof.
  intros [Hf Hc Hr]. unfold dequeue_from_compression. pose proof (dequeue_fifo _ _ (last_id w) Hc) as H.
  destruct (lift _) as [[[q e] r]| |]; [|done|done]. destruct H as (b & l' & -> & -> & Hq & ->). by exists b, l'.
Qed.

Lemma peek_compression_post w fq cq :
  qrep w fq cq ->
  post W (peek_from_compression w) (fun '(w', r) => exists b cq', cq = b :: cq' /\ r = Some b /\ w' = w).
Proof.
  intros [Hf Hc Hr]. unfold peek_from_compression. pose proof (peek_fifo _ _ (last_id w) Hc) as H.
  destruct (lift _) as [[[q e] r]| |]; [|done|done]. destruct H as (b & l' & -> & -> & -> & ->).
  exists b, l'. by destruct w.
Qed.

Lemma enqueue_free_post w fq cq b :
  qrep w fq cq -> free b ->
  post W (enqueue_to_free_list w b) (fun w' => qrep w' fq cq /\ last_id w' = last_id w).
Proof.
  intros [Hf Hc (fr & Hr & Hfin & Hm & Hfree)] Hb. unfold enqueue_to_free_list. destruct (accepts (free_list w) fr) eqn:Ha.
  - destruct (enqueue_spec blank (Some destroy_event_buffer) _ fr (last_id w) b Hr Hfin Ha)
      as (q' & l' & -> & Hr' & Hp & _ & _ & _ & Hm' & Hf').
    simpl. split; [|done]. split; try done. exists (l' ++ [b]). split_and!; simpl; [done|done|congruence|].
    rewrite Hp. apply Forall_app. split; [done|]. by constructor.
  - rewrite (enqueue_full blank (Some destroy_event_buffer) _ fr (last_id w) b Hr Hfin Ha). simpl.
    split; [|done]. split; try done. by exists fr.
Qed.

Lemma create_free n :
  0 <= n < 2 ^ 31 - 1 -> let '(n', b) := create fl malloc_usable_size drawn_size n in n' = n + 1 /\ free b.
Proof.
  intros Hn. unfold create.
  pose proof (EventBuffer.create_spec malloc_usable_size usable_ge n (Z.max (drawn_size n) EventBuffer.MAX_EVENT_SIZE)
    (negb (TraceObjectsFuzzyBufferSizes fl)) Hn) as H.
  destruct (EventBuffer.create _ _ _ _) as [n' b]. destruct H as (-> & _ & Hv & Hw & Hc & Hcap & Hu & _ & Hs).
  split; [done|]. split_and!; try done. split_and!; try done. simpl. lia.
Qed.

(** A buffer from the free list, or a new one. *)
Lemma dequeue_free_post w fq cq :
  qrep w fq cq -> 0 <= last_id w < 2 ^ 31 - 1 ->
  post W (dequeue_from_free_list fl malloc_usable_size drawn_size w) (fun '(w', r) =>
    exists b, r = Some b /\ free b /\ qrep w' fq cq /\ last_id w <= last_id w' <= last_id w + 1).
Proof.
  intros [Hf Hc (fr & Hr & Hfin & Hm & Hfree)] Hid. unfold dequeue_from_free_list. destruct fr as [|b fr].
  - destruct (empty_spec (Some (create_event_buffer fl malloc_usable_size drawn_size)) (free_list w) (last_id w) Hr Hfin) as [_ ->].
    unfold create_event_buffer. pose proof (create_free (last_id w) Hid) as H. destruct (create _ _ _ _) as [n b].
    destruct H as [-> Hb]. simpl. exists b. split_and!; [done|done| |lia|lia]. split; try done. by exists [].
  - destruct (dequeue_spec (Some (create_event_buffer fl malloc_usable_size drawn_size)) (free_list w) b fr (last_id w) Hr Hfin)
      as (q' & -> & Hr' & _ & _ & Hm' & Hf').
    apply Forall_cons in Hfree as [Hb Hfree]. simpl. exists b. split_and!; [done|done| |lia|lia].
    split; try done. exists fr. split_and!; simpl; [done|done|congruence|done].
Qed.

Lemma init_qrep : qrep (init fl) [] [].
Proof.
  split.
  - split_and!; [apply make_ring_rep|done|done].
  - split_and!; [apply make_ring_rep|done|done].
  - exists []. split_and!; [apply make_ring_rep|done|done|done].
Qed.

End specs.

End QueueSpec.
