(* ===== verification/Pipeline.v ===== *)
(** * Threads, compression threads and the worker ([runtime/thread.cpp])

    The concurrent program as a transition system: an action is what a thread
    does between two points where others may interfere.  The specification
    keeps a record of the bytes each thread fired ([fired]) and of the buffers
    in the order they were handed to the compression threads ([handed]). *)

From S2P Require Import Prelude EventBuffer EventBufferList EventBuffers.
From Stdlib Require Import ZArith Lia.

Module Pipeline.
Import EventBuffers.

(** ** [CompressionThread]: the threads whose buffers are in process *)

Definition CONCURRENT_PROCESSINGS : Z := 10.

(** The first [nOfProcesses] cells of the array [in_process]. *)
Definition add_thread_in_process (in_process : list Z) (thread : Z) : result (list Z * bool) :=
  if bool_decide (thread ∈ in_process) then Done (in_process, false)
  else if Z.of_nat (length in_process) <? CONCURRENT_PROCESSINGS then Done (in_process ++ [thread], true)
  else Wrong.

Fixpoint index_of (thread : Z) (l : list Z) : option nat :=
  match l with
  | [] => None
  | t :: l => if t =? thread then Some O else S <$> index_of thread l
  end.

(** The last cell moves to the place of the removed one. *)
Definition remove_thread_in_process (in_process : list Z) (thread : Z) : list Z * bool :=
  match index_of thread in_process with
  | Some i =>
      let n := (length in_process - 1)%nat in
      (take n (match in_process !! n with Some t => <[i := t]> in_process | None => in_process end), true)
  | None => (in_process, false)
  end.

(** ** The state *)

(** A compression thread waits for a buffer, works on one, or is done with it
    but has not released its owner. *)
Inductive phase := Idle | Work (b : item) | Processed (owner : Z).

Definition is_Idle (p : phase) : bool := match p with Idle => true | _ => false end.

Section Pipeline.
Variable fl : flags.
Variable malloc_usable_size : Z -> Z.
Variable drawn_size : Z -> Z.

(** [Compression::encode] with the state of the compressor; [None] is a failed
    guarantee, an inner [None] an input that was not compressed. *)
Context {C : Type}.
Variable encode : C -> list Z -> Z -> option (C * option (list Z)).

Record world := World {
  qs : queues;
  threads : gmap Z item;
  hand : option item;
  written : list item;
  compressors : list (C * phase);
  in_process : list Z;
  fired : gmap Z (list Z);
  handed : list item;
}.

Definition set_qs (w : world) (q : queues) : world :=
  World q (threads w) (hand w) (written w) (compressors w) (in_process w) (fired w) (handed w).

Definition compresses : bool := TraceObjectsCompressTrace fl || TraceObjectsCompressTraceAdaptively fl.

(** [b] was handed over by [hand_over]. *)
Definition log_handed (b : item) (l : list item) : list item :=
  if EventBuffer.is_valid (buf b) && (0 <? EventBuffer.get_length (buf b)) && TraceObjectsAsyncIO fl && compresses
  then l ++ [b] else l.

(** [Thread::flush_event_buffer] *)
Definition flush_thread (w : world) (t : Z) (get_new : bool) : result world :=
  match threads w !! t with
  | None => Done w
  | Some b =>
      '(q, b', out) ← flush_event_buffer fl malloc_usable_size drawn_size (qs w) t b get_new;
      Done (World q (<[t := b']> (threads w)) (hand w)
        (match out with Some o => written w ++ [o] | None => written w end)
        (compressors w) (in_process w) (fired w) (log_handed b (handed w)))
  end.

(** The words of an event stored into the buffer of the thread. *)
Definition store_event (w : world) (t : Z) (ws : list Z) : option world :=
  b ← threads w !! t;
  b' ← EventBuffer.append (buf b) ws;
  let bytes := EventBuffer.words_bytes ws in
  Some (World (qs w) (<[t := Item b' (origin b ++ bytes)]> (threads w)) (hand w) (written w) (compressors w)
    (in_process w) (<[t := default [] (fired w !! t) ++ bytes]> (fired w)) (handed w)).

(** [EventsRuntime::allocate_event] and the stores: one flush if there is no
    room; a second failure is a store through [NULL]. *)
Definition fire (w : world) (t : Z) (ws : list Z) : result world :=
  match store_event w t ws with
  | Some w => Done w
  | None =>
      w ← flush_thread w t true;
      match store_event w t ws with Some w => Done w | None => Wrong end
  end.

(** [thread->get_event_buffer()->sync = MAX2(...)] *)
Definition set_sync (w : world) (t : Z) (s : EventBuffer.EventBufferSyncLevel) : world :=
  World (qs w)
    (alter (fun b => Item (EventBuffer.set_sync (buf b)
       (if EventBuffer.sync_code (EventBuffer.sync (buf b)) <? EventBuffer.sync_code s
        then s else EventBuffer.sync (buf b))) (origin b)) t (threads w))
    (hand w) (written w) (compressors w) (in_process w) (fired w) (handed w).

(** [Thread::Thread], [Thread::~Thread] *)
Definition spawn (w : world) (t : Z) : world :=
  match threads w !! t with
  | Some _ => w
  | None =>
      World (qs w) (<[t := set_owner (Item EventBuffer.create_dummy []) t]> (threads w)) (hand w) (written w)
        (compressors w) (in_process w) (fired w) (handed w)
  end.

Definition exit_thread (w : world) (t : Z) : result world :=
  w ← flush_thread w t false;
  Done (World (qs w) (delete t (threads w)) (hand w) (written w) (compressors w) (in_process w) (fired w) (handed w)).

(** [EventsWorkerThread::run]: take a buffer; write it and free it. *)
Definition worker_take (w : world) : result world :=
  match hand w with
  | Some _ => Done w
  | None =>
      '(q, r) ← dequeue_from_flush_queue (qs w);
      Done (World q (threads w) r (written w) (compressors w) (in_process w) (fired w) (handed w))
  end.

Definition worker_write (w : world) : result world :=
  match hand w with
  | None => Done w
  | Some b =>
      q ← enqueue_to_free_list (qs w) (reset_item b);
      Done (World q (threads w) None (written w ++ [b]) (compressors w) (in_process w) (fired w) (handed w))
  end.

Definition set_compressor (w : world) (i : nat) (c : C) (p : phase) : world :=
  World (qs w) (threads w) (hand w) (written w) (<[i := (c, p)]> (compressors w)) (in_process w) (fired w) (handed w).

(** The compressor 0 is the master. *)
Definition others_idle (w : world) (i : nat) : bool :=
  forallb (fun cp => is_Idle cp.2) (take i (compressors w)) &&
  forallb (fun cp => is_Idle cp.2) (drop (S i) (compressors w)).

(** [CompressionThread::run], the critical section of thread [i]. *)
Definition compressor_take (w : world) (i : nat) : result world :=
  match compressors w !! i with
  | Some (c, Idle) =>
      '(q, r) ← peek_from_compression (qs w);
      match r with
      | None => Done (set_qs w q)
      | Some b =>
          if negb (bool_decide (EventBuffer.sync (buf b) = EventBuffer.Sync_None)) then
            if (i =? 0)%nat then
              if others_idle w i then
                '(q, r) ← dequeue_from_compression q;
                q ← enqueue_to_flush_queue q (match r with Some b => b | None => b end);
                Done (set_qs w q)
              else Blocks
            else Done (set_qs w q)
          else
            '(p, added) ← add_thread_in_process (in_process w) (EventBuffer.owner (buf b));
            if added : bool then
              '(q, r) ← dequeue_from_compression q;
              Done (World q (threads w) (hand w) (written w)
                (<[i := (c, Work (match r with Some b => b | None => b end))]> (compressors w)) p (fired w) (handed w))
            else Done (set_qs w q)
      end
  | _ => Done w
  end.

(** The bytes [bytes] stored into a fresh buffer [b] as compressed data. *)
Definition compressed_item (b src : item) (bytes : list Z) : item :=
  let d := EventBuffer.store (buf b) 0 bytes in
  Item (EventBuffer.set_sync (EventBuffer.set_owner (EventBuffer.set_compression d (Z.of_nat (length bytes)))
    (EventBuffer.owner (buf src))) (EventBuffer.sync (buf src))) (origin src).

(** The rest of the loop body up to [remove_thread_in_process]; [evaluate] is
    the answer of [evaluateCompression]. *)
Definition compressor_process (w : world) (i : nat) (evaluate : bool) : result world :=
  match compressors w !! i with
  | Some (c, Work b) =>
      let owner := EventBuffer.owner (buf b) in
      if EventBuffer.get_length (buf b) =? 0 then
        q ← enqueue_to_free_list (qs w) (reset_item b);
        Done (set_compressor (set_qs w q) i c (Processed owner))
      else if TraceObjectsCompressTrace fl || (TraceObjectsCompressTraceAdaptively fl && evaluate) then
        '(q, r) ← dequeue_from_free_list fl malloc_usable_size drawn_size (qs w);
        match r with
        | None =>
            q ← enqueue_to_flush_queue q b;
            Done (set_compressor (set_qs w q) i c (Processed owner))
        | Some d =>
            match encode c (EventBuffer.contents (buf b)) (EventBuffer.get_capacity (buf d) * 4) with
            | None => Wrong
            | Some (c, Some bytes) =>
                q ← enqueue_to_flush_queue q (compressed_item d b bytes);
                q ← enqueue_to_free_list q (reset_item b);
                Done (set_compressor (set_qs w q) i c (Processed owner))
            | Some (c, None) =>
                q ← enqueue_to_flush_queue q b;
                q ← enqueue_to_free_list q (reset_item d);
                Done (set_compressor (set_qs w q) i c (Processed owner))
            end
        end
      else
        q ← enqueue_to_flush_queue (qs w) b;
        Done (set_compressor (set_qs w q) i c (Processed owner))
  | _ => Done w
  end.

Definition compressor_release (w : world) (i : nat) : world :=
  match compressors w !! i with
  | Some (c, Processed owner) =>
      World (qs w) (threads w) (hand w) (written w) (<[i := (c, Idle)]> (compressors w))
        (remove_thread_in_process (in_process w) owner).1 (fired w) (handed w)
  | _ => w
  end.

Inductive action :=
| Spawn (t : Z) | Exit (t : Z) | Fire (t : Z) (ws : list Z) | Flush (t : Z) (get_new : bool)
| SetSync (t : Z) (s : EventBuffer.EventBufferSyncLevel)
| WorkerTake | WorkerWrite
| CompressorTake (i : nat) | CompressorProcess (i : nat) (evaluate : bool) | CompressorRelease (i : nat).

Definition exec (w : world) (a : action) : result world :=
  match a with
  | Spawn t => Done (spawn w t)
  | Exit t => exit_thread w t
  | Fire t ws => fire w t ws
  | Flush t get_new => flush_thread w t get_new
  | SetSync t s => Done (set_sync w t s)
  | WorkerTake => worker_take w
  | WorkerWrite => worker_write w
  | CompressorTake i => compressor_take w i
  | CompressorProcess i evaluate => compressor_process w i evaluate
  | CompressorRelease i => Done (compressor_release w i)
  end.

(** Tracing starts with [n] compression threads. *)
Definition start (c0 : C) (n : nat) : world :=
  World (init fl) ∅ None [] (replicate n (c0, Idle)) [] ∅ [].

(** Fewer than 2^31 buffers are created: their numbers stay positive. *)
Definition numbered (w : world) : Prop := 0 <= last_id (qs w) < 2 ^ 31 - 1.

Inductive reachable (w0 : world) : world -> Prop :=
| reachable_refl : reachable w0 w0
| reachable_step w a w' : reachable w0 w -> exec w a = Done w' -> numbered w' -> reachable w0 w'.

End Pipeline.

End Pipeline.
