(* ===== verification/PipelineSpec.v ===== *)
(** * What reaches the trace file

    The invariant of [Pipeline]: for every thread, the bytes it fired are, in
    order, those of its buffers written, at the worker, in the flush queue, in
    process, in the compression queue and of its current buffer. *)

From S2P Require Import Prelude EventBuffer EventBufferList EventBuffers Pipeline.
From Stdlib Require Import ZArith Lia.

Module PipelineSpec.
Import EventBuffers QueueSpec Pipeline.

(** ** Accounting *)

(** The bytes of thread [t] in a list of buffers. *)
Definition per (t : Z) (l : list item) : list Z :=
  concat (origin <$> filter (fun b => EventBuffer.owner (buf b) = t) l).

Lemma per_app t l1 l2 : per t (l1 ++ l2) = per t l1 ++ per t l2.
Proof. unfold per. by rewrite filter_app, fmap_app, concat_app. Qed.

Lemma per_owned t b : EventBuffer.owner (buf b) = t -> per t [b] = origin b.
Proof. intros H. unfold per. rewrite filter_cons_True by done. simpl. apply app_nil_r. Qed.

Lemma per_other t b : EventBuffer.owner (buf b) <> t -> per t [b] = [].
Proof. intros H. unfold per. by rewrite filter_cons_False by done. Qed.

Lemma per_cons t b l : per t (b :: l) = per t [b] ++ per t l.
Proof. apply (per_app t [b]). Qed.

Lemma per_no_owner t l : (forall b, b ∈ l -> EventBuffer.owner (buf b) <> t) -> per t l = [].
Proof.
  induction l as [|b l IH]; intros H; [done|]. rewrite per_cons, per_other, IH; [done| |].
  - intros b' Hb'. apply H. by constructor.
  - apply H. constructor.
Qed.

Section Accounting.
Context {C : Type}.

Definition work1 (cp : C * phase) : list item := match cp.2 with Work b => [b] | _ => [] end.
Definition busy1 (cp : C * phase) : list Z :=
  match cp.2 with Work b => [EventBuffer.owner (buf b)] | Processed o => [o] | Idle => [] end.

Definition works (l : list (C * phase)) : list item := concat (work1 <$> l).
Definition busy (l : list (C * phase)) : list Z := concat (busy1 <$> l).

Lemma works_split l i cp : l !! i = Some cp -> works l = works (take i l) ++ work1 cp ++ works (drop (S i) l).
Proof.
  intros H. unfold works. rewrite <- (take_drop_middle l i cp H) at 1. by rewrite fmap_app, concat_app.
Qed.

Lemma busy_split l i cp : l !! i = Some cp -> busy l = busy (take i l) ++ busy1 cp ++ busy (drop (S i) l).
Proof.
  intros H. unfold busy. rewrite <- (take_drop_middle l i cp H) at 1. by rewrite fmap_app, concat_app.
Qed.

Lemma take_insert_eq (l : list (C * phase)) i cp : take i (<[i := cp]> l) = take i l.
Proof. apply take_insert_ge. lia. Qed.

Lemma drop_insert_eq (l : list (C * phase)) i cp : drop (S i) (<[i := cp]> l) = drop (S i) l.
Proof. apply drop_insert_lt. lia. Qed.

Lemma works_insert l i cp cp0 :
  l !! i = Some cp0 -> works (<[i := cp]> l) = works (take i l) ++ work1 cp ++ works (drop (S i) l).
Proof.
  intros H. rewrite (works_split _ i cp); [by rewrite take_insert_eq, drop_insert_eq|].
  apply list_lookup_insert_eq. by eapply lookup_lt_Some.
Qed.

Lemma busy_insert l i cp cp0 :
  l !! i = Some cp0 -> busy (<[i := cp]> l) = busy (take i l) ++ busy1 cp ++ busy (drop (S i) l).
Proof.
  intros H. rewrite (busy_split _ i cp); [by rewrite take_insert_eq, drop_insert_eq|].
  apply list_lookup_insert_eq. by eapply lookup_lt_Some.
Qed.

Lemma works_busy l b : b ∈ works l -> EventBuffer.owner (buf b) ∈ busy l.
Proof.
  unfold works, busy. induction l as [|[c p] l IH]; simpl; [by intros ?%elem_of_nil|].
  rewrite !elem_of_app. intros [Hb|Hb]; [left|right; by apply IH].
  destruct p as [|b'|o]; simpl in *; [by apply elem_of_nil in Hb| |by apply elem_of_nil in Hb].
  apply list_elem_of_singleton in Hb as ->. by apply list_elem_of_singleton.
Qed.

Lemma idle_works l : forallb (fun cp => is_Idle cp.2) l = true -> works l = [] /\ busy l = [].
Proof.
  unfold works, busy. induction l as [|[c [| |]] l IH]; simpl; try done.
Qed.

Lemma busy_length l : (length (busy l) <= length l)%nat.
Proof.
  unfold busy. induction l as [|[c p] l IH]; [done|]. cbn [fmap list_fmap concat length]. rewrite length_app.
  destruct p; simpl; lia.
Qed.

(** With one owner in process at a time, the bytes of its buffer in process
    are those of [works]. *)
Lemma per_works l i c b t :
  l !! i = Some (c, Work b) -> NoDup (busy l) -> EventBuffer.owner (buf b) = t ->
  per t (works (take i l)) = [] /\ per t (works (drop (S i) l)) = [].
Proof.
  intros H Hn Ht. rewrite (busy_split _ _ _ H) in Hn. simpl in Hn. rewrite Ht in Hn.
  apply NoDup_app in Hn as (_ & Hd & Hn). apply NoDup_cons in Hn as [Hni Hn].
  split; apply per_no_owner; intros b' Hb' E; apply works_busy in Hb'; rewrite E in Hb'.
  - apply (Hd t Hb'). constructor.
  - done.
Qed.

End Accounting.

(** ** The threads in process *)

Lemma index_of_spec t l i : index_of t l = Some i -> l !! i = Some t.
Proof.
  revert i. induction l as [|t' l IH]; intros i; simpl; [done|]. destruct (Z.eqb_spec t' t) as [->|]; [by intros [= <-]|].
  destruct (index_of t l) as [j|] eqn:E; [|done]. intros [= <-]. by apply IH.
Qed.

Lemma index_of_None t l : index_of t l = None -> t ∉ l.
Proof.
  induction l as [|t' l IH]; simpl; [intros _; by apply not_elem_of_nil|].
  destruct (Z.eqb_spec t' t) as [->|Hne]; [done|]. destruct (index_of t l); [done|]. intros _.
  apply not_elem_of_cons. by split; [|apply IH].
Qed.

Lemma in_process_remove l t : t ∈ l -> l ≡ₚ t :: (remove_thread_in_process l t).1.
Proof.
  intros Hin. unfold remove_thread_in_process. destruct (index_of t l) as [i|] eqn:E.
  2:{ by apply index_of_None in E. }
  apply index_of_spec in E. pose proof (lookup_lt_Some _ _ _ E) as Hi.
  destruct (l !! (length l - 1)%nat) as [z|] eqn:Ez; [|apply lookup_ge_None in Ez; lia]. cbn [fst]. by apply fill_hole_perm.
Qed.

(** ** The invariant *)

(** What identifies a buffer, compressed or not. *)
Definition key (b : item) : Z * EventBuffer.EventBufferSyncLevel * list Z :=
  (EventBuffer.owner (buf b), EventBuffer.sync (buf b), origin b).

Lemma per_key t b b' : key b = key b' -> per t [b] = per t [b'].
Proof.
  intros [= Ho Hs Hr]. destruct (decide (EventBuffer.owner (buf b) = t)).
  - rewrite !per_owned by congruence. done.
  - rewrite !per_other by congruence. done.
Qed.

(** The current buffer of a thread: usable, or the dummy without room. *)
Definition thread_item (t : Z) (b : item) : Prop :=
  EventBuffer.owner (buf b) = t /\ origin b = EventBuffer.contents (buf b) /\
  EventBuffer.is_compressed (buf b) = false /\ EventBuffer.wf (buf b) /\
  (usable b \/ EventBuffer.is_valid (buf b) = false /\ EventBuffer.get_capacity (buf b) = 0).

Definition queued (b : item) : Prop :=
  usable b /\ EventBuffer.is_compressed (buf b) = false /\ origin b = EventBuffer.contents (buf b) /\
  0 < EventBuffer.get_length (buf b).

(** A synchronised buffer that left the compression queue separates: before it
    come exactly the buffers handed over before it.  [P] are the buffers that
    left the queue, [o] those moved on, [ws] those in process. *)
Definition barrier (handed cq o ws : list item) : Prop :=
  exists P, handed = P ++ cq /\ key <$> o ++ ws ≡ₚ key <$> P /\
    forall P1 s P2, P = P1 ++ s :: P2 -> EventBuffer.sync (buf s) <> EventBuffer.Sync_None ->
      exists O1 s' O2, o = O1 ++ s' :: O2 /\ key s' = key s /\ key <$> O1 ≡ₚ key <$> P1.

Lemma barrier_hand h cq o ws b : barrier h cq o ws -> barrier (h ++ [b]) (cq ++ [b]) o ws.
Proof. intros (P & -> & Hp & Hb). exists P. split_and!; [by rewrite app_assoc|done|done]. Qed.

Lemma barrier_take h cq o ws ws' b :
  barrier h (b :: cq) o ws -> EventBuffer.sync (buf b) = EventBuffer.Sync_None -> ws' ≡ₚ b :: ws ->
  barrier h cq o ws'.
Proof.
  intros (P & -> & Hp & Hb) Hs Hw. exists (P ++ [b]). split_and!; [by rewrite <- app_assoc| |].
  - rewrite Hw. rewrite !fmap_app in *. rewrite <- Hp. cbn [fmap list_fmap]. solve_Permutation.
  - intros P1 s P2 E Hne. destruct P2 as [|x P2 _] using rev_ind.
    { apply app_inj_tail in E as [_ ->]. done. }
    rewrite app_comm_cons, app_assoc in E. apply app_inj_tail in E as [-> _]. by eapply Hb.
Qed.

Lemma barrier_sync h cq o b : barrier h (b :: cq) o [] -> barrier h cq (o ++ [b]) [].
Proof.
  intros (P & -> & Hp & Hb). rewrite app_nil_r in Hp. exists (P ++ [b]). split_and!; [by rewrite <- app_assoc| |].
  - rewrite app_nil_r, !fmap_app, Hp. done.
  - intros P1 s P2 E Hne. destruct P2 as [|x P2 _] using rev_ind.
    + apply app_inj_tail in E as [-> ->]. by exists o, s, [].
    + rewrite app_comm_cons, app_assoc in E. apply app_inj_tail in E as [-> _].
      destruct (Hb _ _ _ eq_refl Hne) as (O1 & s' & O2 & -> & Hk & Hq). exists O1, s', (O2 ++ [b]).
      split_and!; [by rewrite <- app_assoc|done|done].
Qed.

Lemma barrier_output h cq o ws ws' b b' :
  barrier h cq o ws -> ws ≡ₚ b :: ws' -> key b' = key b -> barrier h cq (o ++ [b']) ws'.
Proof.
  intros (P & -> & Hp & Hb) Hw Hk. exists P. split_and!; [done| |].
  - rewrite <- Hp, Hw, !fmap_app. cbn [fmap list_fmap]. rewrite Hk. solve_Permutation.
  - intros P1 s P2 E Hne. destruct (Hb _ _ _ E Hne) as (O1 & s' & O2 & -> & Hks & Hq).
    exists O1, s', (O2 ++ [b']). split_and!; [by rewrite <- app_assoc|done|done].
Qed.

Section Invariant.
Variable fl : flags.
Variable malloc_usable_size : Z -> Z.
Variable drawn_size : Z -> Z.
Context {C : Type}.
Variable encode : C -> list Z -> Z -> option (C * option (list Z)).

(** Whether going wrong is tolerated; whether there may be more compression
    threads than cells of [in_process]. *)
Variables W L : Prop.
Hypothesis limited : L -> W.

Hypothesis usable_ge : forall n, 0 <= n -> n <= malloc_usable_size n.

Definition async_compress : bool := TraceObjectsAsyncIO fl && compresses fl.

(** What the encoder promises, of the states [Good] it keeps. *)
Variable Good : C -> Prop.
Hypothesis encode_good : forall c src cap c' r,
  Good c -> Forall is_byte src -> src <> [] -> encode c src cap = Some (c', r) ->
  Good c' /\ forall bytes, r = Some bytes -> Z.of_nat (length bytes) <= cap /\ Forall is_byte bytes.
Hypothesis encode_safe :
  W \/ async_compress = false \/ forall c src cap, Good c -> Forall is_byte src -> is_Some (encode c src cap).

(** A property of the contents of a buffer that the events fired keep. *)
Variable Whole : list Z -> Prop.
Hypothesis whole_nil : Whole [].

Definition keeps_whole (ws : list Z) : Prop := forall o, Whole o -> Whole (o ++ EventBuffer.words_bytes ws).

(** What a buffer moved on holds: the bytes fired, or the encoder's output for them. *)
Definition faithful (b : item) : Prop :=
  if EventBuffer.is_compressed (buf b)
  then exists c cap c', Good c /\ encode c (origin b) cap = Some (c', Some (EventBuffer.contents (buf b)))
  else origin b = EventBuffer.contents (buf b).

(** The buffers that were moved on, in order. *)
Definition out (w : world (C := C)) (fq : list item) : list item := written w ++ option_list (hand w) ++ fq.

Definition current (w : world (C := C)) (t : Z) : list Z :=
  match threads w !! t with Some b => origin b | None => [] end.

Record inv (w : world (C := C)) (fq cq : list item) : Prop := {
  inv_queues : qrep (qs w) fq cq;
  inv_numbered : numbered w;
  inv_threads : map_Forall thread_item (threads w);
  inv_cq : Forall queued cq;
  inv_works : Forall queued (works (compressors w));
  inv_works_sync : Forall (fun b => EventBuffer.sync (buf b) = EventBuffer.Sync_None) (works (compressors w));
  inv_out : Forall usable (out w fq);
  inv_fired : forall t, default [] (fired w !! t) =
    per t (out w fq) ++ per t (works (compressors w)) ++ per t cq ++ current w t;
  inv_busy : in_process w ≡ₚ busy (compressors w);
  inv_nodup : NoDup (in_process w);
  inv_sync_mode : TraceObjectsAsyncIO fl = false -> fq = [] /\ hand w = None;
  inv_plain_mode : async_compress = false -> cq = [] /\ works (compressors w) = [];
  inv_barrier : async_compress = true -> barrier (handed w) cq (out w fq) (works (compressors w));
  inv_faithful : Forall faithful (out w fq);
  inv_good : Forall (fun cp => Good cp.1) (compressors w);
  inv_limit : L \/ Z.of_nat (length (compressors w)) <= CONCURRENT_PROCESSINGS;
  inv_whole : Forall (fun b => Whole (origin b)) (out w fq ++ works (compressors w) ++ cq) /\
    map_Forall (fun _ b => Whole (origin b)) (threads w);
}.

#[local] Ltac foralls := unfold out in *; cbn [written hand option_list] in *; rewrite ?Forall_app, ?Forall_cons, ?Forall_nil in *; tauto.

(** Some contents of the queues satisfy the invariant. *)
Definition invariant (w : world (C := C)) : Prop := numbered w -> exists fq cq, inv w fq cq.

Lemma worker_take_inv w fq cq : inv w fq cq -> post W (worker_take w) invariant.
Proof.
  intros I. unfold worker_take. destruct (hand w) as [b|] eqn:Hh; [intros _; by exists fq, cq|].
  apply post_bind. eapply post_weaken; [|by apply dequeue_flush_post, (inv_queues _ _ _ I)].
  intros [q r] (b & fq' & -> & -> & Hq & Hid) Hn. exists fq', cq.
  destruct I; unfold out in *; rewrite Hh in *; simpl in *. split; try done. unfold numbered. simpl.
  intros E. by destruct (inv_sync_mode0 E).
Qed.

Lemma worker_write_inv w fq cq : inv w fq cq -> post W (worker_write w) invariant.
Proof.
  intros I. unfold worker_write. destruct (hand w) as [b|] eqn:Hh; [|intros _; by exists fq, cq].
  pose proof (inv_out _ _ _ I) as Ho. unfold out in Ho. rewrite Hh in Ho. simpl in Ho.
  apply Forall_app in Ho as [_ [Hb Ho]%Forall_cons].
  apply post_bind. eapply post_weaken; [|by apply enqueue_free_post, usable_reset; [apply (inv_queues _ _ _ I)|]].
  intros q (Hq & Hid) Hn. exists fq, cq. destruct I; unfold out in *; rewrite Hh in *; simpl in *. split; try done.
  - foralls.
  - intros t. simpl. unfold out. simpl. rewrite <- app_assoc. simpl. apply inv_fired0.
  - intros E. by destruct (inv_sync_mode0 E).
  - intros E. simpl. unfold out. simpl. rewrite <- app_assoc. simpl. by apply inv_barrier0.
  - foralls.
  - foralls.
Qed.

(** *** Threads *)

Lemma queued_faithful b : queued b -> faithful b.
Proof. intros (_ & Hu & Ho & _). unfold faithful. by rewrite Hu. Qed.

Lemma thread_item_empty t b :
  thread_item t b -> EventBuffer.is_valid (buf b) && (0 <? EventBuffer.get_length (buf b)) = false -> origin b = [].
Proof.
  intros (_ & -> & Hu & Hw & Hd) H. pose proof Hw as (Ht & [n Hn] & Hm & _).
  apply andb_false_iff in H as [Hv|Hl].
  - destruct Hd as [(_ & ? & _)|[_ Hc]]; [congruence|]. unfold EventBuffer.get_capacity, EventBuffer.sizeof_jint in Hc.
    rewrite Hn, Z.div_mul in Hc by lia. unfold EventBuffer.contents. by replace (Z.to_nat (EventBuffer.top (buf b))) with 0%nat by lia.
  - apply Z.ltb_ge in Hl. apply EventBuffer.contents_empty; [done|done|].
    assert (0 <= EventBuffer.get_length (buf b)); [|lia]. apply Z.div_pos; unfold EventBuffer.sizeof_jint; lia.
Qed.

Lemma thread_item_queued t b :
  thread_item t b -> EventBuffer.is_valid (buf b) && (0 <? EventBuffer.get_length (buf b)) = true -> queued b.
Proof.
  intros (_ & Ho & Hu & _ & Hd) H. apply andb_prop in H as [Hv Hl]. apply Z.ltb_lt in Hl.
  destruct Hd as [?|[? _]]; [by split_and!|congruence].
Qed.

Lemma free_thread_item t b : free b -> thread_item t (set_owner b t).
Proof.
  intros (Hus & Hc & Hu & _ & Ho). split_and!; try done.
  - simpl. rewrite Ho. by rewrite <- Hc.
  - apply Hus.
  - by left.
Qed.

Lemma dummy_thread_item t : thread_item t (set_owner (Item EventBuffer.create_dummy []) t).
Proof.
  split_and!; try done. - split_and!; simpl; [lia|lia|by exists 0|intros _; by exists 0|done]. - by right.
Qed.

(** Replacing the current buffer of [t] by an empty one. *)
Lemma current_insert_empty w t b t' :
  origin b = [] ->
  match <[t := b]> (threads w) !! t' with Some b => origin b | None => [] end =
  if decide (t' = t) then [] else current w t'.
Proof.
  intros Ho. destruct (decide (t' = t)) as [->|Hne].
  - by rewrite lookup_insert_eq.
  - rewrite lookup_insert_ne by done. done.
Qed.

(** Where [hand_over] puts the buffer of a thread. *)
Definition handed_to (b : item) (fq cq : list item) (q : queues) (o : option item) : Prop :=
  if EventBuffer.is_valid (buf b) && (0 <? EventBuffer.get_length (buf b)) then
    if TraceObjectsAsyncIO fl then
      o = None /\ if compresses fl then qrep q fq (cq ++ [b]) else qrep q (fq ++ [b]) cq
    else o = Some b /\ qrep q fq cq
  else o = None /\ qrep q fq cq.

Lemma hand_over_post w fq cq t b :
  qrep w fq cq -> thread_item t b ->
  post W (hand_over fl w b) (fun '(q, o) => handed_to b fq cq q o /\ last_id q = last_id w).
Proof.
  intros Hq Hb. unfold hand_over, handed_to. pose proof (thread_item_queued t b Hb) as Hqd.
  destruct (EventBuffer.is_valid (buf b)) eqn:Hv; simpl in *; [|done].
  assert (usable b) as Hus by (destruct Hb as (_ & _ & _ & _ & [?|[? _]]); [done|congruence]).
  destruct (0 <? EventBuffer.get_length (buf b)).
  - destruct (TraceObjectsAsyncIO fl).
    + unfold compresses. destruct (TraceObjectsCompressTrace fl || TraceObjectsCompressTraceAdaptively fl); apply post_bind.
      * eapply post_weaken; [|by apply enqueue_compression_post]. intros q (Hq' & Hid). by simpl.
      * eapply post_weaken; [|by apply enqueue_flush_post]. intros q (Hq' & Hid). by simpl.
    + apply post_bind. eapply post_weaken; [|by apply enqueue_free_post, usable_reset]. intros q (Hq' & Hid). by simpl.
  - apply post_bind. eapply post_weaken; [|by apply enqueue_free_post, usable_reset]. intros q (Hq' & Hid). by simpl.
Qed.

Lemma flush_event_buffer_post w fq cq t b get_new :
  qrep w fq cq -> 0 <= last_id w < 2 ^ 31 - 1 -> thread_item t b ->
  post W (flush_event_buffer fl malloc_usable_size drawn_size w t b get_new) (fun '(q, b', o) =>
    handed_to b fq cq q o /\ thread_item t b' /\ origin b' = [] /\ last_id w <= last_id q).
Proof.
  intros Hq Hn Hb. unfold flush_event_buffer. apply post_bind.
  eapply post_weaken; [|by eapply (hand_over_post w fq cq t b)]. intros [q o] [Hh Hid]. apply post_bind.
  destruct get_new.
  - apply post_bind.
    assert (exists fq' cq', qrep q fq' cq' /\ forall q', qrep q' fq' cq' -> handed_to b fq cq q' o)
      as (fq' & cq' & Hq' & Hback).
    { unfold handed_to in *. repeat case_match; destruct Hh as [-> Hh]; eauto. }
    eapply post_weaken; [|by apply (dequeue_free_post fl malloc_usable_size drawn_size usable_ge W q fq' cq'); [done|lia]].
    intros [q' r] (b' & -> & Hf & Hq2 & Hle). simpl. split_and!; [by apply Hback|by apply free_thread_item|apply Hf|lia].
  - simpl. split_and!; [done|apply dummy_thread_item|done|lia].
Qed.

(** The buffer [b] of [t] is replaced by the empty [b']: the bytes of a thread
    that leave [current] are those of [b]. *)
Lemma current_move w t b b' t' :
  threads w !! t = Some b -> EventBuffer.owner (buf b) = t -> origin b' = [] ->
  current w t' = per t' [b] ++ match <[t := b']> (threads w) !! t' with Some b => origin b | None => [] end.
Proof.
  intros Hb Ho He. rewrite current_insert_empty by done. unfold current.
  destruct (decide (t' = t)) as [->|Hne].
  - by rewrite Hb, per_owned, app_nil_r by done.
  - by rewrite per_other by congruence.
Qed.

Lemma log_handed_eq b l :
  log_handed fl b l = if EventBuffer.is_valid (buf b) && (0 <? EventBuffer.get_length (buf b)) && async_compress
    then l ++ [b] else l.
Proof. unfold log_handed, async_compress. by rewrite <- andb_assoc. Qed.

Lemma flush_thread_inv w fq cq t get_new :
  inv w fq cq -> post W (flush_thread fl malloc_usable_size drawn_size w t get_new) invariant.
Proof.
  intros I. unfold flush_thread. destruct (threads w !! t) as [b|] eqn:Hb; [|intros _; by exists fq, cq].
  pose proof (inv_threads _ _ _ I t b Hb) as Hbt. pose proof Hbt as (Ho & _).
  apply post_bind. eapply post_weaken; [|by apply flush_event_buffer_post; [apply (inv_queues _ _ _ I)|apply (inv_numbered _ _ _ I)|]].
  intros [[q b'] o] (Hh & Hb' & He & Hid) Hn. unfold handed_to in Hh.
  pose proof (fun t' => current_move w t b b' t' Hb Ho He) as Hcur.
  assert (map_Forall thread_item (<[t := b']> (threads w))) as Hth by (by apply map_Forall_insert_2, (inv_threads _ _ _ I)).
  assert (map_Forall (fun _ b => Whole (origin b)) (<[t := b']> (threads w))) as Hwt
    by (apply map_Forall_insert_2; [by rewrite He|apply (inv_whole _ _ _ I)]).
  pose proof (proj2 (inv_whole _ _ _ I) t b Hb) as Hwb. cbv beta in Hwb.
  destruct (EventBuffer.is_valid (buf b) && (0 <? EventBuffer.get_length (buf b))) eqn:Hv.
  - pose proof (thread_item_queued t b Hbt Hv) as Hqd. destruct (TraceObjectsAsyncIO fl) eqn:Ha; destruct Hh as [-> Hh].
    + destruct (compresses fl) eqn:Hc; assert (async_compress = compresses fl) as Hac
        by (unfold async_compress; by rewrite Ha).
      * exists fq, (cq ++ [b]). destruct I. split; simpl; try done.
        -- apply Forall_app. by split; [|constructor].
        -- intros t'. rewrite inv_fired0, Hcur, per_app, <- app_assoc. done.
        -- intros E. congruence.
        -- intros _. rewrite log_handed_eq, Hv, Hac, Hc. by apply barrier_hand, inv_barrier0; congruence.
        -- foralls.
      * exists (fq ++ [b]), cq. destruct I. rewrite Hc in Hac. destruct (inv_plain_mode0 Hac) as [-> Hwk]. split; simpl; try done.
        -- destruct Hqd. foralls.
        -- intros t'. rewrite inv_fired0, Hcur, Hwk. unfold out. simpl. rewrite !per_app. simpl. by rewrite <- !app_assoc.
        -- congruence.
        -- congruence.
        -- pose proof (queued_faithful b Hqd). foralls.
        -- foralls.
    + exists fq, cq. destruct I. assert (async_compress = false) as Hac by (unfold async_compress; by rewrite Ha).
      destruct (inv_plain_mode0 Hac) as [-> Hwk]. destruct (inv_sync_mode0 Ha) as [-> Hhd]. split; simpl; try done.
      * destruct Hqd. foralls.
      * intros t'. rewrite inv_fired0, Hcur, Hwk. unfold out. simpl. rewrite Hhd. simpl. rewrite !app_nil_r, !per_app. simpl. by rewrite <- !app_assoc.
      * congruence.
      * pose proof (queued_faithful b Hqd). foralls.
      * foralls.
  - pose proof (thread_item_empty t b Hbt Hv) as Hem. destruct Hh as [-> Hh]. exists fq, cq. destruct I. split; simpl; try done.
    + intros t'. rewrite inv_fired0, Hcur. destruct (decide (t' = t)) as [->|].
      * by rewrite per_owned, Hem by done.
      * by rewrite per_other by congruence.
    + intros E. rewrite log_handed_eq, Hv. by apply inv_barrier0.
    + foralls.
Qed.

Lemma append_thread_item t b b' ws :
  thread_item t b -> EventBuffer.append (buf b) ws = Some b' ->
  thread_item t (Item b' (origin b ++ EventBuffer.words_bytes ws)).
Proof.
  intros (Ho & Hor & Hu & Hw & Hd) E. pose proof (EventBuffer.append_spec (buf b) ws Hw Hu) as H. rewrite E in H.
  destruct H as (Hw' & Hc & Hcap & Hid & Ho' & _ & Hu').
  split_and!; simpl; try done; try congruence. unfold usable, EventBuffer.is_valid in *. simpl. rewrite Hcap, Hid.
  destruct Hd as [(_ & ? & ?)|[? ?]]; [by left|by right].
Qed.

(** Updating the buffer of one thread and its record. *)
Lemma store_event_inv w fq cq t ws w' :
  inv w fq cq -> keeps_whole ws -> store_event w t ws = Some w' -> inv w' fq cq.
Proof.
  intros I Hk. unfold store_event. destruct (threads w !! t) as [b|] eqn:Hb; [|done]. cbn [mbind option_bind].
  destruct (EventBuffer.append (buf b) ws) as [b'|] eqn:Ha; [|done]. cbn [mbind option_bind]. intros [= <-].
  pose proof (append_thread_item t b b' ws (inv_threads _ _ _ I t b Hb) Ha) as Ht.
  destruct I. split; simpl; try done.
  - by apply map_Forall_insert_2.
  - intros t'. unfold current. simpl. destruct (decide (t' = t)) as [->|Hne].
    + rewrite !lookup_insert_eq. simpl. rewrite inv_fired0. unfold current, out. simpl. rewrite Hb. by rewrite <- !app_assoc.
    + rewrite !lookup_insert_ne by done. apply inv_fired0.
  - destruct inv_whole0 as [Ho Ht0]. split; [done|]. apply map_Forall_insert_2; [apply Hk, (Ht0 t b Hb)|done].
Qed.

(** An event of at most [MAX_EVENT_SIZE] words fits into a fresh buffer. *)
Definition small_event (ws : list Z) : Prop := Z.of_nat (length ws) <= EventBuffer.MAX_EVENT_SIZE.

Lemma flush_thread_room w t ws fq cq :
  inv w fq cq -> is_Some (threads w !! t) -> small_event ws ->
  post W (flush_thread fl malloc_usable_size drawn_size w t true) (fun w' => is_Some (store_event w' t ws)).
Proof.
  intros I [b Hb] Hs. unfold flush_thread. rewrite Hb. apply post_bind.
  unfold flush_event_buffer. apply post_bind.
  eapply post_weaken; [|by eapply (hand_over_post (qs w) fq cq t b); [apply (inv_queues _ _ _ I)|apply (inv_threads _ _ _ I)]].
  intros [q o] [Hh Hid]. apply post_bind.
  assert (exists fq' cq', qrep q fq' cq') as (fq' & cq' & Hq').
  { unfold handed_to in *. repeat case_match; destruct Hh as [-> Hh]; eauto. }
  pose proof (inv_numbered _ _ _ I) as Hn. unfold numbered in Hn. apply post_bind.
  eapply post_weaken; [|by apply (dequeue_free_post fl malloc_usable_size drawn_size usable_ge W q fq' cq'); [done|lia]].
  intros [q' r] (b' & -> & ((Hw & _ & Hcap) & Hc & Hu & _) & _). simpl. unfold store_event. simpl. rewrite lookup_insert_eq.
  cbn [mbind option_bind].
  pose proof (EventBuffer.append_spec (EventBuffer.set_owner (buf b') t) ws Hw Hu) as Ha.
  cbn [set_owner buf]. destruct (EventBuffer.append _ ws) as [b2|]; [by eexists|].
  unfold small_event, EventBuffer.get_length in *. simpl in *.
  pose proof (EventBuffer.contents_length (buf b') Hw) as Hl. rewrite Hc in Hl. simpl in Hl. rewrite <- Hl in Ha.
  unfold EventBuffer.get_capacity in *. simpl in *. change (Z.of_nat 0 / EventBuffer.sizeof_jint) with 0 in Ha. exfalso. lia.
Qed.

Lemma fire_inv w fq cq t ws :
  inv w fq cq -> keeps_whole ws -> W \/ is_Some (threads w !! t) /\ small_event ws ->
  post W (fire fl malloc_usable_size drawn_size w t ws) invariant.
Proof.
  intros I Hk Hs. unfold fire. destruct (store_event w t ws) as [w'|] eqn:E.
  { intros _. exists fq, cq. by eapply store_event_inv. }
  apply post_bind. pose proof (flush_thread_inv w fq cq t true I) as Hf.
  assert (W \/ post W (flush_thread fl malloc_usable_size drawn_size w t true) (fun w' => is_Some (store_event w' t ws))) as Hr.
  { destruct Hs as [?|[? ?]]; [by left|right]. by eapply flush_thread_room. }
  destruct (flush_thread _ _ _ _ _ _) as [w1| |]; [|done|done]. simpl in *.
  destruct (store_event w1 t ws) as [w2|] eqn:E2.
  - intros Hn. assert (numbered w1) as Hn1.
    { unfold store_event in E2. destruct (threads w1 !! t); [|done]. cbn in E2.
      destruct (EventBuffer.append _ _); [|done]. cbn in E2. injection E2 as <-. exact Hn. }
    destruct (Hf Hn1) as (fq1 & cq1 & I1). exists fq1, cq1. by eapply store_event_inv.
  - destruct Hr as [?|[? ?]]; [done|congruence].
Qed.

Lemma spawn_inv w fq cq t : inv w fq cq -> invariant (spawn w t).
Proof.
  intros I _. exists fq, cq. unfold spawn. destruct (threads w !! t) as [b|] eqn:Hb; [done|].
  destruct I. split; simpl; try done.
  - apply map_Forall_insert_2; [apply dummy_thread_item|done].
  - intros t'. rewrite inv_fired0. unfold current at 2. simpl. rewrite current_insert_empty by done.
    destruct (decide (t' = t)) as [->|]; [|done]. unfold current. by rewrite Hb.
  - destruct inv_whole0. split; [done|]. by apply map_Forall_insert_2.
Qed.

Lemma set_sync_inv w fq cq t s : inv w fq cq -> invariant (set_sync w t s).
Proof.
  intros I _. exists fq, cq. destruct I. split; simpl; try done.
  - intros t' b Hb. apply lookup_alter_Some in Hb as [(-> & b0 & Hb0 & ->)|[_ Hb]]; [|by apply inv_threads0].
    pose proof (inv_threads0 t' b0 Hb0) as (H1 & H2 & H3 & H4 & H5). by split_and!.
  - intros t'. rewrite inv_fired0. unfold current at 2. simpl. unfold current. destruct (decide (t = t')) as [->|Hne].
    + rewrite lookup_alter_eq. by destruct (threads w !! t').
    + by rewrite lookup_alter_ne by done.
  - destruct inv_whole0 as [? Ht]. split; [done|]. intros t' b Hb.
    apply lookup_alter_Some in Hb as [(-> & b0 & Hb0 & ->)|[_ Hb]]; [exact (Ht t' b0 Hb0)|exact (Ht t' b Hb)].
Qed.

Lemma exit_thread_inv w fq cq t :
  inv w fq cq -> post W (exit_thread fl malloc_usable_size drawn_size w t) invariant.
Proof.
  intros I. unfold exit_thread. apply post_bind. pose proof (flush_thread_inv w fq cq t false I) as Hf.
  assert (post W (flush_thread fl malloc_usable_size drawn_size w t false) (fun w' => current w' t = [])) as He.
  { unfold flush_thread. destruct (threads w !! t) as [b|] eqn:Hb; simpl; [|unfold current; by rewrite Hb].
    apply post_bind. eapply post_weaken; [|by apply flush_event_buffer_post; [apply (inv_queues _ _ _ I)|apply (inv_numbered _ _ _ I)|apply (inv_threads _ _ _ I)]].
    intros [[q b'] o] (_ & _ & Ho & _). simpl. unfold current. simpl. by rewrite lookup_insert_eq. }
  destruct (flush_thread _ _ _ _ _ _) as [w1| |]; [|done|done]. simpl in *. intros Hn.
  destruct (Hf Hn) as (fq1 & cq1 & I1). exists fq1, cq1. destruct I1. split; simpl; try done.
  - by apply map_Forall_delete.
  - intros t'. rewrite inv_fired0. unfold current at 2. simpl. unfold current in *. destruct (decide (t' = t)) as [->|].
    + by rewrite lookup_delete_eq, He.
    + by rewrite lookup_delete_ne by done.
  - destruct inv_whole0. split; [done|]. by apply map_Forall_delete.
Qed.

(** *** Compression threads *)

(** Only the lists change, and not their elements. *)
Lemma set_qs_inv w fq cq q : inv w fq cq -> qrep q fq cq -> invariant (set_qs w q).
Proof. intros I Hq Hn. exists fq, cq. destruct I. split; simpl; done. Qed.

(** The buffer of a compression thread moves on, as [b']. *)
Lemma move_on_inv w fq cq i c b b' q c' :
  inv w fq cq -> compressors w !! i = Some (c, Work b) -> key b' = key b -> usable b' -> faithful b' -> Good c' ->
  qrep q (fq ++ [b']) cq ->
  invariant (set_compressor (set_qs w q) i c' (Processed (EventBuffer.owner (buf b)))).
Proof.
  intros I Hi Hk Hus Hf Hg Hq Hn. exists (fq ++ [b']), cq.
  set (l1 := works (take i (compressors w))). set (l2 := works (drop (S i) (compressors w))).
  assert (works (compressors w) = l1 ++ b :: l2) as Hw by (by rewrite (works_split _ _ _ Hi)).
  assert (works (<[i := (c', Processed (EventBuffer.owner (buf b)))]> (compressors w)) = l1 ++ l2) as Hw'
    by (by rewrite (works_insert _ _ _ _ Hi)).
  assert (busy (<[i := (c', Processed (EventBuffer.owner (buf b)))]> (compressors w)) = busy (compressors w)) as Hbz
    by (by rewrite (busy_insert _ _ _ _ Hi), (busy_split _ _ _ Hi)).
  destruct I. rewrite Hw in *. split; unfold set_compressor, set_qs; cbn [qs threads hand written compressors in_process fired handed];
    rewrite ?Hw', ?Hbz; try done.
  - apply Forall_app in inv_works0 as [? [_ ?]%Forall_cons]. by apply Forall_app.
  - apply Forall_app in inv_works_sync0 as [? [_ ?]%Forall_cons]. by apply Forall_app.
  - foralls.
  - intros t. rewrite inv_fired0. unfold out, current. simpl. rewrite !per_app, (per_cons t b), <- !app_assoc.
    do 3 f_equal. rewrite (per_key t b' b Hk). destruct (decide (EventBuffer.owner (buf b) = t)) as [Ho|Ho].
    + rewrite inv_busy0 in inv_nodup0. destruct (per_works _ _ _ _ t Hi inv_nodup0 Ho) as [E1 E2].
      fold l1 in E1. fold l2 in E2. by rewrite E1, E2.
    + by rewrite (per_other t b Ho).
  - intros E. destruct (inv_sync_mode0 E) as [-> Hh]. destruct (inv_plain_mode0) as [_ Hnil]; [unfold async_compress; by rewrite E|].
    by destruct l1.
  - intros E. destruct (inv_plain_mode0 E) as [_ Hnil]. by destruct l1.
  - intros E. unfold out. simpl. rewrite (app_assoc _ fq), (app_assoc (written w)).
    eapply barrier_output; [by apply inv_barrier0| |done]. solve_Permutation.
  - foralls.
  - by apply Forall_insert.
  - by rewrite length_insert.
  - assert (Whole (origin b) -> Whole (origin b')) by (by injection Hk as _ _ ->). foralls.
Qed.

Lemma compressed_usable d b bytes :
  free d -> Z.of_nat (length bytes) <= EventBuffer.get_capacity (buf d) * 4 -> Forall is_byte bytes ->
  usable (compressed_item d b bytes).
Proof.
  intros ((Hw & Hv & Hc) & _) Hl Hb. destruct Hw as (_ & [n Hn] & _ & Hd).
  unfold EventBuffer.get_capacity, EventBuffer.sizeof_jint in Hl. rewrite Hn, Z.div_mul in Hl by lia.
  assert (length (EventBuffer.data (buf (compressed_item d b bytes))) = length (EventBuffer.data (buf d))) as Hlen.
  { simpl. rewrite length_app, length_drop. lia. }
  split_and!.
  - unfold EventBuffer.wf. rewrite Hlen. split_and!; simpl; [lia|lia|by exists n|done|].
    apply Forall_app. split; [done|by apply Forall_drop].
  - done.
  - unfold EventBuffer.get_capacity. by rewrite Hlen.
Qed.

Lemma compressed_faithful d b c cap c' bytes :
  Good c -> origin b = EventBuffer.contents (buf b) ->
  encode c (EventBuffer.contents (buf b)) cap = Some (c', Some bytes) -> faithful (compressed_item d b bytes).
Proof.
  intros Hg Ho He. exists c, cap, c'. split; [done|]. simpl. rewrite Ho, He. do 3 f_equal.
  unfold EventBuffer.contents. simpl. rewrite Nat2Z.id. symmetry. by apply take_app_length'.
Qed.

Lemma work_spec w fq cq i c b :
  inv w fq cq -> compressors w !! i = Some (c, Work b) -> queued b /\ Good c /\ async_compress = true.
Proof.
  intros I Hi. pose proof (inv_works _ _ _ I) as Hall. rewrite (works_split _ _ _ Hi) in Hall.
  apply Forall_app in Hall as [_ [Hb _]%Forall_app]. apply Forall_cons in Hb as [? _]. split_and!; [done| |].
  - by apply (Forall_lookup_1 _ _ _ _ (inv_good _ _ _ I) Hi).
  - destruct async_compress eqn:E; [done|]. destruct (inv_plain_mode _ _ _ I E) as [_ Hw].
    rewrite (works_split _ _ _ Hi) in Hw. by destruct (works (take i (compressors w))).
Qed.

Lemma compressor_process_inv w fq cq i evaluate :
  inv w fq cq ->
  post W (compressor_process fl malloc_usable_size drawn_size encode w i evaluate) invariant.
Proof.
  intros I. unfold compressor_process. destruct (compressors w !! i) as [[c [|b|o]]|] eqn:Hi;
    try (intros _; by exists fq, cq).
  destruct (work_spec _ _ _ _ _ _ I Hi) as (Hqd & Hg & Hac). pose proof (queued_faithful b Hqd) as Hfb.
  destruct Hqd as (Hus & Hu & Hor & Hlen).
  assert (Forall is_byte (EventBuffer.contents (buf b))) as Hby
    by (destruct Hus as ((_ & _ & _ & Hby) & _); by apply Forall_take).
  assert (EventBuffer.contents (buf b) <> []) as Hne.
  { intros E. pose proof (EventBuffer.contents_length (buf b) (proj1 Hus)) as Hl. rewrite E in Hl. simpl in Hl.
    unfold EventBuffer.get_length in Hlen. rewrite <- Hl in Hlen. by apply (Z.lt_irrefl 0). }
  rewrite (proj2 (Z.eqb_neq _ _)) by lia. pose proof (inv_queues _ _ _ I) as Hq.
  destruct (TraceObjectsCompressTrace fl || (TraceObjectsCompressTraceAdaptively fl && evaluate)).
  - apply post_bind. eapply post_weaken; [|by apply (dequeue_free_post fl malloc_usable_size drawn_size usable_ge W _ _ _ Hq), (inv_numbered _ _ _ I)].
    intros [q r] (d & -> & Hd & Hq1 & _).
    destruct (encode c _ _) as [[c' [bytes|]]|] eqn:He.
    + destruct (encode_good _ _ _ _ _ Hg Hby Hne He) as [Hg' Hfit]. destruct (Hfit bytes eq_refl) as [Hl Hbytes].
      apply post_bind. eapply post_weaken; [|by apply enqueue_flush_post]. intros q2 (Hq2 & _). apply post_bind.
      eapply post_weaken; [|by apply enqueue_free_post, usable_reset]. intros q3 (Hq3 & _).
      eapply (move_on_inv w fq cq i c b (compressed_item d b bytes));
        [done|done|done|by apply compressed_usable|by eapply (compressed_faithful d b c)|done|done].
    + destruct (encode_good _ _ _ _ _ Hg Hby Hne He) as [Hg' _].
      apply post_bind. eapply post_weaken; [|by apply enqueue_flush_post]. intros q2 (Hq2 & _). apply post_bind.
      eapply post_weaken; [|by apply enqueue_free_post, usable_reset, Hd]. intros q3 (Hq3 & _). by eapply move_on_inv.
    + destruct encode_safe as [?|[?|Hs]]; [done|congruence|].
      destruct (Hs c (EventBuffer.contents (buf b)) (EventBuffer.get_capacity (buf d) * 4) Hg Hby) as [? ?]. congruence.
  - apply post_bind. eapply post_weaken; [|by apply enqueue_flush_post]. intros q2 (Hq2 & _). by eapply move_on_inv.
Qed.

Lemma compressor_release_inv w fq cq i : inv w fq cq -> invariant (compressor_release w i).
Proof.
  intros I Hn. exists fq, cq. unfold compressor_release. destruct (compressors w !! i) as [[c [|b|o]]|] eqn:Hi; try done.
  assert (works (<[i := (c, Idle)]> (compressors w)) = works (compressors w)) as Hw
    by (by rewrite (works_insert _ _ _ _ Hi), (works_split _ _ _ Hi)).
  assert (in_process w ≡ₚ o :: busy (<[i := (c, Idle)]> (compressors w))) as Hp.
  { rewrite (inv_busy _ _ _ I), (busy_insert _ _ _ _ Hi), (busy_split _ _ _ Hi). simpl. solve_Permutation. }
  assert (o ∈ in_process w) as Hin by (rewrite Hp; constructor).
  pose proof (in_process_remove (in_process w) o Hin) as Hr.
  assert (o :: (remove_thread_in_process (in_process w) o).1 ≡ₚ o :: busy (<[i := (c, Idle)]> (compressors w))) as Hr' by (by rewrite <- Hr).
  destruct I. split; cbn [qs threads hand written compressors in_process fired handed]; rewrite ?Hw; try done.
  - by apply Permutation_cons_inv in Hr'.
  - rewrite Hr in inv_nodup0. by apply NoDup_cons in inv_nodup0 as [_ ?].
  - apply Forall_insert; [done|]. exact (Forall_lookup_1 _ _ _ _ inv_good0 Hi).
  - by rewrite length_insert.
Qed.

(** The buffer at the head of the compression queue is taken. *)
Lemma take_work_inv w fq cq i c b q :
  inv w fq (b :: cq) -> compressors w !! i = Some (c, Idle) -> EventBuffer.sync (buf b) = EventBuffer.Sync_None ->
  EventBuffer.owner (buf b) ∉ in_process w -> qrep q fq cq ->
  invariant (World q (threads w) (hand w) (written w) (<[i := (c, Work b)]> (compressors w))
    (in_process w ++ [EventBuffer.owner (buf b)]) (fired w) (handed w)).
Proof.
  intros I Hi Hs Hni Hq Hn. exists fq, cq.
  set (l1 := works (take i (compressors w))). set (l2 := works (drop (S i) (compressors w))).
  assert (works (compressors w) = l1 ++ l2) as Hw by (by rewrite (works_split _ _ _ Hi)).
  assert (works (<[i := (c, Work b)]> (compressors w)) = l1 ++ b :: l2) as Hw' by (by rewrite (works_insert _ _ _ _ Hi)).
  assert (forall b', b' ∈ l1 ++ l2 -> EventBuffer.owner (buf b') <> EventBuffer.owner (buf b)) as Hown.
  { intros b' Hb' E. rewrite <- Hw in Hb'. apply works_busy in Hb'. rewrite <- (inv_busy _ _ _ I), E in Hb'. done. }
  destruct I. apply Forall_cons in inv_cq0 as [Hb Hcq]. rewrite Hw in *.
  split; cbn [qs threads hand written compressors in_process fired handed]; rewrite ?Hw'; try done.
  - apply Forall_app in inv_works0 as [? ?]. apply Forall_app. by split; [|constructor].
  - apply Forall_app in inv_works_sync0 as [? ?]. apply Forall_app. by split; [|constructor].
  - intros t. rewrite inv_fired0. unfold out, current. simpl. rewrite (per_cons t b cq), !per_app, (per_cons t b l2), <- !app_assoc.
    do 3 f_equal. destruct (decide (EventBuffer.owner (buf b) = t)) as [Ho|Ho].
    + rewrite !(per_no_owner t l1), !(per_no_owner t l2); [done|..]; intros b' Hb'; rewrite <- Ho; apply Hown, elem_of_app; auto.
    + by rewrite (per_other t b Ho).
  - rewrite inv_busy0, (busy_insert _ _ _ _ Hi), (busy_split _ _ _ Hi). simpl. solve_Permutation.
  - apply NoDup_app. split_and!; [done| |apply NoDup_singleton]. intros x Hx ->%list_elem_of_singleton. done.
  - intros E. by destruct (inv_plain_mode0 E).
  - intros E. eapply barrier_take; [by apply inv_barrier0|done|]. solve_Permutation.
  - apply Forall_insert; [done|]. exact (Forall_lookup_1 _ _ _ _ inv_good0 Hi).
  - by rewrite length_insert.
  - foralls.
Qed.

(** A synchronised buffer moves on when nothing is in process. *)
Lemma take_sync_inv w fq cq b q :
  inv w fq (b :: cq) -> works (compressors w) = [] -> qrep q (fq ++ [b]) cq -> invariant (set_qs w q).
Proof.
  intros I Hw Hq Hn. exists (fq ++ [b]), cq. destruct I. apply Forall_cons in inv_cq0 as [Hb Hcq]. rewrite Hw in *.
  split; unfold set_qs; cbn [qs threads hand written compressors in_process fired handed]; rewrite ?Hw; try done.
  - destruct Hb. foralls.
  - intros t. rewrite inv_fired0. unfold out, current. simpl. rewrite (per_cons t b cq), !per_app, <- !app_assoc. done.
  - intros E. destruct inv_plain_mode0 as [? _]; [unfold async_compress; by rewrite E|done].
  - intros E. by destruct (inv_plain_mode0 E).
  - intros E. unfold out. simpl. rewrite (app_assoc _ fq), (app_assoc (written w)). by apply barrier_sync, inv_barrier0.
  - pose proof (queued_faithful b Hb). foralls.
  - foralls.
Qed.

Lemma compressor_take_inv w fq cq i : inv w fq cq -> post W (compressor_take w i) invariant.
Proof.
  intros I. unfold compressor_take. destruct (compressors w !! i) as [[c [|b|o]]|] eqn:Hi; try (intros _; by exists fq, cq).
  pose proof (inv_queues _ _ _ I) as Hq. apply post_bind. eapply post_weaken; [|by eapply peek_compression_post].
  intros [q r] (b & cq' & -> & -> & ->). case_bool_decide as Hs; cbn [negb].
  - apply post_bind. unfold add_thread_in_process. case_bool_decide as Hin; [by eapply set_qs_inv|].
    destruct (Z.ltb_spec (Z.of_nat (length (in_process w))) CONCURRENT_PROCESSINGS) as [Hlt|Hge]; simpl.
    + apply post_bind. eapply post_weaken; [|by eapply dequeue_compression_post].
      intros [q r] (b' & cq2 & [= <- <-] & -> & Hq2 & _). by eapply take_work_inv.
    + destruct (inv_limit _ _ _ I) as [?|Hlim]; [by apply limited|].
      pose proof (lookup_lt_Some _ _ _ Hi) as Hil.
      rewrite (inv_busy _ _ _ I), (busy_split _ _ _ Hi) in Hge. simpl in Hge. rewrite length_app in Hge.
      pose proof (busy_length (take i (compressors w))) as H1. pose proof (busy_length (drop (S i) (compressors w))) as H2.
      rewrite length_take in H1. rewrite length_drop in H2. lia.
  - destruct (i =? 0)%nat; [|by eapply set_qs_inv]. destruct (others_idle w i) eqn:Hid; [|done].
    apply andb_prop in Hid as [H1 H2]. apply idle_works in H1 as [H1 _], H2 as [H2 _].
    assert (works (compressors w) = []) as Hw by (by rewrite (works_split _ _ _ Hi), H1, H2).
    apply post_bind. eapply post_weaken; [|by eapply dequeue_compression_post].
    intros [q r] (b' & cq2 & [= <- <-] & -> & Hq2 & _). apply post_bind.
    eapply post_weaken; [|by apply enqueue_flush_post]. intros q3 (Hq3 & _). by eapply take_sync_inv.
Qed.

(** *** All actions *)

(** The actions that never go wrong: small events of existing threads. *)
Definition sensible (w : world (C := C)) (a : action) : Prop :=
  match a with Fire t ws => is_Some (threads w !! t) /\ small_event ws | _ => True end.

(** What an action fires keeps [Whole]. *)
Definition whole_action (a : action) : Prop := match a with Fire t ws => keeps_whole ws | _ => True end.

Lemma exec_inv w a fq cq :
  inv w fq cq -> whole_action a -> W \/ sensible w a -> post W (exec fl malloc_usable_size drawn_size encode w a) invariant.
Proof.
  intros I Hk Hs. destruct a; simpl in *.
  - by eapply spawn_inv.
  - by eapply exit_thread_inv.
  - by eapply fire_inv.
  - by eapply flush_thread_inv.
  - by eapply set_sync_inv.
  - by eapply worker_take_inv.
  - by eapply worker_write_inv.
  - by eapply compressor_take_inv.
  - by eapply compressor_process_inv.
  - by eapply compressor_release_inv.
Qed.

Lemma start_inv c0 n :
  Good c0 -> L \/ Z.of_nat n <= CONCURRENT_PROCESSINGS -> inv (start fl c0 n) [] [].
Proof.
  intros Hg Hn. destruct (idle_works (replicate n (c0, Idle))) as [Hw Hb].
  { induction n as [|n IH]; [done|]. simpl. apply IH. destruct Hn; [by left|right; lia]. }
  split; cbn [start qs threads hand written compressors in_process fired handed]; rewrite ?Hw, ?Hb; try done.
  - apply init_qrep.
  - by constructor.
  - intros _. exists []. split_and!; try done. intros P1 s P2 E. by destruct P1.
  - by apply Forall_replicate.
  - by rewrite length_replicate.
Qed.

(** Every reachable state satisfies the invariant. *)
Lemma reachable_inv c0 n w :
  (forall a, whole_action a) -> Good c0 -> L \/ Z.of_nat n <= CONCURRENT_PROCESSINGS -> W ->
  reachable fl malloc_usable_size drawn_size encode (start fl c0 n) w -> exists fq cq, inv w fq cq.
Proof.
  intros Hwa Hg Hn HW. induction 1 as [|w a w' _ (fq & cq & I) E Hnum]; [exists [], []; by apply start_inv|].
  pose proof (exec_inv w a fq cq I (Hwa a) (or_introl HW)) as Hp. rewrite E in Hp. by apply Hp.
Qed.

End Invariant.

End PipelineSpec.
