(* ===== verification/PipelineTheorems.v ===== *)
(** * The guarantees of the event buffer pipeline

    Theorems on the states reachable by the actions of [Pipeline], and the
    pipeline with the LZW encoder of [LZW] as its compressor. *)

From S2P Require Import Prelude MapInterface EventBuffer EventBufferList EventBuffers Pipeline PipelineSpec.
From S2P Require Import LZW Decompressor LZWRoundtrip.
From Stdlib Require Import ZArith Lia.

Module PipelineTheorems.
Import EventBuffers QueueSpec Pipeline PipelineSpec.

(** ** Runs *)

Section Runs.
Variable fl : flags.
Variable malloc_usable_size : Z -> Z.
Variable drawn_size : Z -> Z.
Context {C : Type}.
Variable encode : C -> list Z -> Z -> option (C * option (list Z)).

Definition numbered_b (w : world (C := C)) : bool := (0 <=? last_id (qs w)) && (last_id (qs w) <? 2 ^ 31 - 1).

(** The state after a sequence of actions that all return. *)
Fixpoint run (w : world (C := C)) (l : list action) : option (world (C := C)) :=
  match l with
  | [] => Some w
  | a :: l =>
      match exec fl malloc_usable_size drawn_size encode w a with
      | Done w' => if numbered_b w' then run w' l else None
      | _ => None
      end
  end.

Lemma run_reachable w0 w l w' :
  reachable fl malloc_usable_size drawn_size encode w0 w -> run w l = Some w' ->
  reachable fl malloc_usable_size drawn_size encode w0 w'.
Proof.
  revert w. induction l as [|a l IH]; intros w Hr; simpl; [by intros [= <-]|].
  destruct (exec _ _ _ _ w a) as [w1| |] eqn:E; [|done|done]. destruct (numbered_b w1) eqn:Hn; [|done].
  apply IH. eapply reachable_step; [done|done|]. unfold numbered_b in Hn. unfold numbered. zbool. lia.
Qed.

(** Nothing is on its way: the queues are empty, the worker holds no buffer
    and no compression thread works on one. *)
Definition drained (w : world (C := C)) : bool :=
  EventBufferList.is_empty (flush_queue (qs w)) && EventBufferList.is_empty (compression_queue (qs w)) &&
  bool_decide (hand w = None) && bool_decide (works (compressors w) = []).

End Runs.

Lemma drained_spec {C} (w : world (C := C)) fq cq :
  drained w = true -> qrep (qs w) fq cq -> fq = [] /\ cq = [] /\ hand w = None /\ works (compressors w) = [].
Proof.
  unfold drained. intros H [[Hf _] [Hc _] _]. apply andb_prop in H as [[[H1 H2]%andb_prop H3]%andb_prop H4].
  rewrite (EventBufferList.is_empty_spec _ _ Hf) in H1. rewrite (EventBufferList.is_empty_spec _ _ Hc) in H2.
  apply bool_decide_eq_true_1 in H1, H2, H3, H4. split_and!; try done.
Qed.

(** ** The guarantees *)

Section Guarantees.
Variable fl : flags.
Variable malloc_usable_size : Z -> Z.
Variable drawn_size : Z -> Z.
Context {C : Type}.
Variable encode : C -> list Z -> Z -> option (C * option (list Z)).
Variable Good : C -> Prop.

(** [malloc_usable_size] of a block of [n] bytes is at least [n]. *)
Hypothesis usable_ge : forall n, 0 <= n -> n <= malloc_usable_size n.
(** The encoder keeps its invariant and stays in the destination. *)
Hypothesis encode_good : forall c src cap c' r,
  Good c -> Forall is_byte src -> src <> [] -> encode c src cap = Some (c', r) ->
  Good c' /\ forall bytes, r = Some bytes -> Z.of_nat (length bytes) <= cap /\ Forall is_byte bytes.

Lemma any_whole a : whole_action (fun _ => True) a.
Proof. by destruct a. Qed.

Let reach c0 n := reachable fl malloc_usable_size drawn_size encode (start fl c0 n).

(** C6: no event is lost, duplicated or reordered, whatever the interleaving
    of threads, compression threads and the worker: the buffers of a thread in
    the trace file hold a prefix of what the thread fired, each as is or as
    the encoder's output for it, and all of it once nothing is on its way and
    the thread's own buffer is empty. *)
Theorem pipeline_keeps_events c0 n w t :
  Good c0 -> reach c0 n w ->
  per t (written w) `prefix_of` default [] (fired w !! t) /\
  Forall (faithful encode Good) (written w) /\
  (drained w = true -> current w t = [] -> per t (written w) = default [] (fired w !! t)).
Proof.
  intros Hg Hr.
  destruct (reachable_inv fl malloc_usable_size drawn_size encode True True (fun x => x) usable_ge Good encode_good
    (or_introl I) (fun _ => True) I c0 n w any_whole Hg (or_introl I) I Hr) as (fq & cq & J).
  pose proof (inv_fired _ _ _ _ _ _ _ _ J t) as Hf. pose proof (inv_faithful _ _ _ _ _ _ _ _ J) as Hfa. unfold out in *.
  split_and!.
  - rewrite Hf, per_app, <- app_assoc. by eexists.
  - by apply Forall_app in Hfa as [? _].
  - intros Hd Hc. destruct (drained_spec w fq cq Hd (inv_queues _ _ _ _ _ _ _ _ J)) as (-> & -> & Hh & Hw).
    rewrite Hf, Hh, Hw, Hc. simpl. by rewrite !app_nil_r.
Qed.

(** C16: a synchronised buffer is a barrier: with compression threads, once
    nothing is on its way, the file has before it exactly the buffers that
    were handed over before it (compared by owner, level and bytes). *)
Theorem pipeline_sync_barrier c0 n w H1 s H2 :
  Good c0 -> async_compress fl = true -> reach c0 n w -> drained w = true -> handed w = H1 ++ s :: H2 ->
  EventBuffer.sync (buf s) <> EventBuffer.Sync_None ->
  exists O1 s' O2, written w = O1 ++ s' :: O2 /\ key s' = key s /\ key <$> O1 ≡ₚ key <$> H1.
Proof.
  intros Hg Hac Hr Hd Hh Hs.
  destruct (reachable_inv fl malloc_usable_size drawn_size encode True True (fun x => x) usable_ge Good encode_good
    (or_introl I) (fun _ => True) I c0 n w any_whole Hg (or_introl I) I Hr) as (fq & cq & J).
  destruct (drained_spec w fq cq Hd (inv_queues _ _ _ _ _ _ _ _ J)) as (-> & -> & Hh' & Hw).
  destruct (inv_barrier _ _ _ _ _ _ _ _ J Hac) as (P & HP & _ & Hb). rewrite app_nil_r in HP.
  unfold out in Hb. rewrite Hh' in Hb. simpl in Hb. rewrite app_nil_r in Hb. apply (Hb H1 s H2); [|done]. congruence.
Qed.


(** C40: every buffer is well formed wherever it is: the current buffer of a
    thread belongs to it, is not compressed and holds what the thread stored;
    the rings represent lists of buffers in which no top is outside of the
    data; what is in process is uncompressed, not empty, and of different
    threads, which are those registered as in process. *)
Theorem buffers_well_formed c0 n w :
  Good c0 -> reach c0 n w ->
  map_Forall thread_item (threads w) /\ Forall usable (written w ++ option_list (hand w)) /\
  (exists fq cq, qrep (qs w) fq cq /\ Forall usable fq /\ Forall queued cq) /\
  Forall queued (works (compressors w)) /\ NoDup (in_process w) /\ in_process w ≡ₚ busy (compressors w).
Proof.
  intros Hg Hr.
  destruct (reachable_inv fl malloc_usable_size drawn_size encode True True (fun x => x) usable_ge Good encode_good
    (or_introl I) (fun _ => True) I c0 n w any_whole Hg (or_introl I) I Hr) as (fq & cq & J).
  pose proof (inv_out _ _ _ _ _ _ _ _ J) as Ho. unfold out in Ho. rewrite app_assoc in Ho. apply Forall_app in Ho as [Ho Hf].
  destruct J. split_and!; try done. by exists fq, cq.
Qed.

End Guarantees.

(** ** The pipeline with the LZW encoder *)

Import Strategies.

Lemma compress_good l src cap l' r :
  EncoderSpec.good l -> Forall is_byte src -> src <> [] ->
  LZWCompression.compress (M := Strategies.dict) l src cap = Some (l', r) ->
  EncoderSpec.good l' /\ forall bytes, r = Some bytes -> Z.of_nat (length bytes) <= cap /\ Forall is_byte bytes.
Proof.
  intros (d & Hr & Hok) Hb Hne. unfold LZWCompression.compress.
  destruct (EncoderSpec.encode_spec l d src cap Hr Hok Hb) as (l1 & si & dest & -> & Hg & Hrun). cbn [mbind option_bind].
  destruct (Z.leb_spec (Z.of_nat (length dest)) cap); [|done]. intros [= <- <-]. split; [done|]. intros bytes Hby.
  destruct (Z.eqb_spec si (Z.of_nat (length src))); [|done]. injection Hby as <-. split; [done|].
  by destruct (Hrun Hne ltac:(lia)) as (? & ? & ? & ? & ? & ? & _ & _ & _ & _ & ?).
Qed.

(** Compression threads with trees of hibbles as dictionaries, blocks of the
    size asked for, and buffers of 800 bytes. *)
Definition demo_flags : flags := Flags true true false false 4 4.

Definition demo_run (c0 : LZWCompression.lzw Strategies.dict) (n : nat) (l : list action) :=
  run demo_flags (fun x => x) (fun _ => 0) LZWCompression.compress (start demo_flags c0 n) l.

(** Two threads, two compression threads and the worker. *)
Definition demo_actions : list action :=
  [Spawn 1; Spawn 2; Fire 1 [7; 7; 7]; Fire 2 [9]; Flush 2 true; Flush 1 true; Fire 1 [8];
   CompressorTake 0; CompressorTake 1; CompressorProcess 1 false; CompressorProcess 0 false; CompressorRelease 0;
   SetSync 1 EventBuffer.Sync_Full; Flush 1 false; CompressorRelease 1; CompressorTake 0;
   WorkerTake; WorkerWrite; WorkerTake; WorkerWrite; WorkerTake; WorkerWrite].

Abbreviation demo_reach c0 n :=
  (reachable demo_flags (fun x => x) (fun _ => 0) LZWCompression.compress (start demo_flags c0 n)).

Lemma run_observed {X} (f : world (C := LZWCompression.lzw Strategies.dict) -> X) strategy n acts x :
  f <$> (c0 ← make strategy; demo_run c0 n acts) = Some x ->
  exists c0 w, make strategy = Some c0 /\ EncoderSpec.good c0 /\ demo_reach c0 n w /\ f w = x.
Proof.
  destruct (LZWRoundtrip.lzw_make_spec strategy) as (c0 & _ & -> & _ & _ & _ & Hg). cbn [mbind option_bind].
  destruct (demo_run c0 n acts) as [w|] eqn:E; [|done]. intros [= <-]. exists c0, w. split_and!; try done.
  eapply run_reachable; [constructor|exact E].
Qed.

(** What the example run leaves behind. *)
Definition observe (w : world (C := LZWCompression.lzw Strategies.dict)) :=
  (drained w, current w 1, per 1 (written w), (EventBuffer.sync ∘ buf <$> handed w)).

Lemma demo_observed : exists c0 w, EncoderSpec.good c0 /\ demo_reach c0 2 w /\
  observe w = (true, [], [7; 0; 0; 0; 7; 0; 0; 0; 7; 0; 0; 0; 8; 0; 0; 0],
    [EventBuffer.Sync_None; EventBuffer.Sync_None; EventBuffer.Sync_Full]).
Proof.
  destruct (run_observed observe 13 2 demo_actions (true, [], [7; 0; 0; 0; 7; 0; 0; 0; 7; 0; 0; 0; 8; 0; 0; 0],
    [EventBuffer.Sync_None; EventBuffer.Sync_None; EventBuffer.Sync_Full])) as (c0 & w & _ & H).
  - by vm_compute.
  - by exists c0, w.
Qed.

Lemma pipeline_keeps_events_witness : exists c0 w, demo_reach c0 2 w /\
  per 1 (written w) = default [] (fired w !! 1) /\ length (per 1 (written w)) = 16%nat.
Proof.
  destruct demo_observed as (c0 & w & Hg & Hr & Ho). exists c0, w. split; [done|]. injection Ho as Hd Hc Hp _.
  destruct (pipeline_keeps_events demo_flags (fun x => x) (fun _ => 0) LZWCompression.compress EncoderSpec.good
    (fun _ _ => Z.le_refl _) compress_good c0 2 w 1 Hg Hr) as (_ & _ & Heq).
  split; [by apply Heq|]. by rewrite Hp.
Defined.

Lemma buffers_well_formed_witness : exists c0 w, demo_reach c0 2 w /\ drained w = true /\ Forall usable (written w).
Proof.
  destruct demo_observed as (c0 & w & Hg & Hr & Ho). exists c0, w. split; [done|]. injection Ho as Hd _ _ _. split; [done|].
  destruct (buffers_well_formed demo_flags (fun x => x) (fun _ => 0) LZWCompression.compress EncoderSpec.good
    (fun _ _ => Z.le_refl _) compress_good c0 2 w Hg Hr) as (_ & Hw & _).
  by apply Forall_app in Hw as [? _].
Defined.

Lemma pipeline_sync_barrier_witness : exists c0 w O1 s' O2, demo_reach c0 2 w /\ written w = O1 ++ s' :: O2 /\
  EventBuffer.sync (buf s') = EventBuffer.Sync_Full /\ key <$> O1 ≡ₚ key <$> take 2 (handed w).
Proof.
  destruct demo_observed as (c0 & w & Hg & Hr & Ho). injection Ho as Hd _ _ Hs.
  destruct (handed w) as [|b1 [|b2 [|s [|]]]] eqn:Hh; try done. injection Hs as _ _ Hs.
  destruct (pipeline_sync_barrier demo_flags (fun x => x) (fun _ => 0) LZWCompression.compress EncoderSpec.good
    (fun _ _ => Z.le_refl _) compress_good c0 2 w [b1; b2] s [] Hg eq_refl Hr Hd Hh) as (O1 & s' & O2 & Hw & Hk & Hp).
  { unfold compose in Hs. rewrite Hs. done. }
  exists c0, w, O1, s', O2. split_and!; [done|done| |by rewrite Hh]. injection Hk as _ Hk _. rewrite Hk. exact Hs.
Defined.

(** An encoder that copies. *)
Definition store_encode (c : unit) (src : list Z) (cap : Z) : option (unit * option (list Z)) :=
  Some (tt, if Z.of_nat (length src) <=? cap then Some src else None).

Lemma store_encode_good c src cap c' r :
  True -> Forall is_byte src -> src <> [] -> store_encode c src cap = Some (c', r) ->
  True /\ forall bytes, r = Some bytes -> Z.of_nat (length bytes) <= cap /\ Forall is_byte bytes.
Proof.
  intros _ Hb _ [= <- <-]. split; [done|]. intros bytes Hby.
  destruct (Z.leb_spec (Z.of_nat (length src)) cap); [|done]. by injection Hby as <-.
Qed.

Lemma store_run : exists w,
  reachable demo_flags (fun x => x) (fun _ => 0) store_encode (start demo_flags tt 2) w /\
  is_Some (threads w !! 1).
Proof.
  destruct (run demo_flags (fun x => x) (fun _ => 0) store_encode (start demo_flags tt 2) (take 7 demo_actions)) as [w|] eqn:E.
  - exists w. split; [eapply run_reachable; [constructor|exact E]|]. vm_compute in E. injection E as <-. by eexists.
  - vm_compute in E. discriminate E.
Qed.


(** *** More compression threads than cells

    [AllocationTracing::init] accepts any number of compression threads up to
    the number of processors. *)
Definition crowd : list action :=
  concat ((fun i => [Spawn (Z.of_nat i + 1); Fire (Z.of_nat i + 1) [7]; Flush (Z.of_nat i + 1) true; CompressorTake i]) <$> seq 0 10) ++
  [Spawn 11; Fire 11 [7]; Flush 11 true].

(** With eleven compression threads the array of the threads in process
    is overrun: there is a reachable state, eleven threads having handed over
    one small event each, in which the next compression thread stores past
    the ten cells. *)
Theorem in_process_overflow : exists c0 w, make 0 = Some c0 /\ demo_reach c0 11 w /\
  exec demo_flags (fun x => x) (fun _ => 0) LZWCompression.compress w (CompressorTake 10) = Wrong.
Proof.
  destruct (run_observed (fun w => match exec demo_flags (fun x => x) (fun _ => 0) LZWCompression.compress w (CompressorTake 10)
    with Wrong => true | _ => false end) 0 11 crowd true) as (c0 & w & Hm & _ & Hr & Hw); [by vm_compute|].
  exists c0, w. split_and!; [done|done|]. by destruct (exec _ _ _ _ w _).
Qed.

End PipelineTheorems.
