(* ===== verification/PipelineLiveness.v ===== *)
(** * The pipeline can always be emptied

    From every reachable state the worker and the compression threads, left to
    themselves, can write everything that is on its way: no deadlock between
    the bounded queues, the threads in process and synchronised buffers. *)

From stdpp Require Import gmap.
From S2P Require Import Prelude MapInterface EventBuffer EventBufferList EventBuffers Pipeline PipelineSpec PipelineTheorems.
From Stdlib Require Import ZArith Lia.

Module PipelineLiveness.
Import EventBuffers QueueSpec Pipeline PipelineSpec PipelineTheorems.

(** [returns r Q]: the call neither waits nor goes wrong. *)
Definition returns {A} (r : result A) (Q : A -> Prop) : Prop := match r with Done a => Q a | _ => False end.

Lemma returns_bind {A B} (r : result A) (f : A -> result B) Q :
  returns r (fun a => returns (f a) Q) -> returns (r ≫= f) Q.
Proof. by destruct r. Qed.

Lemma returns_weaken {A} (r : result A) (P Q : A -> Prop) : (forall a, P a -> Q a) -> returns r P -> returns r Q.
Proof. intros HPQ. destruct r; simpl; auto. Qed.

Lemma returns_of {A} (r : result A) Q : post False r Q -> r <> Blocks -> returns r Q.
Proof. by destruct r. Qed.

(** ** The queues *)

Section Queues.
Variable fl : flags.
Variable malloc_usable_size : Z -> Z.
Variable drawn_size : Z -> Z.
Hypothesis usable_ge : forall n, 0 <= n -> n <= malloc_usable_size n.

Lemma enqueue_free_returns w fq cq b :
  qrep w fq cq -> free b ->
  returns (enqueue_to_free_list w b) (fun w' => qrep w' fq cq /\ last_id w' = last_id w).
Proof.
  intros Hq Hb. apply returns_of; [by apply enqueue_free_post|]. destruct Hq as [_ _ (fr & Hr & Hf & _)].
  unfold enqueue_to_free_list. destruct (EventBufferList.accepts (free_list w) fr) eqn:Ha.
  - by destruct (EventBufferList.enqueue_spec blank (Some destroy_event_buffer) _ fr (last_id w) b Hr Hf Ha) as (q' & l' & -> & _).
  - by rewrite (EventBufferList.enqueue_full blank (Some destroy_event_buffer) _ fr (last_id w) b Hr Hf Ha).
Qed.

(** An empty queue has room. *)
Lemma enqueue_flush_returns w cq b :
  qrep w [] cq ->
  returns (enqueue_to_flush_queue w b) (fun w' => qrep w' [b] cq /\ last_id w' = last_id w).
Proof.
  intros Hq. apply returns_of; [by apply (enqueue_flush_post False w [] cq)|]. destruct Hq as [(Hr & Hf & _) _ _].
  unfold enqueue_to_flush_queue. assert (EventBufferList.accepts (flush_queue w) [] = true) as Ha.
  { unfold EventBufferList.accepts. destruct Hr as (Hc & _). by rewrite (proj2 (Z.ltb_lt _ _)). }
  by destruct (EventBufferList.enqueue_spec blank (Some report_flush_queue_overflow) _ [] (last_id w) b Hr Hf Ha) as (q' & l' & -> & _).
Qed.

Lemma enqueue_compression_returns w fq b :
  qrep w fq [] ->
  returns (enqueue_to_compression w b) (fun w' => qrep w' fq [b] /\ last_id w' = last_id w).
Proof.
  intros Hq. apply returns_of; [by apply (enqueue_compression_post False w fq [])|]. destruct Hq as [_ (Hr & Hf & _) _].
  unfold enqueue_to_compression. assert (EventBufferList.accepts (compression_queue w) [] = true) as Ha.
  { unfold EventBufferList.accepts. destruct Hr as (Hc & _). by rewrite (proj2 (Z.ltb_lt _ _)). }
  by destruct (EventBufferList.enqueue_spec blank None _ [] (last_id w) b Hr Hf Ha) as (q' & l' & -> & _).
Qed.

Lemma dequeue_flush_returns w b fq cq :
  qrep w (b :: fq) cq ->
  returns (dequeue_from_flush_queue w) (fun '(w', r) => r = Some b /\ qrep w' fq cq /\ last_id w' = last_id w).
Proof.
  intros Hq. eapply returns_weaken; [|apply returns_of; [by apply (dequeue_flush_post False w (b :: fq) cq)|]].
  { intros [w' r] (b' & fq' & [= <- <-] & H). done. }
  destruct Hq as [(Hr & Hf & _) _ _]. unfold dequeue_from_flush_queue.
  by destruct (EventBufferList.dequeue_spec None (flush_queue w) b fq (last_id w) Hr Hf) as (q' & -> & _).
Qed.

Lemma peek_compression_returns w fq b cq :
  qrep w fq (b :: cq) -> peek_from_compression w = Done (w, Some b).
Proof.
  intros [_ (Hr & Hf & _) _]. unfold peek_from_compression.
  rewrite (EventBufferList.peek_spec None (compression_queue w) b cq (last_id w) Hr Hf). by destruct w.
Qed.

Lemma dequeue_compression_returns w fq b cq :
  qrep w fq (b :: cq) ->
  returns (dequeue_from_compression w) (fun '(w', r) => r = Some b /\ qrep w' fq cq /\ last_id w' = last_id w).
Proof.
  intros Hq. eapply returns_weaken; [|apply returns_of; [by apply (dequeue_compression_post False w fq (b :: cq))|]].
  { intros [w' r] (b' & fq' & [= <- <-] & H). done. }
  destruct Hq as [_ (Hr & Hf & _) _]. unfold dequeue_from_compression.
  by destruct (EventBufferList.dequeue_spec None (compression_queue w) b cq (last_id w) Hr Hf) as (q' & -> & _).
Qed.

Lemma dequeue_free_returns w fq cq :
  qrep w fq cq -> 0 <= last_id w < 2 ^ 31 - 1 ->
  returns (dequeue_from_free_list fl malloc_usable_size drawn_size w) (fun '(w', r) =>
    exists b, r = Some b /\ free b /\ qrep w' fq cq /\ last_id w <= last_id w' <= last_id w + 1).
Proof.
  intros Hq Hid. apply returns_of; [by apply dequeue_free_post|]. destruct Hq as [_ _ (fr & Hr & Hf & _)].
  unfold dequeue_from_free_list. destruct fr as [|b fr].
  - destruct (EventBufferList.empty_spec (Some (create_event_buffer fl malloc_usable_size drawn_size)) (free_list w) (last_id w) Hr Hf) as [_ ->].
    unfold create_event_buffer. by destruct (create _ _ _ _).
  - by destruct (EventBufferList.dequeue_spec (Some (create_event_buffer fl malloc_usable_size drawn_size)) (free_list w) b fr (last_id w) Hr Hf)
      as (q' & -> & _).
Qed.

End Queues.

(** ** Progress *)

(** The actions of the worker and of the compression threads. *)
Definition internal (a : action) : bool :=
  match a with WorkerTake | WorkerWrite | CompressorTake _ | CompressorProcess _ _ | CompressorRelease _ => true | _ => false end.

Section Progress.
Variable fl : flags.
Variable malloc_usable_size : Z -> Z.
Variable drawn_size : Z -> Z.
Context {C : Type}.
Variable encode : C -> list Z -> Z -> option (C * option (list Z)).
Variable Good : C -> Prop.
Hypothesis usable_ge : forall n, 0 <= n -> n <= malloc_usable_size n.
Hypothesis encode_good : forall c src cap c' r,
  Good c -> Forall is_byte src -> src <> [] -> encode c src cap = Some (c', r) ->
  Good c' /\ forall bytes, r = Some bytes -> Z.of_nat (length bytes) <= cap /\ Forall is_byte bytes.
(** The encoder always returns. *)
Hypothesis encode_total : forall c src cap, Good c -> Forall is_byte src -> src <> [] -> is_Some (encode c src cap).

Abbreviation inv := (PipelineSpec.inv fl encode True Good (fun _ => True)).

(** The steps that are left: a buffer is taken, processed, taken by the
    worker and written, and its owner released. *)
Definition rank (w : world (C := C)) : Z :=
  6 * EventBufferList.get_length (compression_queue (qs w)) + 4 * Z.of_nat (length (works (compressors w))) +
  Z.of_nat (length (busy (compressors w))) + 2 * EventBufferList.get_length (flush_queue (qs w)) +
  Z.of_nat (length (option_list (hand w))).

(** The numbers used, and those that may still be: each buffer not yet
    compressed may need one more. *)
Definition credit (w : world (C := C)) : Z :=
  last_id (qs w) + EventBufferList.get_length (compression_queue (qs w)) + Z.of_nat (length (works (compressors w))).

Definition progress (w w' : world (C := C)) : Prop :=
  0 <= rank w' < rank w /\ last_id (qs w) <= last_id (qs w') <= credit w' /\ credit w' <= credit w /\
  length (compressors w') = length (compressors w) /\ threads w' = threads w /\ fired w' = fired w.

Lemma queue_lengths q fq cq :
  qrep q fq cq -> EventBufferList.get_length (flush_queue q) = Z.of_nat (length fq) /\
    EventBufferList.get_length (compression_queue q) = Z.of_nat (length cq).
Proof. intros [[Hf _] [Hc _] _]. split; by apply EventBufferList.get_length_spec. Qed.

(** [progress] in terms of the elements of the queues. *)
Lemma progress_intro w w' fq cq fq' cq' :
  qrep (qs w) fq cq -> qrep (qs w') fq' cq' ->
  6 * Z.of_nat (length cq') + 4 * Z.of_nat (length (works (compressors w'))) + Z.of_nat (length (busy (compressors w'))) +
    2 * Z.of_nat (length fq') + Z.of_nat (length (option_list (hand w'))) <
  6 * Z.of_nat (length cq) + 4 * Z.of_nat (length (works (compressors w))) + Z.of_nat (length (busy (compressors w))) +
    2 * Z.of_nat (length fq) + Z.of_nat (length (option_list (hand w))) ->
  last_id (qs w) <= last_id (qs w') ->
  last_id (qs w') + Z.of_nat (length cq') + Z.of_nat (length (works (compressors w'))) <=
    last_id (qs w) + Z.of_nat (length cq) + Z.of_nat (length (works (compressors w))) ->
  length (compressors w') = length (compressors w) -> threads w' = threads w -> fired w' = fired w -> progress w w'.
Proof.
  intros [H1 H2]%queue_lengths [H3 H4]%queue_lengths Hr Hi Hc Hl Ht Hf. unfold progress, rank, credit. rewrite H1, H2, H3, H4.
  split_and!; try done; lia.
Qed.

Lemma worker_write_progress w fq cq b :
  inv w fq cq -> hand w = Some b -> returns (worker_write w) (progress w).
Proof.
  intros J Hh. pose proof (inv_out _ _ _ _ _ _ _ _ J) as Ho. unfold out in Ho. rewrite Hh in Ho.
  apply Forall_app in Ho as [_ [Hb _]%Forall_cons]. pose proof (inv_queues _ _ _ _ _ _ _ _ J) as Hq.
  unfold worker_write. rewrite Hh. apply returns_bind.
  eapply returns_weaken; [|by apply enqueue_free_returns, usable_reset]. intros q [Hq' Hid].
  eapply (progress_intro w _ fq cq fq cq); try done; cbn [qs compressors hand option_list length]; rewrite ?Hh; cbv [option_list option_rect]; cbn [length]; lia.
Qed.

Lemma worker_take_progress w fq cq b :
  inv w (b :: fq) cq -> hand w = None -> returns (worker_take w) (progress w).
Proof.
  intros J Hh. pose proof (inv_queues _ _ _ _ _ _ _ _ J) as Hq. unfold worker_take. rewrite Hh. apply returns_bind.
  eapply returns_weaken; [|by apply (dequeue_flush_returns _ b fq cq)]. intros [q r] (-> & Hq' & Hid).
  eapply (progress_intro w _ (b :: fq) cq fq cq); try done; cbn [qs compressors hand option_list length]; rewrite ?Hh; cbv [option_list option_rect]; cbn [length]; lia.
Qed.

Lemma release_progress w fq cq i c o :
  inv w fq cq -> compressors w !! i = Some (c, Processed o) -> progress w (compressor_release w i).
Proof.
  intros J Hi. pose proof (inv_queues _ _ _ _ _ _ _ _ J) as Hq. unfold compressor_release. rewrite Hi.
  eapply (progress_intro w _ fq cq fq cq); try done; cbn [qs compressors hand];
    rewrite ?(works_insert _ _ _ _ Hi), ?(busy_insert _ _ _ _ Hi), ?(works_split _ _ _ Hi), ?(busy_split _ _ _ Hi), ?length_app, ?length_insert; simpl; lia.
Qed.

(** A buffer that was worked on moves on. *)
Lemma moved_progress w cq i c b c' b' q :
  qrep (qs w) [] cq -> compressors w !! i = Some (c, Work b) -> qrep q [b'] cq ->
  last_id (qs w) <= last_id q <= last_id (qs w) + 1 ->
  progress w (set_compressor (set_qs w q) i c' (Processed (EventBuffer.owner (buf b)))).
Proof.
  intros Hq Hi Hq' Hid.
  eapply (progress_intro w _ [] cq [b'] cq); try done; unfold set_compressor, set_qs; cbn [qs compressors hand length];
    rewrite ?(works_insert _ _ _ _ Hi), ?(busy_insert _ _ _ _ Hi), ?(works_split _ _ _ Hi), ?(busy_split _ _ _ Hi), ?length_app, ?length_insert; simpl; lia.
Qed.

Lemma process_progress w cq i c b :
  inv w [] cq -> compressors w !! i = Some (c, Work b) ->
  returns (compressor_process fl malloc_usable_size drawn_size encode w i false) (progress w).
Proof.
  intros J Hi. destruct (work_spec fl encode True True Good (or_introl I) _ _ _ _ _ _ _ J Hi) as ((Hus & _ & _ & Hlen) & Hg & _).
  pose proof (inv_queues _ _ _ _ _ _ _ _ J) as Hq. pose proof (inv_numbered _ _ _ _ _ _ _ _ J) as Hn.
  assert (Forall is_byte (EventBuffer.contents (buf b))) as Hby by (destruct Hus as ((_ & _ & _ & ?) & _); by apply Forall_take).
  assert (EventBuffer.contents (buf b) <> []) as Hne.
  { intros E. pose proof (EventBuffer.contents_length (buf b) (proj1 Hus)) as Hl. rewrite E in Hl. simpl in Hl.
    unfold EventBuffer.get_length in Hlen. rewrite <- Hl in Hlen. by apply (Z.lt_irrefl 0). }
  unfold compressor_process. rewrite Hi, (proj2 (Z.eqb_neq _ _)) by lia. rewrite andb_false_r, orb_false_r.
  destruct (TraceObjectsCompressTrace fl).
  - apply returns_bind. eapply returns_weaken; [|by apply (dequeue_free_returns fl malloc_usable_size drawn_size usable_ge _ _ _ Hq)].
    intros [q r] (d & -> & Hd & Hq1 & Hid).
    destruct (encode_total c _ (EventBuffer.get_capacity (buf d) * 4) Hg Hby Hne) as [[c' [bytes|]] ->].
    + apply returns_bind. eapply returns_weaken; [|by apply enqueue_flush_returns]. intros q2 [Hq2 Hid2]. apply returns_bind.
      eapply returns_weaken; [|by apply enqueue_free_returns, usable_reset]. intros q3 [Hq3 Hid3]. eapply moved_progress; [done|done|done|lia].
    + apply returns_bind. eapply returns_weaken; [|by apply enqueue_flush_returns]. intros q2 [Hq2 Hid2]. apply returns_bind.
      eapply returns_weaken; [|by apply enqueue_free_returns, usable_reset, Hd]. intros q3 [Hq3 Hid3]. eapply moved_progress; [done|done|done|lia].
  - apply returns_bind. eapply returns_weaken; [|by apply enqueue_flush_returns]. intros q2 [Hq2 Hid2]. eapply moved_progress; [done|done|done|lia].
Qed.

(** With every compression thread idle, the first one takes a buffer. *)
Lemma take_progress w b cq c l :
  inv w [] (b :: cq) -> compressors w = (c, Idle) :: l -> forallb (fun cp => is_Idle cp.2) l = true ->
  returns (compressor_take w 0) (progress w).
Proof.
  intros J Hc Hidle. pose proof (inv_queues _ _ _ _ _ _ _ _ J) as Hq. destruct (idle_works l Hidle) as [Hw Hb].
  assert (works (compressors w) = [] /\ busy (compressors w) = []) as [Hw0 Hb0] by (by rewrite Hc).
  unfold compressor_take. rewrite Hc. cbn [lookup list_lookup]. rewrite (peek_compression_returns _ _ _ _ Hq). cbn [mbind result_bind].
  destruct (negb _).
  - unfold others_idle. rewrite Hc. cbn [Nat.eqb take drop forallb andb]. rewrite drop_0, Hidle. apply returns_bind.
    eapply returns_weaken; [|by eapply dequeue_compression_returns]. intros [q r] (-> & Hq1 & Hid). apply returns_bind.
    eapply returns_weaken; [|by apply enqueue_flush_returns]. intros q2 [Hq2 Hid2].
    eapply (progress_intro w _ [] (b :: cq) [b] cq); try done; cbn [set_qs qs compressors hand length]; lia.
  - pose proof (inv_busy _ _ _ _ _ _ _ _ J) as Hp. rewrite Hb0 in Hp. apply Permutation_nil_r in Hp. rewrite Hp.
    change (add_thread_in_process [] _) with (Done ([EventBuffer.owner (buf b)], true)). cbn [mbind result_bind].
    apply returns_bind. eapply returns_weaken; [|by eapply dequeue_compression_returns]. intros [q r] (-> & Hq1 & Hid).
    eapply (progress_intro w _ [] (b :: cq) [] cq); try done; cbn [qs compressors hand length]; rewrite ?Hw0, ?Hb0, ?Hc;
      change (<[0%nat := (c, Work b)]> ((c, Idle) :: l)) with ((c, Work b) :: l); unfold works, busy in *; cbn [fmap list_fmap concat work1 busy1 snd app length];
      rewrite ?Hw, ?Hb; cbn [length]; lia.
Qed.

Lemma phases (l : list (C * phase)) :
  (exists i c o, l !! i = Some (c, Processed o)) \/ (exists i c b, l !! i = Some (c, Work b)) \/
  forallb (fun cp => is_Idle cp.2) l = true.
Proof.
  induction l as [|[c p] l IH]; [by right; right|]. destruct p as [|b|o].
  - destruct IH as [(i & H)|[(i & H)|H]]; [left; by exists (S i)|right; left; by exists (S i)|by right; right].
  - right. left. by exists 0%nat, c, b.
  - left. by exists 0%nat, c, o.
Qed.

(** As long as something is on its way, some action makes progress. *)
Lemma progress_exists w fq cq :
  inv w fq cq -> (async_compress fl = true -> compressors w <> []) -> drained w = false ->
  exists a, internal a = true /\ returns (exec fl malloc_usable_size drawn_size encode w a) (progress w).
Proof.
  intros J Hne Hd. destruct (hand w) as [b|] eqn:Hh; [exists WorkerWrite; split; [done|by eapply worker_write_progress]|].
  destruct fq as [|b fq]; [|exists WorkerTake; split; [done|by eapply worker_take_progress]].
  destruct (phases (compressors w)) as [(i & c & o & Hi)|[(i & c & b & Hi)|Hidle]].
  - exists (CompressorRelease i). split; [done|]. by eapply release_progress.
  - exists (CompressorProcess i false). split; [done|]. by eapply process_progress.
  - destruct cq as [|b cq].
    + destruct (idle_works _ Hidle) as [Hw _]. pose proof (inv_queues _ _ _ _ _ _ _ _ J) as [[Hf _] [Hc _] _].
      unfold drained in Hd. by rewrite Hh, Hw, (EventBufferList.is_empty_spec _ _ Hf), (EventBufferList.is_empty_spec _ _ Hc) in Hd.
    + destruct (async_compress fl) eqn:Ha; [|by destruct (inv_plain_mode _ _ _ _ _ _ _ _ J Ha)]. specialize (Hne eq_refl).
      destruct (compressors w) as [|[c p] l] eqn:Hc; [done|]. apply andb_prop in Hidle as [Hp Hl]. destruct p; try done.
      exists (CompressorTake 0). split; [done|]. by eapply take_progress.
Qed.

Lemma drain_exists k w fq cq :
  (Z.to_nat (rank w) < k)%nat -> inv w fq cq -> (async_compress fl = true -> compressors w <> []) -> credit w < 2 ^ 31 - 1 ->
  exists l w' fq' cq', Forall (fun a => internal a = true) l /\ run fl malloc_usable_size drawn_size encode w l = Some w' /\
    drained w' = true /\ threads w' = threads w /\ fired w' = fired w /\ inv w' fq' cq' /\
    length (compressors w') = length (compressors w) /\ credit w' <= credit w.
Proof.
  revert w fq cq. induction k as [|k IH]; intros w fq cq Hk J Hne Hcr; [lia|].
  destruct (drained w) eqn:Hd; [exists [], w, fq, cq; split_and!; try done; lia|].
  destruct (progress_exists w fq cq J Hne Hd) as (a & Ha & Hex).
  destruct (exec fl malloc_usable_size drawn_size encode w a) as [w1| |] eqn:E; [|done|done].
  destruct Hex as (Hrk & Hid & Hcr1 & Hlen & Hth & Hfi). pose proof (inv_numbered _ _ _ _ _ _ _ _ J) as Hn. unfold numbered in Hn.
  pose proof (exec_inv fl malloc_usable_size drawn_size encode True True (fun x => x) usable_ge Good encode_good (or_introl I)
    (fun _ => True) I w a fq cq J (any_whole a) (or_introl I)) as Hp.
  rewrite E in Hp. destruct Hp as (fq1 & cq1 & J1); [unfold numbered; lia|].
  destruct (IH w1 fq1 cq1) as (l & w' & fq' & cq' & Hl & Hrun & Hd' & Hth' & Hfi' & J' & Hlen' & Hcr'); [lia|done| |lia|].
  { intros Ha1 E1. specialize (Hne Ha1). rewrite E1 in Hlen. by destruct (compressors w). }
  exists (a :: l), w', fq', cq'. split_and!; [by constructor| |done|congruence|congruence|done|congruence|lia].
  cbn [run]. rewrite E. unfold numbered_b. rewrite (proj2 (Z.leb_le _ _)), (proj2 (Z.ltb_lt _ _)) by lia. done.
Qed.

(** Compression threads are never lost. *)
Lemma flush_thread_compressors (w : world (C := C)) t get_new w' :
  flush_thread fl malloc_usable_size drawn_size w t get_new = Done w' -> compressors w' = compressors w.
Proof. unfold flush_thread. intros H. by results. Qed.

Lemma store_event_compressors (w : world (C := C)) t ws w' : store_event w t ws = Some w' -> compressors w' = compressors w.
Proof.
  unfold store_event. destruct (threads w !! t); [|done]. cbn [mbind option_bind].
  destruct (EventBuffer.append _ _); [|done]. cbn [mbind option_bind]. by intros [= <-].
Qed.

Lemma exec_compressors w a w' :
  exec fl malloc_usable_size drawn_size encode w a = Done w' -> length (compressors w') = length (compressors w).
Proof.
  destruct a; cbn [exec]; intros H.
  - injection H as <-. unfold spawn. by case_match.
  - unfold exit_thread in H. results. cbn [compressors]. f_equal. by eapply flush_thread_compressors.
  - unfold fire in H. destruct (store_event w t ws) eqn:E; results; [f_equal; by eapply store_event_compressors|].
    f_equal. etrans; [by eapply store_event_compressors|by eapply flush_thread_compressors].
  - f_equal. by eapply flush_thread_compressors.
  - by injection H as <-.
  - unfold worker_take in H. by results.
  - unfold worker_write in H. by results.
  - unfold compressor_take in H. results; try done. cbn [compressors]. apply length_insert.
  - unfold compressor_process in H. results; try done; apply length_insert.
  - injection H as <-. unfold compressor_release. repeat case_match; try done. apply length_insert.
Qed.

Lemma reachable_compressors c0 n w :
  reachable fl malloc_usable_size drawn_size encode (start fl c0 n) w -> length (compressors w) = n.
Proof.
  induction 1 as [|w a w' _ IH E _]; [apply length_replicate|]. by rewrite (exec_compressors w a w' E).
Qed.

(** What is not yet compressed was handed over. *)
Lemma credit_handed w fq cq : inv w fq cq -> credit w <= last_id (qs w) + Z.of_nat (length (handed w)).
Proof.
  intros J. pose proof (queue_lengths _ _ _ (inv_queues _ _ _ _ _ _ _ _ J)) as [_ Hc]. unfold credit. rewrite Hc.
  assert (length cq + length (works (compressors w)) <= length (handed w))%nat; [|lia].
  destruct (async_compress fl) eqn:Ha.
  - destruct (inv_barrier _ _ _ _ _ _ _ _ J Ha) as (P & -> & Hp & _). apply Permutation_length in Hp.
    rewrite !length_fmap, length_app in Hp. rewrite length_app. lia.
  - destruct (inv_plain_mode _ _ _ _ _ _ _ _ J Ha) as [-> ->]. simpl. lia.
Qed.


End Progress.


End PipelineLiveness.
