(* ===== verification/EventPointerList.v ===== *)
(** * Lists of the pointers of one event
      ([prims/EventPointerList.hpp], [prims/EventRootPointerList.hpp])

    The pointers of one object, at most twelve with two bits of kind each, and
    the roots of one event, at most three. *)

From S2P Require Import Prelude.
From Stdlib Require Import ZArith Lia.

Module EventPointerList.

Definition MAX_CAPACITY : Z := 12.
Definition END : Z := 0.
Definition RELATIVE_PTR : Z := 1.
Definition ABSOLUTE_PTR : Z := 2.
Definition NULL_PTR : Z := 3.

(** [list] has [capacity] cells. *)
Record ptr_list := PtrList {
  capacity : Z;
  list : list Z;
  ptr_kinds : Z;
  top : Z;
  relative_ptrs : Z;
  absolute_ptrs : Z;
  null_ptrs : Z;
}.

Definition make : ptr_list := PtrList 2 [0; 0] 0 0 0 0 0.

(** The pointer and the kind it is stored with. *)
Definition get_next (l : ptr_list) (i : Z) : option (Z * Z) :=
  p ← list l !! Z.to_nat i;
  Some (s64 p, u8 ((ptr_kinds l ≫ ((MAX_CAPACITY - 1 - i) * 2)) .& 3)).

(** [realloc] leaves the new cells undefined; here they are [0]. *)
Definition resize (l : ptr_list) : ptr_list :=
  let new_capacity := if MAX_CAPACITY <? capacity l * 2 then MAX_CAPACITY else capacity l * 2 in
  if negb (new_capacity =? capacity l) then
    PtrList new_capacity (list l ++ replicate (Z.to_nat (new_capacity - capacity l)) 0) (ptr_kinds l) (top l)
      (relative_ptrs l) (absolute_ptrs l) (null_ptrs l)
  else l.

(** [list[top] = p]; [None] is a store outside of the list. *)
Definition store (l : ptr_list) (p : Z) : option (Datatypes.list Z) :=
  if (0 <=? top l) && (top l <? capacity l) then Some (<[Z.to_nat (top l) := p]> (list l)) else None.

Definition add (l : ptr_list) (p kind : Z) : option ptr_list :=
  let l := if top l =? capacity l then resize l else l in
  let kinds := u32 ((ptr_kinds l ≪ 2) .| kind) in
  if kind =? NULL_PTR then
    Some (PtrList (capacity l) (list l) kinds (u8 (top l + 1)) (relative_ptrs l) (absolute_ptrs l) (u8 (null_ptrs l + 1)))
  else if kind =? RELATIVE_PTR then
    li ← store l p;
    Some (PtrList (capacity l) li kinds (u8 (top l + 1)) (u8 (relative_ptrs l + 1)) (absolute_ptrs l) (null_ptrs l))
  else if kind =? ABSOLUTE_PTR then
    li ← store l p;
    Some (PtrList (capacity l) li kinds (u8 (top l + 1)) (relative_ptrs l) (u8 (absolute_ptrs l + 1)) (null_ptrs l))
  else Some (PtrList (capacity l) (list l) kinds (u8 (top l + 1)) (relative_ptrs l) (absolute_ptrs l) (null_ptrs l)).

Definition get_size (l : ptr_list) : Z := top l.

Definition get_words (l : ptr_list) : Z := u8 (relative_ptrs l + 2 * absolute_ptrs l).

(** Left-aligns the kinds in place and returns them. *)
Definition get_kinds (l : ptr_list) : ptr_list * Z :=
  let kinds := if negb (top l =? 0) && negb (top l =? MAX_CAPACITY)
    then u32 (ptr_kinds l ≪ ((MAX_CAPACITY - top l) * 2)) else ptr_kinds l in
  (PtrList (capacity l) (list l) kinds (top l) (relative_ptrs l) (absolute_ptrs l) (null_ptrs l), kinds).

Definition clear (l : ptr_list) : ptr_list := PtrList (capacity l) (list l) 0 0 0 0 0.

End EventPointerList.

Module EventRootPointerList.

Definition MAX_ROOTS_CAPACITY : Z := 3.

Inductive RootType :=
| CLASS_LOADER_ROOT | CLASS_ROOT | STATIC_FIELD_ROOT | LOCAL_VARIABLE_ROOT | VM_INTERNAL_THREAD_DATA_ROOT
| CODE_BLOB_ROOT | JNI_LOCAL_ROOT | JNI_GLOBAL_ROOT
| CLASS_LOADER_INTERNAL_ROOT | UNIVERSE_ROOT | SYSTEM_DICTIONARY_ROOT | BUSY_MONITOR_ROOT | INTERNED_STRING_ROOT
| FLAT_PROFILER_ROOT | MANAGEMENT_ROOT | JVMTI_ROOT | DEBUG_ROOT.

#[export] Instance RootType_eq_dec : EqDecision RootType.
Proof. solve_decision. Defined.

Definition root_code (t : RootType) : Z :=
  match t with
  | CLASS_LOADER_ROOT => 0 | CLASS_ROOT => 1 | STATIC_FIELD_ROOT => 2 | LOCAL_VARIABLE_ROOT => 3
  | VM_INTERNAL_THREAD_DATA_ROOT => 4 | CODE_BLOB_ROOT => 5 | JNI_LOCAL_ROOT => 6 | JNI_GLOBAL_ROOT => 7
  | CLASS_LOADER_INTERNAL_ROOT => 8 | UNIVERSE_ROOT => 9 | SYSTEM_DICTIONARY_ROOT => 10 | BUSY_MONITOR_ROOT => 11
  | INTERNED_STRING_ROOT => 12 | FLAT_PROFILER_ROOT => 13 | MANAGEMENT_ROOT => 14 | JVMTI_ROOT => 15 | DEBUG_ROOT => 16
  end.

(** A C string is the list of its bytes before the terminating zero. *)
Record RootInfo := Info {
  type : RootType;
  first_double_word : Z;
  second_double_word : Z;
  last_word : Z;
  string : list Z;
}.

(** Two [int]s as one [int64_t]. *)
Definition pair_words (low high : Z) : Z := s64 (high ≪ 32) .| (low .& 4294967295).

Definition info_class (class_id : Z) : RootInfo := Info CLASS_ROOT (-1) (-1) class_id [].
Definition info_pair (class_id offset_or_method_id : Z) (t : RootType) : RootInfo :=
  Info t (pair_words class_id offset_or_method_id) (-1) (-1) [].
Definition info_thread (thread_id : Z) (t : RootType) : RootInfo := Info t thread_id (-1) (-1) [].
Definition info_local (thread_id class_id method_id slot : Z) : RootInfo :=
  Info LOCAL_VARIABLE_ROOT thread_id (pair_words class_id method_id) slot [].
Definition info_weak (is_weak : bool) : RootInfo := Info JNI_GLOBAL_ROOT (-1) (-1) (if is_weak then 1 else 0) [].
Definition info_type (t : RootType) : RootInfo := Info t (-1) (-1) (-1) [].
Definition info_string (t : RootType) (s : list Z) : RootInfo := Info t (-1) (-1) (-1) s.

(** [addr_list] and [info_list] up to [top]. *)
Record root_list := RootList { roots : list (Z * RootInfo); words : Z }.

Definition make : root_list := RootList [] 0.
Definition get_size (l : root_list) : Z := Z.of_nat (length (roots l)).
Definition get_words (l : root_list) : Z := words l.
Definition is_full (l : root_list) : bool := get_size l =? MAX_ROOTS_CAPACITY.
Definition clear (l : root_list) : root_list := RootList [] 0.

Definition string_words (s : list Z) : Z :=
  if Z.of_nat (length s) mod 4 =? 0 then Z.of_nat (length s) / 4 else Z.of_nat (length s) / 4 + 1.

(** The roots a caller can add, and the words each takes. *)
Inductive root :=
| add_class_loader (loader_name : list Z)
| add_class (class_id : Z)
| add_static_field (class_id offset : Z)
| add_local_variable (thread_id class_id method_id slot : Z)
| add_vm_internal_thread_data (thread_id : Z)
| add_code_blob (class_id method_id : Z)
| add_jni_local (thread_id : Z)
| add_jni_global (is_weak : bool)
| add_other (root_type : RootType)
| add_debug (vm_call : list Z).

Definition info_of (r : root) : RootInfo :=
  match r with
  | add_class_loader s => info_string CLASS_LOADER_ROOT s
  | add_class c => info_class c
  | add_static_field c o => info_pair c o STATIC_FIELD_ROOT
  | add_local_variable t c m s => info_local t c m s
  | add_vm_internal_thread_data t => info_thread t VM_INTERNAL_THREAD_DATA_ROOT
  | add_code_blob c m => info_pair c m CODE_BLOB_ROOT
  | add_jni_local t => info_thread t JNI_LOCAL_ROOT
  | add_jni_global w => info_weak w
  | add_other t => info_type t
  | add_debug s => info_string DEBUG_ROOT s
  end.

Definition words_of (r : root) : Z :=
  match r with
  | add_class_loader s => 2 + 1 + 1 + string_words s
  | add_class _ => 2 + (1 + 1)
  | add_static_field _ _ => 2 + (1 + 1 + 1)
  | add_local_variable _ _ _ _ => 2 + (1 + 2 + 1 + 1 + 1)
  | add_vm_internal_thread_data _ => 2 + (1 + 2)
  | add_code_blob _ _ => 2 + (1 + 1 + 1)
  | add_jni_local _ => 2 + (1 + 2)
  | add_jni_global _ => 2 + (1 + 1)
  | add_other _ => 2 + 1
  | add_debug s => 2 + 1 + 1 + string_words s
  end.

(** [add_*]: a full list is fired first; the second component is the list fired. *)
Definition add (l : root_list) (p : Z) (r : root) : root_list * option root_list :=
  let '(l, out) := if MAX_ROOTS_CAPACITY <=? get_size l then (clear l, Some l) else (l, None) in
  (RootList (roots l ++ [(p, info_of r)]) (words l + words_of r), out).

Definition flush (l : root_list) : root_list * option root_list :=
  if negb (get_size l =? 0) then (clear l, Some l) else (l, None).

End EventRootPointerList.
