(* ===== verification/EventsRuntime.v ===== *)
(** * The events of the trace ([prims/EventsRuntime.hpp], [prims/EventsRuntime.cpp])

    Every [fire_*] function of [EventsRuntime], as the words it reserves and
    the words it stores.  The words of an event are [jint]s. *)

From S2P Require Import Prelude EventPointerList.
From Stdlib Require Import ZArith Lia.

(** ** Event types *)

Module EventType.

Definition EVENTS_NOP : Z := 0.
Definition EVENTS_MARK : Z := 1.
Definition EVENTS_GC_START : Z := 2.
Definition EVENTS_GC_END : Z := 3.
Definition EVENTS_GC_INFO : Z := 4.
Definition EVENTS_GC_FAILED : Z := 5.
Definition EVENTS_SPACE_CREATE : Z := 6.
Definition EVENTS_SPACE_ALLOC : Z := 7.
Definition EVENTS_SPACE_RELEASE : Z := 8.
Definition EVENTS_SPACE_REDEFINE : Z := 9.
Definition EVENTS_SPACE_DESTROY : Z := 10.
Definition EVENTS_THREAD_ALIVE : Z := 11.
Definition EVENTS_THREAD_DEATH : Z := 12.
Definition EVENTS_TLAB_ALLOC : Z := 13.
Definition EVENTS_PLAB_ALLOC : Z := 14.
Definition EVENTS_ALLOC_SLOW : Z := 15.
Definition EVENTS_IR_ALLOC_SLOW : Z := 16.
Definition EVENTS_IR_ALLOC_SLOW_DEVIANT_TYPE : Z := 17.
Definition EVENTS_IR_ALLOC_NORMAL : Z := 18.
Definition EVENTS_IR_ALLOC_FAST : Z := 19.
Definition EVENTS_C1_ALLOC_SLOW : Z := 20.
Definition EVENTS_C1_ALLOC_SLOW_DEVIANT_TYPE : Z := 21.
Definition EVENTS_C1_ALLOC_NORMAL : Z := 22.
Definition EVENTS_C1_ALLOC_FAST : Z := 23.
Definition EVENTS_C1_ALLOC_FAST_DEVIANT_TYPE : Z := 24.
Definition EVENTS_C2_ALLOC_SLOW : Z := 25.
Definition EVENTS_C2_ALLOC_SLOW_DEVIANT_TYPE : Z := 26.
Definition EVENTS_C2_ALLOC_NORMAL : Z := 27.
Definition EVENTS_C2_ALLOC_FAST : Z := 28.
Definition EVENTS_C2_ALLOC_FAST_DEVIANT_TYPE : Z := 29.
Definition EVENTS_GC_MOVE_SLOW : Z := 30.
Definition EVENTS_GC_MOVE_FAST_WIDE : Z := 31.
Definition EVENTS_GC_MOVE_FAST : Z := 32.
Definition EVENTS_GC_MOVE_FAST_NARROW : Z := 33.
Definition EVENTS_GC_MOVE_REGION : Z := 34.
Definition EVENTS_GC_KEEP_ALIVE : Z := 35.
Definition EVENTS_SYNC_OBJ : Z := 36.
Definition EVENTS_SYNC_OBJ_NARROW : Z := 37.
Definition EVENTS_DEALLOCATION : Z := 38.
Definition EVENTS_GC_MOVE_SLOW_PTR : Z := 39.
Definition EVENTS_GC_MOVE_FAST_WIDE_PTR : Z := 40.
Definition EVENTS_GC_MOVE_FAST_PTR : Z := 41.
Definition EVENTS_GC_KEEP_ALIVE_PTR : Z := 42.
Definition EVENTS_GC_PTR_EXTENSION : Z := 43.
Definition EVENTS_GC_PTR_MULTITHREADED : Z := 44.
Definition EVENTS_GC_ROOT_PTR : Z := 45.
Definition EVENTS_GC_UPDATE_PTR_PREMOVE : Z := 46.
Definition EVENTS_GC_INTERRUPT : Z := 47.
Definition EVENTS_GC_CONTINUE : Z := 48.
Definition EVENTS_GC_UPDATE_PTR_POSTMOVE : Z := 49.
Definition EVENTS_TAG : Z := 50.

Definition EVENT_COUNT : Z := 50 + 1.

(** All event types, in the order of their definition. *)
Definition codes : list Z :=
  [EVENTS_NOP; EVENTS_MARK; EVENTS_GC_START; EVENTS_GC_END; EVENTS_GC_INFO; EVENTS_GC_FAILED; EVENTS_SPACE_CREATE;
   EVENTS_SPACE_ALLOC; EVENTS_SPACE_RELEASE; EVENTS_SPACE_REDEFINE; EVENTS_SPACE_DESTROY; EVENTS_THREAD_ALIVE;
   EVENTS_THREAD_DEATH; EVENTS_TLAB_ALLOC; EVENTS_PLAB_ALLOC; EVENTS_ALLOC_SLOW; EVENTS_IR_ALLOC_SLOW;
   EVENTS_IR_ALLOC_SLOW_DEVIANT_TYPE; EVENTS_IR_ALLOC_NORMAL; EVENTS_IR_ALLOC_FAST; EVENTS_C1_ALLOC_SLOW;
   EVENTS_C1_ALLOC_SLOW_DEVIANT_TYPE; EVENTS_C1_ALLOC_NORMAL; EVENTS_C1_ALLOC_FAST;
   EVENTS_C1_ALLOC_FAST_DEVIANT_TYPE; EVENTS_C2_ALLOC_SLOW; EVENTS_C2_ALLOC_SLOW_DEVIANT_TYPE;
   EVENTS_C2_ALLOC_NORMAL; EVENTS_C2_ALLOC_FAST; EVENTS_C2_ALLOC_FAST_DEVIANT_TYPE; EVENTS_GC_MOVE_SLOW;
   EVENTS_GC_MOVE_FAST_WIDE; EVENTS_GC_MOVE_FAST; EVENTS_GC_MOVE_FAST_NARROW; EVENTS_GC_MOVE_REGION;
   EVENTS_GC_KEEP_ALIVE; EVENTS_SYNC_OBJ; EVENTS_SYNC_OBJ_NARROW; EVENTS_DEALLOCATION; EVENTS_GC_MOVE_SLOW_PTR;
   EVENTS_GC_MOVE_FAST_WIDE_PTR; EVENTS_GC_MOVE_FAST_PTR; EVENTS_GC_KEEP_ALIVE_PTR; EVENTS_GC_PTR_EXTENSION;
   EVENTS_GC_PTR_MULTITHREADED; EVENTS_GC_ROOT_PTR; EVENTS_GC_UPDATE_PTR_PREMOVE; EVENTS_GC_INTERRUPT;
   EVENTS_GC_CONTINUE; EVENTS_GC_UPDATE_PTR_POSTMOVE; EVENTS_TAG].

(** They are numbered one after the other and fit into the six bits of the
    type of an event. *)
Lemma codes_numbered : codes = seqZ 0 EVENT_COUNT /\ EVENT_COUNT <= 2 ^ 6.
Proof. by split; vm_compute. Qed.

End EventType.

Module EventsRuntime.
Import EventType.

Definition ARRAY_LENGTH_MAX_SMALL : Z := 255.
Definition NO_TO_SPACE : Z := 0.
Definition NO_REGION : Z := 0.
Definition NO_ENCODED_FROM_ADDR : Z := 0.
Definition HeapWordSize : Z := 8.
Definition LogMinObjAlignmentInBytes : Z := 3.
Definition ALLOCATION_SITE_IDENTIFIER_UNKNOWN : Z := 0.
Definition ALLOCATION_SITE_IDENTIFIER_VM_INTERNAL : Z := 1.
Definition ALLOCATION_SITE_IDENTIFIER_FIRST_CUSTOM : Z := 15.
Definition ALLOCATED_TYPE_IDENTIFIER_UNKNOWN_MIRROR : Z := 1.

Definition is_special_allocation_site (s : Z) : bool := s <? ALLOCATION_SITE_IDENTIFIER_FIRST_CUSTOM.
Definition is_big_allocation_site (s : Z) : bool := 8388608 <=? s.
Definition is_small_allocation_site (s : Z) : bool := s <? 8388608.

(** ** Words *)

(** [StuffedWord]: fields of given sizes, the first one in the highest bits. *)
Definition StuffedWord_add (value : Z) (f : Z * Z) : Z := s32 ((value ≪ f.2) .| f.1).
Definition stuff (fields : list (Z * Z)) : Z := foldl StuffedWord_add 0 fields.

Definition EVENT_TYPE_SIZE : Z := 6.
Definition EVENT_TYPE_LOCATION : Z := 32 - EVENT_TYPE_SIZE.
Definition event_field (event : Z) : Z * Z := (event, EVENT_TYPE_SIZE).
Definition gap (size : Z) : Z * Z := (0, size).
Definition event_gap : Z * Z := gap (8 - EVENT_TYPE_SIZE).

(** A word; two words, low half first. *)
Definition write_word (value : Z) : list Z := [s32 value].
Definition write_wide_word (value : Z) : list Z := write_word value ++ write_word (value ≫ 32).
Definition write_abs_addr (addr : Z) : list Z := write_wide_word (s64 addr).
Definition write_size (size : Z) : list Z := write_wide_word (s64 size).

Definition write_obj_alloc_event (allocation_site event_type array_length : Z) : list Z :=
  if is_big_allocation_site allocation_site then
    write_word (stuff [event_field event_type; event_gap; (allocation_site, 24)])
  else
    write_word (stuff [event_field event_type; event_gap; (allocation_site, 16); (array_length, 8)]).

Definition write_lab_alloc_event (event_type : Z) : list Z :=
  write_word (stuff [event_field event_type; event_gap; gap 24]).

Definition write_gc_event (event_type gc_type gc_cause : Z) (concurrent failed : bool) : list Z :=
  let flags := 0 .| ((if failed then 1 else 0) ≪ 0) .| ((if concurrent then 1 else 0) ≪ 1) in
  write_word (stuff [event_field event_type; event_gap; (gc_type, 8); (gc_cause, 8); (flags, 8)]).

Definition write_gc_move_fast_event (event_type from_addr space : Z) : list Z :=
  write_word (stuff [event_field event_type; (space, 2); (from_addr, 24)]).

Definition write_gc_ptr_event (event_type space ptr_kinds : Z) : list Z :=
  write_word (stuff [event_field event_type; (space, 2); (ptr_kinds, 24)]).

Definition write_gc_move_event (event_type no_of_objects : Z) : list Z :=
  write_word (stuff [event_field event_type; event_gap; (no_of_objects, 24)]).

(** The bytes of a string, four to a word from the high end; [char] is signed,
    so a byte from 128 on is sign-extended before it is or'ed in. *)
Fixpoint pack (s : list Z) (word filled : Z) : list Z :=
  match s with
  | [] => if 0 <? filled then write_word (word ≪ ((4 - filled) * 8)) else []
  | c :: s =>
      let '(out, word, filled) := if filled =? 4 then (write_word word, 0, 0) else ([], word, filled) in
      out ++ pack s (s32 (s32 (word ≪ 8) .| s8 c)) (filled + 1)
  end.

Definition write_string (s : list Z) : list Z := write_word (Z.of_nat (length s)) ++ pack s 0 0.

Definition DEBUG_ANCHOR_PROTOTYPE : Z := 4294902015.
Definition get_debug_anchor (event_type : Z) : Z := DEBUG_ANCHOR_PROTOTYPE .| (event_type ≪ 8).
Definition write_anchor (event_type : Z) : list Z := write_word (get_debug_anchor event_type).

(** ** Objects *)

(** What the events say about an object: its address, its length if it is an
    array, whether it is a class mirror, the id of its type and its size in
    heap words. *)
Record oop := Oop {
  addr : Z;
  array_length : option Z;
  is_instanceMirror : bool;
  type_id : Z;
  size : Z;
}.

Definition is_array (o : oop) : bool := match array_length o with Some _ => true | None => false end.

(** An event: the words reserved, and the words stored. *)
Record event := Event { reserved : Z; stored : list Z }.

Section EventsRuntime.
Variable TraceObjectsInsertAnchors : bool.

(** [fire_event]: [size] words and, if anchors are inserted, one more. *)
Definition fire_event (event_type size : Z) (words : list Z) : event :=
  Event (size + (if TraceObjectsInsertAnchors then 1 else 0))
    (words ++ (if TraceObjectsInsertAnchors then write_anchor event_type else [])).

(** ** Allocations *)

Definition create_obj_alloc_fast_prototype (allocation_site event_type : Z) : Z :=
  if is_big_allocation_site allocation_site then stuff [event_field event_type; event_gap; (allocation_site, 24)]
  else stuff [event_field event_type; event_gap; (allocation_site, 16); gap 8].

Definition fire_obj_alloc_fast_no_arrays (allocation_site event_type : Z) : event :=
  fire_event event_type 1 (write_obj_alloc_event allocation_site event_type 0).

Definition fire_obj_alloc_normal_no_arrays (obj : oop) (allocation_site event_type : Z) : event :=
  fire_event event_type 3 (write_obj_alloc_event allocation_site event_type 0 ++ write_abs_addr (addr obj)).

(** The event word in the high half of [e], the array length in the low half. *)
Definition fire_obj_alloc_fast_prepared (e : Z) : event :=
  let event_alloc := s32 (e ≫ 32) in
  let isBigAllocSite := negb ((event_alloc ≫ 23) .& 1 =? 0) in
  let array_length := if isBigAllocSite then 0 else event_alloc .& 255 in
  let event_type := s8 (event_alloc ≫ EVENT_TYPE_LOCATION) in
  if array_length =? ARRAY_LENGTH_MAX_SMALL then
    fire_event event_type 2 (write_word event_alloc ++ write_word (e .& 4294967295))
  else fire_event event_type 1 (write_word event_alloc).

Definition fire_obj_alloc_fast (obj : oop) (allocation_site event_type : Z) : event :=
  match array_length obj with
  | Some n =>
      if ARRAY_LENGTH_MAX_SMALL <=? n then
        fire_event event_type 2 (write_obj_alloc_event allocation_site event_type ARRAY_LENGTH_MAX_SMALL ++ write_word n)
      else fire_event event_type 1 (write_obj_alloc_event allocation_site event_type n)
  | None => fire_event event_type 1 (write_obj_alloc_event allocation_site event_type 0)
  end.

Definition fire_obj_alloc_normal (obj : oop) (allocation_site event_type : Z) : event :=
  match array_length obj with
  | Some n =>
      if ARRAY_LENGTH_MAX_SMALL <=? n then
        fire_event event_type 4 (write_obj_alloc_event allocation_site event_type ARRAY_LENGTH_MAX_SMALL ++
          write_abs_addr (addr obj) ++ write_word n)
      else fire_event event_type 3 (write_obj_alloc_event allocation_site event_type n ++ write_abs_addr (addr obj))
  | None => fire_event event_type 3 (write_obj_alloc_event allocation_site event_type 0 ++ write_abs_addr (addr obj))
  end.

Definition is_allocation_fast_event (event_type : Z) : bool :=
  (event_type =? EVENTS_IR_ALLOC_FAST) || (event_type =? EVENTS_C1_ALLOC_FAST) || (event_type =? EVENTS_C2_ALLOC_FAST) ||
  (event_type =? EVENTS_C2_ALLOC_FAST_DEVIANT_TYPE).

Definition is_allocation_normal_event (event_type : Z) : bool :=
  (event_type =? EVENTS_IR_ALLOC_NORMAL) || (event_type =? EVENTS_C1_ALLOC_NORMAL) || (event_type =? EVENTS_C2_ALLOC_NORMAL).

Definition is_allocation_slow_event (event_type : Z) : bool :=
  (event_type =? EVENTS_ALLOC_SLOW) || (event_type =? EVENTS_IR_ALLOC_SLOW) || (event_type =? EVENTS_C1_ALLOC_SLOW) ||
  (event_type =? EVENTS_C2_ALLOC_SLOW) || (event_type =? EVENTS_IR_ALLOC_SLOW_DEVIANT_TYPE) ||
  (event_type =? EVENTS_C1_ALLOC_SLOW_DEVIANT_TYPE) || (event_type =? EVENTS_C2_ALLOC_SLOW_DEVIANT_TYPE).

Definition is_allocation_event (event_type : Z) : bool :=
  is_allocation_fast_event event_type || is_allocation_normal_event event_type || is_allocation_slow_event event_type.

Definition is_allocation_slow_with_deviant_type_event (event_type : Z) : bool :=
  (event_type =? EVENTS_IR_ALLOC_SLOW_DEVIANT_TYPE) || (event_type =? EVENTS_C1_ALLOC_SLOW_DEVIANT_TYPE) ||
  (event_type =? EVENTS_C2_ALLOC_SLOW_DEVIANT_TYPE).

(** [size_given] is the parameter [size], in heap words. *)
Definition fire_obj_alloc_slow (obj : oop) (allocation_site event_type size_given : Z) : event :=
  let with_type := is_special_allocation_site allocation_site || is_allocation_slow_with_deviant_type_event event_type in
  let with_size := is_instanceMirror obj in
  let additional_words := (if with_type then 1 else 0) + (if with_size then 1 else 0) in
  let rest := (if with_type then write_word (type_id obj) else []) ++
    (if with_size then write_word (size_given * HeapWordSize) else []) in
  match array_length obj with
  | Some n =>
      if ARRAY_LENGTH_MAX_SMALL <=? n then
        fire_event event_type (4 + additional_words) (write_obj_alloc_event allocation_site event_type ARRAY_LENGTH_MAX_SMALL ++
          write_abs_addr (addr obj) ++ write_word n ++ rest)
      else
        fire_event event_type (3 + additional_words)
          (write_obj_alloc_event allocation_site event_type n ++ write_abs_addr (addr obj) ++ rest)
  | None =>
      fire_event event_type (3 + additional_words)
        (write_obj_alloc_event allocation_site event_type 0 ++ write_abs_addr (addr obj) ++ rest)
  end.

(** [mirrored_type] is the type id of the mirrored class, if there is one. *)
Definition fire_mirror_obj_alloc (obj : oop) (size_given : Z) (mirrored_type : option Z) : event :=
  fire_event EVENTS_ALLOC_SLOW 5
    (write_obj_alloc_event ALLOCATION_SITE_IDENTIFIER_VM_INTERNAL EVENTS_ALLOC_SLOW 0 ++ write_abs_addr (addr obj) ++
     write_word (match mirrored_type with Some t => - t | None => ALLOCATED_TYPE_IDENTIFIER_UNKNOWN_MIRROR end) ++
     write_word (size_given * HeapWordSize)).

Definition fire_tlab_alloc (a sz : Z) : event :=
  fire_event EVENTS_TLAB_ALLOC 5 (write_lab_alloc_event EVENTS_TLAB_ALLOC ++ write_size sz ++ write_abs_addr a).

Definition fire_plab_alloc (a sz : Z) : event :=
  fire_event EVENTS_PLAB_ALLOC 5 (write_lab_alloc_event EVENTS_PLAB_ALLOC ++ write_size sz ++ write_abs_addr a).

(** ** Garbage collections *)

(** The base is recomputed while the event is written; [base] is the new
    [rel_addr_base]. *)
Definition fire_gc_start_end (event_type id gc_type gc_cause : Z) (concurrent failed : bool) (millis base : Z) : event :=
  fire_event event_type 6 (write_gc_event event_type gc_type gc_cause concurrent failed ++ write_word id ++
    write_wide_word millis ++ write_abs_addr base).

Definition fire_gc_info (collected_region id : Z) : event :=
  fire_event EVENTS_GC_INFO 2
    (write_word (stuff [event_field EVENTS_GC_INFO; event_gap; (s32 collected_region, 24)]) ++ write_word id).

Definition fire_gc_failed (collected_region : Z) : event :=
  fire_event EVENTS_GC_FAILED 1 (write_word (stuff [event_field EVENTS_GC_FAILED; event_gap; (s32 collected_region, 24)])).

Definition fire_gc_interrupt_continue (event_type gc_id a : Z) : event :=
  fire_event event_type 4 (write_word (stuff [event_field event_type; event_gap; gap 24]) ++ write_word gc_id ++
    write_abs_addr a).

Definition fire_gc_keep_alive (a : Z) : event :=
  fire_event EVENTS_GC_KEEP_ALIVE 3 (write_gc_move_event EVENTS_GC_KEEP_ALIVE NO_REGION ++ write_abs_addr a).

Definition fire_gc_move_slow (from_addr to_addr : Z) : event :=
  fire_event EVENTS_GC_MOVE_SLOW 5 (write_gc_move_event EVENTS_GC_MOVE_SLOW NO_REGION ++ write_abs_addr from_addr ++
    write_abs_addr to_addr).

Definition fire_gc_move_region (from_addr to_addr no_of_objects : Z) : event :=
  fire_event EVENTS_GC_MOVE_REGION 5 (write_gc_move_event EVENTS_GC_MOVE_REGION no_of_objects ++
    write_abs_addr from_addr ++ write_abs_addr to_addr).

(** The collector in use, with the addresses it offers as a base: the bottom
    of eden, the bottoms of the first regions of the collection set and of the
    young list and of region 0, or the top of generation 0. *)
Inductive collector :=
| UseParallelGC (eden_bottom : Z)
| UseG1GC (collection_set young_list region_0 : option Z)
| UseGenerational (top_addr : Z).

Definition compute_rel_addr_base (c : collector) : Z :=
  match c with
  | UseParallelGC bottom => bottom
  | UseG1GC (Some bottom) _ _ => bottom
  | UseG1GC None (Some bottom) _ => bottom
  | UseG1GC None None (Some bottom) => bottom
  | UseG1GC None None None => 0
  | UseGenerational top => top
  end.

(** The distance to the base in units of the object alignment, and whether it
    fits into [bits] bits. *)
Definition get_rel_addr (rel_addr_base a bits : Z) : Z * bool :=
  let rel_addr := s64 (s64 a - s64 rel_addr_base) ≫ LogMinObjAlignmentInBytes in
  let mask := (1 ≪ bits) - 1 in
  (u32 rel_addr, rel_addr .& Z.lnot mask =? 0).

Definition fire_gc_move_fast (rel_addr_base from_addr to_space : Z) : event :=
  let '(rel_from_addr, narrow) := get_rel_addr rel_addr_base from_addr (32 - 8 - 2) in
  let '(_, fits) := get_rel_addr rel_addr_base from_addr 32 in
  if narrow then
    fire_event EVENTS_GC_MOVE_FAST_NARROW 1
      (write_gc_move_fast_event EVENTS_GC_MOVE_FAST_NARROW (s32 (u32 (rel_from_addr ≪ 2))) to_space)
  else if fits then
    fire_event EVENTS_GC_MOVE_FAST 2
      (write_gc_move_fast_event EVENTS_GC_MOVE_FAST NO_ENCODED_FROM_ADDR to_space ++ write_word rel_from_addr)
  else
    fire_event EVENTS_GC_MOVE_FAST_WIDE 3
      (write_gc_move_fast_event EVENTS_GC_MOVE_FAST_WIDE NO_ENCODED_FROM_ADDR to_space ++ write_abs_addr from_addr).

(** The words of the pointers from index [i] on; [None] is an access outside
    of the list. *)
Fixpoint fire_gc_ptr_loop (fuel : nat) (l : EventPointerList.ptr_list) (i : Z) : option (list Z) :=
  match fuel with
  | O => Some []
  | S fuel =>
      if i <? EventPointerList.get_size l then
        '(ptr, kind) ← EventPointerList.get_next l i;
        rest ← fire_gc_ptr_loop fuel l (u8 (i + 1));
        if kind =? EventPointerList.NULL_PTR then Some rest
        else if kind =? EventPointerList.ABSOLUTE_PTR then Some (write_abs_addr ptr ++ rest)
        else Some (write_word ptr ++ rest)
      else Some []
  end.

Definition fire_gc_ptr (l : EventPointerList.ptr_list) : option (list Z) :=
  fire_gc_ptr_loop (Z.to_nat (EventPointerList.get_size l)) l 0.

Definition fire_gc_move_slow_ptr (event_type from_addr to_addr : Z) (l : EventPointerList.ptr_list) :
    option (event * EventPointerList.ptr_list) :=
  let event_type := if event_type =? EVENTS_GC_MOVE_SLOW then EVENTS_GC_MOVE_SLOW_PTR else EVENTS_GC_KEEP_ALIVE_PTR in
  let moved := event_type =? EVENTS_GC_MOVE_SLOW_PTR in
  let event_size := 3 + EventPointerList.get_words l + (if moved then 2 else 0) in
  let '(l, kinds) := EventPointerList.get_kinds l in
  ptrs ← fire_gc_ptr l;
  Some (fire_event event_type event_size (write_gc_ptr_event event_type NO_TO_SPACE kinds ++
    (if moved then write_abs_addr from_addr else []) ++ write_abs_addr to_addr ++ ptrs), l).

Definition fire_gc_move_fast_ptr (rel_addr_base from_addr to_space : Z) (l : EventPointerList.ptr_list) :
    option (event * EventPointerList.ptr_list) :=
  let event_size := EventPointerList.get_words l in
  let '(rel_from_addr, fits) := get_rel_addr rel_addr_base from_addr 32 in
  let '(l, kinds) := EventPointerList.get_kinds l in
  ptrs ← fire_gc_ptr l;
  Some (if fits then
    fire_event EVENTS_GC_MOVE_FAST_PTR (event_size + 2)
      (write_gc_ptr_event EVENTS_GC_MOVE_FAST_PTR to_space kinds ++ write_word rel_from_addr ++ ptrs)
  else
    fire_event EVENTS_GC_MOVE_FAST_WIDE_PTR (event_size + 3)
      (write_gc_ptr_event EVENTS_GC_MOVE_FAST_WIDE_PTR to_space kinds ++ write_abs_addr from_addr ++ ptrs), l).

Definition fire_gc_obj_ptr (event_type obj : Z) (l : EventPointerList.ptr_list) :
    option (event * EventPointerList.ptr_list) :=
  let event_size := 3 + EventPointerList.get_words l in
  let '(l, kinds) := EventPointerList.get_kinds l in
  ptrs ← fire_gc_ptr l;
  Some (fire_event event_type event_size (write_gc_ptr_event event_type NO_TO_SPACE kinds ++ write_abs_addr obj ++ ptrs), l).

(** ** Roots *)

(** What follows the type of a root. *)
Definition root_info_words (info : EventRootPointerList.RootInfo) : list Z :=
  match EventRootPointerList.type info with
  | EventRootPointerList.CLASS_LOADER_ROOT => write_string (EventRootPointerList.string info)
  | EventRootPointerList.CLASS_ROOT => write_word (EventRootPointerList.last_word info)
  | EventRootPointerList.STATIC_FIELD_ROOT => write_wide_word (EventRootPointerList.first_double_word info)
  | EventRootPointerList.LOCAL_VARIABLE_ROOT =>
      write_wide_word (EventRootPointerList.first_double_word info) ++
      write_wide_word (EventRootPointerList.second_double_word info) ++ write_word (EventRootPointerList.last_word info)
  | EventRootPointerList.VM_INTERNAL_THREAD_DATA_ROOT => write_wide_word (EventRootPointerList.first_double_word info)
  | EventRootPointerList.CODE_BLOB_ROOT => write_wide_word (EventRootPointerList.first_double_word info)
  | EventRootPointerList.JNI_LOCAL_ROOT => write_wide_word (EventRootPointerList.first_double_word info)
  | EventRootPointerList.JNI_GLOBAL_ROOT => write_word (EventRootPointerList.last_word info)
  | EventRootPointerList.DEBUG_ROOT => write_string (EventRootPointerList.string info)
  | _ => []
  end.

Definition root_words (r : Z * EventRootPointerList.RootInfo) : list Z :=
  write_wide_word r.1 ++ write_word (EventRootPointerList.root_code (EventRootPointerList.type r.2)) ++ root_info_words r.2.

Definition fire_gc_root_ptrs (l : EventRootPointerList.root_list) : event :=
  let full := EventRootPointerList.is_full l in
  fire_event EVENTS_GC_ROOT_PTR (1 + EventRootPointerList.get_words l + (if full then 0 else 2))
    (write_gc_ptr_event EVENTS_GC_ROOT_PTR NO_TO_SPACE 0 ++ concat (root_words <$> EventRootPointerList.roots l) ++
     (if full then [] else write_wide_word (-1))).

(** ** Synchronisation *)

Definition sync_word (event_type allocsite : Z) : list Z :=
  if is_big_allocation_site allocsite then write_word (stuff [event_field event_type; event_gap; (allocsite, 24)])
  else write_word (stuff [event_field event_type; event_gap; (allocsite, 16); gap 8]).

(** The length of an array, the size of a mirror. *)
Definition sync_tail (obj : oop) (size_given : Z) : list Z :=
  match array_length obj with Some n => write_word n | None => [] end ++
  (if is_instanceMirror obj then write_word ((if size_given =? 0 then size obj else size_given) * HeapWordSize) else []).

Definition sync_tail_size (obj : oop) : Z :=
  (if is_array obj then 1 else 0) + (if is_instanceMirror obj then 1 else 0).

(** [allocsite] is what [AllocationSiteStorage::load] returns, or
    [ALLOCATION_SITE_IDENTIFIER_UNKNOWN] if sites are not saved. *)
Definition fire_sync_obj_from (from : Z) (obj : oop) (size_given allocsite : Z) : event :=
  fire_event EVENTS_SYNC_OBJ (6 + sync_tail_size obj) (sync_word EVENTS_SYNC_OBJ allocsite ++ write_word (type_id obj) ++
    write_abs_addr from ++ write_abs_addr (addr obj) ++ sync_tail obj size_given).

Definition fire_sync_obj (obj : oop) (size_given allocsite : Z) : event :=
  fire_event EVENTS_SYNC_OBJ_NARROW (4 + sync_tail_size obj) (sync_word EVENTS_SYNC_OBJ_NARROW allocsite ++
    write_word (type_id obj) ++ write_abs_addr (addr obj) ++ sync_tail obj size_given).

Definition fire_sync : event := fire_event EVENTS_NOP 1 (write_word (stuff [event_field EVENTS_NOP; event_gap; gap 24])).

(** ** Threads, marks, spaces, tags *)

(** What the VM knows about the kind of a thread, and the code of it. *)
Record thread_kind := ThreadKind {
  is_VM_thread : bool;
  is_GC_task_thread : bool;
  is_ConcurrentGC_thread : bool;
  is_Compiler_thread : bool;
  is_Java_thread : bool;
}.

Definition VM_THREAD : Z := 0.
Definition GC_THREAD : Z := 1.
Definition COMPILER_THREAD : Z := 2.
Definition JAVA_THREAD : Z := 3.
Definition UNKNOWN_THREAD : Z := 4.

Definition get_thread_type (t : thread_kind) : Z :=
  if is_VM_thread t then VM_THREAD
  else if is_GC_task_thread t || is_ConcurrentGC_thread t then GC_THREAD
  else if is_Compiler_thread t then COMPILER_THREAD
  else if is_Java_thread t then JAVA_THREAD else UNKNOWN_THREAD.

(** [name] without its terminating zero; the zero is written if there is room. *)
Definition fire_thread_alive (thread_type id : Z) (name : list Z) : event :=
  let name_length := Z.min (Z.of_nat (length name) + 1) (12 * 4) in
  fire_event EVENTS_THREAD_ALIVE (3 + name_length / 4 + (if name_length mod 4 =? 0 then 0 else 1))
    (write_word (stuff [event_field EVENTS_THREAD_ALIVE; event_gap; (thread_type, 16); gap 8]) ++ write_wide_word id ++
     pack (take (Z.to_nat name_length) (name ++ [0])) 0 0).

Definition fire_thread_death (id : Z) : event :=
  fire_event EVENTS_THREAD_DEATH 3 (write_word (stuff [event_field EVENTS_THREAD_DEATH; event_gap; gap 24]) ++
    write_wide_word id).

Definition fire_mark (id : Z) : event :=
  fire_event EVENTS_MARK (1 + 2) (write_word (stuff [event_field EVENTS_MARK; event_gap; gap 24]) ++ write_wide_word id).

(** [bottom] and [end_] are pointers to heap words. *)
Definition space_size (bottom end_ : Z) : Z := u64 ((end_ - bottom) / HeapWordSize * HeapWordSize).

Definition fire_space_creation (id bottom end_ : Z) : event :=
  fire_event EVENTS_SPACE_CREATE 6 (write_word (stuff [event_field EVENTS_SPACE_CREATE; event_gap; gap 24]) ++ write_word id ++
    write_abs_addr bottom ++ write_size (space_size bottom end_)).

Definition fire_space_alloc (id mode type : Z) : event :=
  fire_event EVENTS_SPACE_ALLOC 2
    (write_word (stuff [event_field EVENTS_SPACE_ALLOC; (type, 8); (mode, 8); event_gap; gap 8]) ++ write_word id).

Definition fire_space_release (id : Z) : event :=
  fire_event EVENTS_SPACE_RELEASE 2 (write_word (stuff [event_field EVENTS_SPACE_RELEASE; event_gap; gap 24]) ++ write_word id).

Definition fire_space_redefine (id bottom end_ : Z) : event :=
  fire_event EVENTS_SPACE_REDEFINE 6 (write_word (stuff [event_field EVENTS_SPACE_REDEFINE; event_gap; gap 24]) ++ write_word id ++
    write_abs_addr bottom ++ write_size (space_size bottom end_)).

Definition fire_space_destroyed (startId numOfRegions : Z) : event :=
  fire_event EVENTS_SPACE_DESTROY 4 (write_word (stuff [event_field EVENTS_SPACE_DESTROY; event_gap; gap 24]) ++
    write_word startId ++ write_size numOfRegions).

Definition fire_tag (tag : list Z) : event :=
  fire_event EVENTS_TAG (1 + EventRootPointerList.string_words tag + 1)
    (write_word (stuff [event_field EVENTS_TAG; event_gap; gap 24]) ++ write_string tag).

End EventsRuntime.

End EventsRuntime.
