(* ===== verification/FlushAll.v ===== *)
(** * Flushing all event buffers ([prims/EventBuffersFlushAll.cpp],
      [EventBuffers::flush])

    At a safepoint the current thread hands over the buffers of all threads,
    its own at the end, and waits until they are written.  The compression
    threads and the worker go on meanwhile. *)

From stdpp Require Import gmap.
From S2P Require Import Prelude EventBuffer EventBufferList EventBuffers EventsRuntime Pipeline PipelineSpec PipelineTheorems PipelineLiveness.
From Stdlib Require Import ZArith Lia.

Module EventBuffersFlushAll.
Import EventBuffers Pipeline.

Section Closure.
(** What the VM knows about its threads: their kinds, the [top] and [end] of
    their allocation buffers, and the events of the objects with which
    [make_parsable] fills the rest of such a buffer. *)
Variable kind : Z -> EventsRuntime.thread_kind.
Variable tlab : Z -> Z * Z.
Variable fillers : Z -> list (list Z).

(** [FlushBufferThreadClosure], as the actions it takes; [last] is
    [Thread::current()], on which the heap fires. *)
Section Thread.
Variable last : Z.
Variable condition : option (Z -> bool).

Definition selects (thread : Z) : bool := match condition with None => true | Some c => c thread end.

Definition do_thread0 (thread : Z) : list action :=
  (if EventsRuntime.is_Java_thread (kind thread) && ((tlab thread).1 <=? (tlab thread).2) then Fire last <$> fillers thread else []) ++
  [Flush thread false].

(** [NULL] is 0. *)
Definition do_thread (thread : Z) : list action :=
  if negb (thread =? 0) && negb (thread =? last) && selects thread then do_thread0 thread else [].

(** Over the threads, and the destructor. *)
Definition closure (threads : list Z) : list action :=
  concat (do_thread <$> threads) ++ (if selects last then do_thread0 last else []).

End Thread.

Definition flush_all (last : Z) (threads : list Z) : list action := closure last None threads.

Definition flush_gc_condition (t : Z) : bool :=
  negb (t =? 0) && (EventsRuntime.is_VM_thread (kind t) || EventsRuntime.is_GC_task_thread (kind t) || EventsRuntime.is_ConcurrentGC_thread (kind t)).

Definition flush_gc_threads (last : Z) (gc_threads : list Z) : list action := closure last (Some flush_gc_condition) gc_threads.

End Closure.

(** ** Waiting ([EventBuffers::flush]) *)

Section Wait.
Variable fl : flags.
Variable malloc_usable_size : Z -> Z.
Variable drawn_size : Z -> Z.
Context {C : Type}.
Variable encode : C -> list Z -> Z -> option (C * option (list Z)).

Definition compressor_idle (i : nat) (w : world (C := C)) : bool :=
  match compressors w !! i with Some (_, p) => is_Idle p | None => true end.

(** What is waited for, one after the other. *)
Definition flush_conditions (n : nat) : list (world (C := C) -> bool) :=
  (fun w => EventBufferList.is_empty (compression_queue (qs w))) :: (compressor_idle <$> seq 0 n) ++
  [fun w => EventBufferList.is_empty (flush_queue (qs w)); fun w => bool_decide (hand w = None)].

(** The actions [ls] of the others happen until the conditions are seen. *)
Fixpoint wait_for (conditions : list (world (C := C) -> bool)) (w : world (C := C)) (ls : list (list action)) : option (world (C := C)) :=
  match conditions, ls with
  | [], [] => Some w
  | c :: conditions, l :: ls =>
      w ← PipelineTheorems.run fl malloc_usable_size drawn_size encode w l;
      if c w then wait_for conditions w ls else None
  | _, _ => None
  end.

End Wait.

End EventBuffersFlushAll.

(** ** What is written then *)

Module FlushAllSpec.
Import EventBuffers QueueSpec Pipeline PipelineSpec PipelineTheorems PipelineLiveness EventBuffersFlushAll.

Section Flushed.
Variable fl : flags.
Variable malloc_usable_size : Z -> Z.
Variable drawn_size : Z -> Z.
Context {C : Type}.
Variable encode : C -> list Z -> Z -> option (C * option (list Z)).
Variable Good : C -> Prop.
Hypothesis usable_ge : forall n, 0 <= n -> n <= malloc_usable_size n.
Hypothesis encode_good : forall c src cap c' r,
  Good c -> Forall is_byte src -> src <> [] -> encode c src cap = Some (c', r) ->
  Good c' /\ forall bytes, r = Some bytes -> Z.of_nat (length bytes) <= cap /\ Forall is_byte bytes.

Abbreviation inv := (PipelineSpec.inv fl encode True Good (fun _ => True)).
Abbreviation run := (run fl malloc_usable_size drawn_size encode).
Abbreviation exec := (exec fl malloc_usable_size drawn_size encode).

Definition invs (w : world (C := C)) : Prop := exists fq cq, inv w fq cq.

Lemma exec_invs w a w' : invs w -> exec w a = Done w' -> numbered w' -> invs w'.
Proof.
  intros (fq & cq & J) E Hn.
  pose proof (exec_inv fl malloc_usable_size drawn_size encode True True (fun x => x) usable_ge Good encode_good (or_introl I)
    (fun _ => True) I w a fq cq J (any_whole a) (or_introl I)) as Hp.
  rewrite E in Hp. by apply Hp.
Qed.

(** Induction over a run. *)
Lemma run_keeps (A : action -> Prop) (P : world (C := C) -> Prop) l w w' :
  (forall w a w', P w -> A a -> exec w a = Done w' -> numbered w' -> P w') ->
  Forall A l -> run w l = Some w' -> P w -> P w'.
Proof.
  intros Hstep Hl. revert w. induction Hl as [|a l Ha Hl IH]; intros w; cbn [PipelineTheorems.run]; [by intros [= <-]|].
  destruct (exec w a) as [w1| |] eqn:E; [|done|done]. destruct (numbered_b w1) eqn:Hn; [|done]. intros Hr Hp. apply (IH w1); [done|].
  apply (Hstep w a w1); try done. unfold numbered_b in Hn. unfold numbered. zbool. lia.
Qed.

Lemma run_app w l1 l2 : run w (l1 ++ l2) = run w l1 ≫= fun w => run w l2.
Proof.
  revert w. induction l1 as [|a l1 IH]; intros w; cbn [app PipelineTheorems.run]; [done|].
  destruct (exec w a) as [w1| |]; [|done|done]. by destruct (numbered_b w1).
Qed.

(** *** The buffers of the threads *)

Lemma flush_current w t get_new w' :
  invs w -> flush_thread fl malloc_usable_size drawn_size w t get_new = Done w' ->
  current w' t = [] /\ forall t', t' <> t -> threads w' !! t' = threads w !! t'.
Proof.
  intros (fq & cq & J). unfold flush_thread. destruct (threads w !! t) as [b|] eqn:Hb.
  - pose proof (flush_event_buffer_post fl malloc_usable_size drawn_size True usable_ge (qs w) fq cq t b get_new
      (inv_queues _ _ _ _ _ _ _ _ J) (inv_numbered _ _ _ _ _ _ _ _ J) (inv_threads _ _ _ _ _ _ _ _ J t b Hb)) as Hp.
    destruct (flush_event_buffer _ _ _ _ _ _ _) as [[[q b'] o]| |]; [|done|done]. cbn [mbind result_bind]. intros [= <-].
    destruct Hp as (_ & _ & He & _). unfold current. cbn [threads]. rewrite lookup_insert_eq. split; [done|].
    intros t' Hne. by rewrite lookup_insert_ne.
  - intros [= <-]. unfold current. by rewrite Hb.
Qed.

Lemma store_threads (w : world (C := C)) t ws w' t' : store_event w t ws = Some w' -> t' <> t -> threads w' !! t' = threads w !! t'.
Proof.
  unfold store_event. destruct (threads w !! t); [|done]. cbn [mbind option_bind]. destruct (EventBuffer.append _ _); [|done].
  cbn [mbind option_bind]. intros [= <-] Hne. cbn [threads]. by rewrite lookup_insert_ne.
Qed.

Lemma fire_threads w t ws w' t' :
  invs w -> fire fl malloc_usable_size drawn_size w t ws = Done w' -> t' <> t -> threads w' !! t' = threads w !! t'.
Proof.
  intros J. unfold fire. destruct (store_event w t ws) eqn:E; [intros [= <-]; by eapply store_threads|].
  destruct (flush_thread _ _ _ _ _ _) as [w1| |] eqn:Ef; [|done|done]. cbn [mbind result_bind].
  destruct (store_event w1 t ws) as [w2|] eqn:E2; [|done]. intros [= <-] Hne.
  rewrite (store_threads _ _ _ _ _ E2 Hne). by apply (proj2 (flush_current _ _ _ _ J Ef)).
Qed.

Lemma internal_threads w a w' : internal a = true -> exec w a = Done w' -> threads w' = threads w.
Proof.
  destruct a; try done; intros _; cbn [Pipeline.exec]; intros H;
    unfold worker_take, worker_write, compressor_take, compressor_process, compressor_release in H; results; try done.
  all: unfold compressor_release; by repeat case_match.
Qed.

(** The actions that do not fire on the thread. *)
Definition harmless (t : Z) (a : action) : Prop :=
  match a with Fire t' _ => t' <> t | Flush _ _ => True | _ => internal a = true end.

Lemma harmless_keeps t w a w' : invs w /\ current w t = [] -> harmless t a -> exec w a = Done w' -> numbered w' -> invs w' /\ current w' t = [].
Proof.
  intros [J Hc] Ha E Hn. split; [by eapply exec_invs|]. unfold current in *.
  destruct (internal a) eqn:Hi; [by rewrite (internal_threads w a w' Hi E)|]. destruct a; try done; cbn [Pipeline.exec harmless] in *.
  - by rewrite (fire_threads _ _ _ _ t J E) by congruence.
  - destruct (flush_current _ _ _ _ J E) as [He Ho]. destruct (decide (t = t0)) as [->|Hne]; [done|by rewrite Ho].
Qed.

(** A flush that is not followed by an event of the thread. *)
Lemma run_flushed w l1 t get_new l2 w' :
  invs w -> Forall (harmless t) l2 -> run w (l1 ++ Flush t get_new :: l2) = Some w' -> invs w' /\ current w' t = [].
Proof.
  intros J Hl. rewrite run_app. destruct (run w l1) as [w1|] eqn:E1; [|done]. cbn [mbind option_bind].
  assert (invs w1) as J1 by (eapply (run_keeps (fun _ => True) invs); [intros; by eapply exec_invs|by apply Forall_true|done|done]).
  cbn [PipelineTheorems.run Pipeline.exec]. destruct (flush_thread _ _ _ _ _ _) as [w2| |] eqn:E2; [|done|done].
  destruct (numbered_b w2) eqn:Hn; [|done]. intros Hr.
  eapply (run_keeps (harmless t) (fun w => invs w /\ current w t = [])); [by apply harmless_keeps|done|done|].
  split; [|by eapply flush_current]. eapply (exec_invs w1 (Flush t get_new)); [done|done|]. unfold numbered_b in Hn. unfold numbered. zbool. lia.
Qed.

(** *** The closure *)

(** The actions of the current thread in a run. *)
Definition externals (l : list action) : list action := List.filter (fun a => negb (internal a)) l.

Lemma externals_split l a1 x a2 : externals l = a1 ++ x :: a2 -> exists l1 l2, l = l1 ++ x :: l2 /\ externals l2 = a2.
Proof.
  revert a1. induction l as [|a l IH]; intros a1; cbn [externals List.filter]; [by destruct a1|]. fold (externals l).
  destruct (negb (internal a)).
  - destruct a1 as [|b a1]; intros [= -> E]; [by exists [], l|]. destruct (IH _ E) as (l1 & l2 & -> & He). by exists (b :: l1), l2.
  - intros E. destruct (IH _ E) as (l1 & l2 & -> & He). by exists (a :: l1), l2.
Qed.

Lemma externals_harmless t l : Forall (harmless t) (externals l) -> Forall (harmless t) l.
Proof.
  induction l as [|a l IH]; cbn [externals List.filter]; [done|]. fold (externals l). destruct (internal a) eqn:Hi; cbn [negb].
  - intros H. constructor; [|by apply IH]. by destruct a.
  - intros [Ha Hl]%Forall_cons. constructor; [done|by apply IH].
Qed.

Section Visited.
Variable kind : Z -> EventsRuntime.thread_kind.
Variable tlab : Z -> Z * Z.
Variable fillers : Z -> list (list Z).
Variable last : Z.

Lemma do_thread0_harmless t t' : t <> last -> Forall (harmless t) (do_thread0 kind tlab fillers last t').
Proof.
  intros Hne. unfold do_thread0. apply Forall_app. split; [|by apply Forall_singleton]. case_match; [|done].
  apply Forall_fmap, Forall_true. intros ws. by apply not_eq_sym.
Qed.

Lemma flush_all_harmless t visited : t <> last -> Forall (harmless t) (flush_all kind tlab fillers last visited).
Proof.
  intros Hne. apply Forall_app. split; [|by apply do_thread0_harmless]. apply Forall_concat, Forall_fmap, Forall_true. intros t'.
  unfold compose, do_thread. case_match; [by apply do_thread0_harmless|done].
Qed.

(** The current thread comes last. *)
Lemma flush_all_last visited : exists a1, flush_all kind tlab fillers last visited = a1 ++ [Flush last false].
Proof. unfold flush_all, closure. cbn [selects]. unfold do_thread0. rewrite app_assoc. by eexists. Qed.

Lemma flush_all_visits t visited : t ∈ visited -> t <> 0 -> t <> last ->
  exists a1 a2, flush_all kind tlab fillers last visited = a1 ++ Flush t false :: a2.
Proof.
  intros Hin H0 Hl. apply list_elem_of_split. unfold flush_all, closure. apply elem_of_app. left. apply list_elem_of_In, in_concat.
  exists (do_thread kind tlab fillers last None t). split; [apply list_elem_of_In, list_elem_of_fmap; by exists t|apply list_elem_of_In].
  unfold do_thread. rewrite (proj2 (Z.eqb_neq t 0)), (proj2 (Z.eqb_neq t last)) by done. cbn [negb andb selects].
  apply elem_of_app. right. by apply list_elem_of_singleton.
Qed.

(** Afterwards no thread has anything in its buffer, whatever the compression
    threads and the worker did in between. *)
Lemma flush_all_empties visited w l w' :
  invs w -> (forall t, is_Some (threads w !! t) -> t ∈ visited /\ t <> 0) ->
  externals l = flush_all kind tlab fillers last visited -> run w l = Some w' -> invs w' /\ forall t, current w' t = [].
Proof.
  intros J Hv He Hr. destruct (flush_all_last visited) as [a1 E1]. pose proof He as He1. rewrite E1 in He1.
  destruct (externals_split _ _ _ _ He1) as (l1 & l2 & -> & E2).
  assert (invs w' /\ current w' last = []) as [J' Hlast].
  { eapply run_flushed; [done| |done]. apply externals_harmless. by rewrite E2. }
  split; [done|]. intros t. destruct (decide (t = last)) as [->|Hne]; [done|].
  assert (Forall (harmless t) (l1 ++ Flush last false :: l2)) as Hh by (apply externals_harmless; rewrite He; by apply flush_all_harmless).
  destruct (threads w !! t) as [b|] eqn:Hb.
  - destruct (Hv t ltac:(by eexists)) as [Hin H0]. destruct (flush_all_visits t visited Hin H0 Hne) as (b1 & b2 & E3).
    rewrite <- He in E3. destruct (externals_split _ _ _ _ E3) as (k1 & k2 & E4 & _). rewrite E4 in Hr, Hh.
    eapply run_flushed; [exact J| |exact Hr]. apply Forall_app in Hh as [_ Hh]. by apply Forall_cons in Hh as [_ ?].
  - eapply (run_keeps (harmless t) (fun w => invs w /\ current w t = [])); [by apply harmless_keeps|exact Hh|exact Hr|].
    split; [done|]. unfold current. by rewrite Hb.
Qed.

End Visited.

(** *** Waiting *)

Definition all_idle (w : world (C := C)) : Prop := forall i, compressor_idle i w = true.

Lemma idle_update (w : world (C := C)) i c p p' w' :
  compressors w !! i = Some (c, p) -> is_Idle p = false \/ p' = Idle -> forall c', compressors w' = <[i := (c', p')]> (compressors w) ->
  forall j, compressor_idle j w = true -> compressor_idle j w' = true.
Proof.
  intros Hi Hp c' E j. unfold compressor_idle. rewrite E. destruct (decide (j = i)) as [->|Hne]; [|by rewrite list_lookup_insert_ne].
  rewrite Hi, list_lookup_insert_eq by (by eapply lookup_lt_Some). destruct Hp as [->| ->]; done.
Qed.

(** Without buffers to compress nothing new is taken, and what is idle stays
    idle; without buffers in process nothing more is moved on either. *)
Lemma quiet_step w fq a w' :
  inv w fq [] -> internal a = true -> exec w a = Done w' ->
  compression_queue (qs w') = compression_queue (qs w) /\
  (forall i, compressor_idle i w = true -> compressor_idle i w' = true) /\
  (all_idle w -> fq = [] -> flush_queue (qs w') = flush_queue (qs w) /\ (hand w = None -> hand w' = None)).
Proof.
  intros J Ha. pose proof (inv_queues _ _ _ _ _ _ _ _ J) as Hq. destruct a; try done; cbn [Pipeline.exec]; clear Ha.
  - unfold worker_take. destruct (hand w) eqn:Hh; [intros [= <-]; by rewrite Hh|].
    pose proof (dequeue_flush_post True (qs w) fq [] Hq) as Hp. destruct (dequeue_from_flush_queue (qs w)) as [[q r]| |] eqn:E; [|done|done].
    cbn [mbind result_bind]. intros [= <-]. destruct Hp as (b & fq' & -> & _). unfold dequeue_from_flush_queue in E. by results.
  - unfold worker_write. destruct (hand w) eqn:Hh; [|intros [= <-]; by rewrite Hh]. intros H. results.
    unfold enqueue_to_free_list in *. by results.
  - unfold compressor_take. destruct (compressors w !! i) as [[c [| |]]|]; try (by intros [= <-]).
    pose proof (peek_compression_post True (qs w) fq [] Hq) as Hp. destruct (peek_from_compression (qs w)) as [[q r]| |]; [|done|done].
    by destruct Hp as (? & ? & ? & _).
  - unfold compressor_process. destruct (compressors w !! i) as [[c [|b|]]|] eqn:Hi; try (by intros [= <-]). intros H.
    assert (exists c', compressors w' = <[i := (c', Processed (EventBuffer.owner (buf b)))]> (compressors w)) as [c' Hc] by (results; by eexists).
    split_and!; [|eapply idle_update; [exact Hi|by left|exact Hc]|].
    + results; unfold enqueue_to_free_list, enqueue_to_flush_queue, dequeue_from_free_list in *; by results.
    + intros Hall. specialize (Hall i). unfold compressor_idle in Hall. by rewrite Hi in Hall.
  - unfold compressor_release. destruct (compressors w !! i) as [[c [|b|]]|] eqn:Hi; intros [= <-]; try done.
    split_and!; [done| |done]. eapply idle_update; [exact Hi|by right|done].
Qed.

(** The stages of the wait: nothing to compress and [k] threads idle; nothing
    on its way but what the worker holds. *)
Definition stage (n k : nat) (w : world (C := C)) : Prop :=
  (exists fq, inv w fq []) /\ length (compressors w) = n /\ forall i, (i < k)%nat -> compressor_idle i w = true.
Definition moved (w : world (C := C)) : Prop := inv w [] [] /\ all_idle w.

Lemma inv_empty w fq cq : inv w fq cq ->
  (EventBufferList.is_empty (compression_queue (qs w)) = true <-> cq = []) /\ (EventBufferList.is_empty (flush_queue (qs w)) = true <-> fq = []).
Proof.
  intros J. destruct (inv_queues _ _ _ _ _ _ _ _ J) as [[Hf _] [Hc _] _].
  rewrite (EventBufferList.is_empty_spec _ _ Hc), (EventBufferList.is_empty_spec _ _ Hf). by rewrite !bool_decide_eq_true.
Qed.

Lemma stage_step n k w a w' : stage n k w -> internal a = true -> exec w a = Done w' -> numbered w' -> stage n k w'.
Proof.
  intros ([fq J] & Hlen & Hk) Ha E Hn. destruct (quiet_step w fq a w' J Ha E) as (Hc & Hi & _).
  destruct (exec_invs w a w' ltac:(by exists fq, []) E Hn) as (fq' & cq' & J').
  split; [|by split; [rewrite (exec_compressors _ _ _ _ w a w' E)|auto]].
  exists fq'. destruct (inv_empty _ _ _ J) as [[_ H1] _]. destruct (inv_empty _ _ _ J') as [[H2 _] _].
  rewrite Hc in H2. by rewrite H2 in J' by (by apply H1).
Qed.

Lemma moved_step w a w' : moved w -> internal a = true -> exec w a = Done w' -> numbered w' ->
  moved w' /\ (hand w = None -> hand w' = None).
Proof.
  intros [J Hall] Ha E Hn. destruct (quiet_step w [] a w' J Ha E) as (Hc & Hi & Hf). destruct (Hf Hall eq_refl) as [Hq Hh].
  destruct (exec_invs w a w' ltac:(by exists [], []) E Hn) as (fq' & cq' & J'). split; [|done]. split; [|intros i; by apply Hi].
  destruct (inv_empty _ _ _ J) as [[_ H1] [_ H2]]. destruct (inv_empty _ _ _ J') as [[H3 _] [H4 _]].
  rewrite Hc in H3. rewrite Hq in H4. by rewrite H3, H4 in J' by auto.
Qed.

Abbreviation wait_for := (wait_for fl malloc_usable_size drawn_size encode).
Abbreviation internals := (Forall (fun a => internal a = true)).

(** The loop over the compression threads. *)
Lemma wait_idle n m k w rest ls w' :
  stage n k w -> internals (concat ls) -> wait_for ((compressor_idle <$> seq k m) ++ rest) w ls = Some w' ->
  exists w1 ls1, stage n (k + m) w1 /\ internals (concat ls1) /\ wait_for rest w1 ls1 = Some w'.
Proof.
  revert k w ls. induction m as [|m IH]; intros k w ls Hs Hl; cbn [seq fmap list_fmap app].
  { exists w, ls. by rewrite Nat.add_0_r. }
  destruct ls as [|l ls]; [done|]. cbn [EventBuffersFlushAll.wait_for concat] in *. apply Forall_app in Hl as [Hl Hls].
  destruct (run w l) as [w1|] eqn:E; [|done]. cbn [mbind option_bind]. destruct (compressor_idle k w1) eqn:Hk; [|done]. intros H.
  rewrite <- Nat.add_succ_comm. apply (IH (S k) w1 ls); [|done|done].
  destruct (run_keeps (fun a => internal a = true) (stage n k) l w w1 (stage_step n k) Hl E Hs) as (Hi & Hlen & Hk1). split; [done|]. split; [done|].
  intros i Hik. destruct (decide (i = k)) as [->|]; [done|apply Hk1; lia].
Qed.

Lemma moved_all_idle (w : world (C := C)) : all_idle w -> works (compressors w) = [].
Proof.
  intros H. apply idle_works, forallb_forall. intros [c p] [i Hi]%list_elem_of_In%list_elem_of_lookup.
  specialize (H i). unfold compressor_idle in H. by rewrite Hi in H.
Qed.

Lemma wait_run cs w ls w' : wait_for cs w ls = Some w' -> run w (concat ls) = Some w'.
Proof.
  revert w ls. induction cs as [|c cs IH]; intros w [|l ls]; cbn [EventBuffersFlushAll.wait_for concat]; try done.
  rewrite run_app. destruct (run w l) as [w1|]; [|done]. cbn [mbind option_bind]. destruct (c w1); [|done]. apply IH.
Qed.

Lemma run_threads w l w' : internals l -> run w l = Some w' -> threads w' = threads w.
Proof.
  intros Hl Hr. apply (run_keeps (fun a => internal a = true) (fun w' => threads w' = threads w) l w w'); try done.
  intros w1 a w2 <- Ha E _. by apply (internal_threads w1 a).
Qed.

(** The last two waits. *)
Lemma wait_moved n w ls w' :
  stage n n w -> internals (concat ls) ->
  wait_for [fun w => EventBufferList.is_empty (flush_queue (qs w)); fun w => bool_decide (hand w = None)] w ls = Some w' ->
  moved w' /\ hand w' = None.
Proof.
  intros Hs Hl. destruct ls as [|l1 [|l2 [|]]]; try done; cbn [EventBuffersFlushAll.wait_for concat] in *.
  - destruct (run w l1) as [w1|]; [|done]. cbn [mbind option_bind]. by destruct (EventBufferList.is_empty _).
  - apply Forall_app in Hl as [Hl1 [Hl2 _]%Forall_app]. destruct (run w l1) as [w1|] eqn:E1; [|done]. cbn [mbind option_bind].
    destruct (EventBufferList.is_empty _) eqn:He; [|done]. destruct (run w1 l2) as [w2|] eqn:E2; [|done]. cbn [mbind option_bind].
    case_bool_decide as Hh; [|done]. intros [= <-]. split; [|done].
    destruct (run_keeps (fun a => internal a = true) (stage n n) l1 w w1 (stage_step n n) Hl1 E1 Hs) as ([fq J] & Hlen & Hk).
    apply (run_keeps (fun a => internal a = true) moved l2 w1 w2); [intros; by eapply moved_step|done|done|].
    apply (inv_empty _ _ _ J) in He as ->. split; [done|]. intros i. destruct (decide (i < n)%nat); [by apply Hk|].
    unfold compressor_idle. by rewrite lookup_ge_None_2 by lia.
  - destruct (run w l1) as [w1|]; [|done]. cbn [mbind option_bind]. destruct (EventBufferList.is_empty _); [|done].
    destruct (run w1 l2) as [w2|]; [|done]. cbn [mbind option_bind]. by destruct (bool_decide _).
Qed.

(** One wait after the other is enough: nothing is on its way at the end. *)
Lemma wait_drains n w ls w' :
  invs w -> length (compressors w) = n -> internals (concat ls) -> wait_for (flush_conditions n) w ls = Some w' ->
  moved w' /\ hand w' = None /\ threads w' = threads w.
Proof.
  intros J Hlen Hl Hw. pose proof (run_threads _ _ _ Hl (wait_run _ _ _ _ Hw)) as Ht. unfold flush_conditions in Hw.
  destruct ls as [|l ls]; [done|]. cbn [EventBuffersFlushAll.wait_for concat] in *. apply Forall_app in Hl as [Hl Hls].
  destruct (run w l) as [w1|] eqn:E; [|done]. cbn [mbind option_bind] in Hw. destruct (EventBufferList.is_empty _) eqn:He; [|done].
  assert (stage n 0 w1) as Hs.
  { destruct (run_keeps (fun a => internal a = true) (fun w => invs w /\ length (compressors w) = n) l w w1) as [(fq & cq & J1) Hlen1]; try done.
    - intros w2 a w3 [J2 Hlen2] _ E2 Hn2. split; [by eapply exec_invs|]. by rewrite (exec_compressors _ _ _ _ _ _ _ E2).
    - apply (inv_empty _ _ _ J1) in He as ->. split; [by exists fq|]. split; [done|]. intros i. lia. }
  destruct (wait_idle n n 0 w1 _ ls w' Hs Hls Hw) as (w2 & ls2 & Hs2 & Hl2 & Hw2).
  destruct (wait_moved n w2 ls2 w' Hs2 Hl2 Hw2). by split_and!.
Qed.

(** Then everything fired is in the file. *)
Lemma moved_written w : moved w -> hand w = None -> (forall t, current w t = []) ->
  drained w = true /\ forall t, per t (written w) = default [] (fired w !! t).
Proof.
  intros [J Hall] Hh Hc. pose proof (moved_all_idle w Hall) as Hw. destruct (inv_empty _ _ _ J) as [[_ H1] [_ H2]]. split.
  - unfold drained. rewrite H1, H2, Hh, Hw by done. done.
  - intros t. rewrite (inv_fired _ _ _ _ _ _ _ _ J t). unfold out. rewrite Hh, Hw, Hc. cbn [option_list app]. by rewrite !app_nil_r.
Qed.

(** *** The current thread is not blocked for ever *)

Section Progress.
Hypothesis encode_total : forall c src cap, Good c -> Forall is_byte src -> src <> [] -> is_Some (encode c src cap).

(** With empty queues at most one buffer waits for compression afterwards. *)
Definition short (w q : queues) : Prop := exists fq cq, qrep q fq cq /\ (length cq <= 1)%nat /\ last_id w <= last_id q <= last_id w + 1.

Lemma hand_over_returns w t b : qrep w [] [] -> thread_item t b ->
  returns (hand_over fl w b) (fun '(q, _) => exists fq cq, qrep q fq cq /\ (length cq <= 1)%nat /\ last_id q = last_id w).
Proof.
  intros Hq Hb. unfold hand_over. destruct (EventBuffer.is_valid (buf b)) eqn:Hv; [|by exists [], []; split_and!; [done|simpl; lia|done]].
  assert (free (reset_item b)) as Hfr by (apply usable_reset; destruct Hb as (_ & _ & _ & _ & [?|[? _]]); [done|congruence]).
  destruct (0 <? EventBuffer.get_length (buf b)); [destruct (TraceObjectsAsyncIO fl); [destruct (TraceObjectsCompressTrace fl || _)|]|];
    apply returns_bind; (eapply returns_weaken; [|by first [apply enqueue_compression_returns|apply enqueue_flush_returns|apply enqueue_free_returns]]);
    (intros q [Hq' Hid]; eexists _, _; split_and!; [exact Hq'|simpl; lia|done]).
Qed.

Lemma flush_returns w t get_new : inv w [] [] -> last_id (qs w) + 1 < 2 ^ 31 - 1 ->
  returns (flush_thread fl malloc_usable_size drawn_size w t get_new) (fun w' => short (qs w) (qs w') /\ compressors w' = compressors w).
Proof.
  intros J Hid. pose proof (inv_queues _ _ _ _ _ _ _ _ J) as Hq. pose proof (inv_numbered _ _ _ _ _ _ _ _ J) as Hn. unfold numbered in Hn.
  unfold flush_thread. destruct (threads w !! t) as [b|] eqn:Hb; [|by split; [exists [], []; split_and!; [done|simpl; lia..]|]].
  apply returns_bind. unfold flush_event_buffer. apply returns_bind.
  eapply returns_weaken; [|by apply (hand_over_returns (qs w) t b Hq), (inv_threads _ _ _ _ _ _ _ _ J)].
  intros [q o] (fq & cq & Hq' & Hle & Hid'). apply returns_bind. destruct get_new.
  - apply returns_bind. eapply returns_weaken; [|by apply (dequeue_free_returns fl malloc_usable_size drawn_size usable_ge q fq cq); [|lia]].
    intros [q' r] (b' & -> & _ & Hq2 & Hid2). cbn. split; [|done]. exists fq, cq. split_and!; [done|done|lia|lia].
  - cbn. split; [|done]. exists fq, cq. split_and!; [done|done|lia|lia].
Qed.

Lemma store_queues (w : world (C := C)) t ws w' : store_event w t ws = Some w' -> qs w' = qs w /\ compressors w' = compressors w.
Proof.
  unfold store_event. destruct (threads w !! t); [|done]. cbn [mbind option_bind]. destruct (EventBuffer.append _ _); [|done].
  cbn [mbind option_bind]. by intros [= <-].
Qed.

Lemma fire_returns w t ws : inv w [] [] -> last_id (qs w) + 1 < 2 ^ 31 - 1 -> is_Some (threads w !! t) -> small_event ws ->
  returns (fire fl malloc_usable_size drawn_size w t ws) (fun w' => short (qs w) (qs w') /\ compressors w' = compressors w).
Proof.
  intros J Hid Ht Hs. unfold fire. destruct (store_event w t ws) as [w'|] eqn:E.
  { cbn [returns]. destruct (store_queues _ _ _ _ E) as [-> ->]. split; [|done]. exists [], [].
    split_and!; [apply (inv_queues _ _ _ _ _ _ _ _ J)|simpl; lia..]. }
  pose proof (flush_returns w t true J Hid) as Hf.
  pose proof (flush_thread_room fl malloc_usable_size drawn_size encode True True usable_ge Good (fun _ => True) w t ws [] [] J Ht Hs) as Hroom.
  destruct (flush_thread _ _ _ _ _ _) as [w1| |]; [|done|done]. cbn [mbind result_bind returns post] in *. destruct Hroom as [w2 E2].
  rewrite E2. cbn [returns]. by destruct (store_queues _ _ _ _ E2) as [-> ->].
Qed.

(** The actions of the closure. *)
Definition flushing (last : Z) (a : action) : Prop :=
  match a with Fire t ws => t = last /\ small_event ws | Flush _ _ => True | _ => False end.

Lemma flushing_external last a : flushing last a -> internal a = false.
Proof. by destruct a. Qed.

Lemma short_credit (w w' : world (C := C)) : short (qs w) (qs w') -> compressors w' = compressors w -> works (compressors w) = [] ->
  credit w' <= last_id (qs w) + 2 /\ last_id (qs w) <= last_id (qs w') <= last_id (qs w) + 1.
Proof.
  intros (fq & cq & Hq & Hl & Hid) Hc Hw. unfold credit. destruct (queue_lengths _ _ _ Hq) as [_ ->]. rewrite Hc, Hw. simpl. lia.
Qed.

Lemma live_keeps last (w : world (C := C)) a w' : is_Some (threads w !! last) -> flushing last a \/ internal a = true -> exec w a = Done w' -> is_Some (threads w' !! last).
Proof.
  intros Hl [Ha|Ha] E; [|by rewrite (internal_threads w a w' Ha E)]. assert (forall (w : world (C := C)) t g w', is_Some (threads w !! last) ->
    flush_thread fl malloc_usable_size drawn_size w t g = Done w' -> is_Some (threads w' !! last)) as Hf.
  { intros w0 t g w1 H0 E0. unfold flush_thread in E0. destruct (threads w0 !! t) as [b|]; [|by injection E0 as <-].
    destruct (flush_event_buffer _ _ _ _ _ _ _) as [[[q b'] o]| |]; [|done|done]. cbn [mbind result_bind] in E0. injection E0 as <-.
    cbn [threads]. apply lookup_insert_is_Some'. by right. }
  assert (forall (w : world (C := C)) ws w', is_Some (threads w !! last) -> store_event w last ws = Some w' -> is_Some (threads w' !! last)) as Hs.
  { intros w0 ws w1 H0 E0. unfold store_event in E0. destruct (threads w0 !! last); [|done]. cbn [mbind option_bind] in E0.
    destruct (EventBuffer.append _ _); [|done]. cbn [mbind option_bind] in E0. injection E0 as <-. cbn [threads]. rewrite lookup_insert_eq. by eexists. }
  destruct a; try done; cbn [flushing Pipeline.exec] in *; [destruct Ha as [-> _]|by eapply Hf].
  unfold fire in E. destruct (store_event w last ws) eqn:E1; [injection E as <-; by eapply Hs|].
  destruct (flush_thread _ _ _ _ _ _) as [w1| |] eqn:E2; [|done|done]. cbn [mbind result_bind] in E.
  destruct (store_event w1 last ws) eqn:E3; [|done]. injection E as <-. eapply Hs; [|done]. by eapply Hf.
Qed.

(** One action of the closure, from a drained state. *)
Lemma flushing_returns last w a : inv w [] [] -> last_id (qs w) + 1 < 2 ^ 31 - 1 -> is_Some (threads w !! last) -> flushing last a ->
  returns (exec w a) (fun w' => short (qs w) (qs w') /\ compressors w' = compressors w).
Proof.
  intros J Hid Hl Ha. destruct a; try done; cbn [Pipeline.exec flushing] in *; [destruct Ha as [-> Ha]; by apply fire_returns|by apply flush_returns].
Qed.

Lemma drain_inv w fq cq : inv w fq cq -> drained w = true -> inv w [] [] /\ hand w = None /\ works (compressors w) = [].
Proof. intros J Hd. by destruct (drained_spec w fq cq Hd (inv_queues _ _ _ _ _ _ _ _ J)) as (-> & -> & Hh & Hw). Qed.

Lemma externals_internal l l' : internals l -> externals (l ++ l') = externals l'.
Proof. induction 1 as [|a l Ha Hl IH]; [done|]. unfold externals in *. cbn [app List.filter]. by rewrite Ha. Qed.

(** The actions of the closure happen, each when the queues are empty. *)
Lemma flushing_run last acts w :
  invs w -> (async_compress fl = true -> compressors w <> []) -> is_Some (threads w !! last) -> Forall (flushing last) acts ->
  credit w + 2 * Z.of_nat (length acts) < 2 ^ 31 - 1 ->
  exists l w', externals l = acts /\ run w l = Some w' /\ drained w' = true /\ length (compressors w') = length (compressors w).
Proof.
  intros J Hne Hlive Hacts. revert w J Hne Hlive. induction Hacts as [|a acts Ha Hacts IH]; intros w (fq & cq & J) Hne Hlive Hcr; cbn [length] in Hcr.
  all: destruct (drain_exists fl malloc_usable_size drawn_size encode Good usable_ge encode_good encode_total (S (Z.to_nat (rank w))) w fq cq)
    as (l0 & w0 & fq0 & cq0 & Hl0 & Hr0 & Hd0 & Hth0 & _ & J0 & Hlen0 & Hcr0); [lia|done|done|lia|].
  - exists l0, w0. split_and!; try done. rewrite <- (app_nil_r l0). by apply externals_internal.
  - destruct (drain_inv w0 fq0 cq0 J0 Hd0) as (J1 & _ & Hw0). rewrite <- Hth0 in Hlive.
    assert (credit w0 = last_id (qs w0)) as Ec.
    { unfold credit. destruct (queue_lengths _ _ _ (inv_queues _ _ _ _ _ _ _ _ J1)) as [_ ->]. rewrite Hw0. simpl. lia. }
    pose proof (flushing_returns last w0 a J1 ltac:(lia) Hlive Ha) as Hex. destruct (exec w0 a) as [w1| |] eqn:E; [|done|done].
    destruct Hex as [Hsh Hco]. destruct (short_credit w0 w1 Hsh Hco Hw0) as [Hc1 Hid1].
    pose proof (inv_numbered _ _ _ _ _ _ _ _ J1) as Hn0. unfold numbered in Hn0.
    destruct (IH w1) as (l & w' & He & Hr & Hd & Hlen).
    + eapply (exec_invs w0 a); [by exists [], []|done|unfold numbered; lia].
    + rewrite Hco. intros Ha0 E0. specialize (Hne Ha0). rewrite E0 in Hlen0. by destruct (compressors w).
    + apply (live_keeps last w0 a); [done|by left|done].
    + lia.
    + exists (l0 ++ a :: l), w'. split_and!; [|rewrite run_app, Hr0; cbn [mbind option_bind PipelineTheorems.run]; rewrite E|done|congruence].
      * rewrite externals_internal by done. unfold externals in *. cbn [List.filter]. rewrite (flushing_external _ _ Ha). cbn [negb]. by rewrite He.
      * unfold numbered_b. by rewrite (proj2 (Z.leb_le _ _)), (proj2 (Z.ltb_lt _ _)) by lia.
Qed.

(** Of a drained pipeline a compression thread only has to release the owner
    of its last buffer. *)
Lemma release_idle w i : invs w -> drained w = true ->
  exists w', run w [CompressorRelease i] = Some w' /\ invs w' /\ drained w' = true /\ compressor_idle i w' = true.
Proof.
  intros J Hd. pose proof J as (fq & cq & J0). pose proof (inv_numbered _ _ _ _ _ _ _ _ J0) as Hn.
  destruct (drain_inv w fq cq J0 Hd) as (_ & _ & Hw).
  assert (qs (compressor_release w i) = qs w /\ hand (compressor_release w i) = hand w /\ works (compressors (compressor_release w i)) = [] /\
    compressor_idle i (compressor_release w i) = true) as (Hq & Hh & Hwk & Hi).
  { unfold compressor_release, compressor_idle. destruct (compressors w !! i) as [[c [|b|o]]|] eqn:E; cbn [qs hand compressors]; rewrite ?E; try done.
    - rewrite (works_split _ _ _ E) in Hw. by apply app_nil in Hw as [_ ?].
    - split_and!; [done|done| |by rewrite list_lookup_insert_eq by (by eapply lookup_lt_Some)].
      rewrite (works_insert _ _ _ _ E). by rewrite (works_split _ _ _ E) in Hw. }
  exists (compressor_release w i). cbn [PipelineTheorems.run Pipeline.exec]. unfold numbered_b. rewrite Hq.
  unfold numbered in Hn. rewrite (proj2 (Z.leb_le _ _)), (proj2 (Z.ltb_lt _ _)) by lia. split_and!; [done| | |done].
  - eapply (exec_invs w (CompressorRelease i)); [done|done|]. unfold numbered. by rewrite Hq.
  - unfold drained in *. rewrite Hw in Hd. by rewrite Hq, Hh, Hwk.
Qed.

Lemma wait_releases m k w rest ls : invs w -> drained w = true ->
  (forall w1, invs w1 -> drained w1 = true -> exists w', wait_for rest w1 ls = Some w') ->
  exists w', wait_for ((compressor_idle <$> seq k m) ++ rest) w (((fun i => [CompressorRelease i]) <$> seq k m) ++ ls) = Some w'.
Proof.
  intros J Hd Hrest. revert k w J Hd. induction m as [|m IH]; intros k w J Hd; cbn [seq fmap list_fmap app]; [by apply Hrest|].
  destruct (release_idle w k J Hd) as (w1 & Hr & J1 & Hd1 & Hi). cbn [EventBuffersFlushAll.wait_for]. rewrite Hr. cbn [mbind option_bind].
  rewrite Hi. by apply IH.
Qed.

Lemma wait_returns n w : invs w -> drained w = true ->
  exists ls w', internals (concat ls) /\ wait_for (flush_conditions n) w ls = Some w'.
Proof.
  intros J Hd. exists ([] :: ((fun i => [CompressorRelease i]) <$> seq 0 n) ++ [[]; []]).
  assert (forall w : world (C := C), drained w = true -> EventBufferList.is_empty (compression_queue (qs w)) = true /\
    EventBufferList.is_empty (flush_queue (qs w)) = true /\ bool_decide (hand w = None) = true) as Hdr.
  { intros w0 H. unfold drained in H. by apply andb_prop in H as [[[? ?]%andb_prop ?]%andb_prop ?]. }
  destruct (wait_releases n 0 w [fun w => EventBufferList.is_empty (flush_queue (qs w)); fun w => bool_decide (hand w = None)] [[]; []] J Hd)
    as [w' Hw'].
  - intros w1 J1 Hd1. destruct (Hdr w1 Hd1) as (_ & Hf & Hh). cbn [EventBuffersFlushAll.wait_for PipelineTheorems.run mbind option_bind].
    rewrite Hf, Hh. by eexists.
  - exists w'. split.
    + cbn [concat app]. rewrite concat_app. apply Forall_app. split; [|done]. apply Forall_concat, Forall_fmap, Forall_true.
      intros i. by apply Forall_singleton.
    + unfold flush_conditions. cbn [EventBuffersFlushAll.wait_for PipelineTheorems.run mbind option_bind]. by rewrite (proj1 (Hdr w Hd)).
Qed.

Lemma flush_all_flushing kind tlab fillers last visited :
  (forall t, Forall small_event (fillers t)) -> Forall (flushing last) (flush_all kind tlab fillers last visited).
Proof.
  intros Hf. assert (forall t, Forall (flushing last) (do_thread0 kind tlab fillers last t)) as H0.
  { intros t. unfold do_thread0. apply Forall_app. split; [|by apply Forall_singleton]. case_match; [|done].
    apply Forall_fmap. eapply Forall_impl; [apply Hf|]. by split. }
  apply Forall_app. split; [|by apply H0]. apply Forall_concat, Forall_fmap, Forall_true. intros t. unfold compose, do_thread. by case_match.
Qed.


End Progress.

End Flushed.

(** Two threads with events in their buffers; the second one flushes, and the
    rest of an allocation buffer is filled. *)
Definition demo_kind (t : Z) : EventsRuntime.thread_kind := EventsRuntime.ThreadKind (t =? 2) false false false (t =? 1).
Definition demo_fillers (t : Z) : list (list Z) := if t =? 1 then [[5; 6]] else [].


End FlushAllSpec.
