(* ===== verification/EventPointers.v ===== *)
(** * The pointers of an object ([prims/EventPointers.hpp], [prims/EventPointers.cpp])

    Pointers are collected one by one and fired in events of at most twelve,
    relative to the previous one where the distance fits into 32 bits. *)

From S2P Require Import Prelude EventPointerList EventsRuntime.
From Stdlib Require Import ZArith Lia.

(** ** [EventsGCRuntime]: events with pointers *)
Module EventsGCRuntimePtr.
Import EventType EventsRuntime.

Section Fire.
Variable TraceObjectsInsertAnchors : bool.
Variable rel_addr_base : Z.

Definition fire_gc_move_ptr (event referee from_addr to_space : Z) (l : EventPointerList.ptr_list) :
    option (EventsRuntime.event * EventPointerList.ptr_list) :=
  if event =? EVENTS_GC_MOVE_FAST then fire_gc_move_fast_ptr TraceObjectsInsertAnchors rel_addr_base from_addr to_space l
  else fire_gc_move_slow_ptr TraceObjectsInsertAnchors event from_addr referee l.

Definition fire_gc_ptr (event obj : Z) (l : EventPointerList.ptr_list) :
    option (EventsRuntime.event * EventPointerList.ptr_list) :=
  fire_gc_obj_ptr TraceObjectsInsertAnchors event obj l.

End Fire.

End EventsGCRuntimePtr.

Module EventPointers.
Import EventType EventsRuntime.

Record pointers := Pointers {
  event : Z;
  ptr_list : EventPointerList.ptr_list;
  obj : Z;
  from_addr : Z;
  obj_is_inside_heap : bool;
  to_space : Z;
  is_clean : bool;
  last_referent : Z;
}.

(** The constructor leaves [last_referent] undefined; here it is 0. *)
Definition make : pointers := Pointers (-1) EventPointerList.make 0 NO_ENCODED_FROM_ADDR false NO_TO_SPACE false 0.

Definition set_meta (s : pointers) (event obj : Z) (inside : bool) (from_addr to_space : Z) (clean : bool) : pointers :=
  Pointers event (ptr_list s) obj from_addr inside to_space clean 0.

Definition set_list (s : pointers) (l : EventPointerList.ptr_list) : pointers :=
  Pointers (event s) l (obj s) (from_addr s) (obj_is_inside_heap s) (to_space s) (is_clean s) (last_referent s).

Definition set_new_referent (s : pointers) (offset : Z) : pointers * Z :=
  (Pointers (event s) (ptr_list s) (obj s) (from_addr s) (obj_is_inside_heap s) (to_space s) (is_clean s) offset,
   s64 (offset - last_referent s)).

(** [pointer_delta]: an unsigned difference. *)
Definition pointer_delta (left right : Z) : Z := u64 (left - right) / HeapWordSize.

Section EventPointers.
Variable TraceObjectsInsertAnchors : bool.
Variable rel_addr_base : Z.

(** The state and the events fired; [None] is an access outside of the list. *)
Definition flush (s : pointers) : option (pointers * list EventsRuntime.event) :=
  '(s, fired) ←
    (if (event s =? EVENTS_GC_MOVE_FAST) || (event s =? EVENTS_GC_MOVE_SLOW) || (event s =? EVENTS_GC_KEEP_ALIVE) then
       '(e, l) ← EventsGCRuntimePtr.fire_gc_move_ptr TraceObjectsInsertAnchors rel_addr_base (event s) (obj s)
         (from_addr s) (to_space s) (ptr_list s);
       Some (Pointers EVENTS_GC_PTR_EXTENSION l (obj s) NO_ENCODED_FROM_ADDR (obj_is_inside_heap s) NO_TO_SPACE
         (is_clean s) (last_referent s), [e])
     else if 0 <? EventPointerList.get_size (ptr_list s) then
       '(e, l) ← EventsGCRuntimePtr.fire_gc_ptr TraceObjectsInsertAnchors (event s) (obj s) (ptr_list s);
       Some (set_list s l, [e])
     else Some (s, []));
  Some (Pointers (event s) (EventPointerList.clear (ptr_list s)) (obj s) (from_addr s) (obj_is_inside_heap s)
    (to_space s) (is_clean s) 0, fired).

Definition add_ptr (s : pointers) (p kind : Z) : option pointers :=
  l ← EventPointerList.add (ptr_list s) p kind; Some (set_list s l).

(** The second half of [add], after the list was flushed if it was full. *)
Definition encode_ptr (s : pointers) (p : Z) : option pointers :=
  if p =? 0 then add_ptr s 0 EventPointerList.NULL_PTR
  else if obj_is_inside_heap s then
    let '(s, offset) := set_new_referent s (s64 (pointer_delta (obj s) p)) in
    let cmp_offset := if offset <? 0 then s64 (Z.lnot offset + 1) else offset in
    if cmp_offset .& 18446744071562067968 =? 0 then
      if negb (is_clean s) then add_ptr s (u64 offset) EventPointerList.RELATIVE_PTR else Some s
    else if negb (is_clean s) then add_ptr s p EventPointerList.ABSOLUTE_PTR else Some s
  else add_ptr s p EventPointerList.ABSOLUTE_PTR.

Definition add (s : pointers) (p : Z) : option (pointers * list EventsRuntime.event) :=
  '(s, fired) ←
    (if EventPointerList.get_size (ptr_list s) =? EventPointerList.MAX_CAPACITY then flush s else Some (s, []));
  s ← encode_ptr s p;
  Some (s, fired).

Definition clear (s : pointers) : pointers := set_list s (EventPointerList.clear (ptr_list s)).

(** The caller adds the pointers of an object one after the other. *)
Fixpoint add_all (s : pointers) (ps : list Z) : option (pointers * list EventsRuntime.event) :=
  match ps with
  | [] => Some (s, [])
  | p :: ps => '(s, e1) ← add s p; '(s, e2) ← add_all s ps; Some (s, e1 ++ e2)
  end.

Definition record_pointers (s : pointers) (ps : list Z) : option (pointers * list EventsRuntime.event) :=
  '(s, e1) ← add_all s ps; '(s, e2) ← flush s; Some (s, e1 ++ e2).

End EventPointers.

End EventPointers.

(** ** Recording roots *)

Module EventRoots.
Import EventsRuntime.

(** The caller adds roots one after the other and flushes the list; a list
    that is handed out is fired as an event. *)
Fixpoint add_all_roots (l : EventRootPointerList.root_list) (rs : list (Z * EventRootPointerList.root)) :
    EventRootPointerList.root_list * list EventRootPointerList.root_list :=
  match rs with
  | [] => (l, [])
  | r :: rs =>
      let '(l, out) := EventRootPointerList.add l r.1 r.2 in
      let '(l, outs) := add_all_roots l rs in (l, option_list out ++ outs)
  end.

Definition record_roots (anchors : bool) (rs : list (Z * EventRootPointerList.root)) : list event :=
  let '(l, outs) := add_all_roots EventRootPointerList.make rs in
  let '(_, out) := EventRootPointerList.flush l in
  fire_gc_root_ptrs anchors <$> (outs ++ option_list out).

End EventRoots.
