(* ===== verification/RootPointers.v ===== *)
(** * The roots of a collection
      ([EventsGCRuntime::write_root_pointers], [prims/ClosureCollection.cpp])

    A snapshot of what the VM iterates over at a safepoint, and the roots the
    closures add for it, in the order of the code. *)

From S2P Require Import Prelude EventPointerList EventsRuntime EventPointers.
From Stdlib Require Import ZArith Lia.

Module RootPointers.
Import EventRootPointerList.

(** ** The snapshot *)

(** A static field: its offset, whether it holds a reference, its value. *)
Record static_field := StaticField { is_static : bool; is_reference : bool; offset : Z; field_value : Z }.

Record klass := Klass { is_instance : bool; java_mirror : Z; klass_type_id : Z; fields : list static_field }.

Record class_loader_data := ClassLoaderData {
  class_loader : Z;
  loader_name : list Z;
  dependencies : list Z;
  handles : list Z;
  classes : list klass;
}.

Record method := Method { method_holder : Z; method_idnum : Z }.

(** A virtual frame: of a method, with the slots that hold references and
    their values; or external, with the handles of an entry frame. *)
Inductive vframe :=
| javaVFrame (is_native : bool) (m : method) (locals : list (bool * Z))
| externalVFrame (entry_handles : option (list Z)).

Record java_thread := JavaThread {
  threadObj : Z;
  thread_id : Z;
  has_last_Java_frame : bool;
  is_visible : bool;
  vframes : list vframe;
  active_handles : list Z;
  internal_oops : list Z;
}.

Record nmethod := NMethod { nmethod_method : option method; nmethod_oops : list Z }.

Record vm := VM {
  class_loader_data_graph : list class_loader_data;
  always_strong_classes : list klass;
  basic_type_classes : list (list klass);
  threads : list java_thread;
  vm_thread_id : Z;
  vm_thread_oops : list Z;
  code_cache : list nmethod;
  jni_globals : list (Z * bool);
  jni_weak_globals : list Z;
  universe_oops : list Z;
  system_dictionary_oops : list Z;
  busy_monitors : list Z;
  interned_strings : list Z;
  flat_profiler_oops : list Z;
  management_oops : list Z;
  jvmti_oops : list Z;
  deleted_handle : Z;
}.

(** ** The closures *)

Definition OtherOopClosure (rootType : RootType) (o : Z) : Z * root := (o, add_other rootType).

Definition ClassesAndStaticFieldsKlassClosure (k : klass) : list (Z * root) :=
  if is_instance k then
    (java_mirror k, add_class (klass_type_id k)) ::
    ((fun f => (field_value f, add_static_field (klass_type_id k) (offset f))) <$>
       filter (fun f => is_static f && is_reference f) (fields k))
  else [].

Definition ClassLoaderDataGraphClosure (cld : class_loader_data) : list (Z * root) :=
  (class_loader cld, add_class_loader (loader_name cld)) ::
  (OtherOopClosure CLASS_LOADER_INTERNAL_ROOT <$> dependencies cld) ++
  (OtherOopClosure CLASS_LOADER_INTERNAL_ROOT <$> handles cld) ++
  concat (ClassesAndStaticFieldsKlassClosure <$> classes cld).

(** An array class and the array classes of it. *)
Definition process_basic_data_type_arrays (ranks : list klass) : list (Z * root) :=
  (fun k => (java_mirror k, add_class (klass_type_id k))) <$> ranks.

Section Closures.
Variable deleted : Z.

Definition handle_ok (o : Z) : bool := negb (o =? 0) && negb (o =? deleted).

Definition VMInternalThreadDataOopClosure (threadId : Z) (oops : list Z) : list (Z * root) :=
  (fun o => (o, add_vm_internal_thread_data threadId)) <$> filter handle_ok oops.

Definition JNILocalsOopClosure (threadId : Z) (oops : list Z) : list (Z * root) :=
  (fun o => (o, add_jni_local threadId)) <$> filter handle_ok oops.

(** With each handle, whether it refers to an instance or an array. *)
Definition JNIGlobalsOopClosure (oops : list (Z * bool)) : list (Z * root) :=
  (fun o => (o.1, add_jni_global false)) <$> filter (fun o => handle_ok o.1 && o.2) oops.

Definition JNIWeakGlobalsOopClosure (oops : list Z) : list (Z * root) := (fun o => (o, add_jni_global true)) <$> oops.

Definition CodeBlobOopClosure (n : nmethod) : list (Z * root) :=
  match nmethod_method n with
  | Some m => (fun o => (o, add_code_blob (method_holder m) (method_idnum m))) <$> nmethod_oops n
  | None => []
  end.

(** ** Threads *)

(** The locals of a frame of the method [m], by slot. *)
Definition local_variables (threadId : Z) (m : method) (locals : list (bool * Z)) : list (Z * root) :=
  concat (imap (fun slot l => if (l.1 : bool) && negb (l.2 =? 0)
    then [(l.2, add_local_variable threadId (method_holder m) (method_idnum m) (Z.of_nat slot))] else []) locals).

(** [ThreadStackTrace]: the methods of the Java frames. *)
Definition stack_trace (vfs : list vframe) : list method :=
  omap (fun vf => match vf with javaVFrame _ m _ => Some m | externalVFrame _ => None end) vfs.

(** Frame [i] of the stack trace is taken together with virtual frame [i]. *)
Fixpoint frames (threadId : Z) (active : list Z) (top_frame : bool) (last_entry_frame : option (list Z))
    (trace : list method) (vfs : list vframe) : list (Z * root) :=
  match trace, vfs with
  | m :: trace, javaVFrame false _ locals :: vfs =>
      local_variables threadId m locals ++ frames threadId active false last_entry_frame trace vfs
  | m :: trace, javaVFrame true _ _ :: vfs =>
      (if top_frame then JNILocalsOopClosure threadId active
       else match last_entry_frame with Some hs => JNILocalsOopClosure threadId hs | None => [] end) ++
      frames threadId active false last_entry_frame trace vfs
  | m :: trace, externalVFrame entry :: vfs =>
      frames threadId active false (match entry with Some hs => Some hs | None => last_entry_frame end) trace vfs
  | _, _ => []
  end.

Definition thread_roots (t : java_thread) : list (Z * root) :=
  (threadObj t, add_vm_internal_thread_data (thread_id t)) ::
  (if has_last_Java_frame t then
     if negb (threadObj t =? 0) && is_visible t then
       frames (thread_id t) (active_handles t) true None (stack_trace (vframes t)) (vframes t)
     else []
   else JNILocalsOopClosure (thread_id t) (active_handles t)).

End Closures.

(** ** All roots *)

Definition write_root_pointers (v : vm) : list (Z * root) :=
  concat (ClassLoaderDataGraphClosure <$> class_loader_data_graph v) ++
  concat (ClassesAndStaticFieldsKlassClosure <$> always_strong_classes v) ++
  concat (process_basic_data_type_arrays <$> basic_type_classes v) ++
  concat (thread_roots (deleted_handle v) <$> threads v) ++
  concat ((fun t => VMInternalThreadDataOopClosure (deleted_handle v) (thread_id t) (internal_oops t)) <$> threads v) ++
  VMInternalThreadDataOopClosure (deleted_handle v) (vm_thread_id v) (vm_thread_oops v) ++
  concat (CodeBlobOopClosure <$> code_cache v) ++
  JNIGlobalsOopClosure (deleted_handle v) (jni_globals v) ++
  JNIWeakGlobalsOopClosure (jni_weak_globals v) ++
  (OtherOopClosure UNIVERSE_ROOT <$> universe_oops v) ++
  (OtherOopClosure SYSTEM_DICTIONARY_ROOT <$> system_dictionary_oops v) ++
  (OtherOopClosure BUSY_MONITOR_ROOT <$> busy_monitors v) ++
  (OtherOopClosure INTERNED_STRING_ROOT <$> interned_strings v) ++
  (OtherOopClosure FLAT_PROFILER_ROOT <$> flat_profiler_oops v) ++
  (OtherOopClosure MANAGEMENT_ROOT <$> management_oops v) ++
  (OtherOopClosure JVMTI_ROOT <$> jvmti_oops v).

(** The events of these roots. *)
Definition fire_root_pointers (anchors : bool) (v : vm) : list EventsRuntime.event :=
  EventRoots.record_roots anchors (write_root_pointers v).

End RootPointers.

(** ** The locals of a thread *)

Module RootPointersSpec.
Import EventRootPointerList RootPointers.

Definition is_java (vf : vframe) : Prop := match vf with javaVFrame _ _ _ => True | externalVFrame _ => False end.

Lemma local_variable_elem tid m locals r :
  r ∈ local_variables tid m locals <->
  exists slot o, locals !! slot = Some (true, o) /\ o <> 0 /\
    r = (o, add_local_variable tid (method_holder m) (method_idnum m) (Z.of_nat slot)).
Proof.
  unfold local_variables. rewrite list_elem_of_In, in_concat. split.
  - intros (l & Hl & Hr). apply list_elem_of_In in Hl, Hr. apply elem_of_lookup_imap in Hl as (slot & [ref o] & -> & Hs). cbn in Hr.
    destruct ref; [|by apply elem_of_nil in Hr]. destruct (Z.eqb_spec o 0); [by apply elem_of_nil in Hr|].
    apply list_elem_of_singleton in Hr as ->. by exists slot, o.
  - intros (slot & o & Hs & Ho & ->). eexists. split; [apply list_elem_of_In, elem_of_lookup_imap; by exists slot, (true, o)|].
    cbn. destruct (Z.eqb_spec o 0); [done|]. by left.
Qed.

Definition is_local (r : Z * root) : Prop := match r.2 with add_local_variable _ _ _ _ => True | _ => False end.

Lemma jni_locals_no_local deleted tid hs r : r ∈ JNILocalsOopClosure deleted tid hs -> ~ is_local r.
Proof. intros H. apply list_elem_of_fmap in H as (o & -> & _). by intros []. Qed.

Lemma frames_elem deleted tid active top entry vfs r :
  Forall is_java vfs -> is_local r ->
  r ∈ frames deleted tid active top entry (stack_trace vfs) vfs <->
  exists i m locals, vfs !! i = Some (javaVFrame false m locals) /\ r ∈ local_variables tid m locals.
Proof.
  intros H Hr. revert top entry. induction H as [|vf vfs Hvf H IH]; intros top entry.
  - cbn. split; [intros E; by apply elem_of_nil in E|by intros (i & m & locals & E & _)].
  - destruct vf as [native m locals|]; [|done]. cbn [stack_trace omap list_omap].
    assert (forall rest, r ∈ rest ++ frames deleted tid active false entry (stack_trace vfs) vfs <->
      r ∈ rest \/ exists i m' locals', vfs !! i = Some (javaVFrame false m' locals') /\ r ∈ local_variables tid m' locals') as Hrest.
    { intros rest. rewrite elem_of_app. by rewrite IH. }
    destruct native; cbn [frames]; rewrite Hrest; split.
    + intros [Hj|(i & m' & locals' & Hi & Hl)]; [|by exists (S i), m', locals'].
      exfalso. destruct top; [by apply jni_locals_no_local in Hj|]. destruct entry; [by apply jni_locals_no_local in Hj|by apply elem_of_nil in Hj].
    + intros ([|i] & m' & locals' & Hi & Hl); [done|]. right. by exists i, m', locals'.
    + intros [Hj|(i & m' & locals' & Hi & Hl)]; [by exists O, m, locals|by exists (S i), m', locals'].
    + intros ([|i] & m' & locals' & Hi & Hl); [injection Hi as <- <-; by left|]. right. by exists i, m', locals'.
Qed.

(** The references in the locals of a thread whose stack has only Java
    frames are reported completely and correctly: a local variable root is
    reported exactly for every slot of every non-native frame that holds an
    object, with the method of that frame. *)
Theorem locals_reported deleted t o c m s :
  has_last_Java_frame t = true -> threadObj t <> 0 -> is_visible t = true -> Forall is_java (vframes t) ->
  (o, add_local_variable (thread_id t) c m s) ∈ thread_roots deleted t <->
  exists i locals slot, vframes t !! i = Some (javaVFrame false (Method c m) locals) /\
    locals !! slot = Some (true, o) /\ o <> 0 /\ s = Z.of_nat slot.
Proof.
  intros Hj Ho Hv Hf. unfold thread_roots. rewrite Hj, Hv, (proj2 (Z.eqb_neq _ _)) by done. cbn [negb andb].
  rewrite elem_of_cons, frames_elem by done. split.
  - intros [E|(i & [c' m'] & locals & Hi & Hl)]; [done|]. apply local_variable_elem in Hl as (slot & o' & Hs & Ho' & E).
    injection E as -> -> -> ->. by exists i, locals, slot.
  - intros (i & locals & slot & Hi & Hs & Ho' & ->). right. exists i, (Method c m), locals. split; [done|].
    apply local_variable_elem. by exists slot, o.
Qed.

Definition demo_thread : java_thread :=
  JavaThread 64 1 true true
    [javaVFrame true (Method 7 1) []; javaVFrame false (Method 7 2) [(true, 0); (false, 5); (true, 4096)]] [128; 0] [].

Lemma locals_reported_witness :
  (4096, add_local_variable (thread_id demo_thread) 7 2 2) ∈ thread_roots 0 demo_thread <->
  exists i locals slot, vframes demo_thread !! i = Some (javaVFrame false (Method 7 2) locals) /\
    locals !! slot = Some (true, 4096) /\ 4096 <> 0 /\ 2 = Z.of_nat slot.
Proof.
  apply (locals_reported 0 demo_thread 4096 7 2 2); [done|done|done|]. by repeat constructor.
Defined.

(** An entry frame, where native code calls into Java, shifts the stack
    trace against the frames: the locals of the frame that called the native
    code are attributed to its caller's method, and those of the last frame
    are not reported at all. *)
Theorem entry_frame_shifts_locals deleted tid active m1 l1 hs m2 l2 m3 l3 :
  let vfs := [javaVFrame false m1 l1; externalVFrame hs; javaVFrame false m2 l2; javaVFrame false m3 l3] in
  frames deleted tid active true None (stack_trace vfs) vfs = local_variables tid m1 l1 ++ local_variables tid m3 l2.
Proof. cbn. by rewrite app_nil_r. Qed.

End RootPointersSpec.
