(* ===== verification/Dict.v ===== *)
(** * The dictionary of HotSpot ([libadt/dict.cpp])

    The hash table that [AllocationSites] uses: buckets with linear search
    that are split when there are more elements than buckets. *)

From stdpp Require Import gmap.
From S2P Require Import Prelude.
From Stdlib Require Import ZArith Lia.

Module Dict.

Section Dict.
Context {K V : Type}.

(** [_bin]: the key-value pairs of each bucket; the capacity [_max] of a
    bucket, which is doubled as needed, is left out. *)
Record dict := mk { _size : Z; _cnt : Z; _bin : list (list (K * V)) }.

(** [int i = 16; while (i < size) i <<= 1] for the default size. *)
Definition make : dict := mk 16 0 (replicate 16 []).

Definition slot (size hash : Z) : nat := Z.to_nat (u32 hash .& (size - 1)).

(** The last pair moves to the place of the removed one. *)
Definition remove_at (j : nat) (b : list (K * V)) : list (K * V) :=
  let cnt := (length b - 1)%nat in
  take cnt (match b !! cnt with Some kv => <[j := kv]> b | None => b end).

(** [_hash] *)
Variable hash : K -> Z.

(** The pairs from index [j] on of bucket [i] that do not belong there any
    more move to the bucket [nb]. *)
Fixpoint rehash (fuel : nat) (size : Z) (i j : nat) (b nb : list (K * V)) : list (K * V) * list (K * V) :=
  match fuel, b !! j with
  | S fuel, Some kv =>
      if (slot size (hash kv.1) =? i)%nat then rehash fuel size i (S j) b nb
      else rehash fuel size i j (remove_at j b) (nb ++ [kv])
  | _, _ => (b, nb)
  end.

Definition doubhash (d : dict) : dict :=
  let size := u32 (_size d ≪ 1) in
  mk size (_cnt d) (imap (fun i b => (rehash (length b) size i 0 b []).1) (_bin d) ++
                    imap (fun i b => (rehash (length b) size i 0 b []).2) (_bin d)).

(** The index of the first pair whose key compares equal. *)
Fixpoint index_of (eq : K -> bool) (b : list (K * V)) : option nat :=
  match b with
  | [] => None
  | kv :: b => if eq kv.1 then Some O else S <$> index_of eq b
  end.

Definition bucket (d : dict) (h : Z) : list (K * V) := default [] (_bin d !! slot (_size d) h).

(** [eq] is [!_cmp(key, .)], [h] is [_hash(key)].  The prior value is
    returned. *)
Definition Insert (d : dict) (h : Z) (eq : K -> bool) (key : K) (val : V) : dict * option V :=
  let b := bucket d h in
  match index_of eq b with
  | Some j => (mk (_size d) (_cnt d) (<[slot (_size d) h := <[j := (key, val)]> b]> (_bin d)), snd <$> b !! j)
  | None =>
      let d := mk (_size d) (u32 (_cnt d + 1)) (_bin d) in
      let d := if _size d <? _cnt d then doubhash d else d in
      (mk (_size d) (_cnt d) (<[slot (_size d) h := bucket d h ++ [(key, val)]]> (_bin d)), None)
  end.

Definition Delete (d : dict) (h : Z) (eq : K -> bool) : dict * option V :=
  let b := bucket d h in
  match index_of eq b with
  | Some j => (mk (_size d) (u32 (_cnt d - 1)) (<[slot (_size d) h := remove_at j b]> (_bin d)), snd <$> b !! j)
  | None => (d, None)
  end.

(** [operator []] *)
Definition find (d : dict) (h : Z) (eq : K -> bool) : option V :=
  let b := bucket d h in
  j ← index_of eq b; snd <$> b !! j.

(** [Clear] *)
Definition Clear (d : dict) : dict := mk (_size d) 0 ((fun _ => []) <$> _bin d).

(** The order of [DictI]: bucket by bucket, each from its end. *)
Definition iterate (d : dict) : list (K * V) := concat (reverse <$> _bin d).

End Dict.

Arguments dict : clear implicits.

End Dict.

(** ** What the operations do to the pairs *)

Module DictSpec.
Import Dict.

Section Spec.
Context {K V : Type}.
Variable hash : K -> Z.

(** The pairs, in no particular order. *)
Definition pairs (d : dict K V) : list (K * V) := concat (_bin d).

Record wf (d : dict K V) : Prop := {
  wf_size : exists k, 0 <= k < 32 /\ _size d = 2 ^ k;
  wf_bins : Z.of_nat (length (_bin d)) = _size d;
  wf_slot : forall i b kv, _bin d !! i = Some b -> kv ∈ b -> slot (_size d) (hash kv.1) = i;
  wf_cnt : _cnt d = Z.of_nat (length (pairs d));
}.

Lemma slot_mod k h : 0 <= k -> slot (2 ^ k) h = Z.to_nat (u32 h mod 2 ^ k).
Proof. intros Hk. unfold slot. replace (2 ^ k - 1) with (Z.ones k) by (rewrite Z.ones_equiv; lia). by rewrite Z.land_ones. Qed.

Lemma slot_lt k h : 0 <= k -> Z.of_nat (slot (2 ^ k) h) < 2 ^ k.
Proof. intros Hk. rewrite slot_mod by done. pose proof (Z.mod_pos_bound (u32 h) (2 ^ k) ltac:(lia)). lia. Qed.

(** One more bit of the hash code. *)
Lemma slot_double k h : 0 <= k ->
  slot (2 ^ (k + 1)) h = slot (2 ^ k) h \/ Z.of_nat (slot (2 ^ (k + 1)) h) = Z.of_nat (slot (2 ^ k) h) + 2 ^ k.
Proof.
  intros Hk. rewrite !slot_mod by lia. rewrite Z.pow_add_r, Z.pow_1_r by lia. rewrite Z.rem_mul_r by lia.
  pose proof (Z.mod_pos_bound (u32 h) (2 ^ k) ltac:(lia)). pose proof (Z.mod_pos_bound (u32 h / 2 ^ k) 2 ltac:(lia)).
  assert ((u32 h / 2 ^ k) mod 2 = 0 \/ (u32 h / 2 ^ k) mod 2 = 1) as [-> | ->] by lia; [left|right]; lia.
Qed.

Lemma index_of_Some (eq : K -> bool) (b : list (K * V)) j :
  index_of eq b = Some j -> exists kv, b !! j = Some kv /\ eq kv.1 = true.
Proof.
  revert j. induction b as [|kv b IH]; intros j; simpl; [done|]. destruct (eq kv.1) eqn:E; [intros [= <-]; by exists kv|].
  destruct (index_of eq b) as [i|]; [|done]. intros [= <-]. by apply IH.
Qed.

Lemma bucket_index_None (eq : K -> bool) (b : list (K * V)) kv : index_of eq b = None -> kv ∈ b -> eq kv.1 = false.
Proof.
  induction b as [|kv' b IH]; simpl; [by intros _ ?%elem_of_nil|]. destruct (eq kv'.1) eqn:E; [done|].
  destruct (index_of eq b); [done|]. intros _ [-> | H]%elem_of_cons; [done|by apply IH].
Qed.

Lemma remove_at_perm (b : list (K * V)) j kv : b !! j = Some kv -> b ≡ₚ kv :: remove_at j b.
Proof.
  intros E. pose proof (lookup_lt_Some _ _ _ E) as Hj. unfold remove_at.
  destruct (b !! (length b - 1)%nat) as [z|] eqn:Ez; [|apply lookup_ge_None in Ez; lia]. by apply fill_hole_perm.
Qed.

Lemma remove_at_length (b : list (K * V)) j kv : b !! j = Some kv -> S (length (remove_at j b)) = length b.
Proof. intros E%remove_at_perm%Permutation_length. done. Qed.

Lemma remove_at_before (b : list (K * V)) i j kv : (i < j)%nat -> b !! j = Some kv -> remove_at j b !! i = b !! i.
Proof.
  intros Hi E. pose proof (lookup_lt_Some _ _ _ E) as Hj. unfold remove_at.
  destruct (b !! (length b - 1)%nat) as [z|] eqn:Ez; [|apply lookup_ge_None in Ez; lia].
  rewrite lookup_take_lt by lia. by apply list_lookup_insert_ne; lia.
Qed.

(** *** Growing *)

Lemma rehash_spec size i fuel j (b nb : list (K * V)) :
  (length b <= j + fuel)%nat ->
  (forall n kv, (n < j)%nat -> b !! n = Some kv -> slot size (hash kv.1) = i) ->
  let '(b', nb') := rehash hash fuel size i j b nb in
  b' ++ nb' ≡ₚ b ++ nb /\ (forall kv, kv ∈ b' -> slot size (hash kv.1) = i) /\
  (forall kv, kv ∈ nb' -> kv ∈ nb \/ slot size (hash kv.1) <> i).
Proof.
  revert j b nb. induction fuel as [|fuel IH]; intros j b nb Hf Hb; cbn [rehash].
  - split_and!; [done| |by left]. intros kv [n Hn]%list_elem_of_lookup. apply (Hb n); [|done]. apply lookup_lt_Some in Hn. lia.
  - destruct (b !! j) as [kv|] eqn:Ej.
    2:{ split_and!; [done| |by left]. intros kv [n Hn]%list_elem_of_lookup. apply (Hb n); [|done].
        apply lookup_ge_None in Ej. apply lookup_lt_Some in Hn. lia. }
    destruct (Nat.eqb_spec (slot size (hash kv.1)) i) as [Hs|Hs].
    + apply IH; [lia|]. intros n kv' Hn En. destruct (decide (n = j)) as [->|]; [by simplify_eq|]. apply (Hb n); [lia|done].
    + pose proof (remove_at_length b j kv Ej) as Hl. pose proof (remove_at_perm b j kv Ej) as Hp.
      specialize (IH j (remove_at j b) (nb ++ [kv])). destruct (rehash _ _ _ _ _ _ _) as [b' nb'].
      destruct IH as (H1 & H2 & H3); [lia| |].
      { intros n kv' Hn En. rewrite (remove_at_before b n j kv Hn Ej) in En. by apply (Hb n). }
      split_and!; [|done|].
      { rewrite H1. transitivity ((kv :: remove_at j b) ++ nb); [solve_Permutation|by rewrite <- Hp]. } intros kv' [Hin|Hn]%H3; [|by right].
      apply elem_of_app in Hin as [?| ->%list_elem_of_singleton]; [by left|by right].
Qed.

Lemma concat_imap2 {A} (f : nat -> list A -> list A * list A) (l : list (list A)) :
  (forall i b, (f i b).1 ++ (f i b).2 ≡ₚ b) ->
  concat (imap (fun i b => (f i b).1) l) ++ concat (imap (fun i b => (f i b).2) l) ≡ₚ concat l.
Proof.
  revert f. induction l as [|b l IH]; intros f Hf; [done|]. cbn [imap concat]. rewrite <- (Hf 0%nat b) at 3.
  specialize (IH (fun i => f (S i)) (fun i => Hf (S i))). unfold compose in *. cbn in *. rewrite <- IH. solve_Permutation.
Qed.

Lemma doubhash_spec d :
  (exists k, 0 <= k < 31 /\ _size d = 2 ^ k) -> Z.of_nat (length (_bin d)) = _size d ->
  (forall i b kv, _bin d !! i = Some b -> kv ∈ b -> slot (_size d) (hash kv.1) = i) ->
  let d' := doubhash hash d in
  pairs d' ≡ₚ pairs d /\ _cnt d' = _cnt d /\ (exists k, 0 <= k < 32 /\ _size d' = 2 ^ k) /\
  Z.of_nat (length (_bin d')) = _size d' /\
  (forall i b kv, _bin d' !! i = Some b -> kv ∈ b -> slot (_size d') (hash kv.1) = i).
Proof.
  intros (k & Hk & Hs) Hl Hslot d'. unfold d', doubhash. cbn [_size _cnt _bin pairs].
  assert (u32 (_size d ≪ 1) = 2 ^ (k + 1)) as ->.
  { rewrite Hs, Z.shiftl_mul_pow2, <- Z.pow_add_r by lia. apply wrap_small.
    pose proof (Z.pow_lt_mono_r 2 (k + 1) 32 ltac:(lia) ltac:(lia) ltac:(lia)). lia. }
  set (f := fun i (b : list (K * V)) => rehash hash (length b) (2 ^ (k + 1)) i 0 b []).
  assert (forall i b, (f i b).1 ++ (f i b).2 ≡ₚ b /\ (forall kv, kv ∈ (f i b).1 -> slot (2 ^ (k + 1)) (hash kv.1) = i) /\
    forall kv, kv ∈ (f i b).2 -> slot (2 ^ (k + 1)) (hash kv.1) <> i) as Hf.
  { intros i b. pose proof (rehash_spec (2 ^ (k + 1)) i (length b) 0 b [] ltac:(lia) ltac:(lia)) as H. unfold f.
    destruct (rehash _ _ _ _ _ _ _) as [b' nb']. destruct H as (H1 & H2 & H3). rewrite app_nil_r in H1. split_and!; [done|done|].
    intros kv [Hin|?]%H3; [by apply elem_of_nil in Hin|done]. }
  split_and!; [|done|exists (k + 1); lia| |].
  - unfold pairs. cbn [_bin]. rewrite concat_app. apply (concat_imap2 f). intros i b. apply Hf.
  - rewrite length_app, !length_imap, Z.pow_add_r by lia. lia.
  - intros i b kv [Hi|[Hi1 Hi]]%lookup_app_Some Hin.
    + rewrite list_lookup_imap in Hi. destruct (_bin d !! i) as [b0|] eqn:Eb; [|done]. injection Hi as <-. by apply (Hf i b0).
    + rewrite length_imap in *. rewrite list_lookup_imap in Hi. destruct (_bin d !! (i - length (_bin d))%nat) as [b0|] eqn:Eb; [|done].
      injection Hi as <-. destruct (Hf (i - length (_bin d))%nat b0) as (Hp & _ & Hne). specialize (Hne kv Hin).
      assert (kv ∈ b0) as Hb0 by (rewrite <- Hp; apply elem_of_app; by right).
      pose proof (Hslot _ _ _ Eb Hb0) as Ho. rewrite Hs in Ho. destruct (slot_double k (hash kv.1) ltac:(lia)); [congruence|lia].
Qed.

(** *** The operations *)

Lemma concat_replace {A} (l : list (list A)) i b b' :
  l !! i = Some b -> exists rest, concat l ≡ₚ b ++ rest /\ concat (<[i := b']> l) ≡ₚ b' ++ rest.
Proof.
  intros E. pose proof (lookup_lt_Some _ _ _ E) as Hi. exists (concat (take i l) ++ concat (drop (S i) l)). split.
  - rewrite <- (take_drop_middle l i b E) at 1. rewrite concat_app. cbn [concat]. solve_Permutation.
  - rewrite insert_take_drop by done. rewrite concat_app. cbn [concat]. solve_Permutation.
Qed.

Lemma bucket_lookup d h : wf d -> _bin d !! slot (_size d) h = Some (bucket d h).
Proof.
  intros [(k & Hk & Hs) Hl _ _]. unfold bucket. destruct (_bin d !! _) eqn:E; [done|].
  apply lookup_ge_None in E. rewrite Hs in *. pose proof (slot_lt k h ltac:(lia)). lia.
Qed.

Lemma in_bucket d kv : wf d -> kv ∈ pairs d <-> kv ∈ bucket d (hash kv.1).
Proof.
  intros Hw. unfold pairs. rewrite list_elem_of_In, in_concat. split.
  - intros (b & [i Hb]%list_elem_of_In%list_elem_of_lookup & Hin%list_elem_of_In).
    pose proof (bucket_lookup d (hash kv.1) Hw) as E. rewrite (wf_slot _ Hw _ _ _ Hb Hin), Hb in E. by injection E as <-.
  - intros Hin. exists (bucket d (hash kv.1)). rewrite <- !list_elem_of_In. split; [|done].
    by eapply list_elem_of_lookup_2, bucket_lookup.
Qed.

Lemma bucket_pairs d h kv : wf d -> kv ∈ bucket d h -> kv ∈ pairs d.
Proof.
  intros Hw Hin. unfold pairs. rewrite list_elem_of_In, in_concat. exists (bucket d h). rewrite <- !list_elem_of_In.
  split; [by eapply list_elem_of_lookup_2, bucket_lookup|done].
Qed.

Lemma dict_find_spec d h eq :
  wf d ->
  match find d h eq with
  | Some v => exists k, (k, v) ∈ pairs d /\ eq k = true
  | None => forall kv, kv ∈ pairs d -> hash kv.1 = h -> eq kv.1 = false
  end.
Proof.
  intros Hw. unfold find. destruct (index_of eq (bucket d h)) as [j|] eqn:E; cbn [mbind option_bind].
  - apply index_of_Some in E as ([k v] & Ej & Heq). rewrite Ej. exists k. split; [|done]. eapply bucket_pairs; [done|].
    by eapply list_elem_of_lookup_2.
  - intros kv Hin Hh. apply (in_bucket d kv Hw) in Hin. rewrite Hh in Hin. by eapply bucket_index_None.
Qed.

(** A bucket is replaced by one with other pairs that belong there. *)
Lemma replace_bucket d h b' cnt :
  wf d -> (forall kv, kv ∈ b' -> kv ∈ bucket d h \/ hash kv.1 = h) -> cnt = _cnt d - Z.of_nat (length (bucket d h)) + Z.of_nat (length b') ->
  exists rest, pairs d ≡ₚ bucket d h ++ rest /\ let d' := mk (_size d) cnt (<[slot (_size d) h := b']> (_bin d)) in
    pairs d' ≡ₚ b' ++ rest /\ wf d'.
Proof.
  intros Hw Hb ->. pose proof (bucket_lookup d h Hw) as E.
  destruct (concat_replace (_bin d) (slot (_size d) h) _ b' E) as (rest & H1 & H2). exists rest. split; [done|]. split; [done|].
  destruct Hw as [Hk Hl Hs Hc]. split; cbn [_size _bin _cnt]; [done|by rewrite length_insert| |].
  - intros i b kv Hi Hin. destruct (decide (i = slot (_size d) h)) as [->|Hne].
    + rewrite list_lookup_insert_eq in Hi by (by eapply lookup_lt_Some). injection Hi as <-.
      destruct (Hb kv Hin) as [Hin'|Hh]; [by eapply Hs|by rewrite Hh].
    + rewrite list_lookup_insert_ne in Hi by done. by eapply Hs.
  - apply Permutation_length in H1, H2. unfold pairs in *. cbn [_bin]. rewrite H2, Hc, H1, !length_app. lia.
Qed.

Lemma replace_at_perm (b : list (K * V)) j kv kv' : b !! j = Some kv -> <[j := kv']> b ≡ₚ kv' :: remove_at j b.
Proof.
  intros Ej. pose proof (lookup_lt_Some _ _ _ Ej) as Hj. pose proof (delete_Permutation b j kv Ej) as H1.
  rewrite (delete_Permutation (<[j := kv']> b) j kv') by (by apply list_lookup_insert_eq). f_equiv.
  assert (delete j (<[j := kv']> b) = delete j b) as -> by (rewrite !delete_take_drop; by rewrite take_insert_ge, drop_insert_lt by lia).
  apply (Permutation_cons_inv (a := kv)). by rewrite <- H1, <- (remove_at_perm b j kv Ej).
Qed.

(** The table after making room for one more pair. *)
Definition grown (d : dict K V) : dict K V := if _size d <? _cnt d + 1 then doubhash hash d else d.

Lemma grown_spec d : wf d -> Z.of_nat (length (pairs d)) < 2 ^ 30 -> wf (grown d) /\ pairs (grown d) ≡ₚ pairs d /\ _cnt (grown d) = _cnt d.
Proof.
  intros Hw Hlen. unfold grown. destruct (Z.ltb_spec (_size d) (_cnt d + 1)) as [Hlt|]; [|done].
  destruct Hw as [(k & Hk & Hs) Hl Hslot Hc]. destruct (doubhash_spec d) as (H1 & H2 & H3 & H4 & H5); [|done|done|].
  - exists k. split; [|done]. split; [lia|]. destruct (Z.lt_ge_cases k 31); [done|].
    pose proof (Z.pow_le_mono_r 2 31 k ltac:(lia) ltac:(lia)). lia.
  - split_and!; [|done|done]. split; try done. by rewrite H2, Hc, H1.
Qed.

Lemma Insert_new d h eq key val :
  index_of eq (bucket d h) = None -> 0 <= _cnt d < 2 ^ 30 ->
  Insert hash d h eq key val =
    (mk (_size (grown d)) (_cnt d + 1) (<[slot (_size (grown d)) h := bucket (grown d) h ++ [(key, val)]]> (_bin (grown d))), None).
Proof.
  intros E Hc. unfold Insert, grown. rewrite E. cbn [_size _cnt]. assert (u32 (_cnt d + 1) = _cnt d + 1) as -> by (apply wrap_small; lia).
  by destruct (_size d <? _cnt d + 1).
Qed.

Lemma Insert_spec d h eq key val :
  wf d -> hash key = h -> Z.of_nat (length (pairs d)) < 2 ^ 30 ->
  let '(d', prior) := Insert hash d h eq key val in
  wf d' /\
  ((exists k v rest, pairs d ≡ₚ (k, v) :: rest /\ eq k = true /\ prior = Some v /\ pairs d' ≡ₚ (key, val) :: rest) \/
   (prior = None /\ pairs d' ≡ₚ (key, val) :: pairs d /\ forall kv, kv ∈ pairs d -> hash kv.1 = h -> eq kv.1 = false)).
Proof.
  intros Hw Hh Hlen. destruct (index_of eq (bucket d h)) as [j|] eqn:E.
  - unfold Insert. rewrite E. apply index_of_Some in E as ([k v] & Ej & Heq). pose proof (remove_at_perm _ _ _ Ej) as Hp.
    pose proof (replace_at_perm _ _ _ (key, val) Ej) as Hp'.
    destruct (replace_bucket d h (<[j := (key, val)]> (bucket d h)) (_cnt d) Hw) as (rest & H1 & H2 & H3).
    + intros kv. rewrite Hp'. intros [-> | Hin]%elem_of_cons; [by right|left]. rewrite Hp. by apply elem_of_cons; right.
    + rewrite length_insert. lia.
    + rewrite Ej. split; [done|]. left. exists k, v, (remove_at j (bucket d h) ++ rest). split_and!; [|done|done|].
      * rewrite H1, Hp at 1. done.
      * rewrite H2, Hp'. done.
  - rewrite Insert_new by (done || (rewrite (wf_cnt _ Hw); lia)). destruct (grown_spec d Hw Hlen) as (Hg & Hpg & Hcg).
    destruct (replace_bucket (grown d) h (bucket (grown d) h ++ [(key, val)]) (_cnt d + 1) Hg) as (rest & H1 & H2 & H3).
    + intros kv [?| ->%list_elem_of_singleton]%elem_of_app; [by left|by right].
    + rewrite length_app. cbn [length]. lia.
    + split; [done|]. right. split_and!; [done| |].
      * rewrite H2, <- Hpg, H1. solve_Permutation.
      * intros kv Hin Hkv. apply (in_bucket d kv Hw) in Hin. rewrite Hkv in Hin. by eapply bucket_index_None.
Qed.

Lemma Delete_spec d h eq :
  wf d -> Z.of_nat (length (pairs d)) < 2 ^ 30 ->
  let '(d', prior) := Delete d h eq in
  wf d' /\
  ((exists k v, pairs d ≡ₚ (k, v) :: pairs d' /\ eq k = true /\ prior = Some v) \/
   (prior = None /\ d' = d /\ forall kv, kv ∈ pairs d -> hash kv.1 = h -> eq kv.1 = false)).
Proof.
  intros Hw Hlen. unfold Delete. destruct (index_of eq (bucket d h)) as [j|] eqn:E.
  - apply index_of_Some in E as ([k v] & Ej & Heq). pose proof (remove_at_perm _ _ _ Ej) as Hp. pose proof (remove_at_length _ _ _ Ej) as Hl.
    assert (0 < _cnt d) as Hpos.
    { rewrite (wf_cnt _ Hw). assert ((k, v) ∈ pairs d) as Hin by (eapply bucket_pairs; [done|by eapply list_elem_of_lookup_2]).
      destruct (pairs d); [by apply elem_of_nil in Hin|]. cbn [length]. lia. }
    rewrite wrap_small by (rewrite (wf_cnt _ Hw) in *; lia).
    destruct (replace_bucket d h (remove_at j (bucket d h)) (_cnt d - 1) Hw) as (rest & H1 & H2 & H3).
    + intros kv Hin. left. rewrite Hp. by apply elem_of_cons; right.
    + lia.
    + rewrite Ej. split; [done|]. left. exists k, v. split_and!; [|done|done]. rewrite H1, H2, Hp at 1. done.
  - split; [done|]. right. split_and!; try done. intros kv Hin Hkv. apply (in_bucket d kv Hw) in Hin. rewrite Hkv in Hin.
    by eapply bucket_index_None.
Qed.

Lemma make_wf : wf make.
Proof.
  split; [by exists 4|done| |done]. intros i b kv Hi Hin. apply lookup_replicate in Hi as [-> _]. by apply elem_of_nil in Hin.
Qed.

End Spec.
End DictSpec.

(** ** Integer keys: a finite map *)

Module DictMap.
Import Dict DictSpec.

(** [hashkey], and [cmpkey] is zero. *)
Definition hashkey (key : Z) : Z := s32 key.
Definition cmpkey (key1 key2 : Z) : Z := if key1 =? key2 then 0 else if 0 <? s64 (key1 - key2) then 1 else -1.
Definition samekey (key1 key2 : Z) : bool := cmpkey key1 key2 =? 0.

Lemma samekey_eq a b : samekey a b = true <-> a = b.
Proof.
  unfold samekey, cmpkey. destruct (Z.eqb_spec a b) as [->|H]; [done|]. split; [|done]. by destruct (0 <? s64 (a - b)).
Qed.

Section Map.
Context {V : Type}.

Inductive op := OInsert (k : Z) (v : V) | ODelete (k : Z) | OFind (k : Z) | OClear.

Definition dict_step (d : dict Z V) (o : op) : dict Z V * option V :=
  match o with
  | OInsert k v => Insert hashkey d (hashkey k) (samekey k) k v
  | ODelete k => Delete d (hashkey k) (samekey k)
  | OFind k => (d, find d (hashkey k) (samekey k))
  | OClear => (Clear d, None)
  end.

Definition map_step (m : gmap Z V) (o : op) : gmap Z V * option V :=
  match o with
  | OInsert k v => (<[k := v]> m, m !! k)
  | ODelete k => (delete k m, m !! k)
  | OFind k => (m, m !! k)
  | OClear => (∅, None)
  end.

Fixpoint dict_run (d : dict Z V) (os : list op) : list (option V) :=
  match os with [] => [] | o :: os => let '(d, r) := dict_step d o in r :: dict_run d os end.

Fixpoint map_run (m : gmap Z V) (os : list op) : list (option V) :=
  match os with [] => [] | o :: os => let '(m, r) := map_step m o in r :: map_run m os end.

Definition maps (d : dict Z V) (m : gmap Z V) : Prop :=
  wf hashkey d /\ NoDup (pairs d).*1 /\ m = list_to_map (pairs d).

Lemma maps_lookup d m k v : maps d m -> m !! k = Some v <-> (k, v) ∈ pairs d.
Proof. intros (_ & Hn & ->). symmetry. by apply elem_of_list_to_map. Qed.

Lemma maps_None d m k : maps d m -> (forall kv, kv ∈ pairs d -> hashkey kv.1 = hashkey k -> samekey k kv.1 = false) -> m !! k = None.
Proof.
  intros Hm H. destruct (m !! k) as [v|] eqn:E; [|done]. apply (maps_lookup d m k v Hm) in E.
  specialize (H (k, v) E eq_refl). cbn [fst] in H. by rewrite (proj2 (samekey_eq k k) eq_refl) in H.
Qed.

Lemma insert_maps d m k v :
  maps d m -> Z.of_nat (length (pairs d)) < 2 ^ 30 ->
  let '(d', r) := Insert hashkey d (hashkey k) (samekey k) k v in
  maps d' (<[k := v]> m) /\ r = m !! k /\ Z.of_nat (length (pairs d')) <= Z.of_nat (length (pairs d)) + 1.
Proof.
  intros Hm Hlen. pose proof Hm as (Hw & Hn & Hml).
  pose proof (Insert_spec hashkey d (hashkey k) (samekey k) k v Hw eq_refl Hlen) as H.
  destruct (Insert _ _ _ _ _ _) as [d' prior]. destruct H as (Hw' & [(k0 & v0 & rest & Hp & ->%samekey_eq & -> & Hp')|(-> & Hp' & Hno)]).
  - assert (NoDup (pairs d').*1) as Hn' by (rewrite Hp'; rewrite Hp in Hn; exact Hn). split_and!.
    + split_and!; [done|done|]. rewrite Hml, (list_to_map_proper _ _ Hn Hp), (list_to_map_proper _ _ Hn' Hp'). cbn. by rewrite insert_insert_eq.
    + symmetry. apply (maps_lookup d m k0 v0 Hm). rewrite Hp. constructor.
    + rewrite Hp, Hp'. cbn [length]. lia.
  - pose proof (maps_None d m k Hm Hno) as Hk. assert (NoDup (pairs d').*1) as Hn'.
    { rewrite Hp'. cbn. apply NoDup_cons. split; [|done]. rewrite Hml in Hk. by apply not_elem_of_list_to_map in Hk. }
    split_and!; [|done|rewrite Hp'; cbn [length]; lia]. split_and!; [done|done|]. by rewrite Hml, (list_to_map_proper _ _ Hn' Hp').
Qed.

Lemma delete_maps d m k :
  maps d m -> Z.of_nat (length (pairs d)) < 2 ^ 30 ->
  let '(d', r) := Delete d (hashkey k) (samekey k) in
  maps d' (delete k m) /\ r = m !! k /\ Z.of_nat (length (pairs d')) <= Z.of_nat (length (pairs d)).
Proof.
  intros Hm Hlen. pose proof Hm as (Hw & Hn & Hml). pose proof (Delete_spec hashkey d (hashkey k) (samekey k) Hw Hlen) as H.
  destruct (Delete _ _ _) as [d' prior]. destruct H as (Hw' & [(k0 & v0 & Hp & ->%samekey_eq & ->)|(-> & -> & Hno)]).
  - pose proof Hn as Hn'. rewrite Hp in Hn'. cbn [fmap list_fmap fst] in Hn'. apply NoDup_cons in Hn' as [Hni Hn'].
    split_and!; [split_and!; [done|done|]| |rewrite Hp; cbn [length]; lia].
    + rewrite Hml, (list_to_map_proper _ _ Hn Hp). cbn. rewrite delete_insert_id; [done|]. by apply not_elem_of_list_to_map.
    + symmetry. apply (maps_lookup d m k0 v0 Hm). rewrite Hp. constructor.
  - pose proof (maps_None d m k Hm Hno) as Hk. rewrite delete_id by done. split_and!; [done|done|lia].
Qed.

Lemma find_maps d m k : maps d m -> find d (hashkey k) (samekey k) = m !! k.
Proof.
  intros Hm. pose proof (dict_find_spec hashkey d (hashkey k) (samekey k) (proj1 Hm)) as H. destruct (find _ _ _) as [v|].
  - destruct H as (k0 & Hin & ->%samekey_eq). symmetry. by apply (maps_lookup d m k0 v Hm).
  - symmetry. by apply (maps_None d m k Hm).
Qed.

Lemma no_pairs (l : list (list (Z * V))) : concat ((fun _ => []) <$> l) = ([] : list (Z * V)).
Proof. by induction l. Qed.

Lemma clear_maps d m : maps d m -> maps (Clear d) ∅ /\ pairs (Clear d) = [].
Proof.
  intros ([Hk Hl _ _] & _). unfold Clear, pairs. cbn [_bin]. rewrite no_pairs. split; [|done]. split_and!; unfold pairs; cbn [_bin]; rewrite ?no_pairs; [|constructor|done].
  split; cbn [_size _bin _cnt pairs]; [done|by rewrite length_fmap| |unfold pairs; cbn [_bin]; by rewrite no_pairs].
  intros i b kv Hi Hin. rewrite list_lookup_fmap in Hi. destruct (_bin d !! i); [|done]. injection Hi as <-. by apply elem_of_nil in Hin.
Qed.

Lemma step_maps d m o :
  maps d m -> Z.of_nat (length (pairs d)) < 2 ^ 30 ->
  let '(d', r) := dict_step d o in let '(m', r') := map_step m o in
  maps d' m' /\ r = r' /\ Z.of_nat (length (pairs d')) <= Z.of_nat (length (pairs d)) + 1.
Proof.
  intros Hm Hlen. destruct o as [k v|k|k|]; cbn [dict_step map_step].
  - pose proof (insert_maps d m k v Hm Hlen) as H. by destruct (Insert _ _ _ _ _ _).
  - pose proof (delete_maps d m k Hm Hlen) as H. destruct (Delete _ _ _). destruct H as (? & ? & ?). split_and!; [done|done|lia].
  - split_and!; [done|by apply find_maps|lia].
  - destruct (clear_maps d m Hm) as [? ->]. split_and!; [done|done|cbn [length]; lia].
Qed.

Lemma make_maps : maps make ∅.
Proof. split_and!; [apply make_wf|constructor|done]. Qed.

Lemma run_maps os d m :
  maps d m -> Z.of_nat (length (pairs d)) + Z.of_nat (length os) <= 2 ^ 30 -> dict_run d os = map_run m os.
Proof.
  revert d m. induction os as [|o os IH]; intros d m Hm Hl; [done|]. cbn [dict_run map_run length] in *.
  pose proof (step_maps d m o Hm ltac:(lia)) as H. destruct (dict_step d o) as [d' r], (map_step m o) as [m' r'].
  destruct H as (Hm' & -> & Hl'). f_equal. apply IH; [done|lia].
Qed.

End Map.

Arguments op : clear implicits.



End DictMap.
