(* ===== verification/ObjectStartArray.v ===== *)
(** * Object starts of the old generation
      ([gc_implementation/parallelScavenge/objectStartArray.hpp])

    The table that finds the object containing an address: for every block of
    512 bytes the offset of an object that starts in it. A heap is a function
    from addresses to object sizes in words. *)

From stdpp Require Import gmap.
From S2P Require Import Prelude EventsRuntime.
From Stdlib Require Import ZArith Lia.

Module ObjectStartArray.

Abbreviation HeapWordSize := EventsRuntime.HeapWordSize.
Definition clean_block : Z := -1.
Definition block_shift : Z := 9.
Definition block_size : Z := 1 ≪ block_shift.

(** The covered region, and the entries of its blocks that are not clean. A
    block is the number of 512 byte units below its address, which is the
    distance of its entry from [_offset_base]. *)
Record array := Array { start : Z; end_ : Z; blocks : gmap Z Z }.

Definition block_for_addr (p : Z) : Z := p ≫ block_shift.
Definition addr_for_block (b : Z) : Z := b ≪ block_shift.

Definition offset_addr_for_block (a : array) (b : Z) : Z :=
  if b <? block_for_addr (start a) then start a
  else
    let v := default clean_block (blocks a !! b) in
    if v =? clean_block then end_ a else addr_for_block b + v * HeapWordSize.

Definition reset (a : array) : array := Array (start a) (end_ a) ∅.

Definition allocate_block (a : array) (p : Z) : array :=
  let block := block_for_addr p in
  let offset := (p - addr_for_block block) / HeapWordSize in
  Array (start a) (end_ a) (<[block := swrap 8 offset]> (blocks a)).

Definition is_block_allocated (a : array) (p : Z) : bool :=
  negb (default clean_block (blocks a !! block_for_addr p) =? clean_block).

Section Heap.
(** Sizes of objects in words, by address. *)
Variable size_at : Z -> Z.

Fixpoint scroll_back (fuel : nat) (a : array) (p block : Z) : option Z :=
  match fuel with
  | O => None
  | S fuel =>
      let scroll_forward := offset_addr_for_block a block in
      if p <? scroll_forward then scroll_back fuel a p (block - 1) else Some scroll_forward
  end.

Fixpoint scroll (fuel : nat) (p scroll_forward next : Z) : option Z :=
  if next <=? p then
    match fuel with
    | O => None
    | S fuel => scroll fuel p next (next + size_at next * HeapWordSize)
    end
  else Some scroll_forward.

(** As many steps back as blocks, and as many forward as bytes. *)
Definition object_start (a : array) (p : Z) : option Z :=
  next ← scroll_back (Z.to_nat (block_for_addr p - block_for_addr (start a) + 2)) a p (block_for_addr p);
  scroll (Z.to_nat (p - next + 1)) p next next.

(** ** Heaps without holes *)

(** From [a] to [b] there are the objects [l] and nothing else. *)
Inductive tiled : Z -> Z -> list Z -> Prop :=
| tiled_nil a : tiled a a []
| tiled_cons a b l : 0 < size_at a -> tiled (a + size_at a * HeapWordSize) b l -> tiled a b (a :: l).

Lemma tiled_le a b l : tiled a b l -> a + Z.of_nat (length l) * HeapWordSize <= b.
Proof. unfold HeapWordSize. induction 1; cbn [length] in *; unfold HeapWordSize in *; lia. Qed.

Lemma tiled_aligned a b l : tiled a b l -> (b - a) mod HeapWordSize = 0.
Proof.
  unfold HeapWordSize. induction 1 as [a|a b l _ _ IH]; [by rewrite Z.sub_diag|]. unfold HeapWordSize in IH.
  Z.to_euclidean_division_equations; lia.
Qed.

Lemma tiled_app a b c l1 l2 : tiled a b l1 -> tiled b c l2 -> tiled a c (l1 ++ l2).
Proof. induction 1; intros H2; [done|]. constructor; auto. Qed.

Lemma tiled_split a b l s : tiled a b l -> s ∈ l -> exists l1 l2, l = l1 ++ s :: l2 /\ tiled a s l1 /\ tiled s b (s :: l2).
Proof.
  induction 1 as [|a b l Hs Ht IH]; intros Hin; [by apply elem_of_nil in Hin|].
  destruct (decide (s = a)) as [->|Hne].
  - exists [], l. split_and!; [done|constructor|by constructor].
  - apply elem_of_cons in Hin as [->|Hin]; [done|]. destruct (IH Hin) as (l1 & l2 & -> & H1 & H2).
    exists (a :: l1), l2. split_and!; [done|by constructor|done].
Qed.

Lemma tiled_bounds a b l s : tiled a b l -> s ∈ l -> 0 < size_at s /\ a <= s /\ s + size_at s * HeapWordSize <= b.
Proof.
  intros H Hin. destruct (tiled_split a b l s H Hin) as (l1 & l2 & _ & H1 & H2). apply tiled_le in H1.
  inversion H2 as [|? ? ? Hs H3]; subst. apply tiled_le in H3. unfold HeapWordSize in *. lia.
Qed.

Lemma tiled_functional a b l l' : tiled a b l -> tiled a b l' -> l = l'.
Proof.
  intros H. revert l'. induction H as [|a b l Hs Ht IH]; intros l' H'; inversion H'; subst; try done.
  - pose proof (tiled_le _ _ _ H0). unfold HeapWordSize in *. lia.
  - pose proof (tiled_le _ _ _ Ht). unfold HeapWordSize in *. lia.
  - f_equal. by apply IH.
Qed.

(** ** The table *)

(** Entries are those of objects, at offsets inside of their block. *)
Definition table_ok (a : array) (l : list Z) : Prop :=
  forall b v, blocks a !! b = Some v -> v <> clean_block /\ addr_for_block b + v * HeapWordSize ∈ l.

Lemma block_addr p : addr_for_block (block_for_addr p) <= p < addr_for_block (block_for_addr p) + 512.
Proof.
  unfold addr_for_block, block_for_addr, block_shift. rewrite Z.shiftl_mul_pow2, Z.shiftr_div_pow2 by lia.
  change (2 ^ 9) with 512. Z.to_euclidean_division_equations. lia.
Qed.

Lemma allocate_block_ok a l p :
  table_ok a l -> p mod HeapWordSize = 0 -> p ∈ l -> table_ok (allocate_block a p) l.
Proof.
  intros Ht Hp Hin b v. unfold allocate_block. cbn [blocks]. intros H. apply lookup_insert_Some in H as [[<- <-]|[_ H]].
  - pose proof (block_addr p) as Hb. assert ((addr_for_block (block_for_addr p)) mod HeapWordSize = 0) as Hm.
    { unfold addr_for_block, block_shift, HeapWordSize. rewrite Z.shiftl_mul_pow2 by lia. change (2 ^ 9) with 512.
      Z.to_euclidean_division_equations. lia. }
    set (q := addr_for_block (block_for_addr p)) in *. unfold HeapWordSize in *.
    assert (swrap 8 ((p - q) / 8) = (p - q) / 8) as ->.
    { unfold swrap. change (2 ^ (8 - 1)) with 128. change (2 ^ 8) with 256. Z.to_euclidean_division_equations. lia. }
    unfold clean_block. split; [Z.to_euclidean_division_equations; lia|].
    replace (q + (p - q) / 8 * 8) with p by (Z.to_euclidean_division_equations; lia). done.
  - by apply Ht.
Qed.

(** Every object is recorded when it is allocated or moved. *)
Definition allocate_all (a : array) (l : list Z) : array := foldl allocate_block a l.

Lemma allocate_all_ok l l' a :
  table_ok a l -> Forall (fun p => p mod HeapWordSize = 0 /\ p ∈ l) l' -> table_ok (allocate_all a l') l.
Proof.
  revert a. induction l' as [|p l' IH]; intros a Ht Hl; [done|]. apply Forall_cons in Hl as [[Hp Hin] Hl].
  apply IH; [|done]. by apply allocate_block_ok.
Qed.

Lemma allocate_all_region a l : start (allocate_all a l) = start a /\ end_ (allocate_all a l) = end_ a.
Proof. revert a. induction l as [|p l IH]; intros a; [done|]. apply (IH (allocate_block a p)). Qed.

Lemma scroll_spec s top l p fuel cur :
  tiled s top l -> s <= p < top -> p - s < Z.of_nat fuel ->
  exists s', scroll fuel p cur s = Some s' /\ s' ∈ l /\ s' <= p < s' + size_at s' * HeapWordSize.
Proof.
  intros Ht. revert fuel cur. induction Ht as [s|s top l Hs Ht IH]; intros fuel cur Hp Hf; [lia|].
  destruct fuel as [|fuel]; [lia|]. cbn [scroll]. rewrite (proj2 (Z.leb_le s p)) by lia. unfold HeapWordSize in *.
  destruct (Z.le_gt_cases (s + size_at s * 8) p) as [Hle|Hgt].
  - destruct (IH fuel s ltac:(lia) ltac:(lia)) as (s' & H1 & H2 & H3). exists s'. split_and!; [done|by right|lia|lia].
  - exists s. destruct fuel; cbn [scroll]; rewrite (proj2 (Z.leb_gt _ p)) by lia; (split_and!; [done|by left|lia|lia]).
Qed.

Lemma scroll_back_spec a l p fuel block :
  table_ok a l -> start a ∈ l -> start a <= p < end_ a ->
  block_for_addr (start a) - 1 <= block -> block - block_for_addr (start a) + 1 < Z.of_nat fuel ->
  exists s, scroll_back fuel a p block = Some s /\ s <= p /\ s ∈ l.
Proof.
  intros Ht Hstart Hp. revert block. induction fuel as [|fuel IH]; intros block Hb Hf; [lia|]. cbn [scroll_back].
  unfold offset_addr_for_block. destruct (block <? block_for_addr (start a)) eqn:E1; zbool.
  - rewrite (proj2 (Z.ltb_ge p (start a))) by lia. exists (start a). split_and!; [done|lia|done].
  - specialize (IH (block - 1) ltac:(lia) ltac:(lia)). destruct (blocks a !! block) as [v|] eqn:Ev; cbn [default from_option]; unfold id.
    + destruct (Ht block v Ev) as [Hv Hin]. rewrite (proj2 (Z.eqb_neq v clean_block)) by done.
      destruct (p <? _) eqn:E2; zbool; [done|]. eexists. split_and!; [reflexivity|lia|done].
    + change (clean_block =? clean_block) with true. cbn match. rewrite (proj2 (Z.ltb_lt p (end_ a))) by lia. done.
Qed.

Lemma object_start_spec a top l p :
  table_ok a l -> tiled (start a) top l -> top <= end_ a -> start a <= p < top ->
  exists s, object_start a p = Some s /\ s ∈ l /\ s <= p < s + size_at s * HeapWordSize.
Proof.
  intros Ht Hl Hend Hp. unfold object_start.
  assert (start a ∈ l) as Hstart by (inversion Hl; subst; [lia|by left]).
  assert (block_for_addr (start a) <= block_for_addr p) as Hbl.
  { unfold block_for_addr, block_shift. rewrite !Z.shiftr_div_pow2 by lia. apply Z.div_le_mono; lia. }
  destruct (scroll_back_spec a l p (Z.to_nat (block_for_addr p - block_for_addr (start a) + 2)) (block_for_addr p)
    Ht Hstart ltac:(lia) ltac:(lia) ltac:(lia)) as (s & -> & Hs & Hin).
  cbn [mbind option_bind]. destruct (tiled_split _ _ _ _ Hl Hin) as (l1 & l2 & -> & _ & H2).
  destruct (scroll_spec s top (s :: l2) p (Z.to_nat (p - s + 1)) s H2 ltac:(lia) ltac:(lia)) as (s' & -> & H3 & H4).
  exists s'. split_and!; [done| |lia|lia]. apply elem_of_app. by right.
Qed.

Lemma allocated_ok a top l :
  start a mod HeapWordSize = 0 -> tiled (start a) top l -> table_ok (allocate_all (reset a) l) l.
Proof.
  intros Ha Hl. apply allocate_all_ok.
  - intros b v H. cbn [reset blocks] in H. by rewrite lookup_empty in H.
  - apply Forall_forall. intros q Hq. split; [|done]. destruct (tiled_split _ _ _ _ Hl Hq) as (l1 & l2 & _ & H1 & _).
    apply tiled_aligned in H1. unfold HeapWordSize in *. Z.to_euclidean_division_equations. lia.
Qed.

(** C33: the object start array finds the object that contains an address:
    with the entries that [allocate_block] makes for the objects of a space
    without holes, [object_start] terminates for every address of the space
    and returns the one object that contains it. *)
Theorem object_start_finds a top l p :
  start a mod HeapWordSize = 0 -> tiled (start a) top l -> top <= end_ a -> start a <= p < top ->
  exists s, object_start (allocate_all (reset a) l) p = Some s /\ s ∈ l /\ s <= p < s + size_at s * HeapWordSize.
Proof.
  intros Ha Hl Hend Hp. destruct (allocate_all_region (reset a) l) as [Hs He]. cbn [reset start end_] in Hs, He.
  apply (object_start_spec _ top); rewrite ?Hs, ?He; try done. by apply (allocated_ok _ top).
Qed.

End Heap.

(** Objects of 2, 80 and 3 words at 1024. *)
Definition demo_size (p : Z) : Z := if p =? 1040 then 80 else if p =? 1024 then 2 else 3.

Lemma demo_tiled : tiled demo_size 1024 1704 [1024; 1040; 1680].
Proof. repeat (constructor; [reflexivity|]). apply tiled_nil. Qed.

Lemma object_start_finds_witness :
  exists s, object_start demo_size (allocate_all (reset (Array 1024 4096 ∅)) [1024; 1040; 1680]) 1600 = Some s /\
    s ∈ [1024; 1040; 1680] /\ s <= 1600 < s + demo_size s * HeapWordSize.
Proof. apply (object_start_finds demo_size (Array 1024 4096 ∅) 1704); [reflexivity|exact demo_tiled|cbn; lia|cbn; lia]. Defined.

End ObjectStartArray.
