(* ===== verification/StackTraces.v ===== *)
(** * Stack traces of allocations ([prims/AllocationTracingStackTraces.cpp])

    The frames of a thread as call sites, and the elimination of recursions:
    frames that repeat are replaced by an indicator, in place, in the array
    that holds the stack. *)

From stdpp Require Import gmap relations.
From S2P Require Import Prelude.
From Stdlib Require Import ZArith Lia.

(** [CallSite] ([prims/AllocationSites.hpp]); [NULL] is 0. *)
Record CallSite := Call { method : Z; bytecode_index : Z }.

#[global] Instance CallSite_eq_dec : EqDecision CallSite.
Proof. solve_decision. Defined.

Module StackTraceCallSiteIterator.

(** [stack] with the cells allocated, those not written yet [None], and
    [length].  [None] as a result is an access outside of the cells or a read
    of one that was not written. *)
Record iterator := Iterator { stack : list (option CallSite); length : nat }.

Definition read (s : iterator) (i : nat) : option CallSite := mjoin (stack s !! i).

Definition store (s : iterator) (i : nat) (c : CallSite) : option iterator :=
  if (i <? List.length (stack s))%nat then Some (Iterator (<[i := Some c]> (stack s)) (length s)) else None.

(** [fill] on the frames the [vframeStream] delivers. *)
Fixpoint fill_loop (s : iterator) (max_depth : Z) (stream : list CallSite) : option iterator :=
  match stream with
  | [] => Some s
  | frame :: stream =>
      if (max_depth =? 0) || (Z.of_nat (length s) <? max_depth) then
        let s :=
          if (length s =? List.length (StackTraceCallSiteIterator.stack s))%nat then
            let capacity := Nat.max 25 (List.length (StackTraceCallSiteIterator.stack s) * 2) in
            Iterator (StackTraceCallSiteIterator.stack s ++
              replicate (capacity - List.length (StackTraceCallSiteIterator.stack s)) None) (length s)
          else s in
        s ← store s (length s) frame;
        fill_loop (Iterator (StackTraceCallSiteIterator.stack s) (S (length s))) max_depth stream
      else Some s
  end.

Definition fill (max_depth : Z) (stream : list CallSite) : option iterator := fill_loop (Iterator [] 0) max_depth stream.

Definition equals (call1 call2 : CallSite) : bool :=
  (method call1 =? method call2) && (bytecode_index call1 =? bytecode_index call2).

(** [is_recursion]; [todo] frames are left to be compared. *)
Fixpoint is_recursion (s : iterator) (callee caller : nat) (todo : nat) : option bool :=
  match todo with
  | O => Some true
  | S todo =>
      if (length s <=? callee)%nat || (length s <=? caller)%nat then Some false
      else
        call1 ← read s callee;
        call2 ← read s caller;
        if equals call1 call2 then is_recursion s (S callee) (S caller) todo else Some false
  end.

(** [while(is_recursion(...)) recursion_count++]; the frames compared lie
    within the stack, so it is repeated at most [length] times. *)
Fixpoint recursion_count (fuel : nat) (s : iterator) (call recursion_depth count : nat) : option nat :=
  match fuel with
  | O => None
  | S fuel =>
      recursion ← is_recursion s call (call + recursion_depth + recursion_depth * count) recursion_depth;
      if recursion : bool then recursion_count fuel s call recursion_depth (S count) else Some count
  end.

Fixpoint remove_loop (fuel : nat) (s : iterator) (begin end_ : nat) : option (iterator * nat) :=
  match fuel with
  | O => None
  | S fuel =>
      if (end_ <? length s)%nat then
        call ← read s end_;
        s ← store s begin call;
        remove_loop fuel s (S begin) (S end_)
      else Some (Iterator (stack s) (length s - (end_ - begin)), end_ - begin)%nat
  end.

Definition remove (s : iterator) (begin end_ : nat) : option (iterator * nat) := remove_loop (S (length s)) s begin end_.

(** The cells from the end of the stack down to [dest] move up. *)
Fixpoint insert_loop (s : iterator) (dest todo : nat) : option iterator :=
  match todo with
  | O => Some s
  | S todo =>
      call ← read s (dest + todo);
      s ← store s (dest + S todo) call;
      insert_loop s dest todo
  end.

Definition insert (s : iterator) (dest : nat) : option (iterator * nat) :=
  s ← insert_loop s dest (length s - dest);
  Some (Iterator (stack s) (S (length s)), dest).

(** The body of the inner loop at [call]: the stack, and the call from which
    the loop goes on. *)
Definition eliminate_at (s : iterator) (recursion_depth call : nat) : option (iterator * nat) :=
  c ← read s call;
  if method c =? 0 then Some (s, call)
  else
    count ← recursion_count (S (length s)) s call recursion_depth 0;
    if (count =? 0)%nat then Some (s, call)
    else
      '(s, _) ← remove s (call + recursion_depth) (call + (recursion_depth + recursion_depth * count));
      '(s, indicator) ← insert s (call + recursion_depth);
      s ← store s indicator (Call 0 (Z.of_nat recursion_depth));
      Some (s, indicator).

Fixpoint eliminate_calls (fuel : nat) (s : iterator) (recursion_depth call : nat) : option iterator :=
  match fuel with
  | O => None
  | S fuel =>
      if (call <? length s)%nat then
        '(s, call) ← eliminate_at s recursion_depth call;
        eliminate_calls fuel s recursion_depth (S call)
      else Some s
  end.

(** The depths from [recursion_depth] on, [todo] of them. *)
Fixpoint eliminate_depths (s : iterator) (recursion_depth todo : nat) : option iterator :=
  match todo with
  | O => Some s
  | S todo =>
      s ← eliminate_calls (S (length s)) s recursion_depth 0;
      eliminate_depths s (S recursion_depth) todo
  end.

Definition eliminate_recursions (s : iterator) (recursion_max_detection_depth : Z) : option iterator :=
  eliminate_depths s 1 (Z.to_nat recursion_max_detection_depth).

(** The constructor. *)
Definition make (stream : list CallSite) (max_depth recursion_max_detection_depth : Z) : option iterator :=
  s ← fill max_depth stream;
  eliminate_recursions s
    (if recursion_max_detection_depth <? 0 then Z.of_nat (length s) else recursion_max_detection_depth).

(** The calls that [has_next] and [next] deliver. *)
Definition calls (s : iterator) : option (list CallSite) := mapM id (take (length s) (stack s)).

End StackTraceCallSiteIterator.

(** ** What the elimination does to the stack *)

Module StackTraceSpec.
Import StackTraceCallSiteIterator.

Abbreviation len := List.length.

(** The stack of [s] is [l]; [junk] are the cells behind it. *)
Definition rep (s : iterator) (l : list CallSite) : Prop :=
  length s = len l /\ exists junk, stack s = (Some <$> l) ++ junk.

Lemma rep_cells s l : rep s l -> (len l <= len (stack s))%nat.
Proof. intros (_ & junk & ->). rewrite length_app, length_fmap. lia. Qed.

Lemma read_rep s l i : rep s l -> (i < len l)%nat -> read s i = l !! i.
Proof.
  intros (_ & junk & E) Hi. unfold read. rewrite E, lookup_app_l by (by rewrite length_fmap). rewrite list_lookup_fmap.
  by destruct (lookup_lt_is_Some_2 l i Hi) as [c ->].
Qed.

Lemma store_rep s l i c :
  rep s l -> (i < len l)%nat -> exists s', store s i c = Some s' /\ rep s' (<[i := c]> l) /\ len (stack s') = len (stack s).
Proof.
  intros Hr Hi. pose proof (rep_cells s l Hr). destruct Hr as (Hl & junk & E). unfold store.
  rewrite (proj2 (Nat.ltb_lt _ _)) by lia. eexists. split; [done|]. split; [|apply length_insert].
  split; cbn [length stack]; [by rewrite length_insert|]. exists junk.
  by rewrite E, insert_app_l, list_fmap_insert by (by rewrite length_fmap).
Qed.

(** The frames from [i] and from [j] on agree, [n] of them. *)
Definition agree (l : list CallSite) (i j n : nat) : Prop :=
  forall m, (m < n)%nat -> exists c, l !! (i + m)%nat = Some c /\ l !! (j + m)%nat = Some c.

Lemma frames_equal_spec c d : reflect (c = d) (equals c d).
Proof.
  unfold equals. destruct c as [m b], d as [m' b']; cbn [method bytecode_index].
  destruct (Z.eqb_spec m m') as [->|], (Z.eqb_spec b b') as [->|]; constructor; congruence.
Qed.

Lemma is_recursion_spec s l i j n :
  rep s l -> exists r, is_recursion s i j n = Some r /\ (r = true <-> agree l i j n).
Proof.
  intros Hr. revert i j. induction n as [|n IH]; intros i j; cbn [is_recursion].
  { exists true. split; [done|]. split; [|done]. intros _ m Hm. lia. }
  rewrite (proj1 Hr). destruct (Nat.leb_spec (len l) i) as [Hi|Hi]; [|destruct (Nat.leb_spec (len l) j) as [Hj|Hj]]; cbn [orb].
  1, 2: exists false; split; [done|]; split; [done|]; intros H; destruct (H 0%nat ltac:(lia)) as (c & Hc & Hd);
    rewrite Nat.add_0_r in *; apply lookup_lt_Some in Hc, Hd; lia.
  rewrite !(read_rep s l) by done. destruct (lookup_lt_is_Some_2 l i Hi) as [c Ec], (lookup_lt_is_Some_2 l j Hj) as [d Ed].
  rewrite Ec, Ed. cbn [mbind option_bind]. destruct (frames_equal_spec c d) as [->|Hne].
  - destruct (IH (S i) (S j)) as (r & -> & Hiff). exists r. split; [done|]. rewrite Hiff. split; intros H.
    + intros [|m] Hm; [rewrite !Nat.add_0_r; by exists d|]. rewrite !Nat.add_succ_r, <- !Nat.add_succ_l. apply H. lia.
    + intros m Hm. specialize (H (S m) ltac:(lia)). by rewrite !Nat.add_succ_r in H.
  - exists false. split; [done|]. split; [done|]. intros H. destruct (H 0%nat ltac:(lia)) as (e & H1 & H2).
    rewrite Nat.add_0_r in *. congruence.
Qed.

Lemma recursion_count_spec s l call d fuel count :
  rep s l -> (0 < d)%nat -> (len l < fuel + count)%nat ->
  (forall j, (j < count)%nat -> agree l call (call + d + d * j) d) ->
  exists k, recursion_count fuel s call d count = Some k /\ (count <= k)%nat /\
    (forall j, (j < k)%nat -> agree l call (call + d + d * j) d) /\ ~ agree l call (call + d + d * k) d.
Proof.
  intros Hr Hd. revert count. induction fuel as [|fuel IH]; intros count Hf Hall.
  { destruct count as [|j]; [lia|]. specialize (Hall j ltac:(lia) 0%nat Hd) as (c & _ & Hc%lookup_lt_Some). nia. }
  cbn [recursion_count]. destruct (is_recursion_spec s l call (call + d + d * count) d Hr) as (r & -> & Hiff). cbn [mbind option_bind].
  destruct r.
  - destruct (IH (S count)) as (k & E & Hk & H); [lia| |exists k; split_and!; [done|lia|apply H..]].
    intros j Hj. destruct (decide (j = count)) as [->|]; [by apply Hiff|]. apply Hall. lia.
  - exists count. split_and!; [done|lia|done|]. intros H. by apply Hiff in H.
Qed.

(** [k] further copies of the [d] frames at [call]. *)
Lemma repeats_split l call d k :
  (call + d <= len l)%nat -> (forall j, (j < k)%nat -> agree l call (call + d + d * j) d) ->
  let seg := take d (drop call l) in
  len seg = d /\ l = take call l ++ seg ++ concat (replicate k seg) ++ drop (call + d + d * k) l /\ (call + d + d * k <= len l)%nat.
Proof.
  intros Hl Hall seg. assert (len seg = d) as Hd by (unfold seg; rewrite length_take, length_drop; lia). split; [done|].
  assert (l = take call l ++ seg ++ drop (call + d) l) as E0.
  { unfold seg. rewrite <- (take_drop call l) at 1. f_equal. rewrite <- (take_drop d (drop call l)) at 1. by rewrite drop_drop. }
  induction k as [|k IH].
  { rewrite Nat.mul_0_r, Nat.add_0_r. cbn. done. }
  destruct IH as [E Hk]; [intros j Hj; apply Hall; lia|]. specialize (Hall k ltac:(lia)).
  assert (call + d + d * S k <= len l)%nat as Hlen.
  { destruct d as [|d']; [lia|]. destruct (Hall d' ltac:(lia)) as (c & _ & Hc%lookup_lt_Some). lia. }
  split; [|done]. rewrite replicate_S_end, concat_app. cbn [concat]. rewrite app_nil_r, <- !app_assoc. rewrite E at 1. do 3 f_equal.
  rewrite <- (take_drop d (drop (call + d + d * k) l)) at 1. rewrite drop_drop. f_equal; [|f_equal; lia].
  apply list_eq. intros i. destruct (Nat.lt_ge_cases i d) as [Hi|Hi].
  - unfold seg. rewrite !lookup_take_lt, !lookup_drop by done. destruct (Hall i Hi) as (c & -> & ->). done.
  - rewrite !lookup_ge_None_2; [done| |]; rewrite ?Hd, ?length_take, ?length_drop; lia.
Qed.

Lemma remove_frame_spec s l b e :
  rep s l -> (b <= e <= len l)%nat ->
  exists s', remove s b e = Some (s', e - b)%nat /\ rep s' (take b l ++ drop e l) /\ len (stack s') = len (stack s).
Proof.
  intros Hr Hbe. unfold remove. assert (len l - e < S (length s))%nat as Hf by (rewrite (proj1 Hr); lia).
  revert Hf. generalize (S (length s)). intros fuel. revert s l b e Hr Hbe. induction fuel as [|fuel IH]; intros s l b e Hr Hbe Hf; [lia|].
  cbn [remove_loop]. rewrite (proj1 Hr). destruct (Nat.ltb_spec e (len l)) as [He|He].
  - rewrite (read_rep s l) by done. destruct (lookup_lt_is_Some_2 l e He) as [c Ec]. rewrite Ec. cbn [mbind option_bind].
    destruct (store_rep s l b c Hr ltac:(lia)) as (s1 & -> & Hr1 & Hc1). cbn [mbind option_bind].
    destruct (IH s1 (<[b := c]> l) (S b) (S e) Hr1) as (s' & -> & Hr' & Hc'); [rewrite length_insert; lia..|].
    exists s'. split; [do 2 f_equal|]. split; [|congruence].
    assert (take (S b) (<[b := c]> l) ++ drop (S e) (<[b := c]> l) = take b l ++ drop e l) as <-; [|done].
    rewrite (take_S_r _ _ c) by (apply list_lookup_insert_eq; lia). rewrite take_insert_ge, drop_insert_lt by lia.
    rewrite <- app_assoc. cbn [app]. by rewrite (drop_S l c e).
  - eexists. split; [done|]. split; [|done]. assert (e = len l) as -> by lia. rewrite drop_all, app_nil_r.
    destruct Hr as (Hl & junk & E). split; cbn [length stack].
    + rewrite length_take. lia.
    + exists ((Some <$> drop b l) ++ junk). by rewrite app_assoc, <- fmap_app, take_drop.
Qed.

(** The cells from [dest] on move up by one; the cell at [dest] stays. *)
Lemma insert_loop_spec s dest todo :
  (forall i, (i < todo)%nat -> exists c, stack s !! (dest + i)%nat = Some (Some c)) -> (dest + todo < len (stack s))%nat ->
  insert_loop s dest todo =
    Some (Iterator (take (S dest) (stack s) ++ take todo (drop dest (stack s)) ++ drop (dest + S todo) (stack s)) (length s)).
Proof.
  revert s. induction todo as [|todo IH]; intros s Hc Hl; cbn [insert_loop].
  { rewrite Nat.add_1_r, take_0, app_nil_l, take_drop. by destruct s. }
  destruct (Hc todo ltac:(lia)) as (c & Ec). unfold read, store. rewrite Ec. cbn [mjoin option_join mbind option_bind].
  rewrite (proj2 (Nat.ltb_lt _ _)) by lia. cbn [mbind option_bind]. rewrite IH; cbn [stack length].
  - f_equal. f_equal. rewrite take_insert_ge by lia. rewrite (take_S_r (drop dest (stack s)) todo (Some c)) by (by rewrite lookup_drop).
    rewrite <- !app_assoc. f_equal. f_equal.
    + rewrite drop_insert_ge, take_insert_ge by lia. done.
    + erewrite drop_S by (apply list_lookup_insert_eq; lia). cbn [app]. rewrite drop_insert_lt by lia. do 2 f_equal. lia.
  - intros i Hi. rewrite list_lookup_insert_ne by lia. apply Hc. lia.
  - rewrite length_insert. lia.
Qed.

(** An indicator inserted at [dest], if there is room. *)
Lemma insert_spec s l dest c :
  rep s l -> (dest <= len l)%nat -> (len l < len (stack s))%nat ->
  exists s1 s', insert s dest = Some (s1, dest) /\ store s1 dest c = Some s' /\ rep s' (take dest l ++ c :: drop dest l) /\
    len (stack s') = len (stack s).
Proof.
  intros Hr Hd Hlen. destruct Hr as (Hl & junk & E). unfold insert. rewrite insert_loop_spec.
  2: { intros i Hi. rewrite E, lookup_app_l by (rewrite length_fmap; lia). rewrite list_lookup_fmap.
       destruct (lookup_lt_is_Some_2 l (dest + i) ltac:(lia)) as [x ->]. by exists x. }
  2: lia.
  cbn [mbind option_bind stack length]. eexists _, _. split; [done|]. unfold store. cbn [stack length].
  assert (len (take (S dest) (stack s)) = S dest) as Ht by (rewrite length_take; lia).
  rewrite (proj2 (Nat.ltb_lt _ _)) by (rewrite length_app; lia). split; [done|].
  rewrite insert_app_l by lia. rewrite <- (take_drop dest (take (S dest) (stack s))), insert_app_r_alt by (rewrite length_take; lia).
  rewrite take_take, Nat.min_l by lia. rewrite length_take, Nat.min_l, Nat.sub_diag by lia.
  destruct (drop dest (take (S dest) (stack s))) as [|x [|y r]] eqn:Ed;
    pose proof (f_equal len Ed) as Hx; rewrite length_drop, Ht in Hx; cbn [len] in Hx; try lia.
  cbn [list_insert]. split.
  - split; cbn [length stack]; [rewrite length_app; cbn [len]; rewrite length_take, length_drop; lia|].
    exists (drop (dest + S (length s - dest)) (stack s)). rewrite fmap_app, fmap_cons, <- !app_assoc. cbn [app].
    change (<[0%nat := Some c]> [x]) with [Some c]. cbn [app].
    rewrite E, take_app_le, <- fmap_take by (rewrite length_fmap; lia). do 2 f_equal. f_equal.
    rewrite drop_app_le, <- fmap_drop by (rewrite length_fmap; lia).
    rewrite take_app_le by (rewrite length_fmap, length_drop; lia). by rewrite take_ge by (rewrite length_fmap, length_drop; lia).
  - cbn [stack]. change (<[0%nat := Some c]> [x]) with [Some c]. rewrite !length_app. cbn [len]. rewrite !length_take, !length_drop. lia.
Qed.

(** One step: [k] copies of a segment that follow it become an indicator. *)
Inductive folds : list CallSite -> list CallSite -> Prop :=
| folds_at l1 c seg k l2 :
    method c <> 0 -> (0 < k)%nat ->
    folds (l1 ++ (c :: seg) ++ concat (replicate k (c :: seg)) ++ l2)
      (l1 ++ (c :: seg) ++ [Call 0 (Z.of_nat (len (c :: seg)))] ++ l2).

(** What happens at [call]. *)
Variant folded (l : list CallSite) (d call : nat) : list CallSite -> nat -> Prop :=
| folded_null c : l !! call = Some c -> method c = 0 -> folded l d call l call
| folded_none : ~ agree l call (call + d) d -> folded l d call l call
| folded_some k c : l !! call = Some c -> method c <> 0 -> (0 < k)%nat -> (call + d + d * k <= len l)%nat ->
    folds l (take (call + d) l ++ Call 0 (Z.of_nat d) :: drop (call + d + d * k) l) ->
    folded l d call (take (call + d) l ++ Call 0 (Z.of_nat d) :: drop (call + d + d * k) l) (call + d).

Lemma eliminate_at_spec s l d call :
  rep s l -> (0 < d)%nat -> (call < len l)%nat ->
  exists s' l' next, eliminate_at s d call = Some (s', next) /\ rep s' l' /\ folded l d call l' next.
Proof.
  intros Hr Hd Hc. unfold eliminate_at. rewrite (read_rep s l) by done. destruct (lookup_lt_is_Some_2 l call Hc) as [c Ec].
  rewrite Ec. cbn [mbind option_bind]. destruct (Z.eqb_spec (method c) 0) as [H0|H0].
  { exists s, l, call. split_and!; [done|done|]. by apply (folded_null _ _ _ c). }
  rewrite (proj1 Hr). destruct (recursion_count_spec s l call d (S (len l)) 0 Hr Hd) as (k & -> & _ & Hall & Hnot); [lia|lia|].
  cbn [mbind option_bind]. destruct (Nat.eqb_spec k 0) as [->|Hk].
  { exists s, l, call. split_and!; [done|done|]. apply folded_none. by rewrite Nat.mul_0_r, Nat.add_0_r in Hnot. }
  assert (call + d <= len l)%nat as Hcd.
  { destruct (Hall 0%nat ltac:(lia) 0%nat Hd) as (x & _ & Hx%lookup_lt_Some). lia. }
  destruct (repeats_split l call d k Hcd Hall) as (Hseg & El & Hlen).
  rewrite Nat.add_assoc. destruct (remove_frame_spec s l (call + d) (call + d + d * k) Hr ltac:(lia)) as (s1 & -> & Hr1 & Hc1). cbn [mbind option_bind].
  assert (len (take (call + d) l) = call + d)%nat as Ht by (rewrite length_take; lia).
  destruct (insert_spec s1 _ (call + d) (Call 0 (Z.of_nat d)) Hr1) as (s2 & s3 & -> & E3 & Hr3 & _).
  - rewrite length_app. lia.
  - pose proof (rep_cells s l Hr). rewrite length_app, length_drop, Ht. nia.
  - cbn [mbind option_bind]. rewrite E3. cbn [mbind option_bind]. rewrite take_app_length', drop_app_length' in Hr3 by done.
    eexists s3, _, _. split_and!; [done|exact Hr3|]. apply (folded_some _ _ _ k c); [done|done|lia|done|].
    rewrite (take_split call (call + d)), Nat.add_sub' by lia.
    destruct (take d (drop call l)) as [|x seg] eqn:Es; [cbn [len] in Hseg; lia|].
    assert (x = c) as ->. { pose proof (f_equal (fun l => l !! 0%nat) Es) as H. cbn in H. rewrite lookup_take_lt, lookup_drop, Nat.add_0_r in H by done. congruence. }
    rewrite El at 1. rewrite <- app_assoc, <- Hseg. apply (folds_at _ c seg k); [done|lia].
Qed.

(** ** No frame is followed by itself *)

(** Up to index [n]; indicators apart. *)
Definition no_repeat (l : list CallSite) (n : nat) : Prop :=
  forall i c, (i < n)%nat -> l !! i = Some c -> l !! S i = Some c -> method c = 0.

(** The end of the stack is replaced by an indicator and a later part of it. *)
Lemma no_repeat_fold l a b n : no_repeat l (len l) -> no_repeat (take a l ++ Call 0 n :: drop b l) (len (take a l ++ Call 0 n :: drop b l)).
Proof.
  intros H i c _ Hi Hs. destruct (Nat.lt_ge_cases (S i) (len (take a l))) as [Hlt|Hge].
  - rewrite lookup_app_l in Hi, Hs by lia. rewrite length_take in Hlt. rewrite lookup_take_lt in Hi, Hs by lia. apply (H i); [lia|done..].
  - rewrite (lookup_app_r _ _ (S i)) in Hs by done. destruct (S i - len (take a l))%nat as [|m] eqn:E.
    { by injection Hs as <-. }
    rewrite lookup_app_r in Hi by lia. replace (i - len (take a l))%nat with m in Hi by lia. destruct m as [|m]; [by injection Hi as <-|].
    change (drop b l !! m = Some c) in Hi. change (drop b l !! S m = Some c) in Hs. rewrite lookup_drop in Hi, Hs. apply (H (b + m)%nat); [by eapply lookup_lt_Some|done|]. by rewrite Nat.add_succ_r in Hs.
Qed.

(** The first pass removes direct recursion, call by call. *)
Lemma no_repeat_first l call l' next :
  folded l 1 call l' next -> no_repeat l call -> no_repeat l' (S next).
Proof.
  intros [c Hc H0|Hno|k c Hc H0 Hk Hle Hf] H i x Hi Ex Es.
  - destruct (decide (i = call)) as [->|]; [congruence|]. apply (H i); [lia|done..].
  - destruct (decide (i = call)) as [->|]; [|apply (H i); [lia|done..]]. exfalso. apply Hno. intros m Hm. assert (m = 0%nat) as -> by lia.
    exists x. by rewrite !Nat.add_0_r, Nat.add_1_r.
  - assert (len (take (call + 1) l) = call + 1)%nat as Ht by (rewrite length_take; lia).
    destruct (decide (i = call + 1)%nat) as [->|]; [rewrite lookup_app_r, Ht, Nat.sub_diag in Ex by lia; by injection Ex as <-|].
    destruct (decide (i = call)) as [->|].
    + rewrite lookup_app_r, Ht in Es by lia. replace (S call - (call + 1))%nat with 0%nat in Es by lia. by injection Es as <-.
    + rewrite lookup_app_l, lookup_take_lt in Ex, Es by lia. apply (H i); [lia|done..].
Qed.

Lemma no_repeat_later l d call l' next : folded l d call l' next -> no_repeat l (len l) -> no_repeat l' (len l').
Proof. intros [c Hc H0|Hno|k c Hc H0 Hk Hle Hf] H; [done..|]. by apply no_repeat_fold. Qed.

Lemma folded_rtc l d call l' next :
  (0 < d)%nat -> folded l d call l' next -> rtc folds l l' /\ (call <= next)%nat /\ (len l' <= len l)%nat.
Proof.
  intros Hd [c Hc H0|Hno|k c Hc H0 Hk Hle Hf]; [done..|]. split_and!; [by apply rtc_once|lia|].
  rewrite length_app. cbn [len]. rewrite length_take, length_drop. nia.
Qed.

(** A pass over the stack, for an invariant of the steps. *)
Lemma eliminate_calls_spec (P : list CallSite -> nat -> Prop) d fuel s l call :
  (0 < d)%nat -> (forall l call l' next, folded l d call l' next -> P l call -> P l' (S next)) ->
  rep s l -> (len l - call < fuel)%nat -> P l call ->
  exists s' l' last, eliminate_calls fuel s d call = Some s' /\ rep s' l' /\ rtc folds l l' /\ P l' last /\ (len l' <= last)%nat.
Proof.
  intros Hd Hstep. revert s l call. induction fuel as [|fuel IH]; intros s l call Hr Hf HP; [lia|]. cbn [eliminate_calls].
  rewrite (proj1 Hr). destruct (Nat.ltb_spec call (len l)) as [Hc|Hc]; [|by exists s, l, call].
  destruct (eliminate_at_spec s l d call Hr Hd Hc) as (s1 & l1 & next & -> & Hr1 & Hfold). cbn [mbind option_bind].
  destruct (folded_rtc _ _ _ _ _ Hd Hfold) as (Hrtc & Hn & Hl).
  destruct (IH s1 l1 (S next) Hr1) as (s' & l' & last & E & Hr' & Hrtc' & HP'); [lia|by eapply Hstep|].
  exists s', l', last. split_and!; [done|done|by etrans|apply HP'..].
Qed.

Lemma eliminate_depths_later s l d todo :
  (0 < d)%nat -> rep s l ->
  exists s' l', eliminate_depths s d todo = Some s' /\ rep s' l' /\ rtc folds l l' /\ (no_repeat l (len l) -> no_repeat l' (len l')).
Proof.
  revert s l d. induction todo as [|todo IH]; intros s l d Hd Hr; cbn [eliminate_depths]; [by exists s, l|].
  destruct (eliminate_calls_spec (fun l' _ => no_repeat l (len l) -> no_repeat l' (len l')) d (S (length s)) s l 0 Hd)
    as (s1 & l1 & last & -> & Hr1 & Hrtc & Hno & _); [|done|rewrite (proj1 Hr); lia|done|].
  { intros l1 call l2 next Hf H H0. eapply no_repeat_later; eauto. }
  cbn [mbind option_bind]. destruct (IH s1 l1 (S d) ltac:(lia) Hr1) as (s' & l' & E & Hr' & Hrtc' & Hno').
  exists s', l'. split_and!; [done|done|by etrans|auto].
Qed.

Lemma eliminate_recursions_spec s l max :
  rep s l ->
  exists s' l', eliminate_recursions s max = Some s' /\ rep s' l' /\ rtc folds l l' /\ (0 < max -> no_repeat l' (len l')).
Proof.
  intros Hr. unfold eliminate_recursions. destruct (Z.to_nat max) as [|todo] eqn:E.
  { exists s, l. split_and!; [done|done|done|lia]. }
  cbn [eliminate_depths]. destruct (eliminate_calls_spec no_repeat 1 (S (length s)) s l 0 ltac:(lia))
    as (s1 & l1 & last & -> & Hr1 & Hrtc & Hno & Hlast); [apply no_repeat_first|done|rewrite (proj1 Hr); lia|intros i c Hi; lia|].
  cbn [mbind option_bind]. destruct (eliminate_depths_later s1 l1 2 todo ltac:(lia) Hr1) as (s' & l' & E' & Hr' & Hrtc' & Hno').
  exists s', l'. split_and!; [done|done|by etrans|]. intros _. apply Hno'. intros i c Hi. apply Hno. lia.
Qed.

(** ** From the frames of the thread *)

(** The frames that are looked at. *)
Definition frames (max_depth : Z) (stream : list CallSite) : list CallSite :=
  if max_depth =? 0 then stream else take (Z.to_nat max_depth) stream.

Lemma push_rep s l c :
  rep s l -> (len l < len (stack s))%nat ->
  exists s1, store s (length s) c = Some s1 /\ rep (Iterator (stack s1) (S (length s1))) (l ++ [c]).
Proof.
  intros (Hl & junk & E) Hc. unfold store. rewrite (proj2 (Nat.ltb_lt _ _)) by lia. eexists. split; [done|]. cbn [stack length].
  split; cbn [length stack]; [rewrite length_app; cbn [len]; lia|].
  rewrite E in *. rewrite length_app, length_fmap in Hc. destruct junk as [|j junk]; [cbn [len] in Hc; lia|]. exists junk.
  rewrite Hl, <- (length_fmap Some l), insert_app_r_alt, Nat.sub_diag by done. rewrite fmap_app, <- app_assoc. done.
Qed.

Lemma grow_rep s l n : rep s l -> rep (Iterator (stack s ++ replicate n None) (length s)) l.
Proof. intros (Hl & junk & E). split; [done|]. exists (junk ++ replicate n None). cbn [stack]. by rewrite E, <- app_assoc. Qed.

Lemma fill_loop_spec s l max stream :
  rep s l -> 0 <= max -> (max = 0 \/ Z.of_nat (len l) <= max) ->
  exists s', fill_loop s max stream = Some s' /\ rep s' (l ++ (if max =? 0 then stream else take (Z.to_nat max - len l) stream)).
Proof.
  intros Hr Hm. revert s l Hr. induction stream as [|c stream IH]; intros s l Hr Hl; cbn [fill_loop].
  { exists s. split; [done|]. by destruct (max =? 0); rewrite ?take_nil, app_nil_r. }
  rewrite (proj1 Hr). destruct ((max =? 0) || (Z.of_nat (len l) <? max)) eqn:E.
  - set (s1 := if (len l =? len (stack s))%nat then _ else s).
    assert (rep s1 l /\ (len l < len (stack s1))%nat) as [Hr1 Hc1].
    { subst s1. destruct (Nat.eqb_spec (len l) (len (stack s))) as [Eq|Hne].
      - rewrite <- (proj1 Hr). split; [by apply grow_rep|]. cbn [stack]. rewrite length_app, length_replicate. pose proof (proj1 Hr). lia.
      - split; [done|]. pose proof (rep_cells s l Hr). lia. }
    destruct (push_rep s1 l c Hr1 Hc1) as (s2 & E2 & Hr2). rewrite E2. cbn [mbind option_bind].
    apply orb_true_iff in E. destruct (IH _ _ Hr2) as (s' & -> & Hr').
    { rewrite length_app. cbn [len]. destruct E as [E%Z.eqb_eq|E%Z.ltb_lt]; [by left|right; lia]. }
    exists s'. split; [done|]. rewrite length_app, <- app_assoc in Hr'. cbn [len app] in Hr'.
    destruct (Z.eqb_spec max 0) as [->|]; [done|]. destruct E as [E|E%Z.ltb_lt]; [done|].
    replace (Z.to_nat max - len l)%nat with (S (Z.to_nat max - (len l + 1))) by lia. done.
  - apply orb_false_iff in E as [E1 E2%Z.ltb_ge]. apply Z.eqb_neq in E1 as E1'. exists s. split; [done|].
    rewrite E1. replace (Z.to_nat max - len l)%nat with 0%nat by lia. by rewrite app_nil_r.
Qed.

Lemma calls_rep s l : rep s l -> calls s = Some l.
Proof.
  intros (Hl & junk & E). unfold calls. rewrite E, Hl, take_app_le, take_ge by (by rewrite length_fmap). 
  induction l as [|c l IH] in |- *; [done|]. cbn. by rewrite IH.
Qed.

(** C23: the stack trace of an allocation is the stack of the thread with its
    recursions folded: the constructor never leaves its array, and every step
    from the frames, cut off at [max_depth], to the calls delivered replaces
    repetitions directly behind a segment of the stack by an indicator with
    the length of the segment.  If recursions are looked for at all, no frame
    of the result is followed by itself. *)
Theorem recursions_folded stream max_depth recursion_max_detection_depth :
  0 <= max_depth ->
  exists s l, make stream max_depth recursion_max_detection_depth = Some s /\ calls s = Some l /\
    rtc folds (frames max_depth stream) l /\
    (recursion_max_detection_depth <> 0 -> forall i c, l !! i = Some c -> l !! S i = Some c -> method c = 0).
Proof.
  intros Hm. unfold make, fill, frames. destruct (fill_loop_spec (Iterator [] 0) [] max_depth stream) as (s & -> & Hr);
    [split; [done|by exists []]|done|cbn [len]; lia|].
  cbn [mbind option_bind len app] in *. rewrite Nat.sub_0_r in Hr.
  destruct (eliminate_recursions_spec s _ (if recursion_max_detection_depth <? 0 then Z.of_nat (length s) else recursion_max_detection_depth) Hr)
    as (s' & l' & -> & Hr' & Hrtc & Hno).
  exists s', l'. split_and!; [done|by apply calls_rep|done|]. intros Hne i c Hi Hs.
  destruct (Z.ltb_spec recursion_max_detection_depth 0) as [Hlt|Hge].
  - destruct (decide (length s = 0)%nat) as [E0|E0]; [|apply (Hno ltac:(lia) i); [by eapply lookup_lt_Some|done..]].
    rewrite (proj1 Hr) in E0. apply nil_length_inv in E0. rewrite E0 in Hrtc. apply rtc_nf in Hrtc as <-; [done|].
    intros [x Hx]. inversion Hx as [l1 c1 seg k l2 _ _ E]. by destruct l1.
  - apply (Hno ltac:(lia) i); [by eapply lookup_lt_Some|done..].
Qed.

(** A frame that calls itself twice, in a pair of methods that call each
    other. *)
Lemma recursions_folded_witness : exists s,
  make [Call 8 1; Call 8 1; Call 8 1; Call 16 2; Call 24 3; Call 16 2; Call 24 3; Call 32 0] 0 (-1) = Some s /\
  calls s = Some [Call 8 1; Call 0 1; Call 16 2; Call 24 3; Call 0 2; Call 32 0].
Proof.
  destruct (recursions_folded [Call 8 1; Call 8 1; Call 8 1; Call 16 2; Call 24 3; Call 16 2; Call 24 3; Call 32 0] 0 (-1))
    as (s & l & E & Ec & _); [reflexivity|].
  exists s. split; [exact E|]. vm_compute in E. injection E as <-. reflexivity.
Defined.

End StackTraceSpec.
