(* ===== verification/AllocationSites.v ===== *)
(** * Allocation sites ([prims/AllocationSiteStorage.cpp], [prims/AllocationSites.cpp],
      [prims/AllocatedTypes.cpp])

    Where an object was allocated: the identifier of the site in the upper
    bits of the identity hash code of the object, and the tables that give
    call stacks and types their identifiers. *)

From stdpp Require Import gmap.
From S2P Require Import Prelude EventPointerList EventsRuntime Dict.
From Stdlib Require Import ZArith Lia.

(** ** Sites in object headers *)

Module AllocationSiteStorage.
Import EventsRuntime.

(** *** The header word ([oops/markOop.hpp]) *)

Definition hash_bits : Z := 31.
Definition hash_shift : Z := 8.
Definition hash_mask : Z := (1 ≪ hash_bits) - 1.
Definition no_hash : Z := 0.

Definition mark_hash (mark : Z) : Z := (mark ≫ hash_shift) .& hash_mask.
Definition copy_set_hash (mark hash : Z) : Z :=
  (mark .& Z.lnot (hash_mask ≪ hash_shift)) .| ((hash .& hash_mask) ≪ hash_shift).

(** The lowest three bits: the bias pattern and the lock. *)
Definition is_neutral (mark : Z) : bool := mark .& 7 =? 1.
Definition has_monitor (mark : Z) : bool := negb (mark .& 2 =? 0).
Definition has_locker (mark : Z) : bool := mark .& 3 =? 0.

(** *** Bits, shifts and masks *)

Definition allocation_site_bits (site : Z) : Z := if is_big_allocation_site site then 24 else 16.
Definition allocation_site_shift (site : Z) : Z := hash_bits - allocation_site_bits site.
Definition allocation_site_mask_in_place (site : Z) : Z :=
  u32 (((1 ≪ allocation_site_bits site) - 1) ≪ allocation_site_shift site).

(** A hash code tells by its highest bit which kind of site it holds. *)
Definition site_in_hash (hash : Z) : Z := s32 ((hash ≫ (hash_bits - 24)) .& ((1 ≪ 24) - 1)).

(** *** The headers preserved by [MarkSweep]: objects and headers in the array
    and on the overflow stacks, from the top *)

Record preserved := Preserved {
  preserved_count_max : Z;
  preserved_marks : list (Z * Z);
  preserved_stack : list (Z * Z);
}.

Definition preserve_mark (p : preserved) (obj mark : Z) : preserved :=
  if Z.of_nat (length (preserved_marks p)) <? preserved_count_max p
  then Preserved (preserved_count_max p) (preserved_marks p ++ [(obj, mark)]) (preserved_stack p)
  else Preserved (preserved_count_max p) (preserved_marks p) ((obj, mark) :: preserved_stack p).

Section Storage.
(** [TraceObjectsHashCodeElimination], [TraceObjectsSaveAllocationSiteAllowUnknown]. *)
Variables TraceObjectsHashCodeElimination TraceObjectsSaveAllocationSiteAllowUnknown : bool.

(** [ObjectSynchronizer::FastHashCode]: the header of an object with this
    header once it has a hash code. *)
Variable FastHashCode : Z -> Z.

(** The new header of an object with header [mark]. *)
Definition store (at_safepoint has_custom_hash_code : bool) (mark allocation_site : Z) : Z :=
  let '(hash, mark) :=
    if at_safepoint then (1, mark)
    else if TraceObjectsHashCodeElimination && negb (allocation_site =? ALLOCATION_SITE_IDENTIFIER_VM_INTERNAL) &&
            has_custom_hash_code then (0, mark)
    else let mark := FastHashCode mark in (mark_hash mark, mark) in
  let hash := hash .& (2 ^ 32 - 1 - allocation_site_mask_in_place allocation_site) in
  let hash := hash .| (allocation_site ≪ allocation_site_shift allocation_site) in
  copy_set_hash mark hash.

(** The word at an address; [Thread::is_lock_owned]. *)
Variable memory : Z -> Z.
Variable is_lock_owned : Z -> bool.

Variable marks : preserved.

(** The search for the preserved header of [obj]: the last header looked at,
    and whether it is the one; [None] is an access outside of the stacks. *)
Fixpoint find_preserved (count : nat) (stack : list (Z * Z)) (obj mark : Z) : option (Z * bool) :=
  match count with
  | O => Some (mark, false)
  | S count =>
      match stack with
      | [] => None
      | (candidate, mark) :: stack => if candidate =? obj then Some (mark, true) else find_preserved count stack obj mark
      end
  end.

Definition displaced_mark_helper (mark : Z) : Z := memory (mark .& Z.lnot 2).

(** The header that holds the hash code.  [has_displaced_mark] is the method
    of objects, called on the header: it looks at the word the header points
    to.  The header is the first word of a monitor and of a lock record. *)
Definition header_of (mark : Z) : Z :=
  if is_neutral mark then mark
  else if memory mark .& 1 =? 0 then displaced_mark_helper mark
  else if has_monitor mark then memory (Z.lxor mark 2)
  else if is_lock_owned mark then displaced_mark_helper mark
  else if has_locker mark then memory mark
  else FastHashCode mark.

Definition load (obj mark : Z) (is_mark_valid : bool) : option Z :=
  '(mark, known) ← (if is_mark_valid then Some (header_of mark, true)
                    else find_preserved (length (preserved_marks marks)) (preserved_stack marks) obj mark);
  if negb known && TraceObjectsSaveAllocationSiteAllowUnknown then Some ALLOCATION_SITE_IDENTIFIER_UNKNOWN
  else
    let hash := mark_hash mark in
    if hash =? no_hash then Some ALLOCATION_SITE_IDENTIFIER_UNKNOWN
    else
      let site := site_in_hash hash in
      Some (s32 ((hash .& allocation_site_mask_in_place site) ≫ allocation_site_shift site)).

End Storage.

End AllocationSiteStorage.

(** ** What was stored is loaded *)

Module StorageSpec.
Import EventsRuntime AllocationSiteStorage.

(** An identifier that fits: 15 bits, or 23 bits and a mark. *)
Definition storable (site : Z) : Prop := 0 < site < 2 ^ 15 \/ 2 ^ 23 <= site < 2 ^ 24.

Lemma hash_mask_ones : hash_mask = Z.ones 31.
Proof. reflexivity. Qed.

Lemma mark_hash_range mark : 0 <= mark_hash mark < 2 ^ 31.
Proof. unfold mark_hash. rewrite hash_mask_ones, Z.land_ones by lia. by apply Z.mod_pos_bound. Qed.

(** Setting the hash code changes nothing else. *)
Lemma set_hash_spec mark hash :
  0 <= hash < 2 ^ 31 -> mark_hash (copy_set_hash mark hash) = hash /\
    copy_set_hash mark hash .& Z.lnot (hash_mask ≪ hash_shift) = mark .& Z.lnot (hash_mask ≪ hash_shift).
Proof.
  intros Hh. unfold mark_hash, copy_set_hash, hash_shift. rewrite hash_mask_ones. split.
  - rewrite Z.shiftr_lor, Z.shiftr_land, Z.shiftr_shiftl_l, Z.sub_diag, Z.shiftl_0_r by lia.
    change (Z.lnot (Z.ones 31 ≪ 8) ≫ 8) with (Z.lnot (Z.ones 31)).
    rewrite Z.land_lor_distr_l, <- !Z.land_assoc, (Z.land_comm (Z.lnot _)), Z.land_lnot_diag, Z.land_0_r, Z.lor_0_l, Z.land_diag.
    rewrite Z.land_ones by lia. by apply Z.mod_small.
  - rewrite Z.land_lor_distr_l, <- Z.land_assoc, Z.land_diag, Z.shiftl_land, <- (Z.land_assoc (hash ≪ 8)), Z.land_lnot_diag.
    by rewrite Z.land_0_r, Z.lor_0_r.
Qed.

Lemma neutral_set_hash mark hash : 0 <= hash < 2 ^ 31 -> is_neutral (copy_set_hash mark hash) = is_neutral mark.
Proof.
  intros Hh. destruct (set_hash_spec mark hash Hh) as [_ E]. unfold is_neutral. f_equal.
  apply (f_equal (fun z => z .& 7)) in E. rewrite <- !Z.land_assoc in E. exact E.
Qed.

(** A hash code with the site in its upper bits. *)
Definition with_site (hash site : Z) : Z := site * 2 ^ allocation_site_shift site + hash mod 2 ^ allocation_site_shift site.

Lemma shift_cases site : storable site ->
  (allocation_site_shift site = 15 /\ is_big_allocation_site site = false /\ allocation_site_mask_in_place site = (2 ^ 16 - 1) * 2 ^ 15 /\ 0 < site < 2 ^ 15) \/
  (allocation_site_shift site = 7 /\ is_big_allocation_site site = true /\ allocation_site_mask_in_place site = (2 ^ 24 - 1) * 2 ^ 7 /\ 2 ^ 23 <= site < 2 ^ 24).
Proof.
  unfold allocation_site_mask_in_place, allocation_site_shift, allocation_site_bits, is_big_allocation_site. intros [H|H]; [left|right].
  - by rewrite (proj2 (Z.leb_gt _ _)) by lia.
  - by rewrite (proj2 (Z.leb_le _ _)) by lia.
Qed.

Lemma clear_upper h k : 0 <= h < 2 ^ 31 -> 0 <= k -> h .& (2 ^ 31 .| Z.ones k) = h mod 2 ^ k.
Proof.
  intros Hh Hk. rewrite Z.land_lor_distr_r, Z.land_ones by done.
  assert (h = h .& Z.ones 31) as -> by (rewrite Z.land_ones by lia; symmetry; by apply Z.mod_small).
  rewrite <- Z.land_assoc. change (Z.ones 31 .& 2 ^ 31) with 0. by rewrite Z.land_0_r, Z.lor_0_l.
Qed.

Lemma store_hash h site : 0 <= h < 2 ^ 31 -> storable site ->
  (h .& (2 ^ 32 - 1 - allocation_site_mask_in_place site)) .| (site ≪ allocation_site_shift site) = with_site h site.
Proof.
  intros Hh Hs. unfold with_site. rewrite Z.lor_comm.
  assert (h .& (2 ^ 32 - 1 - allocation_site_mask_in_place site) = h mod 2 ^ allocation_site_shift site /\ 0 <= allocation_site_shift site) as [-> Hsh].
  { destruct (shift_cases site Hs) as [(-> & _ & -> & _)|(-> & _ & -> & _)]; (split; [|lia]).
    - exact (clear_upper h 15 Hh ltac:(lia)).
    - exact (clear_upper h 7 Hh ltac:(lia)). }
  apply lor_disjoint_add; [done|]. apply Z.mod_pos_bound. lia.
Qed.

Lemma with_site_range h site : storable site -> 0 < with_site h site < 2 ^ 31.
Proof.
  intros Hs. unfold with_site. destruct (shift_cases site Hs) as [(-> & _ & _ & H)|(-> & _ & _ & H)].
  - pose proof (Z.mod_pos_bound h (2 ^ 15) ltac:(lia)). lia.
  - pose proof (Z.mod_pos_bound h (2 ^ 7) ltac:(lia)). lia.
Qed.

Lemma with_site_div h site : storable site -> with_site h site / 2 ^ allocation_site_shift site = site.
Proof.
  intros Hs. unfold with_site. assert (0 <= allocation_site_shift site) by (destruct (shift_cases site Hs) as [(-> & _)|(-> & _)]; lia).
  rewrite Z.div_add_l by lia. rewrite Z.div_small by (apply Z.mod_pos_bound; lia). lia.
Qed.

(** The kind of the site is recognised. *)
Lemma site_in_hash_kind h site : storable site ->
  is_big_allocation_site (site_in_hash (with_site h site)) = is_big_allocation_site site.
Proof.
  intros Hs. pose proof (with_site_range h site Hs) as Hr. unfold site_in_hash. change (hash_bits - 24) with 7. change ((1 ≪ 24) - 1) with (Z.ones 24).
  rewrite Z.shiftr_div_pow2, Z.land_ones by lia. assert (0 <= with_site h site / 2 ^ 7 < 2 ^ 24) as Hd
    by (split; [apply Z.div_pos; lia|apply Z.div_lt_upper_bound; lia]).
  rewrite Z.mod_small, swrap_small by lia. unfold with_site, is_big_allocation_site in *.
  destruct (shift_cases site Hs) as [(-> & _ & _ & H)|(-> & _ & _ & H)].
  - pose proof (Z.mod_pos_bound h (2 ^ 15) ltac:(lia)). rewrite (proj2 (Z.leb_gt 8388608 site)) by lia. apply Z.leb_gt.
    apply Z.div_lt_upper_bound; lia.
  - pose proof (Z.mod_pos_bound h (2 ^ 7) ltac:(lia)). rewrite (proj2 (Z.leb_le 8388608 site)) by lia. apply Z.leb_le.
    apply Z.div_le_lower_bound; lia.
Qed.

Lemma load_hash h site : storable site ->
  let hash := with_site h site in
  s32 ((hash .& allocation_site_mask_in_place (site_in_hash hash)) ≫ allocation_site_shift (site_in_hash hash)) = site.
Proof.
  intros Hs hash. pose proof (site_in_hash_kind h site Hs) as Hk. fold hash in Hk.
  unfold allocation_site_mask_in_place, allocation_site_shift, allocation_site_bits in *. rewrite Hk.
  fold (allocation_site_bits site) (allocation_site_shift site) (allocation_site_mask_in_place site).
  pose proof (with_site_div h site Hs) as Hdiv. fold hash in Hdiv. rewrite Z.shiftr_land.
  destruct (shift_cases site Hs) as [(E & _ & -> & H)|(E & _ & -> & H)]; rewrite E in *.
  - change (((2 ^ 16 - 1) * 2 ^ 15) ≫ 15) with (Z.ones 16). rewrite Z.shiftr_div_pow2, Hdiv, Z.land_ones, Z.mod_small by lia.
    by apply swrap_small; lia.
  - change (((2 ^ 24 - 1) * 2 ^ 7) ≫ 7) with (Z.ones 24). rewrite Z.shiftr_div_pow2, Hdiv, Z.land_ones, Z.mod_small by lia.
    by apply swrap_small; lia.
Qed.

(** The bits of an aligned address. *)
Lemma aligned_bits p :
  p .& 7 = 0 -> p .& 2 = 0 /\ p .& 3 = 0 /\ p .& Z.lnot 2 = p /\ (p .| 2) .& Z.lnot 2 = p /\ Z.lxor (p .| 2) 2 = p.
Proof.
  intros Hp. assert (forall m, 7 .& m = m -> p .& m = 0) as Hlow by (intros m <-; by rewrite Z.land_assoc, Hp).
  pose proof (Hlow 2 eq_refl) as H2. assert (p .& Z.lnot 2 = p) as Hb.
  { rewrite <- Z.ldiff_land. pose proof (Z.lor_ldiff_and p 2) as E. by rewrite H2, Z.lor_0_r in E. }
  split_and!; [done|by apply Hlow|done|by rewrite Z.land_lor_distr_l, Z.land_lnot_diag, Z.lor_0_r|].
  apply Z.bits_inj'. intros n Hn. rewrite Z.lxor_spec, Z.lor_spec. destruct (Z.testbit 2 n) eqn:E2; [|by rewrite orb_false_r, xorb_false_r].
  apply (f_equal (fun z => Z.testbit z n)) in H2. rewrite Z.land_spec, E2, Z.bits_0, andb_true_r in H2. by rewrite H2.
Qed.

Section Storage.
Variables elimination allow_unknown : bool.
Variable FastHashCode : Z -> Z.
Variable memory : Z -> Z.
Variable is_lock_owned : Z -> bool.
Variable marks : preserved.

(** An unlocked object stays unlocked when it gets a hash code. *)
Hypothesis FastHashCode_neutral : forall mark, is_neutral mark = true -> is_neutral (FastHashCode mark) = true.

Abbreviation header_of := (header_of FastHashCode memory is_lock_owned).
Abbreviation load := (load allow_unknown FastHashCode memory is_lock_owned marks).
Abbreviation store := (store elimination FastHashCode).

(** The header of a locked object is that of its lock record or monitor. *)
Lemma header_locked p :
  p .& 7 = 0 -> is_neutral (memory p) = true -> header_of p = memory p /\ header_of (p .| 2) = memory p.
Proof.
  intros Hp Hn. destruct (aligned_bits p Hp) as (H2 & H3 & Hb0 & Hb & Hx).
  assert ((memory p .& 1 =? 0) = false) as Hodd.
  { apply Z.eqb_eq in Hn. apply Z.eqb_neq. change 1 with (7 .& 1). by rewrite Z.land_assoc, Hn. }
  split; unfold AllocationSiteStorage.header_of, is_neutral, has_monitor, has_locker, displaced_mark_helper.
  - rewrite Hp. change (0 =? 1) with false. rewrite Hodd, H2, H3, Hb0. cbn. by destruct (is_lock_owned p).
  - rewrite !Z.land_lor_distr_l, Hp, H2. change (0 .| 2 .& 7 =? 1) with false. change (negb (0 .| 2 .& 2 =? 0)) with true.
    rewrite Hx, <- Z.land_lor_distr_l, Hb. by case_match.
Qed.

(** The header of a new object as [store] leaves it. *)
Lemma store_spec at_safepoint custom mark site :
  is_neutral mark = true -> storable site ->
  exists mark1 h, is_neutral mark1 = true /\ (mark1 = mark \/ mark1 = FastHashCode mark) /\
    store at_safepoint custom mark site = copy_set_hash mark1 (with_site h site).
Proof.
  intros Hn Hs. unfold AllocationSiteStorage.store. destruct at_safepoint; [|destruct (_ && _)].
  - exists mark, 1. split_and!; [done|by left|]. by rewrite (store_hash 1 site) by (done || lia).
  - exists mark, 0. split_and!; [done|by left|]. by rewrite (store_hash 0 site) by (done || lia).
  - exists (FastHashCode mark), (mark_hash (FastHashCode mark)). split_and!; [by apply FastHashCode_neutral|by right|].
    by rewrite store_hash by (done || apply mark_hash_range).
Qed.


(** A header preserved by [MarkSweep] is not found: as long as the array
    has room, the headers of objects with an invalid header are in the array,
    but [load] looks for them on the overflow stacks, as often as there are
    elements in the array, and so reads beyond the stacks. *)
Theorem preserved_marks_missed max l obj mark :
  marks = foldl (fun p om => preserve_mark p om.1 om.2) (Preserved max [] []) l ->
  l <> [] -> Z.of_nat (length l) <= max -> load obj mark false = None.
Proof.
  intros Hm Hne Hmax.
  assert (forall l k, Z.of_nat (length k + length l) <= max ->
    foldl (fun p om => preserve_mark p om.1 om.2) (Preserved max k []) l = Preserved max (k ++ l) []) as Hf.
  { clear. induction l as [|[o m] l IH]; intros k Hk; cbn [foldl]; [by rewrite app_nil_r|].
    unfold preserve_mark at 2. cbn [preserved_marks preserved_count_max preserved_stack fst snd length] in *.
    rewrite (proj2 (Z.ltb_lt _ _)) by lia. rewrite IH by (rewrite length_app; cbn [length]; lia). by rewrite <- app_assoc. }
  rewrite Hf in Hm by (cbn [length]; lia). unfold AllocationSiteStorage.load. rewrite Hm. cbn [preserved_marks preserved_stack app].
  by destruct l.
Qed.

End Storage.


Lemma preserved_marks_missed_witness :
  load true (fun m => m) (fun _ => 0) (fun _ => false) (preserve_mark (Preserved 64 [] []) 4096 3841) 4096 3 false = None.
Proof.
  apply (preserved_marks_missed true (fun m => m) (fun _ => 0) (fun _ => false) _ 64 [(4096, 3841)]); [reflexivity|discriminate|].
  by compute.
Defined.

End StorageSpec.
