(* ===== verification/SymbolsWriter.v ===== *)
(** * The symbols file ([prims/SymbolsWriter.cpp], [prims/AllocatedTypes.cpp])

    What the analyzer has to know besides the trace: the causes of
    collections, the types with their fields and methods, and the allocation
    sites.  Types are numbered when they are first needed and written then,
    after their super types. *)

From stdpp Require Import gmap strings pretty.
From S2P Require Import Prelude EventsWriter EventsRuntime StackTraces.
From Stdlib Require Import ZArith Lia Ascii String.

(** ** The causes of collections ([gc_interface/gcCause.hpp], [gcCause.cpp]) *)

Module GCCause.

Inductive Cause :=
| _java_lang_system_gc | _full_gc_alot | _scavenge_alot | _allocation_profiler | _jvmti_force_gc | _gc_locker
| _heap_inspection | _heap_dump | _wb_young_gc | _wb_conc_mark | _update_allocation_context_stats_inc
| _update_allocation_context_stats_full | _no_gc | _no_cause_specified | _allocation_failure | _tenured_generation_full
| _metadata_GC_threshold | _cms_generation_full | _cms_initial_mark | _cms_final_remark | _cms_concurrent_mark
| _cms_sweeping | _old_generation_expanded_on_last_scavenge | _old_generation_too_full_to_scavenge
| _adaptive_size_policy | _g1_inc_collection_pause | _g1_inc_collection_pause_young | _g1_inc_collection_pause_mixed
| _g1_humongous_allocation | _last_ditch_collection.

(** The causes before [_last_gc_cause], in the order of their numbers. *)
Definition causes : list Cause :=
  [_java_lang_system_gc; _full_gc_alot; _scavenge_alot; _allocation_profiler; _jvmti_force_gc; _gc_locker;
   _heap_inspection; _heap_dump; _wb_young_gc; _wb_conc_mark; _update_allocation_context_stats_inc;
   _update_allocation_context_stats_full; _no_gc; _no_cause_specified; _allocation_failure; _tenured_generation_full;
   _metadata_GC_threshold; _cms_generation_full; _cms_initial_mark; _cms_final_remark; _cms_concurrent_mark;
   _cms_sweeping; _old_generation_expanded_on_last_scavenge; _old_generation_too_full_to_scavenge;
   _adaptive_size_policy; _g1_inc_collection_pause; _g1_inc_collection_pause_young; _g1_inc_collection_pause_mixed;
   _g1_humongous_allocation; _last_ditch_collection].

Definition to_string (cause : Cause) : string :=
  match cause with
  | _java_lang_system_gc => "System.gc()"
  | _full_gc_alot => "FullGCAlot"
  | _scavenge_alot => "ScavengeAlot"
  | _allocation_profiler => "Allocation Profiler"
  | _jvmti_force_gc => "JvmtiEnv ForceGarbageCollection"
  | _gc_locker => "GCLocker Initiated GC"
  | _heap_inspection => "Heap Inspection Initiated GC"
  | _heap_dump => "Heap Dump Initiated GC"
  | _wb_young_gc => "WhiteBox Initiated Young GC"
  | _wb_conc_mark => "WhiteBox Initiated Concurrent Mark"
  | _update_allocation_context_stats_inc | _update_allocation_context_stats_full => "Update Allocation Context Stats"
  | _no_gc => "No GC"
  | _allocation_failure => "Allocation Failure"
  | _tenured_generation_full => "Tenured Generation Full"
  | _metadata_GC_threshold => "Metadata GC Threshold"
  | _cms_generation_full => "CMS Generation Full"
  | _cms_initial_mark => "CMS Initial Mark"
  | _cms_final_remark => "CMS Final Remark"
  | _cms_concurrent_mark => "CMS Concurrent Mark"
  | _old_generation_expanded_on_last_scavenge => "Old Generation Expanded On Last Scavenge"
  | _old_generation_too_full_to_scavenge => "Old Generation Too Full To Scavenge"
  | _adaptive_size_policy => "Ergonomics"
  | _g1_inc_collection_pause => "G1 Evacuation Pause"
  | _g1_inc_collection_pause_young => "G1 Evacuation Pause (young)"
  | _g1_inc_collection_pause_mixed => "G1 Evacuation Pause (mixed)"
  | _g1_humongous_allocation => "G1 Humongous Allocation"
  | _last_ditch_collection => "Last ditch collection"
  | _cms_sweeping => "CMS Sweeping"
  | _no_cause_specified => "unknown GCCause"
  end%string.

End GCCause.

(** ** Classes, as far as symbols describe them *)

Record field := Field { offset : Z; signature : list Z; name : list Z; access_flags : Z }.

(** [localvariable_table]: slots and names, if there is a table. *)
Record method_info := Method { method_idnum : Z; method_name : list Z; localvariable_table : option (list (Z * list Z)) }.

Inductive kind :=
| Instance (size_helper : Z) (instanceMirror : bool) (java_fields : list field) (methods : list method_info)
| Array (array_header_in_bytes elem_size : Z).

(** A [Klass] with its address, without or with a super class; strings are
    the bytes before the [NUL]. *)
Inductive klass :=
| TopKlass (address : Z) (signature_name : list Z) (kind_of : kind)
| Klass (address : Z) (super : klass) (signature_name : list Z) (kind_of : kind).

Definition address (k : klass) : Z := match k with TopKlass a _ _ | Klass a _ _ _ => a end.
Definition super (k : klass) : option klass := match k with TopKlass _ _ _ => None | Klass _ s _ _ => Some s end.
Definition signature_name (k : klass) : list Z := match k with TopKlass _ n _ | Klass _ _ n _ => n end.
Definition kind_of (k : klass) : kind := match k with TopKlass _ _ i | Klass _ _ _ i => i end.

Definition oop_is_instance (k : klass) : bool := match kind_of k with Instance _ _ _ _ => true | Array _ _ => false end.
Definition oop_is_instanceMirror (k : klass) : bool := match kind_of k with Instance _ m _ _ => m | Array _ _ => false end.
Definition java_fields (k : klass) : list field := match kind_of k with Instance _ _ f _ => f | Array _ _ => [] end.

(** The super classes, from the closest. *)
Fixpoint supers (k : klass) : list klass :=
  match k with Klass _ k _ _ => k :: supers k | TopKlass _ _ _ => [] end.

(** ** Writing symbols *)

Module SymbolsWriter.
Import AllocationTracingIO.

Definition SYMBOLS_VERSION : Z := 5.
Definition HeapWordSize : Z := 8.

Definition MAGIC_BYTE_SITE : Z := 42.
Definition MAGIC_BYTE_TYPE : Z := 24.
Definition MAGIC_BYTE_TYPE_FIELD_INFO : Z := 56.
Definition MAGIC_BYTE_TYPE_SUPER_FIELD_INFO : Z := 57.
Definition MAGIC_BYTE_TYPE_METHOD_INFO : Z := 58.
Definition MAGIC_BYTE_SIMPLE_SITE : Z := 84.
Definition MAGIC_BYTE_GC_CAUSE : Z := 17.

Definition get_file_type : Z := FILE_TYPE_SYMBOLS.

(** [nul] is a space. *)
Definition nul : Z := 32.

Definition is_common (cause : GCCause.Cause) : bool :=
  match cause with
  | GCCause._allocation_failure | GCCause._adaptive_size_policy | GCCause._g1_inc_collection_pause
  | GCCause._cms_initial_mark | GCCause._cms_concurrent_mark | GCCause._cms_final_remark | GCCause._cms_sweeping
  | GCCause._no_cause_specified => true
  | _ => false
  end.

Definition write_cause (w : io) (cause_id : Z) (cause : GCCause.Cause) : io :=
  let w := write w [MAGIC_BYTE_GC_CAUSE] in
  let w := write w (jint_bytes cause_id) in
  let w := write w (bytes_of_string (GCCause.to_string cause) ++ [0]) in
  write w [if is_common cause then 1 else 0].

Fixpoint write_causes (w : io) (cause_id : Z) (causes : list GCCause.Cause) : io :=
  match causes with
  | [] => w
  | cause :: causes => write_causes (write_cause w cause_id cause) (cause_id + 1) causes
  end.

Section Flags.
Variables TraceObjectsInsertAnchors TraceObjectsPointers UseConcMarkSweepGC : bool.

Definition flags : Z :=
  let flags := 0 in
  let flags := if TraceObjectsInsertAnchors then flags .| (1 ≪ 0) else flags in
  let flags := if TraceObjectsPointers then flags .| (1 ≪ 1) else flags in
  if UseConcMarkSweepGC then flags .| (1 ≪ 2) else flags .& Z.lnot (1 ≪ 2).

Definition write_header (w : io) : io :=
  let w := write w (jint_bytes SYMBOLS_VERSION) in
  let w := write w (jint_bytes flags) in
  let w := write w (jint_bytes HeapWordSize) in
  let w := write w [0] in
  write_causes w 0 GCCause.causes.

End Flags.

(** The identifier of a site: the two highest bytes first if it is big. *)
Definition write_site_id (w : io) (allocation_site_id : Z) : io :=
  if EventsRuntime.is_big_allocation_site allocation_site_id then
    let w := write w (le_bytes 2 (allocation_site_id ≫ 8)) in
    write w (le_bytes 1 allocation_site_id)
  else write w (le_bytes 2 allocation_site_id).

Section Text.
(** [Method::name_and_sig_as_C_string] *)
Variable name_and_sig_as_C_string : Z -> list Z.

Definition frame_signature (site : CallSite) : list Z :=
  if method site =? 0 then
    bytes_of_string ("$$Recursion.repeat_" ++ pretty (bytecode_index site) ++ "_last_frames_n_times()V")
  else name_and_sig_as_C_string (method site).

Definition write_frame (w : io) (site : CallSite) : io :=
  let w := write w (frame_signature site) in
  write w (jint_bytes (bytecode_index site)).

(** [write_symbols(SymbolsSite)] *)
Definition write_site (w : io) (allocation_site_id : Z) (call_sites : list CallSite) (allocated_type_id : Z) : io :=
  let w := write w [MAGIC_BYTE_SITE] in
  let w := write_site_id w allocation_site_id in
  let w := write w (jint_bytes (Z.of_nat (List.length call_sites))) in
  let w := foldl write_frame w call_sites in
  write w (jint_bytes allocated_type_id).

End Text.

(** [write_symbols(SymbolsSimpleSite)] *)
Definition write_simple_site (w : io) (allocation_site_id : Z) (signature : list Z) (allocated_type_id : Z) : io :=
  let w := write w [MAGIC_BYTE_SIMPLE_SITE] in
  let w := write_site_id w allocation_site_id in
  let w := write w (signature ++ [0]) in
  write w (jint_bytes allocated_type_id).

(** [Symbol::as_C_string(buf, 256)] *)
Definition as_C_string (s : list Z) : list Z := take 255 s.

Definition write_field (w : io) (f : field) : io :=
  let w := write w (jint_bytes (offset f)) in
  let w := write w (as_C_string (signature f)) in
  let w := write w [nul] in
  let w := write w (as_C_string (name f)) in
  let w := write w [nul] in
  write w (jint_bytes (access_flags f)).

Definition write_fields (w : io) (type : klass) : io :=
  let w := write w (jint_bytes (Z.of_nat (List.length (java_fields type)))) in
  foldl write_field w (java_fields type).

Definition write_local (w : io) (elem : Z * list Z) : io :=
  let w := write w (jint_bytes elem.1) in
  let w := write w elem.2 in
  write w [nul].

Definition write_method (w : io) (m : method_info) : io :=
  let w := write w (jint_bytes (method_idnum m)) in
  let w := write w (method_name m) in
  let w := write w [nul] in
  let locals := match localvariable_table m with Some l => l | None => [] end in
  let w := write w (jint_bytes (Z.of_nat (List.length locals))) in
  foldl write_local w locals.

(** [write_symbols(SymbolsType)], once the identifier of the super type is
    known. *)
Definition write_type (w : io) (allocated_type_id super_type_id : Z) (allocated_type : klass) (allocated_type_size : Z) : io :=
  let w := write w [MAGIC_BYTE_TYPE] in
  let w := write w (jint_bytes allocated_type_id) in
  let w := write w (jint_bytes super_type_id) in
  let w := write w (signature_name allocated_type) in
  let w := write w (jint_bytes allocated_type_size) in
  match kind_of allocated_type with
  | Instance _ _ _ methods =>
      let w := write w [MAGIC_BYTE_TYPE_FIELD_INFO] in
      let w := write_fields w allocated_type in
      let w := foldl (fun w super => write_fields (write w [MAGIC_BYTE_TYPE_SUPER_FIELD_INFO]) super) w (supers allocated_type) in
      let w := write w [MAGIC_BYTE_TYPE_METHOD_INFO] in
      let w := write w (jint_bytes (Z.of_nat (List.length methods))) in
      foldl write_method w methods
  | Array _ _ => w
  end.

End SymbolsWriter.

(** ** Identifiers of types ([prims/AllocatedTypes.cpp]) *)

Module AllocatedTypes.
Import AllocationTracingIO SymbolsWriter.

Definition ALLOCATED_TYPE_IDENTIFIER_UNKNOWN : Z := 0.
Definition ALLOCATED_TYPE_IDENTIFIER_FIRST_CUSTOM : Z := 2.

(** [identifiers]: [_allocated_type_identifier] of the classes, by address;
    [symbols]: the symbols file. *)
Record types := Types { next_allocated_type_identifier : Z; identifiers : gmap Z Z; symbols : io }.

Definition init (w : io) : types := Types ALLOCATED_TYPE_IDENTIFIER_FIRST_CUSTOM ∅ w.

Definition get_allocated_type_identifier (s : types) (k : klass) : Z := default 0 (identifiers s !! address k).

Definition get_size (k : klass) : Z :=
  match kind_of k with
  | Instance size_helper _ _ _ => s32 (size_helper * HeapWordSize)
  | Array header_size elem_size => (header_size ≪ 8) .| (elem_size ≪ 0)
  end.

(** A fresh identifier for [k]; [None] is [fatal]. *)
Definition next_identifier (s : types) (k : klass) : option (types * Z) :=
  let allocated_type_id := next_allocated_type_identifier s in
  let next := s32 (allocated_type_id + 1) in
  if next <? ALLOCATED_TYPE_IDENTIFIER_FIRST_CUSTOM then None
  else Some (Types next (<[address k := allocated_type_id]> (identifiers s)) (symbols s), allocated_type_id).

Definition write_symbols (s : types) (allocated_type_id super_type_id : Z) (k : klass) : types :=
  Types (next_allocated_type_identifier s) (identifiers s)
    (write_type (symbols s) allocated_type_id super_type_id k (get_size k)).

(** [get_allocated_type_id] with the calls for the super class made by
    [SymbolsWriter::write_symbols]. *)
Fixpoint get_allocated_type_id (s : types) (k : klass) : option (types * Z) :=
  if get_allocated_type_identifier s k =? ALLOCATED_TYPE_IDENTIFIER_UNKNOWN then
    '(s, allocated_type_id) ← next_identifier s k;
    '(s, super_type_id) ← match k with
                          | Klass _ super _ _ => get_allocated_type_id s super
                          | TopKlass _ _ _ => Some (s, ALLOCATED_TYPE_IDENTIFIER_UNKNOWN)
                          end;
    let s := write_symbols s allocated_type_id super_type_id k in
    Some (s, get_allocated_type_identifier s k)
  else Some (s, get_allocated_type_identifier s k).

(** Mirror classes get a new identifier each time, and are not written. *)
Definition to_allocated_type (s : types) (allocated_type : option klass) : option (types * Z) :=
  match allocated_type with
  | None => Some (s, ALLOCATED_TYPE_IDENTIFIER_UNKNOWN)
  | Some k =>
      if (get_allocated_type_identifier s k =? ALLOCATED_TYPE_IDENTIFIER_UNKNOWN) || oop_is_instanceMirror k then
        '(s, allocated_type_id) ← next_identifier s k;
        s ← (if oop_is_instanceMirror k then Some s
             else
               '(s, super_type_id) ← match super k with
                                     | Some super => get_allocated_type_id s super
                                     | None => Some (s, ALLOCATED_TYPE_IDENTIFIER_UNKNOWN)
                                     end;
               Some (write_symbols s allocated_type_id super_type_id k));
        Some (s, get_allocated_type_identifier s k)
      else Some (s, get_allocated_type_identifier s k)
  end.

Definition is_valid_allocated_type_id (s : types) (id : Z) : bool := id <? next_allocated_type_identifier s.

End AllocatedTypes.
