(* ===== verification/SymbolsParser.v ===== *)
(** * The analyzer's reader of symbols ([parser/symbols/SymbolsParser.java],
      [parser/Scanner.java], [heap/symbols])

    A scanner is the list of bytes that are left; [None] is an exception.
    Strings are their bytes: [byteListToString] is left to the platform. *)

From Stdlib Require Import ZArith Lia String.
From stdpp Require Import gmap.
From S2P Require Import Prelude EventsWriter.

Module Scanner.

Definition getByte (bytes : list Z) : option (Z * list Z) :=
  match bytes with [] => None | b :: bytes => Some (b, bytes) end.

Definition getShort (bytes : list Z) : option (Z * list Z) :=
  if (2 <=? length bytes)%nat then Some (swrap 16 (le_val (take 2 bytes)), drop 2 bytes) else None.

Definition getInt : list Z -> option (Z * list Z) := TraceReader.getInt.
Definition getWord : list Z -> option (Z * list Z) := getInt.

(** 0 at the end of the file. *)
Definition getMagicByte (bytes : list Z) : Z * list Z :=
  match bytes with [] => (0, []) | b :: bytes => (s8 b, bytes) end.

(** The bytes up to the separator; [currentByte] itself is not tested. *)
Fixpoint addNextByteToSignature (separator currentByte : Z) (bytes : list Z) : option (list Z * list Z) :=
  match bytes with
  | [] => None
  | b :: bytes =>
      if b =? separator then Some ([currentByte; b], bytes)
      else '(word, bytes) ← addNextByteToSignature separator b bytes; Some (currentByte :: word, bytes)
  end.

Definition getNullTerminatedString (removeSeparator : bool) (bytes : list Z) : option (list Z * list Z) :=
  '(currentByte, bytes) ← getByte bytes;
  '(word, bytes) ← addNextByteToSignature 32 currentByte bytes;
  Some (if removeSeparator then take (length word - 1) word else word, bytes).

(** [Z B C S I J F D L V \[] *)
Definition signatures : list Z := [90; 66; 67; 83; 73; 74; 70; 68; 76; 86; 91].

Definition signaturesContain (currentByte : Z) : bool := existsb (Z.eqb currentByte) signatures.

Fixpoint reconstructType (currentByte : Z) (bytes : list Z) : option (list Z * list Z) :=
  if signaturesContain currentByte then
    if currentByte =? 91 then
      match bytes with
      | [] => None
      | b :: bytes => '(word, bytes) ← reconstructType b bytes; Some (currentByte :: word, bytes)
      end
    else if currentByte =? 76 then addNextByteToSignature 59 currentByte bytes
    else Some ([currentByte], bytes)
  else None.

(** The separator [')'] is 41. *)
Definition getString (separator : Z) (bytes : list Z) : option (list Z * list Z) :=
  '(currentByte, bytes) ← getByte bytes;
  '(prefix, currentByte, bytes) ←
    (if separator =? 41 then
       '(word, bytes) ← addNextByteToSignature separator currentByte bytes;
       '(currentByte, bytes) ← getByte bytes;
       Some (word, currentByte, bytes)
     else Some ([], currentByte, bytes));
  '(word, bytes) ← reconstructType currentByte bytes;
  Some (prefix ++ word, bytes).

(** Characters: [(char) getByte()] extends the sign. *)
Fixpoint getStringZeroTerminated (bytes : list Z) : option (list Z * list Z) :=
  match bytes with
  | [] => None
  | b :: bytes =>
      let c := u16 (s8 b) in
      if c =? 0 then Some ([], bytes) else '(s, bytes) ← getStringZeroTerminated bytes; Some (c :: s, bytes)
  end.

(** A negative length is an exception in both. *)
Definition get (length : Z) (bytes : list Z) : option (list Z * list Z) :=
  if (length <? 0) || (Z.of_nat (List.length bytes) <? length) then None
  else Some (take (Z.to_nat length) bytes, drop (Z.to_nat length) bytes).

(** The stream of a file may skip beyond its end, which the scanner does not
    notice; [seekable] is whether the streams below do. *)
Definition skip (seekable : bool) (length : Z) (bytes : list Z) : option (list Z) :=
  if (length <? 0) || (negb seekable && (Z.of_nat (List.length bytes) <? length)) then None
  else Some (drop (Z.to_nat length) bytes).

End Scanner.

(** ** Class definitions ([heap/symbols/ClassDefinitions.java],
    [parser/classdefinitions/ClassDefinitionsParser.java]) *)

Module ClassDefinitions.

Record ClassDefinition := Definition_ { id : Z; data : list Z }.

Definition MAGIC_BYTE : Z := 14.

Record table := Table { definitions : list (option ClassDefinition); isEmpty : bool }.

Definition make : table := Table (replicate 64 None) true.

(** [while (id >= newSize) newSize *= 2], on an [int]; a loop that does not end
    is [None]: after 32 doublings the size is 0 and stays 0. *)
Fixpoint doubled (fuel : nat) (id newSize : Z) : option Z :=
  match fuel with
  | O => None
  | S fuel => if newSize <=? id then doubled fuel id (s32 (newSize * 2)) else Some newSize
  end.

(** A new array of negative size and an index out of bounds are exceptions. *)
Definition add (t : table) (definition : ClassDefinition) : option table :=
  let len := Z.of_nat (length (definitions t)) in
  array ← (if len <=? id definition then
             newSize ← doubled 33 (id definition) (s32 (len * 2));
             if newSize <? 0 then None
             else Some (take (Z.to_nat newSize) (definitions t) ++ replicate (Z.to_nat newSize - length (definitions t)) None)
           else Some (definitions t));
  if (id definition <? 0) || (Z.of_nat (length array) <=? id definition) then None
  else Some (Table (<[Z.to_nat (id definition) := Some definition]> array) false).

(** The outer [None] is an index out of bounds. *)
Definition get (t : table) (id : Z) : option (option ClassDefinition) :=
  if id <? 0 then None else definitions t !! Z.to_nat id.

Definition getCount (t : table) : Z := Z.of_nat (length (omap (fun d => d) (definitions t))).

(** What [iterator] yields. *)
Definition iterate (t : table) : list ClassDefinition := omap (fun d => d) (definitions t).

End ClassDefinitions.

Module ClassDefinitionsParser.
Import Scanner ClassDefinitions.

Definition parseClassDefinition (t : table) (bytes : list Z) : option (table * list Z) :=
  '(id, bytes) ← getWord bytes;
  '(size, bytes) ← getWord bytes;
  '(data, bytes) ← Scanner.get size bytes;
  t ← add t (Definition_ id data);
  Some (t, bytes).

Definition skipClassDefinition (seekable : bool) (bytes : list Z) : option (list Z) :=
  '(_, bytes) ← getWord bytes;
  '(size, bytes) ← getWord bytes;
  skip seekable size bytes.

(** The loop of [parse]; every record has at least its magic byte. *)
Fixpoint parse_definitions (fuel : nat) (t : table) (bytes : list Z) : option table :=
  match fuel with
  | O => None
  | S fuel =>
      let '(magicByte, bytes) := getMagicByte bytes in
      if magicByte =? 0 then Some t
      else if magicByte =? MAGIC_BYTE then '(t, bytes) ← parseClassDefinition t bytes; parse_definitions fuel t bytes
      else None
  end.

(** [ClassDefinitionsFile.readClassDefinitionsFileInfo] *)
Definition readClassDefinitionsFileInfo (bytes : list Z) : option (list Z * list Z) :=
  '(header, fileType, bytes) ← TraceReader.readFileInfo bytes;
  if negb (fileType =? 2) then None else Some (header, bytes).

Definition parse (bytes : list Z) : option table :=
  '(_, bytes) ← readClassDefinitionsFileInfo bytes;
  '(flags, bytes) ← getWord bytes;
  '(trace, bytes) ← getStringZeroTerminated bytes;
  parse_definitions (S (length bytes)) make bytes.

End ClassDefinitionsParser.

(** ** The symbols ([heap/symbols/AllocationSites.java], [AllocatedTypes.java], [AllocatedType.java]) *)

Module Symbols.

Record AllocationSite := Site { site_id : Z; callSites : list (list Z * Z); allocatedTypeId : Z }.

Definition THRESHOLD : Z := 8388608.
Definition START_ARRAY_LEN : Z := 64.
Definition UNKNOWN_BCI : Z := -1.

Definition unknownAllocationSite : AllocationSite := Site 0 [(bytes_of_string "Unknown Allocation Site"%string, UNKNOWN_BCI)] 0.

(** [AllocationSites] *)
Record sites := Sites { smallAllocationSites : list (option AllocationSite); bigAllocationSites : list (option AllocationSite) }.

Definition make_sites : sites :=
  Sites (replicate (Z.to_nat START_ARRAY_LEN) None) (replicate (Z.to_nat START_ARRAY_LEN) None).

(** [do newLength = (int) (newLength * 1.1); while (id >= newLength)]; at
    least one more cell each time. *)
Fixpoint grow (fuel : nat) (id newLength : Z) : option Z :=
  match fuel with
  | O => None
  | S fuel => let newLength := newLength * 11 / 10 in if newLength <=? id then grow fuel id newLength else Some newLength
  end.

(** Both branches of [add], on their array. *)
Definition add_to (array : list (option AllocationSite)) (id : Z) (site : AllocationSite) : option (list (option AllocationSite)) :=
  let len := Z.of_nat (length array) in
  array ← (if len <=? id then
             newLength ← grow (S (Z.to_nat id)) id len;
             Some (array ++ replicate (Z.to_nat newLength - length array) None)
           else Some array);
  Some (<[Z.to_nat id := Some site]> array).

Definition isBigAllocationSite (id : Z) : bool := THRESHOLD <=? id.

Definition add_site (s : sites) (site : AllocationSite) : option sites :=
  if isBigAllocationSite (site_id site) then
    big ← add_to (bigAllocationSites s) (site_id site - THRESHOLD) site;
    Some (Sites (smallAllocationSites s) big)
  else
    small ← add_to (smallAllocationSites s) (site_id site) site;
    Some (Sites small (bigAllocationSites s)).

(** The outer [None] is an index outside of the array, the inner one [null]. *)
Definition getById (s : sites) (id : Z) : option (option AllocationSite) :=
  if id =? 0 then Some (Some unknownAllocationSite)
  else if isBigAllocationSite id then bigAllocationSites s !! Z.to_nat (id - THRESHOLD)
  else smallAllocationSites s !! Z.to_nat id.

Record FieldInfo := Field { supr : bool; offset : Z; signature : list Z; name : list Z; flags : Z }.
Record MethodInfo := Method { idnum : Z; method_name : list Z; locals : gmap Z (list Z) }.

(** [fieldInfos] and [methodInfos] are expanded by the number of elements
    announced and then filled; here they are appended to. *)
Record AllocatedType := Type_ {
  type_id : Z; superId : Z; internalName : list Z; size : Z; fieldInfos : list FieldInfo; methodInfos : list MethodInfo;
}.

(** [AllocatedTypes.add]; a second type with the same identifier is an
    exception. *)
Definition add_type (types : gmap Z AllocatedType) (id : Z) (type : AllocatedType) : option (gmap Z AllocatedType) :=
  match types !! id with None => Some (<[id := type]> types) | Some _ => None end.

(** The type for unknown objects, named [U]. *)
Definition make_types : gmap Z AllocatedType := {[ 0 := Type_ 0 0 [85] 0 [] [] ]}.

(** [Symbols], as far as it is read from the file, and the class definitions
    found on the way, a local variable of the parser. *)
Record symbols := Symbols_ {
  anchors : bool; pointers : bool; fragmented_heap : bool; heapWordSize : Z; trace : list Z;
  causes : gmap Z (list Z * bool); known_sites : sites; types : gmap Z AllocatedType;
  classDefinitions : ClassDefinitions.table;
}.

End Symbols.

(** ** The parser *)

Module SymbolsParser.
Import Scanner Symbols.

Definition with_causes (s : symbols) (c : gmap Z (list Z * bool)) : symbols :=
  Symbols_ (anchors s) (pointers s) (fragmented_heap s) (heapWordSize s) (trace s) c (known_sites s) (types s) (classDefinitions s).
Definition with_sites (s : symbols) (l : sites) : symbols :=
  Symbols_ (anchors s) (pointers s) (fragmented_heap s) (heapWordSize s) (trace s) (causes s) l (types s) (classDefinitions s).
Definition with_types (s : symbols) (t : gmap Z AllocatedType) : symbols :=
  Symbols_ (anchors s) (pointers s) (fragmented_heap s) (heapWordSize s) (trace s) (causes s) (known_sites s) t (classDefinitions s).
Definition with_definitions (s : symbols) (t : ClassDefinitions.table) : symbols :=
  Symbols_ (anchors s) (pointers s) (fragmented_heap s) (heapWordSize s) (trace s) (causes s) (known_sites s) (types s) t.

Definition parseGarbageCollectionCause (s : symbols) (bytes : list Z) : option (symbols * list Z) :=
  '(id, bytes) ← getInt bytes;
  '(name, bytes) ← getStringZeroTerminated bytes;
  let '(ok, bytes) := getMagicByte bytes in
  Some (with_causes s (<[id := (name, negb (ok =? 0))]> (causes s)), bytes).

(** A site of two bytes, or of three if the highest bit is set. *)
Definition parseSiteId (bytes : list Z) : option (Z * list Z) :=
  '(id, bytes) ← getShort bytes;
  let id := id .& 65535 in
  if negb ((id ≫ 15) .& 1 =? 0) then
    '(b, bytes) ← getByte bytes;
    Some ((id ≪ 8) .| (b .& 255), bytes)
  else Some (id, bytes).

Definition parseAllocationSiteSimple (s : symbols) (bytes : list Z) : option (symbols * list Z) :=
  '(id, bytes) ← parseSiteId bytes;
  '(signature, bytes) ← getStringZeroTerminated bytes;
  '(allocatedTypeId, bytes) ← getWord bytes;
  sites ← add_site (known_sites s) (Site id [(signature, UNKNOWN_BCI)] allocatedTypeId);
  Some (with_sites s sites, bytes).

Fixpoint parseCallSites (n : nat) (bytes : list Z) : option (list (list Z * Z) * list Z) :=
  match n with
  | O => Some ([], bytes)
  | S n =>
      '(signature, bytes) ← getString 41 bytes;
      '(bci, bytes) ← getWord bytes;
      '(l, bytes) ← parseCallSites n bytes;
      Some ((signature, bci) :: l, bytes)
  end.

(** The size of a new array; negative sizes are an exception. *)
Definition getLength (bytes : list Z) : option (nat * list Z) :=
  '(n, bytes) ← getWord bytes;
  if n <? 0 then None else Some (Z.to_nat n, bytes).

Definition parseAllocationSite (s : symbols) (bytes : list Z) : option (symbols * list Z) :=
  '(id, bytes) ← parseSiteId bytes;
  '(n, bytes) ← getLength bytes;
  '(callSites, bytes) ← parseCallSites n bytes;
  '(allocatedType, bytes) ← getWord bytes;
  sites ← add_site (known_sites s) (Site id callSites allocatedType);
  Some (with_sites s sites, bytes).

Fixpoint parseFields (n : nat) (supr : bool) (bytes : list Z) : option (list FieldInfo * list Z) :=
  match n with
  | O => Some ([], bytes)
  | S n =>
      '(offset, bytes) ← getInt bytes;
      '(signature, bytes) ← getNullTerminatedString true bytes;
      '(name, bytes) ← getNullTerminatedString true bytes;
      '(flags, bytes) ← getInt bytes;
      '(l, bytes) ← parseFields n supr bytes;
      Some (Field supr offset signature name flags :: l, bytes)
  end.

(** [lastAllocatedType] is an element of [types]; without one there is an
    exception. *)
Definition update_type (s : symbols) (last : option Z) (f : AllocatedType -> AllocatedType) : option symbols :=
  id ← last;
  t ← types s !! id;
  Some (with_types s (<[id := f t]> (types s))).

Definition parseAllocatedTypeFieldInfo (supr : bool) (s : symbols) (last : option Z) (bytes : list Z) : option (symbols * list Z) :=
  '(count, bytes) ← getLength bytes;
  '(l, bytes) ← parseFields count supr bytes;
  s ← update_type s last (fun t => Type_ (type_id t) (superId t) (internalName t) (size t) (fieldInfos t ++ l) (methodInfos t));
  Some (s, bytes).

Fixpoint parseLocals (n : nat) (methodLocals : gmap Z (list Z)) (bytes : list Z) : option (gmap Z (list Z) * list Z) :=
  match n with
  | O => Some (methodLocals, bytes)
  | S n =>
      '(slot, bytes) ← getInt bytes;
      '(name, bytes) ← getNullTerminatedString true bytes;
      parseLocals n (<[slot := name]> methodLocals) bytes
  end.

(** A negative number of locals reads none. *)
Fixpoint parseMethods (n : nat) (bytes : list Z) : option (list MethodInfo * list Z) :=
  match n with
  | O => Some ([], bytes)
  | S n =>
      '(idnum, bytes) ← getInt bytes;
      '(name, bytes) ← getNullTerminatedString true bytes;
      '(localsCount, bytes) ← getInt bytes;
      '(locals, bytes) ← parseLocals (Z.to_nat localsCount) ∅ bytes;
      '(l, bytes) ← parseMethods n bytes;
      Some (Method idnum name locals :: l, bytes)
  end.

Definition parseAllocatedTypeMethodInfo (s : symbols) (last : option Z) (bytes : list Z) : option (symbols * list Z) :=
  '(count, bytes) ← getLength bytes;
  '(l, bytes) ← parseMethods count bytes;
  s ← update_type s last (fun t => Type_ (type_id t) (superId t) (internalName t) (size t) (fieldInfos t) (methodInfos t ++ l));
  Some (s, bytes).

(** [name.endsWith("/0;")] *)
Definition ends_with_0 (name : list Z) : bool := bool_decide (drop (List.length name - 3) name = [47; 48; 59]).

Definition is_digit (b : Z) : bool := (48 <=? b) && (b <=? 57).

(** The digits at the front, and the rest. *)
Fixpoint digits (l : list Z) : list Z * list Z :=
  match l with
  | b :: l' => if is_digit b then let '(d, r) := digits l' in (b :: d, r) else ([], l)
  | [] => ([], [])
  end.

(** [name.replaceAll("/\\d+;", "_lambda;")], with at most [fuel] bytes. *)
Fixpoint replace_lambda (fuel : nat) (name : list Z) : list Z :=
  match fuel, name with
  | S fuel, 47 :: rest =>
      match digits rest with
      | (_ :: _, 59 :: rest) => bytes_of_string "_lambda;"%string ++ replace_lambda fuel rest
      | _ => 47 :: replace_lambda fuel rest
      end
  | S fuel, b :: rest => b :: replace_lambda fuel rest
  | _, _ => []
  end.

Definition type_name (name : list Z) : list Z := if ends_with_0 name then replace_lambda (List.length name) name else name.

Definition parseAllocatedType (s : symbols) (bytes : list Z) : option (symbols * Z * list Z) :=
  '(id, bytes) ← getWord bytes;
  '(superId, bytes) ← getWord bytes;
  '(name, bytes) ← getString 32 bytes;
  let name := type_name name in
  '(size, bytes) ← getWord bytes;
  types ← add_type (types s) id (Type_ id superId name size [] []);
  Some (with_types s types, id, bytes).

Section Parse.
(** Whether [useCallContext] differs from [CALLCONTEXT_NONE], and the kind of
    stream the symbols are read from. *)
Variables useCallContext seekable : bool.

(** A definition inside of the symbols file. *)
Definition parseClassDefinition (s : symbols) (bytes : list Z) : option (symbols * list Z) :=
  if useCallContext then
    '(t, bytes) ← ClassDefinitionsParser.parseClassDefinition (classDefinitions s) bytes;
    Some (with_definitions s t, bytes)
  else
    bytes ← ClassDefinitionsParser.skipClassDefinition seekable bytes;
    Some (s, bytes).

(** One record; [last] is [lastAllocatedType]. *)
Definition parse_record (magicByte : Z) (s : symbols) (last : option Z) (bytes : list Z) : option (symbols * option Z * list Z) :=
  let keep r := '(s, bytes) ← r; Some (s, last, bytes) in
  if magicByte =? 42 then keep (parseAllocationSite s bytes)
  else if magicByte =? 24 then '(s, id, bytes) ← parseAllocatedType s bytes; Some (s, Some id, bytes)
  else if magicByte =? 14 then keep (parseClassDefinition s bytes)
  else if magicByte =? 84 then keep (parseAllocationSiteSimple s bytes)
  else if magicByte =? 56 then keep (parseAllocatedTypeFieldInfo false s last bytes)
  else if magicByte =? 57 then keep (parseAllocatedTypeFieldInfo true s last bytes)
  else if magicByte =? 58 then keep (parseAllocatedTypeMethodInfo s last bytes)
  else if magicByte =? 17 then keep (parseGarbageCollectionCause s bytes)
  else None.

(** The loop of [parse]; every record has at least its magic byte. *)
Fixpoint parse_records (fuel : nat) (s : symbols) (last : option Z) (bytes : list Z) : option symbols :=
  match fuel with
  | O => None
  | S fuel =>
      let '(magicByte, bytes) := getMagicByte bytes in
      if magicByte =? 0 then Some s
      else '(s, last, bytes) ← parse_record magicByte s last bytes; parse_records fuel s last bytes
  end.

Definition SYMBOLS_VERSION : Z := 5.

(** [parse] behind the identification header; [parsePtrs] is the static flag
    of the class. *)
Definition parse (parsePtrs : bool) (bytes : list Z) : option symbols :=
  '(version, bytes) ← getWord bytes;
  if negb (version =? SYMBOLS_VERSION) then None
  else
    '(flags, bytes) ← getWord bytes;
    let anchors := negb (flags .& 1 =? 0) in
    let pointers := negb (flags .& 2 =? 0) && parsePtrs in
    let fragmented_heap := negb (flags .& 4 =? 0) in
    '(heapWordSize, bytes) ← getWord bytes;
    '(trace, bytes) ← getStringZeroTerminated bytes;
    parse_records (S (List.length bytes))
      (Symbols_ anchors pointers fragmented_heap heapWordSize trace ∅ make_sites make_types ClassDefinitions.make) None bytes.

(** [SymbolsFile.readSymbolsFileInfo] *)
Definition readSymbolsFileInfo (bytes : list Z) : option (list Z * list Z) :=
  '(header, fileType, bytes) ← TraceReader.readFileInfo bytes;
  if negb (fileType =? 0) then None else Some (header, bytes).

Definition parse_file (parsePtrs : bool) (bytes : list Z) : option (list Z * symbols) :=
  '(header, bytes) ← readSymbolsFileInfo bytes;
  s ← parse parsePtrs bytes;
  Some (header, s).

(** The definitions for the call context, from the symbols file or from a
    file of their own; [None] is the exception that leaves the analyzer
    without them. *)
Definition definitions_used (s : symbols) (classDefinitionsFile : option (list Z)) : option ClassDefinitions.table :=
  match classDefinitionsFile with
  | None => Some (classDefinitions s)
  | Some bytes =>
      if negb (ClassDefinitions.isEmpty (classDefinitions s)) then None
      else if useCallContext then ClassDefinitionsParser.parse bytes
      else Some (classDefinitions s)
  end.

End Parse.

End SymbolsParser.
