(* ===== verification/SymbolsRoundtrip.v ===== *)
(** * Symbols written by the VM are read back by the analyzer

    The records of the symbols file, what the analyzer should know after
    them, and the round trip through [SymbolsParser.parse]. *)

From Stdlib Require Import ZArith Lia String.
From stdpp Require Import gmap strings pretty.
From S2P Require Import Prelude EventsWriter EventsRuntime StackTraces AllocationSites SymbolsWriter SymbolsParser.

(** ** Strings *)

Module ScannerSpec.
Import Scanner.

(** Type descriptors. *)
Inductive descriptor : list Z -> Prop :=
| descriptor_base b : signaturesContain b = true -> b <> 91 -> b <> 76 -> descriptor [b]
| descriptor_object name : 59 ∉ name -> descriptor (76 :: name ++ [59])
| descriptor_array d : descriptor d -> descriptor (91 :: d).

(** The text of a method: something, an argument list, a return type. *)
Definition method_text (t : list Z) : Prop :=
  exists c w ret, t = c :: w ++ [41] ++ ret /\ (41 ∉ w) /\ descriptor ret.

(** What [getNullTerminatedString] can read: not empty, no space after the
    first character. *)
Definition word_text (t : list Z) : Prop := exists c w, t = c :: w /\ 32 ∉ w.

(** Characters other than [NUL], of one byte. *)
Definition ascii_text (t : list Z) : Prop := Forall (fun b => 0 < b < 128) t.

Lemma add_next sep c w rest :
  sep ∉ w -> addNextByteToSignature sep c (w ++ sep :: rest) = Some (c :: w ++ [sep], rest).
Proof.
  revert c. induction w as [|b w IH]; intros c Hw; cbn [app addNextByteToSignature].
  { by rewrite Z.eqb_refl. }
  apply not_elem_of_cons in Hw as [Hb Hw]. rewrite (proj2 (Z.eqb_neq _ _)) by done. by rewrite IH.
Qed.

Lemma reconstruct d b d' rest : descriptor d -> d = b :: d' -> reconstructType b (d' ++ rest) = Some (d, rest).
Proof.
  intros Hd. revert b d'. induction Hd as [c Hc H91 H76|name Hn|d Hd IH]; intros b d' [= <- <-].
  - cbn [app]. destruct rest; cbn [reconstructType]; rewrite Hc, !(proj2 (Z.eqb_neq _ _)) by done; done.
  - rewrite <- app_assoc. destruct (name ++ [59] ++ rest) as [|x l] eqn:E; [by destruct name|]. cbn [reconstructType].
    change (signaturesContain 76) with true. cbv iota. change (76 =? 91) with false. change (76 =? 76) with true. cbv iota.
    rewrite <- E. by apply add_next.
  - destruct d as [|c d]; [inversion Hd|]. cbn [app reconstructType]. change (signaturesContain 91) with true.
    change (91 =? 91) with true. cbv iota. by rewrite (IH c d).
Qed.

Lemma getString_type d rest : descriptor d -> getString 32 (d ++ rest) = Some (d, rest).
Proof.
  intros Hd. destruct d as [|b d]; [inversion Hd|]. unfold getString. cbn [app getByte mbind option_bind]. change (32 =? 41) with false.
  cbv iota. cbn [mbind option_bind]. by rewrite (reconstruct (b :: d) b d).
Qed.

Lemma getString_method t rest : method_text t -> getString 41 (t ++ rest) = Some (t, rest).
Proof.
  intros (c & w & ret & -> & Hw & Hd). unfold getString. cbn [app getByte mbind option_bind]. change (41 =? 41) with true. cbv iota.
  rewrite <- app_assoc. cbn [app]. rewrite add_next by done. cbn [mbind option_bind]. destruct ret as [|b ret]; [inversion Hd|].
  cbn [app getByte mbind option_bind]. rewrite (reconstruct (b :: ret) b ret) by done. cbn [mbind option_bind].
  by rewrite <- app_assoc.
Qed.

Lemma getWord_text t rest : word_text t -> getNullTerminatedString true (t ++ 32 :: rest) = Some (t, rest).
Proof.
  intros (c & w & -> & Hw). unfold getNullTerminatedString. cbn [app getByte mbind option_bind]. rewrite add_next by done.
  cbn [mbind option_bind]. do 2 f_equal. change (c :: w ++ [32]) with ((c :: w) ++ [32]). apply take_app_length'.
  rewrite length_app. cbn [List.length]. lia.
Qed.

Lemma getZero_text t rest : ascii_text t -> getStringZeroTerminated (t ++ 0 :: rest) = Some (t, rest).
Proof.
  induction 1 as [|b t Hb Ht IH]; [done|]. cbn [app getStringZeroTerminated]. assert (u16 (s8 b) = b) as ->.
  { rewrite swrap_small by lia. apply wrap_small. lia. }
  rewrite (proj2 (Z.eqb_neq _ _)) by lia. by rewrite IH.
Qed.

Lemma getZero_nil rest : getStringZeroTerminated (0 :: rest) = Some ([], rest).
Proof. exact (getZero_text [] rest (List.Forall_nil _)). Qed.

Lemma getInt_jint z rest : getInt (AllocationTracingIO.jint_bytes z ++ rest) = Some (s32 z, rest).
Proof. apply TraceFileRoundtrip.getInt_bytes. Qed.

Lemma getShort_bytes z rest : getShort (le_bytes 2 z ++ rest) = Some (swrap 16 z, rest).
Proof.
  unfold getShort. autorewrite with antz. rewrite (proj2 (Nat.leb_le _ _)) by lia. by rewrite le_val_bytes, swrap_mod.
Qed.

End ScannerSpec.

(** ** The bytes of each record *)

(** Concatenations to the right. *)
Ltac appends := repeat progress (rewrite <- ?app_assoc; cbn [app]).

Module SymbolsBytes.
Import AllocationTracingIO SymbolsWriter.

Lemma file_write w b : file (write w b) = file w ++ b.
Proof. done. Qed.

Lemma file_foldl {A} (f : io -> A -> io) (g : A -> list Z) w l :
  (forall w x, file (f w x) = file w ++ g x) -> file (foldl f w l) = file w ++ concat (g <$> l).
Proof.
  intros H. revert w. induction l as [|x l IH]; intros w; [by rewrite app_nil_r|]. cbn [foldl fmap list_fmap concat].
  by rewrite IH, H, <- app_assoc.
Qed.

Lemma file_fold_write {A} (f : io -> A -> io) (g : A -> list Z) w b l :
  (forall w x, file (f w x) = file w ++ g x) -> file (foldl f (write w b) l) = file w ++ b ++ concat (g <$> l).
Proof. intros H. by rewrite (file_foldl f g), file_write, <- app_assoc. Qed.

Definition cause_bytes (id : Z) (c : GCCause.Cause) : list Z :=
  MAGIC_BYTE_GC_CAUSE :: jint_bytes id ++ bytes_of_string (GCCause.to_string c) ++ 0 :: [if is_common c then 1 else 0].

Fixpoint causes_bytes (id : Z) (l : list GCCause.Cause) : list Z :=
  match l with [] => [] | c :: l => cause_bytes id c ++ causes_bytes (id + 1) l end.

Lemma file_causes w id l : file (write_causes w id l) = file w ++ causes_bytes id l.
Proof.
  revert w id. induction l as [|c l IH]; intros w id; cbn [write_causes causes_bytes]; [by rewrite app_nil_r|].
  rewrite IH. unfold write_cause, cause_bytes. rewrite !file_write. by appends.
Qed.

Definition id_bytes (id : Z) : list Z :=
  if EventsRuntime.is_big_allocation_site id then le_bytes 2 (id ≫ 8) ++ le_bytes 1 id else le_bytes 2 id.

Lemma file_site_id w id : file (write_site_id w id) = file w ++ id_bytes id.
Proof. unfold write_site_id, id_bytes. destruct (EventsRuntime.is_big_allocation_site id); by rewrite ?file_write, <- ?app_assoc. Qed.

Section Text.
Variable text : Z -> list Z.

Definition frame_bytes (c : CallSite) : list Z := frame_signature text c ++ jint_bytes (bytecode_index c).

Definition site_bytes (id : Z) (l : list CallSite) (type : Z) : list Z :=
  MAGIC_BYTE_SITE :: id_bytes id ++ jint_bytes (Z.of_nat (List.length l)) ++ concat (frame_bytes <$> l) ++ jint_bytes type.

Lemma file_site w id l type : file (write_site text w id l type) = file w ++ site_bytes id l type.
Proof.
  unfold write_site, site_bytes. rewrite file_write, (file_fold_write _ frame_bytes), file_site_id, file_write.
  - by appends.
  - intros w' c. unfold write_frame, frame_bytes. by rewrite !file_write, <- app_assoc.
Qed.

End Text.

Definition simple_bytes (id : Z) (signature : list Z) (type : Z) : list Z :=
  MAGIC_BYTE_SIMPLE_SITE :: id_bytes id ++ signature ++ 0 :: jint_bytes type.

Lemma file_simple w id signature type : file (write_simple_site w id signature type) = file w ++ simple_bytes id signature type.
Proof.
  unfold write_simple_site, simple_bytes. rewrite !file_write, file_site_id, file_write. by appends.
Qed.

Definition field_bytes (f : field) : list Z :=
  jint_bytes (offset f) ++ as_C_string (signature f) ++ nul :: as_C_string (name f) ++ nul :: jint_bytes (access_flags f).

Definition fields_bytes (k : klass) : list Z :=
  jint_bytes (Z.of_nat (List.length (java_fields k))) ++ concat (field_bytes <$> java_fields k).

Lemma file_fields w k : file (write_fields w k) = file w ++ fields_bytes k.
Proof.
  unfold write_fields, fields_bytes. apply file_fold_write. intros w' f. unfold write_field, field_bytes.
  rewrite !file_write. by appends.
Qed.

Definition local_bytes (e : Z * list Z) : list Z := jint_bytes e.1 ++ e.2 ++ [nul].

Definition table (m : method_info) : list (Z * list Z) := default [] (localvariable_table m).

Definition method_bytes (m : method_info) : list Z :=
  jint_bytes (method_idnum m) ++ method_name m ++ nul :: jint_bytes (Z.of_nat (List.length (table m))) ++
    concat (local_bytes <$> table m).

Lemma file_method w m : file (write_method w m) = file w ++ method_bytes m.
Proof.
  unfold write_method, method_bytes. change (match localvariable_table m with Some l => l | None => [] end) with (table m).
  rewrite (file_fold_write _ local_bytes), !file_write; [by appends|].
  intros w' e. unfold write_local, local_bytes. rewrite !file_write. by appends.
Qed.

(** The three kinds of information behind a type. *)
Definition own_bytes (k : klass) : list Z := MAGIC_BYTE_TYPE_FIELD_INFO :: fields_bytes k.
Definition super_bytes (k : klass) : list Z := MAGIC_BYTE_TYPE_SUPER_FIELD_INFO :: fields_bytes k.
Definition methods_bytes (l : list method_info) : list Z :=
  MAGIC_BYTE_TYPE_METHOD_INFO :: jint_bytes (Z.of_nat (List.length l)) ++ concat (method_bytes <$> l).

Definition head_bytes (id super_id : Z) (k : klass) (size : Z) : list Z :=
  MAGIC_BYTE_TYPE :: jint_bytes id ++ jint_bytes super_id ++ signature_name k ++ jint_bytes size.

Definition info_bytes (k : klass) : list Z :=
  match kind_of k with
  | Instance _ _ _ methods => own_bytes k ++ concat (super_bytes <$> supers k) ++ methods_bytes methods
  | Array _ _ => []
  end.

Lemma file_type w id super_id k size :
  file (write_type w id super_id k size) = file w ++ head_bytes id super_id k size ++ info_bytes k.
Proof.
  unfold write_type, info_bytes. destruct (kind_of k) as [h m f methods|h e].
  - rewrite (file_fold_write _ method_bytes) by apply file_method. rewrite file_write, (file_foldl _ super_bytes).
    + rewrite file_fields, !file_write. unfold head_bytes, own_bytes, methods_bytes. by appends.
    + intros w' s. rewrite file_fields, file_write. unfold super_bytes. by appends.
  - rewrite !file_write, app_nil_r. unfold head_bytes. by appends.
Qed.

End SymbolsBytes.

(** ** Sites by identifier *)

Module SitesSpec.
Import Symbols SymbolsParser StorageSpec.

Lemma parse_id id rest : storable id -> parseSiteId (SymbolsBytes.id_bytes id ++ rest) = Some (id, rest).
Proof.
  intros Hs. unfold parseSiteId, SymbolsBytes.id_bytes. destruct (shift_cases id Hs) as [(_ & -> & _ & H)|(_ & -> & _ & H)].
  - rewrite ScannerSpec.getShort_bytes. cbn [mbind option_bind]. rewrite swrap_small by lia. change 65535 with (2 ^ 16 - 1).
    rewrite land_ones_wrap, wrap_small by lia. rewrite Z.shiftr_div_pow2, Z.div_small by lia. done.
  - rewrite <- app_assoc, ScannerSpec.getShort_bytes. cbn [mbind option_bind]. change 65535 with (2 ^ 16 - 1).
    rewrite land_ones_wrap, wrap_swrap, (Z.shiftr_div_pow2 id) by lia.
    assert (2 ^ 15 <= id / 2 ^ 8 < 2 ^ 16) as Hd by (split; [apply Z.div_le_lower_bound|apply Z.div_lt_upper_bound]; lia).
    rewrite wrap_small by lia. rewrite Z.shiftr_div_pow2 by lia.
    assert (id / 2 ^ 8 / 2 ^ 15 = 1) as ->.
    { symmetry. apply (Z.div_unique _ _ _ (id / 2 ^ 8 - 2 ^ 15)); lia. }
    change (negb (1 .& 1 =? 0)) with true. cbv iota. cbn [le_bytes app Scanner.getByte mbind option_bind].
    do 2 f_equal. change 255 with (2 ^ 8 - 1). rewrite land_ones_wrap by lia. unfold wrap. change (2 ^ 8) with 256.
    rewrite Z.mod_mod by lia. rewrite lor_disjoint_add by (lia || apply Z.mod_pos_bound; lia).
    change (2 ^ 8) with 256. pose proof (Z.div_mod id 256). lia.
Qed.

(** ** The growing arrays *)

Lemma grow_spec fuel id n : 10 <= n <= id -> id < n + Z.of_nat fuel -> exists n', grow fuel id n = Some n' /\ id < n'.
Proof.
  revert n. induction fuel as [|fuel IH]; intros n Hn Hf; [lia|]. cbn [grow].
  assert (n + 1 <= n * 11 / 10) by (apply Z.div_le_lower_bound; lia).
  destruct (Z.leb_spec (n * 11 / 10) id); [apply IH; lia|]. by eexists.
Qed.

Lemma add_to_spec array id site :
  (10 <= length array)%nat -> 0 <= id ->
  exists array', add_to array id site = Some array' /\ (10 <= length array')%nat /\
    forall i, mjoin (array' !! i) = if decide (i = Z.to_nat id) then Some site else mjoin (array !! i).
Proof.
  intros Hl Hid. unfold add_to. destruct (Z.leb_spec (Z.of_nat (length array)) id) as [Hle|Hlt].
  - destruct (grow_spec (S (Z.to_nat id)) id (Z.of_nat (length array))) as (n & -> & Hn); [lia..|]. cbn [mbind option_bind].
    eexists. split; [done|]. split; [rewrite length_insert, length_app; lia|]. intros i. case_decide as Hi.
    + subst i. rewrite list_lookup_insert_eq; [done|]. rewrite length_app, length_replicate. lia.
    + rewrite list_lookup_insert_ne by done. destruct (Nat.lt_ge_cases i (length array)) as [H|H]; [by rewrite lookup_app_l|].
      rewrite lookup_app_r by done. rewrite (lookup_ge_None_2 array) by done.
      destruct (replicate _ None !! _) as [x|] eqn:E; [|done]. by apply lookup_replicate in E as [-> _].
  - cbn [mbind option_bind]. eexists. split; [done|]. split; [by rewrite length_insert|]. intros i. case_decide as Hi.
    + subst i. rewrite list_lookup_insert_eq; [done|lia].
    + by rewrite list_lookup_insert_ne.
Qed.

(** The sites of [m] and no others. *)
Definition knows (s : sites) (m : gmap Z AllocationSite) : Prop :=
  (10 <= length (smallAllocationSites s))%nat /\ (10 <= length (bigAllocationSites s))%nat /\
  forall id, 0 < id -> mjoin (getById s id) = m !! id.

Lemma make_knows : knows make_sites ∅.
Proof.
  split; [by compute; lia|]. split; [by compute; lia|]. intros id Hid. unfold getById. rewrite (proj2 (Z.eqb_neq _ _)) by lia.
  rewrite lookup_empty. unfold make_sites. cbn [bigAllocationSites smallAllocationSites].
  destruct (isBigAllocationSite id); destruct (replicate _ None !! _) as [x|] eqn:E; try done; by apply lookup_replicate in E as [-> _].
Qed.

Lemma add_knows s m site :
  knows s m -> 0 < site_id site -> exists s', add_site s site = Some s' /\ knows s' (<[site_id site := site]> m).
Proof.
  intros (Hs & Hb & H) Hid. unfold add_site, isBigAllocationSite, THRESHOLD. destruct (Z.leb_spec 8388608 (site_id site)) as [Hbig|Hsmall].
  - destruct (add_to_spec (bigAllocationSites s) (site_id site - 8388608) site Hb ltac:(lia)) as (b' & -> & Hb' & Hl). cbn [mbind option_bind].
    eexists. split; [done|]. split; [done|]. split; [done|]. intros id H0. specialize (H id H0). revert H. unfold getById, isBigAllocationSite, THRESHOLD.
    rewrite (proj2 (Z.eqb_neq _ _)) by lia. cbn [bigAllocationSites smallAllocationSites]. destruct (Z.leb_spec 8388608 id) as [Hx|Hx]; intros H.
    + rewrite Hl. case_decide as E; [assert (id = site_id site) as -> by lia; by rewrite lookup_insert_eq|].
      rewrite lookup_insert_ne by (intros <-; done). done.
    + by rewrite lookup_insert_ne by lia.
  - destruct (add_to_spec (smallAllocationSites s) (site_id site) site Hs ltac:(lia)) as (b' & -> & Hb' & Hl). cbn [mbind option_bind].
    eexists. split; [done|]. split; [done|]. split; [done|]. intros id H0. specialize (H id H0). revert H. unfold getById, isBigAllocationSite, THRESHOLD.
    rewrite (proj2 (Z.eqb_neq _ _)) by lia. cbn [bigAllocationSites smallAllocationSites]. destruct (Z.leb_spec 8388608 id) as [Hx|Hx]; intros H.
    + by rewrite lookup_insert_ne by lia.
    + rewrite Hl. case_decide as E; [assert (id = site_id site) as -> by lia; by rewrite lookup_insert_eq|].
      rewrite lookup_insert_ne by (intros <-; done). done.
Qed.

End SitesSpec.

(** ** Records *)

Module RecordSpec.
Import SymbolsWriter SymbolsBytes SymbolsParser ScannerSpec.

Definition int_ok (z : Z) : Prop := - 2 ^ 31 <= z < 2 ^ 31.

Lemma getInt_ok z rest : int_ok z -> Scanner.getInt (AllocationTracingIO.jint_bytes z ++ rest) = Some (z, rest).
Proof. intros Hz. rewrite getInt_jint. by rewrite swrap_small by (unfold int_ok in Hz; lia). Qed.

Definition short_list {A} (l : list A) : Prop := Z.of_nat (List.length l) < 2 ^ 31.

Lemma getLength_ok {A} (l : list A) rest :
  short_list l -> getLength (AllocationTracingIO.jint_bytes (Z.of_nat (List.length l)) ++ rest) = Some (List.length l, rest).
Proof.
  intros Hl. unfold getLength, Scanner.getWord. rewrite getInt_ok by (unfold int_ok; unfold short_list in Hl; lia). cbn [mbind option_bind].
  rewrite (proj2 (Z.ltb_ge _ _)) by lia. by rewrite Nat2Z.id.
Qed.

(** Reading a list of elements one after the other. *)
Ltac one_by_one := intros Hl; induction Hl as [|x l Hx Hl IH]; [done|]; cbn [List.length fmap list_fmap concat];
  rewrite <- app_assoc.

Section Text.
Variable text : Z -> list Z.

Definition frame_ok (c : CallSite) : Prop := method_text (frame_signature text c) /\ int_ok (bytecode_index c).

Definition location (c : CallSite) : list Z * Z := (frame_signature text c, bytecode_index c).

Lemma parse_frames l rest : Forall frame_ok l ->
  parseCallSites (List.length l) (concat (frame_bytes text <$> l) ++ rest) = Some (location <$> l, rest).
Proof.
  one_by_one. cbn [parseCallSites]. unfold frame_bytes at 1. destruct Hx as [Ht Hb]. rewrite <- app_assoc, getString_method by done.
  cbn [mbind option_bind]. unfold Scanner.getWord. rewrite getInt_ok by done. cbn [mbind option_bind]. by rewrite IH.
Qed.

End Text.

Definition field_ok (f : field) : Prop :=
  int_ok (offset f) /\ word_text (as_C_string (signature f)) /\ word_text (as_C_string (name f)) /\ int_ok (access_flags f).

Definition field_info (supr : bool) (f : field) : Symbols.FieldInfo :=
  Symbols.Field supr (offset f) (as_C_string (signature f)) (as_C_string (name f)) (access_flags f).

Lemma parse_fields supr l rest : Forall field_ok l ->
  parseFields (List.length l) supr (concat (field_bytes <$> l) ++ rest) = Some (field_info supr <$> l, rest).
Proof.
  one_by_one. cbn [parseFields]. unfold field_bytes at 1. destruct Hx as (Ho & Hs & Hn & Hf). appends.
  rewrite getInt_ok by done. cbn [mbind option_bind]. rewrite getWord_text by done. cbn [mbind option_bind]. appends.
  rewrite getWord_text by done. cbn [mbind option_bind]. rewrite getInt_ok by done. cbn [mbind option_bind]. by rewrite IH.
Qed.

Definition local_ok (e : Z * list Z) : Prop := int_ok e.1 /\ word_text e.2.

(** The last name of a slot wins. *)
Definition locals_of (start : gmap Z (list Z)) (l : list (Z * list Z)) : gmap Z (list Z) := foldl (fun m e => <[e.1 := e.2]> m) start l.

Lemma parse_locals l start rest : Forall local_ok l ->
  parseLocals (List.length l) start (concat (local_bytes <$> l) ++ rest) = Some (locals_of start l, rest).
Proof.
  intros Hl. revert start. induction Hl as [|x l Hx Hl IH]; intros start; [done|]. cbn [List.length fmap list_fmap concat parseLocals].
  unfold local_bytes at 1. destruct Hx as [Hs Hn]. appends. rewrite getInt_ok by done. cbn [mbind option_bind].
  rewrite getWord_text by done. cbn [mbind option_bind]. by rewrite IH.
Qed.

Definition method_ok (m : method_info) : Prop :=
  int_ok (method_idnum m) /\ word_text (method_name m) /\ short_list (table m) /\ Forall local_ok (table m).

Definition method_known (m : method_info) : Symbols.MethodInfo :=
  Symbols.Method (method_idnum m) (method_name m) (locals_of ∅ (table m)).

Lemma parse_methods l rest : Forall method_ok l ->
  parseMethods (List.length l) (concat (method_bytes <$> l) ++ rest) = Some (method_known <$> l, rest).
Proof.
  one_by_one. cbn [parseMethods]. unfold method_bytes at 1. destruct Hx as (Hi & Hn & Hs & Ht). appends.
  rewrite getInt_ok by done. cbn [mbind option_bind]. rewrite getWord_text by done. cbn [mbind option_bind].
  rewrite getInt_ok by (unfold short_list in Hs; unfold int_ok; lia). cbn [mbind option_bind]. rewrite Nat2Z.id, parse_locals by done.
  cbn [mbind option_bind]. by rewrite IH.
Qed.

End RecordSpec.

(** ** The symbols file *)

Module SymbolsTheorem.
Import SymbolsWriter SymbolsBytes SymbolsParser ScannerSpec RecordSpec SitesSpec.

Section Symbols.
Variable text : Z -> list Z.
Variables useCallContext seekable : bool.

Inductive symbol :=
| SSite (id : Z) (call_sites : list CallSite) (type : Z)
| SSimple (id : Z) (signature : list Z) (type : Z)
| SType (id super_id : Z) (k : klass).

Definition write_symbol (w : AllocationTracingIO.io) (r : symbol) : AllocationTracingIO.io :=
  match r with
  | SSite id call_sites type => write_site text w id call_sites type
  | SSimple id signature type => write_simple_site w id signature type
  | SType id super_id k => write_type w id super_id k (AllocatedTypes.get_size k)
  end.

Definition symbol_bytes (r : symbol) : list Z :=
  match r with
  | SSite id call_sites type => site_bytes text id call_sites type
  | SSimple id signature type => simple_bytes id signature type
  | SType id super_id k => head_bytes id super_id k (AllocatedTypes.get_size k) ++ info_bytes k
  end.

Lemma file_symbol w r : AllocationTracingIO.file (write_symbol w r) = AllocationTracingIO.file w ++ symbol_bytes r.
Proof. destruct r; [apply file_site|apply file_simple|apply file_type]. Qed.

(** A class whose names the file format can hold. *)
Definition describable (k : klass) : Prop :=
  descriptor (signature_name k) /\ int_ok (AllocatedTypes.get_size k) /\
  Forall (fun k => short_list (java_fields k) /\ Forall field_ok (java_fields k)) (k :: supers k) /\
  match kind_of k with Instance _ _ _ methods => short_list methods /\ Forall method_ok methods | Array _ _ => True end.

Definition symbol_ok (r : symbol) : Prop :=
  match r with
  | SSite id call_sites type =>
      StorageSpec.storable id /\ short_list call_sites /\ Forall (frame_ok text) call_sites /\ int_ok type
  | SSimple id signature type => StorageSpec.storable id /\ ascii_text signature /\ int_ok type
  | SType id super_id k => int_ok id /\ int_ok super_id /\ describable k
  end.

(** What the analyzer should know of a class. *)
Definition fields_known (k : klass) : list Symbols.FieldInfo :=
  (field_info false <$> java_fields k) ++ concat ((fun k => field_info true <$> java_fields k) <$> supers k).

Definition type_known (id super_id : Z) (k : klass) : Symbols.AllocatedType :=
  match kind_of k with
  | Instance _ _ _ methods =>
      Symbols.Type_ id super_id (type_name (signature_name k)) (AllocatedTypes.get_size k) (fields_known k) (method_known <$> methods)
  | Array _ _ => Symbols.Type_ id super_id (type_name (signature_name k)) (AllocatedTypes.get_size k) [] []
  end.

Definition learn_site (m : gmap Z Symbols.AllocationSite) (r : symbol) : gmap Z Symbols.AllocationSite :=
  match r with
  | SSite id call_sites type => <[id := Symbols.Site id (location text <$> call_sites) type]> m
  | SSimple id signature type => <[id := Symbols.Site id [(signature, Symbols.UNKNOWN_BCI)] type]> m
  | SType _ _ _ => m
  end.

Definition learn_type (m : gmap Z Symbols.AllocatedType) (r : symbol) : gmap Z Symbols.AllocatedType :=
  match r with SType id super_id k => <[id := type_known id super_id k]> m | _ => m end.

Definition sites_of (rs : list symbol) : gmap Z Symbols.AllocationSite := foldl learn_site ∅ rs.
Definition types_of (rs : list symbol) : gmap Z Symbols.AllocatedType := foldl learn_type Symbols.make_types rs.

Definition type_ids (rs : list symbol) : list Z := omap (fun r => match r with SType id _ _ => Some id | _ => None end) rs.

(** *** Reading records *)

Abbreviation parse_records := (parse_records useCallContext seekable).
Abbreviation parse_record := (parse_record useCallContext seekable).

(** The bytes [b] take the parser from one state to another. *)
Definition consumes (b : list Z) (s : Symbols.symbols) (last : option Z) (s' : Symbols.symbols) (last' : option Z) : Prop :=
  forall fuel rest, (List.length b <= fuel)%nat ->
    exists fuel', (fuel <= fuel' + List.length b)%nat /\ parse_records (S fuel) s last (b ++ rest) = parse_records (S fuel') s' last' rest.

Lemma consumes_nil s last : consumes [] s last s last.
Proof. intros fuel rest _. exists fuel. split; [lia|done]. Qed.

Lemma consumes_app b1 b2 s last s1 last1 s2 last2 :
  consumes b1 s last s1 last1 -> consumes b2 s1 last1 s2 last2 -> consumes (b1 ++ b2) s last s2 last2.
Proof.
  intros H1 H2 fuel rest Hf. rewrite length_app in *. destruct (H1 fuel (b2 ++ rest) ltac:(lia)) as (f1 & Hf1 & E1).
  destruct (H2 f1 rest ltac:(lia)) as (f2 & Hf2 & E2). exists f2. split; [lia|]. by rewrite <- app_assoc, E1, E2.
Qed.

Lemma consumes_record m body s last s' last' :
  0 < m < 128 -> (forall rest, parse_record m s last (body ++ rest) = Some (s', last', rest)) -> consumes (m :: body) s last s' last'.
Proof.
  intros Hm H fuel rest Hf. cbn [List.length] in *. destruct fuel as [|fuel]; [lia|]. exists fuel. split; [lia|].
  cbn [app SymbolsParser.parse_records Scanner.getMagicByte]. rewrite swrap_small by lia. rewrite (proj2 (Z.eqb_neq _ _)) by lia. by rewrite H.
Qed.

(** The branch of a record. *)
Ltac branch := unfold SymbolsParser.parse_record, MAGIC_BYTE_SITE, MAGIC_BYTE_TYPE, MAGIC_BYTE_TYPE_FIELD_INFO,
    MAGIC_BYTE_TYPE_SUPER_FIELD_INFO, MAGIC_BYTE_TYPE_METHOD_INFO, MAGIC_BYTE_SIMPLE_SITE, MAGIC_BYTE_GC_CAUSE; cbn [Z.eqb Pos.eqb].

Lemma consumes_site id l type s last m :
  symbol_ok (SSite id l type) -> knows (Symbols.known_sites s) m ->
  exists sites, consumes (site_bytes text id l type) s last (with_sites s sites) last /\ knows sites (learn_site m (SSite id l type)).
Proof.
  intros (Hid & Hlen & Hl & Ht) Hk.
  destruct (add_knows _ _ (Symbols.Site id (location text <$> l) type) Hk) as (sites & E & Hk'); [destruct Hid; cbn [Symbols.site_id]; lia|].
  exists sites. split; [|done]. apply consumes_record; [done|]. intros rest. branch. unfold parseAllocationSite. appends.
  rewrite parse_id by done. cbn [mbind option_bind]. rewrite getLength_ok by done. cbn [mbind option_bind].
  rewrite (parse_frames text) by done. cbn [mbind option_bind]. unfold Scanner.getWord. rewrite getInt_ok by done.
  cbn [mbind option_bind]. rewrite E. done.
Qed.

Lemma consumes_simple id signature type s last m :
  symbol_ok (SSimple id signature type) -> knows (Symbols.known_sites s) m ->
  exists sites, consumes (simple_bytes id signature type) s last (with_sites s sites) last /\
    knows sites (learn_site m (SSimple id signature type)).
Proof.
  intros (Hid & Hs & Ht) Hk.
  destruct (add_knows _ _ (Symbols.Site id [(signature, Symbols.UNKNOWN_BCI)] type) Hk) as (sites & E & Hk');
    [destruct Hid; cbn [Symbols.site_id]; lia|].
  exists sites. split; [|done]. apply consumes_record; [done|]. intros rest. branch. unfold parseAllocationSiteSimple. appends.
  rewrite parse_id by done. cbn [mbind option_bind]. rewrite getZero_text by done. cbn [mbind option_bind]. unfold Scanner.getWord.
  rewrite getInt_ok by done. cbn [mbind option_bind]. rewrite E. done.
Qed.

Lemma consumes_eq b s last s1 s2 last' : consumes b s last s1 last' -> s1 = s2 -> consumes b s last s2 last'.
Proof. by intros H <-. Qed.

(** The type that is read last. *)
Lemma update_last s id t f : Symbols.types s !! id = Some t -> update_type s (Some id) f = Some (with_types s (<[id := f t]> (Symbols.types s))).
Proof. intros E. unfold update_type. cbn [mbind option_bind]. by rewrite E. Qed.

Lemma with_types_twice s t1 t2 : with_types (with_types s t1) t2 = with_types s t2.
Proof. done. Qed.

(** Field information: of the class itself ([false]) or of a super class. *)
Lemma consumes_fields (supr : bool) k s id t :
  Symbols.types s !! id = Some t -> short_list (java_fields k) -> Forall field_ok (java_fields k) ->
  consumes ((if supr then super_bytes k else own_bytes k)) s (Some id)
    (with_types s (<[id := Symbols.Type_ (Symbols.type_id t) (Symbols.superId t) (Symbols.internalName t) (Symbols.size t)
       (Symbols.fieldInfos t ++ (field_info supr <$> java_fields k)) (Symbols.methodInfos t)]> (Symbols.types s))) (Some id).
Proof.
  intros Et Hs Hf. destruct supr; (apply consumes_record; [done|]); intros rest; branch; unfold parseAllocatedTypeFieldInfo, fields_bytes; appends;
    (rewrite getLength_ok by done); cbn [mbind option_bind]; (rewrite parse_fields by done); cbn [mbind option_bind];
    by rewrite (update_last _ _ _ _ Et).
Qed.

Lemma consumes_supers ks s id t :
  Symbols.types s !! id = Some t -> Forall (fun k => short_list (java_fields k) /\ Forall field_ok (java_fields k)) ks ->
  consumes (concat (super_bytes <$> ks)) s (Some id)
    (with_types s (<[id := Symbols.Type_ (Symbols.type_id t) (Symbols.superId t) (Symbols.internalName t) (Symbols.size t)
       (Symbols.fieldInfos t ++ concat ((fun k => field_info true <$> java_fields k) <$> ks)) (Symbols.methodInfos t)]> (Symbols.types s))) (Some id).
Proof.
  intros Et Hk. revert s t Et. induction Hk as [|k ks [Hs Hf] Hk IH]; intros s t Et; cbn [fmap list_fmap concat].
  - rewrite app_nil_r. assert (<[id := Symbols.Type_ (Symbols.type_id t) (Symbols.superId t) (Symbols.internalName t) (Symbols.size t)
      (Symbols.fieldInfos t) (Symbols.methodInfos t)]> (Symbols.types s) = Symbols.types s) as ->.
    { apply insert_id. rewrite Et. by destruct t. }
    destruct s. apply consumes_nil.
  - eapply consumes_app; [exact (consumes_fields true k s id t Et Hs Hf)|].
    eapply consumes_eq; [eapply IH; apply lookup_insert_eq|]. cbn [Symbols.type_id Symbols.superId Symbols.internalName Symbols.size Symbols.fieldInfos Symbols.methodInfos].
    rewrite with_types_twice. f_equal. unfold with_types at 1. cbn [Symbols.types]. by rewrite insert_insert_eq, <- app_assoc.
Qed.

Lemma consumes_methods l s id t :
  Symbols.types s !! id = Some t -> short_list l -> Forall method_ok l ->
  consumes (methods_bytes l) s (Some id)
    (with_types s (<[id := Symbols.Type_ (Symbols.type_id t) (Symbols.superId t) (Symbols.internalName t) (Symbols.size t)
       (Symbols.fieldInfos t) (Symbols.methodInfos t ++ (method_known <$> l))]> (Symbols.types s))) (Some id).
Proof.
  intros Et Hs Hl. apply consumes_record; [done|]. intros rest. branch. unfold parseAllocatedTypeMethodInfo. appends.
  rewrite getLength_ok by done. cbn [mbind option_bind]. rewrite parse_methods by done. cbn [mbind option_bind].
  by rewrite (update_last _ _ _ _ Et).
Qed.

(** The head of a type: identifiers, name and size. *)
Lemma consumes_head id super_id k s last :
  symbol_ok (SType id super_id k) -> Symbols.types s !! id = None ->
  consumes (head_bytes id super_id k (AllocatedTypes.get_size k)) s last
    (with_types s (<[id := Symbols.Type_ id super_id (type_name (signature_name k)) (AllocatedTypes.get_size k) [] []]> (Symbols.types s))) (Some id).
Proof.
  intros (Hid & Hsuper & Hd & Hsize & _) Hnone. apply consumes_record; [done|]. intros rest. branch. unfold parseAllocatedType, Scanner.getWord. appends.
  rewrite getInt_ok by done. cbn [mbind option_bind]. rewrite getInt_ok by done. cbn [mbind option_bind]. rewrite getString_type by done.
  cbn [mbind option_bind]. rewrite getInt_ok by done. cbn [mbind option_bind]. unfold Symbols.add_type. by rewrite Hnone.
Qed.

Lemma consumes_type id super_id k s last :
  symbol_ok (SType id super_id k) -> Symbols.types s !! id = None ->
  consumes (symbol_bytes (SType id super_id k)) s last (with_types s (learn_type (Symbols.types s) (SType id super_id k))) (Some id).
Proof.
  intros Hok Hnone. cbn [symbol_bytes learn_type]. eapply consumes_app; [by apply consumes_head|]. destruct Hok as (_ & _ & _ & _ & Hf & Hm).
  unfold info_bytes, type_known. destruct (kind_of k) as [h mirror f methods|h e]; [|apply consumes_nil].
  apply Forall_cons in Hf as [[Hs Hown] Hsup]. destruct Hm as [Hms Hm].
  eapply consumes_app; [eapply (consumes_fields false k); [apply lookup_insert_eq|done..]|].
  eapply consumes_app; [eapply (consumes_supers (supers k)); [apply lookup_insert_eq|done]|].
  eapply consumes_eq; [eapply consumes_methods; [apply lookup_insert_eq|done..]|].
  cbn [Symbols.type_id Symbols.superId Symbols.internalName Symbols.size Symbols.fieldInfos Symbols.methodInfos].
  rewrite !with_types_twice. f_equal. unfold with_types. cbn [Symbols.types]. rewrite !insert_insert_eq. done.
Qed.

(** Everything but the sites and types. *)
Definition rest_of (s : Symbols.symbols) : bool * bool * bool * Z * list Z * gmap Z (list Z * bool) * ClassDefinitions.table :=
  (Symbols.anchors s, Symbols.pointers s, Symbols.fragmented_heap s, Symbols.heapWordSize s, Symbols.trace s, Symbols.causes s,
   Symbols.classDefinitions s).

Lemma consumes_symbols rs s last m :
  Forall symbol_ok rs -> knows (Symbols.known_sites s) m -> NoDup (type_ids rs) ->
  (forall id, id ∈ type_ids rs -> Symbols.types s !! id = None) ->
  exists s' last', consumes (concat (symbol_bytes <$> rs)) s last s' last' /\ rest_of s' = rest_of s /\
    knows (Symbols.known_sites s') (foldl learn_site m rs) /\ Symbols.types s' = foldl learn_type (Symbols.types s) rs.
Proof.
  intros Hok. revert s last m. induction Hok as [|r rs Hr Hok IH]; intros s last m Hk Hn Hfresh; cbn [fmap list_fmap concat foldl].
  { exists s, last. split_and!; try done. apply consumes_nil. }
  assert (exists s1 last1, consumes (symbol_bytes r) s last s1 last1 /\ rest_of s1 = rest_of s /\
    knows (Symbols.known_sites s1) (learn_site m r) /\ Symbols.types s1 = learn_type (Symbols.types s) r) as (s1 & last1 & Hc & Hrest & Hk1 & Ht1).
  { destruct r as [id l type|id signature type|id super_id k].
    - destruct (consumes_site id l type s last m Hr Hk) as (sites & Hc & Hk'). by eexists _, _.
    - destruct (consumes_simple id signature type s last m Hr Hk) as (sites & Hc & Hk'). by eexists _, _.
    - eexists _, _. split; [apply consumes_type; [done|]|done]. apply Hfresh. constructor. }
  destruct (IH s1 last1 (learn_site m r) Hk1) as (s' & last' & Hc' & Hrest' & Hk' & Ht').
  - destruct r; try done. by apply NoDup_cons in Hn as [_ Hn].
  - intros id Hin. rewrite Ht1. destruct r as [| |id0 super_id k]; [by apply Hfresh..|]. cbn in Hn. apply NoDup_cons in Hn as [Hni _].
    cbn [learn_type]. rewrite lookup_insert_ne by (by intros ->). apply Hfresh. by constructor.
  - exists s', last'. split; [by eapply consumes_app|]. split_and!; [congruence|done|by rewrite <- Ht1].
Qed.

(** *** The header *)

Lemma cause_ascii c : ascii_text (bytes_of_string (GCCause.to_string c)).
Proof. unfold ascii_text. destruct c; by_decide. Qed.

Fixpoint causes_known (id : Z) (l : list GCCause.Cause) (m : gmap Z (list Z * bool)) : gmap Z (list Z * bool) :=
  match l with
  | [] => m
  | c :: l => causes_known (id + 1) l (<[id := (bytes_of_string (GCCause.to_string c), is_common c)]> m)
  end.

Lemma causes_known_other l id m i : i < id -> causes_known id l m !! i = m !! i.
Proof.
  revert id m. induction l as [|c l IH]; intros id m Hi; cbn [causes_known]; [done|]. rewrite IH by lia. by rewrite lookup_insert_ne by lia.
Qed.

Lemma causes_known_lookup l id m i c :
  l !! i = Some c -> causes_known id l m !! (id + Z.of_nat i) = Some (bytes_of_string (GCCause.to_string c), is_common c).
Proof.
  revert id m i. induction l as [|d l IH]; intros id m i Hi; [done|]. cbn [causes_known]. destruct i as [|i].
  - injection Hi as <-. rewrite Z.add_0_r, causes_known_other by lia. by rewrite lookup_insert_eq.
  - replace (id + Z.of_nat (S i)) with (id + 1 + Z.of_nat i) by lia. by apply IH.
Qed.

Lemma consumes_causes l id s last :
  0 <= id -> id + Z.of_nat (List.length l) < 2 ^ 31 ->
  consumes (causes_bytes id l) s last (with_causes s (causes_known id l (Symbols.causes s))) last.
Proof.
  revert id s. induction l as [|c l IH]; intros id s Hid Hl; cbn [causes_bytes causes_known List.length] in *.
  { destruct s. apply consumes_nil. }
  eapply (consumes_app _ _ _ _ (with_causes s (<[id := (bytes_of_string (GCCause.to_string c), is_common c)]> (Symbols.causes s))) last);
    [|eapply consumes_eq; [apply IH; lia|done]].
  unfold cause_bytes. apply consumes_record; [done|]. intros rest. branch. unfold parseGarbageCollectionCause. appends.
  rewrite getInt_ok by (unfold int_ok; lia). cbn [mbind option_bind]. rewrite getZero_text by apply cause_ascii. cbn [mbind option_bind].
  by destruct (is_common c).
Qed.

Lemma file_header header w anchors pointers cms :
  AllocationTracingIO.file (AllocationTracingIO.create_file header get_file_type (write_header anchors pointers cms) w) =
    AllocationTracingIO.jint_bytes AllocationTracingIO.MAGIC ++ AllocationTracingIO.jint_bytes (Z.of_nat (List.length header)) ++
    concat (AllocationTracingIO.jint_bytes <$> header) ++ AllocationTracingIO.jint_bytes get_file_type ++
    AllocationTracingIO.jint_bytes SymbolsWriter.SYMBOLS_VERSION ++ AllocationTracingIO.jint_bytes (flags anchors pointers cms) ++
    AllocationTracingIO.jint_bytes HeapWordSize ++ 0 :: causes_bytes 0 GCCause.causes.
Proof.
  unfold AllocationTracingIO.create_file, AllocationTracingIO.write_global_header, write_header. rewrite file_causes, !file_write.
  cbn [AllocationTracingIO.file]. by appends.
Qed.

Lemma flags_read anchors pointers cms :
  let f := flags anchors pointers cms in
  int_ok f /\ negb (f .& 1 =? 0) = anchors /\ negb (f .& 2 =? 0) = pointers /\ negb (f .& 4 =? 0) = cms.
Proof. destruct anchors, pointers, cms; split_and!; done. Qed.

(** Behind the identification header, for any list of causes. *)
Lemma parse_bytes parsePtrs anchors pointers cms l rs :
  Z.of_nat (List.length l) < 2 ^ 31 -> Forall symbol_ok rs -> NoDup (0 :: type_ids rs) ->
  exists s, parse useCallContext seekable parsePtrs
      (AllocationTracingIO.jint_bytes SymbolsWriter.SYMBOLS_VERSION ++ AllocationTracingIO.jint_bytes (flags anchors pointers cms) ++
       AllocationTracingIO.jint_bytes HeapWordSize ++ 0 :: causes_bytes 0 l ++ concat (symbol_bytes <$> rs)) = Some s /\
    rest_of s = (anchors, pointers && parsePtrs, cms, HeapWordSize, [], causes_known 0 l ∅, ClassDefinitions.make) /\
    knows (Symbols.known_sites s) (sites_of rs) /\ Symbols.types s = types_of rs.
Proof.
  intros Hl Hrs [H0 Hn]%NoDup_cons. unfold parse, Scanner.getWord. destruct (flags_read anchors pointers cms) as (Hf & Ha & Hp & Hc).
  rewrite getInt_ok by done. cbn [mbind option_bind]. change (negb (SymbolsWriter.SYMBOLS_VERSION =? SYMBOLS_VERSION)) with false.
  cbn [mbind option_bind]. rewrite getInt_ok by done. cbn [mbind option_bind]. rewrite getInt_ok by done. cbn [mbind option_bind].
  rewrite getZero_nil. cbn [mbind option_bind]. rewrite Ha, Hp, Hc. set (s0 := Symbols.Symbols_ _ _ _ _ _ _ _ _ _).
  pose proof (consumes_causes l 0 s0 None ltac:(done) ltac:(lia)) as Hcauses.
  destruct (consumes_symbols rs (with_causes s0 (causes_known 0 l (Symbols.causes s0))) None ∅ Hrs) as (s' & last' & Hsym & Hrest & Hk & Ht);
    [apply make_knows|done| |].
  { intros id Hid. apply lookup_singleton_ne. by intros <-. }
  destruct (consumes_app _ _ _ _ _ _ _ _ Hcauses Hsym _ [] (le_n _)) as (fuel & _ & E). rewrite !app_nil_r in E. rewrite E.
  by exists s'.
Qed.

Lemma parse_file_bytes header parsePtrs anchors pointers cms l rs :
  Forall (fun z => s32 z = z) header -> Z.of_nat (List.length header) < 2 ^ 31 ->
  Z.of_nat (List.length l) < 2 ^ 31 -> Forall symbol_ok rs -> NoDup (0 :: type_ids rs) ->
  exists s, parse_file useCallContext seekable parsePtrs
      (AllocationTracingIO.jint_bytes AllocationTracingIO.MAGIC ++ AllocationTracingIO.jint_bytes (Z.of_nat (List.length header)) ++
       concat (AllocationTracingIO.jint_bytes <$> header) ++ AllocationTracingIO.jint_bytes get_file_type ++
       AllocationTracingIO.jint_bytes SymbolsWriter.SYMBOLS_VERSION ++ AllocationTracingIO.jint_bytes (flags anchors pointers cms) ++
       AllocationTracingIO.jint_bytes HeapWordSize ++ 0 :: causes_bytes 0 l ++ concat (symbol_bytes <$> rs)) = Some (header, s) /\
    Symbols.anchors s = anchors /\ Symbols.pointers s = pointers && parsePtrs /\ Symbols.fragmented_heap s = cms /\
    Symbols.heapWordSize s = HeapWordSize /\
    (forall i c, l !! i = Some c -> Symbols.causes s !! Z.of_nat i = Some (bytes_of_string (GCCause.to_string c), is_common c)) /\
    (forall id, 0 < id -> mjoin (Symbols.getById (Symbols.known_sites s) id) = sites_of rs !! id) /\
    Symbols.types s = types_of rs /\ Symbols.classDefinitions s = ClassDefinitions.make.
Proof.
  intros Hh Hl Hlen Hrs Hn. unfold parse_file, readSymbolsFileInfo. rewrite TraceFileRoundtrip.file_info_read by done. cbn [mbind option_bind].
  change (negb (s32 get_file_type =? 0)) with false. cbn [mbind option_bind].
  destruct (parse_bytes parsePtrs anchors pointers cms l rs Hlen Hrs Hn) as (s & -> & Hrest & Hk & Ht). cbn [mbind option_bind].
  injection Hrest as Ha Hp Hc Hw _ Hcs Hd. exists s. split_and!; try done.
  - intros i c Hi. rewrite Hcs. exact (causes_known_lookup l 0 ∅ i c Hi).
  - intros id Hid. by apply Hk.
Qed.

Lemma symbols_read header w anchors pointers cms parsePtrs rs :
  Forall (fun z => s32 z = z) header -> Z.of_nat (List.length header) < 2 ^ 31 ->
  Forall symbol_ok rs -> NoDup (0 :: type_ids rs) ->
  exists s, parse_file useCallContext seekable parsePtrs
      (AllocationTracingIO.file (foldl write_symbol
        (AllocationTracingIO.create_file header get_file_type (write_header anchors pointers cms) w) rs)) = Some (header, s) /\
    Symbols.anchors s = anchors /\ Symbols.pointers s = pointers && parsePtrs /\ Symbols.fragmented_heap s = cms /\
    Symbols.heapWordSize s = HeapWordSize /\
    (forall i c, GCCause.causes !! i = Some c ->
      Symbols.causes s !! Z.of_nat i = Some (bytes_of_string (GCCause.to_string c), is_common c)) /\
    (forall id, 0 < id -> mjoin (Symbols.getById (Symbols.known_sites s) id) = sites_of rs !! id) /\
    Symbols.types s = types_of rs /\ Symbols.classDefinitions s = ClassDefinitions.make.
Proof.
  intros Hh Hl Hrs Hn. rewrite (file_foldl _ symbol_bytes) by apply file_symbol. rewrite file_header. appends.
  exact (parse_file_bytes header parsePtrs anchors pointers cms GCCause.causes rs Hh Hl eq_refl Hrs Hn).
Qed.

(** C7: the symbols file is read back: after the header of a new file and any
    sequence of sites, special sites and types, with type identifiers that
    are not used twice, the analyzer knows the flags and the causes of
    collections, for every site identifier the call stack and the type last
    written for it, and for every type its super type, name, size, fields
    (its own and the inherited ones) and methods. *)
Theorem symbols_roundtrip header w anchors pointers cms parsePtrs rs :
  Forall (fun z => s32 z = z) header -> Z.of_nat (List.length header) < 2 ^ 31 ->
  Forall symbol_ok rs -> NoDup (0 :: type_ids rs) ->
  exists s, parse_file useCallContext seekable parsePtrs
      (AllocationTracingIO.file (foldl write_symbol
        (AllocationTracingIO.create_file header get_file_type (write_header anchors pointers cms) w) rs)) = Some (header, s) /\
    Symbols.anchors s = anchors /\ Symbols.pointers s = pointers && parsePtrs /\ Symbols.fragmented_heap s = cms /\
    Symbols.heapWordSize s = HeapWordSize /\
    (forall i c, GCCause.causes !! i = Some c ->
      Symbols.causes s !! Z.of_nat i = Some (bytes_of_string (GCCause.to_string c), is_common c)) /\
    (forall id, 0 < id -> mjoin (Symbols.getById (Symbols.known_sites s) id) = sites_of rs !! id) /\
    Symbols.types s = types_of rs /\ Symbols.classDefinitions s = ClassDefinitions.make.
Proof. apply symbols_read. Qed.

End Symbols.

(** A class with a field, and a recursive call of one of its methods. *)
Definition demo_class : klass :=
  TopKlass 4096 (bytes_of_string "LNode;") (Instance 2 false [Field 16 (bytes_of_string "I") (bytes_of_string "n") 0]
    [Method 0 (bytes_of_string "run") (Some [(0, bytes_of_string "this")])]).
Definition demo_text (m : Z) : list Z := bytes_of_string "Node.run(I)V".
Definition demo_symbols : list symbol := [SType 2 0 demo_class; SSite 15 [Call 8 3; Call 0 1] 2; SSimple 1 (bytes_of_string "VM internal") 0].

Lemma symbols_roundtrip_witness :
  exists s, parse_file true false true
      (AllocationTracingIO.file (foldl (write_symbol demo_text)
        (AllocationTracingIO.create_file [7] get_file_type (write_header true false false) (AllocationTracingIO.make 1)) demo_symbols)) = Some ([7], s) /\
    mjoin (Symbols.getById (Symbols.known_sites s) 15) =
      Some (Symbols.Site 15 [(bytes_of_string "Node.run(I)V", 3); (bytes_of_string "$$Recursion.repeat_1_last_frames_n_times()V", 1)] 2).
Proof.
  destruct (symbols_roundtrip demo_text true false [7] (AllocationTracingIO.make 1) true false false true demo_symbols)
    as (s & E & _ & _ & _ & _ & _ & Hs & _).
  - by_decide.
  - reflexivity.
  - unfold demo_symbols. apply Forall_cons. split; [|apply Forall_cons; split; [|apply Forall_singleton]].
    + unfold symbol_ok, describable. split_and!; [split; by compute|split; by compute|apply (descriptor_object (bytes_of_string "Node")); by_decide|split; by compute| |split; [reflexivity|]].
      * apply Forall_singleton. split; [reflexivity|]. apply Forall_singleton.
        split_and!; [split; by compute|exists 73, []; split; [reflexivity|by_decide]|exists 110, []; split; [reflexivity|by_decide]|split; by compute].
      * apply Forall_singleton. split_and!; [split; by compute|exists 114, [117; 110]; split; [reflexivity|by_decide]|reflexivity|].
        apply Forall_singleton. split; [split; by compute|]. exists 116, [104; 105; 115]. split; [reflexivity|by_decide].
    + split_and!; [left; split; by compute|reflexivity| |split; by compute]. apply Forall_cons. split; [|apply Forall_singleton].
      * split; [|split; by compute]. exists 78, (bytes_of_string "ode.run(I"), [86]. split_and!; [reflexivity|by_decide|by apply descriptor_base].
      * split; [|split; by compute]. exists 36, (bytes_of_string "$Recursion.repeat_1_last_frames_n_times("), [86].
        split_and!; [reflexivity|by_decide|by apply descriptor_base].
    + split_and!; [left; split; by compute|unfold ascii_text; by_decide|split; by compute].
  - by_decide.
  - exists s. split; [exact E|]. rewrite Hs by reflexivity. reflexivity.
Defined.

End SymbolsTheorem.
