(* ===== verification/TypeIds.v ===== *)
(** * Identifiers of types

    Every class gets one identifier, and when the identifier is known its
    description is in the symbols file, behind those of the super classes. *)

From Stdlib Require Import ZArith Lia String.
From stdpp Require Import gmap.
From S2P Require Import Prelude EventsWriter EventsRuntime StackTraces AllocationSites SymbolsWriter SymbolsParser SymbolsRoundtrip.

Module TypesSpec.
Import SymbolsWriter AllocatedTypes SymbolsTheorem RecordSpec.

Lemma supers_shorter k k' : k' ∈ supers k -> (length (supers k') < length (supers k))%nat.
Proof.
  induction k as [a n i|a k IH n i]; cbn [supers]; [by intros ?%elem_of_nil|].
  cbn [length]. intros [-> | H%IH]%elem_of_cons; lia.
Qed.

Section Types.
Variable text : Z -> list Z.

(** The classes of the program: closed under super classes, one object per
    class. *)
Variable loaded : klass -> Prop.
Hypothesis loaded_super : forall k k', loaded k -> super k = Some k' -> loaded k'.
Hypothesis loaded_address : forall k k', loaded k -> loaded k' -> address k = address k' -> k = k'.
Hypothesis loaded_describable : forall k, loaded k -> describable k.

(** The file at the beginning. *)
Variable w : AllocationTracingIO.io.

Lemma loaded_supers k k' : loaded k -> k' ∈ supers k -> loaded k'.
Proof.
  induction k as [a n i|a k IH n i]; cbn [supers]; intros Hk; [by intros ?%elem_of_nil|].
  intros [-> | Hin]%elem_of_cons; [by eapply loaded_super|]. apply IH; [by eapply loaded_super|done].
Qed.

Definition super_id (s : types) (k : klass) : Z :=
  match super k with Some k => get_allocated_type_identifier s k | None => ALLOCATED_TYPE_IDENTIFIER_UNKNOWN end.

(** The records [rs] are in the file; the classes at the addresses [P] have
    an identifier, but are not written yet. *)
Record inv (P : Z -> Prop) (s : types) (rs : list symbol) : Prop := {
  inv_next : 2 <= next_allocated_type_identifier s < 2 ^ 31;
  inv_file : symbols s = foldl (write_symbol text) w rs;
  inv_range : forall a id, identifiers s !! a = Some id -> 2 <= id < next_allocated_type_identifier s;
  inv_inj : forall a b id, identifiers s !! a = Some id -> identifiers s !! b = Some id -> a = b;
  inv_written : forall a id, identifiers s !! a = Some id -> ~ P a -> exists k, loaded k /\ address k = a /\
    SType id (super_id s k) k ∈ rs /\ (forall k', super k = Some k' -> is_Some (identifiers s !! address k'));
  inv_only : forall id sid k, SType id sid k ∈ rs -> loaded k /\ identifiers s !! address k = Some id /\ ~ P (address k);
  inv_once : NoDup (type_ids rs);
  inv_good : Forall (symbol_ok text) rs;
}.

Lemma inv_weaken P Q s rs : (forall a, P a <-> Q a) -> inv P s rs -> inv Q s rs.
Proof.
  intros H []. split; try done.
  - intros a id Ha Hq. apply inv_written0; [done|]. by rewrite H.
  - intros id sid k Hin. destruct (inv_only0 id sid k Hin) as (? & ? & ?). by rewrite <- H.
Qed.

Lemma identifier_of s k id : identifiers s !! address k = Some id -> get_allocated_type_identifier s k = id.
Proof. unfold get_allocated_type_identifier. by intros ->. Qed.

(** A new identifier, for a class that is to be written. *)
Lemma next_inv P s rs k :
  inv P s rs -> loaded k -> identifiers s !! address k = None -> next_allocated_type_identifier s + 1 < 2 ^ 31 ->
  exists s', next_identifier s k = Some (s', next_allocated_type_identifier s) /\ inv (fun a => P a \/ a = address k) s' rs /\
    identifiers s' = <[address k := next_allocated_type_identifier s]> (identifiers s) /\
    next_allocated_type_identifier s' = next_allocated_type_identifier s + 1.
Proof.
  intros [Hn Hf Hr Hi Hw Ho Hd Hg] Hk Hnone Hlt. unfold next_identifier. rewrite swrap_small by lia.
  rewrite (proj2 (Z.ltb_ge _ _)) by (unfold ALLOCATED_TYPE_IDENTIFIER_FIRST_CUSTOM; lia).
  eexists. split; [done|]. split_and!; [|done|done]. split; cbn [next_allocated_type_identifier identifiers symbols]; try done; [lia| | | |].
  - intros a id [[<- <-]|[_ Ha]]%lookup_insert_Some; [lia|]. specialize (Hr a id Ha). lia.
  - intros a b id [[<- <-]|[Hna Ha]]%lookup_insert_Some [[<- Hb]|[Hnb Hb]]%lookup_insert_Some; [done| | |by eapply Hi].
    + specialize (Hr b _ Hb). lia.
    + subst. specialize (Hr a _ Ha). lia.
  - intros a id [[<- <-]|[Hna Ha]]%lookup_insert_Some HP; [intuition congruence|].
    destruct (Hw a id Ha ltac:(intuition congruence)) as (k0 & Hk0 & <- & Hin & Hsup). exists k0. split_and!; [done|done| |].
    + assert (super_id (Types (next_allocated_type_identifier s + 1) (<[address k := next_allocated_type_identifier s]> (identifiers s)) (symbols s)) k0 =
        super_id s k0) as ->; [|done].
      unfold super_id, get_allocated_type_identifier. destruct (super k0) as [k'|] eqn:E; [|done]. cbn [identifiers].
      destruct (Hsup k' eq_refl) as [x Hx]. rewrite lookup_insert_ne; [done|]. intros Heq. congruence.
    + intros k' E. destruct (Hsup k' E) as [x Hx]. rewrite lookup_insert_ne; [by exists x|]. intros Heq. congruence.
  - intros id sid k0 Hin. destruct (Ho id sid k0 Hin) as (Hl & Hk0 & HP). assert (address k0 <> address k) by congruence.
    split_and!; [done|by rewrite lookup_insert_ne|intuition congruence].
Qed.

(** The class is written. *)
Lemma write_inv P s rs k id :
  inv (fun a => P a \/ a = address k) s rs -> loaded k -> identifiers s !! address k = Some id -> ~ P (address k) ->
  (forall k', super k = Some k' -> is_Some (identifiers s !! address k')) ->
  inv P (write_symbols s id (super_id s k) k) (rs ++ [SType id (super_id s k) k]).
Proof.
  intros [Hn Hf Hr Hi Hw Ho Hd Hg] Hk Hid HP Hsup. split; cbn [write_symbols next_allocated_type_identifier identifiers symbols]; try done.
  - rewrite foldl_app, Hf. done.
  - intros a id0 Ha HPa. destruct (decide (a = address k)) as [->|Hne].
    + exists k. rewrite Hid in Ha. injection Ha as <-. split_and!; [done|done| |done]. apply elem_of_app. right. by apply list_elem_of_singleton.
    + destruct (Hw a id0 Ha ltac:(intuition congruence)) as (k0 & Hk0 & E & Hin & Hs0). exists k0. split_and!; [done|done| |done]. apply elem_of_app. by left.
  - intros id0 sid k0 [Hin|[= -> -> ->]%list_elem_of_singleton]%elem_of_app; [|done].
    destruct (Ho id0 sid k0 Hin) as (? & ? & ?). split_and!; [done|done|intuition congruence].
  - unfold type_ids. rewrite omap_app. cbn. apply NoDup_app. split_and!; [done| |apply NoDup_singleton].
    intros x Hx ->%list_elem_of_singleton. apply list_elem_of_omap in Hx as ([| |id0 sid k0] & Hin & [= ->]).
    destruct (Ho id sid k0 Hin) as (_ & Hk0 & HP0). apply HP0. right. by eapply Hi.
  - apply Forall_app. split; [done|]. apply Forall_singleton. split_and!; [|unfold super_id|by apply loaded_describable].
    + specialize (Hr _ _ Hid). unfold int_ok. lia.
    + destruct (super k) as [k'|]; [|by split]. destruct (Hsup k' eq_refl) as [sid E]. rewrite (identifier_of _ _ _ E).
      specialize (Hr _ _ E). unfold int_ok. lia.
Qed.

(** Other records may be written in between. *)
Lemma other_inv P s rs r :
  inv P s rs -> type_ids [r] = [] -> symbol_ok text r ->
  inv P (Types (next_allocated_type_identifier s) (identifiers s) (write_symbol text (symbols s) r)) (rs ++ [r]).
Proof.
  intros [Hn Hf Hr Hi Hw Ho Hd Hg] Hno Hok. split; cbn [next_allocated_type_identifier identifiers symbols]; try done.
  - by rewrite foldl_app, Hf.
  - intros a id Ha HP. destruct (Hw a id Ha HP) as (k & Hk & E & Hin & Hs). exists k. split_and!; [done|done| |done]. apply elem_of_app. by left.
  - intros id sid k [Hin|Heq%list_elem_of_singleton]%elem_of_app; [by apply (Ho id sid)|by rewrite <- Heq in Hno].
  - unfold type_ids in *. by rewrite omap_app, Hno, app_nil_r.
  - apply Forall_app. split; [done|]. by apply Forall_singleton.
Qed.

(** Only descriptions of types. *)
Definition is_type (r : symbol) : Prop := match r with SType _ _ _ => True | _ => False end.

Lemma get_spec k : loaded k -> forall P s rs,
  inv P s rs -> (forall k', k' ∈ k :: supers k -> ~ P (address k')) ->
  next_allocated_type_identifier s + Z.of_nat (length (k :: supers k)) < 2 ^ 31 ->
  exists s' new id, get_allocated_type_id s k = Some (s', id) /\ inv P s' (rs ++ new) /\ Forall is_type new /\
    identifiers s' !! address k = Some id /\ identifiers s ⊆ identifiers s' /\
    next_allocated_type_identifier s <= next_allocated_type_identifier s' <=
      next_allocated_type_identifier s + Z.of_nat (length (k :: supers k)).
Proof.
  assert (forall P s rs k, inv P s rs -> is_Some (identifiers s !! address k) ->
    exists id, identifiers s !! address k = Some id /\ (get_allocated_type_identifier s k =? ALLOCATED_TYPE_IDENTIFIER_UNKNOWN) = false) as Hknown.
  { intros P s rs k0 Hi [id Hid]. exists id. split; [done|]. rewrite (identifier_of s k0 id Hid). pose proof (inv_range _ _ _ Hi _ _ Hid).
    apply Z.eqb_neq. unfold ALLOCATED_TYPE_IDENTIFIER_UNKNOWN. lia. }
  induction k as [a n i|a k' IH n i]; intros Hk P s rs Hi HP Hb; cbn [get_allocated_type_id].
  all: match type of Hk with loaded ?t => destruct (identifiers s !! address t) as [id|] eqn:E;
    [ destruct (Hknown P s rs t Hi (mk_is_Some _ _ E)) as (id' & Hid' & ->); exists s, [], id';
      rewrite (identifier_of _ _ _ Hid'), app_nil_r; split_and!; try done; lia |];
    assert ((get_allocated_type_identifier s t =? ALLOCATED_TYPE_IDENTIFIER_UNKNOWN) = true) as ->
      by (unfold get_allocated_type_identifier; by rewrite E) end.
  - destruct (next_inv P s rs _ Hi Hk E ltac:(cbn [length] in Hb; lia)) as (s1 & -> & Hi1 & Hids & Hnext). cbn [mbind option_bind].
    set (t := TopKlass a n i) in *. eexists _, _, (next_allocated_type_identifier s). split; [|split].
    2: { apply (write_inv P s1 rs t (next_allocated_type_identifier s) Hi1 Hk); [by rewrite Hids, lookup_insert_eq|apply HP; by constructor|done]. }
    + f_equal. f_equal. apply identifier_of. cbn [write_symbols identifiers]. by rewrite Hids, lookup_insert_eq.
    + cbn [write_symbols identifiers next_allocated_type_identifier]. rewrite Hids, Hnext. split_and!; [by repeat constructor|by rewrite lookup_insert_eq|by apply insert_subseteq|lia|cbn [length]; lia].
  - destruct (next_inv P s rs _ Hi Hk E ltac:(cbn [length] in Hb; lia)) as (s1 & -> & Hi1 & Hids & Hnext). cbn [mbind option_bind].
    set (t := Klass a k' n i) in *. change (supers t) with (k' :: supers k') in *. assert (loaded k') as Hk' by (by apply (loaded_super t)).
    destruct (IH Hk' (fun b => P b \/ b = address t) s1 rs Hi1) as (s2 & new & sid & -> & Hi2 & Hnew & Hsid & Hsub & Hle).
    { intros k0 Hk0 [Hp|Heq]; [by apply (HP k0); [by constructor|]|].
      assert (loaded k0) as Hl by (by apply (loaded_supers t)). assert (k0 = t) as -> by (by apply loaded_address).
      pose proof (supers_shorter t t Hk0). lia. }
    { cbn [length] in *. lia. }
    cbn [mbind option_bind]. assert (identifiers s2 !! address t = Some (next_allocated_type_identifier s)) as Ht.
    { eapply lookup_weaken; [|done]. by rewrite Hids, lookup_insert_eq. }
    assert (sid = super_id s2 t) as -> by (symmetry; by apply identifier_of).
    eexists _, (new ++ [_]), (next_allocated_type_identifier s). rewrite app_assoc. split; [|split].
    2: { apply (write_inv P s2 (rs ++ new) t (next_allocated_type_identifier s) Hi2 Hk Ht); [apply HP; by constructor|]. intros k0 [= <-]. by eexists. }
    + f_equal. f_equal. by apply identifier_of.
    + cbn [write_symbols identifiers next_allocated_type_identifier]. split_and!; [apply Forall_app; split; [done|by repeat constructor]|done| |lia|cbn [length] in *; lia].
      etrans; [|exact Hsub]. rewrite Hids. by apply insert_subseteq.
Qed.

(** Classes other than mirrors are numbered in the same way when a site
    needs them. *)
Lemma to_get s k : oop_is_instanceMirror k = false -> to_allocated_type s (Some k) = get_allocated_type_id s k.
Proof.
  intros Hm. unfold to_allocated_type. rewrite Hm, orb_false_r. destruct k; cbn [get_allocated_type_id super]; 
    destruct (_ =? _); [|done| |done]; destruct (next_identifier _ _) as [[s1 id]|]; cbn [mbind option_bind]; try done.
  by destruct (get_allocated_type_id s1 _) as [[s2 sid]|].
Qed.

(** What the analyzer knows of the types. *)
Lemma learn_other m rs id : id ∉ type_ids rs -> foldl learn_type m rs !! id = m !! id.
Proof.
  revert m. induction rs as [|r rs IH]; intros m Hni; cbn [foldl]; [done|]. destruct r as [| |id0 sid0 k0]; [by apply IH..|].
  cbn in Hni. apply not_elem_of_cons in Hni as [Hne Hni]. rewrite IH by done. cbn [learn_type]. by rewrite lookup_insert_ne.
Qed.

Lemma types_of_lookup rs id sid k :
  NoDup (type_ids rs) -> SType id sid k ∈ rs -> types_of rs !! id = Some (type_known id sid k).
Proof.
  unfold types_of. generalize Symbols.make_types. induction rs as [|r rs IH]; intros m Hn; [by intros ?%elem_of_nil|].
  intros [<- | Hin]%elem_of_cons; cbn [foldl].
  - cbn in Hn. apply NoDup_cons in Hn as [Hni _]. rewrite learn_other by done. apply lookup_insert_eq.
  - apply IH; [|done]. destruct r; try done. by apply NoDup_cons in Hn as [_ Hn].
Qed.

(** A class with an identifier is known, and so is its super class. *)
Lemma inv_known s rs k id :
  inv (fun _ => False) s rs -> loaded k -> identifiers s !! address k = Some id ->
  types_of rs !! id = Some (type_known id (super_id s k) k) /\
  forall k', super k = Some k' -> types_of rs !! super_id s k = Some (type_known (super_id s k) (super_id s k') k').
Proof.
  assert (forall k id, inv (fun _ => False) s rs -> loaded k -> identifiers s !! address k = Some id ->
    types_of rs !! id = Some (type_known id (super_id s k) k) /\ forall k', super k = Some k' -> is_Some (identifiers s !! address k')) as H.
  { intros k0 id0 Hi Hk Hid. destruct (inv_written _ _ _ Hi _ _ Hid) as (k1 & Hk1 & E & Hin & Hsup); [tauto|].
    assert (k1 = k0) as -> by (by apply loaded_address). split; [|done]. apply types_of_lookup; [by apply inv_once in Hi|done]. }
  intros Hi Hk Hid. destruct (H k id Hi Hk Hid) as [Ht Hsup]. split; [done|]. intros k' E. destruct (Hsup k' E) as [sid Es].
  unfold super_id at 1 2. rewrite E, (identifier_of _ _ _ Es). apply (H k' sid); [done| |done]. by eapply loaded_super.
Qed.

(** No identifier of a special type is used. *)
Lemma inv_fresh P s rs : inv P s rs -> NoDup (0 :: type_ids rs).
Proof.
  intros Hi. apply NoDup_cons. split; [|by apply inv_once in Hi]. intros Hin. apply list_elem_of_omap in Hin as ([| |id sid k] & Hin & [= ->]).
  destruct (inv_only _ _ _ Hi _ _ _ Hin) as (_ & E & _). apply (inv_range _ _ _ Hi) in E. lia.
Qed.

(** ** A sequence of requests *)

Fixpoint number (s : types) (ks : list klass) : option (types * list Z) :=
  match ks with
  | [] => Some (s, [])
  | k :: ks => '(s, id) ← get_allocated_type_id s k; '(s, ids) ← number s ks; Some (s, id :: ids)
  end.

(** Enough identifiers for the classes and their super classes. *)
Definition needed (ks : list klass) : Z := Z.of_nat (length (concat ((fun k => k :: supers k) <$> ks))).

Lemma number_spec ks s rs :
  inv (fun _ => False) s rs -> Forall loaded ks -> next_allocated_type_identifier s + needed ks < 2 ^ 31 ->
  exists s' new ids, number s ks = Some (s', ids) /\ inv (fun _ => False) s' (rs ++ new) /\ Forall is_type new /\
    identifiers s ⊆ identifiers s' /\ Forall2 (fun k id => identifiers s' !! address k = Some id) ks ids /\
    next_allocated_type_identifier s' <= next_allocated_type_identifier s + needed ks.
Proof.
  intros Hi Hks. revert s rs Hi. induction Hks as [|k ks Hk Hks IH]; intros s rs Hi Hb; cbn [number].
  { exists s, [], []. rewrite app_nil_r. split_and!; try done; try constructor. unfold needed. simpl. lia. }
  unfold needed in Hb |- *. cbn [fmap list_fmap concat] in Hb |- *. rewrite length_app in Hb |- *. fold (needed ks) in Hb.
  assert (Z.of_nat (length (k :: supers k) + length (concat ((fun k => k :: supers k) <$> ks))) = Z.of_nat (length (k :: supers k)) + needed ks) as E
    by (unfold needed; lia). rewrite E in Hb |- *.
  destruct (get_spec k Hk (fun _ => False) s rs Hi) as (s1 & new1 & id & -> & Hi1 & Hn1 & Hid & Hsub1 & Hle); [tauto|unfold needed in Hb; lia|].
  cbn [mbind option_bind]. destruct (IH s1 (rs ++ new1) Hi1) as (s' & new & ids & -> & Hi' & Hn & Hsub & Hids & Hle'); [lia|]. cbn [mbind option_bind].
  exists s', (new1 ++ new), (id :: ids). rewrite app_assoc. split_and!; [done|done|by apply Forall_app|by etrans| |lia].
  constructor; [|done]. by eapply lookup_weaken.
Qed.

Lemma init_inv : inv (fun _ => False) (init w) [].
Proof.
  split; cbn [init next_allocated_type_identifier identifiers symbols]; try done; try (intros a id; by rewrite lookup_empty).
  - intros id sid k Hin. by apply elem_of_nil in Hin.
  - constructor.
Qed.

End Types.

Lemma types_read (loaded : klass -> Prop) header w anchors pointers cms useCallContext seekable parsePtrs ks :
  (forall k k', loaded k -> super k = Some k' -> loaded k') ->
  (forall k k', loaded k -> loaded k' -> address k = address k' -> k = k') -> (forall k, loaded k -> describable k) ->
  Forall (fun z => s32 z = z) header -> Z.of_nat (length header) < 2 ^ 31 -> Forall loaded ks -> 2 + needed ks < 2 ^ 31 ->
  exists s ids S, number (init (AllocationTracingIO.create_file header get_file_type (write_header anchors pointers cms) w)) ks = Some (s, ids) /\
    SymbolsParser.parse_file useCallContext seekable parsePtrs (AllocationTracingIO.file (symbols s)) = Some (header, S) /\
    length ids = length ks /\
    (forall i j k k' id id', ks !! i = Some k -> ids !! i = Some id -> ks !! j = Some k' -> ids !! j = Some id' -> id = id' <-> k = k') /\
    (forall i k id, ks !! i = Some k -> ids !! i = Some id ->
      exists sid, Symbols.types S !! id = Some (type_known id sid k) /\
        forall k', super k = Some k' -> exists sid', Symbols.types S !! sid = Some (type_known sid sid' k')) /\
    Forall (fun id => 2 <= id < 2 + needed ks) ids /\ Symbols.classDefinitions S = ClassDefinitions.make.
Proof.
  intros Hsup Haddr Hdesc Hh Hlh Hks Hb. set (w0 := AllocationTracingIO.create_file _ _ _ _).
  destruct (number_spec (fun _ => []) loaded Hsup Haddr Hdesc w0 ks (init w0) []) as (s & rs & ids & En & Hi & _ & _ & H2 & Hle); [apply init_inv|done|done|].
  cbn [app] in Hi. pose proof (inv_fresh _ _ _ _ _ _ Hi) as Hfresh. pose proof (inv_good _ _ _ _ _ _ Hi) as Hgood.
  destruct (symbols_read (fun _ => []) useCallContext seekable header w anchors pointers cms parsePtrs rs Hh Hlh Hgood Hfresh)
    as (S & Ep & _ & _ & _ & _ & _ & _ & Ht & Hd).
  exists s, ids, S. split_and!; [done| |by apply Forall2_length in H2| | | |done].
  - by rewrite (inv_file _ _ _ _ _ _ Hi).
  - intros i j k k' id id' Hk Hid Hk' Hid'. rewrite Forall_lookup in Hks.
    pose proof (Forall2_lookup_lr _ _ _ _ _ _ H2 Hk Hid) as E1. pose proof (Forall2_lookup_lr _ _ _ _ _ _ H2 Hk' Hid') as E2. cbv beta in E1, E2.
    split; [intros <-|intros <-; congruence]. apply Haddr; [by eapply Hks..|]. by apply (inv_inj _ _ _ _ _ _ Hi _ _ id).
  - intros i k id Hk Hid. rewrite Forall_lookup in Hks. pose proof (Forall2_lookup_lr _ _ _ _ _ _ H2 Hk Hid) as E.
    destruct (inv_known (fun _ => []) loaded Hsup Haddr w0 s rs k id Hi (Hks i k Hk) E) as [Hty Hs].
    exists (super_id s k). rewrite Ht. split; [done|]. intros k' Ek. eexists. by apply Hs.
  - apply Forall_lookup. intros i id Hid. destruct (Forall2_lookup_r _ _ _ _ _ H2 Hid) as (k & _ & E).
    specialize (inv_range _ _ _ _ _ _ Hi _ _ E). cbn [init next_allocated_type_identifier] in *.
    unfold ALLOCATED_TYPE_IDENTIFIER_FIRST_CUSTOM in *. lia.
Qed.

(** C21: types are known to the analyzer: over any sequence of requests for
    identifiers of classes, each class has one identifier of its own, and the
    symbols file the VM has written by then is read without an exception and
    describes under it this class and, under the identifier of its super
    type, its super class. *)
Theorem types_known (loaded : klass -> Prop) header w anchors pointers cms useCallContext seekable parsePtrs ks :
  (forall k k', loaded k -> super k = Some k' -> loaded k') ->
  (forall k k', loaded k -> loaded k' -> address k = address k' -> k = k') -> (forall k, loaded k -> describable k) ->
  Forall (fun z => s32 z = z) header -> Z.of_nat (length header) < 2 ^ 31 -> Forall loaded ks -> 2 + needed ks < 2 ^ 31 ->
  exists s ids S, number (init (AllocationTracingIO.create_file header get_file_type (write_header anchors pointers cms) w)) ks = Some (s, ids) /\
    SymbolsParser.parse_file useCallContext seekable parsePtrs (AllocationTracingIO.file (symbols s)) = Some (header, S) /\
    length ids = length ks /\
    (forall i j k k' id id', ks !! i = Some k -> ids !! i = Some id -> ks !! j = Some k' -> ids !! j = Some id' -> id = id' <-> k = k') /\
    forall i k id, ks !! i = Some k -> ids !! i = Some id ->
      exists sid, Symbols.types S !! id = Some (type_known id sid k) /\
        forall k', super k = Some k' -> exists sid', Symbols.types S !! sid = Some (type_known sid sid' k').
Proof.
  intros Hsup Haddr Hdesc Hh Hlh Hks Hb.
  destruct (types_read loaded header w anchors pointers cms useCallContext seekable parsePtrs ks Hsup Haddr Hdesc Hh Hlh Hks Hb)
    as (s & ids & S & En & Ep & El & Hinj & Ht & _).
  by exists s, ids, S.
Qed.

Definition object_class : klass := TopKlass 4096 (bytes_of_string "LObject;") (Instance 2 false [] []).
Definition node_class : klass :=
  Klass 8192 object_class (bytes_of_string "LNode;") (Instance 3 false [Field 16 (bytes_of_string "LNode;") (bytes_of_string "next") 0] []).
Definition demo_loaded (k : klass) : Prop := k = object_class \/ k = node_class.

Lemma demo_super k k' : demo_loaded k -> super k = Some k' -> demo_loaded k'.
Proof. intros [-> | ->]; [done|]. intros [= <-]. by left. Qed.

Lemma demo_address k k' : demo_loaded k -> demo_loaded k' -> address k = address k' -> k = k'.
Proof. by intros [-> | ->] [-> | ->]. Qed.

Lemma demo_describable k : demo_loaded k -> describable k.
Proof.
  intros [-> | ->].
  - split; [apply (ScannerSpec.descriptor_object (bytes_of_string "Object")); by_decide|]. split; [split; by compute|].
    split; [apply Forall_singleton; by split|]. by split.
  - split; [apply (ScannerSpec.descriptor_object (bytes_of_string "Node")); by_decide|]. split; [split; by compute|]. split; [|by split].
    apply Forall_cons. split; [|apply Forall_singleton; by split]. split; [done|]. apply Forall_singleton.
    split; [split; by compute|]. split; [exists 76, (bytes_of_string "Node;"); split; [done|by_decide]|].
    split; [exists 110, (bytes_of_string "ext"); split; [done|by_decide]|split; by compute].
Qed.

Lemma types_known_witness :
  exists s S, number (init (AllocationTracingIO.create_file [7] get_file_type (write_header true true false) (AllocationTracingIO.make 1)))
      [node_class; object_class] = Some (s, [2; 3]) /\
    SymbolsParser.parse_file true false true (AllocationTracingIO.file (symbols s)) = Some ([7], S) /\
    Symbols.types S !! 2 = Some (type_known 2 3 node_class).
Proof.
  destruct (types_known demo_loaded [7] (AllocationTracingIO.make 1) true true false true false true [node_class; object_class])
    as (s & ids & S & En & Ep & _ & _ & Ht);
    [exact demo_super|exact demo_address|exact demo_describable|by_decide|reflexivity|constructor; [by right|constructor; [by left|constructor]]|reflexivity|].
  exists s, S. assert (ids = [2; 3]) as Hids by (vm_compute in En; congruence). split_and!; [by rewrite En, Hids|exact Ep|].
  rewrite Hids in Ht. destruct (Ht 0%nat node_class 2 eq_refl eq_refl) as (sid & E & Hsup). rewrite E. do 2 f_equal.
  vm_compute in En. injection En as <- _. vm_compute in Ep. injection Ep as <-. vm_compute in E. congruence.
Defined.

End TypesSpec.
