(* ===== verification/ClassFiles.v ===== *)
(** * Class definitions ([prims/ClassDefinitionWriter.cpp],
      [classfile/classFileParser.cpp])

    With [TraceObjectsClassDefinitions] the VM copies each class file it has
    parsed into a file of its own, under the identifier of the class; the
    analyzer's reader is in [SymbolsParser]. *)

From Stdlib Require Import ZArith Lia.
From stdpp Require Import gmap.
From S2P Require Import Prelude EventsWriter SymbolsWriter SymbolsParser SymbolsRoundtrip TypeIds.

Module ClassDefinitionWriter.
Import AllocationTracingIO.

Definition MAGIC_BYTE_CLASS_DEFINITION : Z := 14.

(** [SymbolsClassDefinition]; [length] is the length of [buffer]. *)
Record definition := Class { allocated_type_id : Z; buffer : list Z }.

(** The flags, for future use, and an empty name. *)
Definition write_header (w : io) : io :=
  let w := write w (jint_bytes 0) in
  write w [0].

Definition get_file_type : Z := FILE_TYPE_CLASS_DEFINITIONS.

Definition write_symbol (w : io) (symbol : definition) : io :=
  let w := write w [MAGIC_BYTE_CLASS_DEFINITION] in
  let w := write w (jint_bytes (allocated_type_id symbol)) in
  let w := write w (jint_bytes (Z.of_nat (length (buffer symbol)))) in
  write w (buffer symbol).

End ClassDefinitionWriter.

(** The end of [ClassFileParser::parseClassFile], for a class and its file. *)
Module ClassFileParser.

Definition define (TraceObjects TraceObjectsClassDefinitions : bool) (s : AllocatedTypes.types) (w : AllocationTracingIO.io)
  (class : klass * list Z) : option (AllocatedTypes.types * AllocationTracingIO.io) :=
  if TraceObjects && TraceObjectsClassDefinitions then
    '(s, allocated_type_id) ← AllocatedTypes.get_allocated_type_id s class.1;
    Some (s, ClassDefinitionWriter.write_symbol w (ClassDefinitionWriter.Class allocated_type_id class.2))
  else Some (s, w).

Fixpoint define_all (TraceObjects TraceObjectsClassDefinitions : bool) (s : AllocatedTypes.types) (w : AllocationTracingIO.io)
  (classes : list (klass * list Z)) : option (AllocatedTypes.types * AllocationTracingIO.io) :=
  match classes with
  | [] => Some (s, w)
  | class :: classes =>
      '(s, w) ← define TraceObjects TraceObjectsClassDefinitions s w class;
      define_all TraceObjects TraceObjectsClassDefinitions s w classes
  end.

End ClassFileParser.

(** ** The table of definitions *)

Module DefinitionTable.
Import ClassDefinitions.

(** The array holds [m]; its length is a power of two that fits. *)
Definition holds (t : table) (m : gmap Z ClassDefinition) : Prop :=
  (exists j, 0 <= j <= 30 /\ Z.of_nat (length (definitions t)) = 2 ^ j) /\
  isEmpty t = bool_decide (m = ∅) /\
  (forall i d, definitions t !! i = Some (Some d) -> m !! Z.of_nat i = Some d) /\
  (forall id d, m !! id = Some d -> 0 <= id /\ definitions t !! Z.to_nat id = Some (Some d)).

Lemma no_definitions_hold : holds make ∅.
Proof.
  split_and!; [by exists 6|done| |].
  - intros i d [H _]%lookup_replicate. discriminate.
  - intros id d H. by rewrite lookup_empty in H.
Qed.

Lemma doubled_spec fuel id j :
  0 <= j <= 30 -> id < 2 ^ 30 -> 30 - j < Z.of_nat fuel ->
  exists j', j <= j' <= 30 /\ id < 2 ^ j' /\ doubled fuel id (2 ^ j) = Some (2 ^ j').
Proof.
  revert j. induction fuel as [|fuel IH]; intros j Hj Hid Hf; [lia|]. cbn [doubled].
  destruct (Z.leb_spec (2 ^ j) id) as [Hle|Hlt]; [|exists j; split_and!; [lia|lia|done|done]].
  assert (j < 30) by (destruct (Z.eq_dec j 30) as [->|]; lia).
  replace (2 ^ j * 2) with (2 ^ (j + 1)) by (rewrite Z.pow_add_r by lia; lia).
  rewrite swrap_small; [| |lia].
  - destruct (IH (j + 1)) as (j' & ? & ? & ?); [lia..|]. exists j'. split_and!; [lia|lia|done|done].
  - pose proof (Z.pow_le_mono_r 2 (j + 1) 30). pose proof (Z.pow_pos_nonneg 2 (j + 1)). lia.
Qed.

(** From 2^30 on no array is long enough. *)
Lemma doubled_never fuel id n : 2 ^ 30 <= id -> n = 0 \/ n = - 2 ^ 31 \/ (exists j, 0 <= j <= 30 /\ n = 2 ^ j) -> doubled fuel id n = None.
Proof.
  intros Hid. revert n. induction fuel as [|fuel IH]; intros n Hn; [done|]. cbn [doubled].
  assert (n <= id) by (destruct Hn as [->|[->|(j & Hj & ->)]]; [lia|lia|]; pose proof (Z.pow_le_mono_r 2 j 30); lia).
  rewrite (proj2 (Z.leb_le _ _)) by done. apply IH. destruct Hn as [->|[->|(j & Hj & ->)]]; [by left|by left|right].
  destruct (Z.eq_dec j 30) as [->|]; [by left|]. right. exists (j + 1). split; [lia|].
  replace (2 ^ j * 2) with (2 ^ (j + 1)) by (rewrite Z.pow_add_r by lia; lia).
  apply swrap_small; [|lia]. pose proof (Z.pow_le_mono_r 2 (j + 1) 30). pose proof (Z.pow_pos_nonneg 2 (j + 1)). lia.
Qed.

Lemma holds_insert array e m d j :
  0 <= j <= 30 -> Z.of_nat (length array) = 2 ^ j -> 0 <= id d < 2 ^ j ->
  (forall i d, array !! i = Some (Some d) -> m !! Z.of_nat i = Some d) ->
  (forall id d, m !! id = Some d -> 0 <= id /\ array !! Z.to_nat id = Some (Some d)) ->
  e = false -> holds (Table (<[Z.to_nat (id d) := Some d]> array) e) (<[id d := d]> m).
Proof.
  intros Hj Hl Hd H1 H2 ->. split_and!; cbn [definitions isEmpty].
  - exists j. by rewrite length_insert.
  - symmetry. apply bool_decide_eq_false. apply insert_non_empty.
  - intros i d' [(<- & [= <-] & Hi)|(Hne & Hi)]%list_lookup_insert_Some; [rewrite Z2Nat.id by lia; by rewrite lookup_insert_eq|].
    rewrite lookup_insert_ne by lia. by apply H1.
  - intros i d' [[<- <-]|[Hne Hi]]%lookup_insert_Some; [split; [lia|]; apply list_lookup_insert_eq; lia|].
    destruct (H2 _ _ Hi) as [? ?]. split; [done|]. by rewrite list_lookup_insert_ne by lia.
Qed.

Lemma add_definition_spec t m d : holds t m -> 0 <= id d < 2 ^ 30 -> exists t', add t d = Some t' /\ holds t' (<[id d := d]> m).
Proof.
  intros ((j & Hj & Hl) & _ & H1 & H2) Hd. unfold add. rewrite Hl.
  destruct (Z.leb_spec (2 ^ j) (id d)) as [Hle|Hlt]; cbn [mbind option_bind].
  2: { rewrite Hl, (proj2 (Z.ltb_ge _ _)), (proj2 (Z.leb_gt _ _)) by lia. eexists. split; [done|].
       apply (holds_insert _ _ _ _ j); [lia|done|lia|done|done|done]. }
  assert (j < 30) by (destruct (Z.eq_dec j 30) as [->|]; lia).
  replace (2 ^ j * 2) with (2 ^ (j + 1)) by (rewrite Z.pow_add_r by lia; lia).
  rewrite swrap_small by (try lia; pose proof (Z.pow_le_mono_r 2 (j + 1) 30); pose proof (Z.pow_pos_nonneg 2 (j + 1)); lia).
  destruct (doubled_spec 33 (id d) (j + 1)) as (j' & Hj' & Hid & ->); [lia..|]. cbn [mbind option_bind].
  pose proof (Z.pow_pos_nonneg 2 j'). pose proof (Z.pow_le_mono_r 2 j j'). rewrite (proj2 (Z.ltb_ge (2 ^ j') 0)) by lia. cbn [mbind option_bind].
  rewrite take_ge by lia. set (array := definitions t ++ _).
  assert (Z.of_nat (length array) = 2 ^ j') as Hl' by (unfold array; rewrite length_app, length_replicate; lia).
  rewrite Hl', (proj2 (Z.ltb_ge (id d) 0)), (proj2 (Z.leb_gt _ _)) by lia. eexists. split; [done|]. apply (holds_insert _ _ _ _ j'); [lia|done|lia| | |done].
  - intros i d' [Hi|[_ [Hi _]%lookup_replicate]]%lookup_app_Some; [by apply H1|done].
  - intros i d' [? Hi]%H2. split; [done|]. by apply lookup_app_l_Some.
Qed.

End DefinitionTable.

(** ** The file *)

Module DefinitionsFile.
Import ClassDefinitionWriter ClassDefinitionsParser DefinitionTable.

(** What the reader should find, and what is in the file. *)
Definition known (d : definition) : ClassDefinitions.ClassDefinition := ClassDefinitions.Definition_ (allocated_type_id d) (buffer d).

Definition definition_bytes (d : definition) : list Z :=
  MAGIC_BYTE_CLASS_DEFINITION :: AllocationTracingIO.jint_bytes (allocated_type_id d) ++
  AllocationTracingIO.jint_bytes (Z.of_nat (length (buffer d))) ++ buffer d.

Definition definition_ok (d : definition) : Prop := 0 <= allocated_type_id d < 2 ^ 30 /\ Z.of_nat (length (buffer d)) < 2 ^ 31.

(** The last definition for each identifier. *)
Definition learned (m : gmap Z ClassDefinitions.ClassDefinition) (ds : list definition) : gmap Z ClassDefinitions.ClassDefinition :=
  foldl (fun m d => <[allocated_type_id d := known d]> m) m ds.

Lemma file_definition w d : AllocationTracingIO.file (write_symbol w d) = AllocationTracingIO.file w ++ definition_bytes d.
Proof. unfold write_symbol, definition_bytes. rewrite !SymbolsBytes.file_write. by rewrite <- !app_assoc. Qed.

Lemma parse_definition t m d rest :
  holds t m -> definition_ok d ->
  exists t', parseClassDefinition t (AllocationTracingIO.jint_bytes (allocated_type_id d) ++
      AllocationTracingIO.jint_bytes (Z.of_nat (length (buffer d))) ++ buffer d ++ rest) = Some (t', rest) /\
    holds t' (<[allocated_type_id d := known d]> m).
Proof.
  intros Ht [Hid Hlen]. unfold parseClassDefinition, Scanner.getWord. rewrite RecordSpec.getInt_ok by (unfold RecordSpec.int_ok; lia).
  cbn [mbind option_bind]. rewrite RecordSpec.getInt_ok by (unfold RecordSpec.int_ok; lia). cbn [mbind option_bind].
  unfold Scanner.get. rewrite (proj2 (Z.ltb_ge _ _)), (proj2 (Z.ltb_ge _ _)) by (rewrite ?length_app; lia). cbn [orb mbind option_bind].
  rewrite Nat2Z.id, take_app_length, drop_app_length.
  destruct (add_definition_spec t m (known d) Ht Hid) as (t' & E & Ht'). unfold known in E. rewrite E. by exists t'.
Qed.

Lemma parse_all ds t m fuel :
  holds t m -> Forall definition_ok ds -> (length ds < fuel)%nat ->
  exists t', parse_definitions fuel t (concat (definition_bytes <$> ds)) = Some t' /\ holds t' (learned m ds).
Proof.
  intros Ht Hds. revert t m fuel Ht. induction Hds as [|d ds Hd Hds IH]; intros t m fuel Ht Hf; (destruct fuel as [|fuel]; [simpl in Hf; lia|]).
  { by exists t. }
  cbn [fmap list_fmap concat length] in *. unfold definition_bytes at 1. cbn [app parse_definitions Scanner.getMagicByte].
  change (s8 MAGIC_BYTE_CLASS_DEFINITION =? 0) with false. change (s8 MAGIC_BYTE_CLASS_DEFINITION =? ClassDefinitions.MAGIC_BYTE) with true.
  cbn iota. rewrite <- !app_assoc. destruct (parse_definition t m d (concat (definition_bytes <$> ds)) Ht Hd) as (t1 & -> & Ht1).
  cbn [mbind option_bind]. apply IH; [done|lia].
Qed.

Lemma enough_fuel ds : (length ds <= length (concat (definition_bytes <$> ds)))%nat.
Proof. induction ds as [|d ds IH]; cbn [length fmap list_fmap concat definition_bytes app]; [lia|]. rewrite length_app. lia. Qed.

(** The file is read back, with the last definition for each identifier. *)
Lemma definitions_read header w ds :
  Forall (fun z => s32 z = z) header -> Z.of_nat (length header) < 2 ^ 31 -> Forall definition_ok ds ->
  exists t, ClassDefinitionsParser.parse (AllocationTracingIO.file (foldl write_symbol
      (AllocationTracingIO.create_file header get_file_type write_header w) ds)) = Some t /\ holds t (learned ∅ ds).
Proof.
  intros Hh Hl Hds. rewrite (SymbolsBytes.file_foldl _ definition_bytes) by apply file_definition.
  unfold AllocationTracingIO.create_file, AllocationTracingIO.write_global_header, write_header. rewrite !SymbolsBytes.file_write.
  cbn [AllocationTracingIO.file]. rewrite app_nil_l, <- !app_assoc.
  unfold parse, readClassDefinitionsFileInfo. rewrite TraceFileRoundtrip.file_info_read by done. cbn [mbind option_bind].
  change (negb (s32 get_file_type =? 2)) with false. cbn [mbind option_bind]. unfold Scanner.getWord.
  rewrite RecordSpec.getInt_ok by done. cbn [mbind option_bind app]. rewrite ScannerSpec.getZero_nil. cbn [mbind option_bind].
  apply parse_all; [apply no_definitions_hold|done|]. pose proof (enough_fuel ds). lia.
Qed.

End DefinitionsFile.

(** ** Classes and their definitions *)

Module Classes.
Import ClassDefinitionWriter ClassFileParser DefinitionTable DefinitionsFile TypesSpec.

(** The identifiers are those of the requests in this order. *)
Lemma define_all_numbers classes s w s' ids :
  number s classes.*1 = Some (s', ids) ->
  define_all true true s w classes = Some (s', foldl write_symbol w (zip_with Class ids classes.*2)).
Proof.
  revert s w ids. induction classes as [|[k bytes] classes IH]; intros s w ids; cbn [fmap list_fmap number define_all fst snd]; [by intros [= <- <-]|].
  unfold define. cbn [andb fst snd]. destruct (AllocatedTypes.get_allocated_type_id s k) as [[s1 id]|]; [|done]. cbn [mbind option_bind].
  destruct (number s1 classes.*1) as [[s2 ids2]|] eqn:E; [|done]. cbn [mbind option_bind]. intros [= <- <-]. cbn [zip_with foldl]. by apply IH.
Qed.

(** Without repeated identifiers every definition is kept. *)
Lemma learned_once ds m id x :
  NoDup (allocated_type_id <$> ds) ->
  learned m ds !! id = Some x <->
  (exists d, d ∈ ds /\ allocated_type_id d = id /\ x = known d) \/ (id ∉ allocated_type_id <$> ds) /\ m !! id = Some x.
Proof.
  revert m. induction ds as [|d ds IH]; intros m Hn; cbn [learned foldl fmap list_fmap].
  { set_solver. }
  apply NoDup_cons in Hn as [Hd Hn]. fold (learned (<[allocated_type_id d := known d]> m) ds). rewrite IH by done. split.
  - intros [(d' & ? & ? & ?)|[Hid [[<- <-]|[Hne Hm]]%lookup_insert_Some]]; [left; exists d'; set_solver|left; exists d; set_solver|right; set_solver].
  - intros [(d' & [-> | Hin]%elem_of_cons & <- & ->)|[Hid Hm]]; [right|left; by exists d'|right].
    + split; [done|]. by rewrite lookup_insert_eq.
    + split; [set_solver|]. rewrite lookup_insert_ne; [done|set_solver].
Qed.

Lemma definitions_ids ids (l : list (list Z)) : length ids = length l -> allocated_type_id <$> zip_with Class ids l = ids.
Proof. revert l. induction ids as [|id ids IH]; intros [|b l] H; try done. cbn. f_equal. apply IH. by injection H. Qed.

Lemma ids_distinct {A} (ks : list A) (ids : list Z) :
  length ids = length ks -> NoDup ks ->
  (forall i j k k' id id', ks !! i = Some k -> ids !! i = Some id -> ks !! j = Some k' -> ids !! j = Some id' -> id = id' <-> k = k') -> NoDup ids.
Proof.
  intros Hl Hn H. apply NoDup_alt. intros i j id Hi Hj.
  destruct (lookup_lt_is_Some_2 ks i) as [k Hk]; [apply lookup_lt_Some in Hi; lia|].
  destruct (lookup_lt_is_Some_2 ks j) as [k' Hk']; [apply lookup_lt_Some in Hj; lia|].
  assert (k = k') as <- by (by apply (H i j k k' id id)). by eapply NoDup_lookup.
Qed.

(** The definition of the [i]-th class. *)
Lemma definition_at (classes : list (klass * list Z)) ids d :
  d ∈ zip_with Class ids classes.*2 <->
  exists i k, classes !! i = Some (k, buffer d) /\ ids !! i = Some (allocated_type_id d).
Proof.
  rewrite list_elem_of_lookup. setoid_rewrite lookup_zip_with_Some. split.
  - intros (i & id & bytes & -> & Hid & ([k b] & -> & Hc)%list_lookup_fmap_Some). by exists i, k.
  - intros (i & k & Hc & Hid). exists i, (allocated_type_id d), (buffer d). split_and!; [by destruct d|done|].
    by rewrite list_lookup_fmap, Hc.
Qed.

(** C22: class files reach the analyzer: after any sequence of classes was
    defined, each once, the symbols file and the file of class definitions
    are read without an exception, the table handed to the analysis of call
    contexts holds the bytes of every class under the identifier that the
    symbols describe as this class, and iterating over it yields nothing
    else. *)
Theorem class_files_known (loaded : klass -> Prop) header w wd anchors pointers cms seekable parsePtrs classes :
  (forall k k', loaded k -> super k = Some k' -> loaded k') ->
  (forall k k', loaded k -> loaded k' -> address k = address k' -> k = k') -> (forall k, loaded k -> SymbolsTheorem.describable k) ->
  Forall (fun z => s32 z = z) header -> Z.of_nat (length header) < 2 ^ 31 ->
  Forall loaded classes.*1 -> NoDup classes.*1 -> 2 + needed classes.*1 < 2 ^ 30 ->
  Forall (fun bytes => Z.of_nat (length bytes) < 2 ^ 31) classes.*2 ->
  exists s w' S t,
    define_all true true
      (AllocatedTypes.init (AllocationTracingIO.create_file header SymbolsWriter.get_file_type (SymbolsWriter.write_header anchors pointers cms) w))
      (AllocationTracingIO.create_file header get_file_type write_header wd) classes = Some (s, w') /\
    SymbolsParser.parse_file true seekable parsePtrs (AllocationTracingIO.file (AllocatedTypes.symbols s)) = Some (header, S) /\
    SymbolsParser.definitions_used true S (Some (AllocationTracingIO.file w')) = Some t /\
    (forall k bytes, (k, bytes) ∈ classes -> exists id sid,
      Symbols.types S !! id = Some (SymbolsTheorem.type_known id sid k) /\
      ClassDefinitions.get t id = Some (Some (ClassDefinitions.Definition_ id bytes))) /\
    (forall d, d ∈ ClassDefinitions.iterate t -> exists k sid,
      (k, ClassDefinitions.data d) ∈ classes /\
      Symbols.types S !! ClassDefinitions.id d = Some (SymbolsTheorem.type_known (ClassDefinitions.id d) sid k)).
Proof.
  intros Hsup Haddr Hdesc Hh Hlh Hks Hn Hb Hbytes.
  destruct (types_read loaded header w anchors pointers cms true seekable parsePtrs classes.*1 Hsup Haddr Hdesc Hh Hlh Hks ltac:(lia))
    as (s & ids & S & En & Ep & El & Hinj & Ht & Hr & Hd). rewrite length_fmap in El.
  set (ds := zip_with Class ids classes.*2). assert (allocated_type_id <$> ds = ids) as Eids by (apply definitions_ids; by rewrite length_fmap).
  assert (NoDup ids) as Hnd by (eapply (ids_distinct classes.*1); [by rewrite length_fmap|done|done]).
  destruct (definitions_read header wd ds Hh Hlh) as (t & Et & _ & _ & Hto & Hof).
  { apply Forall_forall. intros d (i & k & Hc & Hid)%definition_at. rewrite Forall_lookup in Hr. rewrite Forall_lookup in Hbytes.
    specialize (Hr i _ Hid). specialize (Hbytes i (buffer d)). rewrite list_lookup_fmap, Hc in Hbytes. split; [lia|by apply Hbytes]. }
  exists s, (foldl write_symbol (AllocationTracingIO.create_file header get_file_type write_header wd) ds), S, t.
  split; [by apply define_all_numbers|]. split; [exact Ep|]. split; [unfold SymbolsParser.definitions_used; by rewrite Hd|]. split.
  - intros k bytes [i Hi]%list_elem_of_lookup. destruct (lookup_lt_is_Some_2 ids i) as [id Hid]; [apply lookup_lt_Some in Hi; lia|].
    destruct (Ht i k id) as (sid & Hty & _); [by rewrite list_lookup_fmap, Hi|done|]. exists id, sid. split; [done|].
    destruct (Hof id (known (Class id bytes))) as [H0 Hlook].
    { apply learned_once; [by rewrite Eids|]. left. exists (Class id bytes). split; [|done]. apply definition_at. by exists i, k. }
    unfold ClassDefinitions.get. by rewrite (proj2 (Z.ltb_ge _ _)).
  - intros d ([d'|] & [i Hi]%list_elem_of_lookup & [= ->])%list_elem_of_omap. apply Hto, learned_once in Hi; [|by rewrite Eids].
    destruct Hi as [(c & (j & k & Hc & Hid)%definition_at & Eid & ->)|[_ Hm]]; [|by rewrite lookup_empty in Hm].
    destruct (Ht j k (allocated_type_id c)) as (sid & Hty & _); [by rewrite list_lookup_fmap, Hc|done|].
    exists k, sid. split; [|done]. apply list_elem_of_lookup. by exists j.
Qed.

Lemma class_files_known_witness :
  exists s w' S t,
    define_all true true
      (AllocatedTypes.init (AllocationTracingIO.create_file [7] SymbolsWriter.get_file_type (SymbolsWriter.write_header true true false) (AllocationTracingIO.make 1)))
      (AllocationTracingIO.create_file [7] get_file_type write_header (AllocationTracingIO.make 1))
      [(node_class, [202; 254; 186; 190; 1]); (object_class, [202; 254; 186; 190])] = Some (s, w') /\
    SymbolsParser.parse_file true false true (AllocationTracingIO.file (AllocatedTypes.symbols s)) = Some ([7], S) /\
    SymbolsParser.definitions_used true S (Some (AllocationTracingIO.file w')) = Some t /\
    exists id sid, Symbols.types S !! id = Some (SymbolsTheorem.type_known id sid node_class) /\
      ClassDefinitions.get t id = Some (Some (ClassDefinitions.Definition_ id [202; 254; 186; 190; 1])).
Proof.
  destruct (class_files_known demo_loaded [7] (AllocationTracingIO.make 1) (AllocationTracingIO.make 1) true true false false true
    [(node_class, [202; 254; 186; 190; 1]); (object_class, [202; 254; 186; 190])]) as (s & w' & S & t & E & Ep & Eu & Hk & _);
    [exact demo_super|exact demo_address|exact demo_describable|by_decide|reflexivity
    |constructor; [by right|constructor; [by left|constructor]]| |reflexivity|by_decide|].
  { apply NoDup_cons. split; [|apply NoDup_singleton]. intros [=]%list_elem_of_singleton. }
  exists s, w', S, t. split; [exact E|]. split; [exact Ep|]. split; [exact Eu|]. apply Hk. left.
Defined.

End Classes.
