(* ===== verification/SiteTables.v ===== *)
(** * The table of allocation sites ([prims/AllocationSites.cpp])

    Call stacks with the type they allocate get identifiers, small ones of 15
    bits or big ones of 23 bits, and are written to the symbols file.  Two
    dictionaries lead from the descriptions to the identifiers and back; a
    description whose type is not known yet matches every type.  When
    identifiers run short, only the innermost frames are kept. *)

From Stdlib Require Import ZArith Lia String.
From stdpp Require Import gmap sorting strings pretty.
From S2P Require Import Prelude MapInterface EventsWriter EventsRuntime Dict StackTraces AllocationSites SymbolsWriter.

Module AllocationSites.
Import Dict DictMap SymbolsWriter AllocatedTypes.

Definition ALLOCATION_SITE_IDENTIFIER_UNKNOWN : Z := 0.
Definition ALLOCATION_SITE_IDENTIFIER_FIRST_CUSTOM : Z := 15.

(** [AllocationSiteInfo] *)
Record info := Info { call_sites : list CallSite; allocated_type_id : Z; savable : bool }.

(** [allocation_site_infos]: the descriptions in the arena; an address is an
    index.  [M] is the map behind [dictionary], with strings as keys. *)
Record tables (M : Type) := Tables {
  allocation_site_infos : list info;
  info_to_id : dict nat Z;
  id_to_info : dict Z nat;
  next_allocation_site_identifier_small : Z;
  next_allocation_site_identifier_big : Z;
  is_in_yellow_zone : bool;
  dictionary : M;
  allocated_types : types;
}.

Arguments Tables {M}.
Arguments allocation_site_infos {M}.
Arguments info_to_id {M}.
Arguments id_to_info {M}.
Arguments next_allocation_site_identifier_small {M}.
Arguments next_allocation_site_identifier_big {M}.
Arguments is_in_yellow_zone {M}.
Arguments dictionary {M}.
Arguments allocated_types {M}.

(** ** Comparison and hashing *)

Definition same_call (c d : CallSite) : bool := (method c =? method d) && (bytecode_index c =? bytecode_index d).

Fixpoint same_calls (l k : list CallSite) : bool :=
  match l, k with
  | [], [] => true
  | c :: l, d :: k => same_call c d && same_calls l k
  | _, _ => false
  end.

(** [equals] on two descriptions; comparing their addresses first makes no
    difference. *)
Definition equals (info1 info2 : info) (ignore_allocated_types : bool) : bool :=
  (ignore_allocated_types || (allocated_type_id info1 =? allocated_type_id info2) ||
   (allocated_type_id info1 =? ALLOCATED_TYPE_IDENTIFIER_UNKNOWN) || (allocated_type_id info2 =? ALLOCATED_TYPE_IDENTIFIER_UNKNOWN)) &&
  same_calls (call_sites info1) (call_sites info2).

Definition hash_call (hash : Z) (site : CallSite) : Z :=
  let hash := s32 (hash + 19 * (s64 (method site) ≫ 3)) in
  s32 (hash + s32 (23 * Z.lxor (bytecode_index site) (s32 (bytecode_index site ≪ 16)))).

Definition hash_key (i : info) : Z := foldl hash_call 17 (call_sites i).

Section Tables.
Context {M : Type} `{!Map M (list Z) Z}.

(** [TraceObjectsMaxStackTraceDepth], [ExtendAllocationSiteIdRange]; the text
    of a method, and the data of the loader of its class. *)
Variable TraceObjectsMaxStackTraceDepth : Z.
Variable ExtendAllocationSiteIdRange : bool.
Variable name_and_sig_as_C_string : Z -> list Z.
Variable class_loader_data : Z -> Z.

Abbreviation tables := (tables M).

Definition info_at (s : tables) (p : nat) : option info := allocation_site_infos s !! p.

(** The key at [p] against the description [i]. *)
Definition matches (s : tables) (i : info) (p : nat) : bool :=
  match info_at s p with Some j => equals i j false | None => false end.

Definition hash_at (s : tables) (p : nat) : Z := match info_at s p with Some i => hash_key i | None => 17 end.

(** The identifier [info_to_id] has for a description. *)
Definition lookup_id (s : tables) (i : info) : Z :=
  default ALLOCATION_SITE_IDENTIFIER_UNKNOWN (find (info_to_id s) (hash_key i) (matches s i)).

(** The address of the description that [id_to_info] has. *)
Definition lookup_info (s : tables) (id : Z) : option nat := find (id_to_info s) (hashkey id) (samekey id).

Definition with_types (s : tables) (t : types) : tables :=
  Tables (allocation_site_infos s) (info_to_id s) (id_to_info s) (next_allocation_site_identifier_small s)
    (next_allocation_site_identifier_big s) (is_in_yellow_zone s) (dictionary s) t.

(** [write_symbols(id, info)] *)
Definition write_symbols (s : tables) (id : Z) (i : info) : tables :=
  let t := allocated_types s in
  with_types s (Types (next_allocated_type_identifier t) (identifiers t)
    (write_site name_and_sig_as_C_string (symbols t) id (call_sites i) (AllocationSites.allocated_type_id i))).

(** A missing description is a null pointer. *)
Definition check_allocation_site (s : tables) (allocation_site_id : Z) (k : option klass) : option tables :=
  p ← lookup_info s allocation_site_id;
  i ← info_at s p;
  '(t, type) ← to_allocated_type (allocated_types s) k;
  let s := with_types s t in
  if (AllocationSites.allocated_type_id i =? ALLOCATED_TYPE_IDENTIFIER_UNKNOWN) && negb (type =? ALLOCATED_TYPE_IDENTIFIER_UNKNOWN) then
    let i := Info (call_sites i) type (savable i) in
    let s := Tables (<[p := i]> (allocation_site_infos s)) (info_to_id s) (id_to_info s) (next_allocation_site_identifier_small s)
      (next_allocation_site_identifier_big s) (is_in_yellow_zone s) (dictionary s) (allocated_types s) in
    Some (write_symbols s allocation_site_id i)
  else Some s.

(** ** Strings of call stacks *)

(** [Method::name_and_sig_as_C_string] into a buffer: the names of class and
    method, with a dot between them, and the signature. *)
Variable plain_name_and_sig : Z -> list Z.
Variable is_valid_method : Z -> bool.

Definition decimal (n : Z) : list Z := bytes_of_string (pretty n).

(** What a frame appends, and what is added to the length: one too much for
    a recursion.  [None] is an invalid method. *)
Definition frame_string (c : CallSite) : option (list Z * Z) :=
  let bci := decimal (bytecode_index c) in
  if method c =? 0 then Some (bci, Z.of_nat (List.length bci) + 1)
  else if is_valid_method (method c) then
    let name_and_sig := plain_name_and_sig (method c) ++ bci in
    Some (name_and_sig, Z.of_nat (List.length name_and_sig))
  else None.

(** The characters written, their number as counted, the size of the buffer;
    the buffer is doubled at most once per frame. *)
Fixpoint append_frames (l : list CallSite) (chars : list Z) (length buffer_size : Z) : option (option (list Z * Z)) :=
  match l with
  | [] => Some (Some (chars, length))
  | c :: l =>
      match frame_string c with
      | None => Some None
      | Some (string, len) =>
          let buffer_size := if buffer_size <=? length + len + 1 then buffer_size * 2 else buffer_size in
          let chars := chars ++ string in
          if buffer_size <? Z.of_nat (List.length chars) + 1 then None else append_frames l chars (length + len) buffer_size
      end
  end.

(** [CallSitesToString]: the string, [None] if a method is invalid; the outer
    [None] is a store beyond the buffer or a read of bytes never written. *)
Definition CallSitesToString (l : list CallSite) : option (option (list Z)) :=
  r ← append_frames l [] 0 (Z.of_nat (List.length l) * 256);
  match r with
  | None => Some None
  | Some (chars, length) =>
      if Z.of_nat (List.length chars) + 1 <? length then None else Some (Some (take (Z.to_nat length) (chars ++ [0])))
  end.

(** ** Finding and adding sites *)

Definition last_id_small : Z := (1 ≪ (2 * 8 - 1)) - 1.
Definition last_id_big : Z := (1 ≪ (3 * 8 - 1)) - 1.

(** [next > last_id * (1 - 0.10)] and [next > last_id * (1 - 0.05)], without
    fractions. *)
Definition in_zone (s : tables) (percent : Z) : bool :=
  (last_id_small * (100 - percent) <? next_allocation_site_identifier_small s * 100) ||
  (last_id_big * (100 - percent) <? next_allocation_site_identifier_big s * 100).

(** Shorter and shorter prefixes of the stack. *)
Fixpoint lookup_prefixes (s : tables) (l : list CallSite) (type : Z) (length : nat) (id : Z) : Z :=
  match length with
  | O => id
  | S n =>
      if id =? ALLOCATION_SITE_IDENTIFIER_UNKNOWN then lookup_prefixes s l type n (lookup_id s (Info (take length l) type false))
      else id
  end.

(** A site saved when its class was unloaded: its description must exist, and
    as many frames are read from the stack as it has. *)
Definition lookup_unloaded (s : tables) (l : list CallSite) (type : Z) : option Z :=
  if 0 <? map_get_size (dictionary s) then
    string ← CallSitesToString l;
    match string with
    | None => Some ALLOCATION_SITE_IDENTIFIER_UNKNOWN
    | Some string =>
        r ← map_get (dictionary s) string;
        match r with
        | None => Some ALLOCATION_SITE_IDENTIFIER_UNKNOWN
        | Some id =>
            p ← lookup_info s id;
            i ← info_at s p;
            if allocated_type_id i =? type then
              if (List.length l <? List.length (call_sites i))%nat then None else Some id
            else Some ALLOCATION_SITE_IDENTIFIER_UNKNOWN
        end
    end
  else Some ALLOCATION_SITE_IDENTIFIER_UNKNOWN.

(** Whether all frames have the same class loader. *)
Fixpoint same_class_loader (l : list CallSite) (sameClassLoader : bool) (classLoader : Z) : bool :=
  match l with
  | [] => sameClassLoader
  | c :: l =>
      if sameClassLoader && negb (method c =? 0) then
        if classLoader =? 0 then same_class_loader l sameClassLoader (class_loader_data (method c))
        else same_class_loader l (classLoader =? class_loader_data (method c)) classLoader
      else same_class_loader l sameClassLoader classLoader
  end.

Definition is_array_or_unknown (allocated_type : option klass) : bool :=
  match allocated_type with None => true | Some k => negb (oop_is_instance k) end.

(** A new identifier; [None] is [fatal]. *)
Definition next_identifier (s : tables) (small : bool) : option (tables * Z) :=
  if small then
    let id := next_allocation_site_identifier_small s in
    let s := Tables (allocation_site_infos s) (info_to_id s) (id_to_info s) ((id + 1) .& 32767)
      (next_allocation_site_identifier_big s) (is_in_yellow_zone s) (dictionary s) (allocated_types s) in
    if id <? ALLOCATION_SITE_IDENTIFIER_FIRST_CUSTOM then None else Some (s, id)
  else
    let id := 8388608 .| next_allocation_site_identifier_big s in
    let s := Tables (allocation_site_infos s) (info_to_id s) (id_to_info s) (next_allocation_site_identifier_small s)
      ((next_allocation_site_identifier_big s + 1) .& 8388607) (is_in_yellow_zone s) (dictionary s) (allocated_types s) in
    if id .& 8388607 <? ALLOCATION_SITE_IDENTIFIER_FIRST_CUSTOM then None else Some (s, id).

(** The description goes into the arena and into both dictionaries. *)
Definition insert_info (s : tables) (id : Z) (i : info) : tables :=
  let p := List.length (allocation_site_infos s) in
  let s := Tables (allocation_site_infos s ++ [i]) (info_to_id s) (id_to_info s) (next_allocation_site_identifier_small s)
    (next_allocation_site_identifier_big s) (is_in_yellow_zone s) (dictionary s) (allocated_types s) in
  Tables (allocation_site_infos s) (Insert (hash_at s) (info_to_id s) (hash_key i) (matches s i) p id).1
    (Insert hashkey (id_to_info s) (hashkey id) (samekey id) id p).1 (next_allocation_site_identifier_small s)
    (next_allocation_site_identifier_big s) (is_in_yellow_zone s) (dictionary s) (allocated_types s).

Definition add_site (s : tables) (l : list CallSite) (depth : nat) (type : Z) (small : bool) : option (tables * Z) :=
  '(s, id) ← next_identifier s small;
  let sites := take depth l in
  let i := Info sites type (same_class_loader sites true 0) in
  let s := insert_info s id i in
  Some (if negb (type =? ALLOCATED_TYPE_IDENTIFIER_UNKNOWN) then write_symbols s id i else s, id).

Definition set_yellow_zone (s : tables) (b : bool) : tables :=
  Tables (allocation_site_infos s) (info_to_id s) (id_to_info s) (next_allocation_site_identifier_small s)
    (next_allocation_site_identifier_big s) b (dictionary s) (allocated_types s).

(** The search for the first [depth] frames of the stack [l], and the depth
    for a new site. *)
Definition search (s : tables) (l : list CallSite) (depth : nat) (type : Z) : option (tables * Z * nat) :=
  let id := lookup_id s (Info (take depth l) type false) in
  id ← (if id =? ALLOCATION_SITE_IDENTIFIER_UNKNOWN then lookup_unloaded s l type else Some id);
  let s := set_yellow_zone s (in_zone s 10) in
  if is_in_yellow_zone s then
    let id := lookup_prefixes s l type (List.length (take depth l)) id in
    Some (s, id, if id =? ALLOCATION_SITE_IDENTIFIER_UNKNOWN then if in_zone s 5 then 1%nat else Nat.min 3 depth else depth)
  else Some (s, id, depth).

(** [method_to_allocation_site]; [l] is what the iterator delivers, of which
    there are [count()] elements.  A collection that is started for want of
    identifiers is an operation of its own. *)
Definition method_to_allocation_site (s : tables) (l : list CallSite) (allocated_type : option klass)
    (relax_expected_allocated_type C2_ALLOC_FAST_DEVIANT : bool) : option (tables * Z) :=
  '(t, type) ← to_allocated_type (allocated_types s) allocated_type;
  let s := with_types s t in
  let depth := List.length l in
  let depth := if 0 <? TraceObjectsMaxStackTraceDepth then Nat.min (Z.to_nat TraceObjectsMaxStackTraceDepth) depth else depth in
  if (depth =? 0)%nat then Some (s, ALLOCATION_SITE_IDENTIFIER_UNKNOWN)
  else
    '(s, id, depth) ← search s l depth type;
    id ← (if relax_expected_allocated_type && negb (id =? ALLOCATION_SITE_IDENTIFIER_UNKNOWN) then
            p ← lookup_info s id;
            stored ← info_at s p;
            Some (if allocated_type_id stored =? type then id else ALLOCATION_SITE_IDENTIFIER_UNKNOWN)
          else Some id);
    if id =? ALLOCATION_SITE_IDENTIFIER_UNKNOWN then
      add_site s l depth type (negb ExtendAllocationSiteIdRange || is_array_or_unknown allocated_type || C2_ALLOC_FAST_DEVIANT)
    else s ← check_allocation_site s id allocated_type; Some (s, id).

Definition allocation_site_to_allocation_site_with_alternate_type (s : tables) (allocation_site : Z) (allocated_type : option klass) :
    option (tables * Z) :=
  p ← lookup_info s allocation_site;
  i ← info_at s p;
  '(t, type) ← to_allocated_type (allocated_types s) allocated_type;
  let s := with_types s t in
  if allocated_type_id i =? type then Some (s, allocation_site)
  else method_to_allocation_site s (call_sites i) allocated_type true false.

(** ** Unloading and removal *)

(** [binary_search] in a sorted array; [mid] is within the array. *)
Fixpoint binary_search_loop (fuel : nat) (methods : list Z) (searchedMeth l h : Z) : option bool :=
  match fuel with
  | O => None
  | S fuel =>
      if l <=? h then
        let mid := (l + h) ≫ 1 in
        m ← methods !! Z.to_nat mid;
        if m =? searchedMeth then Some true
        else if m <? searchedMeth then binary_search_loop fuel methods searchedMeth (mid + 1) h
        else binary_search_loop fuel methods searchedMeth l (mid - 1)
      else Some false
  end.

Definition binary_search (methods : list Z) (searchedMeth : Z) : option bool :=
  binary_search_loop (S (List.length methods)) methods searchedMeth 0 (Z.of_nat (List.length methods) - 1).

(** The frames of one site: it is saved once for every frame whose method is
    unloaded. *)
Fixpoint save_frames (d : M) (methods : list Z) (id : Z) (i : info) (l : list CallSite) : option M :=
  match l with
  | [] => Some d
  | c :: l =>
      found ← (if method c =? 0 then Some false else binary_search methods (method c));
      d ← (if found : bool then
             string ← CallSitesToString (call_sites i);
             match string with Some string => '(d, _) ← map_put d string id; Some d | None => Some d end
           else Some d);
      save_frames d methods id i l
  end.

Fixpoint save_sites (s : tables) (d : M) (methods : list Z) (entries : list (Z * nat)) : option M :=
  match entries with
  | [] => Some d
  | (id, p) :: entries =>
      i ← info_at s p;
      d ← (if savable i then save_frames d methods id i (call_sites i) else Some d);
      save_sites s d methods entries
  end.

(** [save_unloaded_allocation_sites]; the methods of the instance classes
    that are unloaded. *)
Definition save_unloaded_allocation_sites (s : tables) (methods : list Z) : option tables :=
  d ← save_sites s (dictionary s) (merge_sort Z.le methods) (iterate (id_to_info s));
  Some (Tables (allocation_site_infos s) (info_to_id s) (id_to_info s) (next_allocation_site_identifier_small s)
    (next_allocation_site_identifier_big s) (is_in_yellow_zone s) d (allocated_types s)).

(** Deleting an unknown identifier hands a null pointer to the comparison. *)
Definition remove_allocation_site (s : tables) (id : Z) : option tables :=
  let '(id_to_info', p) := Delete (id_to_info s) (hashkey id) (samekey id) in
  p ← p;
  i ← info_at s p;
  Some (Tables (allocation_site_infos s) (Delete (info_to_id s) (hash_key i) (matches s i)).1 id_to_info'
    (next_allocation_site_identifier_small s) (next_allocation_site_identifier_big s) (is_in_yellow_zone s) (dictionary s)
    (allocated_types s)).

(** The sites with a frame of the method. *)
Definition remove_allocation_sites_of (s : tables) (m : Z) : option tables :=
  let removed_ids := fst <$> List.filter (fun e : Z * nat =>
    match info_at s e.2 with Some i => existsb (fun c => method c =? m) (call_sites i) | None => false end)
    (iterate (id_to_info s)) in
  foldl (fun s id => s ← s; remove_allocation_site s id) (Some s) removed_ids.

(** ** Queries *)

Definition get_info (s : tables) (id : Z) : option info := p ← lookup_info s id; info_at s p.

Definition is_consistent (s : tables) (id : Z) : bool :=
  if ALLOCATION_SITE_IDENTIFIER_FIRST_CUSTOM <=? id then
    match get_info s id with Some i => negb (allocated_type_id i =? ALLOCATION_SITE_IDENTIFIER_UNKNOWN) | None => false end
  else true.

Definition get_depth (s : tables) (id : Z) : nat := match get_info s id with Some i => List.length (call_sites i) | None => 0 end.

Definition equals_ids (s : tables) (id1 id2 : Z) (ignore_allocated_types : bool) : bool :=
  if id1 =? id2 then true
  else match get_info s id1, get_info s id2 with
       | Some i, Some j => equals i j ignore_allocated_types
       | None, None => true
       | _, _ => false
       end.

(** ** The start *)

Definition special_sites : list (Z * string) :=
  [(1, "VM internal"); (2, "VM internal (GC)"); (3, "VM GC Dead Space"); (4, "VM GC Scavenge Zombie");
   (5, "java.lang.Object.clone()Ljava/lang/Object;"); (6, "java.lang.String.intern()Ljava/lang/String;");
   (7, "java.io.ObjectInputStream.allocateNewObject(Ljava/lang/Class;Ljava/lang/Class;)Ljava/lang/Object;");
   (8, "java.io.ObjectInputStream.allocateNewArray(Ljava/lang/Class;I)Ljava/lang/Object;");
   (9, "java.lang.reflect.Array.newArray(Ljava/lang/Class;I)Ljava/lang/Object;");
   (10, "java.lang.reflect.Array.newMultiArray(Ljava/lang/Class;[I)Ljava/lang/Object;");
   (11, "java.lang.reflect.Constructor.newInstance([Ljava/lang/Object;)Ljava/lang/Object;");
   (12, "java.lang.reflect.Method.invoke(Ljava/lang/Object;[Ljava/lang/Object;)Ljava/lang/Object;");
   (13, "VM internal (TLAB filler)"); (14, "VM internal (Array filler)"); (14, "VM internal (Object filler)")]%string.

Definition write_special (w : AllocationTracingIO.io) (e : Z * string) : AllocationTracingIO.io :=
  write_simple_site w e.1 (bytes_of_string e.2) ALLOCATED_TYPE_IDENTIFIER_UNKNOWN.

(** [empty] is the new dictionary of unloaded sites. *)
Definition init (empty : M) (t : types) : tables :=
  Tables [] make make ALLOCATION_SITE_IDENTIFIER_FIRST_CUSTOM ALLOCATION_SITE_IDENTIFIER_FIRST_CUSTOM false (map_clear empty)
    (Types (next_allocated_type_identifier t) (identifiers t) (foldl write_special (symbols t) special_sites)).

End Tables.

End AllocationSites.
