(* ===== verification/SiteInvariant.v ===== *)
(** * The invariant of the table of allocation sites

    The dictionaries agree with each other, no two entries stand for the same
    site, and the sites whose type is known are in the symbols file. *)

From Stdlib Require Import ZArith Lia.
From stdpp Require Import gmap sorting.
From S2P Require Import Prelude MapInterface EventsWriter EventsRuntime Dict StackTraces AllocationSites SymbolsWriter SymbolsParser.
From S2P Require Import SymbolsRoundtrip TypeIds SiteTables.

(** ** Descriptions *)

Module SiteInfos.
Import AllocationSites AllocatedTypes.

Lemma same_calls_eq l k : same_calls l k = true <-> l = k.
Proof.
  revert k. induction l as [|c l IH]; intros [|d k]; cbn [same_calls]; try done. rewrite andb_true_iff, IH. unfold same_call.
  rewrite andb_true_iff, !Z.eqb_eq. destruct c, d; cbn. split; [intros ([-> ->] & ->)|intros [= -> -> ->]]; done.
Qed.

Lemma equals_true i j :
  equals i j false = true <->
  call_sites i = call_sites j /\ (allocated_type_id i = allocated_type_id j \/ allocated_type_id i = 0 \/ allocated_type_id j = 0).
Proof.
  unfold equals, ALLOCATED_TYPE_IDENTIFIER_UNKNOWN. cbn [orb]. rewrite andb_true_iff, !orb_true_iff, !Z.eqb_eq, same_calls_eq. tauto.
Qed.

Lemma equals_hash i j : equals i j false = true -> hash_key i = hash_key j.
Proof. intros [E _]%equals_true. unfold hash_key. by rewrite E. Qed.

(** Only the hash codes of the keys matter. *)
Lemma wf_ext {K V} (h h' : K -> Z) (d : Dict.dict K V) :
  DictSpec.wf h d -> (forall kv, kv ∈ DictSpec.pairs d -> h' kv.1 = h kv.1) -> DictSpec.wf h' d.
Proof.
  intros [H1 H2 H3 H4] He. split; try done. intros i b kv Hb Hin. rewrite He; [by eapply H3|].
  apply list_elem_of_In, in_concat. exists b. rewrite <- !list_elem_of_In. split; [by eapply list_elem_of_lookup_2|done].
Qed.

End SiteInfos.

(** ** Unloaded methods *)

Module UnloadedMethods.
Import AllocationSites.

Lemma sorted_le (l : list Z) i j x y : StronglySorted Z.le l -> (i <= j)%nat -> l !! i = Some x -> l !! j = Some y -> x <= y.
Proof.
  intros Hs. revert i j. induction Hs as [|z l Hs IH Hz]; intros i j Hij Hi Hj; [done|]. rewrite Forall_lookup in Hz. destruct i as [|i], j as [|j].
  - injection Hi as <-. injection Hj as <-. lia.
  - injection Hi as <-. by apply (Hz j).
  - lia.
  - by apply (IH i j); [lia| |].
Qed.

(** Outside of [l, h] there is no occurrence. *)
Lemma binary_search_loop_spec methods x fuel l h :
  StronglySorted Z.le methods -> (forall i, methods !! i = Some x -> l <= Z.of_nat i <= h) -> 0 <= l <= h + 1 -> h < Z.of_nat (length methods) ->
  h - l + 1 < Z.of_nat fuel -> binary_search_loop fuel methods x l h = Some (bool_decide (x ∈ methods)).
Proof.
  intros Hs. revert l h. induction fuel as [|fuel IH]; intros l h Hin Hl Hh Hf; [lia|]. cbn [binary_search_loop].
  destruct (Z.leb_spec l h) as [Hlh|Hlh].
  - rewrite Z.shiftr_div_pow2 by lia. change (2 ^ 1) with 2. set (mid := (l + h) / 2). assert (l <= mid <= h) as Hmid by (unfold mid; Z.to_euclidean_division_equations; lia).
    destruct (lookup_lt_is_Some_2 methods (Z.to_nat mid) ltac:(lia)) as [y Ey]. rewrite Ey. cbn [mbind option_bind].
    destruct (Z.eqb_spec y x) as [->|Hne]; [rewrite bool_decide_true; [done|by eapply list_elem_of_lookup_2]|].
    destruct (Z.ltb_spec y x) as [Hlt|Hge]; apply IH; try lia; intros i Ei; specialize (Hin i Ei).
    + destruct (Z.le_gt_cases (Z.of_nat i) mid); [|lia]. pose proof (sorted_le methods i (Z.to_nat mid) x y Hs ltac:(lia) Ei Ey). lia.
    + destruct (Z.le_gt_cases mid (Z.of_nat i)); [|lia]. pose proof (sorted_le methods (Z.to_nat mid) i y x Hs ltac:(lia) Ey Ei). lia.
  - rewrite bool_decide_false; [done|]. intros [i Ei]%list_elem_of_lookup. specialize (Hin i Ei). lia.
Qed.

(** The search in the sorted array of unloaded methods ends, stays within the
    array and is right. *)
Lemma method_search_spec methods x : binary_search (merge_sort Z.le methods) x = Some (bool_decide (x ∈ methods)).
Proof.
  unfold binary_search. rewrite (binary_search_loop_spec _ x).
  - f_equal. apply bool_decide_ext. by rewrite merge_sort_Permutation.
  - apply StronglySorted_merge_sort; [exact _|intros a b; lia].
  - intros i Ei. apply lookup_lt_Some in Ei. lia.
  - lia.
  - lia.
  - lia.
Qed.

End UnloadedMethods.

(** ** The invariant *)

Module SitesInv.
Import AllocatedTypes AllocationSites Dict DictSpec DictMap SymbolsTheorem RecordSpec SiteInfos.

Section Inv.
Context {M : Type} `{!Map M (list Z) Z}.
Variable max_depth : Z.
Variable extend : bool.
Variable text : Z -> list Z.
Variable class_loader_data : Z -> Z.
Variable plain : Z -> list Z.
Variable is_valid_method : Z -> bool.
Variable loaded : klass -> Prop.
Hypothesis loaded_super : forall k k', loaded k -> super k = Some k' -> loaded k'.
Hypothesis loaded_address : forall k k', loaded k -> loaded k' -> address k = address k' -> k = k'.
Hypothesis loaded_describable : forall k, loaded k -> describable k.
Hypothesis loaded_plain : forall k, loaded k -> oop_is_instanceMirror k = false.
Variable w : AllocationTracingIO.io.

Abbreviation tables := (tables M).
Abbreviation types_inv := (TypesSpec.inv text loaded w (fun _ => False)).

(** Identifiers that were given out. *)
Definition issued (s : tables) (id : Z) : Prop :=
  15 <= id < next_allocation_site_identifier_small s \/ 8388608 + 15 <= id < 8388608 + next_allocation_site_identifier_big s.

(** A stack that can be written. *)
Definition stack_ok (l : list CallSite) : Prop := l <> [] /\ short_list l /\ Forall (frame_ok text) l.

(** The frames that count. *)
Definition depth_of (l : list CallSite) : nat := if 0 <? max_depth then Nat.min (Z.to_nat max_depth) (length l) else length l.

Definition site_ok (l : list CallSite) : Prop := stack_ok l /\ depth_of l = length l.

(** The identifier of a type that may be unknown. *)
Definition type_ok (s : tables) (type : Z) : Prop :=
  type = 0 \/ exists k, loaded k /\ identifiers (allocated_types s) !! address k = Some type.

(** The identifier of a class with instances. *)
Definition instance_type (s : tables) (type : Z) : Prop :=
  exists k, loaded k /\ oop_is_instance k = true /\ identifiers (allocated_types s) !! address k = Some type.

(** [m]: the addresses of the descriptions, by identifier; [rs]: the records
    in the symbols file; [X]: identifiers whose sites are still to be
    written. *)
Record inv (X : Z -> Prop) (s : tables) (m : gmap Z nat) (rs : list symbol) : Prop := {
  inv_types : types_inv (allocated_types s) rs;
  inv_maps : maps (id_to_info s) m;
  inv_wf : wf (hash_at s) (info_to_id s);
  inv_keys : NoDup (pairs (info_to_id s)).*1;
  inv_back : forall p id, (p, id) ∈ pairs (info_to_id s) -> m !! id = Some p;
  inv_inj : forall id id' p, m !! id = Some p -> m !! id' = Some p -> id = id';
  inv_issued : forall id p, m !! id = Some p -> issued s id /\ is_Some (info_at s p);
  inv_small : 15 <= next_allocation_site_identifier_small s < 2 ^ 15;
  inv_big : 15 <= next_allocation_site_identifier_big s < 2 ^ 23;
  inv_apart : forall p q id id' i j, (p, id) ∈ pairs (info_to_id s) -> (q, id') ∈ pairs (info_to_id s) -> p <> q ->
    info_at s p = Some i -> info_at s q = Some j -> equals i j false = false;
  inv_written : forall id p i, m !! id = Some p -> info_at s p = Some i -> allocated_type_id i <> 0 -> ~ X id ->
    sites_of text rs !! id = Some (Symbols.Site id (location text <$> call_sites i) (allocated_type_id i));
  inv_infos : forall p i, info_at s p = Some i -> site_ok (call_sites i) /\ type_ok s (allocated_type_id i);
  inv_dictionary : map_get_size (dictionary s) = 0;
  inv_count : Z.of_nat (length (allocation_site_infos s)) =
    next_allocation_site_identifier_small s - 15 + (next_allocation_site_identifier_big s - 15);
  inv_room : Z.of_nat (length (pairs (info_to_id s))) <= Z.of_nat (length (allocation_site_infos s)) /\
    Z.of_nat (length (pairs (id_to_info s))) <= Z.of_nat (length (allocation_site_infos s));
  inv_instance : forall id p i, m !! id = Some p -> 8388608 <= id -> info_at s p = Some i -> instance_type s (allocated_type_id i);
}.

(** ** Looking sites up *)

Lemma lookup_info_spec X s m rs id : inv X s m rs -> lookup_info s id = m !! id.
Proof. intros Hi. apply find_maps, (inv_maps _ _ _ _ Hi). Qed.

Lemma entry_info X s m rs p id : inv X s m rs -> (p, id) ∈ pairs (info_to_id s) -> exists i, info_at s p = Some i /\ m !! id = Some p /\ 15 <= id.
Proof.
  intros Hi Hin. pose proof (inv_back _ _ _ _ Hi p id Hin) as Hm. destruct (inv_issued _ _ _ _ Hi id p Hm) as [Hid [i E]].
  exists i. split_and!; [done|done|]. destruct Hid; lia.
Qed.

(** No entry, or an entry that matches. *)
Lemma lookup_id_spec X s m rs i :
  inv X s m rs ->
  (lookup_id s i = 0 /\ forall p id j, (p, id) ∈ pairs (info_to_id s) -> info_at s p = Some j -> equals i j false = false) \/
  (exists p j, (p, lookup_id s i) ∈ pairs (info_to_id s) /\ info_at s p = Some j /\ equals i j false = true /\ 15 <= lookup_id s i).
Proof.
  intros Hi. unfold lookup_id. pose proof (dict_find_spec (hash_at s) (info_to_id s) (hash_key i) (matches s i) (inv_wf _ _ _ _ Hi)) as H.
  destruct (find _ _ _) as [id|]; cbn [default].
  - right. destruct H as (p & Hin & Hm). destruct (entry_info X s m rs p id Hi Hin) as (j & Ej & _ & Hid). exists p, j. split_and!; [done|done| |done].
    unfold matches in Hm. by rewrite Ej in Hm.
  - left. split; [done|]. intros p id j Hin Ej. destruct (equals i j false) eqn:E; [|done]. specialize (H (p, id) Hin). cbn [fst] in H.
    unfold hash_at, matches in H. rewrite Ej in H. rewrite (equals_hash i j E) in H. by rewrite H in E.
Qed.

(** A description with a known type matches at most one entry. *)
Lemma match_unique X s m rs i p q id id' j j' :
  inv X s m rs -> allocated_type_id i <> 0 -> (p, id) ∈ pairs (info_to_id s) -> (q, id') ∈ pairs (info_to_id s) ->
  info_at s p = Some j -> info_at s q = Some j' -> equals i j false = true -> equals i j' false = true -> p = q.
Proof.
  intros Hi Ht Hp Hq Ej Ej' [E1 H1]%equals_true [E2 H2]%equals_true. destruct (decide (p = q)) as [->|Hne]; [done|].
  pose proof (inv_apart _ _ _ _ Hi p q id id' j j' Hp Hq Hne Ej Ej') as H. assert (equals j j' false = true) as H'; [|congruence].
  apply equals_true. split; [congruence|]. destruct H1 as [H1|[H1|H1]], H2 as [H2|[H2|H2]]; try tauto; left; congruence.
Qed.

(** The entry of a description that is in the table is found again. *)
Lemma lookup_id_entry X s m rs i p id j :
  inv X s m rs -> allocated_type_id i <> 0 -> (p, id) ∈ pairs (info_to_id s) -> info_at s p = Some j -> equals i j false = true ->
  lookup_id s i = id.
Proof.
  intros Hi Ht Hin Ej E. destruct (lookup_id_spec X s m rs i Hi) as [[_ H]|(q & j' & Hq & Ej' & E' & _)].
  - by rewrite (H p id j Hin Ej) in E.
  - assert (p = q) as -> by (by eapply match_unique). destruct (entry_info X s m rs q id Hi Hin) as (_ & _ & H1 & _).
    destruct (entry_info X s m rs q _ Hi Hq) as (_ & _ & H2 & _). by eapply inv_inj.
Qed.

(** ** Writing a site *)

Abbreviation inv' := (inv (fun _ => False)).

Lemma sites_of_types rs new : Forall TypesSpec.is_type new -> sites_of text (rs ++ new) = sites_of text rs.
Proof.
  intros Hn. unfold sites_of. rewrite foldl_app. generalize (foldl (learn_site text) ∅ rs). induction Hn as [|r new Hr Hn IH]; intros m; [done|].
  cbn [foldl]. rewrite IH. by destruct r.
Qed.

Lemma issued_storable X s m rs id : inv X s m rs -> issued s id -> StorageSpec.storable id.
Proof. intros Hi H. pose proof (inv_small _ _ _ _ Hi). pose proof (inv_big _ _ _ _ Hi). unfold issued in H. unfold StorageSpec.storable. lia. Qed.

Lemma type_int X s m rs type : inv X s m rs -> type_ok s type -> int_ok type.
Proof.
  intros Hi [-> | (k & _ & E)]; [by split|]. pose proof (TypesSpec.inv_range _ _ _ _ _ _ (inv_types _ _ _ _ Hi) _ _ E).
  pose proof (TypesSpec.inv_next _ _ _ _ _ _ (inv_types _ _ _ _ Hi)). unfold int_ok. lia.
Qed.

Lemma write_site_inv s m rs id p i :
  inv (fun x => x = id) s m rs -> m !! id = Some p -> info_at s p = Some i ->
  inv' (write_symbols text s id i) m (rs ++ [SSite id (call_sites i) (allocated_type_id i)]).
Proof.
  intros Hi Hm Ei. pose proof (issued_storable _ s m rs id Hi (proj1 (inv_issued _ _ _ _ Hi id p Hm))) as Hst.
  destruct (inv_infos _ _ _ _ Hi p i Ei) as [[(_ & Hshort & Hframes) _] Htype]. pose proof (type_int _ s m rs _ Hi Htype) as Hint.
  pose proof Hi as [Ht Hmaps Hwf Hk Hb Hinj Hiss Hs Hbig Hap Hw Hin Hd Hc Hr Hinst]. split; try done.
  - apply (TypesSpec.other_inv text loaded w _ (allocated_types s) rs (SSite id (call_sites i) (allocated_type_id i)) Ht eq_refl). by split_and!.
  - intros id' p' i' Hm' Ei' Hne _. change (info_at s p' = Some i') in Ei'. unfold sites_of. rewrite foldl_app. cbn [foldl learn_site].
    destruct (decide (id' = id)) as [->|Hid].
    + assert (p' = p) as -> by congruence. assert (i' = i) as -> by congruence. by rewrite lookup_insert_eq.
    + rewrite lookup_insert_ne by done. by apply (Hw id' p' i').
Qed.

(** A site whose type is unknown is not written. *)
Lemma unknown_inv s m rs id p i :
  inv (fun x => x = id) s m rs -> m !! id = Some p -> info_at s p = Some i -> allocated_type_id i = 0 -> inv' s m rs.
Proof.
  intros Hi Hm Ei H0. pose proof Hi as [Ht Hmaps Hwf Hk Hb Hinj Hiss Hs Hbig Hap Hw Hin Hd Hc Hr Hinst]. split; try done.
  intros id' p' i' Hm' Ei' Hne _. apply (Hw id' p' i' Hm' Ei' Hne). intros ->. congruence.
Qed.

(** ** Identifiers of types *)

Definition classes (k : option klass) : list klass := match k with Some k => k :: supers k | None => [] end.
Definition is_loaded (k : option klass) : Prop := match k with Some k => loaded k | None => True end.
Definition type_of (s : tables) (k : option klass) (type : Z) : Prop :=
  match k with Some k => identifiers (allocated_types s) !! address k = Some type | None => type = 0 end.
Definition next_type (s : tables) : Z := next_allocated_type_identifier (allocated_types s).

(** What is known of sites stays known. *)
Record later (s : tables) (m : gmap Z nat) (s' : tables) (m' : gmap Z nat) : Prop := {
  later_map : m ⊆ m';
  later_types : identifiers (allocated_types s) ⊆ identifiers (allocated_types s');
  later_infos : forall p i, info_at s p = Some i -> exists i', info_at s' p = Some i' /\ call_sites i' = call_sites i /\
    (allocated_type_id i <> 0 -> allocated_type_id i' = allocated_type_id i);
  later_entries : forall p id i, (p, id) ∈ pairs (info_to_id s) -> info_at s p = Some i -> allocated_type_id i <> 0 ->
    (p, id) ∈ pairs (info_to_id s');
}.

Lemma later_refl s m : later s m s m.
Proof. split; try done. intros p i E. by exists i. Qed.

Lemma later_trans s1 m1 s2 m2 s3 m3 : later s1 m1 s2 m2 -> later s2 m2 s3 m3 -> later s1 m1 s3 m3.
Proof.
  intros [A1 A2 A3 A4] [B1 B2 B3 B4]. split; [by etrans|by etrans| |].
  - intros p i E. destruct (A3 p i E) as (i2 & E2 & Hc2 & Ht2). destruct (B3 p i2 E2) as (i3 & E3 & Hc3 & Ht3). exists i3.
    split_and!; [done|congruence|]. intros Hne. rewrite Ht3; [by apply Ht2|by rewrite Ht2].
  - intros p id i Hin E Hne. destruct (A3 p i E) as (i2 & E2 & _ & Ht2). apply (B4 p id i2); [by apply (A4 p id i)|done|by rewrite Ht2].
Qed.

Lemma type_of_later s m s' m' k type : later s m s' m' -> type_of s k type -> type_of s' k type.
Proof. intros H. destruct k as [k|]; [|done]. cbn. intros E. by eapply lookup_weaken, H. Qed.

Lemma type_of_ok s k type : is_loaded k -> type_of s k type -> type_ok s type.
Proof. destruct k as [k|]; cbn; intros Hk E; [right; by exists k|by left]. Qed.

Lemma type_of_known X s m rs k type : inv X s m rs -> type_of s (Some k) type -> type <> 0.
Proof. intros Hi E. pose proof (TypesSpec.inv_range _ _ _ _ _ _ (inv_types _ _ _ _ Hi) _ _ E). lia. Qed.

Lemma with_types_inv X s m rs t new :
  inv X s m rs -> types_inv t (rs ++ new) -> Forall TypesSpec.is_type new -> identifiers (allocated_types s) ⊆ identifiers t ->
  inv X (with_types s t) m (rs ++ new) /\ later s m (with_types s t) m.
Proof.
  intros [Ht Hmaps Hwf Hk Hb Hinj Hiss Hs Hbig Hap Hw Hin Hd Hc Hr Hinst] Ht' Hn Hsub. split; [split; try done|split; try done].
  - intros id p i Hm Ei Hne Hx. rewrite sites_of_types by done. by apply (Hw id p i).
  - intros p i Ei. destruct (Hin p i Ei) as [H1 [H2|(k & Hl & Hid)]]; (split; [done|]); [by left|right]. exists k. split; [done|].
    by eapply lookup_weaken.
  - intros id p i Hm Hid Ei. destruct (Hinst id p i Hm Hid Ei) as (k & H1 & H2 & H3). exists k. split_and!; [done|done|]. by eapply lookup_weaken.
  - intros p i E. by exists i.
Qed.

Lemma types_step X s m rs k :
  inv X s m rs -> is_loaded k -> next_type s + Z.of_nat (length (classes k)) < 2 ^ 31 ->
  exists t new type, to_allocated_type (allocated_types s) k = Some (t, type) /\ inv X (with_types s t) m (rs ++ new) /\
    later s m (with_types s t) m /\ type_of (with_types s t) k type /\ next_type (with_types s t) <= next_type s + Z.of_nat (length (classes k)).
Proof.
  intros Hi Hk Hb. destruct k as [k|]; cbn [is_loaded classes] in *.
  - destruct (TypesSpec.get_spec text loaded loaded_super loaded_address loaded_describable w k Hk (fun _ => False) (allocated_types s) rs (inv_types _ _ _ _ Hi))
      as (t & new & type & E & Hi' & Hn & Hid & Hsub & Hle); [tauto|done|].
    exists t, new, type. rewrite TypesSpec.to_get by (by apply loaded_plain).
    destruct (with_types_inv X s m rs t new Hi Hi' Hn Hsub) as [H1 H2]. split_and!; try done. apply Hle.
  - exists (allocated_types s), [], 0. rewrite app_nil_r. assert (with_types s (allocated_types s) = s) as -> by (by destruct s).
    split_and!; try done; [apply later_refl|cbn [length]; lia].
Qed.

(** ** A type becomes known *)

Definition with_info (s : tables) (p : nat) (i : info) : tables :=
  Tables (<[p := i]> (allocation_site_infos s)) (info_to_id s) (id_to_info s) (next_allocation_site_identifier_small s)
    (next_allocation_site_identifier_big s) (is_in_yellow_zone s) (dictionary s) (allocated_types s).

Lemma with_info_at s p i j q : info_at s p = Some i -> info_at (with_info s p j) q = if decide (q = p) then Some j else info_at s q.
Proof.
  intros E. unfold info_at, with_info. cbn [allocation_site_infos]. destruct (decide (q = p)) as [->|Hne].
  - apply list_lookup_insert_eq. by eapply lookup_lt_Some.
  - by apply list_lookup_insert_ne.
Qed.

Lemma equals_wildcard i j k : allocated_type_id i = 0 -> call_sites k = call_sites i -> equals i j false = false -> equals k j false = false.
Proof.
  intros H0 Hc H. destruct (equals k j false) eqn:E; [|done]. apply equals_true in E as [E _]. rewrite <- H. symmetry.
  apply equals_true. split; [congruence|by right; left].
Qed.

Lemma equals_sym i j : equals i j false = equals j i false.
Proof. apply eq_true_iff_eq. rewrite !equals_true. intuition congruence. Qed.

Lemma set_type_inv s m rs id p i type :
  inv' s m rs -> m !! id = Some p -> info_at s p = Some i -> allocated_type_id i = 0 -> type_ok s type ->
  let s' := with_info s p (Info (call_sites i) type (savable i)) in inv (fun x => x = id) s' m rs /\ later s m s' m.
Proof.
  intros Hi Hm Ei H0 Htype s'. assert (forall q, info_at s' q = if decide (q = p) then Some (Info (call_sites i) type (savable i)) else info_at s q) as Hat
    by (intros q; by eapply with_info_at).
  pose proof Hi as [Ht Hmaps Hwf Hk Hb Hinj Hiss Hs Hbig Hap Hw Hin Hd Hc Hr Hinst]. split; split; try done.
  - apply (wf_ext (hash_at s)); [done|]. intros [q id'] _. unfold hash_at. cbn [fst]. rewrite Hat. destruct (decide (q = p)) as [->|]; [|done].
    by rewrite Ei.
  - intros id' q Hm'. destruct (Hiss id' q Hm') as [H1 H2]. split; [done|]. rewrite Hat. by destruct (decide (q = p)).
  - intros q q' id1 id2 j j' Hq Hq' Hne. rewrite !Hat. destruct (decide (q = p)) as [->|Hqp], (decide (q' = p)) as [->|Hqp']; [done| | |by apply (Hap q q' id1 id2)].
    + intros [= <-] Ej. eapply (equals_wildcard i); [done|done|]. by apply (Hap p q' id1 id2).
    + intros Ej [= <-]. rewrite equals_sym. eapply (equals_wildcard i); [done|done|]. rewrite equals_sym. by apply (Hap q p id1 id2).
  - intros id' q j Hm'. rewrite Hat. destruct (decide (q = p)) as [->|Hqp]; [|intros Ej Hj _; apply (Hw id' q j); tauto].
    intros [= <-] _ []. by apply (Hinj id' id p).
  - intros q j. rewrite Hat. destruct (decide (q = p)) as [->|Hqp]; [|by apply Hin]. intros [= <-]. split; [|done]. apply (Hin p i Ei).
  - unfold s', with_info. cbn [allocation_site_infos]. by rewrite length_insert.
  - unfold s', with_info. cbn [allocation_site_infos]. by rewrite length_insert.
  - intros id' q j Hm' Hid'. rewrite Hat. destruct (decide (q = p)) as [->|Hqp]; [|by apply (Hinst id' q)]. intros _.
    destruct (Hinst id' p i Hm' Hid' Ei) as (k & _ & _ & E). by destruct (type_of_known _ s m rs k _ Hi E).
  - intros q j Ej. rewrite Hat. destruct (decide (q = p)) as [->|Hqp]; [|by exists j]. eexists. split; [done|]. assert (j = i) as -> by congruence. done.
Qed.

(** The type a description has after it was checked for [type]. *)
Definition refined (i : info) (type : Z) : Z := if allocated_type_id i =? 0 then type else allocated_type_id i.

(** Numbers of identifiers. *)
Definition used (s : tables) : Z := Z.of_nat (length (allocation_site_infos s)).

Lemma check_spec s m rs id p i k :
  inv' s m rs -> m !! id = Some p -> info_at s p = Some i -> is_loaded k -> next_type s + Z.of_nat (length (classes k)) < 2 ^ 31 ->
  exists s' new type, check_allocation_site text s id k = Some s' /\ inv' s' m (rs ++ new) /\ later s m s' m /\ type_of s' k type /\
    (exists i', info_at s' p = Some i' /\ call_sites i' = call_sites i /\ allocated_type_id i' = refined i type) /\
    pairs (info_to_id s') = pairs (info_to_id s) /\ used s' = used s /\ next_type s' <= next_type s + Z.of_nat (length (classes k)).
Proof.
  intros Hi Hm Ei Hk Hb. destruct (types_step _ s m rs k Hi Hk Hb) as (t & new & type & E & Hi1 & Hl1 & Htype & Hn). unfold check_allocation_site.
  rewrite (lookup_info_spec _ s m rs id Hi), Hm. cbn [mbind option_bind]. rewrite Ei. cbn [mbind option_bind]. rewrite E. cbn [mbind option_bind].
  unfold refined, ALLOCATED_TYPE_IDENTIFIER_UNKNOWN. destruct (Z.eqb_spec (allocated_type_id i) 0) as [H0|H0]; cbn [andb].
  2: { exists (with_types s t), new, type. split_and!; try done. by exists i. }
  destruct (Z.eqb_spec type 0) as [Ht|Ht]; cbn [negb].
  { exists (with_types s t), new, type. split_and!; try done. exists i. split_and!; [done|done|congruence]. }
  destruct (set_type_inv (with_types s t) m (rs ++ new) id p i type Hi1 Hm Ei H0) as [Hi2 Hl2]; [by eapply type_of_ok|].
  set (s2 := with_info _ _ _) in *. set (i' := Info (call_sites i) type (savable i)) in *.
  assert (info_at s2 p = Some i') as Ei' by (unfold s2; rewrite (with_info_at (with_types s t) p i); [by rewrite decide_True|done]).
  pose proof (write_site_inv s2 m (rs ++ new) id p i' Hi2 Hm Ei') as Hi3. rewrite <- app_assoc in Hi3.
  exists (write_symbols text s2 id i'), (new ++ [SSite id (call_sites i') (allocated_type_id i')]), type. split_and!; try done.
  - eapply later_trans; [done|]. by destruct Hl2.
  - by exists i'.
  - unfold used, s2, with_info. cbn [write_symbols with_types allocation_site_infos]. by rewrite length_insert.
Qed.

(** ** A new site *)

Definition with_next (s : tables) (small big : Z) : tables :=
  Tables (allocation_site_infos s) (info_to_id s) (id_to_info s) small big (is_in_yellow_zone s) (dictionary s) (allocated_types s).

Lemma next_spec X s m rs small :
  inv X s m rs -> used s < 2 ^ 15 - 16 ->
  exists id a b, next_identifier s small = Some (with_next s a b, id) /\ ~ issued s id /\ issued (with_next s a b) id /\
    (forall id', issued s id' -> issued (with_next s a b) id') /\ 15 <= a < 2 ^ 15 /\ 15 <= b < 2 ^ 23 /\
    a + b = next_allocation_site_identifier_small s + next_allocation_site_identifier_big s + 1 /\ (8388608 <= id -> small = false).
Proof.
  intros Hi Hu. pose proof (inv_small _ _ _ _ Hi) as Hs. pose proof (inv_big _ _ _ _ Hi) as Hb. pose proof (inv_count _ _ _ _ Hi) as Hc.
  unfold used in Hu. unfold next_identifier, ALLOCATION_SITE_IDENTIFIER_FIRST_CUSTOM, issued. destruct small.
  - change 32767 with (Z.ones 15). rewrite Z.land_ones, Z.mod_small by lia. rewrite (proj2 (Z.ltb_ge _ _)) by lia.
    eexists _, _, _. split; [reflexivity|]. cbn [with_next next_allocation_site_identifier_small next_allocation_site_identifier_big]. split_and!; done || lia.
  - assert (8388608 .| next_allocation_site_identifier_big s = 8388608 + next_allocation_site_identifier_big s) as ->.
    { change 8388608 with (1 ≪ 23). apply lor_disjoint_add; lia. }
    change 8388607 with (Z.ones 23). rewrite !Z.land_ones, (Z.mod_small (_ + 1)) by lia.
    rewrite Z.add_comm, Zplus_mod, (Z.mod_small (next_allocation_site_identifier_big s)) by lia. change (8388608 mod 2 ^ 23) with 0.
    rewrite Z.add_0_r, Z.mod_small by lia. rewrite (proj2 (Z.ltb_ge _ _)) by lia.
    eexists _, _, _. split; [reflexivity|]. cbn [with_next next_allocation_site_identifier_small next_allocation_site_identifier_big]. split_and!; done || lia.
Qed.

(** A description goes into the arena. *)
Definition with_new (s : tables) (i : info) : tables :=
  Tables (allocation_site_infos s ++ [i]) (info_to_id s) (id_to_info s) (next_allocation_site_identifier_small s)
    (next_allocation_site_identifier_big s) (is_in_yellow_zone s) (dictionary s) (allocated_types s).

(** It replaces at most an entry whose type is not known. *)
Definition admissible (s : tables) (i : info) : Prop :=
  forall p id j, (p, id) ∈ pairs (info_to_id s) -> info_at s p = Some j -> equals i j false = true ->
    allocated_type_id j = 0 /\ allocated_type_id i <> 0.

Lemma with_new_at s i q j : info_at s q = Some j -> info_at (with_new s i) q = Some j.
Proof. apply lookup_app_l_Some. Qed.

Lemma with_new_here s i : info_at (with_new s i) (length (allocation_site_infos s)) = Some i.
Proof. apply list_lookup_middle. by rewrite ?app_nil_r. Qed.

Lemma with_new_cases s i q j : info_at (with_new s i) q = Some j -> (q = length (allocation_site_infos s) /\ j = i) \/ info_at s q = Some j.
Proof.
  intros E. apply lookup_app_Some in E as [E|[E1 E2]]; [by right|left]. apply list_lookup_singleton_Some in E2 as [E2 <-]. split; [lia|done].
Qed.

Lemma unissued_None X s m rs id : inv X s m rs -> ~ issued s id -> m !! id = None.
Proof. intros Hi Hn. destruct (m !! id) as [q|] eqn:E; [|done]. destruct Hn. apply (inv_issued _ _ _ _ Hi id q E). Qed.

Lemma known_info X s m rs id q : inv X s m rs -> m !! id = Some q -> q <> length (allocation_site_infos s).
Proof. intros Hi E ->. destruct (inv_issued _ _ _ _ Hi id _ E) as [_ [j Ej]]. apply lookup_lt_Some in Ej. lia. Qed.

Lemma insert_pairs X s m rs i id :
  inv X s m rs -> admissible s i ->
  let s1 := with_new s i in let p := length (allocation_site_infos s) in
  let d := (Insert (hash_at s1) (info_to_id s) (hash_key i) (matches s1 i) p id).1 in
  wf (hash_at s1) d /\ exists rest, pairs d ≡ₚ (p, id) :: rest /\ NoDup rest.*1 /\ (length rest <= length (pairs (info_to_id s)))%nat /\
    (forall e, e ∈ rest -> e ∈ pairs (info_to_id s)) /\
    (forall q id' j, (q, id') ∈ rest -> info_at s q = Some j -> equals i j false = false) /\
    (forall q id' j, (q, id') ∈ pairs (info_to_id s) -> info_at s q = Some j -> allocated_type_id j <> 0 -> (q, id') ∈ rest).
Proof.
  intros Hi Ha s1 p d. assert (forall q id', (q, id') ∈ pairs (info_to_id s) -> exists j, info_at s q = Some j /\ info_at s1 q = Some j) as Hold.
  { intros q id' Hin. destruct (entry_info X s m rs q id' Hi Hin) as (j & E & _). exists j. split; [done|by apply with_new_at]. }
  assert (info_at s1 p = Some i) as Hp by apply with_new_here.
  pose proof (Insert_spec (hash_at s1) (info_to_id s) (hash_key i) (matches s1 i) p id) as H. unfold d. destruct (Insert _ _ _ _ _ _) as [d' prior].
  cbn [fst]. destruct H as (Hwf & H).
  - apply (wf_ext (hash_at s)); [apply (inv_wf _ _ _ _ Hi)|]. intros [q id'] Hin. destruct (Hold q id' Hin) as (j & E & E'). unfold hash_at.
    cbn [fst]. by rewrite E, E'.
  - unfold hash_at. by rewrite Hp.
  - pose proof (inv_room _ _ _ _ Hi). pose proof (inv_count _ _ _ _ Hi). pose proof (inv_small _ _ _ _ Hi). pose proof (inv_big _ _ _ _ Hi). lia.
  - split; [done|]. destruct H as [(k & v & rest & Hd & Hm & _ & Hd')|(_ & Hd' & Hno)].
    + assert ((k, v) ∈ pairs (info_to_id s)) as Hin by (rewrite Hd; by constructor). destruct (Hold k v Hin) as (j & E & E').
      unfold matches in Hm. rewrite E' in Hm. destruct (Ha k v j Hin E Hm) as [H0 Hne].
      assert (forall e, e ∈ rest -> e ∈ pairs (info_to_id s)) as Hsub by (intros e He; rewrite Hd; by constructor).
      pose proof (inv_keys _ _ _ _ Hi) as Hn. rewrite Hd in Hn. cbn [fmap list_fmap] in Hn. apply NoDup_cons in Hn as [Hk Hn].
      exists rest. split_and!; [done|done|rewrite Hd; cbn [length]; lia|done| |].
      * intros q id' j' Hq Ej'. destruct (equals i j' false) eqn:Em; [|done]. destruct Hk.
        rewrite (match_unique X s m rs i k q v id' j j' Hi Hne Hin (Hsub _ Hq) E Ej' Hm Em). apply list_elem_of_fmap. by exists (q, id').
      * intros q id' j' Hq Ej' Hne'. rewrite Hd in Hq. apply elem_of_cons in Hq as [[= -> ->]|Hq]; [congruence|done].
    + exists (pairs (info_to_id s)). split_and!; [done|apply (inv_keys _ _ _ _ Hi)|lia|done| |done]. intros q id' j Hq Ej. destruct (equals i j false) eqn:E; [|done].
      destruct (Hold q id' Hq) as (j' & E1 & E2). assert (j' = j) as -> by congruence. specialize (Hno (q, id') Hq). unfold hash_at, matches in Hno.
      cbn [fst] in Hno. rewrite E2, (equals_hash i j E), E in Hno. by specialize (Hno eq_refl).
Qed.

Lemma insert_inv s m rs id i a b :
  inv' s m rs -> admissible s i -> site_ok (call_sites i) -> type_ok s (allocated_type_id i) ->
  ~ issued s id -> issued (with_next s a b) id -> (forall id', issued s id' -> issued (with_next s a b) id') ->
  15 <= a < 2 ^ 15 -> 15 <= b < 2 ^ 23 -> a + b = next_allocation_site_identifier_small s + next_allocation_site_identifier_big s + 1 ->
  (8388608 <= id -> instance_type s (allocated_type_id i)) ->
  let p := length (allocation_site_infos s) in let s' := insert_info (with_next s a b) id i in let m' := <[id := p]> m in
  inv (fun x => x = id) s' m' rs /\ later s m s' m' /\ info_at s' p = Some i /\ (p, id) ∈ pairs (info_to_id s').
Proof.
  intros Hi Ha Hst Hty Hnew Hid Hmono Ra Rb Hab Hnin p s' m'.
  destruct (insert_pairs _ s m rs i id Hi Ha) as (Hwf' & rest & Hp' & Hnodup & Hlen3 & Hsub & Hapart & Hkeep). cbv zeta in Hwf', Hp'. fold p in Hwf', Hp'.
  pose proof Hi as [Ht Hmaps Hwf Hk Hb Hinj Hiss Hs Hbig Hap Hw Hin Hd Hc Hr Hinst].
  change (Dict.Insert (hash_at (with_new s i)) (info_to_id s) (hash_key i) (matches (with_new s i) i) p id).1 with (info_to_id s') in Hwf', Hp'.
  change (wf (hash_at s') (info_to_id s')) in Hwf'. assert (info_at s' p = Some i) as Hhere by exact (with_new_here (with_next s a b) i).
  assert (forall q j, info_at s q = Some j -> info_at s' q = Some j) as Hold
    by (intros q j; exact (with_new_at (with_next s a b) i q j)).
  assert (forall q j, info_at s' q = Some j -> (q = p /\ j = i) \/ info_at s q = Some j) as Hcases
    by (intros q j; exact (with_new_cases (with_next s a b) i q j)).
  pose proof (unissued_None _ s m rs id Hi Hnew) as Hnone. pose proof (fun id' q => known_info _ s m rs id' q Hi : _ -> q <> p) as Hnp.
  pose proof (insert_maps (id_to_info s) m id p Hmaps ltac:(lia)) as Him. destruct (Insert hashkey (id_to_info s) (hashkey id) (samekey id) id p) as [d2 prior] eqn:E2.
  destruct Him as (Hmaps2 & _ & Hlen2). assert (id_to_info s' = d2) as Ed2 by (change (id_to_info s') with (Insert hashkey (id_to_info s) (hashkey id) (samekey id) id p).1; by rewrite E2).
  assert (length (pairs (info_to_id s')) = S (length rest)) as Hlen1 by (by rewrite Hp').
  assert (length (allocation_site_infos s') = S p) as Hlen4 by (unfold s'; cbn [insert_info with_next allocation_site_infos]; rewrite length_app; cbn [length]; unfold p; lia).
  assert (forall q id', (q, id') ∈ pairs (info_to_id s') -> (q = p /\ id' = id) \/ (q, id') ∈ rest) as Hmem.
  { intros q id' H. rewrite Hp' in H. apply elem_of_cons in H as [[= -> ->]|H]; auto. }
  split_and!; [split; try done|split; try done|done|rewrite Hp'; by constructor].
  - by rewrite Ed2.
  - rewrite Hp'. cbn [fmap list_fmap fst]. apply NoDup_cons. split; [|done]. intros ([q id'] & Eq & Hq%Hsub)%list_elem_of_fmap.
    by destruct (Hnp id' q); [apply Hb|].
  - intros q id' [[-> ->]|Hq]%Hmem; [apply lookup_insert_eq|]. apply Hsub, Hb in Hq. unfold m'. rewrite lookup_insert_ne; [done|congruence].
  - intros id1 id2 q [[<- <-]|[_ H1]]%lookup_insert_Some [[<- H2]|[_ H2]]%lookup_insert_Some; [done| | |by eapply Hinj].
    + by destruct (Hnp id2 p H2).
    + by destruct (Hnp id1 q H1).
  - intros id' q [[<- <-]|[_ H1]]%lookup_insert_Some; [by split|]. destruct (Hiss id' q H1) as [H2 [j H3]]. split; [by apply Hmono|]. eexists. by apply Hold.
  - intros q1 q2 id1 id2 j1 j2 [[-> ->]|Hq1]%Hmem [[-> ->]|Hq2]%Hmem Hne Ej1 Ej2; [done| | |].
    + destruct (Hcases q2 j2 Ej2) as [[]|Ej2']; [congruence|]. assert (j1 = i) as -> by congruence. by apply (Hapart q2 id2).
    + destruct (Hcases q1 j1 Ej1) as [[]|Ej1']; [congruence|]. assert (j2 = i) as -> by congruence. rewrite equals_sym. by apply (Hapart q1 id1).
    + destruct (Hcases q1 j1 Ej1) as [[-> _]|Ej1']; [by destruct (Hnp id1 p); [apply Hb, Hsub|]|].
      destruct (Hcases q2 j2 Ej2) as [[-> _]|Ej2']; [by destruct (Hnp id2 p); [apply Hb, Hsub|]|]. apply (Hap q1 q2 id1 id2); auto.
  - intros id' q j [[<- <-]|[_ H1]]%lookup_insert_Some Ej Hj Hx; [done|]. destruct (Hcases q j Ej) as [[-> _]|Ej']; [by destruct (Hnp id' p H1)|].
    apply (Hw id' q j); tauto.
  - intros q j Ej. destruct (Hcases q j Ej) as [[-> ->]|Ej']; [done|by apply (Hin q)].
  - rewrite Hlen4. cbn [insert_info with_next next_allocation_site_identifier_small next_allocation_site_identifier_big s']. unfold p. lia.
  - rewrite Ed2, Hlen1, Hlen4. unfold p. lia.
  - intros id' q j [[<- <-]|[_ H1]]%lookup_insert_Some Hb' Ej; [assert (j = i) as -> by congruence; by apply Hnin|].
    destruct (Hcases q j Ej) as [[-> _]|Ej']; [by destruct (Hnp id' p H1)|by apply (Hinst id' q)].
  - by apply insert_subseteq.
  - intros q j Ej. exists j. by split; [apply Hold|].
  - intros q id' j Hq Ej Hj. rewrite Hp'. constructor. by apply (Hkeep q id' j).
Qed.

Lemma add_site_spec s m rs l depth type small :
  inv' s m rs -> used s < 2 ^ 15 - 16 -> site_ok (take depth l) -> type_ok s type ->
  (forall b, admissible s (Info (take depth l) type b)) -> (small = false -> instance_type s type) ->
  exists s' id new m' p i, add_site text class_loader_data s l depth type small = Some (s', id) /\ inv' s' m' (rs ++ new) /\ later s m s' m' /\
    m' !! id = Some p /\ info_at s' p = Some i /\ call_sites i = take depth l /\ allocated_type_id i = type /\
    (p, id) ∈ pairs (info_to_id s') /\ used s' = used s + 1 /\ next_type s' = next_type s.
Proof.
  intros Hi Hu Hst Hty Ha Hsm. unfold add_site. destruct (next_spec _ s m rs small Hi Hu) as (id & a & b & -> & H1 & H2 & H3 & H4 & H5 & H6 & H7).
  cbn [mbind option_bind]. set (i := Info (take depth l) type (same_class_loader class_loader_data (take depth l) true 0)).
  destruct (insert_inv s m rs id i a b Hi (Ha _) Hst Hty H1 H2 H3 H4 H5 H6 (fun H => Hsm (H7 H))) as (Hi1 & Hl & Hhere & Hin). cbv zeta in *.
  set (p := length (allocation_site_infos s)) in *. set (s1 := insert_info (with_next s a b) id i) in *. set (m1 := <[id := p]> m) in *.
  assert (m1 !! id = Some p) as Hm by apply lookup_insert_eq.
  assert (used s1 = used s + 1) as Hused by (unfold used, s1; cbn [insert_info with_next allocation_site_infos]; rewrite length_app; cbn [length]; lia).
  unfold ALLOCATED_TYPE_IDENTIFIER_UNKNOWN. destruct (Z.eqb_spec type 0) as [->|Hne]; cbn [negb].
  - exists s1, id, [], m1, p, i. rewrite app_nil_r. split_and!; try done. by apply (unknown_inv s1 m1 rs id p i).
  - eexists _, id, _, m1, p, i. split; [done|]. split; [by apply (write_site_inv s1 m1 rs id p i)|]. split_and!; try done. by destruct Hl.
Qed.

(** ** The search *)

Definition found (s : tables) (l : list CallSite) (type : Z) (n : nat) (id : Z) : Prop :=
  exists p j, (p, id) ∈ pairs (info_to_id s) /\ info_at s p = Some j /\ equals (Info (take n l) type false) j false = true /\ 15 <= id.

Definition missing (s : tables) (l : list CallSite) (type : Z) (n : nat) : Prop :=
  forall p id j, (p, id) ∈ pairs (info_to_id s) -> info_at s p = Some j -> equals (Info (take n l) type false) j false = false.

Lemma prefixes_found (s : tables) l type n id : id <> 0 -> lookup_prefixes s l type n id = id.
Proof. intros Hne. destruct n; cbn [lookup_prefixes]; [done|]. unfold ALLOCATION_SITE_IDENTIFIER_UNKNOWN. by rewrite (proj2 (Z.eqb_neq _ _) Hne). Qed.

Lemma prefixes_yellow (s : tables) b l type n id : lookup_prefixes (set_yellow_zone s b) l type n id = lookup_prefixes s l type n id.
Proof. revert id. induction n as [|n IH]; intros id; cbn [lookup_prefixes]; [done|]. by rewrite IH. Qed.

Lemma prefixes_spec X s m rs l type n :
  inv X s m rs ->
  (lookup_prefixes s l type n 0 = 0 /\ forall k, (0 < k <= n)%nat -> missing s l type k) \/
  (exists k, (0 < k <= n)%nat /\ found s l type k (lookup_prefixes s l type n 0)).
Proof.
  intros Hi. induction n as [|n IH]; cbn [lookup_prefixes]; [left; split; [done|lia]|].
  change (0 =? ALLOCATION_SITE_IDENTIFIER_UNKNOWN) with true. cbv iota.
  destruct (lookup_id_spec X s m rs (Info (take (S n) l) type false) Hi) as [[-> Hno]|(p & j & Hin & Ej & Em & Hid)].
  - destruct IH as [[-> IH]|(k & Hk & IH)]; [left|right; exists k; split; [lia|done]]. split; [done|]. intros k Hk.
    destruct (decide (k = S n)) as [->|Hne]; [exact Hno|apply IH; lia].
  - right. exists (S n). rewrite prefixes_found by lia. split; [lia|]. by exists p, j.
Qed.

Lemma no_unloaded X s m rs l type : inv X s m rs -> lookup_unloaded plain is_valid_method s l type = Some 0.
Proof. intros Hi. unfold lookup_unloaded. by rewrite (inv_dictionary _ _ _ _ Hi). Qed.

Lemma search_spec s m rs l depth type :
  inv' s m rs -> (0 < depth <= length l)%nat ->
  exists id depth', search plain is_valid_method s l depth type = Some (set_yellow_zone s (in_zone s 10), id, depth') /\
    (0 < depth' <= depth)%nat /\ (in_zone s 10 = false -> depth' = depth) /\
    (lookup_id s (Info (take depth l) type false) <> 0 -> id = lookup_id s (Info (take depth l) type false)) /\
    ((id = 0 /\ missing s l type depth') \/
     (depth' = depth /\ exists n, (0 < n <= depth)%nat /\ (in_zone s 10 = false -> n = depth) /\ found s l type n id /\
       (n = depth \/ missing s l type depth))).
Proof.
  intros Hi Hd. unfold search, ALLOCATION_SITE_IDENTIFIER_UNKNOWN. rewrite length_take_le by lia.
  change (is_in_yellow_zone (set_yellow_zone s (in_zone s 10))) with (in_zone s 10).
  change (in_zone (set_yellow_zone s (in_zone s 10))) with (in_zone s).
  destruct (lookup_id_spec _ s m rs (Info (take depth l) type false) Hi) as [[-> Hno]|(p & j & Hin & Ej & Em & Hid)].
  - rewrite Z.eqb_refl, (no_unloaded _ s m rs l type Hi). cbn [mbind option_bind]. rewrite prefixes_yellow. destruct (in_zone s 10) eqn:Ez.
    + destruct (prefixes_spec _ s m rs l type depth Hi) as [[-> Hm]|(k & Hk & Hf)].
      * rewrite Z.eqb_refl. eexists 0, _. split; [done|].
        assert (0 < (if in_zone s 5 then 1%nat else Nat.min 3 depth) <= depth)%nat as Hr by (destruct (in_zone s 5); lia).
        split_and!; [lia|lia|done|done|]. left. split; [done|by apply Hm].
      * pose proof Hf as (_ & _ & _ & _ & _ & Hid). rewrite (proj2 (Z.eqb_neq _ _)) by lia. eexists _, _. split; [done|]. split_and!; [lia|lia|done|done|].
        right. split; [done|]. exists k. split_and!; [lia|lia|done|done|by right].
    + eexists 0, depth. split; [done|]. split_and!; [lia|lia|done|done|]. by left.
  - rewrite (proj2 (Z.eqb_neq _ _)) by lia. cbn [mbind option_bind]. rewrite prefixes_found by lia.
    rewrite (proj2 (Z.eqb_neq _ _)) by lia. exists (lookup_id s (Info (take depth l) type false)), depth.
    split; [by destruct (in_zone s 10)|]. split_and!; [lia|lia|done|done|]. right. split; [done|]. exists depth. split_and!; [lia|lia|done| |by left].
    by exists p, j.
Qed.

(** ** Requests *)

(** The identifier stands for the [n] innermost frames of [l] and for the
    class, if there is one. *)
Definition answered (s : tables) (m : gmap Z nat) (l : list CallSite) (k : option klass) (id : Z) (n : nat) : Prop :=
  exists p i, m !! id = Some p /\ info_at s p = Some i /\ call_sites i = take n l /\
    forall kk, k = Some kk -> type_of s k (allocated_type_id i) /\ (p, id) ∈ pairs (info_to_id s).

Lemma answered_later X s m rs s' m' l k id n : inv X s m rs -> later s m s' m' -> answered s m l k id n -> answered s' m' l k id n.
Proof.
  intros Hi Hl (p & i & Hm & Ei & Hc & Ht). destruct (later_infos _ _ _ _ Hl p i Ei) as (i' & Ei' & Hc' & Ht').
  exists p, i'. split_and!; [by eapply lookup_weaken, Hl|done|congruence|]. intros kk ->. destruct (Ht kk eq_refl) as [H1 H2].
  pose proof (type_of_known X s m rs kk _ Hi H1) as Hne. rewrite Ht' by done. split; [by eapply type_of_later|]. by apply (later_entries _ _ _ _ Hl p id i).
Qed.

Lemma depth_pos l : l <> [] -> (0 < depth_of l <= length l)%nat.
Proof. intros H. destruct l; [done|]. unfold depth_of. cbn [length]. destruct (Z.ltb_spec 0 max_depth); lia. Qed.

Lemma site_ok_take l n : stack_ok l -> (0 < n <= depth_of l)%nat -> site_ok (take n l).
Proof.
  intros (Hne & Hs & Hf) Hn. pose proof (depth_pos l Hne). assert (length (take n l) = n) as Hlen by (rewrite length_take; lia).
  split; [split_and!|].
  - intros E. rewrite E in Hlen. cbn [length] in Hlen. lia.
  - unfold short_list in *. rewrite Hlen. lia.
  - by apply Forall_take.
  - unfold depth_of in *. rewrite Hlen. destruct (0 <? max_depth); lia.
Qed.

Lemma yellow_inv X s m rs b : inv X s m rs -> inv X (set_yellow_zone s b) m rs /\ later s m (set_yellow_zone s b) m.
Proof. intros [Ht Hmaps Hwf Hk Hb Hinj Hiss Hs Hbig Hap Hw Hin Hd Hc Hr Hinst]. split; [by split|]. split; try done. intros p i E. by exists i. Qed.

(** An identifier that was found is checked. *)
Lemma found_answered s m rs l k type n id :
  inv' s m rs -> is_loaded k -> next_type s + Z.of_nat (length (classes k)) < 2 ^ 31 -> type_of s k type -> found s l type n id ->
  exists s' new, check_allocation_site text s id k = Some s' /\ inv' s' m (rs ++ new) /\ later s m s' m /\ answered s' m l k id n /\
    used s' = used s /\ next_type s' <= next_type s + Z.of_nat (length (classes k)).
Proof.
  intros Hi Hk Hb Hty (p & j & Hin & Ej & [Hc Ht]%equals_true & Hid). pose proof (inv_back _ _ _ _ Hi p id Hin) as Hm.
  destruct (check_spec s m rs id p j k Hi Hm Ej Hk Hb) as (s' & new & type' & E & Hi' & Hl & Hty' & (i' & Ei' & Hc' & Ht') & Hp & Hu & Hn).
  exists s', new. split_and!; try done. exists p, i'. cbn [call_sites allocated_type_id] in Hc, Ht. split_and!; [done|done|congruence|].
  intros kk ->. rewrite Hp. split; [|done]. rewrite Ht'. pose proof (type_of_known _ s m rs kk type Hi Hty) as Hne.
  pose proof (type_of_later _ _ _ _ _ _ Hl Hty) as Hty2. unfold refined. destruct (Z.eqb_spec (allocated_type_id j) 0) as [H0|H0]; [done|].
  destruct Ht as [Ht|[Ht|Ht]]; [by rewrite <- Ht|done|done].
Qed.

(** What is new may be inserted. *)
Lemma missing_admissible s l type n : missing s l type n -> forall b, admissible s (Info (take n l) type b).
Proof. intros H b p id j Hin Ej E. specialize (H p id j Hin Ej). by replace (equals (Info (take n l) type b) j false) with false in E. Qed.

Lemma wildcard_admissible X s m rs l type n p id j :
  inv X s m rs -> type <> 0 -> (p, id) ∈ pairs (info_to_id s) -> info_at s p = Some j -> equals (Info (take n l) type false) j false = true ->
  allocated_type_id j <> type -> forall b, admissible s (Info (take n l) type b).
Proof.
  intros Hi Hne Hin Ej Em Hj b q id' j' Hq Ej' Em'. split; [|done]. change (equals (Info (take n l) type false) j' false = true) in Em'.
  assert (p = q) as -> by (by apply (match_unique X s m rs (Info (take n l) type false) p q id id' j j')). assert (j' = j) as -> by congruence.
  apply equals_true in Em as [_ [H|[H|H]]]; cbn [allocated_type_id] in H; congruence.
Qed.

Abbreviation method_to_allocation_site :=
  (method_to_allocation_site max_depth extend text class_loader_data plain is_valid_method).

Abbreviation cost k := (Z.of_nat (length (classes k))).

(** What follows the search. *)
Definition conclude (s : tables) (l : list CallSite) (k : option klass) (type : Z) (relax small : bool) (id : Z) (depth : nat) : option (tables * Z) :=
  id ← (if relax && negb (id =? 0) then
          p ← lookup_info s id;
          stored ← info_at s p;
          Some (if allocated_type_id stored =? type then id else 0)
        else Some id);
  if id =? 0 then add_site text class_loader_data s l depth type small
  else s ← check_allocation_site text s id k; Some (s, id).

(** How a request is answered, from [s] on. *)
Definition answer (s : tables) (m : gmap Z nat) (rs : list symbol) (l : list CallSite) (k : option klass) (n : nat) (id : Z) (s' : tables) : Prop :=
  exists new m', inv' s' m' (rs ++ new) /\ later s m s' m' /\ answered s' m' l k id n /\
    used s <= used s' <= used s + 1 /\ next_type s' <= next_type s + cost k.

(** Only instances get big identifiers. *)
Definition has_instances (k : option klass) : Prop := match k with Some k => oop_is_instance k = true | None => False end.

Lemma added_answer s m rs l k type small n :
  inv' s m rs -> used s < 2 ^ 15 - 16 -> is_loaded k -> type_of s k type -> site_ok (take n l) -> (forall b, admissible s (Info (take n l) type b)) ->
  (small = false -> has_instances k) ->
  exists s' id, add_site text class_loader_data s l n type small = Some (s', id) /\ answer s m rs l k n id s'.
Proof.
  intros Hi Hu Hk Hty Hsite Ha Hsm. destruct (add_site_spec s m rs l n type small Hi Hu Hsite) as (s' & id & new & m' & p & i & E & Hi' & Hl & Hm & Ei & Hc & Ht & Hin & Hu' & Hn);
    [by eapply type_of_ok|done|intros E; apply Hsm in E; destruct k as [k|]; [by exists k|done]|]. exists s', id. split; [done|]. exists new, m'. split_and!; try done; [|lia|lia|lia].
  exists p, i. split_and!; try done. intros kk ->. split; [|done]. rewrite Ht. by eapply type_of_later.
Qed.

Lemma found_answer s m rs l k type n id :
  inv' s m rs -> is_loaded k -> next_type s + cost k < 2 ^ 31 -> type_of s k type -> found s l type n id ->
  exists s', check_allocation_site text s id k = Some s' /\ answer s m rs l k n id s'.
Proof.
  intros Hi Hk Hb Hty Hf. destruct (found_answered s m rs l k type n id Hi Hk Hb Hty Hf) as (s' & new & E & H1 & H2 & H3 & H4 & H5).
  exists s'. split; [done|]. exists new, m. split_and!; try done; lia.
Qed.

Lemma conclude_spec s m rs l k type relax small id depth n0 :
  inv' s m rs -> used s < 2 ^ 15 - 16 -> is_loaded k -> next_type s + cost k < 2 ^ 31 -> type_of s k type -> stack_ok l ->
  (0 < depth <= depth_of l)%nat -> (relax = true -> k <> None) -> (small = false -> has_instances k) ->
  ((id = 0 /\ missing s l type depth) \/
   ((0 < n0 <= depth)%nat /\ found s l type n0 id /\ (n0 = depth \/ missing s l type depth))) ->
  exists s' id' n, conclude s l k type relax small id depth = Some (s', id') /\ answer s m rs l k n id' s' /\ (n = depth \/ (n = n0 /\ 0 < n0 <= depth)%nat) /\
    (id = id' \/ ~ exists p j, m !! id = Some p /\ info_at s p = Some j /\ allocated_type_id j = type).
Proof.
  intros Hi Hu Hk Hb Hty Hl Hd Hrelax Hsm Hsearch. pose proof (site_ok_take l depth Hl Hd) as Hsite. unfold conclude.
  destruct Hsearch as [[-> Hno]|(Hn & Hf & Hcases)].
  - rewrite andb_false_r. cbn [mbind option_bind]. rewrite Z.eqb_refl.
    destruct (added_answer s m rs l k type small depth Hi Hu Hk Hty Hsite (missing_admissible _ _ _ _ Hno) Hsm) as (s' & id' & -> & Ha).
    exists s', id', depth. split_and!; [done|done|by left|right]. intros (p & j & Hm & _). destruct (inv_issued _ _ _ _ Hi 0 p Hm) as [Hiss _].
    pose proof (inv_big _ _ _ _ Hi). unfold issued in Hiss. lia.
  - pose proof Hf as (p & j & Hin & Ej & Em & Hid). pose proof (inv_back _ _ _ _ Hi p id Hin) as Hm.
    rewrite (proj2 (Z.eqb_neq id 0)) by lia. assert (lookup_info s id = Some p) as -> by (by rewrite (lookup_info_spec _ s m rs id Hi)). rewrite andb_true_r.
    destruct (found_answer s m rs l k type n0 id Hi Hk Hb Hty Hf) as (s' & E & Ha).
    assert (exists s' id' n', (s ← check_allocation_site text s id k; Some (s, id)) = Some (s', id') /\ answer s m rs l k n' id' s' /\
      (n' = depth \/ (n' = n0 /\ 0 < n0 <= depth)%nat) /\
      (id = id' \/ ~ exists p j, m !! id = Some p /\ info_at s p = Some j /\ allocated_type_id j = type)) as Hfound.
    { exists s', id, n0. rewrite E. split_and!; [done|done|by right|by left]. }
    destruct relax; cbn [mbind option_bind]; [|rewrite (proj2 (Z.eqb_neq id 0)) by lia; exact Hfound]. rewrite Ej. cbn [mbind option_bind].
    destruct (Z.eqb_spec (allocated_type_id j) type) as [Et|Et]; [rewrite (proj2 (Z.eqb_neq id 0)) by lia; exact Hfound|]. rewrite Z.eqb_refl.
    destruct k as [kk|]; [|by destruct Hrelax]. pose proof (type_of_known _ s m rs kk type Hi Hty) as Hne.
    destruct (added_answer s m rs l (Some kk) type small depth Hi Hu Hk Hty Hsite) as (s2 & id' & -> & Ha').
    { destruct Hcases as [-> | Hno]; [by apply (wildcard_admissible (fun _ => False) s m rs l type depth p id j)|by apply missing_admissible]. }
    { exact Hsm. }
    exists s2, id', depth. split_and!; [done|done|by left|right]. intros (p' & j' & Hm' & Ej' & Et'). congruence.
Qed.

Lemma small_false k deviant : negb extend || is_array_or_unknown k || deviant = false -> has_instances k.
Proof. intros [[_ E]%orb_false_iff _]%orb_false_iff. destruct k as [k|]; [by apply negb_false_iff in E|done]. Qed.

Lemma method_spec s m rs l k relax deviant :
  inv' s m rs -> used s < 2 ^ 15 - 16 -> is_loaded k -> next_type s + 2 * cost k < 2 ^ 31 -> stack_ok l -> (relax = true -> k <> None) ->
  exists s' id new m' n, method_to_allocation_site s l k relax deviant = Some (s', id) /\ inv' s' m' (rs ++ new) /\ later s m s' m' /\
    answered s' m' l k id n /\ (0 < n <= depth_of l)%nat /\ (in_zone s 10 = false -> n = depth_of l) /\
    (forall id0, k <> None -> answered s m l k id0 (depth_of l) -> id = id0) /\
    used s <= used s' <= used s + 1 /\ next_type s' <= next_type s + 2 * cost k.
Proof.
  intros Hi Hu Hk Hb Hl Hrelax. pose proof (depth_pos l (proj1 Hl)) as Hd. unfold AllocationSites.method_to_allocation_site.
  destruct (types_step _ s m rs k Hi Hk ltac:(lia)) as (t & new1 & type & -> & Hi1 & Hl1 & Hty & Hn1). cbn [mbind option_bind].
  change (if 0 <? max_depth then _ else _) with (depth_of l). rewrite (proj2 (Nat.eqb_neq _ _)) by lia. set (s1 := with_types s t) in *.
  destruct (search_spec s1 m (rs ++ new1) l (depth_of l) type Hi1 ltac:(lia)) as (id & depth & -> & Hdepth & Hz & Hsame & Hsearch).
  cbn [mbind option_bind]. change (in_zone s1 10) with (in_zone s 10) in *. destruct (yellow_inv _ s1 m (rs ++ new1) (in_zone s 10) Hi1) as [Hi2 Hl2].
  set (s2 := set_yellow_zone s1 (in_zone s 10)) in *.
  assert (next_type s2 = next_type s1) as En2 by done. assert (used s2 = used s) as Eu2 by done.
  assert (exists n0, (0 < n0 <= depth_of l)%nat /\ (in_zone s 10 = false -> n0 = depth_of l) /\
    ((id = 0 /\ missing s1 l type depth) \/
     ((0 < n0 <= depth)%nat /\ found s1 l type n0 id /\ (n0 = depth \/ missing s1 l type depth)))) as (n0 & Hn0 & Hz0 & Hsearch0).
  { destruct Hsearch as [[-> H]|(-> & n & H1 & H2 & H3 & H4)]; [exists depth|exists n]; (split; [done|split; [done|]]); auto. }
  match goal with |- context [add_site _ _ _ _ _ _ ?small] =>
    destruct (conclude_spec s2 m (rs ++ new1) l k type relax small id depth n0 Hi2 Hu Hk ltac:(lia) Hty Hl Hdepth Hrelax
      (fun E => small_false k deviant E) Hsearch0)
      as (s' & id' & n & E & (new2 & m' & Hi' & Hl' & Ha & Hu' & Hn') & Hn & Hid)
  end.
  exists s', id', (new1 ++ new2), m', n. rewrite app_assoc. split; [exact E|]. split; [done|].
  split; [by eapply later_trans; [|eapply later_trans]|]. split; [done|]. split; [lia|]. split; [intros Ez; specialize (Hz Ez); specialize (Hz0 Ez); lia|].
  split; [|lia]. intros id0 Hkn Hprev. pose proof (answered_later _ s m rs s2 m l k id0 (depth_of l) Hi (later_trans _ _ _ _ _ _ Hl1 Hl2) Hprev) as (p & j & Hm & Ej & Hc & Ht).
  destruct k as [kk|]; [|done]. destruct (Ht kk eq_refl) as [Htj Hin]. assert (allocated_type_id j = type) as Et by (cbn in Htj, Hty; congruence).
  assert (lookup_id s1 (Info (take (depth_of l) l) type false) = id0) as Elook.
  { apply (lookup_id_entry _ s1 m (rs ++ new1) _ p id0 j Hi1); [exact (type_of_known _ s1 m (rs ++ new1) kk type Hi1 Hty)|done|done|]. apply equals_true. cbn. auto. }
  assert (15 <= id0) as H15 by (by apply (entry_info _ s1 m (rs ++ new1) p id0 Hi1) in Hin as (_ & _ & _ & H)).
  rewrite Elook in Hsame. specialize (Hsame ltac:(lia)) as ->. destruct Hid as [<-|[]]; [done|]. by exists p, j.
Qed.

(** The identifier stands for [n] frames of [l]; an alternate type need not
    have an entry of its own. *)
Definition describes (s : tables) (m : gmap Z nat) (l : list CallSite) (k : option klass) (id : Z) (n : nat) : Prop :=
  exists p i, m !! id = Some p /\ info_at s p = Some i /\ call_sites i = take n l /\ forall kk, k = Some kk -> type_of s k (allocated_type_id i).

Lemma answered_describes s m l k id n : answered s m l k id n -> describes s m l k id n.
Proof. intros (p & i & H1 & H2 & H3 & H4). exists p, i. split_and!; try done. intros kk E. apply (H4 kk E). Qed.

Lemma describes_later X s m rs s' m' l k id n : inv X s m rs -> later s m s' m' -> describes s m l k id n -> describes s' m' l k id n.
Proof.
  intros Hi Hl (p & i & Hm & Ei & Hc & Ht). destruct (later_infos _ _ _ _ Hl p i Ei) as (i' & Ei' & Hc' & Ht').
  exists p, i'. split_and!; [by eapply lookup_weaken, Hl|done|congruence|]. intros kk ->.
  pose proof (type_of_known X s m rs kk _ Hi (Ht kk eq_refl)) as Hne. rewrite Ht' by done. by eapply type_of_later, (Ht kk).
Qed.

Abbreviation alternate_type :=
  (allocation_site_to_allocation_site_with_alternate_type max_depth extend text class_loader_data plain is_valid_method).

Lemma alternate_spec s m rs l k0 id n k :
  inv' s m rs -> used s < 2 ^ 15 - 16 -> loaded k -> next_type s + 3 * cost (Some k) < 2 ^ 31 -> describes s m l k0 id n -> (0 < n <= depth_of l)%nat ->
  exists s' id' new m' n', alternate_type s id (Some k) = Some (s', id') /\ inv' s' m' (rs ++ new) /\ later s m s' m' /\
    describes s' m' l (Some k) id' n' /\ (0 < n' <= n)%nat /\ (in_zone s 10 = false -> n' = n) /\
    used s <= used s' <= used s + 1 /\ next_type s' <= next_type s + 3 * cost (Some k).
Proof.
  intros Hi Hu Hk Hb (p & i & Hm & Ei & Hc & _) Hn. unfold allocation_site_to_allocation_site_with_alternate_type.
  rewrite (lookup_info_spec _ s m rs id Hi), Hm. cbn [mbind option_bind]. rewrite Ei. cbn [mbind option_bind].
  destruct (types_step _ s m rs (Some k) Hi Hk ltac:(lia)) as (t & new1 & type & -> & Hi1 & Hl1 & Hty & Hn1). cbn [mbind option_bind].
  set (s1 := with_types s t) in *. destruct (Z.eqb_spec (allocated_type_id i) type) as [Et|Et].
  - exists s1, id, new1, m, n. assert (used s1 = used s) as Eu by done. split_and!; try done; try lia. exists p, i. split_and!; try done.
    intros kk _. by rewrite Et.
  - destruct (inv_infos _ _ _ _ Hi p i Ei) as [[Hst Hdep] _].
    destruct (method_spec s1 m (rs ++ new1) (call_sites i) (Some k) true false Hi1 Hu Hk ltac:(lia) Hst ltac:(done))
      as (s' & id' & new2 & m' & n' & E & Hi' & Hl' & Ha & Hn' & Hz & _ & Hu' & Hb').
    change (in_zone s1 10) with (in_zone s 10) in Hz. assert (used s1 = used s) as Eu by done.
    assert (length (call_sites i) <= n)%nat as Hle by (rewrite Hc, length_take; lia).
    assert (length (call_sites i) = n) as Hlen by (rewrite Hc, length_take_le; [done|]; unfold depth_of in Hn; destruct (0 <? max_depth); lia).
    exists s', id', (new1 ++ new2), m', n'. rewrite app_assoc. split; [exact E|]. split; [done|]. split; [by eapply later_trans|].
    split; [|split_and!; try lia; intros Ez; specialize (Hz Ez); lia].
    apply answered_describes in Ha as (p' & i' & H1 & H2 & H3 & H4). exists p', i'. split_and!; try done. rewrite H3, Hc, take_take. f_equal. lia.
Qed.
End Inv.
End SitesInv.
