(* ===== verification/SiteTheorems.v ===== *)
(** * Identifiers of allocation sites are known to the analyzer

    Sequences of requests to the table of allocation sites, and what the
    analyzer reads from the symbols file afterwards. *)

From Stdlib Require Import ZArith Lia String.
From stdpp Require Import gmap.
From S2P Require Import Prelude MapInterface PrefixTreeMap EventsWriter EventsRuntime Dict StackTraces AllocationSites SymbolsWriter SymbolsParser.
From S2P Require Import SymbolsRoundtrip TypeIds SiteTables SiteInvariant.

Module SiteRuns.
Import AllocatedTypes AllocationSites Dict DictSpec DictMap SymbolsTheorem RecordSpec SitesInv.

(** A request for a site, with a class that may not be known yet; the class
    of the earlier request [j] becomes known; an alternate class for the site
    of the earlier request [j]. *)
Inductive op :=
| OSite (l : list CallSite) (k : option klass) (relax deviant : bool)
| OCheck (j : nat) (k : klass)
| OAlternate (j : nat) (k : klass).

Section Runs.
Context {M : Type} `{!Map M (list Z) Z}.
Variable max_depth : Z.
Variable extend : bool.
Variable text : Z -> list Z.
Variable class_loader_data : Z -> Z.
Variable plain : Z -> list Z.
Variable is_valid_method : Z -> bool.

Abbreviation tables := (tables M).
Abbreviation history := (list (list CallSite * Z)).

(** The new entry of the history: the stack and the identifier. *)
Definition perform (s : tables) (h : history) (o : op) : option (tables * (list CallSite * Z)) :=
  match o with
  | OSite l k relax deviant =>
      '(s, id) ← method_to_allocation_site max_depth extend text class_loader_data plain is_valid_method s l k relax deviant; Some (s, (l, id))
  | OCheck j k => '(l, id) ← h !! j; s ← check_allocation_site text s id (Some k); Some (s, (l, id))
  | OAlternate j k =>
      '(l, id) ← h !! j;
      '(s, id) ← allocation_site_to_allocation_site_with_alternate_type max_depth extend text class_loader_data plain is_valid_method s id (Some k);
      Some (s, (l, id))
  end.

Fixpoint run (s : tables) (h : history) (ops : list op) : option (tables * history) :=
  match ops with
  | [] => Some (s, h)
  | o :: ops => '(s, e) ← perform s h o; run s (h ++ [e]) ops
  end.

Variable loaded : klass -> Prop.

Definition class_of (o : op) : option klass := match o with OSite _ k _ _ => k | OCheck _ k | OAlternate _ k => Some k end.

(** [n]: the number of earlier requests. *)
Definition op_ok (n : nat) (o : op) : Prop :=
  is_loaded loaded (class_of o) /\
  match o with
  | OSite l k relax _ => stack_ok text l /\ (relax = true -> k <> None)
  | OCheck j _ | OAlternate j _ => (j < n)%nat
  end.

Definition ops_ok (ops : list op) : Prop := forall i o, ops !! i = Some o -> op_ok i o.

(** Identifiers of types that the requests may need: a request asks for the
    identifier of its class up to three times. *)
Definition classes_needed (ops : list op) : Z := 3 * Z.of_nat (length (concat ((fun o => classes (class_of o)) <$> ops))).

Hypothesis loaded_super : forall k k', loaded k -> super k = Some k' -> loaded k'.
Hypothesis loaded_address : forall k k', loaded k -> loaded k' -> address k = address k' -> k = k'.
Hypothesis loaded_describable : forall k, loaded k -> describable k.
Hypothesis loaded_plain : forall k, loaded k -> oop_is_instanceMirror k = false.
Variable w : AllocationTracingIO.io.

Abbreviation inv' := (inv max_depth text loaded w (fun _ => False)).
Abbreviation depth_of := (depth_of max_depth).

(** There were so few requests that no stack was shortened. *)
Variable plenty : Prop.

Definition good (s : tables) (m : gmap Z nat) (o : op) (e : list CallSite * Z) : Prop :=
  exists n, (0 < n <= depth_of e.1)%nat /\ (plenty -> n = depth_of e.1) /\
    match o with
    | OSite l k _ _ => l = e.1 /\ answered s m l k e.2 n
    | OCheck _ _ => describes s m e.1 None e.2 n
    | OAlternate _ k => describes s m e.1 (Some k) e.2 n
    end.

Lemma good_describes s m o e : good s m o e -> exists n, (0 < n <= depth_of e.1)%nat /\ (plenty -> n = depth_of e.1) /\
  describes s m e.1 (match o with OCheck _ _ => None | _ => class_of o end) e.2 n.
Proof. intros (n & Hn & Hp & H). exists n. split_and!; try done; try lia. destruct o; [|done..]. destruct H as [-> H]. by apply answered_describes. Qed.

Lemma good_later s m rs s' m' o e : inv' s m rs -> later s m s' m' -> good s m o e -> good s' m' o e.
Proof.
  intros Hi Hl (n & Hn & Hp & H). exists n. split; [done|]. split; [done|]. destruct o; [|by eapply describes_later..].
  destruct H as [-> H]. split; [done|]. by eapply answered_later.
Qed.

Lemma describes_weak (s : tables) m l k id n : describes s m l k id n -> describes s m l None id n.
Proof. intros (p & i & H1 & H2 & H3 & _). by exists p, i. Qed.

Lemma not_yellow (s : tables) m rs : inv' s m rs -> used s <= 29475 -> in_zone s 10 = false.
Proof.
  intros Hi Hu. pose proof (inv_count _ _ _ _ _ _ _ _ Hi) as Hc. pose proof (inv_small _ _ _ _ _ _ _ _ Hi) as Hs. pose proof (inv_big _ _ _ _ _ _ _ _ Hi) as Hb.
  unfold used in Hu. unfold in_zone. change last_id_small with 32767. change last_id_big with 8388607.
  apply orb_false_intro; apply Z.ltb_ge; lia.
Qed.

Lemma perform_spec s m rs ops h o :
  inv' s m rs -> Forall2 (good s m) ops h -> op_ok (length h) o -> used s < 2 ^ 15 - 16 -> (plenty -> used s <= 29475) ->
  next_type s + 3 * Z.of_nat (length (classes (class_of o))) < 2 ^ 31 ->
  exists s' l id new m', perform s h o = Some (s', (l, id)) /\ inv' s' m' (rs ++ new) /\ later s m s' m' /\ good s' m' o (l, id) /\
    used s' <= used s + 1 /\ next_type s' <= next_type s + 3 * Z.of_nat (length (classes (class_of o))) /\
    match o with OSite l' (Some k) _ _ => forall id0, answered s m l' (Some k) id0 (depth_of l') -> id = id0 | _ => True end.
Proof.
  intros Hi Hh [Hk Hok] Hu Hp Hb. assert (plenty -> in_zone s 10 = false) as Hz by (intros H; apply (not_yellow s m rs Hi); auto).
  destruct o as [l k relax deviant|j k|j k]; cbn [perform class_of is_loaded] in *.
  - destruct Hok as [Hl Hrelax]. destruct (method_spec max_depth extend text class_loader_data plain is_valid_method loaded
      loaded_super loaded_address loaded_describable loaded_plain w s m rs l k relax deviant Hi Hu Hk ltac:(lia) Hl Hrelax)
      as (s' & id & new & m' & n & -> & Hi' & Hl' & Ha & Hn & Hz' & Hsame & Hu' & Hb').
    exists s', l, id, new, m'. split_and!; try done; try lia; [by exists n; auto|]. destruct k as [k|]; [|done]. intros id0. by apply Hsame.
  - destruct (lookup_lt_is_Some_2 h j Hok) as [[l id] Ej]. rewrite Ej. cbn [mbind option_bind].
    destruct (Forall2_lookup_r _ _ _ _ _ Hh Ej) as (o' & _ & Hg). apply good_describes in Hg as (n & Hn & Hpn & Hd%describes_weak). cbn [fst snd] in *.
    pose proof Hd as (p & i & Hm & Ei & _ & _).
    destruct (check_spec max_depth text class_loader_data plain is_valid_method loaded loaded_super loaded_address loaded_describable loaded_plain w s m rs id p i (Some k) Hi Hm Ei Hk)
      as (s' & new & type & -> & Hi' & Hl' & _ & _ & _ & Hu' & Hb'); [lia|].
    exists s', l, id, new, m. split_and!; try done; try lia. exists n. cbn [fst snd]. split_and!; try done; try lia.
    exact (describes_later max_depth text loaded w _ s m rs s' m l None id n Hi Hl' Hd).
  - destruct (lookup_lt_is_Some_2 h j Hok) as [[l id] Ej]. rewrite Ej. cbn [mbind option_bind].
    destruct (Forall2_lookup_r _ _ _ _ _ Hh Ej) as (o' & _ & Hg). apply good_describes in Hg as (n & Hn & Hpn & Hd). cbn [fst snd] in *.
    destruct (alternate_spec max_depth extend text class_loader_data plain is_valid_method loaded loaded_super loaded_address loaded_describable
      loaded_plain w s m rs l _ id n k Hi Hu Hk Hb Hd Hn) as (s' & id' & new & m' & n' & -> & Hi' & Hl' & Hd' & Hn' & Hz' & Hu' & Hb').
    exists s', l, id', new, m'. split_and!; try done; try lia. exists n'. cbn [fst snd]. split_and!; try done; try lia.
    intros H. by rewrite Hz', Hpn by auto.
Qed.

(** The same stack and class get the same identifier. *)
Definition consistent (ops : list op) (h : history) : Prop :=
  forall i j l l' k r d r' d' id id', ops !! i = Some (OSite l (Some k) r d) -> ops !! j = Some (OSite l' (Some k) r' d') ->
    h !! i = Some (l, id) -> h !! j = Some (l', id') -> take (depth_of l) l = take (depth_of l') l' -> id = id'.

Lemma consistent_snoc s m ops h o l id :
  plenty -> Forall2 (good s m) ops h -> consistent ops h ->
  match o with OSite l' (Some k) _ _ => l = l' /\ forall id0, answered s m l' (Some k) id0 (depth_of l') -> id = id0 | _ => True end ->
  consistent (ops ++ [o]) (h ++ [(l, id)]).
Proof.
  intros Hp Hg Hc Ho. pose proof (Forall2_length _ _ _ Hg) as Hlen.
  assert (forall i l1 k r d id1 l', ops !! i = Some (OSite l1 (Some k) r d) -> h !! i = Some (l1, id1) ->
    take (depth_of l1) l1 = take (depth_of l') l' -> answered s m l' (Some k) id1 (depth_of l')) as Hold.
  { intros i l1 k r d id1 l' Eo Eh Et. destruct (Forall2_lookup_lr _ _ _ _ _ _ Hg Eo Eh) as (n & _ & Hn & _ & Ha). cbn [fst snd] in *.
    rewrite (Hn Hp) in Ha. destruct Ha as (p & x & H1 & H2 & H3 & H4). exists p, x. split_and!; try done. congruence. }
  intros i j l1 l2 k r d r' d' id1 id2 Ei Ej Hi Hj Et.
  apply lookup_snoc_Some in Ei as [[Li Ei]|[-> ->]], Ej as [[Lj Ej]|[-> Ej]].
  - rewrite lookup_app_l in Hi, Hj by lia. by eapply (Hc i j).
  - subst o. destruct Ho as [-> Ho]. rewrite Hlen, list_lookup_middle in Hj by done. injection Hj as <-. rewrite lookup_app_l in Hi by lia.
    symmetry. apply Ho. by eapply Hold.
  - destruct Ho as [-> Ho]. rewrite Hlen, list_lookup_middle in Hi by done. injection Hi as <-. rewrite lookup_app_l in Hj by lia.
    apply Ho. by eapply Hold.
  - rewrite Hlen, list_lookup_middle in Hi, Hj by done. congruence.
Qed.

Lemma run_spec ops : forall before h s m rs,
  inv' s m rs -> Forall2 (good s m) before h -> (plenty -> consistent before h) ->
  (forall i o, ops !! i = Some o -> op_ok (length h + i) o) -> used s + Z.of_nat (length ops) <= 2 ^ 15 - 16 ->
  (plenty -> used s + Z.of_nat (length ops) <= 29476) -> next_type s + classes_needed ops < 2 ^ 31 ->
  exists s' h' m' new, run s h ops = Some (s', h') /\ inv' s' m' (rs ++ new) /\ Forall2 (good s' m') (before ++ ops) h' /\
    (plenty -> consistent (before ++ ops) h').
Proof.
  induction ops as [|o ops IH]; intros before h s m rs Hi Hg Hc Hok Hu Hp Hb; cbn [run].
  { exists s, h, m, []. by rewrite !app_nil_r. }
  assert (classes_needed (o :: ops) = 3 * Z.of_nat (length (classes (class_of o))) + classes_needed ops) as Eb
    by (unfold classes_needed; cbn [fmap list_fmap concat]; rewrite length_app; lia).
  assert (0 <= classes_needed ops) as Hpos by (unfold classes_needed; lia). cbn [length] in Hu, Hp. pose proof (Hok O o eq_refl) as Ho. rewrite Nat.add_0_r in Ho.
  destruct (perform_spec s m rs before h o Hi Hg Ho) as (s1 & l & id & new & m1 & -> & Hi1 & Hl1 & Hg1 & Hu1 & Hb1 & Hsame);
    [lia|intros H; specialize (Hp H); lia|lia|]. cbn [mbind option_bind].
  destruct (IH (before ++ [o]) (h ++ [(l, id)]) s1 m1 (rs ++ new) Hi1) as (s' & h' & m' & new' & -> & Hi' & Hg' & Hc').
  - apply Forall2_app; [|by constructor]. eapply Forall2_impl; [done|]. intros o' e'. by apply (good_later s m rs).
  - intros H. eapply consistent_snoc; [done|done|by apply Hc|]. destruct o as [l' [k|] r d| |]; try done. split; [|done]. by destruct Hg1 as (n & _ & _ & -> & _).
  - intros i o' Eo. rewrite length_app, <- Nat.add_assoc. apply (Hok (S i)). done.
  - lia.
  - intros H. specialize (Hp H). lia.
  - lia.
  - exists s', h', m', (new ++ new'). rewrite app_assoc. rewrite <- app_assoc in Hg', Hc'. done.
Qed.

(** ** The start *)

Definition special_symbol (e : Z * string) : symbol := SSimple e.1 (bytes_of_string e.2) 0.

Lemma specials_inv l t rs :
  TypesSpec.inv text loaded w (fun _ => False) t rs -> Forall (fun e => symbol_ok text (special_symbol e)) l ->
  TypesSpec.inv text loaded w (fun _ => False)
    (Types (next_allocated_type_identifier t) (identifiers t) (foldl write_special (symbols t) l)) (rs ++ (special_symbol <$> l)).
Proof.
  intros Hi Hl. revert t rs Hi. induction Hl as [|e l He Hl IH]; intros t rs Hi; cbn [foldl fmap list_fmap].
  - rewrite app_nil_r. by destruct t.
  - replace (rs ++ special_symbol e :: (special_symbol <$> l)) with ((rs ++ [special_symbol e]) ++ (special_symbol <$> l)) by (by rewrite <- app_assoc).
    apply (IH (Types (next_allocated_type_identifier t) (identifiers t) (write_special (symbols t) e))).
    by apply (TypesSpec.other_inv text loaded w (fun _ => False) t rs (special_symbol e)).
Qed.

Lemma specials_ok : Forall (fun e => symbol_ok text (special_symbol e)) special_sites.
Proof.
  assert (Forall (fun e : Z * string => 0 < e.1 < 2 ^ 15 /\ Forall (fun c => 0 < c < 128) (bytes_of_string e.2)) special_sites) as H.
  { by_decide. }
  eapply Forall_impl; [exact H|]. intros [id sig] [H1 H2]. cbn [fst snd] in *. split_and!; [by left| |by split..]. done.
Qed.

Lemma sites_init_inv (empty : M) : map_get_size (map_clear empty) = 0 -> exists rs, inv' (AllocationSites.init empty (AllocatedTypes.init w)) ∅ rs.
Proof.
  intros He. exists ([] ++ (special_symbol <$> special_sites)).
  assert (forall p : nat * Z, p ∉ pairs make) as Hnone by (intros p; apply not_elem_of_nil). split; cbn -[special_sites].
  - apply (specials_inv special_sites (AllocatedTypes.init w) []); [apply TypesSpec.init_inv|apply specials_ok].
  - apply make_maps.
  - apply make_wf.
  - constructor.
  - intros p id H. by apply Hnone in H.
  - intros id id' p H. by rewrite lookup_empty in H.
  - intros id p H. by rewrite lookup_empty in H.
  - unfold ALLOCATION_SITE_IDENTIFIER_FIRST_CUSTOM. lia.
  - unfold ALLOCATION_SITE_IDENTIFIER_FIRST_CUSTOM. lia.
  - intros p q id id' i j H. by apply Hnone in H.
  - intros id p i H. by rewrite lookup_empty in H.
  - intros p i H. done.
  - exact He.
  - done.
  - done.
  - intros id p i H. by rewrite lookup_empty in H.
Qed.

(** ** What the analyzer knows *)

(** An identifier with a class: it is in the range of identifiers, small for
    an array, and its frames and its class are in the file. *)
Lemma describes_site s m rs l k id n :
  inv' s m rs -> loaded k -> describes s m l (Some k) id n ->
  exists t, identifiers (allocated_types s) !! address k = Some t /\ 2 <= t < 2 ^ 31 /\
    sites_of text rs !! id = Some (Symbols.Site id (location text <$> take n l) t) /\
    (15 <= id < 2 ^ 15 \/ (2 ^ 23 + 15 <= id < 2 ^ 24 /\ oop_is_instance k = true)).
Proof.
  intros Hi Hk (p & i & Hm & Ei & Hc & Hty). specialize (Hty k eq_refl). exists (allocated_type_id i). split; [done|].
  pose proof (inv_types _ _ _ _ _ _ _ _ Hi) as Htypes. pose proof (TypesSpec.inv_range _ _ _ _ _ _ Htypes _ _ Hty).
  pose proof (TypesSpec.inv_next _ _ _ _ _ _ Htypes). split; [lia|]. pose proof (type_of_known max_depth text loaded w _ s m rs k _ Hi Hty) as Hne. split.
  - rewrite <- Hc. apply (inv_written _ _ _ _ _ _ _ _ Hi id p i Hm Ei Hne). tauto.
  - destruct (inv_issued _ _ _ _ _ _ _ _ Hi id p Hm) as [Hid _]. pose proof (inv_small _ _ _ _ _ _ _ _ Hi). pose proof (inv_big _ _ _ _ _ _ _ _ Hi).
    destruct Hid as [Hid|Hid]; [left; lia|right]. split; [lia|].
    destruct (inv_instance _ _ _ _ _ _ _ _ Hi id p i Hm ltac:(lia) Ei) as (k' & Hk' & Hinst & E).
    assert (k' = k) as <-; [|done]. apply loaded_address; [done|done|].
    by apply (TypesSpec.inv_inj _ _ _ _ _ _ Htypes _ _ (allocated_type_id i)).
Qed.

(** The analyzer knows them. *)
Lemma describes_known s m rs (S : Symbols.symbols) l k id n :
  inv' s m rs -> (forall id, 0 < id -> mjoin (Symbols.getById (Symbols.known_sites S) id) = sites_of text rs !! id) ->
  Symbols.types S = types_of rs -> loaded k -> describes s m l (Some k) id n ->
  exists t sid, mjoin (Symbols.getById (Symbols.known_sites S) id) = Some (Symbols.Site id (location text <$> take n l) t) /\
    Symbols.types S !! t = Some (type_known t sid k) /\ identifiers (allocated_types s) !! address k = Some t /\ 2 <= t < 2 ^ 31 /\
    (15 <= id < 2 ^ 15 \/ (2 ^ 23 + 15 <= id < 2 ^ 24 /\ oop_is_instance k = true)).
Proof.
  intros Hi Hs Ht Hk Hd. destruct (describes_site s m rs l k id n Hi Hk Hd) as (t & Hty & Hr & Hsite & Hid).
  destruct (TypesSpec.inv_known text loaded loaded_super loaded_address w _ rs k t (inv_types _ _ _ _ _ _ _ _ Hi) Hk Hty) as [Hkn _].
  exists t, (TypesSpec.super_id (allocated_types s) k). rewrite Ht, Hs by lia. done.
Qed.

(** Different stacks or classes have different identifiers. *)
Lemma describes_inj s m rs l l' k k' id n n' :
  inv' s m rs -> loaded k -> loaded k' -> describes s m l (Some k) id n -> describes s m l' (Some k') id n' -> take n l = take n' l' /\ k = k'.
Proof.
  intros Hi Hk Hk' (p & i & Hm & Ei & Hc & Ht) (p' & i' & Hm' & Ei' & Hc' & Ht'). assert (p' = p) as -> by congruence.
  assert (i' = i) as -> by congruence. split; [congruence|]. specialize (Ht k eq_refl). specialize (Ht' k' eq_refl).
  apply loaded_address; [done|done|]. by apply (TypesSpec.inv_inj _ _ _ _ _ _ (inv_types _ _ _ _ _ _ _ _ Hi) _ _ (allocated_type_id i)).
Qed.

End Runs.
(** The classes of a program that have identifiers. *)
Record program (loaded : klass -> Prop) : Prop := {
  program_super : forall k k', loaded k -> super k = Some k' -> loaded k';
  program_address : forall k k', loaded k -> loaded k' -> address k = address k' -> k = k';
  program_describable : forall k, loaded k -> describable k;
  program_plain : forall k, loaded k -> oop_is_instanceMirror k = false;
}.

Section Theorems.
Context {M : Type} `{!Map M (list Z) Z}.
Variable max_depth : Z.
Variable extend : bool.
Variable text : Z -> list Z.
Variable class_loader_data : Z -> Z.
Variable plain : Z -> list Z.
Variable is_valid_method : Z -> bool.
Variable empty : M.
Variables header : list Z.
Variable w : AllocationTracingIO.io.
Variables anchors pointers cms : bool.

(** The tables at the start of the VM. *)
Definition start : AllocationSites.tables M :=
  AllocationSites.init empty
    (AllocatedTypes.init (AllocationTracingIO.create_file header SymbolsWriter.get_file_type (SymbolsWriter.write_header anchors pointers cms) w)).

Abbreviation requests := (run max_depth extend text class_loader_data plain is_valid_method start []).
Abbreviation depth_of := (depth_of max_depth).

Lemma sites_run loaded ops plenty :
  program loaded -> map_get_size (map_clear empty) = 0 -> ops_ok text loaded ops ->
  Z.of_nat (length ops) <= 2 ^ 15 - 16 -> 2 + classes_needed ops < 2 ^ 31 -> (plenty -> Z.of_nat (length ops) <= 29476) ->
  exists s h m rs, requests ops = Some (s, h) /\
    inv max_depth text loaded (AllocationTracingIO.create_file header SymbolsWriter.get_file_type (SymbolsWriter.write_header anchors pointers cms) w) (fun _ => False) s m rs /\
    Forall2 (good max_depth plenty s m) ops h /\ (plenty -> consistent max_depth ops h).
Proof.
  intros [P1 P2 P3 P4] He Hok Hlen Hb Hp. set (w0 := AllocationTracingIO.create_file _ _ _ _).
  destruct (sites_init_inv max_depth text loaded w0 empty He) as (rs0 & Hi0).
  destruct (run_spec max_depth extend text class_loader_data plain is_valid_method loaded P1 P2 P3 P4 w0 plenty ops [] [] start ∅ rs0 Hi0)
    as (s & h & m & new & E & Hi & Hg & Hc).
  - constructor.
  - intros _ i j l l' k r d r' d' id id' H. done.
  - intros i o. apply Hok.
  - exact Hlen.
  - exact Hp.
  - exact Hb.
  - exists s, h, m, (rs0 ++ new). done.
Qed.

(** What the analyzer reads of the sites a request can return, and the
    identifiers they are given. *)
Lemma sites_read loaded ops useCallContext seekable parsePtrs :
  program loaded -> map_get_size (map_clear empty) = 0 -> ops_ok text loaded ops ->
  Z.of_nat (length ops) <= 2 ^ 15 - 16 -> 2 + classes_needed ops < 2 ^ 31 ->
  Forall (fun z => s32 z = z) header -> Z.of_nat (length header) < 2 ^ 31 ->
  exists s h S, requests ops = Some (s, h) /\ length h = length ops /\
    SymbolsParser.parse_file useCallContext seekable parsePtrs (AllocationTracingIO.file (symbols (allocated_types s))) = Some (header, S) /\ Symbols.anchors S = anchors /\
    forall i o l id k, ops !! i = Some o -> h !! i = Some (l, id) ->
      match o with OSite l' k' _ _ => l' = l /\ k' = Some k | OCheck _ _ => False | OAlternate _ k' => k' = k end ->
      exists n t sid, (0 < n <= depth_of l)%nat /\ (Z.of_nat (length ops) <= 29476 -> n = depth_of l) /\
        mjoin (Symbols.getById (Symbols.known_sites S) id) = Some (Symbols.Site id (location text <$> take n l) t) /\
        Symbols.types S !! t = Some (type_known t sid k) /\ identifiers (allocated_types s) !! address k = Some t /\ 2 <= t < 2 ^ 31 /\
        (15 <= id < 2 ^ 15 \/ (2 ^ 23 + 15 <= id < 2 ^ 24 /\ oop_is_instance k = true)).
Proof.
  intros Hprog He Hok Hlen Hb Hh Hlh. destruct (sites_run loaded ops (Z.of_nat (length ops) <= 29476) Hprog He Hok Hlen Hb ltac:(tauto))
    as (s & h & m & rs & E & Hi & Hg & _). pose proof Hprog as [P1 P2 P3 P4]. pose proof (inv_types _ _ _ _ _ _ _ _ Hi) as Hty.
  destruct (symbols_read text useCallContext seekable header w anchors pointers cms parsePtrs rs Hh Hlh (TypesSpec.inv_good _ _ _ _ _ _ Hty)
    (TypesSpec.inv_fresh _ _ _ _ _ _ Hty)) as (S & Ep & Ean & _ & _ & _ & _ & Hs & Ht & _).
  exists s, h, S. rewrite (TypesSpec.inv_file _ _ _ _ _ _ Hty). split; [done|]. split; [by rewrite (Forall2_length _ _ _ Hg)|]. split; [exact Ep|]. split; [exact Ean|].
  intros i o l id k Eo Eh Hmatch. destruct (good_describes _ _ _ _ _ _ (Forall2_lookup_lr _ _ _ _ _ _ Hg Eo Eh)) as (n & Hn & Hp & Hd).
  cbn [fst snd] in *. assert (loaded k) as Hk by (specialize (Hok i o Eo) as [Hk _]; destruct o as [l' k' r d| |j k']; [destruct Hmatch as [_ ->]| |subst k']; done).
  exists n. destruct (describes_known max_depth text class_loader_data plain is_valid_method loaded P1 P2 _ s m rs S l k id n Hi Hs Ht Hk) as (t & sid & H1 & H2 & H3 & H4 & H5).
  { destruct o as [l' k' r d| |j k']; [destruct Hmatch as [_ ->]| |subst k']; done. }
  by exists t, sid.
Qed.

(** C8: allocation sites are known to the analyzer: after any sequence of
    requests to the table (stacks whose class is known or not, classes that
    become known later, alternate classes for earlier sites), the symbols file
    the VM has written is read without an exception, and the identifier a
    request with a known class got describes, there, the innermost frames of
    its stack and its class.  No frame is missing up to the maximal depth as
    long as there were at most 29476 requests; before that number, no stack is
    shortened for want of identifiers. *)
Theorem sites_known loaded ops useCallContext seekable parsePtrs :
  program loaded -> map_get_size (map_clear empty) = 0 -> ops_ok text loaded ops ->
  Z.of_nat (length ops) <= 2 ^ 15 - 16 -> 2 + classes_needed ops < 2 ^ 31 ->
  Forall (fun z => s32 z = z) header -> Z.of_nat (length header) < 2 ^ 31 ->
  exists s h S, requests ops = Some (s, h) /\ length h = length ops /\
    SymbolsParser.parse_file useCallContext seekable parsePtrs (AllocationTracingIO.file (symbols (allocated_types s))) = Some (header, S) /\
    forall i o l id k, ops !! i = Some o -> h !! i = Some (l, id) ->
      match o with OSite l' k' _ _ => l' = l /\ k' = Some k | OCheck _ _ => False | OAlternate _ k' => k' = k end ->
      exists n t sid, (0 < n <= depth_of l)%nat /\ (Z.of_nat (length ops) <= 29476 -> n = depth_of l) /\
        mjoin (Symbols.getById (Symbols.known_sites S) id) = Some (Symbols.Site id (location text <$> take n l) t) /\
        Symbols.types S !! t = Some (type_known t sid k).
Proof.
  intros Hprog He Hok Hlen Hb Hh Hlh.
  destruct (sites_read loaded ops useCallContext seekable parsePtrs Hprog He Hok Hlen Hb Hh Hlh) as (s & h & S & E & Hl & Ep & _ & H).
  exists s, h, S. split; [done|]. split; [done|]. split; [done|]. intros i o l id k Eo Eh Hm.
  destruct (H i o l id k Eo Eh Hm) as (n & t & sid & H1 & H2 & H3 & H4 & _). by exists n, t, sid.
Qed.

(** C9: identifiers stand for sites: over any sequence of at most 29476
    requests to the table, two requests with known classes get the same
    identifier if and only if their stacks agree up to the maximal depth and
    the classes are the same, whatever other requests, late classes and
    alternate classes there were in between. *)
Theorem sites_distinct loaded ops :
  program loaded -> map_get_size (map_clear empty) = 0 -> ops_ok text loaded ops ->
  Z.of_nat (length ops) <= 29476 -> 2 + classes_needed ops < 2 ^ 31 ->
  exists s h, requests ops = Some (s, h) /\ length h = length ops /\
    forall i j l l' k k' r r' d d' a b id id', ops !! i = Some (OSite l (Some k) r d) -> ops !! j = Some (OSite l' (Some k') r' d') ->
      h !! i = Some (a, id) -> h !! j = Some (b, id') ->
      id = id' <-> take (depth_of l) l = take (depth_of l') l' /\ k = k'.
Proof.
  intros Hprog He Hok Hlen Hb. destruct (sites_run loaded ops True Hprog He Hok ltac:(lia) Hb ltac:(tauto))
    as (s & h & m & rs & E & Hi & Hg & Hc). pose proof Hprog as [P1 P2 P3 P4]. exists s, h. split; [done|]. split; [by rewrite (Forall2_length _ _ _ Hg)|].
  intros i j l l' k k' r r' d d' a b id id' Ei Ej Hhi Hhj. pose proof (proj1 (Hok i _ Ei)) as Hk. pose proof (proj1 (Hok j _ Ej)) as Hk'. cbn in Hk, Hk'.
  destruct (Forall2_lookup_lr _ _ _ _ _ _ Hg Ei Hhi) as (n & _ & Hn & Ha & Hai). destruct (Forall2_lookup_lr _ _ _ _ _ _ Hg Ej Hhj) as (n' & _ & Hn' & Hb' & Haj).
  cbn [fst snd] in *. subst a b. rewrite Hn in Hai by done. rewrite Hn' in Haj by done. apply answered_describes in Hai, Haj.
  split; [intros <-; exact (describes_inj max_depth text loaded P2 _ s m rs l l' k k' id _ _ Hi Hk Hk' Hai Haj)|]. intros [Et <-]. by eapply (Hc I i j).
Qed.

End Theorems.

(** ** Examples *)

(** Saved sites in a prefix tree. *)
#[export] Instance saved_ops : Map PrefixTreeMap.ptree (list Z) Z := {
  map_get_size := PrefixTreeMap.get_size;
  map_get := PrefixTreeMap.get Elements.getSequenceLength Elements.getSequenceElement;
  map_put := PrefixTreeMap.put Elements.getSequenceLength Elements.getSequenceElement;
  map_remove := PrefixTreeMap.remove;
  map_clear := PrefixTreeMap.clear;
}.

Lemma demo_program : program TypesSpec.demo_loaded.
Proof. split; [exact TypesSpec.demo_super|exact TypesSpec.demo_address|exact TypesSpec.demo_describable|]. by intros k [-> | ->]. Qed.

(** A stack whose class becomes known later, the same stack with another
    class, and two stacks that differ below the third frame. *)
Definition demo_ops : list op :=
  [OSite [Call 8 3; Call 16 1] None false false; OCheck 0 TypesSpec.node_class; OAlternate 0 TypesSpec.object_class;
   OSite [Call 8 3; Call 16 1; Call 24 2; Call 32 5] (Some TypesSpec.node_class) false false;
   OSite [Call 8 3; Call 16 1; Call 24 2; Call 40 7] (Some TypesSpec.node_class) false false].

Lemma demo_stack_ok l : Forall (fun c => int_ok (bytecode_index c) /\ (method c =? 0) = false) l -> l <> [] -> short_list l -> stack_ok demo_text l.
Proof.
  intros Hl Hne Hs. split; [done|]. split; [done|]. eapply Forall_impl; [exact Hl|]. intros c [Hb Hm]. split; [|done].
  unfold SymbolsWriter.frame_signature. rewrite Hm. exists 78, (bytes_of_string "ode.run(I"), [86].
  split_and!; [reflexivity|by_decide|by apply ScannerSpec.descriptor_base].
Qed.

Lemma demo_ops_ok : ops_ok demo_text TypesSpec.demo_loaded demo_ops.
Proof.
  intros i o E. destruct i as [|[|[|[|[|i]]]]]; [..|done]; injection E as <-; (split; [first [by right|by left|done]|]); try (cbn; lia);
    (split; [apply demo_stack_ok; [unfold int_ok; by_decide|done|reflexivity]|done]).
Qed.

Abbreviation demo_requests :=
  (run 3 true demo_text (fun _ => 1) (fun _ => []) (fun _ => true) (start (PrefixTreeMap.make 4096) [7] (AllocationTracingIO.make 1) true true false) []).

Lemma sites_known_witness :
  exists s h S, demo_requests demo_ops = Some (s, h) /\ snd <$> h = [15; 15; 8388623; 8388624; 8388624] /\
    SymbolsParser.parse_file true false true (AllocationTracingIO.file (symbols (allocated_types s))) = Some ([7], S) /\
    exists t, mjoin (Symbols.getById (Symbols.known_sites S) 8388624) =
      Some (Symbols.Site 8388624 (location demo_text <$> [Call 8 3; Call 16 1; Call 24 2]) t).
Proof.
  destruct (sites_known 3 true demo_text (fun _ => 1) (fun _ => []) (fun _ => true) (PrefixTreeMap.make 4096) [7] (AllocationTracingIO.make 1) true true false
    TypesSpec.demo_loaded demo_ops true false true) as (s & h & S & E & _ & Ep & H);
    [exact demo_program|reflexivity|exact demo_ops_ok|by_decide|by_decide|by_decide|reflexivity|].
  exists s, h, S. assert (snd <$> h = [15; 15; 8388623; 8388624; 8388624]) as Eh by (vm_compute in E; injection E as _ <-; reflexivity).
  split; [exact E|]. split; [exact Eh|]. split; [exact Ep|].
  assert (h !! 3%nat = Some ([Call 8 3; Call 16 1; Call 24 2; Call 32 5], 8388624)) as E3 by (vm_compute in E; injection E as _ <-; reflexivity).
  destruct (H 3%nat _ _ _ TypesSpec.node_class eq_refl E3 (conj eq_refl eq_refl)) as (n & t & sid & _ & Hn & Hs & _). exists t.
  rewrite Hn in Hs by by_decide. exact Hs.
Defined.

Lemma sites_distinct_witness :
  exists s h, demo_requests demo_ops = Some (s, h) /\ h !! 3%nat = Some ([Call 8 3; Call 16 1; Call 24 2; Call 32 5], 8388624) /\
    exists l, h !! 4%nat = Some (l, 8388624).
Proof.
  destruct (sites_distinct 3 true demo_text (fun _ => 1) (fun _ => []) (fun _ => true) (PrefixTreeMap.make 4096) [7] (AllocationTracingIO.make 1) true true false
    TypesSpec.demo_loaded demo_ops) as (s & h & E & Hlen & H);
    [exact demo_program|reflexivity|exact demo_ops_ok|by_decide|by_decide|].
  assert (h !! 3%nat = Some ([Call 8 3; Call 16 1; Call 24 2; Call 32 5], 8388624)) as E3 by (vm_compute in E; injection E as _ <-; reflexivity).
  exists s, h. split; [exact E|]. split; [exact E3|]. destruct (lookup_lt_is_Some_2 h 4) as [[l id] E4]; [rewrite Hlen; by_decide|].
  exists l. rewrite E4. do 2 f_equal. symmetry.
  apply (H 3%nat 4%nat _ _ TypesSpec.node_class TypesSpec.node_class _ _ _ _ _ _ 8388624 id eq_refl eq_refl E3 E4). split; reflexivity.
Defined.

End SiteRuns.
