(* ===== verification/SlowAllocs.v ===== *)
(** * Allocations on the slow path ([SlowAllocPatcher] of
      [prims/EventsRuntime.cpp], [gc_interface/collectedHeap.inline.hpp])

    When compiled or interpreted code cannot allocate itself it calls the VM.
    On the way it leaves in the thread what the event of the allocation should
    say, its type and its site, for the extent of a block; blocks nest. *)

From Stdlib Require Import ZArith Lia String.
From stdpp Require Import gmap.
From S2P Require Import Prelude MapInterface PrefixTreeMap EventsWriter EventsRuntime Dict StackTraces AllocationSites SymbolsWriter SymbolsParser.
From S2P Require Import SymbolsRoundtrip TypeIds SiteTables SiteInvariant SiteTheorems.

Module SlowAlloc.
Import AllocatedTypes AllocationSites SiteRuns.

(** [_patched_event_type] and [_patched_allocation_site] of a thread. *)
Record patch := Patch { patched_event_type : Z; patched_allocation_site : Z }.

(** In the constructor of [Thread], where [is_GC_task_thread] is that of
    [Thread] itself, whatever the thread is going to be. *)
Definition new_thread : patch := Patch EventType.EVENTS_ALLOC_SLOW EventsRuntime.ALLOCATION_SITE_IDENTIFIER_VM_INTERNAL.

(** The object of a block: [None] without a thread, or what was patched
    before. *)
Definition SlowAllocPatcher := option patch.

Definition no_patch (p : patch) : patch * SlowAllocPatcher := (p, None).

Definition patch_special (p : patch) (event allocation_site : Z) : patch * SlowAllocPatcher := (Patch event allocation_site, Some p).

Definition destroy (p : patch) (o : SlowAllocPatcher) : patch := match o with Some prev => prev | None => p end.

Definition ALLOCATION_SITE_IDENTIFIER_VM_GC : Z := 2.

(** [patcher = SlowAllocPatcher(...)], as the collectors have it: the
    temporary object is copied and destroyed. *)
Definition collector_patch (TraceObjectsGC : bool) (p : patch) : patch * SlowAllocPatcher :=
  let '(p, o) := if TraceObjectsGC then patch_special p EventType.EVENTS_ALLOC_SLOW ALLOCATION_SITE_IDENTIFIER_VM_GC else no_patch p in
  (destroy p o, o).

(** What is logged of an allocation: the arguments of [fire_obj_alloc_slow]. *)
Record allocation := Allocation { allocated : EventsRuntime.oop; site : Z; event : Z; words : Z }.

(** [obj_allocate], [array_allocate]: mirrors are handled elsewhere. *)
Definition obj_allocate (TraceObjectsAllocations : bool) (p : patch) (obj : EventsRuntime.oop) (size : Z) : list allocation :=
  if TraceObjectsAllocations && negb (EventsRuntime.is_instanceMirror obj)
  then [Allocation obj (patched_allocation_site p) (patched_event_type p) size] else [].

Section Slow.
Context {M : Type} `{!Map M (list Z) Z}.
Variable max_depth : Z.
Variable extend : bool.
Variable text : Z -> list Z.
Variable class_loader_data : Z -> Z.
Variable plain : Z -> list Z.
Variable is_valid_method : Z -> bool.

Abbreviation tables := (tables M).
Abbreviation history := (list (list CallSite * Z)).

(** The constructor for a method and the index of a bytecode. *)
Definition patch_method (s : tables) (p : patch) (event : Z) (c : CallSite) (k : option klass) : option (tables * patch * SlowAllocPatcher) :=
  '(s, allocation_site) ← method_to_allocation_site max_depth extend text class_loader_data plain is_valid_method s [c] k false false;
  Some (s, Patch event allocation_site, Some p).

(** The constructor for a site that was asked for before. *)
Definition patch_site (s : tables) (p : patch) (event allocation_site : Z) (k : option klass) (relaxed : bool) :
    option (tables * patch * SlowAllocPatcher) :=
  let special := allocation_site <? EventsRuntime.ALLOCATION_SITE_IDENTIFIER_FIRST_CUSTOM in
  '(s, allocation_site) ←
    (if negb special && relaxed
     then allocation_site_to_allocation_site_with_alternate_type max_depth extend text class_loader_data plain is_valid_method s allocation_site k
     else Some (s, allocation_site));
  s ← (if special then Some s else check_allocation_site text s allocation_site k);
  Some (s, Patch event allocation_site, Some p).

(** ** Programs of blocks and allocations

    [requests] is the specification's record of the answers the table gave. *)

(** A block in interpreted code, in compiled code with the site of the
    earlier request [j], or in the VM with a site of its own. *)
Inductive block :=
| Interpreted (event : Z) (c : CallSite) (k : klass)
| Compiled (event : Z) (j : nat) (k : klass) (relaxed : bool)
| Special (event allocation_site : Z) (k : option klass) (relaxed : bool).

(** A request to the table, as the compilers make it; an allocation; a block. *)
Inductive instr :=
| Request (o : op)
| Allocate (obj : EventsRuntime.oop) (size : Z)
| Block (b : block) (body : list instr).

Record state := State { sites : tables; requests : history; patched : patch; log : list allocation }.

(** The macros [patch_alloc_slow...], with tracing of allocations. *)
Definition enter (st : state) (b : block) : option (state * SlowAllocPatcher) :=
  match b with
  | Interpreted event c k =>
      '(s, p, o) ← patch_method (sites st) (patched st) event c (Some k);
      Some (State s (requests st ++ [([c], patched_allocation_site p)]) p (log st), o)
  | Compiled event j k relaxed =>
      '(l, id) ← requests st !! j;
      '(s, p, o) ← patch_site (sites st) (patched st) event id (Some k) relaxed;
      let e := (l, patched_allocation_site p) in
      Some (State s (requests st ++ if relaxed then [e; e] else [e]) p (log st), o)
  | Special event id k relaxed =>
      '(s, p, o) ← patch_site (sites st) (patched st) event id k relaxed;
      Some (State s (requests st) p (log st), o)
  end.

Definition leave (st : state) (o : SlowAllocPatcher) : state := State (sites st) (requests st) (destroy (patched st) o) (log st).

Fixpoint exec (st : state) (i : instr) : option state :=
  match i with
  | Request o =>
      '(s, e) ← perform max_depth extend text class_loader_data plain is_valid_method (sites st) (requests st) o;
      Some (State s (requests st ++ [e]) (patched st) (log st))
  | Allocate obj size => Some (State (sites st) (requests st) (patched st) (log st ++ obj_allocate true (patched st) obj size))
  | Block b body =>
      '(st, o) ← enter st b;
      st ← (fix go st l := match l with [] => Some st | i :: l => st ← exec st i; go st l end) st body;
      Some (leave st o)
  end.

Fixpoint exec_all (st : state) (l : list instr) : option state :=
  match l with [] => Some st | i :: l => st ← exec st i; exec_all st l end.

End Slow.

End SlowAlloc.

(** ** What the events say *)

Module SlowAllocSpec.
Import AllocatedTypes AllocationSites SiteRuns SymbolsTheorem SlowAlloc.

(** Where a site comes from: an answer of the table, or the VM. *)
Inductive source := Answer (i : nat) | Given (allocation_site : Z).

(** The requests a program makes, the first one with the number [n]. *)
Definition block_ops (n : nat) (b : block) : list op :=
  match b with
  | Interpreted _ c k => [OSite [c] (Some k) false false]
  | Compiled _ j k true => [OAlternate j k; OCheck n k]
  | Compiled _ j k false => [OCheck j k]
  | Special _ _ _ _ => []
  end.

Definition block_patch (n : nat) (b : block) : Z * source :=
  match b with
  | Interpreted event _ _ => (event, Answer n)
  | Compiled event j _ relaxed => (event, Answer (if relaxed then n else j))
  | Special event id _ _ => (event, Given id)
  end.

Fixpoint instr_ops (n : nat) (i : instr) : list op :=
  match i with
  | Request o => [o]
  | Allocate _ _ => []
  | Block b body =>
      let ops := block_ops n b in
      ops ++ (fix go n l := match l with [] => [] | i :: l => let ops := instr_ops n i in ops ++ go (n + length ops)%nat l end)
        (n + length ops)%nat body
  end.

Fixpoint ops_of (n : nat) (l : list instr) : list op :=
  match l with [] => [] | i :: l => let ops := instr_ops n i in ops ++ ops_of (n + length ops)%nat l end.

(** An allocation belongs to the innermost block around it. *)
Definition belongs (p : Z * source) (obj : EventsRuntime.oop) (size : Z) : list (EventsRuntime.oop * Z * Z * source) :=
  if EventsRuntime.is_instanceMirror obj then [] else [(obj, size, p.1, p.2)].

Fixpoint instr_log (n : nat) (p : Z * source) (i : instr) : list (EventsRuntime.oop * Z * Z * source) :=
  match i with
  | Request _ => []
  | Allocate obj size => belongs p obj size
  | Block b body =>
      let q := block_patch n b in
      (fix go n l := match l with [] => [] | i :: l => instr_log n q i ++ go (n + length (instr_ops n i))%nat l end)
        (n + length (block_ops n b))%nat body
  end.

Fixpoint log_of (n : nat) (p : Z * source) (l : list instr) : list (EventsRuntime.oop * Z * Z * source) :=
  match l with [] => [] | i :: l => instr_log n p i ++ log_of (n + length (instr_ops n i))%nat p l end.

Lemma log_body q body n :
  (fix go n l := match l with [] => [] | i :: l => instr_log n q i ++ go (n + length (instr_ops n i))%nat l end) n body = log_of n q body.
Proof. revert n. induction body as [|i body IH]; intros n; [done|]. cbn [log_of]. by rewrite IH. Qed.

(** The sites of the VM are those without a request. *)
Fixpoint special_ok (i : instr) : Prop :=
  match i with
  | Block b body =>
      match b with Special _ id _ _ => id < EventsRuntime.ALLOCATION_SITE_IDENTIFIER_FIRST_CUSTOM | _ => True end /\
      (fix go l := match l with [] => True | i :: l => special_ok i /\ go l end) body
  | _ => True
  end.

Lemma special_body (l : list instr) : (fix go l := match l with [] => True | i :: l => special_ok i /\ go l end) l <-> Forall special_ok l.
Proof. induction l as [|i l IH]; [by split|]. rewrite Forall_cons. by rewrite IH. Qed.

(** Induction over blocks. *)
Lemma instr_nested (P : instr -> Prop) :
  (forall o, P (Request o)) -> (forall obj size, P (Allocate obj size)) -> (forall b body, Forall P body -> P (Block b body)) -> forall i, P i.
Proof.
  intros HR HA HB. refine (fix IH i := match i with Request o => HR o | Allocate obj size => HA obj size | Block b body => HB b body _ end).
  induction body as [|j body IHb]; constructor; [apply IH|apply IHb].
Qed.

Section Attribution.
Context {M : Type} `{!Map M (list Z) Z}.
Variable max_depth : Z.
Variable extend : bool.
Variable text : Z -> list Z.
Variable class_loader_data : Z -> Z.
Variable plain : Z -> list Z.
Variable is_valid_method : Z -> bool.

Abbreviation exec := (exec max_depth extend text class_loader_data plain is_valid_method).
Abbreviation exec_all := (exec_all max_depth extend text class_loader_data plain is_valid_method).
Abbreviation enter := (enter max_depth extend text class_loader_data plain is_valid_method).
Abbreviation run := (run max_depth extend text class_loader_data plain is_valid_method).

Definition site_in (h : list (list CallSite * Z)) (src : source) : Z :=
  match src with Answer i => match h !! i with Some (_, id) => id | None => 0 end | Given id => id end.
Definition patch_in (h : list (list CallSite * Z)) (p : Z * source) : patch := Patch p.1 (site_in h p.2).
Definition logged_in (h : list (list CallSite * Z)) (a : EventsRuntime.oop * Z * Z * source) : allocation :=
  let '(obj, size, event, src) := a in Allocation obj (site_in h src) event size.

Lemma run_app_ops (s : tables M) h o1 o2 : run s h (o1 ++ o2) = run s h o1 ≫= fun '(s, h) => run s h o2.
Proof.
  revert s h. induction o1 as [|o o1 IH]; intros s h; cbn [app SiteRuns.run]; [done|].
  destruct (perform _ _ _ _ _ _ s h o) as [[s1 e]|]; [|done]. cbn [mbind option_bind]. apply IH.
Qed.

Lemma run_extends ops (s : tables M) h s' h' : run s h ops = Some (s', h') -> exists new, h' = h ++ new /\ length new = length ops.
Proof.
  revert s h. induction ops as [|o ops IH]; intros s h; cbn [SiteRuns.run]; [intros [= <- <-]; exists []; by rewrite app_nil_r|].
  destruct (perform _ _ _ _ _ _ s h o) as [[s1 e]|]; [|done]. cbn [mbind option_bind]. intros (new & -> & Hl)%IH.
  exists (e :: new). rewrite <- app_assoc. by cbn [app length]; rewrite Hl.
Qed.

(** Entering a block makes its requests and leaves its site in the thread. *)
Lemma enter_run b (st : state (M := M)) s' h' H :
  special_ok (Block b []) -> run (sites st) (requests st) (block_ops (length (requests st)) b) = Some (s', h') ->
  h' `prefix_of` H -> Forall (fun e => 15 <= e.2) H ->
  enter st b = Some (State s' h' (patch_in H (block_patch (length (requests st)) b)) (log st), Some (patched st)).
Proof.
  intros [Hsp _] Hrun [tl ->] HF. destruct b as [event c k|event j k relaxed|event id k relaxed]; cbn [block_ops] in Hrun.
  - cbn [SiteRuns.run perform] in Hrun. cbn [SlowAlloc.enter]. unfold patch_method.
    destruct (method_to_allocation_site _ _ _ _ _ _ _ _ _ _ _) as [[s1 id]|]; [|done]. cbn [mbind option_bind] in *. injection Hrun as <- <-.
    unfold patch_in. cbn [block_patch fst snd site_in patched_allocation_site]. rewrite <- app_assoc. cbn [app]. by rewrite list_lookup_middle.
  - assert (exists l id, requests st !! j = Some (l, id)) as (l & id & Ej).
    { destruct relaxed; cbn [SiteRuns.run perform] in Hrun; destruct (requests st !! j) as [[l id]|]; try done; by exists l, id. }
    destruct (run_extends _ _ _ _ _ Hrun) as (new & -> & _).
    assert ((id <? EventsRuntime.ALLOCATION_SITE_IDENTIFIER_FIRST_CUSTOM) = false) as Hid.
    { apply Z.ltb_ge. rewrite Forall_lookup in HF. apply (HF j (l, id)). rewrite <- app_assoc. by apply lookup_app_l_Some. }
    cbn [SlowAlloc.enter]. rewrite Ej. cbn [mbind option_bind]. unfold patch_site. rewrite Hid. cbn [negb andb].
    destruct relaxed; cbn [SiteRuns.run perform] in Hrun; rewrite Ej in Hrun; cbn [mbind option_bind] in Hrun.
    + destruct (allocation_site_to_allocation_site_with_alternate_type _ _ _ _ _ _ _ _ _) as [[s1 id1]|]; [|done]. cbn [mbind option_bind] in *.
      rewrite list_lookup_middle in Hrun by done. cbn [mbind option_bind] in Hrun.
      destruct (check_allocation_site text s1 id1 (Some k)) as [s2|]; [|done]. cbn [mbind option_bind] in *. injection Hrun as <- E.
      rewrite <- app_assoc in E. apply app_inv_head in E as <-. unfold patch_in. cbn [block_patch fst snd site_in patched_allocation_site].
      rewrite <- app_assoc. cbn [app]. by rewrite list_lookup_middle.
    + cbn [mbind option_bind]. destruct (check_allocation_site text (sites st) id (Some k)) as [s2|]; [|done]. cbn [mbind option_bind] in *. injection Hrun as <- E.
      apply app_inv_head in E as <-. unfold patch_in. cbn [block_patch fst snd site_in patched_allocation_site].
      by rewrite <- app_assoc, (lookup_app_l_Some _ _ _ _ Ej).
  - injection Hrun as <- <-. cbn [SlowAlloc.enter]. unfold patch_site. by rewrite (proj2 (Z.ltb_lt _ _)).
Qed.

(** Behind an instruction the thread is as it was before, and what was
    allocated in between belongs to the innermost block around it. *)
Definition attributed (i : instr) : Prop := forall (st : state (M := M)) p s' h' H,
  special_ok i -> run (sites st) (requests st) (instr_ops (length (requests st)) i) = Some (s', h') ->
  h' `prefix_of` H -> Forall (fun e => 15 <= e.2) H -> patched st = patch_in H p ->
  exec st i = Some (State s' h' (patched st) (log st ++ (logged_in H <$> instr_log (length (requests st)) p i))).

Lemma exec_all_run l (st : state (M := M)) p s' h' H :
  Forall attributed l -> Forall special_ok l -> run (sites st) (requests st) (ops_of (length (requests st)) l) = Some (s', h') ->
  h' `prefix_of` H -> Forall (fun e => 15 <= e.2) H -> patched st = patch_in H p ->
  exec_all st l = Some (State s' h' (patched st) (log st ++ (logged_in H <$> log_of (length (requests st)) p l))).
Proof.
  intros Hl. revert st. induction Hl as [|i l Hi Hl IH]; intros st Hok; cbn [ops_of log_of SlowAlloc.exec_all].
  { intros [= <- <-] _ _ _. cbn [fmap list_fmap]. rewrite app_nil_r. by destruct st. }
  apply Forall_cons in Hok as [Hoki Hokl]. rewrite run_app_ops. intros Hrun Hpre HF Hp.
  destruct (run (sites st) (requests st) (instr_ops (length (requests st)) i)) as [[s1 h1]|] eqn:E; [|done]. cbn [mbind option_bind] in Hrun.
  destruct (run_extends _ _ _ _ _ E) as (n1 & E1 & L1). destruct (run_extends _ _ _ _ _ Hrun) as (n2 & E2 & _).
  rewrite (Hi st p s1 h1 H Hoki E); [|etrans; [|exact Hpre]; rewrite E2; by eexists|done|done]. cbn [mbind option_bind].
  assert (length h1 = length (requests st) + length (instr_ops (length (requests st)) i))%nat as Elen by (rewrite E1, length_app; lia).
  rewrite <- Elen in Hrun. rewrite (IH (State s1 h1 (patched st) _) Hokl Hrun Hpre HF Hp). cbn [log requests].
  by rewrite Elen, fmap_app, app_assoc.
Qed.

Lemma exec_run i : attributed i.
Proof.
  induction i as [o|obj size|b body IH] using instr_nested; intros st p s' h' H Hok Hrun Hpre HF Hp.
  - cbn [instr_ops SiteRuns.run SlowAlloc.exec instr_log] in *. destruct (perform _ _ _ _ _ _ _ _ o) as [[s1 e]|]; [|done].
    cbn [mbind option_bind] in *. injection Hrun as <- <-. cbn [fmap list_fmap]. by rewrite app_nil_r.
  - injection Hrun as <- <-. cbn [SlowAlloc.exec instr_log]. do 3 f_equal. unfold obj_allocate, belongs. rewrite Hp. cbn [andb].
    by destruct (EventsRuntime.is_instanceMirror obj).
  - change (instr_ops (length (requests st)) (Block b body)) with (block_ops (length (requests st)) b ++
      ops_of (length (requests st) + length (block_ops (length (requests st)) b)) body) in Hrun.
    rewrite run_app_ops in Hrun. destruct Hok as [Hb Hbody%special_body].
    destruct (run (sites st) (requests st) (block_ops _ b)) as [[s1 h1]|] eqn:E; [|done]. cbn [mbind option_bind] in Hrun.
    destruct (run_extends _ _ _ _ _ E) as (n1 & E1 & L1). destruct (run_extends _ _ _ _ _ Hrun) as (n2 & E2 & _).
    assert (h1 `prefix_of` H) as Hpre1 by (etrans; [|exact Hpre]; rewrite E2; by eexists).
    assert (length h1 = length (requests st) + length (block_ops (length (requests st)) b))%nat as Elen by (rewrite E1, length_app; lia).
    change (exec st (Block b body)) with ('(st, o) ← enter st b; st ← exec_all st body; Some (leave st o)).
    rewrite (enter_run b st s1 h1 H ltac:(by split) E Hpre1 HF). cbn [mbind option_bind]. rewrite <- Elen in Hrun.
    rewrite (exec_all_run body (State s1 h1 _ (log st)) (block_patch (length (requests st)) b) s' h' H IH Hbody Hrun Hpre HF eq_refl).
    cbn [mbind option_bind]. unfold leave. cbn [destroy patched sites requests log].
    rewrite Elen. unfold instr_log at 1. fold instr_log. by rewrite log_body.
Qed.

Variable empty : M.
Variables header : list Z.
Variable w : AllocationTracingIO.io.
Variables anchors pointers cms : bool.

(** The table never answers with a site of the VM. *)
Lemma answers_not_special loaded ops s h :
  program loaded -> map_get_size (map_clear empty) = 0 -> ops_ok text loaded ops ->
  Z.of_nat (length ops) <= 2 ^ 15 - 16 -> 2 + classes_needed ops < 2 ^ 31 ->
  run (start empty header w anchors pointers cms) [] ops = Some (s, h) -> Forall (fun e => 15 <= e.2) h.
Proof.
  intros Hprog He Hok Hlen Hb E.
  destruct (sites_run max_depth extend text class_loader_data plain is_valid_method empty header w anchors pointers cms loaded ops False Hprog He Hok Hlen Hb ltac:(done))
    as (s1 & h1 & m & rs & E1 & Hi & Hg & _). rewrite E in E1. injection E1 as <- <-.
  apply Forall_forall. intros e [i Hi']%list_elem_of_lookup. destruct (Forall2_lookup_r _ _ _ _ _ Hg Hi') as (o & _ & Ho).
  apply good_describes in Ho as (n & _ & _ & p & inf & Hm & _). destruct (SitesInv.inv_issued _ _ _ _ _ _ _ _ Hi _ _ Hm) as [Hiss _].
  unfold SitesInv.issued in Hiss. lia.
Qed.

(** C10: slow allocations are attributed to where they happen: whatever
    blocks of interpreted code, compiled code and the VM nest, with requests
    of the compilers in between, the program runs, each allocation is
    reported with the event type and the site of the innermost block around
    it (of the VM itself outside of all blocks), the thread is left as it
    was, and every site with a class that the table gave is described to the
    analyzer with the method and the class. *)
Theorem slow_allocations_known loaded prog useCallContext seekable parsePtrs :
  program loaded -> map_get_size (map_clear empty) = 0 -> Forall special_ok prog -> ops_ok text loaded (ops_of 0 prog) ->
  Z.of_nat (length (ops_of 0 prog)) <= 2 ^ 15 - 16 -> 2 + classes_needed (ops_of 0 prog) < 2 ^ 31 ->
  Forall (fun z => s32 z = z) header -> Z.of_nat (length header) < 2 ^ 31 ->
  exists s h S,
    exec_all (State (start empty header w anchors pointers cms) [] new_thread []) prog =
      Some (State s h new_thread
        (logged_in h <$> log_of 0 (EventType.EVENTS_ALLOC_SLOW, Given EventsRuntime.ALLOCATION_SITE_IDENTIFIER_VM_INTERNAL) prog)) /\
    SymbolsParser.parse_file useCallContext seekable parsePtrs (AllocationTracingIO.file (symbols (allocated_types s))) = Some (header, S) /\
    forall i o l id k, ops_of 0 prog !! i = Some o -> h !! i = Some (l, id) ->
      match o with OSite l' k' _ _ => l' = l /\ k' = Some k | OCheck _ _ => False | OAlternate _ k' => k' = k end ->
      exists n t sid, (0 < n <= SitesInv.depth_of max_depth l)%nat /\
        mjoin (Symbols.getById (Symbols.known_sites S) id) = Some (Symbols.Site id (RecordSpec.location text <$> take n l) t) /\
        Symbols.types S !! t = Some (type_known t sid k).
Proof.
  intros Hprog He Hsp Hok Hlen Hb Hh Hlh.
  destruct (sites_read max_depth extend text class_loader_data plain is_valid_method empty header w anchors pointers cms loaded (ops_of 0 prog)
    useCallContext seekable parsePtrs Hprog He Hok Hlen Hb Hh Hlh) as (s & h & S & E & _ & Ep & _ & H).
  pose proof (answers_not_special loaded _ _ _ Hprog He Hok Hlen Hb E) as HF. exists s, h, S. split; [|split; [exact Ep|]].
  - rewrite (exec_all_run prog (State _ [] new_thread []) (EventType.EVENTS_ALLOC_SLOW, Given EventsRuntime.ALLOCATION_SITE_IDENTIFIER_VM_INTERNAL) s h h);
      [done|by apply Forall_true, exec_run|done|exact E|done|done|done].
  - intros i o l id k Eo Eh Hm. destruct (H i o l id k Eo Eh Hm) as (n & t & sid & H1 & _ & H3 & H4 & _). by exists n, t, sid.
Qed.

End Attribution.

(** The patch of the collectors is gone when the statement that makes it is
    over: the temporary object has put back what was there. *)
Lemma collector_patch_lost TraceObjectsGC p : (collector_patch TraceObjectsGC p).1 = p.
Proof. by destruct TraceObjectsGC. Qed.

(** A compiled method that allocates, calls the interpreter, which allocates,
    and the VM, and allocates again. *)
Definition demo_object (a : Z) : EventsRuntime.oop := EventsRuntime.Oop a None false 2 16.
Definition demo_prog : list instr :=
  [Request (OSite [Call 8 3; Call 16 1] None false false); Allocate (demo_object 64) 2;
   Block (Compiled EventType.EVENTS_C2_ALLOC_SLOW 0 TypesSpec.node_class true)
     [Allocate (demo_object 80) 2;
      Block (Interpreted EventType.EVENTS_IR_ALLOC_SLOW (Call 24 2) TypesSpec.object_class) [Allocate (demo_object 96) 2];
      Block (Special EventType.EVENTS_ALLOC_SLOW 2 None false) [Allocate (demo_object 112) 2];
      Allocate (demo_object 128) 2]].

Lemma demo_prog_ok : ops_ok demo_text TypesSpec.demo_loaded (ops_of 0 demo_prog).
Proof.
  intros i o E. destruct i as [|[|[|[|i]]]]; [..|done]; injection E as <-; (split; [first [by right|by left|done]|]); try (cbn; lia);
    (split; [apply demo_stack_ok; [unfold RecordSpec.int_ok; by_decide|done|reflexivity]|done]).
Qed.

Lemma slow_allocations_known_witness :
  exists s h S,
    exec_all 3 true demo_text (fun _ => 1) (fun _ => []) (fun _ => true)
      (State (start (PrefixTreeMap.make 4096) [7] (AllocationTracingIO.make 1) true true false) [] new_thread []) demo_prog =
      Some (State s h new_thread
        [Allocation (demo_object 64) 1 EventType.EVENTS_ALLOC_SLOW 2; Allocation (demo_object 80) 8388623 EventType.EVENTS_C2_ALLOC_SLOW 2;
         Allocation (demo_object 96) 8388624 EventType.EVENTS_IR_ALLOC_SLOW 2; Allocation (demo_object 112) 2 EventType.EVENTS_ALLOC_SLOW 2;
         Allocation (demo_object 128) 8388623 EventType.EVENTS_C2_ALLOC_SLOW 2]) /\
    SymbolsParser.parse_file true false true (AllocationTracingIO.file (symbols (allocated_types s))) = Some ([7], S).
Proof.
  destruct (slow_allocations_known 3 true demo_text (fun _ => 1) (fun _ => []) (fun _ => true) (PrefixTreeMap.make 4096) [7] (AllocationTracingIO.make 1)
    true true false TypesSpec.demo_loaded demo_prog true false true) as (s & h & S & E & Ep & _);
    [exact demo_program|reflexivity|repeat constructor|exact demo_prog_ok|by_decide|by_decide|by_decide|reflexivity|].
  exists s, h, S. split; [|exact Ep]. etrans; [exact E|]. vm_compute in E. injection E as _ <-. vm_compute. reflexivity.
Defined.

End SlowAllocSpec.
