(* ===== verification/EventsGC.v ===== *)
(** * Collections ([prims/EventsGCRuntime.hpp], [prims/EventsGCRuntime.cpp],
      [prims/EventSynchronization.cpp])

    What is fired at the start and the end of a collection, moves merged into
    regions, space events that wait for the end of a collection, rotation of
    the trace and the synchronisation of the heap with a new trace file. *)

From S2P Require Import Prelude EventBuffer EventPointerList EventsRuntime EventPointers RootPointers ObjectStartArray.
From Stdlib Require Import ZArith Lia.

(** ** Rotation *)

Module EventSynchronization.

Inductive EventSynchronizationType := NoSync | OnMinor | OnMajor.

#[global] Instance sync_type_eq_dec : EqDecision EventSynchronizationType.
Proof. solve_decision. Defined.

Record state := State { type : EventSynchronizationType; forced : bool }.

Definition is_synchronizing (s : state) : bool := negb (bool_decide (type s = NoSync)).

Definition force_rotate (s : state) : state := State (type s) true.

(** [size] is the size of the current trace file. *)
Definition should_rotate (TraceObjectsMaxTraceSize max_file_count : Z) (s : state) (size epsilon : Z) : bool :=
  forced s || ((0 <? TraceObjectsMaxTraceSize) && (u64 (TraceObjectsMaxTraceSize + epsilon) / max_file_count <=? size)).

(** After the buffers were flushed and written and the writer was reset. *)
Definition start_synchronization (s : state) (t : EventSynchronizationType) : state := State t (forced s).

Definition stop_synchronization (s : state) : state := State NoSync false.

End EventSynchronization.

Module EventsGCRuntime.
Import EventType EventsRuntime EventSynchronization.

Definition GCType_Minor : Z := 0.
Definition GCType_Major : Z := 1.
Definition GCType_Major_Sync : Z := 2.
Definition GCType_Minor_Sync : Z := 3.
Definition SPACE_MODE_NORMAL : Z := 0.
Definition SPACE_MODE_HUMONGOUS_START : Z := 1.
Definition SPACE_MODE_HUMONGOUS_CONTINUES : Z := 2.
Definition EDEN_SPACE : Z := 0.
Definition SURVIVOR_SPACE : Z := 1.
Definition OLD_SPACE : Z := 2.

(** What the VM thread does: fire an event, fire one with [fire_event_sync],
    flush all buffers, wait until they are written, begin a new trace file. *)
Inductive output :=
| Fired (e : event)
| FiredSync (level : EventBuffer.EventBufferSyncLevel) (gc_only : bool) (e : event)
| FlushAll
| WaitForAllSerialized
| ResetWriter.

(** ** The spaces of the heap *)

Record space := Space { bottom : Z; end_ : Z }.

Inductive region_kind := Eden | Survivor | Old | Free | StartsHumongous | ContinuesHumongous.

(** The spaces of each collector; the old generation of the serial collector
    by its bottom and [capacity()]. *)
Inductive heap :=
| ParallelHeap (old eden survivor_1 survivor_2 : space)
| G1Heap (regions : list (space * region_kind))
| CMSHeap (eden from to old : space)
| SerialHeap (eden from to : space) (old_bottom old_capacity : Z).

Definition region_type (k : region_kind) : option (Z * Z) :=
  match k with
  | Eden => Some (SPACE_MODE_NORMAL, EDEN_SPACE)
  | Survivor => Some (SPACE_MODE_NORMAL, SURVIVOR_SPACE)
  | Old => Some (SPACE_MODE_NORMAL, OLD_SPACE)
  | Free => None
  | StartsHumongous => Some (SPACE_MODE_HUMONGOUS_START, OLD_SPACE)
  | ContinuesHumongous => Some (SPACE_MODE_HUMONGOUS_CONTINUES, OLD_SPACE)
  end.

Section Collections.
Variable anchors : bool.

Definition create (id : Z) (s : space) : output :=
  FiredSync EventBuffer.Sync_Ensure_Order false (fire_space_creation anchors id (bottom s) (end_ s)).
Definition alloc (id mode type : Z) : output :=
  FiredSync EventBuffer.Sync_Ensure_Order false (fire_space_alloc anchors id mode type).

(** The survivor spaces by address. *)
Definition generational (eden from to old : space) : list output :=
  let survivor_1 := if bottom from <? bottom to then from else to in
  let survivor_2 := if bottom from <? bottom to then to else from in
  [create 0 eden; create 1 survivor_1; create 2 survivor_2; create 3 old;
   alloc 0 SPACE_MODE_NORMAL EDEN_SPACE; alloc 1 SPACE_MODE_NORMAL SURVIVOR_SPACE;
   alloc 2 SPACE_MODE_NORMAL SURVIVOR_SPACE; alloc 3 SPACE_MODE_NORMAL OLD_SPACE].

Definition announce_region (i : nat) (r : space * region_kind) : list output :=
  create (Z.of_nat i) r.1 ::
  match region_type r.2 with Some (mode, type) => [alloc (Z.of_nat i) mode type] | None => [] end.

Definition announce_spaces (h : heap) : list output :=
  match h with
  | ParallelHeap old eden survivor_1 survivor_2 =>
      [create 0 old; create 1 eden; create 2 survivor_1; create 3 survivor_2;
       alloc 0 SPACE_MODE_NORMAL OLD_SPACE; alloc 1 SPACE_MODE_NORMAL EDEN_SPACE;
       alloc 2 SPACE_MODE_NORMAL SURVIVOR_SPACE; alloc 3 SPACE_MODE_NORMAL SURVIVOR_SPACE]
  | G1Heap regions => concat (imap announce_region regions)
  | CMSHeap eden from to old => generational eden from to old
  | SerialHeap eden from to old_bottom old_capacity =>
      generational eden from to (Space old_bottom (old_bottom + old_capacity * HeapWordSize))
  end.

(** ** Postponed space events *)

Record state := State {
  id : Z;
  sync : EventSynchronization.state;
  postpone_space : bool;
  postponed_space_redefines : list (Z * Z * Z);
  postponed_space_destroys : list (Z * Z);
}.

Definition set_sync (s : state) (y : EventSynchronization.state) : state :=
  State (id s) y (postpone_space s) (postponed_space_redefines s) (postponed_space_destroys s).

Definition set_postpone (s : state) (b : bool) : state :=
  State (id s) (sync s) b (postponed_space_redefines s) (postponed_space_destroys s).

Definition redefine (r : Z * Z * Z) : output :=
  let '(index, bottom, end_) := r in
  FiredSync EventBuffer.Sync_Ensure_Order false (fire_space_redefine anchors index bottom end_).
Definition destroyed (d : Z * Z) : output :=
  FiredSync EventBuffer.Sync_Ensure_Order false (fire_space_destroyed anchors d.1 d.2).

Definition schedule_space_redefine (s : state) (index bottom end_ : Z) : state * list output :=
  if negb (postpone_space s) then (s, [redefine (index, bottom, end_)])
  else (State (id s) (sync s) (postpone_space s) (postponed_space_redefines s ++ [(index, bottom, end_)])
          (postponed_space_destroys s), []).

Definition schedule_space_destroyed (s : state) (index count : Z) : state * list output :=
  if negb (postpone_space s) then (s, [destroyed (index, count)])
  else (State (id s) (sync s) (postpone_space s) (postponed_space_redefines s)
          (postponed_space_destroys s ++ [(index, count)]), []).

(** A block with postponed space events. *)
Definition postpone_space_events (s : state) (body : state -> state * list output) : state * list output :=
  let '(s, out) := body (set_postpone s true) in (set_postpone s false, out).

Definition fire_postponed_space_events (s : state) : state * list output :=
  (State (id s) (sync s) (postpone_space s) [] [],
   (if (0 <? Z.of_nat (length (postponed_space_redefines s))) || (0 <? Z.of_nat (length (postponed_space_destroys s)))
    then [FiredSync EventBuffer.Sync_Full false (fire_sync anchors)] else []) ++
   (redefine <$> postponed_space_redefines s) ++ (destroyed <$> postponed_space_destroys s)).

(** ** Start and end *)

Variable TraceObjectsMaxTraceSize max_file_count : Z.
Variable TraceObjectsMaxTraceSizeSynchronizeOnMinor TraceObjectsGCRoots : bool.

(** The type of the collection and of the synchronisation when it is time to
    rotate. *)
Definition rotation (type : Z) : Z * EventSynchronizationType :=
  if type =? GCType_Major then (GCType_Major_Sync, OnMajor)
  else if TraceObjectsMaxTraceSizeSynchronizeOnMinor && (type =? GCType_Minor) then (GCType_Minor_Sync, OnMinor)
  else (type, NoSync).

(** [size] is the size of the trace file, [millis] the time, [h] and [v] the
    heap and the VM at the safepoint. *)
Definition fire_gc_start (s : state) (type cause : Z) (concurrent gc_only allow_rotation : bool)
    (size millis : Z) (c : collector) (h : heap) (v : RootPointers.vm) : state * Z * list output :=
  let '(s, type, before) :=
    if allow_rotation && should_rotate TraceObjectsMaxTraceSize max_file_count (sync s) size 0 then
      let '(type, sync_type) := rotation type in
      let '(s, out) :=
        if negb (bool_decide (sync_type = NoSync))
        then (set_sync s (start_synchronization (sync s) sync_type), [FlushAll; WaitForAllSerialized; ResetWriter])
        else (s, [FlushAll]) in
      (s, type, out ++ announce_spaces h)
    else (s, type, []) in
  let s := State (s32 (id s + 1)) (sync s) (postpone_space s) (postponed_space_redefines s) (postponed_space_destroys s) in
  let start := FiredSync EventBuffer.Sync_Full gc_only
    (fire_gc_start_end anchors EVENTS_GC_START (id s) type cause concurrent false millis (compute_rel_addr_base c)) in
  let '(s, spaces) := fire_postponed_space_events s in
  let roots := if TraceObjectsGCRoots then Fired <$> RootPointers.fire_root_pointers anchors v else [] in
  (s, id s, before ++ [start] ++ spaces ++ roots).

Definition fire_gc_end (s : state) (type gc_id cause : Z) (failed gc_only : bool) (millis : Z) (c : collector) :
    state * list output :=
  let stop := FiredSync EventBuffer.Sync_Full gc_only
    (fire_gc_start_end anchors EVENTS_GC_END gc_id type cause false failed millis (compute_rel_addr_base c)) in
  let '(s, spaces) := fire_postponed_space_events s in
  let s := if is_synchronizing (sync s) then set_sync s (stop_synchronization (sync s)) else s in
  (s, [stop] ++ spaces).

(** ** Objects *)

(** The object at an address, and its site ([AllocationSiteStorage::load], if
    sites are saved). *)
Variable obj_at : Z -> oop.
Variable load : oop -> bool -> Z.

Definition fire_gc_keep_alive (synchronizing : bool) (a size : Z) (is_mark_valid : bool) : event :=
  if synchronizing then fire_sync_obj anchors (obj_at a) size (load (obj_at a) is_mark_valid)
  else EventsRuntime.fire_gc_keep_alive anchors a.

Definition fire_gc_move_slow (synchronizing : bool) (from to size : Z) : event :=
  if synchronizing then fire_sync_obj_from anchors from (obj_at to) size (load (obj_at to) true)
  else EventsRuntime.fire_gc_move_slow anchors from to.

Definition fire_gc_move_fast (synchronizing : bool) (rel_addr_base from to to_space : Z) : event :=
  if synchronizing then fire_sync_obj_from anchors from (obj_at to) 0 (load (obj_at to) true)
  else EventsRuntime.fire_gc_move_fast anchors rel_addr_base from to_space.

(** The objects of a region, one after the other. *)
Fixpoint objects (fuel : nat) (from to : Z) : list Z :=
  match fuel with
  | O => []
  | S fuel => if from <? to then from :: objects fuel (from + size (obj_at from) * HeapWordSize) to else []
  end.

(** The size in words bounds the number of objects. *)
Definition region_objects (from to : Z) : list Z := objects (Z.to_nat ((to - from) / HeapWordSize)) from to.

Definition fire_gc_keep_alive_region (synchronizing : bool) (from to : Z) (are_marks_valid : bool) : list event :=
  (fun a => fire_gc_keep_alive synchronizing a 0 are_marks_valid) <$> region_objects from to.

(** [num_of_objects] moves, of objects of the sizes found at the destination
    (or, where the mark bit map covers the source, in the bit map). *)
Fixpoint region_moves (size_of : Z -> Z -> Z) (n : nat) (from to : Z) : list (Z * Z * Z) :=
  match n with
  | O => []
  | S n =>
      let size := size_of from to in
      (from, to, size) :: region_moves size_of n (from + size * HeapWordSize) (to + size * HeapWordSize)
  end.

(** The bit map: the region it covers and the sizes in it. *)
Definition object_size (bitmap : option (Z * Z * (Z -> Z))) (from to : Z) : Z :=
  match bitmap with
  | Some (start, end_, obj_size) => if (start <=? from) && (from <? end_) then obj_size from else size (obj_at to)
  | None => size (obj_at to)
  end.

Definition fire_gc_move_region (synchronizing : bool) (bitmap : option (Z * Z * (Z -> Z))) (from to num_of_objects : Z) : list event :=
  if synchronizing then
    (fun m => fire_sync_obj_from anchors m.1.1 (obj_at m.1.2) (s32 m.2) (load (obj_at m.1.2) true)) <$>
      region_moves (object_size bitmap) (Z.to_nat num_of_objects) from to
  else [EventsRuntime.fire_gc_move_region anchors from to num_of_objects].

End Collections.

End EventsGCRuntime.

(** ** [GCMove]: adjacent moves as one region *)

Module GCMove.
Import EventsRuntime.

Record state := State { count : Z; first_from : Z; first_to : Z; next_from : Z; next_to : Z }.

Definition make : state := State 0 0 0 0 0.

(** A region: the first source and destination, and the number of objects. *)
Definition region : Type := Z * Z * Z.

Definition flush (s : state) : state * list region :=
  if 0 <? count s then (make, [(first_from s, first_to s, count s)]) else (s, []).

Section GCMove.
Variable TraceObjectsGC : bool.
Variable TraceObjectsGCMoveRegionALot : Z.

Definition fire (s : state) (from to size : Z) : state * list region :=
  if TraceObjectsGC then
    let '(s, out) :=
      if (next_from s =? from) && (next_to s =? to) then (s, [])
      else let '(s, out) := flush s in (State (count s) from to from to, out) in
    let s := State (s32 (count s + 1)) (first_from s) (first_to s) (next_from s + size * HeapWordSize)
      (next_to s + size * HeapWordSize) in
    if (0 <? TraceObjectsGCMoveRegionALot) && (TraceObjectsGCMoveRegionALot <=? count s) then
      let '(s, out') := flush s in (s, out ++ out')
    else (s, out)
  else (s, []).

(** The destructor. *)
Definition destroy (s : state) : list region := if TraceObjectsGC then (flush s).2 else [].

(** A compaction: moves of objects with their sizes. *)
Fixpoint fire_all (s : state) (moves : list (Z * Z * Z)) : list region :=
  match moves with
  | [] => destroy s
  | (from, to, size) :: moves => let '(s, out) := fire s from to size in out ++ fire_all s moves
  end.

End GCMove.

End GCMove.

(** ** Regions with the pointers of their objects *)

Module GCPointers.
Import EventType EventsRuntime.

(** Where the references of an object are: the elements of an array, or the
    maps of its class, each an offset and a count. *)
Inductive layout :=
| ObjArray (base length : Z)
| TypeArray
| Instance (nonstatic_oop_maps : list (Z * Z)).

Section Pointers.
Variable anchors : bool.
Variable rel_addr_base : Z.
Variable obj_at : Z -> oop.
Variable layout_at : Z -> layout.
(** The size of a reference field, and the reference read from one. *)
Variable heapOopSize : Z.
Variable decode_heap_oop : Z -> Z.

Definition oops (p : Z) (count : Z) : list Z := (fun i => decode_heap_oop (p + i * heapOopSize)) <$> seqZ 0 count.

(** The pointers that [add_obj_pointers] hands to the thread. *)
Definition obj_pointers (a : Z) : list Z :=
  match layout_at a with
  | ObjArray base length => oops base length
  | TypeArray => []
  | Instance maps => concat ((fun m => oops (a + m.1) m.2) <$> maps)
  end.

Definition add_obj_pointers (s : EventPointers.pointers) (a : Z) : option (EventPointers.pointers * list event) :=
  EventPointers.add_all anchors rel_addr_base s (obj_pointers a).

(** [bitmap] gives the sizes if there is one. *)
Fixpoint flush_g1_pointers (bitmap : option (Z -> Z)) (count : nat) (s : EventPointers.pointers) (from_addr to_addr : Z) :
    option (EventPointers.pointers * list event) :=
  match count with
  | O => Some (s, [])
  | S count =>
      let size := match bitmap with Some obj_size => obj_size from_addr | None => size (obj_at to_addr) end in
      let s := EventPointers.set_meta s EVENTS_GC_MOVE_SLOW to_addr true from_addr (-1) false in
      '(s, e1) ← add_obj_pointers s to_addr;
      '(s, e2) ← EventPointers.flush anchors rel_addr_base s;
      '(s, e3) ← flush_g1_pointers bitmap count s (from_addr + size * HeapWordSize) (to_addr + size * HeapWordSize);
      Some (s, e1 ++ e2 ++ e3)
  end.

Variable load : oop -> bool -> Z.

(** What [GCMove::flush] fires for a region. *)
Definition fire_region (TraceObjectsPointers UseG1 synchronizing : bool) (bitmap : option (Z * Z * (Z -> Z)))
    (s : EventPointers.pointers) (r : GCMove.region) : option (EventPointers.pointers * list event) :=
  if TraceObjectsPointers && UseG1 then flush_g1_pointers (snd <$> bitmap) (Z.to_nat r.2) s r.1.1 r.1.2
  else Some (s, EventsGCRuntime.fire_gc_move_region anchors obj_at load synchronizing bitmap r.1.1 r.1.2 r.2).

(** The regions of a compaction, one after the other. *)
Fixpoint fire_regions (TraceObjectsPointers UseG1 synchronizing : bool) (bitmap : option (Z * Z * (Z -> Z)))
    (s : EventPointers.pointers) (rs : list GCMove.region) : option (EventPointers.pointers * list event) :=
  match rs with
  | [] => Some (s, [])
  | r :: rs =>
      '(s, e1) ← fire_region TraceObjectsPointers UseG1 synchronizing bitmap s r;
      '(s, e2) ← fire_regions TraceObjectsPointers UseG1 synchronizing bitmap s rs;
      Some (s, e1 ++ e2)
  end.

End Pointers.

End GCPointers.

(** ** Synchronising objects that the collection does not visit *)

Module SyncTasks.
Import EventsRuntime EventSynchronization ObjectStartArray.

(** Tasks for the workers; [worker_id] is 0 if any worker may do it, else one
    more than the number of the worker that is to do it. *)
Inductive task :=
| FireThreadAliveEvents
| FireSyncEvents (bottom top worker_id : Z).

Section SyncTasks.
Variable anchors : bool.
Variable obj_at : Z -> oop.
Variable load : oop -> bool -> Z.
(** The threads of the VM: type, id and name. *)
Variable threads : list (Z * Z * list Z).

(** [_do_it] of both kinds of tasks, by worker [w]. *)
Definition _do_it (t : task) (w : Z) : list event :=
  match t with
  | FireThreadAliveEvents => (fun th => fire_thread_alive anchors th.1.1 th.1.2 th.2) <$> threads
  | FireSyncEvents bottom top worker_id =>
      if (0 <? worker_id) && negb (worker_id - 1 =? w) then []
      else (fun p => fire_sync_obj anchors (obj_at p) (s32 (size (obj_at p))) (load (obj_at p) true)) <$>
        EventsGCRuntime.region_objects obj_at bottom top
  end.

Variable type : EventSynchronizationType.
Variable TraceObjectsThreadEvents : bool.

Definition thread_tasks : list task :=
  if (bool_decide (type = OnMajor) || bool_decide (type = OnMinor)) && TraceObjectsThreadEvents
  then [FireThreadAliveEvents] else [].

(** The end of the chunk that begins at [chunk_bottom]; [None] if the fuel
    does not suffice. *)
Fixpoint chunk_top (fuel : nat) (a : array) (chunk_bottom top step_size multiplier : Z) : option Z :=
  match fuel with
  | O => None
  | S fuel =>
      let next := chunk_bottom + multiplier * step_size * HeapWordSize in
      chunk ← if top <=? next then Some top else object_start (fun p => size (obj_at p)) a next;
      if chunk =? chunk_bottom then chunk_top fuel a chunk_bottom top step_size (multiplier + 1) else Some chunk
  end.

Fixpoint chunks (fuel : nat) (a : array) (bottom top step_size : Z) : option (list task) :=
  if bottom <? top then
    match fuel with
    | O => None
    | S fuel' =>
        chunk ← chunk_top (Z.to_nat ((top - bottom) / HeapWordSize)) a bottom top step_size 1;
        rest ← chunks fuel' a chunk top step_size;
        Some (FireSyncEvents bottom chunk 0 :: rest)
    end
  else Some [].

(** The tasks put in the queue, with [a], [bottom] and [top] those of the old
    generation; as many steps as the space has words. *)
Definition enqueue_synchronization_tasks_for_parallel_old_gc (a : array) (bottom top workers : Z) : option (list task) :=
  objs ←
    (if bool_decide (type = OnMinor) then
      let step_size := (top - bottom) / HeapWordSize / (workers * 3) in
      if step_size =? 0 then Some [FireSyncEvents bottom top 0]
      else chunks (Z.to_nat ((top - bottom) / HeapWordSize)) a bottom top step_size
    else Some []);
  Some (thread_tasks ++ objs).

(** A region of the G1 collector. *)
Record region := Region { bottom : Z; top : Z; in_collection_set : bool; continuesHumongous : bool }.

Definition enqueue_synchronization_tasks_for_g1_gc (active_workers : Z) (regions : list region) : list task :=
  thread_tasks ++
  (if bool_decide (type = OnMinor) then
    concat (imap (fun index r =>
      if negb (in_collection_set r) && negb (continuesHumongous r)
      then [FireSyncEvents (bottom r) (top r) (Z.of_nat index mod active_workers + 1)] else []) regions)
  else []).

(** A generation that is not collected, by its objects. *)
Definition do_synchronization_tasks_for_generation_n (objs : list Z) : list event :=
  if bool_decide (type = NoSync) then []
  else (fun p => EventsGCRuntime.fire_gc_keep_alive anchors obj_at load true p 0 true) <$> objs.

(** The queue of the parallel collector hands each task to one worker. *)
Definition run_queue (assigned : list (task * Z)) : list event := concat ((fun tw => _do_it tw.1 tw.2) <$> assigned).

(** [run_task] of the gang has every worker execute the task. *)
Definition run_task (active_workers : Z) (t : task) : list event := concat (_do_it t <$> seqZ 0 active_workers).

Definition run_gang (active_workers : Z) (ts : list task) : list event := concat (run_task active_workers <$> ts).

End SyncTasks.

End SyncTasks.
