(* ===== verification/TraceSlaveParser.v ===== *)
(** * The analyzer's event parser ([parser/TraceSlaveParser.java])

    [evaluateEvent] reads one event from the words of a buffer and calls the
    event handlers; here it returns the calls.  [None] is an exception. *)

From S2P Require Import Prelude EventsRuntime.
From Stdlib Require Import ZArith Lia.

Module TraceSlaveParser.
Import EventType.

(** ** Words *)

Definition HEX_WORD : Z := -16777216.
Definition ANCHOR_MASK : Z := -65281.
Definition UNDEFINED_LENGTH : Z := -1.
Definition ARRAY_SIZE_MAX_SMALL : Z := 255.
Definition NULL_PTR : Z := -1.
Definition ALLOCATED_TYPE_IDENTIFIER_UNKNOWN : Z := 0.

Fixpoint spread (n : nat) (value : Z) : Z :=
  match n with
  | O => value
  | S n => spread n (value .| (value ≫ 8))
  end.

(** The bytes [from] to [to] of [word], the highest one numbered [0]; [word]
    is a [long]. *)
Definition recoverValue (word from to : Z) : Z :=
  let start := s32 (u32 HEX_WORD ≫ (8 * from)) in
  let value := spread (Z.to_nat (to - from)) start in
  s32 ((word .& value) ≫ (8 * (3 - to))).

Definition getNextWord (ws : list Z) : option (Z * list Z) :=
  match ws with [] => None | w :: ws => Some (w, ws) end.

Definition NEXT_DOUBLE_WORD_MASK : Z := (1 ≪ 32) - 1.

Definition getNextDoubleWord (ws : list Z) : option (Z * list Z) :=
  '(low, ws) ← getNextWord ws;
  '(high, ws) ← getNextWord ws;
  Some ((low .& NEXT_DOUBLE_WORD_MASK) .| s64 ((high .& NEXT_DOUBLE_WORD_MASK) ≪ 32), ws).

(** The characters of one word up to a zero, and whether there was one. *)
Fixpoint chars (n : nat) (word : Z) : list Z * bool :=
  match n with
  | O => ([], false)
  | S n =>
      let c := (word ≫ (Z.of_nat n * 8)) .& 255 in
      if c =? 0 then ([], true)
      else let '(cs, stop) := chars n word in (c :: cs, stop)
  end.

(** At most [n] words. *)
Fixpoint getChars (n : nat) (ws : list Z) : option (list Z * list Z) :=
  match n with
  | O => Some ([], ws)
  | S n =>
      '(word, ws) ← getNextWord ws;
      let '(cs, stop) := chars 4 word in
      if stop : bool then Some (cs, ws)
      else '(cs', ws) ← getChars n ws; Some (cs ++ cs', ws)
  end.

Definition getString (length : Z) (ws : list Z) : option (list Z * list Z) :=
  getChars (Z.to_nat ((length + 3) / 4)) ws.

(** ** Handler calls *)

Inductive call :=
| doParseTlabAlloc (size addr : Z)
| doParsePlabAlloc (size addr : Z)
| doParseObjAllocFastIr (type site : Z)
| doParseObjAllocFastCi (type site allocatedType : Z) (isArray : bool) (arrayLength : Z)
| doParseObjAllocFastC2DeviantType (type header site allocatedType : Z) (isArray : bool) (arrayLength : Z)
| doParseObjAllocNormalIr (type site addr : Z)
| doParseObjAllocNormalCi (type site allocatedType addr : Z) (isArray : bool) (arrayLength : Z)
| doParseObjAllocSlowCiIr_Deviant (type allocatedType site addr : Z) (isArray : bool) (arrayLength realAllocatedTypeId : Z)
| doParseObjAllocSlow (type site allocatedType addr : Z) (isArray : bool) (arrayLength size : Z)
| doParseGCStart (gcType gcCause id time : Z) (concurrent : bool)
| doParseGCEnd (gcType gcCause id time : Z) (concurrent failed : bool)
| doParseGCInfo (index id : Z)
| doParseGCFailed (index : Z)
| doParseGCInterrupt (id address : Z)
| doParseGCContinue (id address : Z)
| doGCMove (type fromAddr toAddr : Z) (toSpaceType : option Z)
| doKeepAlive (type addr : Z)
| doPtrEvent (type fromAddr toAddr : Z) (ptrs : list Z)
| doParseGCMoveRegion (type fromAddr toAddr numOfObjects : Z)
| doParseGCClassLoaderRootPtr (ptr : Z) (loaderName : list Z)
| doParseGCClassRootPtr (ptr classId : Z)
| doParseGCStaticFieldRootPtr (ptr classId offset : Z)
| doParseGCLocalVariableRootPtr (ptr threadId classId methodId slot : Z)
| doParseGCVMInternalThreadDataRootPtr (ptr threadId : Z)
| doParseGCCodeBlobRootPtr (ptr classId methodId : Z)
| doParseGCJNILocalRootPtr (ptr threadId : Z)
| doParseGCJNIGlobalRootPtr (ptr : Z) (weak : bool)
| doParseGCOtherRootPtr (ptr rootType : Z)
| doParseGCDebugRootPtr (ptr : Z) (vmCall : list Z)
| doParseSyncObj (type site allocatedType fromAddr toAddr length size : Z)
| doParseThreadAlive (header id : Z) (name : list Z)
| doParseThreadDeath (id : Z)
| doParseSpaceCreate (index startAddr size : Z)
| doParseSpaceAlloc (index spaceMode spaceType : Z)
| doParseSpaceRelease (index : Z)
| doParseSpaceRedefine (index startAddr size : Z)
| doParseSpaceDestroy (firstIndex nRegions : Z)
| doParseGCTag (tagText : list Z).

Section Parser.

(** The symbols: the type of an allocation site, whether a type is an array,
    a [MirrorAllocatedType], or named [Ljava/lang/Class;]; [move_target] is the
    address the heap model assigns to an object moved into a space. *)
Variable anchors : bool.
Variable sites : Z -> option Z.
Variable types_isArray : Z -> bool.
Variable types_isMirror : Z -> bool.
Variable types_isClass : Z -> bool.
Variable move_target : Z -> Z -> Z.

(** ** Allocations *)

(** A 15-bit site, or a 23-bit site if bit 15 of the first two bytes is set. *)
Definition recoverSite (word : Z) : Z * bool :=
  let allocationSiteId := recoverValue word 1 2 in
  if negb ((allocationSiteId ≫ 15) .& 1 =? 0) then (recoverValue word 1 3, true) else (allocationSiteId, false).

Definition recoverArrayLength (word : Z) (ws : list Z) : option (Z * list Z) :=
  let arrayLength := recoverValue word 3 3 in
  if arrayLength =? ARRAY_SIZE_MAX_SMALL then getNextWord ws else Some (arrayLength, ws).

Definition arrayLengthIf (b : bool) (word : Z) (ws : list Z) : option (Z * list Z) :=
  if b then recoverArrayLength word ws else Some (UNDEFINED_LENGTH, ws).

Definition parseObjAllocFastCi (type word : Z) (ws : list Z) : option (list call * list Z) :=
  let '(site, _) := recoverSite word in
  allocatedType ← sites site;
  let isArray := types_isArray allocatedType in
  '(arrayLength, ws) ← arrayLengthIf isArray word ws;
  Some ([doParseObjAllocFastCi type site allocatedType isArray arrayLength], ws).

Definition parseObjAllocFastC2DeviantType (type header : Z) (ws : list Z) : option (list call * list Z) :=
  let '(site, _) := recoverSite header in
  '(allocatedType, ws) ← getNextWord ws;
  let isArray := types_isArray allocatedType in
  '(arrayLength, ws) ← arrayLengthIf isArray header ws;
  Some ([doParseObjAllocFastC2DeviantType type header site allocatedType isArray arrayLength], ws).

Definition parseObjAllocFastIr (type word : Z) (ws : list Z) : option (list call * list Z) :=
  Some ([doParseObjAllocFastIr type (recoverSite word).1], ws).

Definition parseObjAllocNormalCi (type word : Z) (ws : list Z) : option (list call * list Z) :=
  let '(site, _) := recoverSite word in
  allocatedType ← sites site;
  if types_isClass allocatedType then None
  else
    let isArray := types_isArray allocatedType in
    '(addr, ws) ← getNextDoubleWord ws;
    '(arrayLength, ws) ← arrayLengthIf isArray word ws;
    Some ([doParseObjAllocNormalCi type site allocatedType addr isArray arrayLength], ws).

Definition parseObjAllocNormalIr (type word : Z) (ws : list Z) : option (list call * list Z) :=
  '(addr, ws) ← getNextDoubleWord ws;
  Some ([doParseObjAllocNormalIr type (recoverSite word).1 addr], ws).

Definition is_deviant (type : Z) : bool :=
  (type =? EVENTS_C1_ALLOC_SLOW_DEVIANT_TYPE) || (type =? EVENTS_IR_ALLOC_SLOW_DEVIANT_TYPE) ||
  (type =? EVENTS_C2_ALLOC_SLOW_DEVIANT_TYPE).

Definition parseObjAllocSlowCiIr_Deviant (type word : Z) (ws : list Z) : option (list call * list Z) :=
  let '(site, bigAllocSite) := recoverSite word in
  '(addr, ws) ← getNextDoubleWord ws;
  '(arrayLength, ws) ← arrayLengthIf (negb bigAllocSite) word ws;
  '(realAllocatedTypeId, ws) ← (if is_deviant type then getNextWord ws else Some (-1, ws));
  allocatedType ← sites site;
  let isArray := types_isArray allocatedType in
  Some ([doParseObjAllocSlowCiIr_Deviant type allocatedType site addr isArray (if isArray then arrayLength else -1)
          realAllocatedTypeId], ws).

Definition parseObjAllocSlow (type word : Z) (ws : list Z) : option (list call * list Z) :=
  let '(site, bigAllocSite) := recoverSite word in
  siteType ← sites site;
  '(addr, ws) ← getNextDoubleWord ws;
  '(arrayLength, ws) ← arrayLengthIf (negb bigAllocSite) word ws;
  '(allocatedType, ws) ← (if siteType =? ALLOCATED_TYPE_IDENTIFIER_UNKNOWN then getNextWord ws else Some (siteType, ws));
  '(size, ws) ← (if types_isMirror allocatedType then getNextWord ws else Some (UNDEFINED_LENGTH, ws));
  let isArray := negb (types_isMirror allocatedType) && types_isArray allocatedType in
  Some ([doParseObjAllocSlow type site allocatedType addr isArray (if isArray then arrayLength else UNDEFINED_LENGTH) size], ws).

Definition parseLabAlloc (k : Z -> Z -> call) (ws : list Z) : option (list call * list Z) :=
  '(size, ws) ← getNextDoubleWord ws;
  '(addr, ws) ← getNextDoubleWord ws;
  Some ([k (s32 size) addr], ws).

(** ** Pointers *)

Definition heapWordSize : Z := 8.
Definition MAX_PTRS_PER_EVENT : Z := 12.

(** The pointers from index [i] on, given the previous one relative to [ref]. *)
Fixpoint parsePointers_loop (n : nat) (ptrKinds ref lastRef : Z) (ws : list Z) : option (list Z * list Z) :=
  match n with
  | O => Some ([], ws)
  | S n =>
      let kind := (ptrKinds ≫ (Z.of_nat n * 2)) .& 3 in
      if kind =? 1 then
        '(w, ws) ← getNextWord ws;
        let addr := s64 (w + lastRef) in
        '(ptrs, ws) ← parsePointers_loop n ptrKinds ref addr ws;
        Some (s64 (ref - s64 (addr * heapWordSize)) :: ptrs, ws)
      else if kind =? 2 then
        '(addr, ws) ← getNextDoubleWord ws;
        '(ptrs, ws) ← parsePointers_loop n ptrKinds ref (s64 (ref - addr) ÷ heapWordSize) ws;
        Some (addr :: ptrs, ws)
      else if kind =? 3 then
        '(ptrs, ws) ← parsePointers_loop n ptrKinds ref lastRef ws;
        Some (NULL_PTR :: ptrs, ws)
      else Some ([], ws)
  end.

Definition parsePointers (word ref : Z) (ws : list Z) : option (list Z * list Z) :=
  let ptrKinds := recoverValue word 1 3 in
  if ptrKinds =? 0 then Some ([], ws)
  else parsePointers_loop (Z.to_nat MAX_PTRS_PER_EVENT) ptrKinds ref 0 ws.

(** ** Garbage collections *)

(** [RelAddrFactory], with the alignment of objects. *)
Definition alignment : Z := 8.
Definition ADDR_MASK : Z := -4.
Definition createRelAddr (base rel_addr : Z) : Z := s64 (base + s64 ((rel_addr .& NEXT_DOUBLE_WORD_MASK) * alignment)).
Definition getDefinedAddrOnly (addr : Z) : Z := addr .& ADDR_MASK.

(** The type, cause, number, time and flags, and the new base. *)
Definition parseGCMeta (word : Z) (ws : list Z) : option (Z * Z * Z * Z * Z * Z * list Z) :=
  let gcType := recoverValue word 1 1 in
  if 5 <=? gcType then None
  else
    let gcCause := recoverValue word 2 2 in
    let flags := recoverValue word 3 3 in
    '(id, ws) ← getNextWord ws;
    '(time, ws) ← getNextDoubleWord ws;
    '(base, ws) ← getNextDoubleWord ws;
    Some (gcType, gcCause, swrap 16 id, time, flags, base, ws).

Definition parseGCStart (word : Z) (ws : list Z) : option (list call * Z * list Z) :=
  '(gcType, gcCause, id, time, flags, base, ws) ← parseGCMeta word ws;
  Some ([doParseGCStart gcType gcCause id time (negb (flags .& 2 =? 0))], base, ws).

Definition parseGCEnd (word : Z) (ws : list Z) : option (list call * Z * list Z) :=
  '(gcType, gcCause, id, time, flags, base, ws) ← parseGCMeta word ws;
  Some ([doParseGCEnd gcType gcCause id time (negb (flags .& 2 =? 0)) (negb (flags .& 1 =? 0))], base, ws).

Definition parseGCInfo (word : Z) (ws : list Z) : option (list call * list Z) :=
  '(id, ws) ← getNextWord ws;
  Some ([doParseGCInfo (word .& 16777215) id], ws).

Definition parseGCFailed (word : Z) (ws : list Z) : option (list call * list Z) :=
  Some ([doParseGCFailed (word .& 16777215)], ws).

Definition parseGCPause (k : Z -> Z -> call) (ws : list Z) : option (list call * list Z) :=
  '(id, ws) ← getNextWord ws;
  '(address, ws) ← getNextDoubleWord ws;
  Some ([k id address], ws).

Definition parseGCMoveFast_WideOrNarrow_Ptr (base type word toSpace : Z) (ws : list Z) : option (list call * list Z) :=
  '(fromAddr, ws) ←
    (if type =? EVENTS_GC_MOVE_FAST_NARROW then
       Some (createRelAddr base (s32 (getDefinedAddrOnly (recoverValue word 1 3) ≫ 2)), ws)
     else if (type =? EVENTS_GC_MOVE_FAST_WIDE) || (type =? EVENTS_GC_MOVE_FAST_WIDE_PTR) then getNextDoubleWord ws
     else '(rel, ws) ← getNextWord ws; Some (createRelAddr base rel, ws));
  let assignedAddr := move_target fromAddr toSpace in
  if (type =? EVENTS_GC_MOVE_FAST_PTR) || (type =? EVENTS_GC_MOVE_FAST_WIDE_PTR) then
    '(ptrs, ws) ← parsePointers word assignedAddr ws;
    Some ([doGCMove type fromAddr (-1) (Some toSpace); doPtrEvent type fromAddr assignedAddr ptrs], ws)
  else Some ([doGCMove type fromAddr (-1) (Some toSpace)], ws).

Definition parseGCMoveSlow (type word : Z) (ws : list Z) : option (list call * list Z) :=
  '(fromAddr, ws) ← getNextDoubleWord ws;
  '(toAddr, ws) ← getNextDoubleWord ws;
  if type =? EVENTS_GC_MOVE_SLOW_PTR then
    '(ptrs, ws) ← parsePointers word toAddr ws;
    Some ([doGCMove type fromAddr toAddr None; doPtrEvent type fromAddr toAddr ptrs], ws)
  else Some ([doGCMove type fromAddr toAddr None], ws).

Definition parseGCKeepAlive (type word : Z) (ws : list Z) : option (list call * list Z) :=
  '(addr, ws) ← getNextDoubleWord ws;
  if type =? EVENTS_GC_KEEP_ALIVE_PTR then
    '(ptrs, ws) ← parsePointers word addr ws;
    Some ([doKeepAlive type addr; doPtrEvent type addr addr ptrs], ws)
  else Some ([doKeepAlive type addr], ws).

Definition parseGCObjPtr (type word : Z) (ws : list Z) : option (list call * list Z) :=
  '(addr, ws) ← getNextDoubleWord ws;
  '(ptrs, ws) ← parsePointers word addr ws;
  Some ([doPtrEvent type (-1) addr ptrs], ws).

Definition parseGCMoveRegion (type word : Z) (ws : list Z) : option (list call * list Z) :=
  '(fromAddr, ws) ← getNextDoubleWord ws;
  '(toAddr, ws) ← getNextDoubleWord ws;
  Some ([doParseGCMoveRegion type fromAddr toAddr (recoverValue word 1 3)], ws).

(** ** Roots *)

Definition MAX_ROOTS_PER_EVENT : Z := 3.

(** The call for a root of the type numbered [rootType]. *)
Definition parseRoot (ptr rootType : Z) (ws : list Z) : option (call * list Z) :=
  if rootType =? 0 then
    '(n, ws) ← getNextWord ws; '(loaderName, ws) ← getString n ws;
    Some (doParseGCClassLoaderRootPtr ptr loaderName, ws)
  else if rootType =? 1 then
    '(classId, ws) ← getNextWord ws; Some (doParseGCClassRootPtr ptr classId, ws)
  else if rootType =? 2 then
    '(classId, ws) ← getNextWord ws; '(offset, ws) ← getNextWord ws;
    Some (doParseGCStaticFieldRootPtr ptr classId offset, ws)
  else if rootType =? 3 then
    '(threadId, ws) ← getNextDoubleWord ws; '(classId, ws) ← getNextWord ws; '(methodId, ws) ← getNextWord ws;
    '(slot, ws) ← getNextWord ws;
    Some (doParseGCLocalVariableRootPtr ptr threadId classId methodId slot, ws)
  else if rootType =? 4 then
    '(threadId, ws) ← getNextDoubleWord ws; Some (doParseGCVMInternalThreadDataRootPtr ptr threadId, ws)
  else if rootType =? 5 then
    '(classId, ws) ← getNextWord ws; '(methodId, ws) ← getNextWord ws;
    Some (doParseGCCodeBlobRootPtr ptr classId methodId, ws)
  else if rootType =? 6 then
    '(threadId, ws) ← getNextDoubleWord ws; Some (doParseGCJNILocalRootPtr ptr threadId, ws)
  else if rootType =? 7 then
    '(weak, ws) ← getNextWord ws; Some (doParseGCJNIGlobalRootPtr ptr (negb (weak =? 0)), ws)
  else if rootType =? 16 then
    '(n, ws) ← getNextWord ws; '(vmCall, ws) ← getString n ws; Some (doParseGCDebugRootPtr ptr vmCall, ws)
  else if (8 <=? rootType) && (rootType <=? 15) then Some (doParseGCOtherRootPtr ptr rootType, ws)
  else None.

Fixpoint parseRoots (n : nat) (ws : list Z) : option (list call * list Z) :=
  match n with
  | O => Some ([], ws)
  | S n =>
      '(ptr, ws) ← getNextDoubleWord ws;
      if ptr =? -1 then Some ([], ws)
      else
        '(rootType, ws) ← getNextWord ws;
        '(c, ws) ← parseRoot (if ptr =? 0 then NULL_PTR else ptr) rootType ws;
        '(cs, ws) ← parseRoots n ws;
        Some (c :: cs, ws)
  end.

Definition parseGCRootPtr (ws : list Z) : option (list call * list Z) := parseRoots (Z.to_nat MAX_ROOTS_PER_EVENT) ws.

(** ** Synchronisation, threads, spaces *)

Definition parseSyncObj (type word : Z) (ws : list Z) : option (list call * list Z) :=
  '(allocatedType, ws) ← getNextWord ws;
  '(fromAddr, ws) ← getNextDoubleWord ws;
  '(toAddr, ws) ← (if type =? EVENTS_SYNC_OBJ then getNextDoubleWord ws else Some (fromAddr, ws));
  '(length, ws) ← (if types_isArray allocatedType then getNextWord ws else Some (UNDEFINED_LENGTH, ws));
  '(size, ws) ← (if types_isClass allocatedType then getNextWord ws else Some (0, ws));
  Some ([doParseSyncObj type (recoverValue word 1 3) allocatedType fromAddr toAddr length size], ws).

Definition parseThreadAlive (header : Z) (ws : list Z) : option (list call * list Z) :=
  '(id, ws) ← getNextDoubleWord ws;
  '(name, ws) ← getChars 12 ws;
  Some ([doParseThreadAlive header id name], ws).

Definition parseThreadDeath (ws : list Z) : option (list call * list Z) :=
  '(id, ws) ← getNextDoubleWord ws;
  Some ([doParseThreadDeath id], ws).

Definition parseSpaceBounds (k : Z -> Z -> Z -> call) (ws : list Z) : option (list call * list Z) :=
  '(index, ws) ← getNextWord ws;
  '(startAddr, ws) ← getNextDoubleWord ws;
  '(size, ws) ← getNextDoubleWord ws;
  Some ([k index startAddr size], ws).

Definition parseSpaceAlloc (word : Z) (ws : list Z) : option (list call * list Z) :=
  let spaceType := (word ≫ 18) .& 255 in
  let spaceMode := (word ≫ 10) .& 255 in
  if (4 <=? spaceType) || (3 <=? spaceMode) then None
  else '(index, ws) ← getNextWord ws; Some ([doParseSpaceAlloc index spaceMode spaceType], ws).

Definition parseSpaceRelease (ws : list Z) : option (list call * list Z) :=
  '(index, ws) ← getNextWord ws;
  Some ([doParseSpaceRelease index], ws).

Definition parseSpaceDestroy (ws : list Z) : option (list call * list Z) :=
  '(firstIndex, ws) ← getNextWord ws;
  '(nRegions, ws) ← getNextDoubleWord ws;
  Some ([doParseSpaceDestroy firstIndex nRegions], ws).

Definition parseGCTag (ws : list Z) : option (list call * list Z) :=
  '(n, ws) ← getNextWord ws;
  '(tagText, ws) ← getString n ws;
  Some ([doParseGCTag tagText], ws).

(** ** One event *)

(** The calls for an event of type [type] with header [word]. *)
Definition parseBody (base type word toSpace : Z) (ws : list Z) : option (list call * list Z) :=
  if type =? EVENTS_TLAB_ALLOC then parseLabAlloc doParseTlabAlloc ws
  else if type =? EVENTS_PLAB_ALLOC then parseLabAlloc doParsePlabAlloc ws
  else if type =? EVENTS_IR_ALLOC_FAST then parseObjAllocFastIr type word ws
  else if (type =? EVENTS_C1_ALLOC_FAST) || (type =? EVENTS_C2_ALLOC_FAST) then parseObjAllocFastCi type word ws
  else if type =? EVENTS_IR_ALLOC_NORMAL then parseObjAllocNormalIr type word ws
  else if (type =? EVENTS_C1_ALLOC_NORMAL) || (type =? EVENTS_C2_ALLOC_NORMAL) then parseObjAllocNormalCi type word ws
  else if type =? EVENTS_ALLOC_SLOW then parseObjAllocSlow type word ws
  else if (type =? EVENTS_IR_ALLOC_SLOW) || (type =? EVENTS_C1_ALLOC_SLOW) || (type =? EVENTS_C2_ALLOC_SLOW) ||
          is_deviant type then parseObjAllocSlowCiIr_Deviant type word ws
  else if (type =? EVENTS_GC_MOVE_FAST) || (type =? EVENTS_GC_MOVE_FAST_WIDE) || (type =? EVENTS_GC_MOVE_FAST_NARROW) ||
          (type =? EVENTS_GC_MOVE_FAST_PTR) || (type =? EVENTS_GC_MOVE_FAST_WIDE_PTR) then
    parseGCMoveFast_WideOrNarrow_Ptr base type word toSpace ws
  else if (type =? EVENTS_GC_MOVE_SLOW) || (type =? EVENTS_GC_MOVE_SLOW_PTR) then parseGCMoveSlow type word ws
  else if (type =? EVENTS_GC_KEEP_ALIVE) || (type =? EVENTS_GC_KEEP_ALIVE_PTR) then parseGCKeepAlive type word ws
  else if type =? EVENTS_GC_ROOT_PTR then parseGCRootPtr ws
  else if (type =? EVENTS_GC_PTR_EXTENSION) || (type =? EVENTS_GC_UPDATE_PTR_PREMOVE) ||
          (type =? EVENTS_GC_UPDATE_PTR_POSTMOVE) || (type =? EVENTS_GC_PTR_MULTITHREADED) then parseGCObjPtr type word ws
  else if type =? EVENTS_GC_MOVE_REGION then parseGCMoveRegion type word ws
  else if (type =? EVENTS_SYNC_OBJ_NARROW) || (type =? EVENTS_SYNC_OBJ) then parseSyncObj type word ws
  else if type =? EVENTS_THREAD_ALIVE then parseThreadAlive word ws
  else if type =? EVENTS_THREAD_DEATH then parseThreadDeath ws
  else if type =? EVENTS_C2_ALLOC_FAST_DEVIANT_TYPE then parseObjAllocFastC2DeviantType type word ws
  else if type =? EVENTS_NOP then Some ([], ws)
  else if type =? EVENTS_SPACE_CREATE then parseSpaceBounds doParseSpaceCreate ws
  else if type =? EVENTS_SPACE_ALLOC then parseSpaceAlloc word ws
  else if type =? EVENTS_SPACE_RELEASE then parseSpaceRelease ws
  else if type =? EVENTS_SPACE_REDEFINE then parseSpaceBounds doParseSpaceRedefine ws
  else if type =? EVENTS_SPACE_DESTROY then parseSpaceDestroy ws
  else if type =? EVENTS_GC_INFO then parseGCInfo word ws
  else if type =? EVENTS_GC_FAILED then parseGCFailed word ws
  else if type =? EVENTS_GC_INTERRUPT then parseGCPause doParseGCInterrupt ws
  else if type =? EVENTS_GC_CONTINUE then parseGCPause doParseGCContinue ws
  else if type =? EVENTS_TAG then parseGCTag ws
  else None.

(** The anchor after an event of type [type]. *)
Definition checkAnchor (type : Z) (ws : list Z) : option (list Z) :=
  if anchors then
    '(anchor, ws) ← getNextWord ws;
    if (anchor .& ANCHOR_MASK =? ANCHOR_MASK) && ((anchor .& Z.lnot ANCHOR_MASK) ≫ 8 =? type) then Some ws else None
  else Some ws.

(** [base] is the state of the [RelAddrFactory]. *)
Definition evaluateEvent (base : Z) (ws : list Z) : option (list call * Z * list Z) :=
  '(word, ws) ← getNextWord ws;
  let recovered := recoverValue (word .& 4294967295) 0 0 in
  let toSpace := recovered .& 3 in
  let type := recovered ≫ 2 in
  '(calls, base, ws) ←
    (if type =? EVENTS_GC_START then parseGCStart word ws
     else if type =? EVENTS_GC_END then parseGCEnd word ws
     else '(calls, ws) ← parseBody base type word toSpace ws; Some (calls, base, ws));
  ws ← checkAnchor type ws;
  Some (calls, base, ws).

(** The events of a buffer. *)
Fixpoint evaluateEvents (fuel : nat) (base : Z) (ws : list Z) : option (list (list call) * Z) :=
  match fuel, ws with
  | _, [] => Some ([], base)
  | O, _ => None
  | S fuel, _ =>
      '(calls, base, ws) ← evaluateEvent base ws;
      '(rest, base) ← evaluateEvents fuel base ws;
      Some (calls :: rest, base)
  end.

End Parser.

End TraceSlaveParser.
