(* ===== verification/ParserThreads.v ===== *)
(** * The threads of the analyzer
      ([parser/TraceParser.java], [parser/TraceSlaveParser.java],
      [parser/ThreadLocalHeap.kt])

    The dispatcher reads the buffers of the trace file, the master gives each
    one to the heap of the thread that filled it, and the slaves parse what
    the heaps hold.  A step is what one of these threads does between two
    points at which another one can interfere: an operation on a blocking
    queue, or a [synchronized] block.  [Blocks] is a thread that waits,
    [Wrong] an exception.  The parsing of an entry, from [Begin] to [End], is
    that of [TraceSlaveParser]; here it always comes to its end. *)

From stdpp Require Import gmap.
From S2P Require Import Prelude EventsWriter EventBuffers.
From Stdlib Require Import ZArith Lia.

Module ParserThreads.
Import TraceReader.

(** ** The state *)

(** A [QueueEntry] of the queues: its sync level is not [null], which the
    constructor rejects. *)
Record chunk := Chunk { thread : Z; buffer : list Z; position : Z; isCompressed : bool; sync : SyncLevel }.

Definition limit (c : chunk) : Z := Z.of_nat (length (buffer c)).

#[global] Instance SyncLevel_eq_dec : EqDecision SyncLevel.
Proof. solve_decision. Defined.

#[global] Instance chunk_eq_dec : EqDecision chunk.
Proof. solve_decision. Defined.

Inductive heap_state := STATE_PARKED | STATE_IN_QUEUE | STATE_IN_PROCESS | STATE_IN_QUEUE_FOR_CLEAN_UP.

#[global] Instance heap_state_eq_dec : EqDecision heap_state.
Proof. solve_decision. Defined.

Record ThreadLocalHeap := Heap { internalThreadName : Z; state : heap_state; queue : list chunk }.

Definition set_state (s : heap_state) (h : ThreadLocalHeap) : ThreadLocalHeap := Heap (internalThreadName h) s (queue h).
Definition set_queue (q : list chunk) (h : ThreadLocalHeap) : ThreadLocalHeap := Heap (internalThreadName h) (state h) q.

(** Where the dispatcher is: before a frame, waiting with a frame it has
    counted, behind the [NULL] entry. *)
Inductive dispatcher_phase := Reading | Full (c : chunk) | IO_finished.

(** What the master does when the heaps it waits for are parked. *)
Inductive continuation :=
| ThenCleanUps (c : option chunk)
| ThenRemove (c : chunk)
| ThenAdd (c : chunk)
| ThenTake
| ThenFinish.

(** Where the master is.  The entry is [None] for [QueueEntry.NULL]; [todo]
    are the heaps the loop has still to visit. *)
Inductive master_phase :=
| Taking
| Waiting (todo : list nat) (k : continuation)
| CleaningUp (todo : list nat) (c : option chunk)
| Removing (c : chunk)
| Adding (c : chunk)
| Putting (c : chunk) (r : nat)
| Finished.

(** Where a slave is, with the heap it has taken, [cleanUp] and [entry]. *)
Inductive slave_phase :=
| Idle
| Took (r : nat)
| Polling (r : nat) (cleanUp : bool)
| Parsing (r : nat) (cleanUp : bool) (entry : chunk)
| CleanUp (r : nat)
| Parking (r : nat).

(** What the slaves do to the workspace, in the order of time. *)
Inductive event := Begin (c : chunk) | End (c : chunk) | Cleaned (thread : Z).

(** [chunks] and [masterQueue] are the two blocking queues, [None] is
    [QueueEntry.NULL].  A heap is named by its place in [heaps]; one that the
    master removed from [threads] stays there.  [handed] is the specification's
    record of the entries the master has given to a heap. *)
Record world := World {
  scanner : list chunk;
  dispatcher : dispatcher_phase;
  chunks : list (option chunk);
  queueSize : Z;
  threads : gmap Z nat;
  heaps : list ThreadLocalHeap;
  masterQueue : list nat;
  master : master_phase;
  slaves : list slave_phase;
  log : list event;
  handed : list chunk;
}.

Definition set_dispatcher sc d ch sz (w : world) : world :=
  World sc d ch sz (threads w) (heaps w) (masterQueue w) (master w) (slaves w) (log w) (handed w).
Definition set_master (m : master_phase) (w : world) : world :=
  World (scanner w) (dispatcher w) (chunks w) (queueSize w) (threads w) (heaps w) (masterQueue w) m (slaves w) (log w) (handed w).
Definition set_chunks (ch : list (option chunk)) (w : world) : world :=
  set_dispatcher (scanner w) (dispatcher w) ch (queueSize w) w.
Definition set_queueSize (sz : Z) (w : world) : world :=
  set_dispatcher (scanner w) (dispatcher w) (chunks w) sz w.
Definition set_threads (th : gmap Z nat) (w : world) : world :=
  World (scanner w) (dispatcher w) (chunks w) (queueSize w) th (heaps w) (masterQueue w) (master w) (slaves w) (log w) (handed w).
Definition set_heaps (hs : list ThreadLocalHeap) (w : world) : world :=
  World (scanner w) (dispatcher w) (chunks w) (queueSize w) (threads w) hs (masterQueue w) (master w) (slaves w) (log w) (handed w).
Definition set_masterQueue (q : list nat) (w : world) : world :=
  World (scanner w) (dispatcher w) (chunks w) (queueSize w) (threads w) (heaps w) q (master w) (slaves w) (log w) (handed w).
Definition set_slave (i : nat) (p : slave_phase) (w : world) : world :=
  World (scanner w) (dispatcher w) (chunks w) (queueSize w) (threads w) (heaps w) (masterQueue w) (master w) (<[i := p]> (slaves w)) (log w) (handed w).
Definition record (e : event) (w : world) : world :=
  World (scanner w) (dispatcher w) (chunks w) (queueSize w) (threads w) (heaps w) (masterQueue w) (master w) (slaves w) (log w ++ [e]) (handed w).
Definition hand (c : chunk) (w : world) : world :=
  World (scanner w) (dispatcher w) (chunks w) (queueSize w) (threads w) (heaps w) (masterQueue w) (master w) (slaves w) (log w) (handed w ++ [c]).

Definition set_heap (r : nat) (h : ThreadLocalHeap) (w : world) : world := set_heaps (<[r := h]> (heaps w)) w.
Definition enqueue (r : nat) (w : world) : world := set_masterQueue (masterQueue w ++ [r]) w.

(** [None] in [heaps] does not happen: a reference is to an object. *)
Definition on_heap (r : nat) (w : world) (f : ThreadLocalHeap -> result world) : result world :=
  match heaps w !! r with Some h => f h | None => Wrong end.

(** ** The dispatcher *)

(** The entries the dispatcher makes of the frames of the file, the first of
    which begins at [start]: [position] is behind the thread and the metadata
    word. *)
Fixpoint entries_from (start : Z) (frames : list QueueEntry) : option (list chunk) :=
  match frames with
  | [] => Some []
  | e :: frames =>
      s ← TraceReader.sync e;
      let position := start + 12 in
      rest ← entries_from (position + Z.of_nat (length (TraceReader.buffer e))) frames;
      Some (Chunk (TraceReader.thread e) (TraceReader.buffer e) position (TraceReader.isCompressed e) s :: rest)
  end.

Section Steps.
Variable MAX_QUEUE_SIZE : Z.

(** The sizes of the buffers between the dispatcher and the slaves add up to
    at most the size of the file, which is a [long]. *)
Definition dispatch (w : world) : result world :=
  match dispatcher w with
  | Reading =>
      match scanner w with
      | c :: rest => Done (set_dispatcher rest (Full c) (chunks w) (queueSize w + limit c) w)
      | [] => Done (set_dispatcher [] IO_finished (chunks w ++ [None]) (queueSize w) w)
      end
  | Full c =>
      if queueSize w >? MAX_QUEUE_SIZE then Blocks
      else Done (set_dispatcher (scanner w) Reading (chunks w ++ [Some c]) (queueSize w) w)
  | IO_finished => Blocks
  end.

(** ** The master *)

(** The heaps of [threads], in the order of its key set. *)
Definition values (w : world) : list nat := snd <$> map_to_list (threads w).

(** One turn of [waitUntilParked]'s loop; the first alternative is its end. *)
Definition waitUntilParked (todo : list nat) (k : continuation) (w : world) : result world :=
  match todo with
  | [] => Done (set_master (match k with
      | ThenCleanUps c => CleaningUp (values w) c
      | ThenRemove c => Removing c
      | ThenAdd c => Adding c
      | ThenTake => Taking
      | ThenFinish => Finished
      end) w)
  | r :: todo' => on_heap r w (fun h =>
      if decide (state h = STATE_PARKED) then Done (set_master (Waiting todo' k) w) else Blocks)
  end.

(** One turn of [insertCleanUps]'s loop ([assert] is off). *)
Definition insertCleanUps (todo : list nat) (c : option chunk) (w : world) : result world :=
  match todo with
  | [] => Done (set_master (Waiting (values w) (match c with Some c => ThenRemove c | None => ThenFinish end)) w)
  | r :: todo' => on_heap r w (fun h =>
      Done (set_master (CleaningUp todo' c) (enqueue r (set_heap r (set_state STATE_IN_QUEUE_FOR_CLEAN_UP h) w))))
  end.

(** The heaps without a current LAB leave [threads]. *)
Definition remove_heaps (has_labs : nat -> bool) (w : world) : world :=
  set_threads (filter (fun kv => has_labs (snd kv) = true) (threads w)) w.

Definition createNewThreadLocalHeap (t : Z) : ThreadLocalHeap := Heap t STATE_IN_QUEUE [].

Definition addNewThreadLocalHeap (t : Z) (w : world) : world :=
  let r := length (heaps w) in
  enqueue r (set_threads (<[t := r]> (threads w)) (set_heaps (heaps w ++ [createNewThreadLocalHeap t]) w)).

Definition addToThreadLocalHeap (c : chunk) (r : nat) (w : world) : result world :=
  on_heap r w (fun h =>
    let h := set_queue (queue h ++ [c]) h in
    Done (hand c (if decide (state h = STATE_PARKED) then enqueue r (set_heap r (set_state STATE_IN_QUEUE h) w)
                  else set_heap r h w))).

(** [processQueueEntry] up to the first point at which it can wait. *)
Definition processQueueEntry (c : chunk) (w : world) : world :=
  set_master (match sync c with
    | FULL => Waiting (values w) (ThenCleanUps (Some c))
    | ENSURE_ORDER => Waiting (values w) (ThenAdd c)
    | NONE => Adding c
    end) w.

(** A step of [processQueueEntries].  Which heaps have LABs when a [FULL]
    entry arrives is up to the event handlers. *)
Definition processQueueEntries (has_labs : nat -> bool) (w : world) : result world :=
  match master w with
  | Taking =>
      match chunks w with
      | [] => Blocks
      | None :: rest => Done (set_master (Waiting (values w) (ThenCleanUps None)) (set_chunks rest w))
      | Some c :: rest => Done (processQueueEntry c (set_chunks rest w))
      end
  | Waiting todo k => waitUntilParked todo k w
  | CleaningUp todo c => insertCleanUps todo c w
  | Removing c => Done (set_master (Adding c) (remove_heaps has_labs w))
  | Adding c =>
      match threads w !! thread c with
      | Some r => Done (set_master (Putting c r) w)
      | None => Done (set_master (Putting c (length (heaps w))) (addNewThreadLocalHeap (thread c) w))
      end
  | Putting c r =>
      w ← addToThreadLocalHeap c r w;
      Done (set_master (if decide (sync c = NONE) then Taking else Waiting [r] ThenTake) w)
  | Finished => Blocks
  end.

(** ** A slave *)

Definition parkThreadLocalHeap (i r : nat) (w : world) : result world :=
  on_heap r w (fun h => Done (set_slave i Idle (match queue h with
    | [] => set_heap r (set_state STATE_PARKED h) w
    | _ => enqueue r (set_heap r (set_state STATE_IN_QUEUE h) w)
    end))).

(** A step of [run]. *)
Definition slave_run (i : nat) (w : world) : result world :=
  match slaves w !! i with
  | None => Blocks
  | Some Idle =>
      match masterQueue w with
      | [] => Blocks
      | r :: rest => Done (set_slave i (Took r) (set_masterQueue rest w))
      end
  | Some (Took r) => on_heap r w (fun h =>
      match state h with
      | STATE_IN_QUEUE => Done (set_slave i (Polling r false) (set_heap r (set_state STATE_IN_PROCESS h) w))
      | STATE_IN_QUEUE_FOR_CLEAN_UP => Done (set_slave i (Polling r true) (set_heap r (set_state STATE_IN_PROCESS h) w))
      | _ => Wrong
      end)
  | Some (Polling r cleanUp) => on_heap r w (fun h =>
      match queue h with
      | entry :: rest => Done (record (Begin entry) (set_slave i (Parsing r cleanUp entry) (set_heap r (set_queue rest h) w)))
      | [] => Done (set_slave i (if cleanUp then CleanUp r else Parking r) w)
      end)
  | Some (Parsing r cleanUp entry) =>
      Done (record (End entry) (set_slave i (Polling r cleanUp) (set_queueSize (queueSize w - limit entry) w)))
  | Some (CleanUp r) => on_heap r w (fun h =>
      Done (record (Cleaned (internalThreadName h)) (set_slave i (Parking r) w)))
  | Some (Parking r) => parkThreadLocalHeap i r w
  end.

(** ** Runs *)

Inductive action := Dispatcher | Master (has_labs : nat -> bool) | Slave (i : nat).

Definition exec (a : action) (w : world) : result world :=
  match a with
  | Dispatcher => dispatch w
  | Master has_labs => processQueueEntries has_labs w
  | Slave i => slave_run i w
  end.

Fixpoint run (acts : list action) (w : world) : result world :=
  match acts with
  | [] => Done w
  | a :: acts => w ← exec a w; run acts w
  end.

(** [n] is the number of slaves, [startSlaveThreads] takes the number of
    processors. *)
Definition start (file : list chunk) (n : nat) : world :=
  World file Reading [] 0 ∅ [] [] Taking (replicate n Idle) [] [].

End Steps.

End ParserThreads.
