(* ===== verification/ParserPool.v ===== *)
(** * Which thread has which heap ([parser/TraceParser.java],
      [parser/TraceSlaveParser.java])

    At any time a heap of the analyzer is parked, or it is once in the master
    queue, or exactly one slave has it; its [state] says which.  The steps of
    the threads, as updates of the heaps, the master queue and the slaves,
    keep this. *)

From stdpp Require Import gmap.
From S2P Require Import Prelude EventsWriter EventBuffers ParserThreads.
From Stdlib Require Import ZArith Lia.

Module ParserPool.
Import TraceReader ParserThreads.

(** The heap a slave has, the one it is working on, the entry it parses. *)
Definition has (p : slave_phase) : option nat :=
  match p with
  | Idle => None
  | Took r | Polling r _ | Parsing r _ _ | CleanUp r | Parking r => Some r
  end.

Definition works (p : slave_phase) : option nat := match p with Took _ => None | _ => has p end.

Definition parses (p : slave_phase) : option chunk := match p with Parsing _ _ c => Some c | _ => None end.

Section Pool.
Implicit Types (hs : list ThreadLocalHeap) (mq : list nat) (sl : list slave_phase).

Definition held mq sl (r : nat) : Prop := r ∈ mq \/ exists i p, sl !! i = Some p /\ has p = Some r.

Definition state_ok mq sl (r : nat) (h : ThreadLocalHeap) : Prop :=
  match state h with
  | STATE_PARKED => ~ held mq sl r /\ queue h = []
  | STATE_IN_QUEUE | STATE_IN_QUEUE_FOR_CLEAN_UP => r ∈ mq \/ exists i, sl !! i = Some (Took r)
  | STATE_IN_PROCESS => exists i p, sl !! i = Some p /\ works p = Some r
  end.

Record pool hs mq sl : Prop := Pool {
  pool_once : NoDup mq;
  pool_one : forall i j p q r, sl !! i = Some p -> sl !! j = Some q -> has p = Some r -> has q = Some r -> i = j;
  pool_apart : forall i p r, sl !! i = Some p -> has p = Some r -> r ∉ mq;
  pool_ref : forall r, held mq sl r -> is_Some (hs !! r);
  pool_state : forall r h, hs !! r = Some h -> state_ok mq sl r h;
}.

Lemma works_has p r : works p = Some r -> has p = Some r.
Proof. by destruct p. Qed.

Lemma has_works p r : has p = Some r -> p = Took r \/ works p = Some r.
Proof. destruct p; naive_solver. Qed.

(** The state of a heap that a slave has. *)
Lemma took_state hs mq sl i r h :
  pool hs mq sl -> sl !! i = Some (Took r) -> hs !! r = Some h ->
  state h = STATE_IN_QUEUE \/ state h = STATE_IN_QUEUE_FOR_CLEAN_UP.
Proof.
  intros Hp Hi Hr. pose proof (pool_state _ _ _ Hp r h Hr) as Hs. unfold state_ok in Hs.
  destruct (state h); [|naive_solver| |naive_solver].
  - destruct Hs as [[] _]. right. eauto.
  - destruct Hs as (j & p & Hj & Hw). assert (i = j) as <- by (eapply (pool_one _ _ _ Hp); eauto using works_has).
    rewrite Hi in Hj. by simplify_eq.
Qed.

Lemma works_state hs mq sl i p r h :
  pool hs mq sl -> sl !! i = Some p -> works p = Some r -> hs !! r = Some h -> state h = STATE_IN_PROCESS.
Proof.
  intros Hp Hi Hw Hr. pose proof (pool_state _ _ _ Hp r h Hr) as Hs. unfold state_ok in Hs.
  pose proof (works_has _ _ Hw) as Hh. pose proof (pool_apart _ _ _ Hp i p r Hi Hh) as Hm.
  destruct (state h); [|..|].
  - destruct Hs as [[] _]. right. eauto.
  - destruct Hs as [?|(j & Hj)]; [done|]. assert (i = j) as <- by (by eapply (pool_one _ _ _ Hp)). by simplify_eq.
  - done.
  - destruct Hs as [?|(j & Hj)]; [done|]. assert (i = j) as <- by (by eapply (pool_one _ _ _ Hp)). by simplify_eq.
Qed.

Lemma parked_free hs mq sl r h :
  pool hs mq sl -> hs !! r = Some h -> state h = STATE_PARKED -> ~ held mq sl r /\ queue h = [].
Proof. intros Hp Hr Hs. pose proof (pool_state _ _ _ Hp r h Hr) as H. unfold state_ok in H. by rewrite Hs in H. Qed.

(** ** Updates at one heap *)

(** An update that touches the heap [r] only. *)
Lemma pool_frame hs mq sl hs' mq' sl' r :
  pool hs mq sl ->
  (forall r', r' <> r -> hs' !! r' = hs !! r') ->
  (forall r', r' <> r -> (r' ∈ mq') <-> (r' ∈ mq)) ->
  (forall r' j p, r' <> r -> has p = Some r' -> sl' !! j = Some p <-> sl !! j = Some p) ->
  NoDup mq' ->
  (forall i j p q, sl' !! i = Some p -> sl' !! j = Some q -> has p = Some r -> has q = Some r -> i = j) ->
  (forall i p, sl' !! i = Some p -> has p = Some r -> r ∉ mq') ->
  (exists h, hs' !! r = Some h /\ state_ok mq' sl' r h) ->
  pool hs' mq' sl'.
Proof.
  intros Hp Hhs Hmq Hsl Hnd Hone Hap (h & Hr & Hok). split; [done|..].
  - intros i j p q r' Hi Hj Hpr Hqr. destruct (decide (r' = r)) as [->|Hne]; [eauto|].
    rewrite (Hsl r') in Hi, Hj by done. by eapply (pool_one _ _ _ Hp).
  - intros i p r' Hi Hpr. destruct (decide (r' = r)) as [->|Hne]; [eauto|].
    rewrite (Hsl r') in Hi by done. rewrite Hmq by done. by eapply (pool_apart _ _ _ Hp).
  - intros r' Hh. destruct (decide (r' = r)) as [->|Hne]; [eauto|]. rewrite Hhs by done. apply (pool_ref _ _ _ Hp).
    destruct Hh as [?|(j & p & Hj & Hpr)]; [left; by apply Hmq|right]. rewrite (Hsl r') in Hj by done. eauto.
  - intros r' h' Hr'. destruct (decide (r' = r)) as [->|Hne]; [by simplify_eq|].
    rewrite Hhs in Hr' by done. pose proof (pool_state _ _ _ Hp r' h' Hr') as Hs. unfold state_ok, held in *.
    destruct (state h').
    + destruct Hs as [Hs ?]. split; [|done]. intros [?|(j & p & Hj & Hpr)]; apply Hs; [left; by apply Hmq|right].
      rewrite (Hsl r') in Hj by done. eauto.
    + destruct Hs as [?|(j & Hj)]; [left; by apply Hmq|right]. exists j. by rewrite (Hsl r').
    + destruct Hs as (j & p & Hj & Hw). exists j, p. rewrite (Hsl r') by eauto using works_has. done.
    + destruct Hs as [?|(j & Hj)]; [left; by apply Hmq|right]. exists j. by rewrite (Hsl r').
Qed.

(** What [state] says of a heap that no slave but one in phase [p] has. *)
Definition local_ok mq (p : slave_phase) (r : nat) (h : ThreadLocalHeap) : Prop :=
  match state h with
  | STATE_PARKED => r ∉ mq /\ has p = None /\ queue h = []
  | STATE_IN_QUEUE | STATE_IN_QUEUE_FOR_CLEAN_UP => r ∈ mq \/ p = Took r
  | STATE_IN_PROCESS => works p = Some r
  end.

(** A slave goes from phase [p] to phase [p']. *)
Lemma pool_slave hs mq sl hs' mq' i p p' r h :
  pool hs mq sl -> sl !! i = Some p ->
  (has p = Some r \/ (has p = None /\ r ∈ mq)) -> (has p' = Some r \/ has p' = None) ->
  (forall r', r' <> r -> hs' !! r' = hs !! r') ->
  (forall r', r' <> r -> (r' ∈ mq') <-> (r' ∈ mq)) ->
  NoDup mq' -> (has p' = Some r -> r ∉ mq') ->
  hs' !! r = Some h -> local_ok mq' p' r h ->
  pool hs' mq' (<[i := p']> sl).
Proof.
  intros Hp Hi Hpr Hpr' Hhs Hmq Hnd Hap Hr Hok. pose proof (lookup_lt_Some _ _ _ Hi) as Hlt.
  assert (Hon : forall j q, <[i := p']> sl !! j = Some q -> has q = Some r -> j = i /\ q = p').
  { intros j q [(-> & <- & _)|(Hne & Hj)]%list_lookup_insert_Some Hq; [done|]. exfalso.
    destruct Hpr as [Hpr|[_ Hm]]; [by destruct Hne; eapply (pool_one _ _ _ Hp)|by eapply (pool_apart _ _ _ Hp)]. }
  apply (pool_frame hs mq sl hs' mq' _ r Hp Hhs Hmq); [|done|..].
  - intros r' j q Hne Hq. rewrite list_lookup_insert_Some. split; [|intros Hj].
    + intros [(-> & <- & _)|(? & ?)]; [naive_solver|done].
    + destruct (decide (i = j)) as [<-|Hij]; [|by right]. rewrite Hi in Hj. simplify_eq. naive_solver.
  - intros j k q q' Hj Hk Hq Hq'. destruct (Hon j q Hj Hq), (Hon k q' Hk Hq'). congruence.
  - intros j q Hj Hq. destruct (Hon j q Hj Hq) as [-> ->]. by apply Hap.
  - exists h. split; [done|]. unfold local_ok in Hok. unfold state_ok, held. destruct (state h).
    + destruct Hok as (? & Hn & ?). split; [|done]. intros [?|(j & q & Hj & Hq)]; [done|].
      destruct (Hon j q Hj Hq) as [-> ->]. congruence.
    + destruct Hok as [?| ->]; [by left|right]. exists i. by apply list_lookup_insert_eq.
    + exists i, p'. split; [by apply list_lookup_insert_eq|done].
    + destruct Hok as [?| ->]; [by left|right]. exists i. by apply list_lookup_insert_eq.
Qed.

(** The master puts a heap that nobody has into its queue. *)
Lemma pool_enqueue hs mq sl hs' r h :
  pool hs mq sl -> ~ held mq sl r ->
  (forall r', r' <> r -> hs' !! r' = hs !! r') ->
  hs' !! r = Some h -> state h = STATE_IN_QUEUE \/ state h = STATE_IN_QUEUE_FOR_CLEAN_UP ->
  pool hs' (mq ++ [r]) sl.
Proof.
  intros Hp Hh Hhs Hr Hs. assert (Hn : forall i p, sl !! i = Some p -> has p <> Some r).
  { intros i p Hi Hpr. apply Hh. right. eauto. }
  apply (pool_frame hs mq sl _ _ _ r Hp Hhs).
  - intros r' Hne. rewrite elem_of_app, list_elem_of_singleton. naive_solver.
  - done.
  - apply NoDup_app. split_and!; [apply (pool_once _ _ _ Hp)| |apply NoDup_singleton].
    intros r' Hr' ->%list_elem_of_singleton. apply Hh. by left.
  - intros i j p q Hi _ Hpr. by destruct (Hn i p Hi).
  - intros i p Hi Hpr. by destruct (Hn i p Hi).
  - exists h. split; [done|]. unfold state_ok. destruct Hs as [-> | ->]; left; apply elem_of_app; right; by constructor.
Qed.

(** A heap that is not parked changes its queue. *)
Lemma pool_queue hs mq sl r h q :
  pool hs mq sl -> hs !! r = Some h -> state h <> STATE_PARKED -> pool (<[r := set_queue q h]> hs) mq sl.
Proof.
  intros Hp Hr Hs. pose proof (lookup_lt_Some _ _ _ Hr) as Hlt.
  apply (pool_frame hs mq sl _ _ _ r Hp); try done.
  - intros r' Hne. by apply list_lookup_insert_ne.
  - apply (pool_once _ _ _ Hp).
  - intros i j p p' Hi Hj. by eapply (pool_one _ _ _ Hp).
  - intros i p Hi. by apply (pool_apart _ _ _ Hp i).
  - exists (set_queue q h). split; [by apply list_lookup_insert_eq|].
    pose proof (pool_state _ _ _ Hp r h Hr) as Hok. unfold state_ok in *. cbn. by destruct (state h).
Qed.

Lemma pool_start n : pool [] [] (replicate n Idle).
Proof.
  assert (H : forall i p, replicate n Idle !! i = Some p -> p = Idle) by (intros i p [-> _]%lookup_replicate; done).
  split; [constructor|..].
  - intros i j p q r Hi%H. by subst.
  - intros i p r Hi%H. by subst.
  - intros r [?%elem_of_nil|(i & p & Hi%H & Hpr)]; by subst.
  - done.
Qed.

(** ** The entries being parsed *)

Definition parses_of (r : nat) (p : slave_phase) : option chunk :=
  match p with Parsing r' _ c => if decide (r' = r) then Some c else None | _ => None end.

Definition flight sl (r : nat) : list chunk := omap (parses_of r) sl.

Lemma flight_cons p sl r : flight (p :: sl) r = option_list (parses_of r p) ++ flight sl r.
Proof. unfold flight. cbn. by destruct (parses_of r p). Qed.

Lemma flight_app sl sl' r : flight (sl ++ sl') r = flight sl r ++ flight sl' r.
Proof. apply omap_app. Qed.

Lemma flight_same sl i p p' r :
  sl !! i = Some p -> parses_of r p' = parses_of r p -> flight (<[i := p']> sl) r = flight sl r.
Proof.
  intros Hi Hpp. rewrite insert_take_drop by (by eapply lookup_lt_Some).
  rewrite <- (take_drop_middle sl i p Hi) at 3. by rewrite !flight_app, !flight_cons, Hpp.
Qed.

Lemma flight_none sl r : (forall i p, sl !! i = Some p -> has p <> Some r) -> flight sl r = [].
Proof.
  induction sl as [|p sl IH]; intros H; [done|]. rewrite flight_cons, IH by (intros i; apply (H (S i))).
  pose proof (H 0%nat p eq_refl). destruct p; try done. cbn in *. by rewrite decide_False by congruence.
Qed.

Lemma flight_at hs mq sl i p r :
  pool hs mq sl -> sl !! i = Some p -> has p = Some r -> flight sl r = option_list (parses_of r p).
Proof.
  intros Hp Hi Hpr.
  assert (Hn : flight (<[i := Idle]> sl) r = []).
  { apply flight_none. intros j q [(_ & <- & _)|(Hne & Hj)]%list_lookup_insert_Some; [done|].
    intros Hq. by destruct Hne; eapply (pool_one _ _ _ Hp). }
  rewrite insert_take_drop in Hn by (by eapply lookup_lt_Some).
  rewrite flight_app, flight_cons in Hn. cbn in Hn. apply app_eq_nil in Hn as [H1 H2].
  by rewrite <- (take_drop_middle sl i p Hi), flight_app, flight_cons, H1, H2, app_nil_r.
Qed.

End Pool.
End ParserPool.
