(* ===== verification/ParserOrder.v ===== *)
(** * The order in which the analyzer parses the buffers
      ([parser/TraceParser.java], [parser/TraceSlaveParser.java])

    The invariant of the analyzer's threads: the entries of one thread are
    parsed one after the other in the order of the file, and an entry with a
    sync level waits for all entries before it and holds up all entries
    behind it. *)

From stdpp Require Import gmap.
From S2P Require Import Prelude EventsWriter EventBuffers ParserThreads ParserPool.
From Stdlib Require Import ZArith Lia.

Module ParserOrder.
Import TraceReader ParserThreads ParserPool.

(** ** The log *)

Definition of_thread (t : Z) (l : list chunk) : list chunk := filter (fun c => thread c = t) l.

Definition begins (e : event) : option chunk := match e with Begin c => Some c | _ => None end.
Definition ends (e : event) : option chunk := match e with End c => Some c | _ => None end.

(** The entries of a thread whose parsing has begun, and has ended. *)
Definition begun (t : Z) (l : list event) : list chunk := of_thread t (omap begins l).
Definition ended (t : Z) (l : list event) : list chunk := of_thread t (omap ends l).

(** Whether something of the thread was parsed since its heap was cleaned up. *)
Definition dirty_step (t : Z) (b : bool) (e : event) : bool :=
  match e with
  | Begin c | End c => if decide (thread c = t) then true else b
  | Cleaned t' => if decide (t' = t) then false else b
  end.

Definition dirty (t : Z) (l : list event) : bool := foldl (dirty_step t) false l.

Definition clean (l : list event) : Prop := forall t, dirty t l = false.

(** ** Specification *)

(** [c] may be parsed after [l]: of every entry before [c] that has a sync
    level, and of every entry before [c] if [c] has one, parsing has ended;
    if [c] has level [FULL], the heaps are cleaned up. *)
Definition settled (file : list chunk) (c : chunk) (l : list event) : Prop :=
  (forall f1 f2 s, file = f1 ++ c :: f2 -> s ∈ f1 -> sync c <> NONE \/ sync s <> NONE -> End s ∈ l) /\
  (sync c = FULL -> clean l).

(** ** The invariant of the heaps *)

Section Invariant.
Implicit Types (file hd : list chunk) (th : gmap Z nat) (hs : list ThreadLocalHeap) (mq : list nat)
  (sl : list slave_phase) (lg : list event).

Definition queue_of hs (r : nat) : list chunk := match hs !! r with Some h => queue h | None => [] end.

Definition pending th hs sl (t : Z) : list chunk :=
  match th !! t with Some r => flight sl r ++ queue_of hs r | None => [] end.

Definition flying th sl (t : Z) : list chunk := match th !! t with Some r => flight sl r | None => [] end.

Record core file th hs mq sl lg hd : Prop := Core {
  core_pool : pool hs mq sl;
  core_threads : forall t r, th !! t = Some r -> exists h, hs !! r = Some h /\ internalThreadName h = t;
  core_others : forall r h, hs !! r = Some h -> th !! internalThreadName h <> Some r -> state h = STATE_PARKED;
  core_order : forall t, of_thread t hd = ended t lg ++ pending th hs sl t;
  core_begun : forall t, begun t lg = ended t lg ++ flying th sl t;
  core_log : forall l1 c l2, lg = l1 ++ Begin c :: l2 -> settled file c l1;
  core_queue : forall r c, c ∈ queue_of hs r -> settled file c lg;
  core_removed : forall t, th !! t = None -> dirty t lg = false;
  core_handed : hd `prefix_of` file;
}.

(** ** The invariant of the master *)

Definition parked hs (r : nat) : Prop := exists h, hs !! r = Some h /\ state h = STATE_PARKED.

Definition all_ended lg hd : Prop := forall c, c ∈ hd -> End c ∈ lg.

Definition sync_ended lg hd : Prop := forall c, c ∈ hd -> sync c <> NONE -> End c ∈ lg.

Definition refs th (todo : list nat) : Prop := forall r, r ∈ todo -> exists t, th !! t = Some r.

Definition covered th hs (todo : list nat) : Prop := forall t r, th !! t = Some r -> r ∈ todo \/ parked hs r.

(** A clean-up of the heap is on its way. *)
Definition will_clean (p : slave_phase) : bool :=
  match p with Polling _ cl | Parsing _ cl _ => cl | CleanUp _ => true | _ => false end.

Definition due hs sl (r : nat) : Prop :=
  (exists h, hs !! r = Some h /\ state h = STATE_IN_QUEUE_FOR_CLEAN_UP) \/
  exists i p, sl !! i = Some p /\ works p = Some r /\ will_clean p = true.

Definition cleaned_but th hs sl lg (todo : list nat) : Prop :=
  forall t r, th !! t = Some r -> dirty t lg = false \/ r ∈ todo \/ due hs sl r.

Definition stage_ok th hs sl lg hd (m : master_phase) : Prop :=
  match m with
  | Taking => sync_ended lg hd
  | Waiting todo k => refs th todo /\
      match k with
      | ThenTake => forall s, s ∈ hd -> sync s <> NONE -> End s ∈ lg \/ exists r, r ∈ todo /\ th !! thread s = Some r
      | ThenCleanUps _ => sync_ended lg hd /\ covered th hs todo
      | ThenAdd c => sync_ended lg hd /\ covered th hs todo /\ sync c <> FULL
      | ThenRemove _ | ThenFinish => all_ended lg hd /\ covered th hs todo /\ cleaned_but th hs sl lg []
      end
  | CleaningUp todo _ =>
      all_ended lg hd /\ NoDup todo /\ refs th todo /\ (forall r, r ∈ todo -> parked hs r) /\ cleaned_but th hs sl lg todo
  | Removing _ | Finished => all_ended lg hd /\ covered th hs [] /\ clean lg
  | Adding c => sync_ended lg hd /\ (sync c <> NONE -> all_ended lg hd) /\ (sync c = FULL -> clean lg)
  | Putting c r =>
      sync_ended lg hd /\ (sync c <> NONE -> all_ended lg hd) /\ (sync c = FULL -> clean lg) /\ th !! thread c = Some r
  end.

(** ** Facts on the log *)

Lemma chunks_thread_app t l l' : of_thread t (l ++ l') = of_thread t l ++ of_thread t l'.
Proof. apply filter_app. Qed.

Lemma elem_of_thread t c l : c ∈ of_thread t l <-> thread c = t /\ c ∈ l.
Proof. unfold of_thread. by rewrite list_elem_of_filter. Qed.

Lemma elem_ended t c lg : c ∈ ended t lg <-> thread c = t /\ End c ∈ lg.
Proof.
  unfold ended. rewrite elem_of_thread, list_elem_of_omap. split; intros [Ht H]; (split; [done|]).
  - destruct H as ([] & ? & ?); cbn in *; by simplify_eq.
  - by exists (End c).
Qed.

Lemma elem_begun t c lg : c ∈ begun t lg <-> thread c = t /\ Begin c ∈ lg.
Proof.
  unfold begun. rewrite elem_of_thread, list_elem_of_omap. split; intros [Ht H]; (split; [done|]).
  - destruct H as ([] & ? & ?); cbn in *; by simplify_eq.
  - by exists (Begin c).
Qed.

Lemma ended_snoc t lg e : ended t (lg ++ [e]) = ended t lg ++ of_thread t (option_list (ends e)).
Proof. unfold ended. rewrite omap_app, chunks_thread_app. by destruct e. Qed.

Lemma begun_snoc t lg e : begun t (lg ++ [e]) = begun t lg ++ of_thread t (option_list (begins e)).
Proof. unfold begun. rewrite omap_app, chunks_thread_app. by destruct e. Qed.

Lemma of_thread_one t c : of_thread t [c] = if decide (thread c = t) then [c] else [].
Proof. unfold of_thread. rewrite filter_cons, filter_nil. done. Qed.

Lemma dirty_snoc t lg e : dirty t (lg ++ [e]) = dirty_step t (dirty t lg) e.
Proof. unfold dirty. by rewrite foldl_app. Qed.

Lemma dirty_cleaned t t' lg : dirty t lg = false -> dirty t (lg ++ [Cleaned t']) = false.
Proof. intros H. rewrite dirty_snoc. cbn. by case_decide. Qed.

Lemma clean_cleaned t lg : clean lg -> clean (lg ++ [Cleaned t]).
Proof. intros H t'. by apply dirty_cleaned. Qed.

Lemma set_queue_id h : set_queue (queue h) h = h.
Proof. by destruct h. Qed.

(** ** Consequences of the invariant *)

Section Core.
Variables (file : list chunk) (th : gmap Z nat) (hs : list ThreadLocalHeap) (mq : list nat)
  (sl : list slave_phase) (lg : list event) (hd : list chunk).
Hypothesis distinct : NoDup file.
Hypothesis Hc : core file th hs mq sl lg hd.

Lemma handed_distinct : NoDup hd.
Proof. destruct (core_handed _ _ _ _ _ _ _ Hc) as [k Hk]. rewrite Hk in distinct. by apply NoDup_app in distinct as [? _]. Qed.

Lemma handed_file c : c ∈ hd -> c ∈ file.
Proof. destruct (core_handed _ _ _ _ _ _ _ Hc) as [k ->]. rewrite elem_of_app. by left. Qed.

Lemma pending_thread t c : c ∈ pending th hs sl t -> thread c = t /\ c ∈ hd.
Proof.
  intros H. apply elem_of_thread. rewrite (core_order _ _ _ _ _ _ _ Hc t). apply elem_of_app. by right.
Qed.

Lemma pending_open t c : c ∈ pending th hs sl t -> End c ∉ lg.
Proof.
  intros H He. pose proof (NoDup_filter (fun c => thread c = t) _ handed_distinct) as Hn. fold (of_thread t hd) in Hn.
  rewrite (core_order _ _ _ _ _ _ _ Hc t) in Hn. apply NoDup_app in Hn as (_ & Hn & _). apply (Hn c); [|done].
  apply elem_ended. by destruct (pending_thread _ _ H).
Qed.

Lemma pending_none t : all_ended lg hd -> pending th hs sl t = [].
Proof.
  intros Ha. destruct (pending th hs sl t) as [|c l] eqn:E; [done|]. exfalso.
  assert (Hin : c ∈ pending th hs sl t) by (rewrite E; by constructor).
  apply (pending_open t c Hin), Ha. by apply (pending_thread t).
Qed.

Lemma parked_pending t r : th !! t = Some r -> parked hs r -> pending th hs sl t = [].
Proof.
  intros Ht (h & Hr & Hs). destruct (parked_free _ _ _ _ _ (core_pool _ _ _ _ _ _ _ Hc) Hr Hs) as [Hh Hq].
  unfold pending, queue_of. rewrite Ht, Hr, Hq, app_nil_r. apply flight_none. intros i p Hi Hp. apply Hh. right. eauto.
Qed.

Lemma handed_ended c : c ∈ hd -> pending th hs sl (thread c) = [] -> End c ∈ lg.
Proof.
  intros Hin Hp. pose proof (core_order _ _ _ _ _ _ _ Hc (thread c)) as Ho. rewrite Hp, app_nil_r in Ho.
  apply (elem_ended (thread c)). rewrite <- Ho. by apply elem_of_thread.
Qed.

Lemma covered_ended : covered th hs [] -> all_ended lg hd.
Proof.
  intros Hv c Hin. apply handed_ended; [done|]. destruct (th !! thread c) as [r|] eqn:E.
  - destruct (Hv _ _ E) as [?%elem_of_nil|?]; [done|]. by apply (parked_pending _ r).
  - unfold pending. by rewrite E.
Qed.

(** The heap of a slave is one of [threads]. *)
Lemma has_mapped i p r : sl !! i = Some p -> has p = Some r -> exists h, hs !! r = Some h /\ th !! internalThreadName h = Some r.
Proof.
  intros Hi Hp. pose proof (core_pool _ _ _ _ _ _ _ Hc) as Hpool.
  destruct (pool_ref _ _ _ Hpool r) as [h Hr]; [right; eauto|]. exists h. split; [done|].
  destruct (decide (th !! internalThreadName h = Some r)) as [|Hn]; [done|].
  destruct (parked_free _ _ _ _ _ Hpool Hr (core_others _ _ _ _ _ _ _ Hc r h Hr Hn)) as [[] _]. right. eauto.
Qed.

Lemma queue_mapped r c : c ∈ queue_of hs r -> th !! thread c = Some r /\ c ∈ pending th hs sl (thread c).
Proof.
  unfold queue_of. destruct (hs !! r) as [h|] eqn:Hr; [|by intros ?%elem_of_nil]. intros Hin.
  assert (Hm : th !! internalThreadName h = Some r).
  { destruct (decide (th !! internalThreadName h = Some r)) as [|Hn]; [done|].
    destruct (parked_free _ _ _ _ _ (core_pool _ _ _ _ _ _ _ Hc) Hr (core_others _ _ _ _ _ _ _ Hc r h Hr Hn)) as [_ E].
    rewrite E in Hin. by apply elem_of_nil in Hin. }
  assert (Hp : c ∈ pending th hs sl (internalThreadName h)).
  { unfold pending, queue_of. rewrite Hm, Hr. apply elem_of_app. by right. }
  by rewrite (proj1 (pending_thread _ _ Hp)).
Qed.

Lemma queue_pending r c : c ∈ queue_of hs r -> c ∈ pending th hs sl (thread c).
Proof. apply queue_mapped. Qed.

(** Different threads have different heaps. *)
Lemma mapped_inj t t' r : th !! t = Some r -> th !! t' = Some r -> t = t'.
Proof.
  intros (h & Hr & <-)%(core_threads _ _ _ _ _ _ _ Hc) (h' & Hr' & <-)%(core_threads _ _ _ _ _ _ _ Hc). by simplify_eq.
Qed.

Lemma pending_distinct t : NoDup (pending th hs sl t).
Proof.
  pose proof (NoDup_filter (fun c => thread c = t) _ handed_distinct) as Hn. fold (of_thread t hd) in Hn.
  rewrite (core_order _ _ _ _ _ _ _ Hc t) in Hn. by apply NoDup_app in Hn as (_ & _ & ?).
Qed.

(** What is pending may be parsed. *)
Lemma pending_settled t c : c ∈ pending th hs sl t -> exists l, l ⊆ lg /\ settled file c l.
Proof.
  unfold pending. destruct (th !! t) as [r|] eqn:Et; [|by intros ?%elem_of_nil].
  intros [Hf|Hq]%elem_of_app.
  - assert (Hb : c ∈ begun t lg).
    { rewrite (core_begun _ _ _ _ _ _ _ Hc). unfold flying. rewrite Et. apply elem_of_app. by right. }
    apply elem_begun in Hb as [_ (l1 & l2 & E)%list_elem_of_split]. exists l1. split; [|by eapply (core_log _ _ _ _ _ _ _ Hc)].
    rewrite E. set_solver.
  - exists lg. split; [done|]. by eapply (core_queue _ _ _ _ _ _ _ Hc).
Qed.

(** An entry with a sync level is pending alone. *)
Lemma pending_alone t t' c c' :
  c ∈ pending th hs sl t -> c' ∈ pending th hs sl t' -> sync c <> NONE -> c' = c.
Proof.
  intros H H' Hs. destruct (decide (c' = c)) as [|Hne]; [done|]. exfalso.
  destruct (pending_thread _ _ H) as [_ Hin%handed_file], (pending_thread _ _ H') as [_ Hin'%handed_file].
  apply list_elem_of_split in Hin as (f1 & f2 & E). rewrite E in Hin'.
  apply elem_of_app in Hin' as [Hin'|[Heq|Hin']%elem_of_cons]; [|done|].
  - destruct (pending_settled _ _ H) as (l & Hl & Hset & _). apply (pending_open _ _ H'), Hl. eapply Hset; eauto.
  - destruct (pending_settled _ _ H') as (l & Hl & Hset & _). apply (pending_open _ _ H), Hl.
    apply list_elem_of_split in Hin' as (g1 & g2 & ->). apply (Hset (f1 ++ c :: g1) g2 c); [|set_solver|by right].
    by rewrite E, <- (assoc_L (++)).
Qed.

(** ** Steps of the slaves *)

(** A step that moves no entry and logs nothing. *)
Lemma core_quiet hs' mq' sl' :
  pool hs' mq' sl' ->
  (forall r, (fun h => (internalThreadName h, queue h)) <$> hs' !! r = (fun h => (internalThreadName h, queue h)) <$> hs !! r) ->
  (forall r, flight sl' r = flight sl r) ->
  (forall r h, hs' !! r = Some h -> th !! internalThreadName h <> Some r -> state h = STATE_PARKED) ->
  core file th hs' mq' sl' lg hd.
Proof using Hc.
  intros Hp Hhs Hsl Ho. destruct Hc as [_ Hth _ Hor Hbe Hlo Hqu Hre Hha].
  assert (Hq : forall r, queue_of hs' r = queue_of hs r).
  { intros r. specialize (Hhs r). unfold queue_of. destruct (hs' !! r), (hs !! r); cbn in Hhs; congruence. }
  split; [done|..]; try done.
  - intros t r (h & Hr & <-)%Hth. specialize (Hhs r). rewrite Hr in Hhs. destruct (hs' !! r) as [h'|] eqn:E; [|done].
    exists h'. cbn in Hhs. split; [done|congruence].
  - intros t. rewrite Hor. unfold pending. destruct (th !! t) as [r|]; [by rewrite Hsl, Hq|done].
  - intros t. rewrite Hbe. unfold flying. destruct (th !! t) as [r|]; [by rewrite Hsl|done].
  - intros r c. rewrite Hq. apply Hqu.
Qed.

(** Updates of [state] only. *)
Lemma core_state mq' sl' r h s :
  hs !! r = Some h -> th !! internalThreadName h = Some r ->
  pool (<[r := set_state s h]> hs) mq' sl' ->
  (forall r, flight sl' r = flight sl r) ->
  core file th (<[r := set_state s h]> hs) mq' sl' lg hd.
Proof using Hc.
  intros Hr Hm Hp Hf. pose proof (lookup_lt_Some _ _ _ Hr). apply core_quiet; [done| |done|].
  - intros r'. destruct (decide (r' = r)) as [->|Hne]; [by rewrite list_lookup_insert_eq, Hr|by rewrite list_lookup_insert_ne].
  - intros r' h' [(<- & <- & _)|(Hne & Hr')]%list_lookup_insert_Some Hn; [done|]. by apply (core_others _ _ _ _ _ _ _ Hc r').
Qed.

Lemma settled_more c lg' :
  settled file c lg -> (sync c = FULL -> clean lg -> clean (lg ++ lg')) -> settled file c (lg ++ lg').
Proof using.
  intros [H1 H2] H. split; [|by auto]. intros f1 f2 s E Hs Hl. apply elem_of_app. left. by eapply H1.
Qed.

(** The step of a pending entry leaves those in a queue settled. *)
Lemma queue_settled r c t c' lg' :
  c ∈ queue_of hs r -> c' ∈ pending th hs sl t -> c <> c' -> settled file c (lg ++ lg').
Proof using Hc distinct.
  intros Hin Hin' Hne. apply settled_more; [by eapply (core_queue _ _ _ _ _ _ _ Hc)|]. intros Hf _.
  destruct Hne. symmetry. eapply pending_alone; [by eapply queue_pending|done|by rewrite Hf].
Qed.

(** A slave does a step of its work on a heap, and logs it. *)

(** A slave does a step of its work on a heap, and logs it. *)

(** A slave does a step of its work on a heap, and logs it. *)

Section Step.
Variables (i r : nat) (h : ThreadLocalHeap) (p : slave_phase).
Hypothesis Hr : hs !! r = Some h.
Hypothesis Hi : sl !! i = Some p.
Hypothesis Hw : works p = Some r.

Lemma step_mapped : th !! internalThreadName h = Some r.
Proof using Hc Hr Hi Hw.
  destruct (has_mapped i p r Hi (works_has _ _ Hw)) as (h' & Hr' & ?). by simplify_eq.
Qed.

Lemma pending_at : pending th hs sl (internalThreadName h) = option_list (parses_of r p) ++ queue h.
Proof using Hc Hr Hi Hw.
  unfold pending, queue_of. rewrite step_mapped, Hr.
  by rewrite (flight_at _ _ _ _ _ _ (core_pool _ _ _ _ _ _ _ Hc) Hi (works_has _ _ Hw)).
Qed.

Lemma pool_work p' q :
  works p' = Some r -> pool (<[r := set_queue q h]> hs) mq (<[i := p']> sl).
Proof using Hc Hr Hi Hw.
  intros Hw'. pose proof (core_pool _ _ _ _ _ _ _ Hc) as Hp. pose proof (lookup_lt_Some _ _ _ Hr) as Hlt.
  pose proof (works_has _ _ Hw). pose proof (works_has _ _ Hw').
  apply (pool_slave hs mq sl _ _ i p p' r (set_queue q h)); auto.
  - intros r' Hne. by apply list_lookup_insert_ne.
  - apply (pool_once _ _ _ Hp).
  - intros _. by apply (pool_apart _ _ _ Hp i p).
  - by apply list_lookup_insert_eq.
  - unfold local_ok. cbn. by rewrite (works_state _ _ _ _ _ _ _ Hp Hi Hw Hr).
Qed.

Definition thread_of (e : event) : Z := match e with Begin c | End c => thread c | Cleaned t => t end.

Lemma log_other t e :
  thread_of e <> t -> ended t (lg ++ [e]) = ended t lg /\ begun t (lg ++ [e]) = begun t lg /\ dirty t (lg ++ [e]) = dirty t lg.
Proof using.
  intros Hne. rewrite ended_snoc, begun_snoc, dirty_snoc. destruct e; cbn in *; rewrite ?of_thread_one, !decide_False by done;
    by rewrite ?app_nil_r.
Qed.

Lemma core_work p' q e :
  let t := internalThreadName h in
  works p' = Some r -> thread_of e = t ->
  option_list (parses_of r p) ++ queue h = of_thread t (option_list (ends e)) ++ option_list (parses_of r p') ++ q ->
  option_list (parses_of r p) ++ of_thread t (option_list (begins e)) =
    of_thread t (option_list (ends e)) ++ option_list (parses_of r p') ->
  (forall c, e = Begin c -> settled file c lg) ->
  (forall r' c, c ∈ queue_of (<[r := set_queue q h]> hs) r' -> settled file c (lg ++ [e])) ->
  core file th (<[r := set_queue q h]> hs) mq (<[i := p']> sl) (lg ++ [e]) hd.
Proof using Hc Hr Hi Hw.
  intros t Hw' He Hor Hbe Hbl Hqu. pose proof (pool_work p' q Hw') as Hp'. pose proof pending_at as Hpe. pose proof step_mapped as Hm. fold t in Hpe, Hm.
  pose proof (lookup_lt_Some _ _ _ Hr) as Hlt.
  assert (Hfl : flight (<[i := p']> sl) r = option_list (parses_of r p')).
  { apply (flight_at _ _ _ i _ _ Hp'); [|by apply works_has]. apply list_lookup_insert_eq. by eapply lookup_lt_Some. }
  assert (Hoth : forall t', t' <> t -> pending th (<[r := set_queue q h]> hs) (<[i := p']> sl) t' = pending th hs sl t' /\
    flying th (<[i := p']> sl) t' = flying th sl t').
  { intros t' Hne. unfold pending, flying, queue_of. destruct (th !! t') as [r'|] eqn:Ht'; [|done].
    assert (r' <> r) by (intros ->; apply Hne; by eapply mapped_inj).
    rewrite (flight_same _ i p), list_lookup_insert_ne; try done. destruct p, p'; cbn in *; simplify_eq; by rewrite ?decide_False. }
  split; [done|..].
  - intros t' r' (h' & Hr' & Hn)%(core_threads _ _ _ _ _ _ _ Hc). destruct (decide (r' = r)) as [->|Hne].
    + exists (set_queue q h). split; [by apply list_lookup_insert_eq|]. cbn. congruence.
    + exists h'. by rewrite list_lookup_insert_ne.
  - intros r' h' [(<- & <- & _)|(Hne & Hr')]%list_lookup_insert_Some Hn; [done|]. by apply (core_others _ _ _ _ _ _ _ Hc r').
  - intros t'. rewrite (core_order _ _ _ _ _ _ _ Hc). destruct (decide (t' = t)) as [->|Hne].
    + rewrite Hpe, ended_snoc, <- (assoc_L (++)), Hor. unfold pending, queue_of. by rewrite Hm, Hfl, list_lookup_insert_eq.
    + destruct (Hoth t' Hne) as [-> _], (log_other t' e) as [-> _]; [congruence|done].
  - intros t'. destruct (decide (t' = t)) as [->|Hne].
    + rewrite begun_snoc, ended_snoc, (core_begun _ _ _ _ _ _ _ Hc), <- !(assoc_L (++)). unfold flying.
      rewrite Hm, Hfl, (flight_at _ _ _ _ _ _ (core_pool _ _ _ _ _ _ _ Hc) Hi (works_has _ _ Hw)). by rewrite Hbe.
    + destruct (Hoth t' Hne) as [_ ->], (log_other t' e) as (-> & -> & _); [congruence|]. apply Hc.
  - intros l1 c l2 E. destruct l2 as [|e' l2 _] using rev_ind.
    + apply app_inj_tail in E as [<- ->]. by apply Hbl.
    + rewrite app_comm_cons, (assoc_L (++)) in E. apply app_inj_tail in E as [E _]. by apply (core_log _ _ _ _ _ _ _ Hc l1 c l2).
  - done.
  - intros t' Ht'. destruct (log_other t' e) as (_ & _ & ->); [congruence|]. by apply Hc.
  - apply Hc.
Qed.

Lemma queue_of_insert q r' :
  queue_of (<[r := set_queue q h]> hs) r' = if decide (r' = r) then q else queue_of hs r'.
Proof using Hr.
  unfold queue_of. case_decide as E; [subst; by rewrite list_lookup_insert_eq by (by eapply lookup_lt_Some)|].
  by rewrite list_lookup_insert_ne.
Qed.

(** The other entries in the queues while one of the heap's is parsed. *)
Lemma step_settled q c e r' c' :
  option_list (parses_of r p) ++ queue h = c :: q -> c' ∈ queue_of (<[r := set_queue q h]> hs) r' ->
  settled file c' (lg ++ [e]).
Proof using Hc distinct Hr Hi Hw.
  intros Hq Hin. pose proof pending_at as Hpe. rewrite Hq in Hpe.
  assert (Hcin : c ∈ pending th hs sl (internalThreadName h)) by (rewrite Hpe; by constructor).
  pose proof (pending_distinct (internalThreadName h)) as Hd. rewrite Hpe in Hd. apply NoDup_cons in Hd as [Hn Hd].
  rewrite queue_of_insert in Hin. case_decide as E; [subst r'|].
  - assert (Hne : c' <> c) by (by intros ->).
    apply settled_more.
    + destruct (parses_of r p); cbn in Hq; simplify_eq; apply (core_queue _ _ _ _ _ _ _ Hc r); unfold queue_of; rewrite Hr, ?Hq; set_solver.
    + intros Hf _. destruct Hne. symmetry. eapply (pending_alone (internalThreadName h)); [rewrite Hpe; by constructor|done|by rewrite Hf].
  - eapply (queue_settled r' c'); [done|done|]. intros ->. apply queue_mapped in Hin as [Hin _].
    pose proof step_mapped as Hm. destruct (pending_thread _ _ Hcin) as [Ht _]. rewrite Ht in Hin. congruence.
Qed.

End Step.

Lemma core_begin i r h cl c q :
  hs !! r = Some h -> sl !! i = Some (Polling r cl) -> queue h = c :: q ->
  core file th (<[r := set_queue q h]> hs) mq (<[i := Parsing r cl c]> sl) (lg ++ [Begin c]) hd.
Proof.
  intros Hr Hi Hq. pose proof (pending_at i r h _ Hr Hi eq_refl) as Hp.
  destruct (pending_thread (internalThreadName h) c) as [Ht _]; [rewrite Hp, Hq; by constructor|].
  apply (core_work i r h _ Hr Hi eq_refl); cbn; rewrite ?of_thread_one, ?decide_True by done; try done.
  - intros c' [= <-]. apply (core_queue _ _ _ _ _ _ _ Hc r). unfold queue_of. rewrite Hr, Hq. by constructor.
  - intros r' c'. by apply (step_settled i r h _ Hr Hi eq_refl q c).
Qed.

Lemma core_end i r h cl c :
  hs !! r = Some h -> sl !! i = Some (Parsing r cl c) ->
  core file th hs mq (<[i := Polling r cl]> sl) (lg ++ [End c]) hd.
Proof.
  intros Hr Hi. pose proof (pending_at i r h _ Hr Hi eq_refl) as Hp. cbn in Hp. rewrite decide_True in Hp by done.
  destruct (pending_thread (internalThreadName h) c) as [Ht _]; [rewrite Hp; by constructor|].
  rewrite <- (list_insert_id hs r h Hr), <- (set_queue_id h).
  apply (core_work i r h _ Hr Hi eq_refl); cbn; rewrite ?of_thread_one, ?decide_True by done; try done.
  intros r' c'. apply (step_settled i r h _ Hr Hi eq_refl (queue h) c). cbn. by rewrite decide_True.
Qed.

Lemma core_cleaned i r h :
  hs !! r = Some h -> sl !! i = Some (CleanUp r) ->
  core file th hs mq (<[i := Parking r]> sl) (lg ++ [Cleaned (internalThreadName h)]) hd.
Proof.
  intros Hr Hi. rewrite <- (list_insert_id hs r h Hr), <- (set_queue_id h).
  apply (core_work i r h _ Hr Hi eq_refl); try done.
  intros r' c'. rewrite set_queue_id, list_insert_id by done. intros Hin.
  apply settled_more; [by apply (core_queue _ _ _ _ _ _ _ Hc r')|]. intros _. apply clean_cleaned.
Qed.

(** The steps that log nothing. *)

Lemma core_take i r mq' :
  mq = r :: mq' -> sl !! i = Some Idle -> core file th hs mq' (<[i := Took r]> sl) lg hd.
Proof.
  intros E Hi. pose proof (core_pool _ _ _ _ _ _ _ Hc) as Hp. pose proof (pool_once _ _ _ Hp) as Hn.
  rewrite E in Hn. apply NoDup_cons in Hn as [Hn Hd].
  assert (Hin : r ∈ mq) by (rewrite E; by constructor).
  destruct (pool_ref _ _ _ Hp r (or_introl Hin)) as [h Hr]. apply core_quiet; [|done|..].
  - apply (pool_slave hs mq sl _ _ i Idle _ r h); auto.
    + intros r' Hne. rewrite E, elem_of_cons. naive_solver.
    + pose proof (pool_state _ _ _ Hp r h Hr) as Hs. unfold state_ok in Hs. unfold local_ok. cbn.
      destruct (state h); auto; exfalso.
      * destruct Hs as [[] _]. by left.
      * destruct Hs as (j & p & Hj & Hw). by apply (pool_apart _ _ _ Hp j p r Hj (works_has _ _ Hw)).
  - intros r'. by apply (flight_same _ _ _ _ _ Hi).
  - apply (core_others _ _ _ _ _ _ _ Hc).
Qed.

Lemma core_begin_work i r h cl :
  hs !! r = Some h -> sl !! i = Some (Took r) ->
  core file th (<[r := set_state STATE_IN_PROCESS h]> hs) mq (<[i := Polling r cl]> sl) lg hd.
Proof.
  intros Hr Hi. pose proof (core_pool _ _ _ _ _ _ _ Hc) as Hp. pose proof (lookup_lt_Some _ _ _ Hr) as Hlt.
  destruct (has_mapped i _ r Hi eq_refl) as (h' & Hr' & Hm). simplify_eq.
  apply (core_state _ _ _ _ _ Hr Hm).
  - apply (pool_slave hs mq sl _ _ i (Took r) _ r (set_state STATE_IN_PROCESS h)); auto.
    + intros r' Hne. by apply list_lookup_insert_ne.
    + apply (pool_once _ _ _ Hp).
    + intros _. by apply (pool_apart _ _ _ Hp i (Took r)).
    + by apply list_lookup_insert_eq.
    + done.
  - intros r'. by apply (flight_same _ _ _ _ _ Hi).
Qed.

Lemma core_polled i r h cl :
  hs !! r = Some h -> sl !! i = Some (Polling r cl) ->
  core file th hs mq (<[i := if cl then CleanUp r else Parking r]> sl) lg hd.
Proof.
  intros Hr Hi. apply core_quiet; [|done|..].
  - rewrite <- (list_insert_id hs r h Hr), <- (set_queue_id h). apply (pool_work i r h _ Hr Hi eq_refl). by destruct cl.
  - intros r'. apply (flight_same _ _ _ _ _ Hi). by destruct cl.
  - apply (core_others _ _ _ _ _ _ _ Hc).
Qed.

Lemma core_park i r h s mq' :
  hs !! r = Some h -> sl !! i = Some (Parking r) ->
  (s = STATE_PARKED /\ queue h = [] /\ mq' = mq) \/ (s = STATE_IN_QUEUE /\ mq' = mq ++ [r]) ->
  core file th (<[r := set_state s h]> hs) mq' (<[i := Idle]> sl) lg hd.
Proof.
  intros Hr Hi Hs. pose proof (core_pool _ _ _ _ _ _ _ Hc) as Hp. pose proof (lookup_lt_Some _ _ _ Hr) as Hlt.
  pose proof (pool_apart _ _ _ Hp i _ r Hi eq_refl) as Hap.
  apply (core_state _ _ _ _ _ Hr (step_mapped i r h _ Hr Hi eq_refl)).
  - apply (pool_slave hs mq sl _ _ i (Parking r) _ r (set_state s h)); auto.
    + intros r' Hne. by apply list_lookup_insert_ne.
    + intros r' Hne. destruct Hs as [(_ & _ & ->)|[_ ->]]; [done|]. rewrite elem_of_app, list_elem_of_singleton. naive_solver.
    + destruct Hs as [(_ & _ & ->)|[_ ->]]; [apply (pool_once _ _ _ Hp)|]. apply NoDup_app.
      split_and!; [apply (pool_once _ _ _ Hp)| |apply NoDup_singleton]. by intros ? ? ->%list_elem_of_singleton.
    + done.
    + by apply list_lookup_insert_eq.
    + unfold local_ok. destruct Hs as [(-> & ? & ->)|[-> ->]]; cbn; [done|]. left. apply elem_of_app. right. by constructor.
  - intros r'. by apply (flight_same _ _ _ _ _ Hi).
Qed.

End Core.
End Invariant.
End ParserOrder.
