(* ===== verification/ParserTheorems.v ===== *)
(** * Every step of the analyzer's threads keeps the order
      ([parser/TraceParser.java], [parser/TraceSlaveParser.java])

    The steps of the master and of the slaves keep the invariant of
    [ParserOrder]; so do those of the dispatcher, with the flow of the entries
    from the file to the heaps.  From it the theorems on the order of parsing
    and on the absence of exceptions. *)

From stdpp Require Import gmap.
From S2P Require Import Prelude EventsWriter EventBuffers ParserThreads ParserPool ParserOrder.
From Stdlib Require Import ZArith Lia.

Module ParserTheorems.
Import TraceReader ParserThreads ParserPool ParserOrder.

Section Steps.
Variables (file : list chunk) (th : gmap Z nat) (hs : list ThreadLocalHeap) (mq : list nat)
  (sl : list slave_phase) (lg : list event) (hd : list chunk).
Hypothesis distinct : NoDup file.
Hypothesis Hc : core file th hs mq sl lg hd.

(** ** Steps of the master *)

Lemma next_settled c rest :
  file = hd ++ c :: rest -> sync_ended lg hd -> (sync c <> NONE -> all_ended lg hd) -> (sync c = FULL -> clean lg) ->
  settled file c lg.
Proof.
  intros Hf Hs Ha Hcl. split; [|done]. intros f1 f2 s E Hin Hl. rewrite E in Hf.
  assert (f1 = hd) as ->; [|destruct Hl; [by apply Ha|by apply Hs]].
  rewrite E in distinct. clear -distinct Hf. revert f1 Hf distinct. induction hd as [|a l IH]; intros [|b f1] Hf Hn; cbn in *; simplify_eq.
  - done.
  - apply NoDup_cons in Hn as [Hn _]. set_solver.
  - apply NoDup_cons in Hn as [Hn _]. set_solver.
  - f_equal. apply NoDup_cons in Hn as [_ Hn]. eapply IH; eauto.
Qed.

Lemma core_put c r h h' mq' rest :
  hs !! r = Some h -> th !! thread c = Some r -> internalThreadName h' = internalThreadName h -> queue h' = queue h ++ [c] ->
  pool (<[r := h']> hs) mq' sl -> file = hd ++ c :: rest -> settled file c lg ->
  core file th (<[r := h']> hs) mq' sl lg (hd ++ [c]).
Proof.
  intros Hr Hm Hn Hq Hp Hf Hset. pose proof (lookup_lt_Some _ _ _ Hr) as Hlt.
  destruct (core_threads _ _ _ _ _ _ _ Hc _ _ Hm) as (h0 & Hr0 & Hn0). rewrite Hr in Hr0. injection Hr0 as <-.
  assert (Hqu : forall r', queue_of (<[r := h']> hs) r' = if decide (r' = r) then queue h ++ [c] else queue_of hs r').
  { intros r'. unfold queue_of. case_decide as E; [subst; by rewrite list_lookup_insert_eq|by rewrite list_lookup_insert_ne]. }
  split; [done|..]; try apply Hc.
  - intros t r' (h1 & Hr1 & <-)%(core_threads _ _ _ _ _ _ _ Hc). destruct (decide (r' = r)) as [->|Hne].
    + exists h'. split; [by apply list_lookup_insert_eq|]. congruence.
    + exists h1. by rewrite list_lookup_insert_ne.
  - intros r' h1 [(<- & <- & _)|(Hne & Hr1)]%list_lookup_insert_Some Hx; [congruence|]. by apply (core_others _ _ _ _ _ _ _ Hc r').
  - intros t. rewrite chunks_thread_app, of_thread_one, (core_order _ _ _ _ _ _ _ Hc). unfold pending.
    destruct (th !! t) as [r'|] eqn:Et; [rewrite Hqu|].
    + case_decide as E1; [subst t|].
      * rewrite Hm in Et. simplify_eq. rewrite decide_True by done. unfold queue_of. rewrite Hr. by rewrite !(assoc_L (++)).
      * rewrite decide_False, app_nil_r; [done|]. intros ->. apply E1. by eapply mapped_inj.
    + rewrite decide_False, app_nil_r by congruence. done.
  - intros r' c'. rewrite Hqu. case_decide as E; [subst r'|apply Hc].
    rewrite elem_of_app, list_elem_of_singleton. intros [Hin| ->]; [|done]. apply (core_queue _ _ _ _ _ _ _ Hc r).
    unfold queue_of. by rewrite Hr.
  - rewrite Hf. exists rest. by rewrite <- (assoc_L (++)).
Qed.

Lemma core_new t :
  th !! t = None ->
  core file (<[t := length hs]> th) (hs ++ [createNewThreadLocalHeap t]) (mq ++ [length hs]) sl lg hd.
Proof.
  intros Ht. pose proof (core_pool _ _ _ _ _ _ _ Hc) as Hp. set (r := length hs).
  assert (Hn : hs !! r = None) by (by apply lookup_ge_None).
  assert (Hh : ~ held mq sl r) by (intros [? Hx]%(pool_ref _ _ _ Hp); congruence).
  assert (Hfl : flight sl r = []) by (apply flight_none; intros i p Hi Hpr; apply Hh; right; eauto).
  assert (Hold : forall r', r' <> r -> (hs ++ [createNewThreadLocalHeap t]) !! r' = hs !! r').
  { intros r' Hne. destruct (hs !! r') eqn:E; [by apply lookup_app_l_Some|].
    apply lookup_ge_None. rewrite length_app. apply lookup_ge_None in E. cbn. unfold r in Hne. lia. }
  assert (Hnew : (hs ++ [createNewThreadLocalHeap t]) !! r = Some (createNewThreadLocalHeap t)) by (by apply list_lookup_middle).
  assert (Hqu : forall r', queue_of (hs ++ [createNewThreadLocalHeap t]) r' = queue_of hs r').
  { intros r'. unfold queue_of. destruct (decide (r' = r)) as [->|Hne]; [by rewrite Hnew, Hn|by rewrite Hold]. }
  split; try apply Hc.
  - eapply (pool_enqueue hs); eauto.
  - intros t' r' [(<- & <-)|(Hne & Ht')]%lookup_insert_Some; [by eauto|].
    destruct (core_threads _ _ _ _ _ _ _ Hc _ _ Ht') as (h & Hr & <-). exists h. rewrite Hold; [done|]. congruence.
  - intros r' h Hr Hx. destruct (decide (r' = r)) as [->|Hne].
    + rewrite Hnew in Hr. simplify_eq. by rewrite lookup_insert_eq in Hx.
    + rewrite Hold in Hr by done. apply (core_others _ _ _ _ _ _ _ Hc r' h Hr). intros E. apply Hx.
      rewrite lookup_insert_ne; [done|]. intros E'. congruence.
  - intros t'. rewrite (core_order _ _ _ _ _ _ _ Hc). f_equal. unfold pending. destruct (decide (t' = t)) as [->|Hne].
    + by rewrite Ht, lookup_insert_eq, Hfl, Hqu; unfold queue_of; rewrite Hn.
    + rewrite lookup_insert_ne by done. by destruct (th !! t') as [r'|]; rewrite ?Hqu.
  - intros t'. rewrite (core_begun _ _ _ _ _ _ _ Hc). f_equal. unfold flying. destruct (decide (t' = t)) as [->|Hne].
    + by rewrite Ht, lookup_insert_eq.
    + by rewrite lookup_insert_ne.
  - intros r' c. rewrite Hqu. apply Hc.
  - intros t' [Ht' _]%lookup_insert_None. by apply Hc.
Qed.

Lemma core_remove th' :
  covered th hs [] -> clean lg -> th' ⊆ th -> core file th' hs mq sl lg hd.
Proof.
  intros Hv Hcl Hsub.
  assert (Hp : forall t, pending th' hs sl t = pending th hs sl t /\ flying th' sl t = flying th sl t).
  { intros t. unfold pending, flying. destruct (th' !! t) as [r|] eqn:E.
    - by rewrite (lookup_weaken _ _ _ _ E Hsub).
    - destruct (th !! t) as [r|] eqn:E'; [|done]. destruct (Hv t r E') as [?%elem_of_nil|Hpk]; [done|].
      pose proof (parked_pending _ _ _ _ _ _ _ Hc t r E' Hpk) as Hx. unfold pending in Hx. rewrite E' in Hx.
      rewrite Hx. by apply app_eq_nil in Hx as [-> _]. }
  split; try apply Hc.
  - intros t r Ht. eapply (core_threads _ _ _ _ _ _ _ Hc). by eapply lookup_weaken.
  - intros r h Hr Hx. destruct (decide (th !! internalThreadName h = Some r)) as [E|E].
    + destruct (Hv _ _ E) as [?%elem_of_nil|(h' & Hr' & ?)]; [done|by simplify_eq].
    + by apply (core_others _ _ _ _ _ _ _ Hc r).
  - intros t. destruct (Hp t) as [-> _]. apply Hc.
  - intros t. destruct (Hp t) as [_ ->]. apply Hc.
  - intros t _. apply Hcl.
Qed.

(** ** The master while a slave works *)

Lemma stage_mono hs' sl' es m :
  (forall r, parked hs r -> parked hs' r) ->
  (all_ended lg hd -> forall t, dirty t lg = false -> dirty t (lg ++ es) = false) ->
  (all_ended lg hd -> forall t r, th !! t = Some r -> due hs sl r -> dirty t (lg ++ es) = false \/ due hs' sl' r) ->
  stage_ok th hs sl lg hd m -> stage_ok th hs' sl' (lg ++ es) hd m.
Proof.
  intros Hpk Hdi Hdu. assert (He : forall c, End c ∈ lg -> End c ∈ lg ++ es) by (intros; apply elem_of_app; by left).
  assert (Hs : sync_ended lg hd -> sync_ended (lg ++ es) hd) by (intros H c Hin Hl; by apply He, H).
  assert (Ha : all_ended lg hd -> all_ended (lg ++ es) hd) by (intros H c Hin; by apply He, H).
  assert (Hv : forall todo, covered th hs todo -> covered th hs' todo).
  { intros todo H t r Ht. destruct (H t r Ht); auto. }
  assert (Hcl : all_ended lg hd -> clean lg -> clean (lg ++ es)) by (intros H H' t; by apply Hdi).
  assert (Hcb : forall todo, all_ended lg hd -> cleaned_but th hs sl lg todo -> cleaned_but th hs' sl' (lg ++ es) todo).
  { intros todo H H' t r Ht. destruct (H' t r Ht) as [?|[?|?]]; [left; by apply Hdi|by right; left|].
    destruct (Hdu H t r Ht); auto. }
  destruct m as [|todo []|todo c|c|c|c r|]; cbn; intros H; auto.
  - destruct H as (? & ? & ?); auto.
  - destruct H as (? & ? & ? & ?); auto.
  - destruct H as (? & ? & ? & ?); auto.
  - destruct H as [? H]. split; [done|]. intros s Hin Hl. destruct (H s Hin Hl); auto.
  - destruct H as (? & ? & ? & ?); auto.
  - destruct H as (? & ? & ? & H & ?). split_and!; auto.
  - destruct H as (? & ? & ?); auto.
  - destruct H as (? & Ha' & ?). split_and!; auto. intros Hf. apply Hcl; auto. apply Ha'. by rewrite Hf.
  - destruct H as (? & Ha' & ? & ?). split_and!; auto. intros Hf. apply Hcl; auto. apply Ha'. by rewrite Hf.
  - destruct H as (? & ? & ?); auto.
Qed.

Lemma parked_insert r h h' r' :
  hs !! r = Some h -> state h <> STATE_PARKED -> parked hs r' -> parked (<[r := h']> hs) r'.
Proof.
  intros Hr Hs (h0 & Hr0 & Hs0). exists h0. rewrite list_lookup_insert_ne; [done|]. intros ->. by simplify_eq.
Qed.

(** A clean-up stays due in a step of a slave that is not in charge of it. *)
Lemma due_insert hs' i p p' r :
  due hs sl r -> sl !! i = Some p ->
  (forall h, hs !! r = Some h -> state h = STATE_IN_QUEUE_FOR_CLEAN_UP -> hs' !! r = Some h) ->
  (works p = Some r -> will_clean p = true -> works p' = Some r /\ will_clean p' = true) ->
  due hs' (<[i := p']> sl) r.
Proof.
  intros [(h & Hr & Hs)|(j & q & Hj & Hw & Hcl)] Hi Hhs Hp; [left; eauto|right].
  destruct (decide (i = j)) as [<-|Hne].
  - exists i, p'. simplify_eq. destruct (Hp Hw Hcl). rewrite list_lookup_insert_eq by (by eapply lookup_lt_Some). done.
  - exists j, q. by rewrite list_lookup_insert_ne.
Qed.

End Steps.

(** ** The invariant *)

Section World.
Variable file : list chunk.
Hypothesis distinct : NoDup file.
Variable MAX_QUEUE_SIZE : Z.

Record sound (w : world) : Prop := Sound {
  sound_core : core file (threads w) (heaps w) (masterQueue w) (slaves w) (log w) (handed w);
  sound_stage : stage_ok (threads w) (heaps w) (slaves w) (log w) (handed w) (master w);
}.

Lemma on_heap_done r w f w' : on_heap r w f = Done w' -> exists h, heaps w !! r = Some h /\ f h = Done w'.
Proof. unfold on_heap. destruct (heaps w !! r); [eauto|done]. Qed.

Lemma took_sound i r w w' : sound w -> slaves w !! i = Some (Took r) -> slave_run i w = Done w' -> sound w'.
Proof.
  intros [Hc Hst] Hi. unfold slave_run. rewrite Hi. intros (h & Hr & H)%on_heap_done.
  destruct (took_state _ _ _ _ _ _ (core_pool _ _ _ _ _ _ _ Hc) Hi Hr) as [Hs|Hs]; rewrite Hs in H; injection H as <-;
    (split; cbn; [by apply (core_begin_work _ _ _ _ _ _ _ Hc)|]); rewrite <- (app_nil_r (log w)).
  all: apply (stage_mono _ (heaps w) (slaves w)); rewrite ?app_nil_r; auto.
  1, 3: intros r'; apply (parked_insert _ _ h); [done|congruence].
  all: intros _ t r' Ht Hd; right; destruct (decide (r' = r)) as [->|Hne].
  2, 4: eapply due_insert; [done|done| |done]; intros h'; by rewrite list_lookup_insert_ne.
  - exfalso. destruct Hd as [(h' & Hr' & Hs')|(j & p & Hj & Hw & _)]; [congruence|].
    assert (i = j) as <- by (eapply (pool_one _ _ _ (core_pool _ _ _ _ _ _ _ Hc)); eauto using works_has). by simplify_eq.
  - right. exists i, (Polling r true). split; [|done]. apply list_lookup_insert_eq. by eapply lookup_lt_Some.
Qed.

Lemma polling_sound i r cl w w' : sound w -> slaves w !! i = Some (Polling r cl) -> slave_run i w = Done w' -> sound w'.
Proof.
  intros [Hc Hst] Hi. unfold slave_run. rewrite Hi. intros (h & Hr & H)%on_heap_done.
  pose proof (works_state _ _ _ _ _ _ _ (core_pool _ _ _ _ _ _ _ Hc) Hi eq_refl Hr) as Hs.
  pose proof (pending_at _ _ _ _ _ _ _ Hc i r h _ Hr Hi eq_refl) as Hpe.
  destruct (queue h) as [|c q] eqn:Hq; injection H as <-; (split; cbn).
  - by apply (core_polled _ _ _ _ _ _ _ Hc i r h).
  - rewrite <- (app_nil_r (log w)). apply (stage_mono _ (heaps w) (slaves w)); rewrite ?app_nil_r; auto.
    intros _ t r' Ht Hd. right. eapply due_insert; [done|done|done|]. by destruct cl.
  - by apply (core_begin _ _ _ _ _ _ _ distinct Hc).
  - apply (stage_mono _ (heaps w) (slaves w)); auto; [intros r'; apply (parked_insert _ _ h); [done|congruence]|..].
    all: intros Ha; rewrite (pending_none _ _ _ _ _ _ _ distinct Hc _ Ha) in Hpe; done.
Qed.

Lemma parsing_sound i r cl c w w' : sound w -> slaves w !! i = Some (Parsing r cl c) -> slave_run i w = Done w' -> sound w'.
Proof.
  intros [Hc Hst] Hi. unfold slave_run. rewrite Hi. intros [= <-].
  destruct (has_mapped _ _ _ _ _ _ _ Hc i _ r Hi eq_refl) as (h & Hr & _).
  pose proof (pending_at _ _ _ _ _ _ _ Hc i r h _ Hr Hi eq_refl) as Hpe. cbn in Hpe. rewrite decide_True in Hpe by done.
  split; cbn; [by apply (core_end _ _ _ _ _ _ _ distinct Hc i r h)|].
  apply (stage_mono _ (heaps w) (slaves w)); auto.
  all: intros Ha; rewrite (pending_none _ _ _ _ _ _ _ distinct Hc _ Ha) in Hpe; done.
Qed.

Lemma cleanUp_sound i r w w' : sound w -> slaves w !! i = Some (CleanUp r) -> slave_run i w = Done w' -> sound w'.
Proof.
  intros [Hc Hst] Hi. unfold slave_run. rewrite Hi. intros (h & Hr & [= <-])%on_heap_done.
  split; cbn; [by apply (core_cleaned _ _ _ _ _ _ _ Hc)|].
  apply (stage_mono _ (heaps w) (slaves w)); auto; intros _ t.
  - apply dirty_cleaned.
  - intros r' Ht Hd. destruct (decide (r' = r)) as [->|Hne].
    + left. destruct (core_threads _ _ _ _ _ _ _ Hc _ _ Ht) as (h' & Hr' & <-). simplify_eq.
      rewrite dirty_snoc. cbn. by rewrite decide_True.
    + right. eapply due_insert; [done|done|done|]. cbn. congruence.
Qed.

Lemma parking_sound i r w w' : sound w -> slaves w !! i = Some (Parking r) -> slave_run i w = Done w' -> sound w'.
Proof.
  intros [Hc Hst] Hi. unfold slave_run. rewrite Hi. intros (h & Hr & [= <-])%on_heap_done.
  pose proof (works_state _ _ _ _ _ _ _ (core_pool _ _ _ _ _ _ _ Hc) Hi eq_refl Hr) as Hs.
  assert (Hd : forall s r', due (heaps w) (slaves w) r' -> due (<[r := set_state s h]> (heaps w)) (<[i := Idle]> (slaves w)) r').
  { intros s r' Hd. eapply due_insert; [done|done| |done]. intros h' Hr' Hs'.
    rewrite list_lookup_insert_ne; [done|]. intros ->. congruence. }
  destruct (queue h) eqn:Hq; (split; cbn; [apply (core_park _ _ _ _ _ _ _ Hc); auto|]); rewrite <- (app_nil_r (log w));
    apply (stage_mono _ (heaps w) (slaves w)); rewrite ?app_nil_r; auto;
    intros r'; apply (parked_insert _ _ h); by try congruence.
Qed.

Lemma slave_sound i w w' : sound w -> slave_run i w = Done w' -> sound w'.
Proof.
  intros Hs H. pose proof H as H'. unfold slave_run in H'. destruct (slaves w !! i) as [[]|] eqn:Hi; [|..|done].
  - destruct Hs as [Hc Hst]. destruct (masterQueue w) as [|r rest] eqn:Hq; [done|]. injection H' as <-. split; cbn.
    + by apply (core_take _ _ _ _ _ _ _ Hc).
    + rewrite <- (app_nil_r (log w)). apply (stage_mono _ (heaps w) (slaves w)); rewrite ?app_nil_r; auto.
      intros _ t r' Ht Hd. right. by eapply due_insert.
  - by eapply took_sound.
  - by eapply polling_sound.
  - by eapply parsing_sound.
  - by eapply cleanUp_sound.
  - by eapply parking_sound.
Qed.

(** No slave finds a heap in a state it does not expect. *)
Lemma slave_not_wrong i w : sound w -> slave_run i w <> Wrong.
Proof.
  intros [Hc _]. unfold slave_run. destruct (slaves w !! i) as [p|] eqn:Hi; [|done].
  assert (Hh : forall r f, has p = Some r -> (forall h, heaps w !! r = Some h -> f h <> Wrong) -> on_heap r w f <> Wrong).
  { intros r f Hp Hf. destruct (has_mapped _ _ _ _ _ _ _ Hc i p r Hi Hp) as (h & Hr & _). unfold on_heap. rewrite Hr. auto. }
  destruct p as [|r|r cl|r cl c|r|r]; [by destruct (masterQueue w)|..|done| |]; try apply Hh; try done; intros h Hr.
  - by destruct (took_state _ _ _ _ _ _ (core_pool _ _ _ _ _ _ _ Hc) Hi Hr) as [-> | ->].
  - by destruct (queue h).
Qed.

(** ** The flow of the entries *)

(** What the master and the dispatcher have in their hands. *)
Definition in_hand (m : master_phase) : list chunk :=
  match m with
  | Waiting _ (ThenCleanUps (Some c)) | Waiting _ (ThenRemove c) | Waiting _ (ThenAdd c)
  | CleaningUp _ (Some c) | Removing c | Adding c | Putting c _ => [c]
  | _ => []
  end.

Definition counted (d : dispatcher_phase) : list chunk := match d with Full c => [c] | _ => [] end.

(** The master has taken [NULL]. *)
Definition at_end (m : master_phase) : bool :=
  match m with
  | Waiting _ (ThenCleanUps None) | CleaningUp _ None | Waiting _ ThenFinish | Finished => true
  | _ => false
  end.

(** [NULL] on its way to the master. *)
Definition null_entry (d : dispatcher_phase) (m : master_phase) : list (option chunk) :=
  match d with IO_finished => if at_end m then [] else [None] | _ => [] end.

Definition parsing_size (p : slave_phase) : Z := match parses p with Some c => limit c | None => 0 end.
Definition queued_size (h : ThreadLocalHeap) : Z := sumz limit (queue h).

Record flow (w : world) : Prop := Flow {
  flow_file : exists l, file = handed w ++ in_hand (master w) ++ l ++ counted (dispatcher w) ++ scanner w /\
    chunks w = (Some <$> l) ++ null_entry (dispatcher w) (master w);
  flow_end : (at_end (master w) = true -> dispatcher w = IO_finished /\ chunks w = []) /\
    (dispatcher w = IO_finished -> scanner w = []);
  flow_size : queueSize w = sumz limit (counted (dispatcher w)) + sumz limit (omap id (chunks w)) +
    sumz limit (in_hand (master w)) + sumz queued_size (heaps w) + sumz parsing_size (slaves w);
  flow_known : forall t r, threads w !! t = Some r -> exists c, c ∈ file /\ thread c = t;
}.

Lemma slave_flow i w w' : flow w -> slave_run i w = Done w' -> flow w'.
Proof using.
  intros [Hf He Hs Hk]. unfold slave_run. destruct (slaves w !! i) as [p|] eqn:Hi; [|done].
  assert (Hin : forall w1, handed w1 = handed w -> master w1 = master w -> dispatcher w1 = dispatcher w ->
    scanner w1 = scanner w -> chunks w1 = chunks w -> threads w1 = threads w ->
    queueSize w1 - sumz queued_size (heaps w1) - sumz parsing_size (slaves w1) =
    queueSize w - sumz queued_size (heaps w) - sumz parsing_size (slaves w) -> flow w1).
  { intros w1 E1 E2 E3 E4 E5 E6 E7. split; rewrite ?E1, ?E2, ?E3, ?E4, ?E5, ?E6; try done. lia. }
  destruct p as [|r|r cl|r cl c|r|r].
  - destruct (masterQueue w); [done|]. intros [= <-]. apply Hin; try done. cbn. erewrite sumz_insert by done. cbn. lia.
  - intros (h & Hr & H)%on_heap_done. destruct (state h); try done; injection H as <-; apply Hin; try done; cbn;
      erewrite !sumz_insert by done; unfold queued_size, parsing_size; cbn; lia.
  - intros (h & Hr & H)%on_heap_done. destruct (queue h) eqn:Hq; injection H as <-; apply Hin; try done; cbn;
      erewrite !sumz_insert by done; unfold queued_size, parsing_size; rewrite ?Hq, ?sumz_cons; destruct cl; cbn; lia.
  - intros [= <-]. apply Hin; try done. cbn. erewrite !sumz_insert by done. unfold parsing_size. cbn. lia.
  - intros (h & Hr & [= <-])%on_heap_done. apply Hin; try done. cbn. erewrite !sumz_insert by done. unfold parsing_size. cbn. lia.
  - intros (h & Hr & [= <-])%on_heap_done. destruct (queue h) eqn:Hq; apply Hin; try done; cbn;
      erewrite !sumz_insert by done; unfold queued_size, parsing_size; cbn; lia.
Qed.

(** ** Steps of the master *)

Lemma elem_values r w : r ∈ values w <-> exists t, threads w !! t = Some r.
Proof using.
  unfold values. rewrite list_elem_of_fmap. split.
  - intros ([t r'] & -> & Hin%elem_of_map_to_list). eauto.
  - intros [t Ht]. exists (t, r). split; [done|]. by apply elem_of_map_to_list.
Qed.

Lemma values_refs w : refs (threads w) (values w).
Proof using. intros r. by rewrite elem_values. Qed.

Lemma values_covered w hs : covered (threads w) hs (values w).
Proof using. intros t r Ht. left. apply elem_values. eauto. Qed.

Lemma values_distinct w : sound w -> NoDup (values w).
Proof using.
  intros [Hc _]. unfold values. apply NoDup_fmap_2_strong; [|apply NoDup_map_to_list].
  intros [t r] [t' r'] Hin%elem_of_map_to_list Hin'%elem_of_map_to_list E. cbn in E. subst r'.
  f_equal. by eapply (mapped_inj _ _ _ _ _ _ _ Hc).
Qed.

(** All heaps are parked: all clean-ups that were due are done. *)
Lemma covered_clean w :
  sound w -> covered (threads w) (heaps w) [] -> cleaned_but (threads w) (heaps w) (slaves w) (log w) [] -> clean (log w).
Proof using.
  intros [Hc _] Hv Hb t. destruct (threads w !! t) as [r|] eqn:Ht; [|by apply (core_removed _ _ _ _ _ _ _ Hc)].
  destruct (Hb t r Ht) as [?|[?%elem_of_nil|Hd]]; [done..|]. exfalso.
  destruct (Hv t r Ht) as [?%elem_of_nil|(h & Hr & Hs)]; [done|].
  destruct Hd as [(h' & Hr' & Hs')|(i & p & Hi & Hw & _)]; [congruence|].
  pose proof (works_state _ _ _ _ _ _ _ (core_pool _ _ _ _ _ _ _ Hc) Hi Hw Hr). congruence.
Qed.

Lemma waiting_sound todo k w w' :
  sound w -> master w = Waiting todo k -> waitUntilParked todo k w = Done w' -> sound w'.
Proof using distinct.
  intros Hs Hm. pose proof Hs as [Hc Hst]. rewrite Hm in Hst. destruct todo as [|r todo]; cbn.
  - intros [= <-]. split; cbn; [done|]. destruct Hst as [_ Hst]. destruct k as [c|c|c| |]; cbn.
    + destruct Hst as [Hse Hv]. pose proof (covered_ended _ _ _ _ _ _ _ Hc Hv) as Ha. split_and!; auto using values_distinct, values_refs.
      * intros r [t Ht]%elem_values. by destruct (Hv t r Ht) as [?%elem_of_nil|?].
      * intros t r Ht. right. left. apply elem_values. eauto.
    + destruct Hst as (? & ? & ?). eauto using covered_clean.
    + destruct Hst as (? & ? & ?). split_and!; [done|intros; by apply (covered_ended _ _ _ _ _ _ _ Hc)|done].
    + intros s Hin Hl. destruct (Hst s Hin Hl) as [?|(r & ?%elem_of_nil & _)]; done.
    + destruct Hst as (? & ? & ?). eauto using covered_clean.
  - intros (h & Hr & H)%on_heap_done. case_decide as Hpk; [|done]. injection H as <-. split; [done|]. cbn.
    destruct Hst as [Hre Hst]. split; [intros r' Hin; apply Hre; by constructor|].
    assert (Hv : covered (threads w) (heaps w) (r :: todo) -> covered (threads w) (heaps w) todo).
    { intros Hv t r' Ht. destruct (Hv t r' Ht) as [[->|?]%elem_of_cons|?]; auto. right. by exists h. }
    destruct k as [c|c|c| |]; try (destruct_and!; by auto).
    intros s Hin Hl. destruct (Hst s Hin Hl) as [?|(r' & [->|?]%elem_of_cons & Ht)]; [by left| |eauto].
    left. apply (handed_ended _ _ _ _ _ _ _ Hc); [done|]. apply (parked_pending _ _ _ _ _ _ _ Hc _ r Ht). by exists h.
Qed.

Lemma cleaning_sound todo c w w' :
  sound w -> master w = CleaningUp todo c -> insertCleanUps todo c w = Done w' -> sound w'.
Proof using.
  intros Hs Hm. pose proof Hs as [Hc Hst]. rewrite Hm in Hst. destruct Hst as (Ha & Hnd & Hre & Hpk & Hcb). destruct todo as [|r todo]; cbn.
  - intros [= <-]. split; [done|]. cbn. split; [apply values_refs|]. destruct c; auto using values_covered.
  - intros (h & Hr & [= <-])%on_heap_done. pose proof (lookup_lt_Some _ _ _ Hr) as Hlt. apply NoDup_cons in Hnd as [Hni Hnd].
    destruct (Hre r) as [t Ht]; [by constructor|]. destruct (core_threads _ _ _ _ _ _ _ Hc _ _ Ht) as (h' & Hr' & <-). simplify_eq.
    destruct (Hpk r) as (h' & Hr' & Hsp); [by constructor|]. simplify_eq.
    pose proof (core_pool _ _ _ _ _ _ _ Hc) as Hp. split; cbn.
    + apply (core_state _ _ _ _ _ _ _ Hc); auto. eapply (pool_enqueue (heaps w)); [done|by apply (parked_free _ _ _ _ _ Hp Hr)|..].
      * intros r' Hne. by apply list_lookup_insert_ne.
      * by apply list_lookup_insert_eq.
      * by right.
    + split_and!; [done|done|intros r' Hin; apply Hre; by constructor|..].
      * intros r' Hin. destruct (Hpk r') as (h' & Hr' & ?); [by constructor|]. exists h'. rewrite list_lookup_insert_ne; [done|].
        by intros ->.
      * intros t r' Ht'. destruct (decide (r' = r)) as [->|Hne].
        -- right. right. left. eexists. by rewrite list_lookup_insert_eq.
        -- destruct (Hcb t r' Ht') as [?|[[?|?]%elem_of_cons|Hd]]; auto; [done|]. right. right.
           destruct Hd as [(h' & Hr' & ?)|?]; [left|by right]. exists h'. by rewrite list_lookup_insert_ne.
Qed.

Lemma putting_sound c r rest w w' :
  sound w -> master w = Putting c r -> file = handed w ++ c :: rest ->
  addToThreadLocalHeap c r w = Done w' ->
  sound (set_master (if decide (sync c = NONE) then Taking else Waiting [r] ThenTake) w').
Proof using distinct.
  intros [Hc Hst] Hm Hf (h & Hr & [= <-])%on_heap_done. rewrite Hm in Hst. destruct Hst as (Hse & Ha & Hcl & Ht).
  pose proof (lookup_lt_Some _ _ _ Hr) as Hlt. pose proof (core_pool _ _ _ _ _ _ _ Hc) as Hp.
  pose proof (next_settled file (log w) (handed w) distinct c rest Hf Hse Ha Hcl) as Hset.
  split; cbn.
  - case_decide as Hpk; cbn; apply (core_put _ _ _ _ _ _ _ distinct Hc c r h _ _ rest); auto.
    + eapply (pool_enqueue (heaps w)); [done|by apply (parked_free _ _ _ _ _ Hp Hr)|..].
      * intros r' Hne. by apply list_lookup_insert_ne.
      * by apply list_lookup_insert_eq.
      * by left.
    + by apply pool_queue.
  - case_decide; case_decide; cbn.
    1, 3: intros s; rewrite elem_of_app, list_elem_of_singleton; intros [?| ->] Hl; [by apply Hse|done].
    all: split; [intros r' ->%list_elem_of_singleton; eauto|]; intros s; rewrite elem_of_app, list_elem_of_singleton;
      intros [?| ->] Hl; [left; by apply Hse|right]; exists r; (split; [by constructor|done]).
Qed.

Record inv (w : world) : Prop := Inv { inv_sound : sound w; inv_flow : flow w }.

Lemma master_sound has_labs w w' : inv w -> processQueueEntries has_labs w = Done w' -> sound w'.
Proof using distinct.
  intros [Hs Hfl]. pose proof Hs as [Hc Hst]. unfold processQueueEntries. destruct (master w) as [|todo k|todo c|c|c|c r|] eqn:Hm.
  - destruct (chunks w) as [|[c|] rest]; [done|..]; intros [= <-]; cbn in Hst; (split; [done|]); cbn; change (values (set_chunks rest w)) with (values w).
    + destruct (sync c) eqn:Hl; cbn; auto using values_refs, values_covered.
      * split_and!; [done|congruence|congruence].
      * split_and!; auto using values_refs, values_covered. by rewrite Hl.
    + auto using values_refs, values_covered.
  - intros H. by eapply waiting_sound.
  - intros H. by eapply cleaning_sound.
  - intros [= <-]. destruct Hst as (Ha & Hv & Hcl). split; cbn.
    + apply (core_remove _ _ _ _ _ _ _ Hc); [done|done|]. apply map_filter_subseteq.
    + split_and!; auto. intros s Hin _. by apply Ha.
  - destruct Hst as (? & ? & ?). destruct (threads w !! thread c) as [r|] eqn:Ht; intros [= <-]; (split; cbn; [|split_and!; auto]).
    + done.
    + by apply (core_new _ _ _ _ _ _ _ Hc).
    + by rewrite lookup_insert_eq.
  - intros H. results. destruct Hfl as [(l & Hf & _) _ _ _]. rewrite Hm in Hf. cbn in Hf. by eapply putting_sound.
  - done.
Qed.

Lemma master_not_wrong has_labs w : inv w -> processQueueEntries has_labs w <> Wrong.
Proof using.
  intros [[Hc Hst] _]. unfold processQueueEntries.
  assert (Hh : forall r f, (exists t, threads w !! t = Some r) -> (forall h, f h <> Wrong) -> on_heap r w f <> Wrong).
  { intros r f (t & Ht) Hf. destruct (core_threads _ _ _ _ _ _ _ Hc _ _ Ht) as (h & Hr & _). unfold on_heap. by rewrite Hr. }
  destruct (master w) as [|todo k|todo c|c|c|c r|]; [|..|done].
  - by destruct (chunks w) as [|[] ?].
  - destruct todo as [|r todo]; cbn; [done|]. destruct Hst as [Hre _]. apply Hh; [apply Hre; by constructor|].
    intros h. by case_decide.
  - destruct todo as [|r todo]; cbn; [done|]. destruct Hst as (_ & _ & Hre & _). apply Hh; [apply Hre; by constructor|done].
  - done.
  - by destruct (threads w !! thread c).
  - destruct Hst as (_ & _ & _ & Ht). destruct (addToThreadLocalHeap c r w) eqn:E; [done|done|]. exfalso. revert E.
    apply Hh; [by exists (thread c)|done].
Qed.

(** A step that changes the place of no entry. *)
Lemma flow_same w w' :
  flow w -> handed w' = handed w -> in_hand (master w') = in_hand (master w) -> at_end (master w') = at_end (master w) ->
  dispatcher w' = dispatcher w -> scanner w' = scanner w -> chunks w' = chunks w -> slaves w' = slaves w ->
  queueSize w' = queueSize w -> sumz queued_size (heaps w') = sumz queued_size (heaps w) ->
  (forall t r, threads w' !! t = Some r -> exists c, c ∈ file /\ thread c = t) -> flow w'.
Proof using.
  intros [Hf He Hs Hk] E1 E2 E3 E4 E5 E6 E7 E8 E9 Hk'. unfold null_entry in *.
  split; unfold null_entry; rewrite ?E1, ?E2, ?E3, ?E4, ?E5, ?E6; try done. rewrite E7, E8, E9. done.
Qed.

Lemma sumz_queue r h h' w :
  heaps w !! r = Some h -> queue h' = queue h -> sumz queued_size (<[r := h']> (heaps w)) = sumz queued_size (heaps w).
Proof using. intros Hr Hq. erewrite sumz_insert by done. unfold queued_size. rewrite Hq. lia. Qed.

Lemma taking_flow w w' :
  flow w -> master w = Taking -> processQueueEntries (fun _ => true) w = Done w' -> flow w'.
Proof using.
  intros [(l & Hf & Hch) [He1 He2] Hs Hk] Hm. unfold processQueueEntries. rewrite Hm in *. cbn in *. rewrite Hch in *.
  destruct l as [|c l]; cbn in *.
  - destruct (dispatcher w) eqn:Hd; cbn; [done..|]. intros [= <-]. split; cbn; rewrite ?Hd; try done. exists []. done.
  - intros [= <-]. unfold processQueueEntry. destruct (sync c); split; cbn; try done.
    all: try (exists l; by rewrite Hf). all: rewrite Hs; autorewrite with antz; lia.
Qed.

Lemma putting_flow c r w w' :
  flow w -> master w = Putting c r -> addToThreadLocalHeap c r w = Done w' ->
  flow (set_master (if decide (sync c = NONE) then Taking else Waiting [r] ThenTake) w').
Proof using.
  intros [(l & Hf & Hch) [He1 He2] Hs Hk] Hm (h & Hr & [= <-])%on_heap_done. rewrite Hm in *. cbn in *.
  assert (Hq : forall s, sumz queued_size (<[r := Heap (internalThreadName h) s (queue h ++ [c])]> (heaps w)) =
    sumz queued_size (heaps w) + limit c).
  { intros s. erewrite sumz_insert by done. unfold queued_size. cbn. autorewrite with antz. lia. }
  split; case_decide; case_decide; cbn; try done.
  all: try (exists l; split; [by rewrite Hf, <- !(assoc_L (++))|done]).
  all: unfold set_state, set_queue; cbn; rewrite Hq, Hs; autorewrite with antz; lia.
Qed.

Lemma master_flow has_labs w w' : flow w -> processQueueEntries has_labs w = Done w' -> flow w'.
Proof using.
  intros Hfl H. destruct (master w) as [|todo k|todo c|c|c|c r|] eqn:Hm; unfold processQueueEntries in H; rewrite Hm in H; pose proof (flow_known _ Hfl) as Hk.
  - eapply taking_flow; [done|done|]. unfold processQueueEntries. by rewrite Hm.
  - destruct todo as [|r todo]; cbn in H.
    + injection H as <-. apply (flow_same w); auto; cbn; rewrite Hm; by destruct k.
    + apply on_heap_done in H as (h & Hr & H). case_decide; [|done]. injection H as <-.
      apply (flow_same w); auto; cbn; by rewrite Hm.
  - destruct todo as [|r todo]; cbn in H.
    + injection H as <-. apply (flow_same w); auto; cbn; rewrite Hm; by destruct c.
    + apply on_heap_done in H as (h & Hr & [= <-]). apply (flow_same w); auto; cbn; rewrite ?Hm; try done. by eapply sumz_queue.
  - injection H as <-. apply (flow_same w); auto; cbn; rewrite ?Hm; try done.
    intros t r [Ht _]%map_lookup_filter_Some. by eapply Hk.
  - destruct (threads w !! thread c) as [r|] eqn:Ht; injection H as <-.
    + apply (flow_same w); auto; cbn; by rewrite Hm.
    + apply (flow_same w); auto; cbn; rewrite ?Hm; try done.
      * autorewrite with antz. change (queued_size (createNewThreadLocalHeap (thread c))) with 0. lia.
      * intros t r [[<- _]|[_ Hx]]%lookup_insert_Some; [|by eapply Hk].
        destruct (flow_file _ Hfl) as (l & Hf & _). rewrite Hm in Hf. exists c. split; [|done]. rewrite Hf. apply elem_of_app. right. by constructor.
  - results. by eapply putting_flow.
  - done.
Qed.

Lemma dispatch_flow w w' : flow w -> dispatch MAX_QUEUE_SIZE w = Done w' -> flow w'.
Proof using.
  intros [(l & Hf & Hch) [He1 He2] Hs Hk]. unfold dispatch. destruct (dispatcher w) as [|c|] eqn:Hd; [| |done]; cbn in *.
  - rewrite app_nil_r in Hch. destruct (scanner w) as [|c sc] eqn:Hsc; intros [= <-]; (split; cbn; [..|done]).
    + destruct (at_end (master w)) eqn:Hat; [by destruct (He1 eq_refl)|]. exists l. by rewrite Hch.
    + split; [|done]. intros Hat. by destruct (He1 Hat).
    + rewrite Hs, omap_app. cbn. autorewrite with antz. lia.
    + exists l. by rewrite app_nil_r.
    + split; [|done]. intros Hat. by destruct (He1 Hat).
    + rewrite Hs. autorewrite with antz. lia.
  - rewrite app_nil_r in Hch. destruct (_ >? _); [done|]. intros [= <-]. split; cbn; [..|done].
    + exists (l ++ [c]). rewrite app_nil_r, Hch, fmap_app. split; [|done]. by rewrite Hf, <- !(assoc_L (++)).
    + split; [|done]. intros Hat. by destruct (He1 Hat).
    + rewrite Hs, omap_app. cbn. autorewrite with antz. lia.
Qed.

Lemma exec_keeps_inv a w w' : inv w -> exec MAX_QUEUE_SIZE a w = Done w' -> inv w'.
Proof using distinct.
  intros Hi H. pose proof Hi as [Hs Hf]. destruct a as [|has_labs|i]; cbn in H.
  - split; [|by eapply dispatch_flow]. unfold dispatch in H. destruct Hs as [Hc Hst]. results; by split.
  - split; [by eapply master_sound|by eapply master_flow].
  - split; [by eapply slave_sound|by eapply slave_flow].
Qed.

Lemma exec_not_wrong a w : inv w -> exec MAX_QUEUE_SIZE a w <> Wrong.
Proof using.
  intros Hi. destruct a as [|has_labs|i]; cbn.
  - unfold dispatch. destruct (dispatcher w); [by destruct (scanner w)|by destruct (_ >? _)|done].
  - by apply master_not_wrong.
  - apply slave_not_wrong, Hi.
Qed.

Lemma run_keeps_inv acts w w' : inv w -> run MAX_QUEUE_SIZE acts w = Done w' -> inv w'.
Proof using distinct.
  revert w. induction acts as [|a acts IH]; intros w Hi H; cbn in H; [by simplify_eq|].
  destruct (exec MAX_QUEUE_SIZE a w) as [w1| |] eqn:E; [|done..]. eapply IH; [|done]. by eapply exec_keeps_inv.
Qed.

Lemma start_has_inv n : inv (start file n).
Proof using.
  split; split; cbn; try done.
  - split; try done; [apply pool_start|..].
    + by intros [|] ? ?.
    + by intros r c ?%elem_of_nil.
    + by exists file.
  - intros c ?%elem_of_nil. done.
  - exists []. by rewrite app_nil_r.
  - induction n as [|n IH]; cbn; [done|]. rewrite sumz_cons. done.
Qed.

End World.

(** ** The order of parsing *)

Lemma entries_positions pos frames file :
  entries_from pos frames = Some file -> NoDup file /\ forall c, c ∈ file -> pos < position c.
Proof.
  revert pos file. induction frames as [|e frames IH]; intros pos file; cbn.
  - intros [= <-]. split; [constructor|]. by intros c ?%elem_of_nil.
  - destruct (TraceReader.sync e) as [s|]; [|done]. cbn. destruct (entries_from _ frames) as [rest|] eqn:E; [|done].
    intros [= <-]. destruct (IH _ _ E) as [Hn Hp]. split.
    + apply NoDup_cons. split; [|done]. intros Hin%Hp. cbn in Hin. lia.
    + intros c [->|Hin%Hp]%elem_of_cons; cbn; lia.
Qed.

(** The entry of the file that a queue entry was made of. *)
Definition frame_of (c : chunk) : QueueEntry := Entry (thread c) (buffer c) (isCompressed c) (Some (sync c)).

Lemma entries_frames pos frames file : entries_from pos frames = Some file -> frame_of <$> file = frames.
Proof.
  revert pos file. induction frames as [|e frames IH]; intros pos file; cbn; [by intros [= <-]|].
  destruct e as [t b z [s|]]; [|done]. cbn. destruct (entries_from _ frames) as [rest|] eqn:E; [|done].
  intros [= <-]. cbn. by rewrite (IH _ _ E).
Qed.

Lemma entries_exist pos frames : Forall (fun e => is_Some (TraceReader.sync e)) frames -> is_Some (entries_from pos frames).
Proof.
  intros H. revert pos. induction H as [|e frames [s Hs] _ IH]; intros pos; cbn; [eauto|]. rewrite Hs. cbn.
  destruct (IH (pos + 12 + Z.of_nat (length (TraceReader.buffer e)))) as [rest ->]. cbn. eauto.
Qed.

Lemma frames_of_thread t file :
  frame_of <$> of_thread t file = filter (fun e => TraceReader.thread e = t) (frame_of <$> file).
Proof.
  unfold of_thread. induction file as [|c file IH]; [done|]. cbn [fmap list_fmap]. rewrite !filter_cons. cbn [frame_of TraceReader.thread].
  case_decide; cbn [fmap list_fmap]; by rewrite IH.
Qed.

Lemma flight_one hs mq sl r : pool hs mq sl -> (length (flight sl r) <= 1)%nat.
Proof.
  intros Hp. destruct (flight sl r) as [|c l] eqn:E; [cbn; lia|]. rewrite <- E.
  assert (Hin : c ∈ flight sl r) by (rewrite E; by constructor).
  apply list_elem_of_omap in Hin as (p & (i & Hi)%list_elem_of_lookup & Hpr).
  assert (has p = Some r) by (destruct p; cbn in *; try done; case_decide; by subst).
  rewrite (flight_at _ _ _ _ _ _ Hp Hi) by done. by destruct (parses_of r p); cbn; lia.
Qed.

(** C17: whatever the interleaving of the dispatcher, the master and the
    slaves, no thread throws; the entries of one thread are parsed one at a
    time in the order of the file; and when the parsing of an entry begins,
    that of every earlier entry has ended if one of the two has a sync level
    (and all heaps are cleaned up before an entry of level [FULL]). *)
Theorem parsing_order MAX_QUEUE_SIZE pos frames file n acts w :
  entries_from pos frames = Some file -> run MAX_QUEUE_SIZE acts (start file n) = Done w ->
  (forall a, exec MAX_QUEUE_SIZE a w <> Wrong) /\
  (forall t, ended t (log w) `prefix_of` begun t (log w) /\ begun t (log w) `prefix_of` of_thread t file /\
    (length (begun t (log w)) <= S (length (ended t (log w))))%nat) /\
  (forall l1 c l2, log w = l1 ++ Begin c :: l2 -> settled file c l1).
Proof.
  intros [Hd _]%entries_positions Hr. pose proof (run_keeps_inv file Hd _ _ _ _ (start_has_inv file n) Hr) as Hi.
  pose proof Hi as [[Hc _] _]. split_and!; [intros a; by eapply exec_not_wrong| |by eapply core_log].
  intros t. rewrite (core_begun _ _ _ _ _ _ _ Hc t). split_and!; [by eexists|..].
  - destruct (core_handed _ _ _ _ _ _ _ Hc) as [k Hk]. exists ((match threads w !! t with Some r => queue_of (heaps w) r | None => [] end) ++ of_thread t k).
    rewrite Hk, chunks_thread_app, (core_order _ _ _ _ _ _ _ Hc t). unfold pending, flying.
    destruct (threads w !! t); by rewrite <- !(assoc_L (++)).
  - rewrite length_app. unfold flying. destruct (threads w !! t) as [r|]; [|cbn; lia].
    pose proof (flight_one _ _ _ r (core_pool _ _ _ _ _ _ _ Hc)). lia.
Qed.

(** *** An example: two threads, a buffer with level [FULL] *)

Definition demo_frames : list QueueEntry :=
  [Entry 1 [1; 0; 0; 0] false (Some NONE); Entry 2 [2; 0; 0; 0] false (Some NONE); Entry 1 [3; 0; 0; 0] false (Some FULL);
   Entry 2 [4; 0; 0; 0; 4; 0; 0; 0] false (Some NONE); Entry 1 [5; 0; 0; 0] false (Some ENSURE_ORDER)].

(** A schedule in which the first thread that can act does. *)
Fixpoint greedy (fuel : nat) (prefer : list action) (w : world) : list action :=
  match fuel with
  | O => []
  | S fuel =>
      (fix first (l : list action) : list action :=
         match l with
         | [] => []
         | a :: l => match exec 100 a w with Done w' => a :: greedy fuel prefer w' | _ => first l end
         end) prefer
  end.

Definition demo_acts : list action := greedy 500 [Slave 1; Master (fun r => Nat.eqb r 1); Slave 0; Dispatcher]
  (start (default [] (entries_from 0 demo_frames)) 2).

Lemma parsing_order_witness : exists file w,
  entries_from 0 demo_frames = Some file /\ run 100 demo_acts (start file 2) = Done w /\
  exists l1 c l2, log w = l1 ++ Begin c :: l2 /\ sync c = FULL /\ settled file c l1.
Proof.
  destruct (entries_from 0 demo_frames) as [file|] eqn:Hf; [|by vm_compute in Hf].
  destruct (run 100 demo_acts (start file 2)) as [w| |] eqn:Hr; vm_compute in Hf; injection Hf as <-; [|by vm_compute in Hr..].
  eexists _, w. split; [done|]. split; [done|].
  destruct (parsing_order 100 0 demo_frames _ 2 demo_acts w eq_refl Hr) as (_ & _ & Hs).
  vm_compute in Hr. injection Hr as <-. eexists [_; _; _; _; _; _], _, _. split; [reflexivity|]. split; [reflexivity|]. by eapply Hs.
Defined.

End ParserTheorems.
