(* ===== verification/ParserTermination.v ===== *)
(** * The analyzer parses the whole trace ([parser/TraceParser.java],
      [parser/TraceSlaveParser.java])

    Every step of the analyzer's threads makes a measure smaller, so they all
    come to an end whatever the schedule; and if none of them can go on, the
    master has finished and everything is parsed.  The bound of the queue
    counts: a buffer larger than [MAX_QUEUE_SIZE] stops the dispatcher for
    good. *)

From stdpp Require Import gmap.
From S2P Require Import Prelude EventsWriter EventBuffers ParserThreads ParserPool ParserOrder ParserTheorems.
From Stdlib Require Import ZArith Lia.

Module ParserTermination.
Import TraceReader ParserThreads ParserPool ParserOrder ParserTheorems.

(** ** The measure *)

(** [n] is the number of entries in the file, a bound of the number of heaps. *)
Section Measure.
Variable n : Z.

Definition entry_weight : Z := 14 * n + 70.

Definition continuation_weight (k : continuation) : Z :=
  match k with
  | ThenCleanUps _ => 13 * n + 68
  | ThenRemove _ => 62
  | ThenAdd _ => 61
  | ThenTake | ThenFinish => 0
  end.

Definition master_weight (m : master_phase) : Z :=
  match m with
  | Taking | Finished => 0
  | Waiting todo k => Z.of_nat (length todo) + 1 + continuation_weight k
  | CleaningUp todo _ => 12 * Z.of_nat (length todo) + n + 67
  | Removing _ => 61
  | Adding _ => 60
  | Putting _ _ => 40
  end.

Definition dispatcher_weight (d : dispatcher_phase) : Z :=
  match d with Reading => entry_weight + 1 | Full _ => 2 * entry_weight + 2 | IO_finished => 0 end.

Definition heap_weight (h : ThreadLocalHeap) : Z := 20 * Z.of_nat (length (queue h)).

(** A heap whose queue has an entry is one that is near to be parsed. *)
Definition queued_weight (hs : list ThreadLocalHeap) (r : nat) : Z :=
  match queue_of hs r with [] => 10 | _ => 5 end.

#[global] Arguments heap_weight : simpl never.
#[global] Arguments queued_weight : simpl never.

Definition slave_weight (hs : list ThreadLocalHeap) (p : slave_phase) : Z :=
  match p with
  | Idle => 0
  | Took r => queued_weight hs r - 1
  | Polling r _ => queued_weight hs r - 2
  | Parsing _ _ _ => 9
  | CleanUp _ => 7
  | Parking _ => 6
  end.

Definition measure (w : world) : Z :=
  (entry_weight + 2) * Z.of_nat (length (scanner w)) + dispatcher_weight (dispatcher w) +
  entry_weight * Z.of_nat (length (chunks w)) + master_weight (master w) +
  sumz heap_weight (heaps w) + sumz (queued_weight (heaps w)) (masterQueue w) + sumz (slave_weight (heaps w)) (slaves w).

Lemma queued_weight_pos hs r : 5 <= queued_weight hs r <= 10.
Proof. unfold queued_weight. destruct (queue_of hs r); lia. Qed.

Lemma queued_weight_same hs r h h' r' :
  hs !! r = Some h -> (queue h' = queue h \/ r' <> r) -> queued_weight (<[r := h']> hs) r' = queued_weight hs r'.
Proof.
  intros Hr Hq. pose proof (lookup_lt_Some _ _ _ Hr) as Hlt. unfold queued_weight, queue_of. destruct (decide (r' = r)) as [->|Hne].
  - rewrite list_lookup_insert_eq, Hr by done. destruct Hq as [->|]; done.
  - by rewrite list_lookup_insert_ne.
Qed.

Lemma slave_weight_same hs r h h' p :
  hs !! r = Some h -> (queue h' = queue h \/ has p <> Some r) -> slave_weight (<[r := h']> hs) p = slave_weight hs p.
Proof.
  intros Hr Hq. destruct p; cbn in *; rewrite ?(queued_weight_same _ _ h); try done; (destruct Hq; [by left|right; congruence]).
Qed.

(** Updates of a heap that keep its queue. *)
Lemma weights_same hs r h h' mq sl :
  hs !! r = Some h -> queue h' = queue h ->
  sumz heap_weight (<[r := h']> hs) = sumz heap_weight hs /\
  sumz (queued_weight (<[r := h']> hs)) mq = sumz (queued_weight hs) mq /\
  sumz (slave_weight (<[r := h']> hs)) sl = sumz (slave_weight hs) sl.
Proof.
  intros Hr Hq. split_and!.
  - erewrite sumz_insert by done. unfold heap_weight. rewrite Hq. lia.
  - apply sumz_ext. intros r' _. apply (queued_weight_same _ _ h); auto.
  - apply sumz_ext. intros p _. apply (slave_weight_same _ _ h); auto.
Qed.

(** A slave that has the heap for itself takes an entry from its queue. *)
Lemma weights_pop hs mq sl i r h q p p' :
  pool hs mq sl -> hs !! r = Some h -> sl !! i = Some p -> has p = Some r ->
  sumz (queued_weight (<[r := set_queue q h]> hs)) mq = sumz (queued_weight hs) mq /\
  sumz (slave_weight (<[r := set_queue q h]> hs)) (<[i := p']> sl) =
    sumz (slave_weight hs) sl - slave_weight hs p + slave_weight (<[r := set_queue q h]> hs) p'.
Proof.
  intros Hp Hr Hi Hpr. split.
  - apply sumz_ext. intros r' Hin. apply (queued_weight_same _ _ h); [done|right]. intros ->.
    by apply (pool_apart _ _ _ Hp i p r).
  - assert (H : sumz (slave_weight (<[r := set_queue q h]> hs)) (<[i := Idle]> sl) = sumz (slave_weight hs) (<[i := Idle]> sl)).
    { apply sumz_ext. intros q' (j & [(_ & <- & _)|(Hne & Hj)]%list_lookup_insert_Some)%list_elem_of_lookup; [done|].
      apply (slave_weight_same _ _ h); [done|right]. intros Hq'. by apply Hne; eapply (pool_one _ _ _ Hp). }
    rewrite !(sumz_insert _ _ _ _ _ Hi) in H. rewrite (sumz_insert _ _ _ _ _ Hi). cbn in H. lia.
Qed.

(** The master adds an entry to a queue. *)
Lemma queued_weight_push hs r h h' c r' :
  hs !! r = Some h -> queue h' = queue h ++ [c] -> queued_weight (<[r := h']> hs) r' <= queued_weight hs r'.
Proof.
  intros Hr Hq. pose proof (lookup_lt_Some _ _ _ Hr) as Hlt. unfold queued_weight, queue_of. destruct (decide (r' = r)) as [->|Hne].
  - rewrite list_lookup_insert_eq, Hr, Hq by done. destruct (queue h); cbn; lia.
  - by rewrite list_lookup_insert_ne.
Qed.

Lemma weights_push hs mq sl r h h' c :
  hs !! r = Some h -> queue h' = queue h ++ [c] ->
  sumz heap_weight (<[r := h']> hs) = sumz heap_weight hs + 20 /\
  sumz (queued_weight (<[r := h']> hs)) mq <= sumz (queued_weight hs) mq /\
  sumz (slave_weight (<[r := h']> hs)) sl <= sumz (slave_weight hs) sl.
Proof.
  intros Hr Hq. split_and!.
  - erewrite sumz_insert by done. unfold heap_weight. rewrite Hq, length_app. cbn. lia.
  - apply sumz_le. intros r' _. by eapply queued_weight_push.
  - apply sumz_le. intros p _. destruct p; cbn; try lia; pose proof (queued_weight_push hs r h h' c r0 Hr Hq); lia.
Qed.

End Measure.

(** ** Every step makes it smaller *)

Section Decrease.
Variable file : list chunk.
Hypothesis distinct : NoDup file.
Variable MAX_QUEUE_SIZE : Z.
Let n : Z := Z.of_nat (length file).

Lemma dispatch_decreases w w' : dispatch MAX_QUEUE_SIZE w = Done w' -> measure n w' < measure n w.
Proof.
  unfold dispatch, measure. destruct (dispatcher w) eqn:Hd; [| |done].
  - destruct (scanner w) as [|c sc]; intros [= <-]; cbn -[Z.of_nat]; rewrite ?length_app; cbn -[Z.of_nat Z.mul]; lia.
  - destruct (_ >? _); [done|]. intros [= <-]. cbn -[Z.of_nat]. rewrite length_app. cbn -[Z.of_nat Z.mul]. lia.
Qed.

Lemma queued_weight_at hs r h : hs !! r = Some h -> queued_weight hs r = match queue h with [] => 10 | _ => 5 end.
Proof. intros Hr. unfold queued_weight, queue_of. by rewrite Hr. Qed.

(** What a slave changes. *)
Lemma measure_slave w w' :
  scanner w' = scanner w -> dispatcher w' = dispatcher w -> chunks w' = chunks w -> master w' = master w ->
  sumz heap_weight (heaps w') + sumz (queued_weight (heaps w')) (masterQueue w') + sumz (slave_weight (heaps w')) (slaves w') <
  sumz heap_weight (heaps w) + sumz (queued_weight (heaps w)) (masterQueue w) + sumz (slave_weight (heaps w)) (slaves w) ->
  measure n w' < measure n w.
Proof. unfold measure. intros -> -> -> -> H. lia. Qed.

Lemma slave_decreases i w w' : sound file w -> slave_run i w = Done w' -> measure n w' < measure n w.
Proof.
  intros [Hc _]. pose proof (core_pool _ _ _ _ _ _ _ Hc) as Hp. unfold slave_run.
  destruct (slaves w !! i) as [p|] eqn:Hi; [|done]. destruct p as [|r|r cl|r cl c|r|r].
  - destruct (masterQueue w) as [|r mq] eqn:Hq; [done|]. intros [= <-]. apply measure_slave; try done. cbn.
    rewrite (sumz_insert _ _ _ _ _ Hi), Hq, sumz_cons. cbn. lia.
  - intros (h & Hr & H)%on_heap_done. pose proof (queued_weight_same (heaps w) r h (set_state STATE_IN_PROCESS h) r Hr (or_introl eq_refl)) as Hw.
    destruct (weights_same (heaps w) r h (set_state STATE_IN_PROCESS h) (masterQueue w) (slaves w) Hr eq_refl) as (E1 & E2 & E3).
    destruct (state h); try done; injection H as <-; apply measure_slave; try done; cbn;
      rewrite E1, E2, (sumz_insert _ _ _ _ _ Hi), E3; cbn; lia.
  - intros (h & Hr & H)%on_heap_done. destruct (queue h) as [|c q] eqn:Hq; injection H as <-; apply measure_slave; try done; cbn.
    + rewrite (sumz_insert _ _ _ _ _ Hi). cbn. rewrite (queued_weight_at _ _ _ Hr), Hq. destruct cl; cbn; lia.
    + destruct (weights_pop _ _ _ i r h q _ (Parsing r cl c) Hp Hr Hi eq_refl) as [E1 E2]. rewrite E1, E2.
      rewrite (sumz_insert _ _ _ _ _ Hr). unfold heap_weight at 2 3. cbn -[Z.mul Z.of_nat]. rewrite Hq. pose proof (queued_weight_pos (heaps w) r).
      cbn [length]. lia.
  - intros [= <-]. apply measure_slave; try done. cbn. rewrite (sumz_insert _ _ _ _ _ Hi). cbn.
    pose proof (queued_weight_pos (heaps w) r). lia.
  - intros (h & Hr & [= <-])%on_heap_done. apply measure_slave; try done. cbn. rewrite (sumz_insert _ _ _ _ _ Hi). cbn. lia.
  - intros (h & Hr & [= <-])%on_heap_done. destruct (queue h) as [|c q] eqn:Hq; apply measure_slave; try done; cbn.
    + destruct (weights_same (heaps w) r h (set_state STATE_PARKED h) (masterQueue w) (slaves w) Hr eq_refl) as (E1 & E2 & E3).
      rewrite E1, E2, (sumz_insert _ _ _ _ _ Hi), E3. cbn. lia.
    + destruct (weights_same (heaps w) r h (set_state STATE_IN_QUEUE h) (masterQueue w) (slaves w) Hr eq_refl) as (E1 & E2 & E3).
      pose proof (queued_weight_same (heaps w) r h (set_state STATE_IN_QUEUE h) r Hr (or_introl eq_refl)) as E4.
      autorewrite with antz. rewrite E1, E2, (sumz_insert _ _ _ _ _ Hi), E3, E4, (queued_weight_at _ _ _ Hr), Hq. cbn. lia.
Qed.

Lemma values_few w : flow file w -> Z.of_nat (length (values w)) <= n.
Proof.
  intros Hfl. apply Nat2Z.inj_le. unfold values. rewrite length_fmap, <- (length_fmap fst), <- (length_fmap thread).
  apply submseteq_length, NoDup_submseteq; [apply NoDup_fst_map_to_list|].
  intros t ([t' r] & -> & Hin%elem_of_map_to_list)%list_elem_of_fmap.
  destruct (flow_known _ _ Hfl t' r Hin) as (c & Hc & <-). apply list_elem_of_fmap. eauto.
Qed.

Lemma weights_new hs mq sl t :
  pool hs mq sl ->
  sumz heap_weight (hs ++ [createNewThreadLocalHeap t]) = sumz heap_weight hs /\
  sumz (queued_weight (hs ++ [createNewThreadLocalHeap t])) (mq ++ [length hs]) = sumz (queued_weight hs) mq + 10 /\
  sumz (slave_weight (hs ++ [createNewThreadLocalHeap t])) sl = sumz (slave_weight hs) sl.
Proof.
  intros Hp. assert (Hq : forall r, held mq sl r -> queued_weight (hs ++ [createNewThreadLocalHeap t]) r = queued_weight hs r).
  { intros r [h Hr]%(pool_ref _ _ _ Hp). rewrite !(queued_weight_at _ _ h); [done|done|by apply lookup_app_l_Some]. }
  split_and!.
  - rewrite sumz_app, sumz_cons, sumz_nil. change (heap_weight (createNewThreadLocalHeap t)) with 0. lia.
  - rewrite sumz_app, sumz_cons, sumz_nil, (queued_weight_at _ _ (createNewThreadLocalHeap t)) by (by apply list_lookup_middle).
    cbn. rewrite Z.add_0_r. f_equal. apply sumz_ext. intros r Hin. apply Hq. by left.
  - apply sumz_ext. intros p (i & Hi)%list_elem_of_lookup.
    destruct p; cbn; try done; rewrite Hq; try done; right; eauto.
Qed.

Lemma putting_decreases c r w w' :
  master w = Putting c r -> addToThreadLocalHeap c r w = Done w' ->
  measure n (set_master (if decide (sync c = NONE) then Taking else Waiting [r] ThenTake) w') < measure n w.
Proof.
  intros Hm (h & Hr & [= <-])%on_heap_done. pose proof (lookup_lt_Some _ _ _ Hr) as Hlt.
  unfold measure. rewrite Hm. cbn [state set_queue].
  destruct (decide (state h = STATE_PARKED)); cbn -[Z.mul Z.of_nat entry_weight]; autorewrite with antz.
  - rewrite (queued_weight_at _ r (Heap (internalThreadName h) STATE_IN_QUEUE (queue h ++ [c]))) by (by apply list_lookup_insert_eq).
    destruct (weights_push (heaps w) (masterQueue w) (slaves w) r h
      (Heap (internalThreadName h) STATE_IN_QUEUE (queue h ++ [c])) c Hr eq_refl) as (E1 & E2 & E3).
    unfold set_state, set_queue. cbn. rewrite E1. destruct (queue h ++ [c]) eqn:E; [by destruct (queue h)|].
    case_decide; cbn -[Z.mul Z.of_nat entry_weight]; lia.
  - destruct (weights_push (heaps w) (masterQueue w) (slaves w) r h (set_queue (queue h ++ [c]) h) c Hr eq_refl) as (E1 & E2 & E3).
    rewrite E1. case_decide; cbn -[Z.mul Z.of_nat entry_weight]; lia.
Qed.

Lemma master_decreases has_labs w w' : inv file w -> processQueueEntries has_labs w = Done w' -> measure n w' < measure n w.
Proof.
  intros [[Hc Hst] Hfl] H. pose proof (values_few w Hfl) as Hv.
  destruct (master w) as [|todo k|todo c|c|c|c r|] eqn:Hm; unfold processQueueEntries in H; rewrite Hm in H.
  - unfold measure. destruct (chunks w) as [|[c|] rest] eqn:Hch; [done|..]; injection H as <-; rewrite Hm; cbn -[Z.mul Z.of_nat];
      unfold entry_weight in *.
    + destruct (sync c); cbn -[Z.mul Z.of_nat]; change (values (set_chunks rest w)) with (values w); lia.
    + lia.
  - unfold measure. destruct todo as [|r todo]; cbn in H; [injection H as <-|].
    + rewrite Hm. destruct k; cbn -[Z.mul Z.of_nat]; lia.
    + apply on_heap_done in H as (h & Hr & H). case_decide; [|done]. injection H as <-. rewrite Hm. cbn -[Z.mul Z.of_nat]. lia.
  - unfold measure. destruct todo as [|r todo]; cbn in H; [injection H as <-|].
    + rewrite Hm. destruct c; cbn -[Z.mul Z.of_nat]; lia.
    + apply on_heap_done in H as (h & Hr & [= <-]). rewrite Hm. set (h1 := set_state STATE_IN_QUEUE_FOR_CLEAN_UP h).
      destruct (weights_same (heaps w) r h h1 (masterQueue w) (slaves w) Hr eq_refl) as (E1 & E2 & E3).
      pose proof (queued_weight_pos (<[r := h1]> (heaps w)) r). cbn -[Z.mul Z.of_nat]. autorewrite with antz. rewrite E1, E2, E3. lia.
  - injection H as <-. unfold measure. rewrite Hm. cbn -[Z.mul Z.of_nat]. lia.
  - destruct (threads w !! thread c) as [r|] eqn:Ht; injection H as <-; unfold measure; rewrite Hm; cbn -[Z.mul Z.of_nat]; [lia|].
    destruct (weights_new (heaps w) (masterQueue w) (slaves w) (thread c) (core_pool _ _ _ _ _ _ _ Hc)) as (-> & -> & ->). lia.
  - results. by apply (putting_decreases c r).
  - done.
Qed.

Lemma exec_decreases a w w' : inv file w -> exec MAX_QUEUE_SIZE a w = Done w' -> measure n w' < measure n w.
Proof.
  intros Hi. destruct a; cbn; [apply dispatch_decreases|by apply master_decreases|apply slave_decreases, Hi].
Qed.

Lemma measure_nonneg w : 0 <= measure n w.
Proof.
  assert (0 <= n) by (unfold n; lia). unfold measure.
  assert (0 <= entry_weight n) by (unfold entry_weight; lia).
  assert (0 <= dispatcher_weight n (dispatcher w)) by (destruct (dispatcher w); cbn -[Z.mul]; lia).
  assert (0 <= master_weight n (master w)) by (destruct (master w) as [|? []|? ?| | | |]; cbn -[Z.mul Z.of_nat]; lia).
  assert (0 <= sumz heap_weight (heaps w)) by (apply sumz_nonneg; intros h _; unfold heap_weight; lia).
  assert (0 <= sumz (queued_weight (heaps w)) (masterQueue w)).
  { apply sumz_nonneg. intros r _. pose proof (queued_weight_pos (heaps w) r). lia. }
  assert (0 <= sumz (slave_weight (heaps w)) (slaves w)).
  { apply sumz_nonneg. intros p _. destruct p; cbn; try lia; pose proof (queued_weight_pos (heaps w) r); lia. }
  nia.
Qed.

Lemma run_length acts w w' :
  inv file w -> run MAX_QUEUE_SIZE acts w = Done w' -> Z.of_nat (length acts) + measure n w' <= measure n w.
Proof.
  revert w. induction acts as [|a acts IH]; intros w Hi H; cbn in H; [simplify_eq; cbn; lia|].
  destruct (exec MAX_QUEUE_SIZE a w) as [w1| |] eqn:E; [|done..]. pose proof (exec_decreases _ _ _ Hi E).
  pose proof (IH w1 (exec_keeps_inv _ distinct _ _ _ _ Hi E) H). cbn [length]. lia.
Qed.

End Decrease.

(** ** Nobody can go on: everything is parsed *)

Section Completion.
Variable file : list chunk.
Hypothesis distinct : NoDup file.
Variable MAX_QUEUE_SIZE : Z.

Definition stopped (w : world) : Prop := forall a, exec MAX_QUEUE_SIZE a w = Blocks.

Lemma stopped_idle w : inv file w -> stopped w -> forall i p, slaves w !! i = Some p -> p = Idle.
Proof.
  intros [[Hc _] _] Hst i p Hi. specialize (Hst (Slave i)). cbn in Hst. unfold slave_run in Hst. rewrite Hi in Hst.
  assert (Hh : forall r f, has p = Some r -> on_heap r w f = Blocks -> exists h, heaps w !! r = Some h /\ f h = Blocks).
  { intros r f Hp. destruct (has_mapped _ _ _ _ _ _ _ Hc i p r Hi Hp) as (h & Hr & _). unfold on_heap. rewrite Hr. eauto. }
  destruct p as [|r|r cl|r cl c|r|r]; [done|..|done| |]; apply Hh in Hst as (h & Hr & Hb); try done.
  - by destruct (state h).
  - by destruct (queue h).
Qed.

Lemma stopped_parked w r h :
  inv file w -> slaves w <> [] -> stopped w -> heaps w !! r = Some h -> state h = STATE_PARKED /\ queue h = [].
Proof.
  intros Hi Hne Hst Hr. pose proof (stopped_idle w Hi Hst) as Hid. pose proof Hi as [[Hc _] _].
  pose proof (core_pool _ _ _ _ _ _ _ Hc) as Hp.
  assert (Hmq : masterQueue w = []).
  { destruct (slaves w) as [|p sl] eqn:Hsl; [done|]. specialize (Hst (Slave 0)). cbn in Hst. unfold slave_run in Hst.
    rewrite Hsl in Hst. cbn in Hst. rewrite (Hid 0%nat p eq_refl) in Hst. by destruct (masterQueue w). }
  pose proof (pool_state _ _ _ Hp r h Hr) as Hs. unfold state_ok in Hs. rewrite Hmq in Hs.
  destruct (state h) eqn:E; [by split; [|apply Hs]|exfalso..].
  - destruct Hs as [?%elem_of_nil|(i & Hi'%Hid)]; done.
  - destruct Hs as (i & p & ->%Hid & Hw). done.
  - destruct Hs as [?%elem_of_nil|(i & Hi'%Hid)]; done.
Qed.

Lemma stopped_finished w :
  inv file w -> slaves w <> [] -> Forall (fun c => limit c <= MAX_QUEUE_SIZE) file -> stopped w -> master w = Finished.
Proof.
  intros Hi Hne Hlim Hst. pose proof Hi as [[Hc Hstage] Hfl]. pose proof (stopped_parked w) as Hpk.
  pose proof (Hst (Master (fun _ => true))) as Hm. cbn in Hm. unfold processQueueEntries in Hm.
  assert (Hh : forall r f, (exists t, threads w !! t = Some r) -> on_heap r w f = Blocks ->
    exists h, heaps w !! r = Some h /\ f h = Blocks).
  { intros r f (t & Ht). destruct (core_threads _ _ _ _ _ _ _ Hc _ _ Ht) as (h & Hr & _). unfold on_heap. rewrite Hr. eauto. }
  destruct (master w) as [|todo k|todo c|c|c|c r|] eqn:Hma; [exfalso..|done].
  - destruct Hfl as [(l & Hf & Hch) _ Hsz _]. destruct (chunks w) as [|[]] eqn:Hchw; [|done..].
    pose proof (Hst Dispatcher) as Hd. cbn in Hd. unfold dispatch in Hd. rewrite Hma in Hch, Hsz. destruct (dispatcher w) as [|c|] eqn:Hdi.
    + by destruct (scanner w).
    + assert (sumz queued_size (heaps w) = 0 /\ sumz parsing_size (slaves w) = 0) as [E1 E2].
      { split; apply sumz_zero.
        - intros h (r & Hr)%list_elem_of_lookup. destruct (Hpk r h Hi Hne Hst Hr) as [_ Hq]. unfold queued_size. by rewrite Hq.
        - by intros p (i & ->%(stopped_idle w Hi Hst))%list_elem_of_lookup. }
      assert (Hc' : c ∈ file) by (rewrite Hf, !elem_of_app; do 3 right; left; by constructor). rewrite Forall_forall in Hlim. apply Hlim in Hc'.
      rewrite E1, E2 in Hsz. cbn in Hsz. autorewrite with antz in Hsz.
      destruct (queueSize w >? MAX_QUEUE_SIZE) eqn:Hgt; [|done]. apply Z.gtb_lt in Hgt. lia.
    + cbn in Hch. by apply app_cons_not_nil in Hch.
  - destruct todo as [|r todo]; cbn in Hm; [done|]. destruct Hstage as [Hre _].
    apply Hh in Hm as (h & Hr & Hm); [|apply Hre; by constructor]. destruct (Hpk r h Hi Hne Hst Hr) as [Hp _].
    by rewrite decide_True in Hm.
  - destruct todo as [|r todo]; cbn in Hm; [done|]. destruct Hstage as (_ & _ & Hre & _).
    apply Hh in Hm as (h & Hr & Hm); [done|apply Hre; by constructor].
  - done.
  - by destruct (threads w !! thread c).
  - destruct Hstage as (_ & _ & _ & Ht). destruct (addToThreadLocalHeap c r w) eqn:E; [done| |done].
    apply Hh in E as (h & Hr & E); [done|eauto].
Qed.

Lemma finished_ended w t : inv file w -> master w = Finished -> ended t (log w) = of_thread t file /\ clean (log w).
Proof.
  intros [[Hc Hst] [(l & Hf & Hch) [He1 He2] _ _]] Hm. rewrite Hm in *. destruct Hst as (Ha & _ & Hcl). split; [|done].
  destruct (He1 eq_refl) as [Hd Hc0]. rewrite (He2 Hd), Hd in Hf. rewrite Hc0 in Hch. destruct l; [|done]. cbn in Hf.
  rewrite app_nil_r in Hf. rewrite Hf, (core_order _ _ _ _ _ _ _ Hc t).
  by rewrite (pending_none _ _ _ _ _ _ _ distinct Hc t Ha), app_nil_r.
Qed.

Lemma exec_slaves a w w' : exec MAX_QUEUE_SIZE a w = Done w' -> length (slaves w') = length (slaves w).
Proof.
  destruct a as [|has_labs|i]; cbn.
  - unfold dispatch. intros H. by results.
  - unfold processQueueEntries, waitUntilParked, insertCleanUps, addToThreadLocalHeap, on_heap. intros H. results; try done.
    cbn. by case_decide.
  - unfold slave_run, parkThreadLocalHeap, on_heap. intros H. results; cbn; rewrite length_insert; try done; by case_match.
Qed.

Lemma run_slaves acts w w' : run MAX_QUEUE_SIZE acts w = Done w' -> length (slaves w') = length (slaves w).
Proof.
  revert w. induction acts as [|a acts IH]; intros w H; cbn in H; [by simplify_eq|].
  destruct (exec MAX_QUEUE_SIZE a w) as [w1| |] eqn:E; [|done..]. rewrite (IH w1 H). by eapply exec_slaves.
Qed.

End Completion.

Lemma entries_limits pos frames file MAX_QUEUE_SIZE :
  entries_from pos frames = Some file -> Forall (fun e => Z.of_nat (length (TraceReader.buffer e)) <= MAX_QUEUE_SIZE) frames ->
  Forall (fun c => limit c <= MAX_QUEUE_SIZE) file.
Proof.
  revert pos file. induction frames as [|e frames IH]; intros pos file; cbn; [intros [= <-]; constructor|].
  destruct (TraceReader.sync e) as [s|]; [|done]. cbn. destruct (entries_from _ frames) as [rest|] eqn:E; [|done].
  intros [= <-] [He Hf]%Forall_cons. constructor; [done|]. by eapply IH.
Qed.

(** As many steps as the analyzer can take for a file of [n] buffers. *)
Definition most_steps (n : Z) : Z := (entry_weight n + 2) * n + entry_weight n + 1.

Lemma measure_start file n : measure (Z.of_nat (length file)) (start file n) = most_steps (Z.of_nat (length file)).
Proof.
  unfold measure, start, most_steps. cbn -[Z.mul Z.of_nat]. rewrite !sumz_nil, (sumz_zero (slave_weight [])); [lia|].
  by intros p [-> _]%elem_of_replicate.
Qed.

Lemma stopped_all MAX_QUEUE_SIZE pos frames file n acts w :
  entries_from pos frames = Some file -> (0 < n)%nat ->
  Forall (fun e => Z.of_nat (length (TraceReader.buffer e)) <= MAX_QUEUE_SIZE) frames ->
  run MAX_QUEUE_SIZE acts (start file n) = Done w -> stopped MAX_QUEUE_SIZE w ->
  master w = Finished /\ clean (log w) /\ forall t, ended t (log w) = of_thread t file.
Proof.
  intros Hf Hn Hl Hr Hst. destruct (entries_positions _ _ _ Hf) as [Hd _].
  pose proof (run_keeps_inv file Hd _ _ _ _ (start_has_inv file n) Hr) as Hi.
  assert (Hm : master w = Finished).
  { eapply stopped_finished; eauto using entries_limits. intros E. pose proof (run_slaves _ _ _ _ Hr) as Hs.
    rewrite E in Hs. cbn in Hs. rewrite length_replicate in Hs. lia. }
  split_and!; [done|by apply (finished_ended file Hd w 0)|]. intros t. by apply (finished_ended file Hd w t).
Qed.

(** Some schedule goes on until nobody can act. *)

Lemma master_blocks has_labs has_labs' w : processQueueEntries has_labs w = Blocks -> processQueueEntries has_labs' w = Blocks.
Proof. unfold processQueueEntries. by destruct (master w). Qed.

Lemma stopped_or_step MAX_QUEUE_SIZE file w :
  inv file w -> stopped MAX_QUEUE_SIZE w \/ exists a w', exec MAX_QUEUE_SIZE a w = Done w'.
Proof.
  intros Hi. assert (H : forall a, exec MAX_QUEUE_SIZE a w = Blocks \/ exists w', exec MAX_QUEUE_SIZE a w = Done w').
  { intros a. pose proof (exec_not_wrong file MAX_QUEUE_SIZE a w Hi). destruct (exec MAX_QUEUE_SIZE a w); eauto. done. }
  destruct (H Dispatcher) as [Hd|[w' ?]]; [|by eauto]. destruct (H (Master (fun _ => true))) as [Hm|[w' ?]]; [|by eauto].
  assert (Hs : forall k, (forall i, (i < k)%nat -> slave_run i w = Blocks) \/ exists i w', slave_run i w = Done w').
  { induction k as [|k [IH|IH]]; [left; lia| |by right]. destruct (H (Slave k)) as [Hk|[w' ?]]; [|by eauto].
    left. intros i Hik. destruct (decide (i = k)) as [->|]; [done|]. apply IH. lia. }
  destruct (Hs (length (slaves w))) as [Hb|(i & w' & ?)]; [left|right; by exists (Slave i), w'].
  intros [|has_labs|i]; [done|by eapply master_blocks|]. cbn. destruct (decide (i < length (slaves w))%nat); [auto|].
  unfold slave_run. by rewrite lookup_ge_None_2 by lia.
Qed.

Lemma run_to_end MAX_QUEUE_SIZE file n :
  NoDup file -> exists acts w, run MAX_QUEUE_SIZE acts (start file n) = Done w /\ stopped MAX_QUEUE_SIZE w.
Proof.
  intros Hd. pose proof (start_has_inv file n) as Hi. remember (start file n) as w eqn:E. clear E.
  remember (Z.to_nat (measure (Z.of_nat (length file)) w)) as m eqn:Hm. revert w Hi Hm.
  induction (lt_wf m) as [m _ IH]. intros w Hi Hm.
  destruct (stopped_or_step MAX_QUEUE_SIZE file w Hi) as [Hs|(a & w1 & Ha)]; [by exists [], w|].
  pose proof (exec_decreases file MAX_QUEUE_SIZE a w w1 Hi Ha). pose proof (measure_nonneg file w1).
  destruct (IH (Z.to_nat (measure (Z.of_nat (length file)) w1)) ltac:(lia) w1 (exec_keeps_inv file Hd _ _ _ _ Hi Ha) eq_refl)
    as (acts & w' & Hr & Hs). exists (a :: acts), w'. cbn. by rewrite Ha.
Qed.

(** C15: the analyzer comes to an end and parses everything: with at least
    one slave and buffers of at most [MAX_QUEUE_SIZE] bytes, every run has at
    most [most_steps] steps whatever the schedule, and when no thread can act
    any more the master has finished, every entry of every thread has been
    parsed in order, and all heaps are cleaned up. *)
Theorem parsing_completes MAX_QUEUE_SIZE pos frames file n acts w :
  entries_from pos frames = Some file -> (0 < n)%nat ->
  Forall (fun e => Z.of_nat (length (TraceReader.buffer e)) <= MAX_QUEUE_SIZE) frames ->
  run MAX_QUEUE_SIZE acts (start file n) = Done w ->
  Z.of_nat (length acts) <= most_steps (Z.of_nat (length file)) /\
  (stopped MAX_QUEUE_SIZE w -> master w = Finished /\ clean (log w) /\ forall t, ended t (log w) = of_thread t file).
Proof.
  intros Hf Hn Hl Hr. split; [|by eapply stopped_all]. destruct (entries_positions _ _ _ Hf) as [Hd _].
  pose proof (run_length file Hd _ _ _ _ (start_has_inv file n) Hr) as Hlen. rewrite measure_start in Hlen.
  pose proof (measure_nonneg file w). lia.
Qed.

Lemma parsing_completes_witness : exists file w,
  entries_from 0 demo_frames = Some file /\ run 100 demo_acts (start file 2) = Done w /\
  master w = Finished /\ forall t, ended t (log w) = of_thread t file.
Proof.
  destruct (entries_from 0 demo_frames) as [file|] eqn:Hf; [|by vm_compute in Hf].
  destruct (run 100 demo_acts (start file 2)) as [w| |] eqn:Hr; vm_compute in Hf; injection Hf as <-; [|by vm_compute in Hr..].
  eexists _, w. split; [done|]. split; [done|].
  destruct (parsing_completes 100 0 demo_frames _ 2 demo_acts w eq_refl ltac:(lia) ltac:(by_decide) Hr) as [_ Hc].
  assert (Hst : stopped 100 w); [|destruct (Hc Hst) as (Hm & _ & He); exact (conj Hm He)]. clear Hc. vm_compute in Hr. injection Hr as <-.
  intros [|has_labs|[|[|i]]]; [reflexivity..|]. cbn [exec]. unfold slave_run. cbn [slaves]. by rewrite lookup_ge_None_2 by (cbn; lia).
Defined.

(** ** A buffer that is too large *)

(** The dispatcher counts a buffer before it waits for room: behind a buffer
    of more than [MAX_QUEUE_SIZE] bytes it waits for ever, and nothing is
    parsed. *)
Lemma oversize_stops MAX_QUEUE_SIZE c file n acts w :
  MAX_QUEUE_SIZE < limit c -> run MAX_QUEUE_SIZE acts (start (c :: file) n) = Done w ->
  log w = [] /\ chunks w = [] /\ master w = Taking.
Proof.
  intros Hl Hr.
  assert (H : forall w0, (w0 = start (c :: file) n \/ (dispatcher w0 = Full c /\ queueSize w0 = limit c /\ chunks w0 = [] /\
    master w0 = Taking /\ masterQueue w0 = [] /\ log w0 = [] /\ forall i p, slaves w0 !! i = Some p -> p = Idle)) ->
    run MAX_QUEUE_SIZE acts w0 = Done w -> log w = [] /\ chunks w = [] /\ master w = Taking); [|by eapply H; [left|]].
  clear Hr. induction acts as [|a acts IH]; intros w0 H0 Hr; cbn in Hr.
  - simplify_eq. destruct H0 as [->|?]; [done|]. by destruct_and!.
  - destruct (exec MAX_QUEUE_SIZE a w0) as [w1| |] eqn:E; [|done..]. apply (IH w1); [|done]. right.
    destruct H0 as [->|(Hd & Hq & Hch & Hm & Hmq & Hlg & Hsl)].
    + destruct a; cbn in E; [injection E as <-|done|].
      * split_and!; try done. by intros i p [-> _]%lookup_replicate.
      * unfold slave_run in E. cbn in E. destruct (replicate n Idle !! i) as [p|] eqn:Hi; [|done].
        apply lookup_replicate in Hi as [-> _]. done.
    + exfalso. destruct a; cbn in E.
      * unfold dispatch in E. rewrite Hd, Hq in E. destruct (limit c >? MAX_QUEUE_SIZE) eqn:Hg; [done|].
        rewrite Z.gtb_ltb in Hg. zbool. lia.
      * unfold processQueueEntries in E. by rewrite Hm, Hch in E.
      * unfold slave_run in E. destruct (slaves w0 !! i) as [p|] eqn:Hi; [|done]. by rewrite (Hsl i p Hi), Hmq in E.
Qed.

End ParserTermination.
