(* ===== verification/EventsRoundtrip.v ===== *)
(** * Events written by the VM are read back by the analyzer

    [EventsRuntime] against [TraceSlaveParser]. *)

From S2P Require Import Prelude EventPointerList EventsRuntime TraceSlaveParser.
From Stdlib Require Import ZArith Lia.

(** ** Words *)

Module WordSpec.
Import EventsRuntime TraceSlaveParser.

(** The fields of a word as one number. *)
Definition pos (a : Z) (fields : list (Z * Z)) : Z := foldl (fun a f => a * 2 ^ f.2 + f.1) a fields.

Definition field_ok (f : Z * Z) : Prop := 0 <= f.2 /\ 0 <= f.1 < 2 ^ f.2.

Lemma swrap_congr w a b : a mod 2 ^ w = b mod 2 ^ w -> swrap w a = swrap w b.
Proof. intros E. by rewrite <- (swrap_mod w a), <- (swrap_mod w b), E. Qed.

Lemma s32_mod a : s32 a mod 2 ^ 32 = a mod 2 ^ 32.
Proof. exact (wrap_swrap 32 a ltac:(lia)). Qed.

Lemma stuff_pos_acc fields a :
  Forall field_ok fields -> foldl StuffedWord_add (s32 a) fields = s32 (pos a fields).
Proof.
  revert a. induction fields as [|[v s] fields IH]; intros a H; [done|]. apply Forall_cons in H as [[Hs Hv] H]. simpl in *.
  unfold pos in *. simpl. rewrite <- IH by done. f_equal. unfold StuffedWord_add. simpl. rewrite lor_disjoint_add by done.
  apply swrap_congr. rewrite <- (Zplus_mod_idemp_l (s32 a * _)), <- (Zmult_mod_idemp_l (s32 a)), s32_mod.
  by rewrite Zmult_mod_idemp_l, Zplus_mod_idemp_l.
Qed.

Lemma stuff_pos fields : Forall field_ok fields -> stuff fields = s32 (pos 0 fields).
Proof. exact (stuff_pos_acc fields 0). Qed.

(** *** Extracting bytes *)

Lemma land_shifted_ones w k n : 0 <= k -> 0 <= n -> (w .& ((2 ^ n - 1) ≪ k)) ≫ k = (w / 2 ^ k) mod 2 ^ n.
Proof.
  intros Hk Hn. rewrite Z.shiftr_land, Z.shiftr_shiftl_l, Z.sub_diag, Z.shiftl_0_r by lia.
  rewrite Z.shiftr_div_pow2 by done. exact (land_ones_wrap n _ Hn).
Qed.

(** Below bit 32 a [jint] and its unsigned value agree. *)
Lemma s32_bits a k n : 0 <= k -> 0 <= n -> k + n <= 32 -> (s32 a / 2 ^ k) mod 2 ^ n = (a / 2 ^ k) mod 2 ^ n.
Proof.
  intros Hk Hn Hkn. apply Z.bits_inj'. intros i Hi. destruct (Z.lt_ge_cases i n) as [Hlt|Hge].
  - rewrite !Z.mod_pow2_bits_low, !Z.div_pow2_bits by lia.
    pose proof (f_equal (fun x => Z.testbit x (i + k)) (s32_mod a)) as E. simpl in E.
    by rewrite !Z.mod_pow2_bits_low in E by lia.
  - by rewrite !Z.mod_pow2_bits_high by lia.
Qed.

Lemma recover_mask (mask w from to n : Z) :
  spread (Z.to_nat (to - from)) (s32 (u32 HEX_WORD ≫ (8 * from))) = (2 ^ n - 1) ≪ (8 * (3 - to)) ->
  0 <= to <= 3 -> 0 <= n <= 31 -> recoverValue w from to = (w / 2 ^ (8 * (3 - to))) mod 2 ^ n.
Proof.
  intros E Ht Hn. unfold recoverValue. rewrite E, land_shifted_ones by lia. apply swrap_small; [|lia].
  pose proof (Z.mod_pos_bound (w / 2 ^ (8 * (3 - to))) (2 ^ n) (pow2_pos n ltac:(lia))).
  pose proof (Z.pow_le_mono_r 2 n 31 ltac:(lia) ltac:(lia)). lia.
Qed.

Lemma recover_11 w : recoverValue w 1 1 = (w / 2 ^ 16) mod 2 ^ 8.
Proof. by apply (recover_mask 0 w 1 1 8). Qed.
Lemma recover_22 w : recoverValue w 2 2 = (w / 2 ^ 8) mod 2 ^ 8.
Proof. by apply (recover_mask 0 w 2 2 8). Qed.
Lemma recover_33 w : recoverValue w 3 3 = (w / 2 ^ 0) mod 2 ^ 8.
Proof. by apply (recover_mask 0 w 3 3 8). Qed.
Lemma recover_12 w : recoverValue w 1 2 = (w / 2 ^ 8) mod 2 ^ 16.
Proof. by apply (recover_mask 0 w 1 2 16). Qed.
Lemma recover_13 w : recoverValue w 1 3 = (w / 2 ^ 0) mod 2 ^ 24.
Proof. by apply (recover_mask 0 w 1 3 24). Qed.

(** The first byte, of an unsigned word. *)
Lemma recover_00 w : 0 <= w < 2 ^ 32 -> recoverValue w 0 0 = w / 2 ^ 24.
Proof.
  intros Hw. unfold recoverValue. change (spread _ _) with (- 2 ^ 24). change (8 * (3 - 0)) with 24.
  rewrite Z.shiftr_land, !Z.shiftr_div_pow2 by lia. change (- 2 ^ 24 / 2 ^ 24) with (-1). rewrite Z.land_m1_r.
  apply swrap_small; [|lia]. split; [|apply Z.div_lt_upper_bound; lia]. pose proof (Z.div_pos w (2 ^ 24)). lia.
Qed.

(** *** The header of an event *)

(** The type, two bits (the space, or a gap) and 24 more bits. *)
Definition header (type space payload : Z) : Z := s32 ((type * 4 + space) * 2 ^ 24 + payload).

Definition header_ok (type space payload : Z) : Prop := 0 <= type < 64 /\ 0 <= space < 4 /\ 0 <= payload < 2 ^ 24.

Lemma header_unsigned t sp p : header_ok t sp p -> header t sp p .& 4294967295 = (t * 4 + sp) * 2 ^ 24 + p.
Proof.
  intros (Ht & Hs & Hp). change 4294967295 with (2 ^ 32 - 1). rewrite land_ones_wrap by lia. unfold header.
  rewrite wrap_swrap by lia. apply wrap_small. lia.
Qed.

Lemma header_first t sp p : header_ok t sp p -> recoverValue (header t sp p .& 4294967295) 0 0 = t * 4 + sp.
Proof.
  intros H. rewrite header_unsigned by done. destruct H as (Ht & Hs & Hp). rewrite recover_00 by lia.
  rewrite Z.div_add_l by lia. rewrite (Z.div_small p) by lia. lia.
Qed.

Lemma header_type t sp : 0 <= t -> 0 <= sp < 4 -> (t * 4 + sp) ≫ 2 = t.
Proof. intros Ht Hs. rewrite Z.shiftr_div_pow2 by lia. change (2 ^ 2) with 4. rewrite Z.div_add_l, Z.div_small by lia. lia. Qed.

Lemma header_space t sp : 0 <= t -> 0 <= sp < 4 -> (t * 4 + sp) .& 3 = sp.
Proof.
  intros Ht Hs. change 3 with (2 ^ 2 - 1). rewrite land_ones_wrap by lia. unfold wrap. change (2 ^ 2) with 4.
  rewrite Z.add_comm, Z.mod_add, Z.mod_small by lia. done.
Qed.

(** Bits of the payload. *)
Lemma header_bits t sp p k n :
  header_ok t sp p -> 0 <= k -> 0 <= n -> k + n <= 24 -> (header t sp p / 2 ^ k) mod 2 ^ n = (p / 2 ^ k) mod 2 ^ n.
Proof.
  intros (Ht & Hs & Hp) Hk Hn Hkn. unfold header. rewrite s32_bits by lia.
  replace (2 ^ 24) with (2 ^ (24 - k - n) * 2 ^ n * 2 ^ k) by (rewrite <- !Z.pow_add_r by lia; f_equal; lia).
  rewrite !Z.mul_assoc. rewrite Z.div_add_l by (pose proof (pow2_pos k Hk); lia).
  rewrite Z.add_comm, Z.mod_add; [done|]. pose proof (pow2_pos n Hn). lia.
Qed.

Lemma header_payload t sp p : header_ok t sp p -> recoverValue (header t sp p) 1 3 = p.
Proof.
  intros H. rewrite recover_13, header_bits by (done || lia). destruct H as (_ & _ & Hp).
  rewrite Z.pow_0_r, Z.div_1_r. by apply Z.mod_small.
Qed.

Lemma header_payload_land t sp p : header_ok t sp p -> header t sp p .& 16777215 = p.
Proof.
  intros H. change 16777215 with (2 ^ 24 - 1). rewrite land_ones_wrap by lia. rewrite <- (header_payload t sp p H) at 2.
  rewrite recover_13, Z.pow_0_r, Z.div_1_r. done.
Qed.

(** *** Wide words *)

Lemma s64_high h : s64 (h ≪ 32) = s32 h ≪ 32.
Proof.
  rewrite !Z.shiftl_mul_pow2 by lia. unfold swrap. change (2 ^ (64 - 1)) with (2 ^ (32 - 1) * 2 ^ 32).
  change (2 ^ 64) with (2 ^ 32 * 2 ^ 32). rewrite <- Z.mul_add_distr_r, Z.mul_mod_distr_r by lia. lia.
Qed.

Lemma s32_range a : - 2 ^ 31 <= s32 a < 2 ^ 31.
Proof. unfold swrap. pose proof (Z.mod_pos_bound (a + 2 ^ (32 - 1)) (2 ^ 32)). lia. Qed.

Lemma next_wide v ws : getNextDoubleWord (write_wide_word v ++ ws) = Some (s64 v, ws).
Proof.
  unfold write_wide_word, write_word, getNextDoubleWord. cbn [app getNextWord mbind option_bind].
  do 2 f_equal. unfold NEXT_DOUBLE_WORD_MASK. rewrite shiftl_1 by lia. rewrite !land_ones_wrap, !wrap_swrap by lia.
  rewrite s64_high, Z.lor_comm, lor_disjoint_add by (try apply wrap_range; lia).
  rewrite Z.shiftr_div_pow2 by lia. assert (s32 (wrap 32 (v / 2 ^ 32)) = s32 (v / 2 ^ 32)) as -> by apply swrap_mod.
  pose proof (s32_range (v / 2 ^ 32)). pose proof (wrap_range 32 v ltac:(lia)).
  rewrite <- (swrap_small 64 (_ + _)) by lia. apply swrap_congr. unfold wrap.
  rewrite <- Zplus_mod_idemp_l. change (2 ^ 64) with (2 ^ 32 * 2 ^ 32).
  rewrite Z.mul_mod_distr_r, s32_mod, <- Z.mul_mod_distr_r, Zplus_mod_idemp_l by lia. f_equal.
  pose proof (Z.div_mod v (2 ^ 32) ltac:(lia)). lia.
Qed.

End WordSpec.

(** ** Strings *)

Module StringSpec.
Import EventsRuntime TraceSlaveParser WordSpec.

(** Characters that fit into a [char] without a sign. *)
Definition ascii (c : Z) : Prop := 0 <= c < 128.
Definition letter (c : Z) : Prop := 1 <= c < 128.

Lemma push_char x c : ascii c -> s32 (s32 (s32 x ≪ 8) .| s8 c) = s32 (x * 256 + c).
Proof.
  intros Hc. unfold ascii in Hc. rewrite (swrap_small 8 c) by lia.
  assert (s32 (s32 x ≪ 8) = swrap 24 x ≪ 8) as ->.
  { rewrite !Z.shiftl_mul_pow2 by lia. rewrite (swrap_congr 32 (s32 x * 2 ^ 8) (x * 2 ^ 8)).
    - unfold swrap. change (2 ^ (32 - 1)) with (2 ^ (24 - 1) * 2 ^ 8). change (2 ^ 32) with (2 ^ 24 * 2 ^ 8).
      rewrite <- Z.mul_add_distr_r, Z.mul_mod_distr_r by lia. lia.
    - by rewrite <- Zmult_mod_idemp_l, s32_mod, Zmult_mod_idemp_l. }
  rewrite lor_disjoint_add by lia. apply swrap_congr. change (2 ^ 32) with (2 ^ 24 * 256). change (2 ^ 8) with 256.
  rewrite <- Zplus_mod_idemp_l, Z.mul_mod_distr_r by lia. pose proof (wrap_swrap 24 x ltac:(lia)) as E. unfold wrap in E.
  by rewrite E, <- Z.mul_mod_distr_r, Zplus_mod_idemp_l by lia.
Qed.

Lemma pack_full s x : pack s (s32 x) 4 = s32 x :: pack s 0 0.
Proof.
  destruct s as [|c s].
  - cbn [pack]. change (0 <? 4) with true. cbn iota. change ((4 - 4) * 8) with 0. rewrite Z.shiftl_0_r.
    unfold write_word. by rewrite swrap_swrap by lia.
  - change (pack (c :: s) (s32 x) 4) with (s32 (s32 x) :: pack (c :: s) 0 0). by rewrite swrap_swrap by lia.
Qed.

(** Four characters make one word. *)
Definition word4 (a b c d : Z) : Z := s32 (((a * 256 + b) * 256 + c) * 256 + d).

Lemma pack_one c s x : pack (c :: s) x 0 = pack s (s32 (s32 (x ≪ 8) .| s8 c)) 1.
Proof. done. Qed.
Lemma pack_two c s x : pack (c :: s) x 1 = pack s (s32 (s32 (x ≪ 8) .| s8 c)) 2.
Proof. done. Qed.
Lemma pack_three c s x : pack (c :: s) x 2 = pack s (s32 (s32 (x ≪ 8) .| s8 c)) 3.
Proof. done. Qed.
Lemma pack_four c s x : pack (c :: s) x 3 = pack s (s32 (s32 (x ≪ 8) .| s8 c)) 4.
Proof. done. Qed.

Lemma pack_word a b c d s :
  ascii a -> ascii b -> ascii c -> ascii d -> pack (a :: b :: c :: d :: s) 0 0 = word4 a b c d :: pack s 0 0.
Proof.
  intros Ha Hb Hc Hd. rewrite pack_one. change 0 with (s32 0) at 1. rewrite push_char by done.
  rewrite pack_two, push_char, pack_three, push_char, pack_four, push_char by done. apply pack_full.
Qed.

(** A last word of fewer characters is filled up with zeros. *)
Lemma pack_end x n : 0 < n <= 4 -> pack [] (s32 x) n = [s32 (x * 2 ^ ((4 - n) * 8))].
Proof.
  intros Hn. cbn [pack]. rewrite (proj2 (Z.ltb_lt 0 n)) by lia. unfold write_word. f_equal. apply swrap_congr.
  rewrite Z.shiftl_mul_pow2 by lia. by rewrite <- Zmult_mod_idemp_l, s32_mod, Zmult_mod_idemp_l.
Qed.

Lemma pack_pad s :
  Forall ascii s -> (0 < length s < 4)%nat ->
  exists a b c, s ++ replicate (4 - length s) 0 = [a; b; c; 0] /\ pack s 0 0 = [word4 a b c 0] /\ ascii a /\ ascii b /\ ascii c.
Proof.
  intros H Hl. destruct s as [|a [|b [|c [|]]]]; simpl in Hl; try lia; repeat (apply Forall_cons in H as [? H]).
  - exists a, 0, 0. split_and!; try done. rewrite pack_one. change 0 with (s32 0) at 1. rewrite push_char by done.
    rewrite pack_end by lia. unfold word4. do 2 f_equal. change (2 ^ ((4 - 1) * 8)) with (256 * 256 * 256). lia.
  - exists a, b, 0. split_and!; try done. rewrite pack_one. change 0 with (s32 0) at 1. rewrite push_char by done.
    rewrite pack_two, push_char by done. rewrite pack_end by lia. unfold word4. do 2 f_equal.
    change (2 ^ ((4 - 2) * 8)) with (256 * 256). lia.
  - exists a, b, c. split_and!; try done. rewrite pack_one. change 0 with (s32 0) at 1. rewrite push_char by done.
    rewrite pack_two, push_char, pack_three, push_char by done. rewrite pack_end by lia. unfold word4. do 2 f_equal.
    change (2 ^ ((4 - 3) * 8)) with 256. lia.
Qed.

(** *** Reading *)

Lemma byte_of x k : 0 <= k -> k + 8 <= 32 -> (s32 x ≫ k) .& 255 = (x / 2 ^ k) mod 2 ^ 8.
Proof.
  intros Hk Hk'. rewrite Z.shiftr_div_pow2 by done. change 255 with (2 ^ 8 - 1). rewrite land_ones_wrap by lia.
  by apply s32_bits.
Qed.

Lemma word4_bytes a b c d :
  ascii a -> ascii b -> ascii c -> ascii d ->
  (word4 a b c d ≫ 24) .& 255 = a /\ (word4 a b c d ≫ 16) .& 255 = b /\
  (word4 a b c d ≫ 8) .& 255 = c /\ (word4 a b c d ≫ 0) .& 255 = d.
Proof.
  unfold ascii, word4. intros Ha Hb Hc Hd. rewrite !byte_of by lia.
  change (2 ^ 24) with 16777216. change (2 ^ 16) with 65536. change (2 ^ 8) with 256. change (2 ^ 0) with 1.
  split_and!; Z.to_euclidean_division_equations; lia.
Qed.

Lemma chars_word a b c d :
  ascii a -> ascii b -> ascii c -> ascii d ->
  chars 4 (word4 a b c d) =
    if a =? 0 then ([], true) else if b =? 0 then ([a], true) else if c =? 0 then ([a; b], true)
    else if d =? 0 then ([a; b; c], true) else ([a; b; c; d], false).
Proof.
  intros Ha Hb Hc Hd. destruct (word4_bytes a b c d) as (E1 & E2 & E3 & E4); try done.
  cbn [chars]. change (Z.of_nat 3 * 8) with 24. change (Z.of_nat 2 * 8) with 16. change (Z.of_nat 1 * 8) with 8.
  change (Z.of_nat 0 * 8) with 0. rewrite E1, E2, E3, E4.
  by destruct (a =? 0), (b =? 0), (c =? 0), (d =? 0).
Qed.

Lemma letter_ascii c : letter c -> ascii c.
Proof. unfold letter, ascii. lia. Qed.

Lemma letter_nonzero c : letter c -> (c =? 0) = false.
Proof. unfold letter. lia. Qed.

(** Full words are read and reading goes on. *)
Lemma getChars_words k n s t ws :
  length s = (4 * k)%nat -> Forall letter s ->
  getChars (k + n) (pack (s ++ t) 0 0 ++ ws) =
    '(cs, ws') ← getChars n (pack t 0 0 ++ ws); Some (s ++ cs, ws').
Proof.
  revert s. induction k as [|k IH]; intros s Hl H.
  { destruct s; [|done]. simpl. by destruct (getChars n _) as [[]|]. }
  destruct s as [|a [|b [|c [|d s]]]]; simpl in Hl; try lia. repeat (apply Forall_cons in H as [? H]).
  cbn [app]. rewrite pack_word by (by apply letter_ascii). cbn [Nat.add getChars app getNextWord mbind option_bind].
  rewrite chars_word, !letter_nonzero by (done || by apply letter_ascii). cbn [mbind option_bind].
  rewrite IH by (done || lia). by destruct (getChars n _) as [[]|].
Qed.

(** The word with the terminating zero ends the string. *)
Lemma getChars_last n s t ws :
  Forall letter s -> (length s < 4)%nat -> (t = s /\ s <> [] \/ t = s ++ [0]) ->
  getChars (S n) (pack t 0 0 ++ ws) = Some (s, ws).
Proof.
  intros H Hl Ht. assert (Forall ascii s) as Ha by (eapply Forall_impl; [done|apply letter_ascii]).
  assert (exists a b c, s ++ replicate (4 - length s) 0 = [a; b; c; 0] /\ pack t 0 0 = [word4 a b c 0] /\ ascii a /\ ascii b /\ ascii c)
    as (a & b & c & Es & -> & Ha' & Hb' & Hc').
  { destruct Ht as [[-> Hne]| ->]; [apply pack_pad; [done|destruct s; simpl in *; [done|lia]]|].
    assert (Forall ascii (s ++ [0])) as Ha2 by (apply Forall_app; split; [done|by repeat constructor]).
    destruct (decide (length s = 3%nat)) as [E|E].
    - destruct s as [|a [|b [|c [|]]]]; try done. exists a, b, c. repeat (apply Forall_cons in Ha as [? Ha]).
      split_and!; try done. by apply pack_word.
    - destruct (pack_pad (s ++ [0]) Ha2) as (a & b & c & E1 & E2 & E3).
      { rewrite length_app. simpl. lia. }
      exists a, b, c. split; [|by split]. rewrite <- E1, length_app, <- app_assoc. f_equal. simpl.
      replace (4 - length s)%nat with (S (4 - (length s + 1)))%nat by lia. done. }
  cbn [app getChars getNextWord mbind option_bind]. rewrite chars_word by (done || unfold ascii; lia).
  destruct s as [|x [|y [|z [|]]]]; simpl in Hl; try lia; simpl in Es; injection Es as <- <- <-;
    repeat match goal with H : Forall letter (_ :: _) |- _ => apply Forall_cons in H as [? H] end;
    rewrite ?letter_nonzero by done; done.
Qed.

Lemma getString_spec s ws : Forall letter s -> getString (Z.of_nat (length s)) (pack s 0 0 ++ ws) = Some (s, ws).
Proof.
  intros H. unfold getString. set (k := (length s / 4)%nat).
  pose proof (Nat.div_mod_eq (length s) 4) as Hd. fold k in Hd. pose proof (Nat.mod_upper_bound (length s) 4).
  pose proof (take_drop (4 * k) s) as Hs. assert (length (take (4 * k) s) = (4 * k)%nat) as Hl by (rewrite length_take; lia).
  assert (Forall letter (take (4 * k) s)) as Hf by (by apply Forall_take).
  assert (length (drop (4 * k) s) = length s mod 4)%nat as Hl2 by (rewrite length_drop; lia).
  destruct (decide (length s mod 4 = 0)%nat) as [Hz|Hnz].
  - replace (Z.to_nat ((Z.of_nat (length s) + 3) / 4)) with (k + 0)%nat.
    2:{ apply Nat2Z.inj. rewrite Z2Nat.id by (apply Z.div_pos; lia). apply (Z.div_unique _ 4 _ 3); lia. }
    rewrite <- Hs at 1. rewrite getChars_words by done. rewrite Hz in Hl2. apply nil_length_inv in Hl2.
    rewrite Hl2 in *. cbn [pack getChars app mbind option_bind]. rewrite app_nil_r in *. by rewrite Hs.
  - replace (Z.to_nat ((Z.of_nat (length s) + 3) / 4)) with (k + 1)%nat.
    2:{ apply Nat2Z.inj. rewrite Z2Nat.id by (apply Z.div_pos; lia).
        apply (Z.div_unique _ 4 _ (Z.of_nat (length s mod 4) - 1)); lia. }
    rewrite <- Hs at 1. rewrite getChars_words by done. rewrite (getChars_last 0 (drop (4 * k) s)).
    + cbn [mbind option_bind]. by rewrite Hs.
    + by apply Forall_drop.
    + lia.
    + left. split; [done|]. intros E. rewrite E in Hl2. cbn [length] in Hl2. lia.
Qed.

(** A thread name: at most 48 characters, with its zero if there is room. *)
Lemma getChars_name name ws :
  Forall letter name ->
  getChars 12 (pack (take (Z.to_nat (Z.min (Z.of_nat (length name) + 1) (12 * 4))) (name ++ [0])) 0 0 ++ ws) =
    Some (take 48 name, ws).
Proof.
  intros H. destruct (decide (48 <= length name)%nat) as [Hge|Hlt].
  - replace (Z.to_nat _) with 48%nat by lia. rewrite take_app_le by done. change 12%nat with (12 + 0)%nat.
    rewrite <- (app_nil_r (take 48 name)) at 1. rewrite getChars_words.
    + cbn [pack getChars app mbind option_bind]. by rewrite app_nil_r.
    + rewrite length_take. lia.
    + by apply Forall_take.
  - replace (Z.to_nat _) with (length (name ++ [0])) by (rewrite length_app; simpl; lia).
    rewrite firstn_all. rewrite take_ge by lia. set (k := (length name / 4)%nat).
    pose proof (Nat.div_mod_eq (length name) 4) as Hd. fold k in Hd. pose proof (Nat.mod_upper_bound (length name) 4).
    rewrite <- (take_drop (4 * k) name) at 1. rewrite <- app_assoc. replace 12%nat with (k + S (11 - k))%nat by lia.
    rewrite getChars_words; [|rewrite length_take; lia|by apply Forall_take].
    rewrite (getChars_last _ (drop (4 * k) name)); [| |rewrite length_drop; lia|by right]; [|by apply Forall_drop].
    cbn [mbind option_bind]. by rewrite take_drop.
Qed.

(** *** Lengths *)

Lemma pack_length s w f : 0 <= f <= 4 -> Z.of_nat (length (pack s w f)) = (f + Z.of_nat (length s) + 3) / 4.
Proof.
  revert w f. induction s as [|c s IH]; intros w f Hf; cbn [pack].
  - destruct (Z.ltb_spec 0 f); simpl; Z.to_euclidean_division_equations; lia.
  - destruct (Z.eqb_spec f 4) as [->|Hne]; rewrite length_app, Nat2Z.inj_add, IH by lia; simpl;
      Z.to_euclidean_division_equations; lia.
Qed.

Lemma string_words_eq s : EventRootPointerList.string_words s = (Z.of_nat (length s) + 3) / 4.
Proof.
  unfold EventRootPointerList.string_words. destruct (Z.eqb_spec (Z.of_nat (length s) mod 4) 0);
    Z.to_euclidean_division_equations; lia.
Qed.

End StringSpec.
