(* ===== verification/EventsTheorems.v ===== *)
(** * Every event the VM fires is read back by the analyzer

    One request per [fire_*] function, the handler calls expected for it, and
    the round trip through [TraceSlaveParser.evaluateEvent]. *)

From S2P Require Import Prelude EventBuffer EventPointerList EventsRuntime TraceSlaveParser EventsRoundtrip.
From Stdlib Require Import ZArith Lia.

Module EventsTheorems.
Import EventType EventsRuntime TraceSlaveParser WordSpec StringSpec.

(** ** Headers and anchors *)

Lemma word_header fields t sp p :
  Forall field_ok fields -> pos 0 fields = (t * 4 + sp) * 2 ^ 24 + p -> write_word (stuff fields) = [header t sp p].
Proof. intros H E. unfold write_word, header. by rewrite (stuff_pos fields H), E, swrap_swrap by lia. Qed.

(** Event types as numbers. *)
Ltac event_types :=
  cbv delta [
    EVENTS_NOP EVENTS_GC_START EVENTS_GC_END EVENTS_GC_INFO EVENTS_GC_FAILED EVENTS_SPACE_CREATE EVENTS_SPACE_ALLOC
    EVENTS_SPACE_RELEASE EVENTS_SPACE_REDEFINE EVENTS_SPACE_DESTROY EVENTS_THREAD_ALIVE EVENTS_THREAD_DEATH
    EVENTS_TLAB_ALLOC EVENTS_PLAB_ALLOC EVENTS_ALLOC_SLOW EVENTS_IR_ALLOC_SLOW EVENTS_IR_ALLOC_SLOW_DEVIANT_TYPE
    EVENTS_IR_ALLOC_NORMAL EVENTS_IR_ALLOC_FAST EVENTS_C1_ALLOC_SLOW EVENTS_C1_ALLOC_SLOW_DEVIANT_TYPE
    EVENTS_C1_ALLOC_NORMAL EVENTS_C1_ALLOC_FAST EVENTS_C2_ALLOC_SLOW EVENTS_C2_ALLOC_SLOW_DEVIANT_TYPE
    EVENTS_C2_ALLOC_NORMAL EVENTS_C2_ALLOC_FAST EVENTS_C2_ALLOC_FAST_DEVIANT_TYPE EVENTS_GC_MOVE_SLOW
    EVENTS_GC_MOVE_FAST_WIDE EVENTS_GC_MOVE_FAST EVENTS_GC_MOVE_FAST_NARROW EVENTS_GC_MOVE_REGION EVENTS_GC_KEEP_ALIVE
    EVENTS_SYNC_OBJ EVENTS_SYNC_OBJ_NARROW EVENTS_GC_MOVE_SLOW_PTR EVENTS_GC_MOVE_FAST_WIDE_PTR EVENTS_GC_MOVE_FAST_PTR
    EVENTS_GC_KEEP_ALIVE_PTR EVENTS_GC_PTR_EXTENSION EVENTS_GC_PTR_MULTITHREADED EVENTS_GC_ROOT_PTR
    EVENTS_GC_UPDATE_PTR_PREMOVE EVENTS_GC_UPDATE_PTR_POSTMOVE EVENTS_GC_INTERRUPT EVENTS_GC_CONTINUE EVENTS_TAG].

(** Ranges of the fields of a header. *)
Ltac fields := event_types; repeat (apply Forall_cons; split; [unfold field_ok, event_field, event_gap, gap, EVENT_TYPE_SIZE; cbn [fst snd]; lia|]); by apply Forall_nil.

(** The number such fields make. *)
Ltac payload := event_types; unfold pos, event_field, event_gap, gap, EVENT_TYPE_SIZE; cbn [foldl fst snd]; change (8 - 6) with 2; lia.

Definition anchor_check (anchor t : Z) : bool :=
  (anchor .& ANCHOR_MASK =? ANCHOR_MASK) && ((anchor .& Z.lnot ANCHOR_MASK) ≫ 8 =? t).

Lemma anchor_checks t : 0 <= t < 64 -> anchor_check (s32 (get_debug_anchor t)) t = true.
Proof.
  intros Ht. assert (forallb (fun t => anchor_check (s32 (get_debug_anchor t)) t) (seqZ 0 64) = true) as H by by vm_compute.
  rewrite forallb_forall in H. apply H. apply list_elem_of_In, elem_of_seqZ. lia.
Qed.

(** Ranges of addresses, words and sites. *)
Definition addr_ok (a : Z) : Prop := 0 <= a < 2 ^ 63.
Definition int_ok (n : Z) : Prop := - 2 ^ 31 <= n < 2 ^ 31.
Definition long_ok (n : Z) : Prop := - 2 ^ 63 <= n < 2 ^ 63.
Definition small_site (s : Z) : Prop := 0 <= s < 2 ^ 15.
Definition big_site (s : Z) : Prop := 2 ^ 23 <= s < 2 ^ 24.
Definition site_ok (s : Z) : Prop := small_site s \/ big_site s.

(** ** Reading the parts of an event *)

Lemma next_addr a ws : addr_ok a -> getNextDoubleWord (write_abs_addr a ++ ws) = Some (a, ws).
Proof.
  intros Ha. unfold write_abs_addr, addr_ok in *. rewrite next_wide. by rewrite !(swrap_small 64 a) by lia.
Qed.

Lemma next_size a ws : addr_ok a -> getNextDoubleWord (write_size a ++ ws) = Some (a, ws).
Proof. exact (next_addr a ws). Qed.

Lemma next_long n ws : long_ok n -> getNextDoubleWord (write_wide_word n ++ ws) = Some (n, ws).
Proof. intros Hn. unfold long_ok in Hn. rewrite next_wide. by rewrite (swrap_small 64 n) by lia. Qed.

Lemma next_int n ws : int_ok n -> getNextWord (write_word n ++ ws) = Some (n, ws).
Proof. intros Hn. unfold int_ok in Hn. unfold write_word. cbn [app getNextWord]. by rewrite (swrap_small 32 n) by lia. Qed.

Lemma land_1 z : z .& 1 = z mod 2.
Proof. exact (land_ones_wrap 1 z ltac:(lia)). Qed.

(** The payload of an allocation. *)
Definition alloc_payload (site len : Z) : Z := if is_big_allocation_site site then site else site * 256 + len.

Lemma alloc_payload_ok t site len :
  0 <= t < 64 -> site_ok site -> 0 <= len < 256 -> header_ok t 0 (alloc_payload site len).
Proof.
  intros Ht Hs Hl. unfold alloc_payload, is_big_allocation_site. unfold site_ok, small_site, big_site in Hs.
  split_and!; try lia; destruct (Z.leb_spec 8388608 site); lia.
Qed.

Lemma alloc_header t site len :
  0 <= t < 64 -> site_ok site -> 0 <= len < 256 ->
  write_obj_alloc_event site t len = [header t 0 (alloc_payload site len)].
Proof.
  intros Ht Hs Hl. unfold write_obj_alloc_event, alloc_payload, is_big_allocation_site, site_ok, small_site, big_site in *.
  destruct (Z.leb_spec 8388608 site); apply word_header; try fields; payload.
Qed.

Lemma recover_site t site len :
  0 <= t < 64 -> site_ok site -> 0 <= len < 256 ->
  recoverSite (header t 0 (alloc_payload site len)) = (site, is_big_allocation_site site).
Proof.
  intros Ht Hs Hl. pose proof (alloc_payload_ok t site len Ht Hs Hl) as Hok. unfold recoverSite.
  rewrite header_payload by done. rewrite recover_12, header_bits by (done || lia).
  unfold alloc_payload, is_big_allocation_site, site_ok, small_site, big_site in *.
  rewrite land_1, !Z.shiftr_div_pow2 by lia.
  change (2 ^ 8) with 256. change (2 ^ 15) with 32768 in *. change (2 ^ 16) with 65536.
  destruct (Z.leb_spec 8388608 site).
  - destruct (Z.eqb_spec ((site / 256) mod 65536 / 32768 mod 2) 0) as [E|E]; [|done].
    exfalso. Z.to_euclidean_division_equations; lia.
  - rewrite (Z.div_add_l site 256), (Z.div_small len), Z.add_0_r, (Z.mod_small site) by lia.
    rewrite (Z.div_small site) by lia. done.
Qed.

(** The length of an array: small ones in the header, others in a word. *)
Lemma recover_length t site n rest ws :
  0 <= t < 64 -> small_site site -> 0 <= n < 2 ^ 31 ->
  rest = (if ARRAY_LENGTH_MAX_SMALL <=? n then write_word n else []) ->
  recoverArrayLength (header t 0 (alloc_payload site (Z.min n ARRAY_LENGTH_MAX_SMALL))) (rest ++ ws) = Some (n, ws).
Proof.
  intros Ht Hs Hn ->. unfold recoverArrayLength, ARRAY_LENGTH_MAX_SMALL, ARRAY_SIZE_MAX_SMALL.
  rewrite recover_33, header_bits by (try apply alloc_payload_ok; try left; try done; lia).
  unfold alloc_payload, is_big_allocation_site, small_site in *. rewrite (proj2 (Z.leb_gt 8388608 site)) by lia.
  change (2 ^ 0) with 1. change (2 ^ 8) with 256. rewrite Z.div_1_r, (Z.add_comm (site * 256)), Z.mod_add, Z.mod_small by lia.
  destruct (Z.leb_spec 255 n).
  - rewrite Z.min_r, Z.eqb_refl by lia. apply next_int. unfold int_ok. lia.
  - rewrite Z.min_l by lia. by rewrite (proj2 (Z.eqb_neq n 255)) by lia.
Qed.

Lemma recover_no_length t site ws :
  0 <= t < 64 -> small_site site -> recoverArrayLength (header t 0 (alloc_payload site 0)) ws = Some (0, ws).
Proof.
  intros Ht Hs. pose proof (recover_length t site 0 [] ws Ht Hs ltac:(lia)) as H. by apply H.
Qed.

(** Choose the branch of the parser for a known type. *)
Ltac dispatch := event_types; cbv beta iota zeta delta [parseBody is_deviant Z.eqb Pos.eqb orb]; event_types;
  cbv beta iota zeta delta [Z.eqb Pos.eqb orb].

(** Read words and wide words. *)
Ltac in_range := done || (unfold int_ok, addr_ok, long_ok in *; lia).
Ltac next := rewrite <- ?app_assoc;
  repeat (first [rewrite next_addr by in_range | rewrite next_size by in_range | rewrite next_long by in_range
    | rewrite next_int by in_range]; cbn [mbind option_bind]).

Lemma land_lnot_ones x n : 0 <= n -> (x .& Z.lnot ((1 ≪ n) - 1) =? 0) = (0 <=? x) && (x <? 2 ^ n).
Proof.
  intros Hn. rewrite shiftl_1, Z.sub_1_r, <- Z.ones_equiv, <- Z.ldiff_land, Z.ldiff_ones_r by done.
  rewrite Z.shiftl_mul_pow2, Z.shiftr_div_pow2 by done. pose proof (pow2_pos n Hn) as Hp.
  pose proof (Z.div_mod x (2 ^ n) ltac:(lia)) as Hx. pose proof (Z.mod_pos_bound x (2 ^ n) Hp).
  destruct (decide (0 <= x < 2 ^ n)) as [Hin|Hout].
  - rewrite (Z.div_small x) by done. rewrite (proj2 (Z.leb_le 0 x)), (proj2 (Z.ltb_lt x (2 ^ n))) by lia. done.
  - replace ((0 <=? x) && (x <? 2 ^ n)) with false by (destruct (Z.leb_spec 0 x), (Z.ltb_spec x (2 ^ n)); done || lia).
    apply Z.eqb_neq. intros E. apply Z.mul_eq_0 in E as [E|E]; [|lia]. rewrite E in Hx. lia.
Qed.

Lemma rel_addr_spec base f bits :
  addr_ok base -> addr_ok f -> 0 <= bits ->
  get_rel_addr base f bits = (u32 ((f - base) / 8), (0 <=? (f - base) / 8) && ((f - base) / 8 <? 2 ^ bits)).
Proof.
  unfold addr_ok. intros Hb Hf Hn. unfold get_rel_addr, LogMinObjAlignmentInBytes.
  rewrite (swrap_small 64 f), (swrap_small 64 base), (swrap_small 64 (f - base)) by lia.
  rewrite Z.shiftr_div_pow2, land_lnot_ones by lia. done.
Qed.

Lemma create_rel base f :
  addr_ok base -> addr_ok f -> base mod 8 = 0 -> f mod 8 = 0 -> 0 <= (f - base) / 8 < 2 ^ 32 ->
  forall r, u32 r = (f - base) / 8 -> createRelAddr base r = f.
Proof.
  unfold addr_ok. intros Hb Hf Hbm Hfm Hr r Er. unfold createRelAddr, NEXT_DOUBLE_WORD_MASK, alignment.
  rewrite shiftl_1, land_ones_wrap, Er by lia.
  assert ((f - base) / 8 * 8 = f - base) as -> by (Z.to_euclidean_division_equations; lia).
  rewrite (swrap_small 64 (f - base)) by lia. rewrite swrap_small; lia.
Qed.

Section Events.
Variable anchors : bool.
Variable sites : Z -> option Z.
Variables types_isArray types_isMirror types_isClass : Z -> bool.
Variable move_target : Z -> Z -> Z.

Abbreviation evaluate := (evaluateEvent anchors sites types_isArray types_isMirror types_isClass move_target).
Abbreviation body := (parseBody sites types_isArray types_isMirror types_isClass move_target).
Abbreviation fire := (fire_event anchors).

Lemma anchor_ok t ws :
  0 <= t < 64 -> checkAnchor anchors t ((if anchors then write_anchor t else []) ++ ws) = Some ws.
Proof.
  intros Ht. unfold checkAnchor. destruct anchors; [|done]. cbn [write_anchor write_word app getNextWord mbind option_bind].
  fold (anchor_check (s32 (get_debug_anchor t)) t). by rewrite anchor_checks.
Qed.

(** An event whose body is read as [calls]. *)
Lemma evaluate_fire base t sp p n words calls :
  header_ok t sp p -> t <> EVENTS_GC_START -> t <> EVENTS_GC_END ->
  (forall ws, body base t (header t sp p) sp (words ++ ws) = Some (calls, ws)) ->
  forall ws, evaluate base (stored (fire t n (header t sp p :: words)) ++ ws) = Some (calls, base, ws).
Proof.
  intros Hh Hs He Hb ws. unfold fire_event. cbn [stored app]. rewrite <- app_assoc. unfold evaluateEvent.
  cbn [getNextWord mbind option_bind]. rewrite (header_first t sp p Hh). destruct Hh as (Ht & Hsp & Hp).
  rewrite header_type, header_space by lia. rewrite !(proj2 (Z.eqb_neq _ _)) by done. rewrite Hb.
  cbn [mbind option_bind]. by rewrite anchor_ok.
Qed.

(** ** Requests *)

Inductive compiler := C1 | C2.
Inductive slow := IRSlow | C1Slow | C2Slow.

Definition fast_type (c : compiler) : Z := match c with C1 => EVENTS_C1_ALLOC_FAST | C2 => EVENTS_C2_ALLOC_FAST end.
Definition normal_type (c : compiler) : Z := match c with C1 => EVENTS_C1_ALLOC_NORMAL | C2 => EVENTS_C2_ALLOC_NORMAL end.
Definition slow_type (s : slow) (deviant : bool) : Z :=
  match s, deviant with
  | IRSlow, false => EVENTS_IR_ALLOC_SLOW | IRSlow, true => EVENTS_IR_ALLOC_SLOW_DEVIANT_TYPE
  | C1Slow, false => EVENTS_C1_ALLOC_SLOW | C1Slow, true => EVENTS_C1_ALLOC_SLOW_DEVIANT_TYPE
  | C2Slow, false => EVENTS_C2_ALLOC_SLOW | C2Slow, true => EVENTS_C2_ALLOC_SLOW_DEVIANT_TYPE
  end.

Inductive request :=
| AllocFastNoArrays (site : Z)
| AllocNormalNoArrays (obj : oop) (site : Z)
| AllocFast (c : compiler) (obj : oop) (site : Z)
| AllocNormal (c : compiler) (obj : oop) (site : Z)
| AllocSlow (s : slow) (deviant : bool) (obj : oop) (site size : Z)
| AllocSlowSpecial (obj : oop) (site size : Z)
| MirrorAlloc (obj : oop) (size : Z) (mirrored : option Z)
| TlabAlloc (a sz : Z)
| PlabAlloc (a sz : Z)
| GCStart (id gc_type gc_cause : Z) (concurrent failed : bool) (millis base : Z)
| GCEnd (id gc_type gc_cause : Z) (concurrent failed : bool) (millis base : Z)
| GCInfo (region id : Z)
| GCFailed (region : Z)
| GCInterrupt (id a : Z)
| GCContinue (id a : Z)
| KeepAlive (a : Z)
| MoveSlow (from to : Z)
| MoveRegion (from to n : Z)
| MoveFast (from space : Z)
| Roots (l : list (Z * EventRootPointerList.root))
| SyncFrom (from : Z) (obj : oop) (size site : Z)
| SyncObj (obj : oop) (size site : Z)
| Sync
| ThreadAlive (thread_type id : Z) (name : list Z)
| ThreadDeath (id : Z)
| SpaceCreate (id bottom end_ : Z)
| SpaceAlloc (id mode type : Z)
| SpaceRelease (id : Z)
| SpaceRedefine (id bottom end_ : Z)
| SpaceDestroy (id n : Z)
| Tag (tag : list Z).

Definition add_roots (l : list (Z * EventRootPointerList.root)) : EventRootPointerList.root_list :=
  EventRootPointerList.RootList ((fun r => (r.1, EventRootPointerList.info_of r.2)) <$> l)
    (foldr Z.add 0 ((fun r => EventRootPointerList.words_of r.2) <$> l)).

(** The event of a request; [base] is [rel_addr_base]. *)
Definition event_of (base : Z) (r : request) : event :=
  match r with
  | AllocFastNoArrays site => fire_obj_alloc_fast_no_arrays anchors site EVENTS_IR_ALLOC_FAST
  | AllocNormalNoArrays obj site => fire_obj_alloc_normal_no_arrays anchors obj site EVENTS_IR_ALLOC_NORMAL
  | AllocFast c obj site => fire_obj_alloc_fast anchors obj site (fast_type c)
  | AllocNormal c obj site => fire_obj_alloc_normal anchors obj site (normal_type c)
  | AllocSlow s deviant obj site size => fire_obj_alloc_slow anchors obj site (slow_type s deviant) size
  | AllocSlowSpecial obj site size => fire_obj_alloc_slow anchors obj site EVENTS_ALLOC_SLOW size
  | MirrorAlloc obj size mirrored => fire_mirror_obj_alloc anchors obj size mirrored
  | TlabAlloc a sz => fire_tlab_alloc anchors a sz
  | PlabAlloc a sz => fire_plab_alloc anchors a sz
  | GCStart id ty cause c f millis b => fire_gc_start_end anchors EVENTS_GC_START id ty cause c f millis b
  | GCEnd id ty cause c f millis b => fire_gc_start_end anchors EVENTS_GC_END id ty cause c f millis b
  | GCInfo region id => fire_gc_info anchors region id
  | GCFailed region => fire_gc_failed anchors region
  | GCInterrupt id a => fire_gc_interrupt_continue anchors EVENTS_GC_INTERRUPT id a
  | GCContinue id a => fire_gc_interrupt_continue anchors EVENTS_GC_CONTINUE id a
  | KeepAlive a => fire_gc_keep_alive anchors a
  | MoveSlow f t => fire_gc_move_slow anchors f t
  | MoveRegion f t n => fire_gc_move_region anchors f t n
  | MoveFast f space => fire_gc_move_fast anchors base f space
  | Roots l => fire_gc_root_ptrs anchors (add_roots l)
  | SyncFrom from obj size site => fire_sync_obj_from anchors from obj size site
  | SyncObj obj size site => fire_sync_obj anchors obj size site
  | Sync => fire_sync anchors
  | ThreadAlive ty id name => fire_thread_alive anchors ty id name
  | ThreadDeath id => fire_thread_death anchors id
  | SpaceCreate id b e => fire_space_creation anchors id b e
  | SpaceAlloc id mode ty => fire_space_alloc anchors id mode ty
  | SpaceRelease id => fire_space_release anchors id
  | SpaceRedefine id b e => fire_space_redefine anchors id b e
  | SpaceDestroy id n => fire_space_destroyed anchors id n
  | Tag tag => fire_tag anchors tag
  end.

Definition new_base (base : Z) (r : request) : Z :=
  match r with GCStart _ _ _ _ _ _ b | GCEnd _ _ _ _ _ _ b => b | _ => base end.

(** *** What the parser makes of them *)

Definition length_of (obj : oop) : Z := default UNDEFINED_LENGTH (array_length obj).

Definition root_call (r : Z * EventRootPointerList.root) : call :=
  let ptr := if r.1 =? 0 then NULL_PTR else r.1 in
  match r.2 with
  | EventRootPointerList.add_class_loader s => doParseGCClassLoaderRootPtr ptr s
  | EventRootPointerList.add_class c => doParseGCClassRootPtr ptr c
  | EventRootPointerList.add_static_field c o => doParseGCStaticFieldRootPtr ptr c o
  | EventRootPointerList.add_local_variable t c m s => doParseGCLocalVariableRootPtr ptr t c m s
  | EventRootPointerList.add_vm_internal_thread_data t => doParseGCVMInternalThreadDataRootPtr ptr t
  | EventRootPointerList.add_code_blob c m => doParseGCCodeBlobRootPtr ptr c m
  | EventRootPointerList.add_jni_local t => doParseGCJNILocalRootPtr ptr t
  | EventRootPointerList.add_jni_global w => doParseGCJNIGlobalRootPtr ptr w
  | EventRootPointerList.add_other t => doParseGCOtherRootPtr ptr (EventRootPointerList.root_code t)
  | EventRootPointerList.add_debug s => doParseGCDebugRootPtr ptr s
  end.

(** The form of a fast move: narrow, relative or absolute. *)
Definition move_type (base from : Z) : Z :=
  if (get_rel_addr base from (32 - 8 - 2)).2 then EVENTS_GC_MOVE_FAST_NARROW
  else if (get_rel_addr base from 32).2 then EVENTS_GC_MOVE_FAST else EVENTS_GC_MOVE_FAST_WIDE.

(** The parser reads three bytes of site from a synchronisation event, of a
    small site too. *)
Definition sync_site (site : Z) : Z := if is_big_allocation_site site then site else site * 256.

Definition sync_size (obj : oop) (size_given : Z) : Z :=
  if is_instanceMirror obj then (if size_given =? 0 then size obj else size_given) * HeapWordSize else 0.

Definition expected (base : Z) (r : request) : list call :=
  match r with
  | AllocFastNoArrays site => [doParseObjAllocFastIr EVENTS_IR_ALLOC_FAST site]
  | AllocNormalNoArrays obj site => [doParseObjAllocNormalIr EVENTS_IR_ALLOC_NORMAL site (addr obj)]
  | AllocFast c obj site => [doParseObjAllocFastCi (fast_type c) site (type_id obj) (is_array obj) (length_of obj)]
  | AllocNormal c obj site =>
      [doParseObjAllocNormalCi (normal_type c) site (type_id obj) (addr obj) (is_array obj) (length_of obj)]
  | AllocSlow s deviant obj site _ =>
      [doParseObjAllocSlowCiIr_Deviant (slow_type s deviant) (default 0 (sites site)) site (addr obj) (is_array obj)
         (length_of obj) (if deviant then type_id obj else -1)]
  | AllocSlowSpecial obj site sz =>
      [doParseObjAllocSlow EVENTS_ALLOC_SLOW site (type_id obj) (addr obj) (is_array obj) (length_of obj)
         (if is_instanceMirror obj then sz * HeapWordSize else UNDEFINED_LENGTH)]
  | MirrorAlloc obj sz mirrored =>
      [doParseObjAllocSlow EVENTS_ALLOC_SLOW 1 (match mirrored with Some t => - t | None => 1 end) (addr obj) false
         UNDEFINED_LENGTH (sz * HeapWordSize)]
  | TlabAlloc a sz => [doParseTlabAlloc sz a]
  | PlabAlloc a sz => [doParsePlabAlloc sz a]
  | GCStart id ty cause c _ millis _ => [doParseGCStart ty cause (swrap 16 id) millis c]
  | GCEnd id ty cause c f millis _ => [doParseGCEnd ty cause (swrap 16 id) millis c f]
  | GCInfo region id => [doParseGCInfo region id]
  | GCFailed region => [doParseGCFailed region]
  | GCInterrupt id a => [doParseGCInterrupt id a]
  | GCContinue id a => [doParseGCContinue id a]
  | KeepAlive a => [doKeepAlive EVENTS_GC_KEEP_ALIVE a]
  | MoveSlow f t => [doGCMove EVENTS_GC_MOVE_SLOW f t None]
  | MoveRegion f t n => [doParseGCMoveRegion EVENTS_GC_MOVE_REGION f t n]
  | MoveFast f space => [doGCMove (move_type base f) f (-1) (Some space)]
  | Roots l => root_call <$> l
  | SyncFrom from obj sz site =>
      [doParseSyncObj EVENTS_SYNC_OBJ (sync_site site) (type_id obj) from (addr obj) (length_of obj) (sync_size obj sz)]
  | SyncObj obj sz site =>
      [doParseSyncObj EVENTS_SYNC_OBJ_NARROW (sync_site site) (type_id obj) (addr obj) (addr obj) (length_of obj) (sync_size obj sz)]
  | Sync => []
  | ThreadAlive ty id name => [doParseThreadAlive (header EVENTS_THREAD_ALIVE 0 (ty * 256)) id (take 48 name)]
  | ThreadDeath id => [doParseThreadDeath id]
  | SpaceCreate id b e => [doParseSpaceCreate id b (e - b)]
  | SpaceAlloc id mode ty => [doParseSpaceAlloc id mode ty]
  | SpaceRelease id => [doParseSpaceRelease id]
  | SpaceRedefine id b e => [doParseSpaceRedefine id b (e - b)]
  | SpaceDestroy id n => [doParseSpaceDestroy id n]
  | Tag tag => [doParseGCTag tag]
  end.

(** *** Requests the VM makes *)

(** An object with a site: arrays have small sites. *)
Definition obj_ok (obj : oop) (site : Z) : Prop :=
  addr_ok (addr obj) /\ int_ok (type_id obj) /\
  match array_length obj with Some n => 0 <= n < 2 ^ 31 /\ small_site site | None => site_ok site end.

Definition mirror_size_ok (obj : oop) (sz : Z) : Prop := is_instanceMirror obj = true -> 0 <= sz * HeapWordSize < 2 ^ 31.

Definition root_ok (r : Z * EventRootPointerList.root) : Prop :=
  long_ok r.1 /\ r.1 <> -1 /\
  match r.2 with
  | EventRootPointerList.add_class_loader s | EventRootPointerList.add_debug s =>
      Forall letter s /\ Z.of_nat (length s) < 2 ^ 31
  | EventRootPointerList.add_class c => int_ok c
  | EventRootPointerList.add_static_field c o | EventRootPointerList.add_code_blob c o => int_ok c /\ int_ok o
  | EventRootPointerList.add_local_variable t c m s => long_ok t /\ int_ok c /\ int_ok m /\ int_ok s
  | EventRootPointerList.add_vm_internal_thread_data t | EventRootPointerList.add_jni_local t => long_ok t
  | EventRootPointerList.add_jni_global _ => True
  | EventRootPointerList.add_other t => 8 <= EventRootPointerList.root_code t <= 15
  end.

(** [base] is the base of relative addresses. *)
Definition request_ok (base : Z) (r : request) : Prop :=
  match r with
  | AllocFastNoArrays site => site_ok site
  | AllocNormalNoArrays obj site => addr_ok (addr obj) /\ site_ok site
  | AllocFast _ obj site => obj_ok obj site /\ sites site = Some (type_id obj) /\ types_isArray (type_id obj) = is_array obj
  | AllocNormal _ obj site => obj_ok obj site /\ sites site = Some (type_id obj) /\
      types_isArray (type_id obj) = is_array obj /\ types_isClass (type_id obj) = false
  | AllocSlow _ deviant obj site _ => obj_ok obj site /\ ALLOCATION_SITE_IDENTIFIER_FIRST_CUSTOM <= site /\
      is_instanceMirror obj = false /\ exists ty, sites site = Some ty /\ types_isArray ty = is_array obj
  | AllocSlowSpecial obj site sz => obj_ok obj site /\ 0 <= site < ALLOCATION_SITE_IDENTIFIER_FIRST_CUSTOM /\
      mirror_size_ok obj sz /\ sites site = Some ALLOCATED_TYPE_IDENTIFIER_UNKNOWN /\
      types_isMirror (type_id obj) = is_instanceMirror obj /\
      (is_array obj = negb (is_instanceMirror obj) && types_isArray (type_id obj))
  | MirrorAlloc obj sz mirrored => addr_ok (addr obj) /\ 0 <= sz * HeapWordSize < 2 ^ 31 /\
      sites 1 = Some ALLOCATED_TYPE_IDENTIFIER_UNKNOWN /\
      let t := match mirrored with Some t => - t | None => 1 end in int_ok t /\ types_isMirror t = true
  | TlabAlloc a sz | PlabAlloc a sz => addr_ok a /\ 0 <= sz < 2 ^ 31
  | GCStart id ty cause _ _ millis b | GCEnd id ty cause _ _ millis b =>
      int_ok id /\ 0 <= ty < 4 /\ 0 <= cause < 256 /\ long_ok millis /\ addr_ok b /\ b mod 8 = 0
  | GCInfo region id => 0 <= region < 2 ^ 24 /\ int_ok id
  | GCFailed region => 0 <= region < 2 ^ 24
  | GCInterrupt id a | GCContinue id a => int_ok id /\ addr_ok a
  | KeepAlive a => addr_ok a
  | MoveSlow f t => addr_ok f /\ addr_ok t
  | MoveRegion f t n => addr_ok f /\ addr_ok t /\ 0 <= n < 2 ^ 24
  | MoveFast f space => addr_ok f /\ f mod 8 = 0 /\ 0 <= space < 3
  | Roots l => (length l <= 3)%nat /\ Forall root_ok l
  | SyncFrom from obj sz site => addr_ok from /\ obj_ok obj site /\ types_isArray (type_id obj) = is_array obj /\
      types_isClass (type_id obj) = is_instanceMirror obj /\ 0 <= sync_size obj sz < 2 ^ 31
  | SyncObj obj sz site => obj_ok obj site /\ types_isArray (type_id obj) = is_array obj /\
      types_isClass (type_id obj) = is_instanceMirror obj /\ 0 <= sync_size obj sz < 2 ^ 31
  | Sync => True
  | ThreadAlive ty id name => 0 <= ty < 5 /\ long_ok id /\ Forall letter name
  | ThreadDeath id => long_ok id
  | SpaceCreate id b e | SpaceRedefine id b e => int_ok id /\ addr_ok b /\ addr_ok e /\ b <= e /\ (e - b) mod 8 = 0
  | SpaceAlloc id mode ty => int_ok id /\ 0 <= mode < 3 /\ 0 <= ty < 3
  | SpaceRelease id => int_ok id
  | SpaceDestroy id n => int_ok id /\ addr_ok n
  | Tag tag => Forall letter tag /\ Z.of_nat (length tag) < 2 ^ 31
  end.

(** ** The round trip, event by event *)

(** Read an event with header fields [t], [sp] and [p]. *)
Ltac event t sp p :=
  rewrite (word_header _ t sp p) by (first [fields | payload]); cbn [app];
  apply evaluate_fire; [unfold header_ok; event_types; lia|done|done|]; intros ?; dispatch.

Abbreviation reads base r :=
  (forall ws, evaluate base (stored (event_of base r) ++ ws) = Some (expected base r, new_base base r, ws)).

Lemma read_tlab base a sz : request_ok base (TlabAlloc a sz) -> reads base (TlabAlloc a sz).
Proof.
  intros [Ha Hs]. cbn [event_of expected new_base]. unfold fire_tlab_alloc, write_lab_alloc_event. event 13 0 0.
  unfold parseLabAlloc. next. by rewrite swrap_small by lia.
Qed.

Lemma read_plab base a sz : request_ok base (PlabAlloc a sz) -> reads base (PlabAlloc a sz).
Proof.
  intros [Ha Hs]. cbn [event_of expected new_base]. unfold fire_plab_alloc, write_lab_alloc_event. event 14 0 0.
  unfold parseLabAlloc. next. by rewrite swrap_small by lia.
Qed.

Lemma read_gc_info base region id : request_ok base (GCInfo region id) -> reads base (GCInfo region id).
Proof.
  intros [Hr Hi]. cbn [event_of expected new_base]. unfold fire_gc_info. rewrite (swrap_small 32 region) by lia.
  event 4 0 region. unfold parseGCInfo. next. rewrite header_payload_land; [done|]. unfold header_ok. lia.
Qed.

Lemma read_gc_failed base region : request_ok base (GCFailed region) -> reads base (GCFailed region).
Proof.
  intros Hr. cbn [request_ok event_of expected new_base] in *. unfold fire_gc_failed. rewrite (swrap_small 32 region) by lia.
  event 5 0 region. unfold parseGCFailed. rewrite header_payload_land; [done|]. unfold header_ok. lia.
Qed.

Lemma read_gc_pause base id a :
  int_ok id -> addr_ok a -> reads base (GCInterrupt id a) /\ reads base (GCContinue id a).
Proof.
  intros Hi Ha. cbn [event_of expected new_base]. unfold fire_gc_interrupt_continue.
  split; [event 47 0 0|event 48 0 0]; unfold parseGCPause; by next.
Qed.

Lemma read_keep_alive base a : request_ok base (KeepAlive a) -> reads base (KeepAlive a).
Proof.
  intros Ha. cbn [request_ok event_of expected new_base] in *. unfold fire_gc_keep_alive, write_gc_move_event, NO_REGION.
  event 35 0 0. unfold parseGCKeepAlive. by next.
Qed.

Lemma read_move_slow base f t : request_ok base (MoveSlow f t) -> reads base (MoveSlow f t).
Proof.
  intros [Hf Ht]. cbn [event_of expected new_base] in *. unfold fire_gc_move_slow, write_gc_move_event, NO_REGION.
  event 30 0 0. unfold parseGCMoveSlow. by next.
Qed.

Lemma read_move_region base f t n : request_ok base (MoveRegion f t n) -> reads base (MoveRegion f t n).
Proof.
  intros (Hf & Ht & Hn). cbn [event_of expected new_base] in *. unfold fire_gc_move_region, write_gc_move_event.
  event 34 0 n. unfold parseGCMoveRegion. next. rewrite header_payload; [done|]. unfold header_ok. lia.
Qed.

Lemma read_large_region base f t n ws :
  addr_ok f -> addr_ok t -> 0 <= n < 2 ^ 26 ->
  evaluate base (stored (fire_gc_move_region anchors f t n) ++ ws) =
    Some ([doParseGCMoveRegion EVENTS_GC_MOVE_REGION f t (n mod 2 ^ 24)], base, ws).
Proof.
  intros Hf Ht Hn. unfold fire_gc_move_region, write_gc_move_event.
  change (stuff [event_field EVENTS_GC_MOVE_REGION; event_gap; (n, 24)]) with (stuff [event_field EVENTS_GC_MOVE_REGION; (n, 26)]).
  pose proof (Z.div_mod n (2 ^ 24) ltac:(lia)) as Hd. pose proof (Z.mod_pos_bound n (2 ^ 24) ltac:(lia)) as Hm.
  assert (0 <= n / 2 ^ 24 < 4) by (split; [apply Z.div_pos|apply Z.div_lt_upper_bound]; lia).
  set (q := n / 2 ^ 24) in *. set (r := n mod 2 ^ 24) in *. event 34 q r. unfold parseGCMoveRegion. next.
  rewrite header_payload; [done|]. unfold header_ok. lia.
Qed.

Lemma read_sync base : reads base Sync.
Proof. cbn [event_of expected new_base]. unfold fire_sync. by event 0 0 0. Qed.

Lemma read_thread_death base id : request_ok base (ThreadDeath id) -> reads base (ThreadDeath id).
Proof.
  intros Hi. cbn [request_ok event_of expected new_base] in *. unfold fire_thread_death. event 12 0 0.
  unfold parseThreadDeath. by next.
Qed.

Lemma read_space_release base id : request_ok base (SpaceRelease id) -> reads base (SpaceRelease id).
Proof.
  intros Hi. cbn [request_ok event_of expected new_base] in *. unfold fire_space_release. event 8 0 0.
  unfold parseSpaceRelease. by next.
Qed.

Lemma read_space_destroy base id n : request_ok base (SpaceDestroy id n) -> reads base (SpaceDestroy id n).
Proof.
  intros [Hi Hn]. cbn [event_of expected new_base] in *. unfold fire_space_destroyed. event 10 0 0.
  unfold parseSpaceDestroy. by next.
Qed.

Lemma space_size_eq b e : addr_ok b -> addr_ok e -> b <= e -> (e - b) mod 8 = 0 -> space_size b e = e - b.
Proof.
  unfold addr_ok, space_size, HeapWordSize. intros Hb He Hle Hm. rewrite wrap_small.
  - pose proof (Z.div_mod (e - b) 8 ltac:(lia)). lia.
  - Z.to_euclidean_division_equations; lia.
Qed.

Lemma read_space_bounds base id b e :
  int_ok id -> addr_ok b -> addr_ok e -> b <= e -> (e - b) mod 8 = 0 ->
  reads base (SpaceCreate id b e) /\ reads base (SpaceRedefine id b e).
Proof.
  intros Hi Hb He Hle Hm. cbn [event_of expected new_base]. unfold fire_space_creation, fire_space_redefine.
  rewrite (space_size_eq b e) by done.
  split; [event 6 0 0|event 9 0 0]; unfold parseSpaceBounds; by next.
Qed.

Lemma read_space_alloc base id mode ty : request_ok base (SpaceAlloc id mode ty) -> reads base (SpaceAlloc id mode ty).
Proof.
  intros (Hi & Hm & Ht). cbn [event_of expected new_base]. unfold fire_space_alloc.
  event 7 0 (ty * 2 ^ 18 + mode * 2 ^ 10). unfold parseSpaceAlloc.
  change 255 with (2 ^ 8 - 1). rewrite !land_ones_wrap, !Z.shiftr_div_pow2 by lia. unfold wrap, header. rewrite !s32_bits by lia.
  replace (_ mod 2 ^ 8) with ty by (Z.to_euclidean_division_equations; lia).
  replace (_ mod 2 ^ 8) with mode by (Z.to_euclidean_division_equations; lia).
  rewrite (proj2 (Z.leb_gt 4 ty)), (proj2 (Z.leb_gt 3 mode)) by lia. cbn [orb]. by next.
Qed.

Lemma read_tag base tag : request_ok base (Tag tag) -> reads base (Tag tag).
Proof.
  intros [Hl Hn]. cbn [event_of expected new_base]. unfold fire_tag, write_string. event 50 0 0. unfold parseGCTag. next.
  by rewrite getString_spec.
Qed.

Lemma read_thread_alive base ty id name : request_ok base (ThreadAlive ty id name) -> reads base (ThreadAlive ty id name).
Proof.
  intros (Ht & Hi & Hn). cbn [event_of expected new_base]. unfold fire_thread_alive. cbv zeta. event 11 0 (ty * 256).
  unfold parseThreadAlive. next. by rewrite getChars_name.
Qed.

(** *** Collections *)

Definition gc_flags (concurrent failed : bool) : Z := (if failed then 1 else 0) + (if concurrent then 2 else 0).

Lemma gc_header t ty cause c f :
  0 <= t < 64 -> 0 <= ty < 4 -> 0 <= cause < 256 ->
  write_gc_event t ty cause c f = [header t 0 (ty * 65536 + cause * 256 + gc_flags c f)].
Proof.
  intros Ht Hty Hc. unfold write_gc_event.
  replace (0 .| _ .| _) with (gc_flags c f) by (destruct c, f; reflexivity).
  assert (0 <= gc_flags c f < 256) by (destruct c, f; unfold gc_flags; lia).
  apply word_header; [fields|payload].
Qed.

Lemma gc_meta t ty cause c f id millis b ws :
  0 <= t < 64 -> 0 <= ty < 4 -> 0 <= cause < 256 -> int_ok id -> long_ok millis -> addr_ok b ->
  parseGCMeta (header t 0 (ty * 65536 + cause * 256 + gc_flags c f)) (write_word id ++ write_wide_word millis ++ write_abs_addr b ++ ws) =
    Some (ty, cause, swrap 16 id, millis, gc_flags c f, b, ws).
Proof.
  intros Ht Hty Hc Hid Hm Hb. assert (0 <= gc_flags c f < 256) by (destruct c, f; unfold gc_flags; lia).
  assert (header_ok t 0 (ty * 65536 + cause * 256 + gc_flags c f)) as Hh by (unfold header_ok; lia).
  unfold parseGCMeta. rewrite recover_11, recover_22, recover_33, !header_bits by (done || lia).
  change (2 ^ 16) with 65536. change (2 ^ 8) with 256. change (2 ^ 0) with 1.
  replace ((ty * 65536 + cause * 256 + gc_flags c f) / 65536 mod 256) with ty by (Z.to_euclidean_division_equations; lia).
  replace ((ty * 65536 + cause * 256 + gc_flags c f) / 256 mod 256) with cause by (Z.to_euclidean_division_equations; lia).
  replace ((ty * 65536 + cause * 256 + gc_flags c f) / 1 mod 256) with (gc_flags c f) by (Z.to_euclidean_division_equations; lia).
  rewrite (proj2 (Z.leb_gt 5 ty)) by lia. by next.
Qed.

Lemma read_gc_start base id ty cause c f millis b :
  request_ok base (GCStart id ty cause c f millis b) -> reads base (GCStart id ty cause c f millis b).
Proof.
  intros (Hid & Hty & Hc & Hm & Hb & _) ws. cbn [event_of expected new_base]. unfold fire_gc_start_end, fire_event.
  assert (0 <= gc_flags c f < 256) by (destruct c, f; unfold gc_flags; lia).
  rewrite gc_header by (done || (event_types; lia)). cbn [stored app]. rewrite <- !app_assoc. unfold evaluateEvent.
  cbn [getNextWord mbind option_bind]. rewrite header_first by (unfold header_ok; event_types; lia).
  rewrite header_type, header_space by (event_types; lia). cbn [Z.eqb]. rewrite Z.eqb_refl. unfold parseGCStart.
  rewrite gc_meta by (done || (event_types; lia)). cbn [mbind option_bind]. rewrite anchor_ok by (event_types; lia).
  by destruct c, f.
Qed.

Lemma read_gc_end base id ty cause c f millis b :
  request_ok base (GCEnd id ty cause c f millis b) -> reads base (GCEnd id ty cause c f millis b).
Proof.
  intros (Hid & Hty & Hc & Hm & Hb & _) ws. cbn [event_of expected new_base]. unfold fire_gc_start_end, fire_event.
  assert (0 <= gc_flags c f < 256) by (destruct c, f; unfold gc_flags; lia).
  rewrite gc_header by (done || (event_types; lia)). cbn [stored app]. rewrite <- !app_assoc. unfold evaluateEvent.
  cbn [getNextWord mbind option_bind]. rewrite header_first by (unfold header_ok; event_types; lia).
  rewrite header_type, header_space by (event_types; lia).
  change (EVENTS_GC_END =? EVENTS_GC_START) with false. rewrite Z.eqb_refl. cbn iota. unfold parseGCEnd.
  rewrite gc_meta by (done || (event_types; lia)). cbn [mbind option_bind]. rewrite anchor_ok by (event_types; lia).
  by destruct c, f.
Qed.

(** *** Fast moves *)

Lemma read_move_fast base f space :
  addr_ok base -> base mod 8 = 0 -> request_ok base (MoveFast f space) -> reads base (MoveFast f space).
Proof.
  intros Hb Hbm (Hf & Hfm & Hs). cbn [event_of expected new_base]. unfold fire_gc_move_fast, move_type.
  rewrite !rel_addr_spec by (done || lia). cbn [snd]. set (rel := (f - base) / 8).
  pose proof (fun H => create_rel base f Hb Hf Hbm Hfm H) as Hcreate. fold rel in Hcreate.
  unfold write_gc_move_fast_event, NO_ENCODED_FROM_ADDR.
  destruct (Z.leb_spec 0 rel); [destruct (Z.ltb_spec rel (2 ^ (32 - 8 - 2)));
    [|destruct (Z.ltb_spec rel (2 ^ 32))]|]; cbn [andb].
  - assert (s32 (u32 (u32 rel ≪ 2)) = rel * 4) as ->.
    { rewrite (wrap_small 32 rel), Z.shiftl_mul_pow2 by lia. rewrite wrap_small by lia. rewrite swrap_small; lia. }
    intros ws. rewrite (word_header _ 33 space (rel * 4)) by (first [fields|payload]). revert ws.
    apply evaluate_fire; [unfold header_ok; lia|done|done|]. intros ws. dispatch.
    unfold parseGCMoveFast_WideOrNarrow_Ptr. event_types. cbn [Z.eqb Pos.eqb orb mbind option_bind].
    rewrite header_payload by (unfold header_ok; lia). rewrite Hcreate; [done|lia|].
    unfold getDefinedAddrOnly, ADDR_MASK. change (-4) with (Z.lnot (Z.ones 2)).
    rewrite <- Z.ldiff_land, Z.ldiff_ones_r, Z.shiftr_shiftl_l by lia. rewrite Z.shiftl_0_r, Z.shiftr_div_pow2 by lia.
    change (2 ^ 2) with 4. rewrite Z.div_mul by lia. rewrite wrap_swrap, wrap_small; lia.
  - event 32 space 0. unfold parseGCMoveFast_WideOrNarrow_Ptr. event_types. cbn [Z.eqb Pos.eqb orb].
    unfold write_word. cbn [app getNextWord mbind option_bind]. rewrite Hcreate; [done|lia|].
    rewrite wrap_swrap, wrap_idemp, wrap_small; lia.
  - event 31 space 0. unfold parseGCMoveFast_WideOrNarrow_Ptr. event_types. cbn [Z.eqb Pos.eqb orb]. by next.
  - event 31 space 0. unfold parseGCMoveFast_WideOrNarrow_Ptr. event_types. cbn [Z.eqb Pos.eqb orb]. by next.
Qed.

(** *** Allocations *)

Lemma read_fast_no_arrays base site : request_ok base (AllocFastNoArrays site) -> reads base (AllocFastNoArrays site).
Proof.
  intros Hs. cbn [request_ok event_of expected new_base] in *. unfold fire_obj_alloc_fast_no_arrays.
  rewrite alloc_header by (done || lia). apply evaluate_fire; [apply alloc_payload_ok; (done || lia)|done|done|].
  intros ws. dispatch. unfold parseObjAllocFastIr. by rewrite recover_site by (done || lia).
Qed.

Lemma read_normal_no_arrays base obj site :
  request_ok base (AllocNormalNoArrays obj site) -> reads base (AllocNormalNoArrays obj site).
Proof.
  intros [Ha Hs]. cbn [request_ok event_of expected new_base] in *. unfold fire_obj_alloc_normal_no_arrays.
  rewrite alloc_header by (done || lia). cbn [app]. apply evaluate_fire; [apply alloc_payload_ok; (done || lia)|done|done|].
  intros ws. dispatch. unfold parseObjAllocNormalIr. next. by rewrite recover_site by (done || lia).
Qed.

(** What an object with array length [len] adds to header and words. *)
Definition small_length (obj : oop) : Z :=
  match array_length obj with Some n => Z.min n ARRAY_LENGTH_MAX_SMALL | None => 0 end.
Definition length_words (obj : oop) : list Z :=
  match array_length obj with
  | Some n => if ARRAY_LENGTH_MAX_SMALL <=? n then write_word n else []
  | None => []
  end.

Lemma obj_site obj site : obj_ok obj site -> site_ok site /\ 0 <= small_length obj < 256.
Proof.
  unfold obj_ok, small_length, ARRAY_LENGTH_MAX_SMALL. intros (_ & _ & H). destruct (array_length obj) as [n|].
  - destruct H as [Hn Hs]. split; [by left|lia].
  - split; [done|lia].
Qed.

Lemma array_length_read t obj site ws :
  0 <= t < 64 -> obj_ok obj site ->
  arrayLengthIf (is_array obj) (header t 0 (alloc_payload site (small_length obj))) (length_words obj ++ ws) =
    Some (length_of obj, ws).
Proof.
  unfold obj_ok, is_array, small_length, length_words, length_of. intros Ht (_ & _ & H).
  destruct (array_length obj) as [n|]; [|done]. destruct H. by apply recover_length.
Qed.

(** Read the length of any object with a small site. *)
Lemma small_length_read t obj site ws :
  0 <= t < 64 -> obj_ok obj site ->
  arrayLengthIf (negb (is_big_allocation_site site)) (header t 0 (alloc_payload site (small_length obj))) (length_words obj ++ ws) =
    Some (if is_array obj then length_of obj else if is_big_allocation_site site then UNDEFINED_LENGTH else 0, ws).
Proof.
  unfold obj_ok, is_array, small_length, length_words, length_of. intros Ht (_ & _ & H).
  destruct (array_length obj) as [n|].
  - destruct H as [Hn Hs]. pose proof Hs as Hs'. unfold small_site in Hs'. unfold is_big_allocation_site.
    rewrite (proj2 (Z.leb_gt 8388608 site)) by lia. by apply recover_length.
  - destruct (is_big_allocation_site site) eqn:Hb; [done|]. unfold is_big_allocation_site in Hb. zbool.
    apply recover_no_length; [done|]. destruct H as [H|H]; [done|unfold big_site in H; lia].
Qed.

Lemma fast_event_eq obj site t :
  obj_ok obj site -> 0 <= t < 64 -> fire_obj_alloc_fast anchors obj site t =
    fire t (1 + Z.of_nat (length (length_words obj))) (header t 0 (alloc_payload site (small_length obj)) :: length_words obj).
Proof.
  intros Ho Ht. pose proof (obj_site obj site Ho) as [Hs Hl]. unfold fire_obj_alloc_fast, small_length, length_words in *.
  destruct (array_length obj) as [n|]; [destruct (Z.leb_spec ARRAY_LENGTH_MAX_SMALL n)|].
  - rewrite Z.min_r in * by lia. by rewrite alloc_header.
  - rewrite Z.min_l in * by lia. by rewrite alloc_header.
  - by rewrite alloc_header.
Qed.

Lemma read_fast base c obj site : request_ok base (AllocFast c obj site) -> reads base (AllocFast c obj site).
Proof.
  intros (Ho & Hsite & Harr). pose proof (obj_site obj site Ho) as [Hs Hl]. cbn [event_of expected new_base].
  rewrite fast_event_eq by (destruct c; done || lia).
  apply evaluate_fire; [apply alloc_payload_ok; (destruct c; done || lia)|by destruct c|by destruct c|]. intros ws.
  destruct c; cbn [fast_type]; dispatch; unfold parseObjAllocFastCi; rewrite recover_site, Hsite by (done || lia);
    cbn [mbind option_bind]; rewrite Harr, array_length_read by (done || lia); done.
Qed.

Lemma normal_event_eq obj site t :
  obj_ok obj site -> 0 <= t < 64 -> fire_obj_alloc_normal anchors obj site t =
    fire t (3 + Z.of_nat (length (length_words obj)))
      (header t 0 (alloc_payload site (small_length obj)) :: write_abs_addr (addr obj) ++ length_words obj).
Proof.
  intros Ho Ht. pose proof (obj_site obj site Ho) as [Hs Hl]. unfold fire_obj_alloc_normal, small_length, length_words in *.
  destruct (array_length obj) as [n|]; [destruct (Z.leb_spec ARRAY_LENGTH_MAX_SMALL n)|].
  - rewrite Z.min_r in * by lia. by rewrite alloc_header.
  - rewrite Z.min_l in * by lia. by rewrite alloc_header, app_nil_r.
  - by rewrite alloc_header, app_nil_r.
Qed.

Lemma read_normal base c obj site : request_ok base (AllocNormal c obj site) -> reads base (AllocNormal c obj site).
Proof.
  intros (Ho & Hsite & Harr & Hcl). pose proof (obj_site obj site Ho) as [Hs Hl]. cbn [event_of expected new_base].
  rewrite normal_event_eq by (destruct c; done || lia).
  apply evaluate_fire; [apply alloc_payload_ok; (destruct c; done || lia)|by destruct c|by destruct c|]. intros ws.
  pose proof (proj1 Ho) as Ha.
  destruct c; cbn [normal_type]; dispatch; unfold parseObjAllocNormalCi; rewrite recover_site, Hsite by (done || lia);
    cbn [mbind option_bind]; rewrite Hcl; next; rewrite Harr, array_length_read by (done || lia); done.
Qed.

(** *** Slow allocations *)

Definition type_words (obj : oop) (site t : Z) : list Z :=
  if is_special_allocation_site site || is_allocation_slow_with_deviant_type_event t then write_word (type_id obj) else [].
Definition size_words (obj : oop) (sz : Z) : list Z := if is_instanceMirror obj then write_word (sz * HeapWordSize) else [].

Lemma slow_event_eq obj site t sz :
  obj_ok obj site -> 0 <= t < 64 -> fire_obj_alloc_slow anchors obj site t sz =
    fire t (3 + Z.of_nat (length (length_words obj) + length (type_words obj site t) + length (size_words obj sz)))
      (header t 0 (alloc_payload site (small_length obj)) ::
       write_abs_addr (addr obj) ++ length_words obj ++ type_words obj site t ++ size_words obj sz).
Proof.
  intros Ho Ht. pose proof (obj_site obj site Ho) as [Hs Hl].
  unfold fire_obj_alloc_slow, small_length, length_words, type_words, size_words in *.
  destruct (is_special_allocation_site site || is_allocation_slow_with_deviant_type_event t), (is_instanceMirror obj);
    (destruct (array_length obj) as [n|]; [destruct (Z.leb_spec ARRAY_LENGTH_MAX_SMALL n)|]);
    rewrite ?Z.min_r, ?Z.min_l in * by lia; rewrite alloc_header by done; done.
Qed.

Lemma read_slow base s deviant obj site sz :
  request_ok base (AllocSlow s deviant obj site sz) -> reads base (AllocSlow s deviant obj site sz).
Proof.
  intros (Ho & Hc & Hm & ty & Hsite & Harr). pose proof (obj_site obj site Ho) as [Hs Hl]. pose proof Ho as (Ha & Hti & _).
  cbn [event_of expected new_base].
  rewrite slow_event_eq by (destruct s, deviant; done || lia).
  apply evaluate_fire; [apply alloc_payload_ok; (destruct s, deviant; done || lia)|by destruct s, deviant|by destruct s, deviant|].
  intros ws.
  assert (type_words obj site (slow_type s deviant) = if deviant then write_word (type_id obj) else []) as ->.
  { unfold type_words, is_special_allocation_site. rewrite (proj2 (Z.ltb_ge site _)) by done. by destruct s, deviant. }
  assert (size_words obj sz = []) as -> by (unfold size_words; by rewrite Hm). rewrite app_nil_r.
  rewrite Hsite. change (default 0 (Some ty)) with ty.
  destruct s, deviant; cbn [slow_type]; dispatch; unfold parseObjAllocSlowCiIr_Deviant; event_types;
    rewrite recover_site by (done || lia); next; rewrite small_length_read by (done || lia); cbn [mbind option_bind];
    cbv beta iota delta [is_deviant Z.eqb Pos.eqb orb]; event_types; cbn [Z.eqb Pos.eqb orb]; next; cbn [app];
    rewrite Hsite; cbn [mbind option_bind]; rewrite Harr; unfold is_array, length_of; by destruct (array_length obj).
Qed.

Lemma read_slow_special base obj site sz :
  request_ok base (AllocSlowSpecial obj site sz) -> reads base (AllocSlowSpecial obj site sz).
Proof.
  intros (Ho & Hc & Hsz & Hsite & Hmir & Harr). pose proof (obj_site obj site Ho) as [Hs Hl]. pose proof Ho as (Ha & Hti & _).
  cbn [event_of expected new_base]. rewrite slow_event_eq by (done || lia).
  apply evaluate_fire; [apply alloc_payload_ok; (done || lia)|done|done|]. intros ws.
  assert (type_words obj site EVENTS_ALLOC_SLOW = write_word (type_id obj)) as ->.
  { unfold type_words, is_special_allocation_site. rewrite (proj2 (Z.ltb_lt site _)) by lia. done. }
  dispatch. unfold parseObjAllocSlow. rewrite recover_site, Hsite by (done || lia). cbn [mbind option_bind].
  next. rewrite small_length_read by (done || lia). cbn [mbind option_bind]. rewrite Z.eqb_refl. next. rewrite Hmir.
  rewrite Harr. unfold size_words, mirror_size_ok in *. destruct (is_instanceMirror obj) eqn:Em.
  - specialize (Hsz eq_refl). next. unfold length_of. cbn [negb andb] in *. unfold is_array in Harr.
    by destruct (array_length obj).
  - cbn [app mbind option_bind negb andb] in *. rewrite <- Harr. unfold length_of, is_array. by destruct (array_length obj).
Qed.

Lemma read_mirror base obj sz mirrored :
  request_ok base (MirrorAlloc obj sz mirrored) -> reads base (MirrorAlloc obj sz mirrored).
Proof.
  intros (Ha & Hsz & Hsite & Ht & Hmir). cbn [event_of expected new_base]. unfold fire_mirror_obj_alloc.
  assert (site_ok 1) as Hs by (left; unfold small_site; lia).
  unfold ALLOCATION_SITE_IDENTIFIER_VM_INTERNAL, ALLOCATED_TYPE_IDENTIFIER_UNKNOWN_MIRROR.
  rewrite alloc_header by (done || lia). cbn [app].
  apply evaluate_fire; [apply alloc_payload_ok; (done || lia)|done|done|]. intros ws. dispatch.
  unfold parseObjAllocSlow. rewrite recover_site, Hsite by (done || lia). cbn [mbind option_bind]. next.
  change (is_big_allocation_site 1) with false. cbn [negb arrayLengthIf].
  rewrite recover_no_length by (done || unfold small_site; lia). cbn [mbind option_bind]. rewrite Z.eqb_refl.
  next. rewrite Hmir. cbn [negb andb]. by next.
Qed.

(** *** Objects of a synchronisation *)

Lemma sync_header t site :
  0 <= t < 64 -> site_ok site -> sync_word t site = [header t 0 (sync_site site)] /\ header_ok t 0 (sync_site site).
Proof.
  intros Ht Hs. unfold sync_word, sync_site, is_big_allocation_site, header_ok, site_ok, small_site, big_site in *.
  destruct (Z.leb_spec 8388608 site); (split; [apply word_header; [fields|payload]|lia]).
Qed.

(** The end of both events. *)
Definition sync_end (obj : oop) (k : Z -> Z -> call) (ws : list Z) : option (list call * list Z) :=
  '(length, ws) ← (if is_array obj then getNextWord ws else Some (UNDEFINED_LENGTH, ws));
  '(size, ws) ← (if is_instanceMirror obj then getNextWord ws else Some (0, ws));
  Some ([k length size], ws).

Lemma sync_end_read obj site sz k ws :
  obj_ok obj site -> 0 <= sync_size obj sz < 2 ^ 31 ->
  sync_end obj k (sync_tail obj sz ++ ws) = Some ([k (length_of obj) (sync_size obj sz)], ws).
Proof.
  intros (_ & _ & Ho) Hs. unfold sync_end, sync_tail, sync_size, is_array, length_of in *.
  destruct (array_length obj) as [n|]; [destruct Ho as [Hn _]|]; destruct (is_instanceMirror obj); next; cbn [app mbind option_bind]; by next.
Qed.

Lemma read_sync_from base from obj sz site :
  request_ok base (SyncFrom from obj sz site) -> reads base (SyncFrom from obj sz site).
Proof.
  intros (Hf & Ho & Harr & Hcl & Hsz). pose proof (obj_site obj site Ho) as [Hs _]. pose proof Ho as (Ha & Ht & _).
  cbn [event_of expected new_base]. unfold fire_sync_obj_from.
  destruct (sync_header EVENTS_SYNC_OBJ site ltac:(event_types; lia) Hs) as [-> Hh]. cbn [app].
  apply evaluate_fire; [done|done|done|]. intros ws. dispatch. unfold parseSyncObj. event_types. cbn [Z.eqb Pos.eqb]. next.
  rewrite header_payload by done. rewrite Harr, Hcl. by apply (sync_end_read obj site).
Qed.

Lemma read_sync_obj base obj sz site : request_ok base (SyncObj obj sz site) -> reads base (SyncObj obj sz site).
Proof.
  intros (Ho & Harr & Hcl & Hsz). pose proof (obj_site obj site Ho) as [Hs _]. pose proof Ho as (Ha & Ht & _).
  cbn [event_of expected new_base]. unfold fire_sync_obj.
  destruct (sync_header EVENTS_SYNC_OBJ_NARROW site ltac:(event_types; lia) Hs) as [-> Hh]. cbn [app].
  apply evaluate_fire; [done|done|done|]. intros ws. dispatch. unfold parseSyncObj. event_types. cbn [Z.eqb Pos.eqb]. next.
  rewrite header_payload by done. rewrite Harr, Hcl. by apply (sync_end_read obj site).
Qed.

(** *** Roots *)

Lemma pair_low low high : int_ok low -> int_ok high -> s32 (EventRootPointerList.pair_words low high) = low.
Proof.
  intros Hl Hh. unfold int_ok, EventRootPointerList.pair_words in *. rewrite s64_high.
  change 4294967295 with (2 ^ 32 - 1). rewrite land_ones_wrap, lor_disjoint_add by (try apply wrap_range; lia).
  rewrite (swrap_congr 32 _ low); [apply swrap_small; lia|]. unfold wrap. rewrite Z.add_comm, Z.mod_add, Z.mod_mod by lia. done.
Qed.

Lemma pair_high low high : int_ok low -> int_ok high -> s32 (EventRootPointerList.pair_words low high ≫ 32) = high.
Proof.
  intros Hl Hh. unfold int_ok, EventRootPointerList.pair_words in *. rewrite s64_high.
  change 4294967295 with (2 ^ 32 - 1). pose proof (wrap_range 32 low ltac:(lia)).
  rewrite land_ones_wrap, lor_disjoint_add by lia.
  rewrite Z.shiftr_div_pow2, Z.div_add_l, (Z.div_small (wrap 32 low)), Z.add_0_r by lia.
  rewrite swrap_swrap by lia. apply swrap_small; lia.
Qed.

Lemma read_root r ws :
  root_ok r ->
  parseRoot (if r.1 =? 0 then NULL_PTR else r.1) (EventRootPointerList.root_code (EventRootPointerList.type (EventRootPointerList.info_of r.2)))
    (root_info_words (EventRootPointerList.info_of r.2) ++ ws) = Some (root_call r, ws).
Proof.
  intros (_ & _ & H). destruct r as [p r]. cbn [fst snd] in *. set (ptr := if p =? 0 then _ else _).
  destruct r; unfold root_call; cbn [fst snd]; fold ptr; cbn [EventRootPointerList.info_of EventRootPointerList.type
    EventRootPointerList.info_class EventRootPointerList.info_pair EventRootPointerList.info_thread EventRootPointerList.info_local
    EventRootPointerList.info_weak EventRootPointerList.info_string EventRootPointerList.root_code root_info_words
    EventRootPointerList.string EventRootPointerList.last_word EventRootPointerList.first_double_word EventRootPointerList.second_double_word].
  - destruct H as [Hl Hn]. unfold write_string, parseRoot. cbn [Z.eqb]. next. by rewrite getString_spec.
  - unfold parseRoot. cbn [Z.eqb Pos.eqb]. by next.
  - destruct H as [Hc Ho]. unfold parseRoot. cbn [Z.eqb Pos.eqb]. unfold write_wide_word, write_word.
    cbn [app getNextWord mbind option_bind]. by rewrite pair_low, pair_high.
  - destruct H as (Ht & Hc & Hm & Hs). unfold parseRoot. cbn [Z.eqb Pos.eqb]. next.
    unfold write_wide_word, write_word. cbn [app getNextWord mbind option_bind]. rewrite pair_low, pair_high by done.
    unfold int_ok in Hs. by rewrite (swrap_small 32 slot) by lia.
  - unfold parseRoot. cbn [Z.eqb Pos.eqb]. by next.
  - destruct H as [Hc Ho]. unfold parseRoot. cbn [Z.eqb Pos.eqb]. unfold write_wide_word, write_word.
    cbn [app getNextWord mbind option_bind]. by rewrite pair_low, pair_high.
  - unfold parseRoot. cbn [Z.eqb Pos.eqb]. by next.
  - unfold parseRoot. cbn [Z.eqb Pos.eqb]. by destruct is_weak.
  - by destruct root_type; cbn [EventRootPointerList.root_code] in H; try lia.
  - destruct H as [Hl Hn]. unfold write_string, parseRoot. cbn [Z.eqb Pos.eqb]. next. by rewrite getString_spec.
Qed.

Lemma read_roots l n ws :
  Forall root_ok l -> (length l <= n)%nat ->
  parseRoots n (concat (root_words <$> ((fun r => (r.1, EventRootPointerList.info_of r.2)) <$> l)) ++
    (if (length l =? n)%nat then [] else write_wide_word (-1)) ++ ws) = Some (root_call <$> l, ws).
Proof.
  revert n. induction l as [|r l IH]; intros n H Hn.
  { destruct n as [|n]; [done|]. cbn [fmap list_fmap concat app length Nat.eqb parseRoots].
    rewrite next_long by (unfold long_ok; lia). done. }
  destruct n as [|n]; [simpl in Hn; lia|]. apply Forall_cons in H as [Hr H]. cbn [fmap list_fmap concat length Nat.eqb parseRoots].
  unfold root_words at 1. cbn [fst snd]. rewrite <- !app_assoc. destruct (Hr) as (Hp & Hp' & _).
  rewrite next_long by done. cbn [mbind option_bind]. rewrite (proj2 (Z.eqb_neq r.1 (-1))) by done.
  rewrite next_int. 2:{ unfold int_ok. destruct (EventRootPointerList.type _); cbn; lia. }
  cbn [mbind option_bind]. rewrite read_root by done. cbn [mbind option_bind]. rewrite IH by (done || (simpl in Hn; lia)). done.
Qed.

Lemma read_root_ptrs base l : request_ok base (Roots l) -> reads base (Roots l).
Proof.
  intros [Hl H]. cbn [event_of expected new_base]. unfold fire_gc_root_ptrs, write_gc_ptr_event, NO_TO_SPACE. event 45 0 0.
  unfold parseGCRootPtr. rewrite <- app_assoc. change (Z.to_nat MAX_ROOTS_PER_EVENT) with 3%nat.
  rewrite <- (read_roots l 3 ws H Hl). do 3 f_equal. unfold EventRootPointerList.is_full, EventRootPointerList.get_size.
  cbn [add_roots EventRootPointerList.roots]. rewrite length_fmap. unfold EventRootPointerList.MAX_ROOTS_CAPACITY.
  destruct (Z.eqb_spec (Z.of_nat (length l)) 3), (Nat.eqb_spec (length l) 3); done || lia.
Qed.

Lemma read_event base r : addr_ok base -> base mod 8 = 0 -> request_ok base r -> reads base r.
Proof.
  intros Hb Hbm H. destruct r.
  - by apply read_fast_no_arrays.
  - by apply read_normal_no_arrays.
  - by apply read_fast.
  - by apply read_normal.
  - by apply read_slow.
  - by apply read_slow_special.
  - by apply read_mirror.
  - by apply read_tlab.
  - by apply read_plab.
  - by apply read_gc_start.
  - by apply read_gc_end.
  - by apply read_gc_info.
  - by apply read_gc_failed.
  - destruct H as [Hi Ha]. exact (proj1 (read_gc_pause base id a Hi Ha)).
  - destruct H as [Hi Ha]. exact (proj2 (read_gc_pause base id a Hi Ha)).
  - by apply read_keep_alive.
  - by apply read_move_slow.
  - by apply read_move_region.
  - by apply read_move_fast.
  - by apply read_root_ptrs.
  - by apply read_sync_from.
  - by apply read_sync_obj.
  - by apply read_sync.
  - by apply read_thread_alive.
  - by apply read_thread_death.
  - destruct H as (Hi & Ha & He & Hle & Hd). exact (proj1 (read_space_bounds base id bottom end_ Hi Ha He Hle Hd)).
  - by apply read_space_alloc.
  - by apply read_space_release.
  - destruct H as (Hi & Ha & He & Hle & Hd). exact (proj2 (read_space_bounds base id bottom end_ Hi Ha He Hle Hd)).
  - by apply read_space_destroy.
  - by apply read_tag.
Qed.

(** ** A buffer of events *)

(** The words of the events of one thread, the calls expected, and the base
    that is left. *)
Fixpoint fire_all (base : Z) (rs : list request) : list Z :=
  match rs with
  | [] => []
  | r :: rs => stored (event_of base r) ++ fire_all (new_base base r) rs
  end.

Fixpoint expected_all (base : Z) (rs : list request) : list (list call) :=
  match rs with [] => [] | r :: rs => expected base r :: expected_all (new_base base r) rs end.

Fixpoint all_ok (base : Z) (rs : list request) : Prop :=
  match rs with [] => True | r :: rs => request_ok base r /\ all_ok (new_base base r) rs end.

Lemma new_base_ok base r :
  addr_ok base -> base mod 8 = 0 -> request_ok base r -> addr_ok (new_base base r) /\ new_base base r mod 8 = 0.
Proof. intros Hb Hm H. destruct r; try done; by destruct H as (_ & _ & _ & _ & ? & ?). Qed.

(** A read consumes something, so the words of an event are not empty. *)
Lemma event_nonempty base r : addr_ok base -> base mod 8 = 0 -> request_ok base r -> stored (event_of base r) <> [].
Proof.
  intros Hb Hm H E. pose proof (read_event base r Hb Hm H []) as Hr. by rewrite E in Hr.
Qed.

(** The parser over all events. *)
Lemma evaluate_all base rs fuel :
  addr_ok base -> base mod 8 = 0 -> all_ok base rs -> (length rs <= fuel)%nat ->
  evaluateEvents anchors sites types_isArray types_isMirror types_isClass move_target fuel base (fire_all base rs) =
    Some (expected_all base rs, foldl new_base base rs).
Proof.
  revert base fuel. induction rs as [|r rs IH]; intros base fuel Hb Hm H Hf; [by destruct fuel|].
  destruct H as [Hr H]. cbn [fire_all expected_all foldl]. destruct fuel as [|fuel]; [simpl in Hf; lia|].
  pose proof (event_nonempty base r Hb Hm Hr) as Hne.
  destruct (stored (event_of base r)) as [|w ws] eqn:E; [done|]. cbn [app evaluateEvents]. rewrite app_comm_cons, <- E.
  rewrite (read_event base r Hb Hm Hr). cbn [mbind option_bind]. destruct (new_base_ok base r Hb Hm Hr).
  rewrite IH by (done || (simpl in Hf; lia)). done.
Qed.


End Events.

(** ** Events the analyzer does not read as they were meant *)

(** C38: the site of a synchronised object is lost: a small site is written
    into the upper two of three payload bytes, but the parser takes all three,
    for events with and without a source address, so that the handler gets
    256 times the site. *)
Theorem sync_site_misread anchors sites isArray isMirror isClass move_target base from obj sz site ws :
  request_ok sites isArray isMirror isClass base (SyncFrom from obj sz site) -> small_site site ->
  let evaluate := evaluateEvent anchors sites isArray isMirror isClass move_target base in
  evaluate (stored (fire_sync_obj_from anchors from obj sz site) ++ ws) =
    Some ([doParseSyncObj EVENTS_SYNC_OBJ (256 * site) (type_id obj) from (addr obj) (length_of obj) (sync_size obj sz)], base, ws) /\
  evaluate (stored (fire_sync_obj anchors obj sz site) ++ ws) =
    Some ([doParseSyncObj EVENTS_SYNC_OBJ_NARROW (256 * site) (type_id obj) (addr obj) (addr obj) (length_of obj) (sync_size obj sz)], base, ws).
Proof.
  intros H Hs. assert (256 * site = sync_site site) as ->.
  { unfold sync_site, is_big_allocation_site. unfold small_site in Hs. rewrite (proj2 (Z.leb_gt 8388608 site)) by lia. lia. }
  split; [exact (read_sync_from anchors sites isArray isMirror isClass move_target base from obj sz site H ws)|].
  exact (read_sync_obj anchors sites isArray isMirror isClass move_target base obj sz site (proj2 H) ws).
Qed.

Lemma sync_site_misread_witness :
  let evaluate := evaluateEvent false (fun _ => None) (fun _ => false) (fun _ => false) (fun _ => false) (fun a _ => a) 0 in
  evaluate (stored (fire_sync_obj_from false 4096 (Oop 8192 None false 55 3) 3 20) ++ [7]) =
    Some ([doParseSyncObj EVENTS_SYNC_OBJ (256 * 20) 55 4096 8192 (-1) 0], 0, [7]) /\
  evaluate (stored (fire_sync_obj false (Oop 8192 None false 55 3) 3 20) ++ [7]) =
    Some ([doParseSyncObj EVENTS_SYNC_OBJ_NARROW (256 * 20) 55 8192 8192 (-1) 0], 0, [7]).
Proof.
  apply (sync_site_misread false (fun _ => None) (fun _ => false) (fun _ => false) (fun _ => false) (fun a _ => a) 0 4096
    (Oop 8192 None false 55 3) 3 20 [7]); [|unfold small_site; lia].
  cbn. unfold addr_ok, obj_ok, int_ok, site_ok, small_site, sync_size. cbn. split_and!; try done; try lia.
Defined.

(** The number of objects of a moved region is cut to 24 bits: for fewer
    than 2^26 objects, which the region closures do not limit unless
    [TraceObjectsGCMoveRegionALot] is set, the parser reads the event with
    the number modulo 2^24, so that a region of 2^24 objects is lost. *)
Theorem region_count_truncated anchors sites isArray isMirror isClass move_target base f t n ws :
  addr_ok f -> addr_ok t -> 0 <= n < 2 ^ 26 ->
  evaluateEvent anchors sites isArray isMirror isClass move_target base (stored (fire_gc_move_region anchors f t n) ++ ws) =
    Some ([doParseGCMoveRegion EVENTS_GC_MOVE_REGION f t (n mod 2 ^ 24)], base, ws).
Proof. apply read_large_region. Qed.

Lemma region_count_truncated_witness :
  evaluateEvent false (fun _ => None) (fun _ => false) (fun _ => false) (fun _ => false) (fun a _ => a) 0
    (stored (fire_gc_move_region false 4096 1024 (2 ^ 24)) ++ [7]) =
  Some ([doParseGCMoveRegion EVENTS_GC_MOVE_REGION 4096 1024 0], 0, [7]).
Proof.
  apply (region_count_truncated false (fun _ => None) (fun _ => false) (fun _ => false) (fun _ => false) (fun a _ => a) 0 4096 1024
    (2 ^ 24) [7]); unfold addr_ok; lia.
Defined.

(** The analyzer refuses a trace with a mark: the parser has no case for
    the event [fire_mark] writes, whatever its id. *)
Theorem mark_refused anchors sites isArray isMirror isClass move_target base mark_id ws :
  evaluateEvent anchors sites isArray isMirror isClass move_target base (stored (fire_mark anchors mark_id) ++ ws) = None.
Proof. destruct anchors; reflexivity. Qed.

(** *** A small program *)

Definition demo_sites (site : Z) : option Z := if site <? 15 then Some 0 else Some (100 + site).
Definition demo_isArray (ty : Z) : bool := ty =? 121.
Definition demo_isMirror (ty : Z) : bool := ty =? -7.

Definition demo_requests : list request :=
  [GCStart 1 0 2 false false 1000 4096;
   AllocFastNoArrays 20;
   AllocFast C1 (Oop 8192 (Some 300) false 121 40) 21;
   AllocSlow IRSlow true (Oop 8192 None false 55 3) 8388700 3;
   MirrorAlloc (Oop 16384 None true 5 12) 12 (Some 7);
   MoveFast 4104 1; MoveFast 40000000 2; MoveFast 8 0;
   Roots [(0, EventRootPointerList.add_class 3); (64, EventRootPointerList.add_class_loader [65; 66; 67; 68; 69])];
   ThreadAlive 3 12 [109; 97; 105; 110];
   SpaceCreate 2 1024 2048;
   Tag [65; 66];
   GCEnd 1 0 2 false false 1010 8192].

Lemma demo_requests_ok : all_ok demo_sites demo_isArray demo_isMirror (fun _ => false) 0 demo_requests.
Proof.
  unfold demo_requests. cbn [all_ok request_ok new_base].
  unfold obj_ok, site_ok, root_ok, mirror_size_ok, addr_ok, int_ok, long_ok, small_site, big_site, letter, HeapWordSize.
  cbn. split_and!; try lia; try done; try (by eexists); try (right; lia); repeat constructor; try lia; try done.
Qed.


End EventsTheorems.
