(* ===== verification/EndToEnd.v ===== *)
(** * From the events of the threads to the calls of the analyzer

    The components composed: threads fire events into buffers, compression
    threads compress them with the tree of bit pairs, the worker writes them
    into a trace file; the analyzer splits the file into buffers, decompresses
    and parses them. *)

From stdpp Require Import gmap.
From S2P Require Import Prelude MapInterface EventBuffer EventBufferList EventsWriter EventBuffers Pipeline PipelineSpec PipelineTheorems.
From S2P Require Import LZW Decompressor QuyteTree EventPointerList EventsRuntime TraceSlaveParser EventsRoundtrip EventsTheorems.
From S2P Require Import ParserThreads ParserOrder ParserTheorems ParserTermination.
From Stdlib Require Import ZArith Lia.

(** ** Runs with a record of the events *)

Module TraceRuns.
Import EventBuffers QueueSpec Pipeline PipelineSpec PipelineTheorems.

(** What an action fires, with the thread that fires it. *)
Definition fired_by (a : action) : list (Z * list Z) := match a with Fire t ws => [(t, ws)] | _ => [] end.

(** What thread [t] fired. *)
Definition of_thread {A} (t : Z) (log : list (Z * A)) : list A := snd <$> filter (fun e => e.1 = t) log.

Lemma of_thread_app {A} t (l1 l2 : list (Z * A)) : of_thread t (l1 ++ l2) = of_thread t l1 ++ of_thread t l2.
Proof. unfold of_thread. by rewrite filter_app, fmap_app. Qed.

Lemma of_thread_fmap {A B} (f : A -> B) t (l : list (Z * A)) :
  of_thread t ((fun e => (e.1, f e.2)) <$> l) = f <$> of_thread t l.
Proof.
  unfold of_thread. induction l as [|[t' a] l IH]; [done|]. cbn [fmap list_fmap]. rewrite !filter_cons. cbn [fst snd].
  destruct (decide (t' = t)); cbn [fmap list_fmap]; by rewrite IH.
Qed.

Lemma words_bytes_app l1 l2 : EventBuffer.words_bytes (l1 ++ l2) = EventBuffer.words_bytes l1 ++ EventBuffer.words_bytes l2.
Proof. unfold EventBuffer.words_bytes. by rewrite fmap_app, concat_app. Qed.

Section Runs.
Variable fl : flags.
Variable malloc_usable_size : Z -> Z.
Variable drawn_size : Z -> Z.
Context {C : Type}.
Variable encode : C -> list Z -> Z -> option (C * option (list Z)).

Inductive runs (w0 : world (C := C)) : world (C := C) -> list (Z * list Z) -> Prop :=
| runs_refl : runs w0 w0 []
| runs_step w log a w' :
    runs w0 w log -> exec fl malloc_usable_size drawn_size encode w a = Done w' -> numbered w' ->
    runs w0 w' (log ++ fired_by a).

Lemma flush_thread_fired (w : world (C := C)) t get_new w' :
  flush_thread fl malloc_usable_size drawn_size w t get_new = Done w' -> fired w' = fired w.
Proof. unfold flush_thread. intros H. by results. Qed.

Lemma store_event_fired (w : world (C := C)) t ws w' :
  store_event w t ws = Some w' ->
  fired w' = <[t := default [] (fired w !! t) ++ EventBuffer.words_bytes ws]> (fired w).
Proof.
  unfold store_event. destruct (threads w !! t); [|done]. cbn [mbind option_bind].
  destruct (EventBuffer.append _ _); [|done]. cbn [mbind option_bind]. by intros [= <-].
Qed.

Lemma exec_fired w a w' t :
  exec fl malloc_usable_size drawn_size encode w a = Done w' ->
  default [] (fired w' !! t) = default [] (fired w !! t) ++ EventBuffer.words_bytes (concat (of_thread t (fired_by a))).
Proof.
  intros H. assert ((exists t ws, a = Fire t ws) \/ fired_by a = [] /\ fired w' = fired w) as [(t0 & ws & ->)|[-> ->]].
  - destruct a; cbn [exec] in H; try (right; split; [done|]).
    + injection H as <-. unfold spawn. by case_match.
    + unfold exit_thread in H. results. cbn [fired]. by eapply flush_thread_fired.
    + left. eauto.
    + by eapply flush_thread_fired.
    + by injection H as <-.
    + unfold worker_take in H. by results.
    + unfold worker_write in H. by results.
    + unfold compressor_take in H. by results.
    + unfold compressor_process in H. by results.
    + injection H as <-. unfold compressor_release. by repeat case_match.
  - assert (fired w' = <[t0 := default [] (fired w !! t0) ++ EventBuffer.words_bytes ws]> (fired w)) as ->.
    { cbn [exec] in H. unfold fire in H. destruct (store_event w t0 ws) eqn:E; results; [by apply store_event_fired|].
      rewrite <- (flush_thread_fired w t0 true a) by done. by apply store_event_fired. }
    unfold of_thread. cbn [fired_by]. rewrite filter_cons. cbn [fst snd]. destruct (decide (t0 = t)) as [->|Hne].
    + rewrite lookup_insert_eq. cbn [default from_option]. simpl. by rewrite app_nil_r.
    + rewrite lookup_insert_ne by done. simpl. by rewrite app_nil_r.
  - simpl. by rewrite app_nil_r.
Qed.

Lemma runs_fired c0 n w log t :
  runs (start fl c0 n) w log -> default [] (fired w !! t) = EventBuffer.words_bytes (concat (of_thread t log)).
Proof.
  induction 1 as [|w log a w' _ IH E _]; [done|].
  by rewrite (exec_fired _ _ _ t E), IH, of_thread_app, concat_app, words_bytes_app.
Qed.

(** What holds of the events holds of the contents of all buffers. *)
Lemma runs_inv (Good : C -> Prop) (Whole : list Z -> Prop) c0 n w log :
  (forall n, 0 <= n -> n <= malloc_usable_size n) ->
  (forall c src cap c' r, Good c -> Forall is_byte src -> src <> [] -> encode c src cap = Some (c', r) ->
   Good c' /\ forall bytes, r = Some bytes -> Z.of_nat (length bytes) <= cap /\ Forall is_byte bytes) ->
  Whole [] -> Good c0 -> runs (start fl c0 n) w log -> Forall (fun e => keeps_whole Whole e.2) log ->
  exists fq cq, inv fl encode True Good Whole w fq cq.
Proof.
  intros Hu He Hnil Hg. induction 1 as [|w log a w' _ IH E Hn]; intros Hk; [exists [], []; apply start_inv; [done|by left]|].
  apply Forall_app in Hk as [Hk Ha]. destruct (IH Hk) as (fq & cq & J).
  assert (whole_action Whole a) as Hwa by (destruct a; try done; by apply Forall_cons in Ha as [? _]).
  pose proof (exec_inv fl malloc_usable_size drawn_size encode True True (fun x => x) Hu Good He (or_introl I) Whole Hnil w a fq cq J
    Hwa (or_introl I)) as Hp.
  rewrite E in Hp. by apply Hp.
Qed.

Lemma run_runs w0 w l w' log :
  runs w0 w log -> run fl malloc_usable_size drawn_size encode w l = Some w' -> runs w0 w' (log ++ concat (fired_by <$> l)).
Proof.
  revert w log. induction l as [|a l IH]; intros w log Hr; cbn [run fmap list_fmap concat].
  - intros [= <-]. by rewrite app_nil_r.
  - destruct (exec _ _ _ _ w a) as [w1| |] eqn:E; [|done|done]. destruct (numbered_b w1) eqn:Hn; [|done].
    intros H. rewrite app_assoc. eapply IH; [|done]. eapply runs_step; [done|done|]. unfold numbered_b in Hn. unfold numbered. zbool. lia.
Qed.

End Runs.
End TraceRuns.

(** ** The loop of the analyzer over the buffers of a thread *)

Module SlaveRun.
Import TraceReader TraceSlaveParser.

Definition Integer_MAX_VALUE : Z := 2 ^ 31 - 1.

(** A byte buffer as words. *)
Fixpoint words (bytes : list Z) : option (list Z) :=
  match bytes with
  | [] => Some []
  | b0 :: b1 :: b2 :: b3 :: rest => ws ← words rest; Some (s32 (le_val [b0; b1; b2; b3]) :: ws)
  | _ => None
  end.

Section Run.
Variable anchors : bool.
Variable sites : Z -> option Z.
Variables types_isArray types_isMirror types_isClass : Z -> bool.
Variable move_target : Z -> Z -> Z.

Definition run_entry (base : Z) (entry : QueueEntry) : option (list (list call) * Z) :=
  bytes ← (if isCompressed entry then Decompressor.decode Integer_MAX_VALUE (buffer entry) else Some (buffer entry));
  ws ← words bytes;
  evaluateEvents anchors sites types_isArray types_isMirror types_isClass move_target (length ws) base ws.

(** The entries in the queue of one thread. *)
Fixpoint run (base : Z) (queue : list QueueEntry) : option (list (list call) * Z) :=
  match queue with
  | [] => Some ([], base)
  | entry :: queue =>
      '(calls, base) ← run_entry base entry;
      '(rest, base) ← run base queue;
      Some (calls ++ rest, base)
  end.

End Run.

Lemma words_bytes_words ws : words (EventBuffer.words_bytes ws) = Some (s32 <$> ws).
Proof.
  induction ws as [|z ws IH]; [done|]. change (EventBuffer.words_bytes (z :: ws)) with (le_bytes 4 z ++ EventBuffer.words_bytes ws).
  pose proof (le_val_bytes 4 z) as Hv. pose proof (le_bytes_length 4 z) as Hl.
  destruct (le_bytes 4 z) as [|b0 [|b1 [|b2 [|b3 [|]]]]]; try done. cbn [app words]. rewrite IH, Hv. cbn [mbind option_bind fmap list_fmap].
  by rewrite swrap_mod.
Qed.

End SlaveRun.

(** ** The events are words *)

Module EventWords.
Import EventType EventsRuntime EventsTheorems.

Definition jints (ws : list Z) : Prop := Forall (fun z => s32 z = z) ws.

Lemma jints_nil : jints [].
Proof. constructor. Qed.

Lemma jints_app l1 l2 : jints l1 -> jints l2 -> jints (l1 ++ l2).
Proof. intros H1 H2. by apply Forall_app. Qed.

Lemma jints_word z : jints (write_word z).
Proof. constructor; [by apply swrap_swrap|constructor]. Qed.

Lemma jints_wide z : jints (write_wide_word z).
Proof. apply jints_app; apply jints_word. Qed.

Lemma jints_pack s word filled : jints (pack s word filled).
Proof.
  revert word filled. induction s as [|c s IH]; intros word filled; cbn [pack].
  - destruct (0 <? filled); [apply jints_word|apply jints_nil].
  - destruct (filled =? 4); apply jints_app; try apply IH; [apply jints_word|apply jints_nil].
Qed.

Lemma jints_string s : jints (write_string s).
Proof. apply jints_app; [apply jints_word|apply jints_pack]. Qed.

Lemma jints_alloc site t n : jints (write_obj_alloc_event site t n).
Proof. unfold write_obj_alloc_event. case_match; apply jints_word. Qed.

Lemma jints_concat {A} (f : A -> list Z) l : (forall x, jints (f x)) -> jints (concat (f <$> l)).
Proof. intros Hf. induction l as [|x l IH]; [apply jints_nil|]. by apply jints_app. Qed.

Create HintDb jints.
#[local] Hint Resolve jints_nil jints_app jints_word jints_wide jints_pack jints_string jints_alloc : jints.

Lemma jints_root r : jints (root_words r).
Proof. unfold root_words, root_info_words. repeat apply jints_app; try case_match; auto with jints. Qed.

Lemma jints_event anchors base r : jints (stored (event_of anchors base r)).
Proof.
  assert (forall t n ws, jints ws -> jints (stored (fire_event anchors t n ws))) as Hf.
  { intros t n ws H. cbn [fire_event stored]. unfold write_anchor. destruct anchors; auto with jints. }
  destruct r; cbn [event_of];
    unfold fire_obj_alloc_fast_no_arrays, fire_obj_alloc_normal_no_arrays, fire_obj_alloc_fast, fire_obj_alloc_normal,
      fire_obj_alloc_slow, fire_mirror_obj_alloc, fire_gc_move_fast, fire_gc_root_ptrs, fire_sync_obj_from, fire_sync_obj,
      sync_word, sync_tail, fire_tlab_alloc, fire_plab_alloc, fire_gc_start_end, fire_gc_info, fire_gc_failed, fire_gc_interrupt_continue,
      fire_gc_keep_alive, fire_gc_move_slow, fire_gc_move_region, fire_sync, fire_thread_alive, fire_thread_death,
      fire_space_creation, fire_space_alloc, fire_space_release, fire_space_redefine, fire_space_destroyed, fire_tag,
      write_abs_addr, write_size, write_lab_alloc_event, write_gc_event, write_gc_move_event, write_gc_move_fast_event,
      write_gc_ptr_event;
    repeat case_match; apply Hf; auto 9 with jints.
  all: repeat apply jints_app; try apply jints_concat; auto using jints_root with jints; repeat case_match; auto with jints.
Qed.

End EventWords.

(** ** The composition *)

Module EndToEnd.
Import EventBuffers QueueSpec Pipeline PipelineSpec PipelineTheorems TraceRuns SlaveRun TraceSlaveParser EventsTheorems EventWords.
Import EventsRuntime AllocationTracingIO EventsWriter TraceReader TraceFileRoundtrip.

(** The compressor, for buffers for which its code is read back; a longer
    one ends the run. *)
Definition compress_short (q : QuyteTreeCompression.quyte) (src : list Z) (capacity : Z) :
    option (QuyteTreeCompression.quyte * option (list Z)) :=
  if Z.of_nat (length src) <=? 16130 then QuyteTreeCompression.compress q src capacity else None.

Lemma compress_short_good q src cap q' r :
  QuyteRoundtrip.reachable q -> Forall is_byte src -> src <> [] -> compress_short q src cap = Some (q', r) ->
  QuyteRoundtrip.reachable q' /\ forall bytes, r = Some bytes -> Z.of_nat (length bytes) <= cap /\ Forall is_byte bytes.
Proof.
  intros Hq Hb Hne. unfold compress_short. destruct (Z.leb_spec (Z.of_nat (length src)) 16130) as [Hl|]; [|done]. intros Hc.
  destruct (QuyteRoundtrip.compress_spec q src cap q' r Hq Hne Hb Hl Hc) as [Hq' Hr]. split; [done|]. intros bytes E.
  apply (Hr bytes E).
Qed.

Section Trace.
Variable anchors : bool.
Variable sites : Z -> option Z.
Variables types_isArray types_isMirror types_isClass : Z -> bool.
Variable move_target : Z -> Z -> Z.

(** The base of relative addresses between two collections. *)
Variable base : Z.
Hypothesis base_addr : addr_ok base.
Hypothesis base_aligned : base mod 8 = 0.

(** An event of that time. *)
Definition quiet (r : request) : Prop :=
  request_ok sites types_isArray types_isMirror types_isClass base r /\ new_base base r = base.

Definition words_of (r : request) : list Z := stored (event_of anchors base r).

Abbreviation calls_of r := (expected sites base r).

(** The contents of a buffer: whole events. *)
Definition whole (o : list Z) : Prop :=
  exists rs, Forall quiet rs /\ o = EventBuffer.words_bytes (concat (words_of <$> rs)).

Lemma whole_keeps r : quiet r -> keeps_whole whole (words_of r).
Proof.
  intros Hr o (rs & Hrs & ->). exists (rs ++ [r]). split; [apply Forall_app; by split; [|constructor]|].
  rewrite fmap_app, concat_app, words_bytes_app. simpl. by rewrite app_nil_r.
Qed.

Lemma quiet_all rs :
  Forall quiet rs -> all_ok sites types_isArray types_isMirror types_isClass base rs /\
    fire_all anchors base rs = concat (words_of <$> rs) /\
    expected_all sites base rs = (fun r => calls_of r) <$> rs /\ foldl new_base base rs = base.
Proof.
  induction 1 as [|r rs [Hr Hb] _ (H1 & H2 & H3 & H4)]; [done|]. cbn [all_ok fire_all expected_all foldl fmap list_fmap concat].
  rewrite Hb. split_and!; [done|done|by rewrite H2|by rewrite H3|done].
Qed.

Lemma quiet_length rs : Forall quiet rs -> (length rs <= length (concat (words_of <$> rs)))%nat.
Proof.
  induction 1 as [|r rs [Hr _] _ IH]; [done|]. cbn [length fmap list_fmap concat]. rewrite length_app.
  pose proof (event_nonempty anchors sites types_isArray types_isMirror types_isClass move_target base r base_addr base_aligned Hr) as Hne.
  unfold words_of at 1. destruct (stored (event_of anchors base r)); [done|]. simpl. lia.
Qed.

Lemma quiet_words rs : s32 <$> concat (words_of <$> rs) = concat (words_of <$> rs).
Proof. apply list_fmap_id_Forall. apply (jints_concat words_of). intros r. apply jints_event. Qed.

(** Parsing the words of quiet events. *)
Lemma quiet_evaluate rs :
  Forall quiet rs ->
  let ws := concat (words_of <$> rs) in
  evaluateEvents anchors sites types_isArray types_isMirror types_isClass move_target (length ws) base ws =
    Some ((fun r => calls_of r) <$> rs, base).
Proof.
  intros Hq ws. subst ws. pose proof (quiet_length rs Hq) as Hl. destruct (quiet_all rs Hq) as (H1 & H2 & H3 & H4).
  rewrite <- H2 in *. rewrite <- H3. transitivity (Some (expected_all sites base rs, foldl new_base base rs)); [|by rewrite H4].
  by apply evaluate_all.
Qed.

Lemma same_calls rs1 rs2 :
  Forall quiet rs1 -> Forall quiet rs2 ->
  EventBuffer.words_bytes (concat (words_of <$> rs1)) = EventBuffer.words_bytes (concat (words_of <$> rs2)) ->
  ((fun r => calls_of r) <$> rs1) = ((fun r => calls_of r) <$> rs2).
Proof.
  intros H1 H2 E%(f_equal words). rewrite !words_bytes_words, !quiet_words in E. injection E as E.
  pose proof (quiet_evaluate rs1 H1) as E1. pose proof (quiet_evaluate rs2 H2) as E2. cbv zeta in *. rewrite E in E1. congruence.
Qed.

Abbreviation run_slave := (SlaveRun.run anchors sites types_isArray types_isMirror types_isClass move_target base).

(** One buffer is read back. *)
Lemma entry_read b :
  faithful compress_short QuyteRoundtrip.reachable b -> whole (origin b) ->
  exists rs, Forall quiet rs /\ origin b = EventBuffer.words_bytes (concat (words_of <$> rs)) /\
    run_entry anchors sites types_isArray types_isMirror types_isClass move_target base (entry_of (buf b)) =
      Some ((fun r => calls_of r) <$> rs, base).
Proof.
  intros Hf (rs & Hrs & Ho). exists rs. split_and!; [done|done|].
  assert ((if EventBuffer.is_compressed (buf b) then Decompressor.decode Integer_MAX_VALUE (EventBuffer.contents (buf b))
    else Some (EventBuffer.contents (buf b))) = Some (origin b)) as E.
  { unfold faithful in Hf. destruct (EventBuffer.is_compressed (buf b)); [|by rewrite Hf].
    destruct Hf as (q & cap & q' & Hq & Hc). unfold compress_short in Hc.
    destruct (Z.leb_spec (Z.of_nat (length (origin b))) 16130) as [Hl|]; [|done].
    assert (Forall is_byte (origin b)) as Hby by (rewrite Ho; apply EventBuffer.words_bytes_are_bytes).
    assert (origin b <> []) as Hne by (intros E; rewrite E in Hc; done).
    destruct (QuyteRoundtrip.compress_spec q _ cap q' _ Hq Hne Hby Hl Hc) as [_ Hr].
    apply (Hr _ eq_refl). unfold Integer_MAX_VALUE. lia. }
  unfold run_entry, entry_of. cbn [isCompressed buffer]. rewrite E. cbn [mbind option_bind].
  rewrite Ho, words_bytes_words, quiet_words. cbn [mbind option_bind]. by apply quiet_evaluate.
Qed.

Lemma entries_read l :
  Forall (faithful compress_short QuyteRoundtrip.reachable) l -> Forall (fun b => whole (origin b)) l ->
  exists rs, Forall quiet rs /\ concat (origin <$> l) = EventBuffer.words_bytes (concat (words_of <$> rs)) /\
    run_slave ((fun b => entry_of (buf b)) <$> l) = Some ((fun r => calls_of r) <$> rs, base).
Proof.
  induction 1 as [|b l Hf _ IH]; intros Hw; [by exists []|]. apply Forall_cons in Hw as [Hb Hw].
  destruct (IH Hw) as (rs & Hrs & Ho & Hr). destruct (entry_read b Hf Hb) as (rb & Hrb & Hob & He).
  exists (rb ++ rs). split_and!; [by apply Forall_app| |].
  - cbn [fmap list_fmap concat]. by rewrite Ho, Hob, fmap_app, concat_app, words_bytes_app.
  - cbn [fmap list_fmap SlaveRun.run]. rewrite He. cbn [mbind option_bind]. rewrite Hr. cbn [mbind option_bind]. by rewrite fmap_app.
Qed.

Lemma Forall_of_filter {A} (P Q : A -> Prop) `{forall x, Decision (Q x)} (l : list A) : Forall P l -> Forall P (filter Q l).
Proof. rewrite !Forall_forall. intros HP x [_ Hx]%list_elem_of_filter. by apply HP. Qed.

(** A buffer whose frame can be written and read: a thread at an address, and
    a length that leaves room for the flags. *)
Definition writable (b : item) : Prop := addr_ok (EventBuffer.owner (buf b)) /\ EventBuffer.top (buf b) < 2 ^ 29.

Lemma filter_entries t l :
  Forall writable l ->
  filter (fun e => thread e = t) (entry_of <$> (buf <$> l)) =
    (fun b => entry_of (buf b)) <$> filter (fun b => EventBuffer.owner (buf b) = t) l.
Proof.
  induction 1 as [|b l [[H1 H2] _] _ IH]; [done|]. cbn [fmap list_fmap]. rewrite !filter_cons. cbn [entry_of thread].
  rewrite (swrap_small 64) by lia. destruct (decide (EventBuffer.owner (buf b) = t)); cbn [fmap list_fmap]; by rewrite IH.
Qed.

Section Run.
Variable fl : flags.
Variable malloc_usable_size : Z -> Z.
Variable drawn_size : Z -> Z.
Hypothesis usable_ge : forall n, 0 <= n -> n <= malloc_usable_size n.

Lemma trace_read n w log header io :
  Forall (fun e => quiet e.2) log ->
  runs fl malloc_usable_size drawn_size compress_short (start fl QuyteTreeCompression.make n) w
    ((fun e => (e.1, words_of e.2)) <$> log) ->
  drained w = true -> (forall t, current w t = []) -> Forall writable (written w) ->
  Forall (fun z => s32 z = z) header -> Z.of_nat (length header) < 2 ^ 31 -> 0 <= cur_file_index io < 2 ^ 31 ->
  exists rest entries,
    readTraceFileInfo (file (write_buffers (create_file header get_file_type write_header io) (buf <$> written w))) =
      Some (header, FILE_TYPE_TRACE, cur_file_index io, rest) /\
    dispatch rest = Some entries /\ (forall pos, is_Some (ParserThreads.entries_from pos entries)) /\
    forall t, run_slave (filter (fun e => thread e = t) entries) = Some ((fun r => calls_of r) <$> of_thread t log, base).
Proof.
  intros Hq Hr Hd Hc Hwr Hh1 Hh2 Hi.
  destruct (runs_inv fl malloc_usable_size drawn_size compress_short QuyteRoundtrip.reachable whole _ n w _ usable_ge compress_short_good
    ltac:(by exists []) QuyteRoundtrip.reach_make Hr) as (fq & cq & J).
  { apply Forall_fmap. eapply Forall_impl; [exact Hq|]. intros [t r]. apply whole_keeps. }
  destruct (drained_spec w fq cq Hd (inv_queues _ _ _ _ _ _ _ _ J)) as (-> & -> & Hh & Hw).
  assert (out w [] = written w) as Ho by (unfold out; rewrite Hh; simpl; by rewrite app_nil_r).
  pose proof (inv_out _ _ _ _ _ _ _ _ J) as Hus. pose proof (inv_faithful _ _ _ _ _ _ _ _ J) as Hfa.
  destruct (inv_whole _ _ _ _ _ _ _ _ J) as [Hwh _]. rewrite Hw, app_nil_r in Hwh. rewrite Ho in *.
  exists (concat (frame <$> (buf <$> written w))), (entry_of <$> (buf <$> written w)). split_and!.
  - rewrite write_buffers_frames. by apply header_read.
  - apply dispatch_read. apply Forall_fmap. eapply Forall_impl; [apply Forall_and; split; [exact Hwr|exact Hus]|]. intros b [[_ ?] [? _]]. by split.
  - intros pos. apply ParserTheorems.entries_exist, Forall_fmap, Forall_true. intros b. by eexists.
  - intros t. rewrite filter_entries by done.
    destruct (entries_read (filter (fun b => EventBuffer.owner (buf b) = t) (written w))) as (rs & Hrs & Hcat & ->);
      [by apply Forall_of_filter|by apply Forall_of_filter|].
    f_equal. f_equal. apply same_calls; [done| |].
    + unfold of_thread. apply Forall_fmap, Forall_of_filter, Hq.
    + transitivity (per t (written w)); [symmetry; exact Hcat|]. rewrite <- of_thread_fmap, <- (runs_fired _ _ _ _ _ _ _ _ t Hr).
      rewrite (inv_fired _ _ _ _ _ _ _ _ J t), Ho, Hw, Hc. simpl. by rewrite app_nil_r.
Qed.


End Run.
End Trace.

(** *** An example: two threads, one compression thread *)

Definition demo_log : list (Z * request) :=
  [(4096, AllocFastNoArrays 20); (8192, ThreadAlive 3 12 [109; 97; 105; 110]);
   (4096, AllocFast C1 (Oop 8192 (Some 300) false 121 40) 21)].

Definition demo_run (log : list (Z * request)) : list action :=
  [Spawn 4096; Spawn 8192] ++ ((fun e => Fire e.1 (words_of true 0 e.2)) <$> log) ++
  [Exit 4096; Exit 8192; CompressorTake 0; CompressorProcess 0 false; CompressorRelease 0;
   CompressorTake 0; CompressorProcess 0 false; CompressorRelease 0; WorkerTake; WorkerWrite; WorkerTake; WorkerWrite].

Definition demo_world (log : list (Z * request)) : option (world (C := QuyteTreeCompression.quyte)) :=
  PipelineTheorems.run demo_flags (fun x => x) (fun _ => 0) compress_short (start demo_flags QuyteTreeCompression.make 1) (demo_run log).

Definition writable_b (b : item) : bool :=
  bool_decide (0 <= EventBuffer.owner (buf b) < 2 ^ 63) && (EventBuffer.top (buf b) <? 2 ^ 29).

Definition end_of_run (w : world (C := QuyteTreeCompression.quyte)) : bool :=
  drained w && bool_decide (map_size (threads w) = 0%nat) && forallb writable_b (written w) &&
  forallb (fun b => EventBuffer.is_compressed (buf b)) (written w).

Lemma end_of_run_spec w :
  end_of_run w = true -> drained w = true /\ (forall t, current w t = []) /\ Forall writable (written w).
Proof.
  unfold end_of_run. intros H. apply andb_prop in H as [[[Hd Ht]%andb_prop Hw]%andb_prop _]. split_and!.
  - done.
  - intros t. apply bool_decide_eq_true_1, map_size_empty_iff in Ht. unfold current. by rewrite Ht.
  - apply Forall_forall. intros b Hb. apply forallb_forall with (x := b) in Hw; [|by apply list_elem_of_In].
    apply andb_prop in Hw as [H1%bool_decide_eq_true_1 H2%Z.ltb_lt]. done.
Qed.

Lemma demo_events log : concat (fired_by <$> demo_run log) = (fun e => (e.1, words_of true 0 e.2)) <$> log.
Proof.
  unfold demo_run. rewrite !fmap_app, !concat_app. cbn [fmap list_fmap concat fired_by app]. rewrite app_nil_r.
  induction log as [|e log IH]; [done|]. cbn [fmap list_fmap concat fired_by app]. by rewrite IH.
Qed.

Lemma demo_world_spec log : end_of_run <$> demo_world log = Some true -> exists w,
  runs demo_flags (fun x => x) (fun _ => 0) compress_short (start demo_flags QuyteTreeCompression.make 1) w
    ((fun e => (e.1, words_of true 0 e.2)) <$> log) /\
  drained w = true /\ (forall t, current w t = []) /\ Forall writable (written w).
Proof.
  intros (w & E & H)%fmap_Some. symmetry in H. exists w. split; [|by apply end_of_run_spec].
  rewrite <- demo_events. exact (run_runs demo_flags (fun x => x) (fun _ => 0) compress_short _ _ _ _ [] (runs_refl _ _ _ _ _) E).
Qed.

Lemma demo_log_quiet : Forall (fun e => quiet demo_sites demo_isArray demo_isMirror (fun _ => false) 0 e.2) demo_log.
Proof.
  unfold demo_log. rewrite !Forall_cons. unfold quiet, new_base, request_ok, obj_ok, site_ok, addr_ok, int_ok, long_ok, small_site.
  cbn. split_and!; try done; try lia; try (left; lia). repeat constructor; unfold StringSpec.letter; lia.
Qed.

Lemma entries_bounded (entries : list QueueEntry) : exists max, Forall (fun e => Z.of_nat (length (buffer e)) <= max) entries.
Proof.
  induction entries as [|e entries [max IH]]; [by exists 0|]. exists (Z.max max (Z.of_nat (length (buffer e)))).
  constructor; [lia|]. eapply Forall_impl; [exact IH|]. cbn. lia.
Qed.


End EndToEnd.
