(* ===== verification/Allocations.v ===== *)
(** * What the analyzer knows of an allocation

    The table of sites, the symbols file, the events, the threads and the
    trace file together. *)

From Stdlib Require Import ZArith Lia String.
From stdpp Require Import gmap.
From S2P Require Import Prelude MapInterface EventBuffer EventBuffers EventsWriter Pipeline PipelineSpec PipelineTheorems QuyteTree EventsRuntime.
From S2P Require Import StackTraces AllocationSites SymbolsWriter SymbolsParser SymbolsRoundtrip TypeIds SiteTables SiteInvariant SiteTheorems.
From S2P Require Import TraceSlaveParser EventsRoundtrip EventsTheorems EndToEnd.

(** ** The symbols, as the parser of events asks for them *)

Module KnownSymbols.
Import SymbolsParser.SymbolsParser.

Definition sites_in (S : Symbols.symbols) (id : Z) : option Z :=
  Symbols.allocatedTypeId <$> mjoin (Symbols.getById (Symbols.known_sites S) id).

(** [AllocatedType.isArray]; a type that is not known is none. *)
Definition isArray_in (S : Symbols.symbols) (t : Z) : bool :=
  match Symbols.types S !! t with Some type => bool_decide (head (Symbols.internalName type) = Some 91) | None => false end.

(** [internalName.equals(MIRROR_CLASS_NAME)] *)
Definition MIRROR_CLASS_NAME : list Z := bytes_of_string "Ljava/lang/Class;"%string.

Definition isClass_in (S : Symbols.symbols) (t : Z) : bool :=
  match Symbols.types S !! t with Some type => bool_decide (Symbols.internalName type = MIRROR_CLASS_NAME) | None => false end.

(** Names of lambdas are rewritten; no other name becomes the name of an array
    or of [java.lang.Class]. *)
Lemma replace_other fuel b rest : b <> 47 -> replace_lambda (S fuel) (b :: rest) = b :: replace_lambda fuel rest.
Proof. intros Hb. destruct b as [|p|p]; [done| |done]. do 6 (destruct p as [p|p|]; try done). Qed.

Lemma head_type_name name : head name <> Some 47 -> head (type_name name) = head name.
Proof.
  intros H. unfold type_name. destruct (ends_with_0 name); [|done]. destruct name as [|b rest]; [done|]. cbn [length].
  by rewrite replace_other by (intros ->; by apply H).
Qed.

Lemma lambda_mark pre fuel : (length pre + 3 <= fuel)%nat -> 95 ∈ replace_lambda fuel (pre ++ [47; 48; 59]).
Proof.
  revert fuel. induction pre as [|b pre IH]; intros [|fuel] Hf; cbn [length] in Hf; [lia| |lia|].
  - cbn. destruct fuel; apply list_elem_of_here.
  - cbn [app]. assert (95 ∈ replace_lambda fuel (pre ++ [47; 48; 59])) as Hin by (apply IH; lia).
    destruct (decide (b = 47)) as [->|Hne]; [|rewrite replace_other by done; by constructor].
    cbn [replace_lambda]. destruct (digits _) as [ds r] eqn:E.
    assert (forall r', 95 ∈ (bytes_of_string "_lambda;"%string ++ r')) as Hl by (intros r'; apply elem_of_app; left; by_decide).
    repeat case_match; try apply Hl; by constructor.
Qed.

Lemma class_type_name name : type_name name = MIRROR_CLASS_NAME -> name = MIRROR_CLASS_NAME.
Proof.
  unfold type_name. destruct (ends_with_0 name) eqn:E; [|done]. apply bool_decide_eq_true in E. intros H. exfalso.
  assert (95 ∈ replace_lambda (length name) name) as Hin.
  { rewrite <- (take_drop (length name - 3) name) at 2. rewrite E. apply lambda_mark.
    apply (f_equal length) in E. rewrite length_drop in E. rewrite length_take. cbn [length] in E. lia. }
  rewrite H in Hin. revert Hin. by_decide.
Qed.

End KnownSymbols.

(** ** Allocations *)

Module Allocations.
Import AllocatedTypes SiteTables.AllocationSites SymbolsTheorem RecordSpec SitesInv SiteRuns KnownSymbols EventsRuntime EventsTheorems TraceSlaveParser.

(** Classes of the program, as their names tell: arrays begin with a bracket,
    and [java.lang.Class], whose objects are mirrors, is not among them. *)
Record named_program (loaded : klass -> Prop) : Prop := {
  named_program_is : program loaded;
  named_array : forall k, loaded k -> oop_is_instance k = false <-> head (signature_name k) = Some 91;
  named_class : forall k, loaded k -> signature_name k <> MIRROR_CLASS_NAME;
}.

Section Allocation.
Context {M : Type}.
Variable s : tables M.
Variable k : klass.
Variable id : Z.

(** A new object of the class [k]. *)
Definition object_of (obj : oop) : Prop :=
  addr_ok (addr obj) /\ identifiers (allocated_types s) !! address k = Some (type_id obj) /\ is_instanceMirror obj = false /\
  match array_length obj with Some n => 0 <= n < 2 ^ 31 /\ oop_is_instance k = false | None => oop_is_instance k = true end.

(** The event reports the allocation of an object of class [k] at the site
    [id]. *)
Definition allocates (r : request) : Prop :=
  match r with
  | AllocFastNoArrays site => site = id /\ oop_is_instance k = true
  | AllocNormalNoArrays obj site => site = id /\ object_of obj /\ oop_is_instance k = true
  | AllocFast _ obj site | AllocNormal _ obj site | AllocSlow _ false obj site _ => site = id /\ object_of obj
  | _ => False
  end.

(** The site and the type a handler is called with; the interpreter's events
    leave the type to the site. *)
Definition site_of_call (c : call) : option Z :=
  match c with
  | doParseObjAllocFastIr _ site | doParseObjAllocNormalIr _ site _ | doParseObjAllocFastCi _ site _ _ _
  | doParseObjAllocNormalCi _ site _ _ _ _ | doParseObjAllocSlowCiIr_Deviant _ _ site _ _ _ _ => Some site
  | _ => None
  end.

Definition type_of_call (sites : Z -> option Z) (c : call) : option Z :=
  match c with
  | doParseObjAllocFastIr _ site | doParseObjAllocNormalIr _ site _ => sites site
  | doParseObjAllocFastCi _ _ type _ _ | doParseObjAllocNormalCi _ _ type _ _ _ | doParseObjAllocSlowCiIr_Deviant _ type _ _ _ _ _ => Some type
  | _ => None
  end.

(** Events that do not name a site. *)
Definition other (base : Z) (r : request) : Prop :=
  match r with
  | AllocFastNoArrays _ | AllocNormalNoArrays _ _ | AllocFast _ _ _ | AllocNormal _ _ _ | AllocSlow _ _ _ _ _ | AllocSlowSpecial _ _ _
  | MirrorAlloc _ _ _ | SyncFrom _ _ _ _ | SyncObj _ _ _ => False
  | _ => request_ok (fun _ => None) (fun _ => false) (fun _ => false) (fun _ => false) base r /\ new_base base r = base
  end.

(** What the analyzer knows of the site and the class suffices to read the
    event. *)
Lemma allocates_ok (S : Symbols.symbols) isMirror base r frames t sid :
  head (signature_name k) <> Some 47 -> (oop_is_instance k = false <-> head (signature_name k) = Some 91) -> signature_name k <> MIRROR_CLASS_NAME ->
  mjoin (Symbols.getById (Symbols.known_sites S) id) = Some (Symbols.Site id frames t) -> Symbols.types S !! t = Some (type_known t sid k) ->
  identifiers (allocated_types s) !! address k = Some t -> int_ok t -> (15 <= id < 2 ^ 15 \/ (2 ^ 23 + 15 <= id < 2 ^ 24 /\ oop_is_instance k = true)) ->
  allocates r ->
  request_ok (sites_in S) (isArray_in S) isMirror (isClass_in S) base r /\ new_base base r = base /\
  exists c, expected (sites_in S) base r = [c] /\ site_of_call c = Some id /\ type_of_call (sites_in S) c = Some t.
Proof.
  intros Hslash Harr Hcls Hs Ht Hty Hint Hid Ha.
  assert (sites_in S id = Some t) as Es by (unfold sites_in; by rewrite Hs).
  assert (Symbols.internalName (type_known t sid k) = SymbolsParser.SymbolsParser.type_name (signature_name k)) as En by (unfold type_known; by destruct (kind_of k)).
  assert (isArray_in S t = negb (oop_is_instance k)) as Earr.
  { unfold isArray_in. rewrite Ht, En, head_type_name by done. destruct (oop_is_instance k); cbn [negb].
    - apply bool_decide_eq_false. intros H. apply Harr in H. done.
    - apply bool_decide_eq_true. by apply Harr. }
  assert (isClass_in S t = false) as Ecls.
  { unfold isClass_in. rewrite Ht, En. apply bool_decide_eq_false. intros H. by apply class_type_name in H. }
  assert (forall obj, object_of obj -> type_id obj = t /\ is_array obj = negb (oop_is_instance k) /\ obj_ok obj id) as Hobj.
  { intros obj (H1 & H2 & H3 & H4). assert (type_id obj = t) as E by congruence. split; [done|]. unfold is_array, obj_ok. rewrite E.
    destruct (array_length obj) as [n|].
    - destruct H4 as [H4 H5]. rewrite H5 in *. split; [done|]. split; [done|]. split; [done|]. split; [done|].
      unfold small_site. destruct Hid as [Hid|[_ Hid]]; [lia|done].
    - rewrite H4. split; [done|]. split; [done|]. split; [done|]. unfold site_ok, small_site, big_site. lia. }
  assert (site_ok id) as Hsite by (unfold site_ok, small_site, big_site; lia).
  destruct r as [site|obj site|c obj site|c obj site|sl dev obj site sz| | | | | | | | | | | | | | | | | | | | | | | | | |]; try done; cbn in Ha.
  - destruct Ha as [-> _]. cbn. split_and!; try done. eexists. split; [done|]. cbn. done.
  - destruct Ha as (-> & Hob & _). pose proof Hob as (H1 & _). cbn. split_and!; try done. eexists. split; [done|]. done.
  - destruct Ha as [-> Hob]. destruct (Hobj obj Hob) as (<- & E2 & E3). cbn. rewrite E2. split_and!; try done. eexists. split; [done|]. done.
  - destruct Ha as [-> Hob]. destruct (Hobj obj Hob) as (<- & E2 & E3). cbn. rewrite E2. split_and!; try done. eexists. split; [done|]. done.
  - destruct dev; [done|]. destruct Ha as [-> Hob]. destruct (Hobj obj Hob) as (<- & E2 & E3). pose proof Hob as (_ & _ & H3 & _). cbn. rewrite E2, Es.
    split_and!; try done; [unfold ALLOCATION_SITE_IDENTIFIER_FIRST_CUSTOM; lia|by eexists|]. eexists. split; [done|]. done.
Qed.

End Allocation.
Lemma other_ok sites isArray isMirror isClass base r : other base r -> request_ok sites isArray isMirror isClass base r /\ new_base base r = base.
Proof. by destruct r. Qed.

Section System.
Context {M : Type} `{!Map M (list Z) Z}.
Variable max_depth : Z.
Variable extend : bool.
Variable text : Z -> list Z.
Variable class_loader_data : Z -> Z.
Variable plain : Z -> list Z.
Variable is_valid_method : Z -> bool.
Variable empty : M.
Variable header : list Z.
Variable w0 : AllocationTracingIO.io.
Variables anchors pointers cms : bool.
Variable loaded : klass -> Prop.
Variable ops : list op.

Abbreviation requests := (run max_depth extend text class_loader_data plain is_valid_method (start empty header w0 anchors pointers cms) [] ops).
Abbreviation depth_of := (depth_of max_depth).

(** The table gave [id] to a request for the stack [l] and the class [k]. *)
Definition requested (h : list (list CallSite * Z)) (l : list CallSite) (k : klass) (id : Z) : Prop :=
  exists i o, ops !! i = Some o /\ h !! i = Some (l, id) /\
    match o with OSite l' k' _ _ => l' = l /\ k' = Some k | OCheck _ _ => False | OAlternate _ k' => k' = k end.

(** The events of the program: allocations at sites of the table, and events
    that do not name a site. *)
Definition traced (base : Z) (s : tables M) (h : list (list CallSite * Z)) (r : request) : Prop :=
  other base r \/ exists l k id, requested h l k id /\ allocates s k id r.

Lemma requested_loaded h l k id : ops_ok text loaded ops -> requested h l k id -> loaded k.
Proof.
  intros Hok (i & o & Eo & _ & Hm). specialize (Hok i o Eo) as [Hk _]. destruct o as [l' k' r d| |j k']; [destruct Hm as [_ ->]| |subst k']; done.
Qed.

Variable move_target : Z -> Z -> Z.
Variable types_isMirror : Z -> bool.
Variable base : Z.
Hypothesis base_addr : addr_ok base.
Hypothesis base_aligned : base mod 8 = 0.
Variable fl : EventBuffers.flags.
Variable malloc_usable_size : Z -> Z.
Variable drawn_size : Z -> Z.
Hypothesis usable_ge : forall n, 0 <= n -> n <= malloc_usable_size n.

End System.

(** ** An example *)

Lemma demo_named : named_program TypesSpec.demo_loaded.
Proof.
  split; [exact demo_program| |]; intros k [-> | ->]; done.
Qed.

(** Two objects of the class [Node], one of them allocated by compiled code. *)
Definition demo_allocations : list (Z * request) :=
  [(4096, AllocFastNoArrays 8388624); (8192, ThreadAlive 3 12 [109; 97; 105; 110]); (4096, AllocFast C1 (Oop 16384 None false 2 3) 8388624)].

Definition demo_stack : list CallSite := [Call 8 3; Call 16 1; Call 24 2; Call 32 5].

(** What the example needs of the run of the table. *)
Definition demo_facts (s : tables PrefixTreeMap.PrefixTreeMap.ptree) (h : list (list CallSite * Z)) : Prop :=
  h !! 3%nat = Some (demo_stack, 8388624) /\ identifiers (allocated_types s) !! address TypesSpec.node_class = Some 2.

Lemma demo_requests_facts s h : SiteRuns.demo_requests demo_ops = Some (s, h) -> demo_facts s h.
Proof. intros E. vm_compute in E. injection E as <- <-. split; reflexivity. Qed.

Lemma demo_traced s h : demo_facts s h -> requested demo_ops h demo_stack TypesSpec.node_class 8388624 /\
  allocates s TypesSpec.node_class 8388624 (AllocFast C1 (Oop 16384 None false 2 3) 8388624) /\
  Forall (fun e => traced demo_ops 0 s h e.2) demo_allocations.
Proof.
  intros [Hh Hi]. assert (requested demo_ops h demo_stack TypesSpec.node_class 8388624) as Hr by (eexists 3%nat, _; by split).
  assert (allocates s TypesSpec.node_class 8388624 (AllocFast C1 (Oop 16384 None false 2 3) 8388624)) as Ha
    by (split; [done|]; split; [unfold addr_ok; cbn; lia|by split_and!]).
  split; [done|]. split; [done|]. unfold demo_allocations. rewrite !Forall_cons. cbn [snd].
  split; [right; exists demo_stack, TypesSpec.node_class, 8388624; by split|]. split; [|split; [right; by exists demo_stack, TypesSpec.node_class, 8388624|done]].
  left. cbn. unfold long_ok. split_and!; try done; try lia. repeat constructor; unfold StringSpec.letter; lia.
Qed.


End Allocations.
