(* ===== verification/EventSizes.v ===== *)
(** * The size of events

    Every event stores exactly the words it reserves in the buffer of its
    thread, and all of them fit into an empty buffer as long as the strings
    in them are short. *)

From S2P Require Import Prelude EventBuffer EventPointerList EventsRuntime TraceSlaveParser EventsRoundtrip EventsTheorems.
From Stdlib Require Import ZArith Lia.

Module EventSizes.
Import EventType EventsRuntime WordSpec StringSpec EventsTheorems.

(** ** The words of the parts *)

Abbreviation len l := (Z.of_nat (length l)).

Lemma len_app {A} (l k : list A) : len (l ++ k) = len l + len k.
Proof. rewrite length_app. lia. Qed.

Lemma len_nil {A} : len (@nil A) = 0.
Proof. done. Qed.

Lemma len_word n : len (write_word n) = 1.
Proof. done. Qed.

Lemma len_wide n : len (write_wide_word n) = 2.
Proof. done. Qed.

Lemma len_alloc site t n : len (write_obj_alloc_event site t n) = 1.
Proof. unfold write_obj_alloc_event. by destruct (is_big_allocation_site site). Qed.

Lemma len_sync t site : len (sync_word t site) = 1.
Proof. unfold sync_word. by destruct (is_big_allocation_site site). Qed.

Lemma len_sync_tail obj n : len (sync_tail obj n) = sync_tail_size obj.
Proof. unfold sync_tail, sync_tail_size, is_array. by destruct (array_length obj), (is_instanceMirror obj). Qed.

Lemma len_string s : len (write_string s) = 1 + (len s + 3) / 4.
Proof. unfold write_string. rewrite len_app, len_word, pack_length by lia. done. Qed.

Create Rewrite HintDb event_length.
#[export] Hint Rewrite @len_app @len_nil len_word len_wide len_alloc len_sync len_sync_tail len_string : event_length.

Ltac lengths := unfold write_abs_addr, write_size, write_lab_alloc_event, write_gc_event, write_gc_move_fast_event,
  write_gc_ptr_event, write_gc_move_event; autorewrite with event_length.

(** An event whose words are as many as it says. *)
Definition filled (e : event) : Prop := len (stored e) = reserved e.

Section Sizes.
Variable anchors : bool.

Lemma fire_filled t n ws : len ws = n -> filled (fire_event anchors t n ws).
Proof. intros <-. unfold filled, fire_event. cbn [stored reserved]. rewrite len_app. by destruct anchors. Qed.

Lemma fire_reserved t n ws : reserved (fire_event anchors t n ws) <= n + 1.
Proof. unfold fire_event. cbn [reserved]. destruct anchors; lia. Qed.

(** ** Roots *)

Lemma root_words_filled r :
  root_ok r -> len (root_words (r.1, EventRootPointerList.info_of r.2)) = EventRootPointerList.words_of r.2.
Proof.
  intros (_ & _ & H). destruct r as [p r]. unfold root_words. cbn [fst snd] in *. lengths.
  destruct r; cbn [EventRootPointerList.info_of EventRootPointerList.words_of EventRootPointerList.info_string
    EventRootPointerList.type EventRootPointerList.string root_info_words]; lengths; rewrite ?string_words_eq; try done; try lia.
  destruct root_type; cbn in H; done || lia.
Qed.

Lemma roots_filled l :
  Forall root_ok l ->
  len (concat (root_words <$> EventRootPointerList.roots (add_roots l))) = EventRootPointerList.words (add_roots l).
Proof.
  induction 1 as [|r l Hr H IH]; [done|]. cbn [add_roots EventRootPointerList.roots EventRootPointerList.words fmap list_fmap concat foldr] in *.
  rewrite len_app, IH, root_words_filled by done. done.
Qed.

(** ** Every request *)

Ltac filled := apply fire_filled; lengths; try lia.

Lemma alloc_filled base r :
  match r with
  | AllocFastNoArrays _ | AllocNormalNoArrays _ _ | AllocFast _ _ _ | AllocNormal _ _ _ | AllocSlow _ _ _ _ _
  | AllocSlowSpecial _ _ _ | MirrorAlloc _ _ _ => filled (event_of anchors base r)
  | _ => True
  end.
Proof.
  destruct r; try done; cbn [event_of].
  - filled.
  - filled.
  - unfold fire_obj_alloc_fast. destruct (array_length obj) as [n|]; [destruct (ARRAY_LENGTH_MAX_SMALL <=? n)|]; filled.
  - unfold fire_obj_alloc_normal. destruct (array_length obj) as [n|]; [destruct (ARRAY_LENGTH_MAX_SMALL <=? n)|]; filled.
  - unfold fire_obj_alloc_slow. destruct (array_length obj) as [n|]; [destruct (ARRAY_LENGTH_MAX_SMALL <=? n)|];
      destruct (_ || _), (is_instanceMirror obj); filled.
  - unfold fire_obj_alloc_slow. destruct (array_length obj) as [n|]; [destruct (ARRAY_LENGTH_MAX_SMALL <=? n)|];
      destruct (_ || _), (is_instanceMirror obj); filled.
  - filled.
Qed.

Lemma thread_alive_filled ty id name : filled (fire_thread_alive anchors ty id name).
Proof.
  unfold fire_thread_alive. filled. rewrite pack_length, length_take, length_app by lia. cbn [length].
  destruct (Z.eqb_spec (Z.min (len name + 1) (12 * 4) mod 4) 0); Z.to_euclidean_division_equations; lia.
Qed.

Lemma roots_event_filled l : Forall root_ok l -> filled (fire_gc_root_ptrs anchors (add_roots l)).
Proof.
  intros H. unfold fire_gc_root_ptrs. filled. rewrite roots_filled by done. unfold EventRootPointerList.get_words.
  destruct (EventRootPointerList.is_full _); lengths; simpl; lia.
Qed.

(** Strings that fit: the tag, and the names in a list of roots. *)
Definition root_string (r : EventRootPointerList.root) : list Z :=
  match r with EventRootPointerList.add_class_loader s | EventRootPointerList.add_debug s => s | _ => [] end.

Definition short (r : request) : Prop :=
  match r with
  | Tag tag => len tag <= 788
  | Roots l => Forall (fun x => len (root_string x.2) <= 248) l
  | _ => True
  end.

Lemma roots_words_short l :
  Forall (fun x => len (root_string x.2) <= 248) l -> EventRootPointerList.words (add_roots l) <= 66 * len l.
Proof.
  induction 1 as [|r l Hr H IH]; [done|]. cbn [add_roots EventRootPointerList.words fmap list_fmap foldr length] in *.
  assert (EventRootPointerList.words_of r.2 <= 66); [|lia].
  destruct r as [p []]; cbn [root_string EventRootPointerList.words_of snd] in *; rewrite ?string_words_eq; try lia;
    Z.to_euclidean_division_equations; lia.
Qed.

Lemma slow_reserved obj site t n : reserved (fire_obj_alloc_slow anchors obj site t n) <= 7.
Proof.
  unfold fire_obj_alloc_slow. destruct (array_length obj) as [k|]; [destruct (ARRAY_LENGTH_MAX_SMALL <=? k)|];
    (etrans; [apply fire_reserved|destruct (_ || _), (is_instanceMirror obj); lia]).
Qed.

Lemma reserved_short base r :
  match r with Roots l => (length l <= 3)%nat | _ => True end -> short r ->
  reserved (event_of anchors base r) <= EventBuffer.MAX_EVENT_SIZE.
Proof.
  intros Hl Hs. unfold EventBuffer.MAX_EVENT_SIZE. destruct r; cbn [event_of short] in *;
    try (etrans; [apply fire_reserved|lia]).
  - unfold fire_obj_alloc_fast. destruct (array_length obj) as [n|]; [destruct (_ <=? n)|]; (etrans; [apply fire_reserved|lia]).
  - unfold fire_obj_alloc_normal. destruct (array_length obj) as [n|]; [destruct (_ <=? n)|]; (etrans; [apply fire_reserved|lia]).
  - etrans; [apply slow_reserved|lia].
  - etrans; [apply slow_reserved|lia].
  - unfold fire_gc_move_fast. destruct (get_rel_addr _ _ (32 - 8 - 2)) as [? []], (get_rel_addr _ _ 32) as [? []];
      (etrans; [apply fire_reserved|lia]).
  - pose proof (roots_words_short l Hs) as Hw. unfold fire_gc_root_ptrs, EventRootPointerList.get_words.
    destruct (EventRootPointerList.is_full (add_roots l)) eqn:Hf; (etrans; [apply fire_reserved|]); cbv iota; [lia|].
    unfold EventRootPointerList.is_full, EventRootPointerList.get_size, add_roots in Hf.
    cbn [EventRootPointerList.roots] in Hf. rewrite length_fmap in Hf. unfold EventRootPointerList.MAX_ROOTS_CAPACITY in Hf.
    zbool. lia.
  - etrans; [apply fire_reserved|]. unfold sync_tail_size. destruct (is_array obj), (is_instanceMirror obj); lia.
  - etrans; [apply fire_reserved|]. unfold sync_tail_size. destruct (is_array obj), (is_instanceMirror obj); lia.
  - etrans; [apply fire_reserved|]. destruct (_ =? 0); Z.to_euclidean_division_equations; lia.
  - etrans; [apply fire_reserved|]. rewrite string_words_eq. Z.to_euclidean_division_equations; lia.
Qed.

(** The parser's view of sites and types. *)
Variable sites : Z -> option Z.
Variable types_isArray types_isMirror types_isClass : Z -> bool.


End Sizes.


End EventSizes.
