(* ===== verification/PointersRoundtrip.v ===== *)
(** * The pointers of an object are read back by the analyzer

    Pointers encoded into a list of at most twelve, the words and the kinds
    of such a list, and the pointers the analyzer recovers from them. *)

From S2P Require Import Prelude EventPointerList EventsRuntime EventPointers TraceSlaveParser EventsRoundtrip EventsTheorems.
From Stdlib Require Import ZArith Lia.

Module PointerSpec.
Import EventType EventsRuntime TraceSlaveParser WordSpec EventsTheorems.

(** ** Encoded pointers *)

Inductive enc := Rel (d : Z) | Abs (p : Z) | Nul.

Definition kind_of (e : enc) : Z :=
  match e with Rel _ => EventPointerList.RELATIVE_PTR | Abs _ => EventPointerList.ABSOLUTE_PTR | Nul => EventPointerList.NULL_PTR end.

(** What the list stores, and the words of it in the event. *)
Definition cell_of (e : enc) : Z := match e with Rel d => u64 d | Abs p => p | Nul => 0 end.
Definition words_of (e : enc) : list Z := match e with Rel d => write_word d | Abs p => write_abs_addr p | Nul => [] end.

Definition enc_ok (e : enc) : Prop :=
  match e with Rel d => - 2 ^ 31 < d < 2 ^ 31 | Abs p => addr_ok p | Nul => True end.

(** How many pointers are relative, and how many are absolute. *)
Definition rels (es : list enc) : Z := foldr (fun e n => match e with Rel _ => 1 | _ => 0 end + n) 0 es.
Definition abss (es : list enc) : Z := foldr (fun e n => match e with Abs _ => 1 | _ => 0 end + n) 0 es.

(** Two bits per pointer, the first in front. *)
Definition kinds (es : list enc) : Z := foldl (fun k e => k * 4 + kind_of e) 0 es.

Lemma kind_range e : 1 <= kind_of e <= 3.
Proof. destruct e; cbn; unfold EventPointerList.RELATIVE_PTR, EventPointerList.ABSOLUTE_PTR, EventPointerList.NULL_PTR; lia. Qed.

Lemma kinds_acc a es : foldl (fun k e => k * 4 + kind_of e) a es = a * 4 ^ Z.of_nat (length es) + kinds es.
Proof.
  unfold kinds. revert a. induction es as [|e es IH]; intros a; cbn [foldl length]; [lia|].
  rewrite (IH (a * 4 + kind_of e)), (IH (0 * 4 + kind_of e)), Nat2Z.inj_succ, Z.pow_succ_r by lia. lia.
Qed.

Lemma kinds_cons e es : kinds (e :: es) = kind_of e * 4 ^ Z.of_nat (length es) + kinds es.
Proof. unfold kinds at 1. cbn [foldl]. by rewrite kinds_acc. Qed.

Lemma kinds_snoc es e : kinds (es ++ [e]) = kinds es * 4 + kind_of e.
Proof. unfold kinds. by rewrite foldl_app. Qed.

Lemma kinds_range es : 0 <= kinds es < 4 ^ Z.of_nat (length es).
Proof.
  induction es as [|e es IH]; [unfold kinds; simpl; lia|]. rewrite kinds_cons. cbn [length].
  rewrite Nat2Z.inj_succ, Z.pow_succ_r by lia. pose proof (kind_range e). nia.
Qed.

Lemma pow4 k : 0 <= k -> 2 ^ (k * 2) = 4 ^ k.
Proof. intros Hk. rewrite Z.mul_comm, Z.pow_mul_r by lia. done. Qed.

(** The kinds of a list with [n] free places after it. *)
Definition aligned (es : list enc) (n : Z) : Z := kinds es * 4 ^ n.

Lemma aligned_nth es1 e es2 n :
  0 <= n -> (aligned (es1 ++ e :: es2) n ≫ ((Z.of_nat (length es2) + n) * 2)) .& 3 = kind_of e.
Proof.
  intros Hn. unfold aligned. change 3 with (2 ^ 2 - 1). rewrite land_ones_wrap, Z.shiftr_div_pow2 by lia.
  rewrite pow4, Z.pow_add_r by lia.
  unfold kinds. rewrite foldl_app. cbn [foldl]. fold (kinds es1). rewrite kinds_acc.
  pose proof (kinds_range es2) as Hr. pose proof (kind_range e) as He.
  rewrite Z.div_mul_cancel_r by (apply Z.pow_nonzero; lia).
  rewrite Z.div_add_l, (Z.div_small (kinds es2)), Z.add_0_r by lia.
  unfold wrap. change (2 ^ 2) with 4. rewrite Z.add_comm, Z.mod_add, Z.mod_small; lia.
Qed.

Lemma aligned_end es n k : 0 <= k < n -> (aligned es n ≫ (k * 2)) .& 3 = 0.
Proof.
  intros Hk. unfold aligned. change 3 with (2 ^ 2 - 1). rewrite land_ones_wrap, Z.shiftr_div_pow2 by lia.
  rewrite pow4 by lia. replace n with (n - k - 1 + 1 + k) by lia. rewrite !Z.pow_add_r, Z.pow_1_r, !Z.mul_assoc by lia.
  rewrite Z.div_mul by (apply Z.pow_nonzero; lia). unfold wrap. change (2 ^ 2) with 4. rewrite Z.mod_mul; lia.
Qed.

Lemma aligned_range es n : 0 <= n -> Z.of_nat (length es) + n <= 12 -> 0 <= aligned es n < 2 ^ 24.
Proof.
  intros Hn Hl. unfold aligned. pose proof (kinds_range es) as Hr.
  assert (4 ^ Z.of_nat (length es) * 4 ^ n <= 2 ^ 24).
  { rewrite <- Z.pow_add_r by lia. change (2 ^ 24) with (4 ^ 12). apply Z.pow_le_mono_r; lia. }
  assert (0 < 4 ^ n) by (apply Z.pow_pos_nonneg; lia). nia.
Qed.

(** ** The list *)

(** [l] has room for twelve pointers and holds [es]. *)
Record holds (l : EventPointerList.ptr_list) (es : list enc) : Prop := {
  holds_few : Z.of_nat (length es) <= 12;
  holds_top : EventPointerList.top l = Z.of_nat (length es);
  holds_kinds : EventPointerList.ptr_kinds l = kinds es;
  holds_rels : EventPointerList.relative_ptrs l = rels es;
  holds_abss : EventPointerList.absolute_ptrs l = abss es;
  holds_capacity : EventPointerList.capacity l = 2 \/ EventPointerList.capacity l = 4 \/
    EventPointerList.capacity l = 8 \/ EventPointerList.capacity l = 12;
  holds_cells : Z.of_nat (length (EventPointerList.list l)) = EventPointerList.capacity l;
  holds_room : EventPointerList.top l <= EventPointerList.capacity l;
  holds_all : forall i e, es !! i = Some e -> e <> Nul -> EventPointerList.list l !! i = Some (cell_of e);
}.

Lemma rels_abss es : 0 <= rels es /\ 0 <= abss es /\ rels es + abss es <= Z.of_nat (length es).
Proof. unfold rels, abss. induction es as [|[] es IH]; cbn [foldr length]; lia. Qed.

Lemma rels_snoc es e : rels (es ++ [e]) = rels es + match e with Rel _ => 1 | _ => 0 end.
Proof. unfold rels. induction es as [|e' es IH]; cbn [app foldr]; [|rewrite IH]; lia. Qed.

Lemma abss_snoc es e : abss (es ++ [e]) = abss es + match e with Abs _ => 1 | _ => 0 end.
Proof. unfold abss. induction es as [|e' es IH]; cbn [app foldr]; [|rewrite IH]; lia. Qed.

(** [resize] makes room for one more pointer. *)
Lemma resize_holds l es :
  holds l es -> Z.of_nat (length es) < 12 ->
  let l' := if EventPointerList.top l =? EventPointerList.capacity l then EventPointerList.resize l else l in
  holds l' es /\ EventPointerList.top l' < EventPointerList.capacity l'.
Proof.
  intros H Hn. destruct H as [Hf Ht Hk Hr Ha Hc Hce Hro Hall].
  destruct (Z.eqb_spec (EventPointerList.top l) (EventPointerList.capacity l)) as [E|E]; cbv zeta.
  2:{ split; [by constructor|lia]. }
  unfold EventPointerList.resize, EventPointerList.MAX_CAPACITY in *. cbn [EventPointerList.capacity].
  set (new := if _ <? _ then _ else _). assert (new <> EventPointerList.capacity l /\ EventPointerList.capacity l < new) as [Hne Hlt].
  { subst new. destruct (Z.ltb_spec 12 (EventPointerList.capacity l * 2)); lia. }
  rewrite (proj2 (Z.eqb_neq _ _)) by done. cbn [negb]. split; [|cbn; lia].
  constructor; cbn [EventPointerList.capacity EventPointerList.list EventPointerList.ptr_kinds EventPointerList.top
    EventPointerList.relative_ptrs EventPointerList.absolute_ptrs]; try done.
  - subst new. destruct (Z.ltb_spec 12 (EventPointerList.capacity l * 2)); lia.
  - rewrite length_app, length_replicate. lia.
  - lia.
  - intros i e Hi He. rewrite lookup_app_l; [by apply Hall|]. apply lookup_lt_Some in Hi. lia.
Qed.

Lemma kinds_small es : Z.of_nat (length es) <= 12 -> 0 <= kinds es < 2 ^ 24.
Proof.
  intros Hn. pose proof (aligned_range es 0 ltac:(lia) ltac:(lia)) as H. unfold aligned in H.
  by rewrite Z.pow_0_r, Z.mul_1_r in H.
Qed.

Lemma push_kind es e :
  Z.of_nat (length es) < 12 -> u32 ((kinds es ≪ 2) .| kind_of e) = kinds (es ++ [e]).
Proof.
  intros Hn. pose proof (kind_range e) as Hk. rewrite kinds_snoc.
  assert (0 <= kinds (es ++ [e]) < 2 ^ 24) as Hr by (apply kinds_small; rewrite length_app; simpl; lia).
  rewrite kinds_snoc in Hr. rewrite Z.shiftl_mul_pow2 by lia.
  rewrite <- Z.shiftl_mul_pow2, lor_disjoint_add by lia. change (2 ^ 2) with 4. apply wrap_small. lia.
Qed.

Lemma add_holds l es e :
  holds l es -> Z.of_nat (length es) < 12 ->
  exists l', EventPointerList.add l (cell_of e) (kind_of e) = Some l' /\ holds l' (es ++ [e]).
Proof.
  intros H Hn. destruct (resize_holds l es H Hn) as [H' Hroom]. clear H. unfold EventPointerList.add.
  set (l1 := if _ =? _ then _ else _) in *. clearbody l1. clear l. destruct H' as [Hf Ht Hk Hr Ha Hc Hce Hro Hall].
  pose proof (rels_abss es) as Hra. rewrite Hk, push_kind by done.
  assert (u8 (EventPointerList.top l1 + 1) = Z.of_nat (length (es ++ [e]))) as Htop
    by (rewrite length_app, wrap_small; simpl; lia).
  assert (EventPointerList.store l1 (cell_of e) = Some (<[Z.to_nat (EventPointerList.top l1) := cell_of e]> (EventPointerList.list l1))) as Hst.
  { unfold EventPointerList.store. rewrite (proj2 (Z.leb_le _ _)), (proj2 (Z.ltb_lt _ _)) by lia. done. }
  assert (forall cells, (cells = EventPointerList.list l1 /\ e = Nul) \/ cells = <[Z.to_nat (EventPointerList.top l1) := cell_of e]> (EventPointerList.list l1) ->
    forall i e', (es ++ [e]) !! i = Some e' -> e' <> Nul -> cells !! i = Some (cell_of e')) as Hcells.
  { intros cells Hcs i e' Hi He'. apply snoc_lookup in Hi as [Hi|[-> ->]].
    - destruct Hcs as [[-> _]| ->]; [by apply Hall|].
      rewrite list_lookup_insert_ne by (apply lookup_lt_Some in Hi; lia). by apply Hall.
    - destruct Hcs as [[_ ->]| ->]; [done|]. rewrite Ht, Nat2Z.id. apply list_lookup_insert_eq. lia. }
  destruct e; cbn [kind_of] in *; unfold EventPointerList.RELATIVE_PTR, EventPointerList.ABSOLUTE_PTR, EventPointerList.NULL_PTR in *;
    cbn [Z.eqb Pos.eqb]; rewrite ?Hst; cbn [mbind option_bind]; eexists; (split; [reflexivity|]);
    constructor; cbn [EventPointerList.capacity EventPointerList.list EventPointerList.ptr_kinds EventPointerList.top
      EventPointerList.relative_ptrs EventPointerList.absolute_ptrs]; rewrite ?rels_snoc, ?abss_snoc, ?length_insert;
    try done; try (rewrite length_app; simpl; lia); try (rewrite wrap_small; lia); try lia.
  - apply Hcells. by right.
  - apply Hcells. by right.
  - apply Hcells. by left.
Qed.

Lemma clear_holds l es : holds l es -> holds (EventPointerList.clear l) [].
Proof.
  intros [Hf Ht Hk Hr Ha Hc Hce Hro Hall]. constructor; cbn; try done; lia.
Qed.

Lemma make_holds : holds EventPointerList.make [].
Proof. constructor; cbn; done || lia. Qed.

(** ** Kinds and words of a list *)

(** The list an event is written from: kinds moved to the front. *)
Lemma get_kinds_spec l es :
  holds l es -> exists l', EventPointerList.get_kinds l = (l', aligned es (12 - Z.of_nat (length es))) /\
    EventPointerList.ptr_kinds l' = aligned es (12 - Z.of_nat (length es)) /\
    EventPointerList.top l' = Z.of_nat (length es) /\ EventPointerList.list l' = EventPointerList.list l /\
    EventPointerList.clear l' = EventPointerList.clear l.
Proof.
  intros [Hf Ht Hk Hr Ha Hc Hce Hro Hall]. unfold EventPointerList.get_kinds, EventPointerList.MAX_CAPACITY. rewrite Ht, Hk.
  set (k := if _ && _ then _ else _). assert (k = aligned es (12 - Z.of_nat (length es))) as ->; [|by eexists].
  pose proof (aligned_range es (12 - Z.of_nat (length es)) ltac:(lia) ltac:(lia)) as Hrange. subst k.
  unfold aligned in *. destruct (Z.eqb_spec (Z.of_nat (length es)) 0) as [E|E]; cbn [negb andb].
  - destruct es; [done|cbn in E; lia].
  - destruct (Z.eqb_spec (Z.of_nat (length es)) 12) as [E'|E']; cbn [negb].
    + rewrite E'. simpl. lia.
    + rewrite Z.shiftl_mul_pow2, pow4 by lia. apply wrap_small. lia.
Qed.

(** What the event gets from such a list. *)
Record shows (l : EventPointerList.ptr_list) (es : list enc) : Prop := {
  shows_few : Z.of_nat (length es) <= 12;
  shows_top : EventPointerList.top l = Z.of_nat (length es);
  shows_kinds : EventPointerList.ptr_kinds l = aligned es (12 - Z.of_nat (length es));
  shows_cells : forall i e, es !! i = Some e -> is_Some (EventPointerList.list l !! i) /\
    (e <> Nul -> EventPointerList.list l !! i = Some (cell_of e));
}.

Lemma get_kinds_shows l es :
  holds l es -> exists l', EventPointerList.get_kinds l = (l', aligned es (12 - Z.of_nat (length es))) /\ shows l' es /\
    EventPointerList.clear l' = EventPointerList.clear l.
Proof.
  intros H. destruct (get_kinds_spec l es H) as (l' & Hg & Hk & Ht & Hl & Hc). exists l'. split_and!; [done| |done].
  destruct H as [Hf Ht' _ _ _ _ Hce Hro Hall]. constructor; [done|done|done|]. rewrite Hl. intros i e Hi.
  split; [|by apply Hall]. apply lookup_lt_is_Some. apply lookup_lt_Some in Hi. lia.
Qed.

Lemma get_next_spec l es1 e es2 :
  shows l (es1 ++ e :: es2) ->
  exists p, EventPointerList.get_next l (Z.of_nat (length es1)) = Some (p, kind_of e) /\ (e <> Nul -> p = s64 (cell_of e)).
Proof.
  intros [Hf Ht Hk Hce]. destruct (Hce (length es1) e) as [[p Hp] He]; [by apply list_lookup_middle|].
  unfold EventPointerList.get_next, EventPointerList.MAX_CAPACITY. rewrite Nat2Z.id, Hp. cbn [mbind option_bind].
  rewrite length_app in Hf, Hk. cbn [length] in Hf, Hk. exists (s64 p). split.
  - rewrite Hk. set (n := 12 - _). replace (12 - 1 - Z.of_nat (length es1)) with (Z.of_nat (length es2) + n) by lia.
    rewrite aligned_nth by lia. pose proof (kind_range e). by rewrite wrap_small by lia.
  - intros Hne. specialize (He Hne). congruence.
Qed.

Lemma word_cell e p :
  enc_ok e -> (e <> Nul -> p = s64 (cell_of e)) ->
  (if kind_of e =? EventPointerList.NULL_PTR then [] else if kind_of e =? EventPointerList.ABSOLUTE_PTR
   then write_abs_addr p else write_word p) = words_of e.
Proof.
  intros Ho Hp. destruct e as [d|a|]; cbn in *; [| |done].
  - rewrite Hp by done. unfold wrap. by rewrite swrap_mod, (swrap_small 64 d) by lia.
  - rewrite Hp by done. unfold write_abs_addr. unfold addr_ok in Ho. by rewrite !(swrap_small 64 a) by lia.
Qed.

Lemma fire_loop_spec l es1 es2 :
  shows l (es1 ++ es2) -> Forall enc_ok es2 ->
  fire_gc_ptr_loop (length es2) l (Z.of_nat (length es1)) = Some (concat (words_of <$> es2)).
Proof.
  revert es1. induction es2 as [|e es2 IH]; intros es1 H Ho; [done|]. apply Forall_cons in Ho as [He Ho].
  cbn [length fire_gc_ptr_loop]. unfold EventPointerList.get_size. rewrite (shows_top _ _ H).
  pose proof (shows_few _ _ H) as Hf. rewrite length_app in Hf |- *. cbn [length] in Hf |- *.
  rewrite (proj2 (Z.ltb_lt _ _)) by lia. destruct (get_next_spec l es1 e es2 H) as (p & -> & Hp). cbn [mbind option_bind].
  rewrite wrap_small by lia. replace (Z.of_nat (length es1) + 1) with (Z.of_nat (length (es1 ++ [e]))) by (rewrite length_app; simpl; lia).
  rewrite IH; [|by rewrite <- app_assoc|done]. cbn [mbind option_bind fmap list_fmap concat].
  rewrite <- (word_cell e p He Hp). destruct e; reflexivity.
Qed.

Lemma fire_gc_ptr_spec l es : shows l es -> Forall enc_ok es -> fire_gc_ptr l = Some (concat (words_of <$> es)).
Proof.
  intros H Ho. unfold fire_gc_ptr, EventPointerList.get_size. rewrite (shows_top _ _ H), Nat2Z.id.
  exact (fire_loop_spec l [] es H Ho).
Qed.

Lemma get_words_spec l es :
  holds l es -> EventPointerList.get_words l = Z.of_nat (length (concat (words_of <$> es))).
Proof.
  intros [Hf _ _ Hr Ha _ _ _ _]. unfold EventPointerList.get_words. rewrite Hr, Ha. pose proof (rels_abss es).
  rewrite wrap_small by lia. unfold rels, abss. clear. induction es as [|[] es IH]; [done|..];
    cbn [foldr fmap list_fmap concat]; rewrite length_app; cbn; lia.
Qed.

(** ** What the analyzer recovers *)

(** The pointers of encoded ones, given the object and the previous one. *)
Fixpoint decoded (ref lastRef : Z) (es : list enc) : list Z :=
  match es with
  | [] => []
  | Rel d :: es => let a := s64 (d + lastRef) in s64 (ref - s64 (a * heapWordSize)) :: decoded ref a es
  | Abs p :: es => p :: decoded ref (s64 (ref - p) ÷ heapWordSize) es
  | Nul :: es => TraceSlaveParser.NULL_PTR :: decoded ref lastRef es
  end.

Lemma parse_loop_spec es1 es2 n ref lastRef ws :
  Z.of_nat (length (es1 ++ es2)) + n = 12 -> 0 <= n -> Forall enc_ok es2 ->
  parsePointers_loop (length es2 + Z.to_nat n) (aligned (es1 ++ es2) n) ref lastRef (concat (words_of <$> es2) ++ ws) =
    Some (decoded ref lastRef es2, ws).
Proof.
  revert es1 lastRef. induction es2 as [|e es2 IH]; intros es1 lastRef Hl Hn Ho.
  - destruct (Z.to_nat n) as [|k] eqn:E; [done|]. cbn [length Nat.add parsePointers_loop].
    rewrite aligned_end by lia. done.
  - apply Forall_cons in Ho as [He Ho]. cbn [length Nat.add parsePointers_loop fmap list_fmap concat].
    rewrite Nat2Z.inj_add, Z2Nat.id, aligned_nth by lia.
    assert (forall last, parsePointers_loop (length es2 + Z.to_nat n) (aligned (es1 ++ e :: es2) n) ref last (concat (words_of <$> es2) ++ ws) =
      Some (decoded ref last es2, ws)) as Hrest.
    { intros last. specialize (IH (es1 ++ [e]) last). rewrite <- app_assoc in IH. by apply IH. }
    rewrite <- app_assoc. destruct e as [d|p|]; cbn [kind_of words_of decoded];
      unfold EventPointerList.RELATIVE_PTR, EventPointerList.ABSOLUTE_PTR, EventPointerList.NULL_PTR; cbn [Z.eqb Pos.eqb].
    + cbn in He. rewrite next_int by (unfold int_ok; lia). cbn [mbind option_bind]. by rewrite Hrest.
    + rewrite next_addr by done. cbn [mbind option_bind]. by rewrite Hrest.
    + cbn [app]. by rewrite Hrest.
Qed.

Lemma parsePointers_spec t sp es ref ws :
  0 <= t < 64 -> 0 <= sp < 4 -> Z.of_nat (length es) <= 12 -> Forall enc_ok es ->
  parsePointers (header t sp (aligned es (12 - Z.of_nat (length es)))) ref (concat (words_of <$> es) ++ ws) =
    Some (decoded ref 0 es, ws).
Proof.
  intros Ht Hsp Hl Ho. pose proof (aligned_range es (12 - Z.of_nat (length es)) ltac:(lia) ltac:(lia)) as Hr.
  unfold parsePointers. rewrite header_payload by done.
  pose proof (parse_loop_spec [] es (12 - Z.of_nat (length es)) ref 0 ws ltac:(simpl; lia) ltac:(lia) Ho) as Hp.
  cbn [app] in Hp. replace (length es + Z.to_nat (12 - Z.of_nat (length es)))%nat with (Z.to_nat MAX_PTRS_PER_EVENT) in Hp
    by (unfold MAX_PTRS_PER_EVENT; lia).
  rewrite Hp. destruct (Z.eqb_spec (aligned es (12 - Z.of_nat (length es))) 0) as [E|E]; [|done].
  destruct es as [|e es]; [done|]. exfalso. unfold aligned in E. rewrite kinds_cons in E. cbn [length] in *.
  pose proof (kind_range e). pose proof (kinds_range es). apply Z.mul_eq_0 in E as [E|E].
  - assert (0 < 4 ^ Z.of_nat (length es)) by (apply Z.pow_pos_nonneg; lia). nia.
  - apply Z.pow_eq_0 in E; lia.
Qed.

(** ** The encoding of [EventPointers::add] *)

(** An aligned address of the user space of x86_64. *)
Definition heap_addr (a : Z) : Prop := 0 < a < 2 ^ 47 /\ a mod 8 = 0.
Definition ptr_ok (p : Z) : Prop := p = 0 \/ heap_addr p.

Definition small_distance (d : Z) : bool := (- 2 ^ 31 <? d) && (d <? 2 ^ 31).

(** A pointer after the referent [last], and the next referent. *)
Definition encode (obj : Z) (inside : bool) (last p : Z) : enc * Z :=
  if p =? 0 then (Nul, last)
  else if inside then
    let offset := EventPointers.pointer_delta obj p in
    (if small_distance (offset - last) then Rel (offset - last) else Abs p, offset)
  else (Abs p, last).

Fixpoint encodes (obj : Z) (inside : bool) (last : Z) (ps : list Z) : list enc * Z :=
  match ps with
  | [] => ([], last)
  | p :: ps =>
      let '(e, last) := encode obj inside last p in
      let '(es, last) := encodes obj inside last ps in (e :: es, last)
  end.

Lemma encodes_snoc obj inside last ps p :
  encodes obj inside last (ps ++ [p]) =
    let '(es, last) := encodes obj inside last ps in
    let '(e, last) := encode obj inside last p in (es ++ [e], last).
Proof.
  revert last. induction ps as [|q ps IH]; intros last; cbn [app encodes].
  - by destruct (encode obj inside last p).
  - destruct (encode obj inside last q) as [e last']. rewrite IH. destruct (encodes obj inside last' ps) as [es last''].
    by destruct (encode obj inside last'' p).
Qed.

Lemma encodes_length obj inside last ps : length (encodes obj inside last ps).1 = length ps.
Proof.
  revert last. induction ps as [|p ps IH]; intros last; [done|]. cbn [encodes]. destruct (encode obj inside last p) as [e last'].
  specialize (IH last'). destruct (encodes obj inside last' ps). cbn in *. by rewrite IH.
Qed.

Lemma encodes_ok obj inside last ps : Forall ptr_ok ps -> Forall enc_ok (encodes obj inside last ps).1.
Proof.
  intros H. revert last. induction H as [|p ps Hp H IH]; intros last; [done|]. cbn [encodes].
  assert (enc_ok (encode obj inside last p).1) as He.
  { unfold encode, small_distance, ptr_ok, heap_addr in *. destruct (Z.eqb_spec p 0); [done|].
    destruct inside; cbn; [|unfold addr_ok; lia].
    destruct (Z.ltb_spec (- 2 ^ 31) (EventPointers.pointer_delta obj p - last)),
      (Z.ltb_spec (EventPointers.pointer_delta obj p - last) (2 ^ 31)); cbn; unfold addr_ok; lia. }
  destruct (encode obj inside last p) as [e last']. specialize (IH last'). destruct (encodes obj inside last' ps).
  by constructor.
Qed.

(** What the analyzer shows of a pointer. *)
Definition shown (p : Z) : Z := if p =? 0 then TraceSlaveParser.NULL_PTR else p.

(** The writer counts in unsigned words, the reader in signed ones. *)
Definition same_referent (last lastRef : Z) : Prop := last = lastRef mod 2 ^ 61 /\ - 2 ^ 44 <= lastRef <= 2 ^ 44.

Lemma delta_referent obj p :
  heap_addr obj -> heap_addr p -> same_referent (EventPointers.pointer_delta obj p) ((obj - p) / 8).
Proof.
  unfold heap_addr, same_referent, EventPointers.pointer_delta, HeapWordSize, wrap. intros [Ho Hom] [Hp Hpm].
  split; Z.to_euclidean_division_equations; lia.
Qed.

Lemma same_step last lastRef last' lastRef' :
  same_referent last lastRef -> same_referent last' lastRef' -> small_distance (last' - last) = true ->
  last' - last + lastRef = lastRef'.
Proof.
  unfold same_referent, small_distance. intros [-> Hr] [-> Hr'] H. apply andb_prop in H as [H1 H2]. zbool.
  Z.to_euclidean_division_equations; lia.
Qed.

Lemma encodes_decoded obj inside last lastRef ps :
  (inside = true -> heap_addr obj /\ same_referent last lastRef) -> Forall ptr_ok ps ->
  decoded obj lastRef (encodes obj inside last ps).1 = shown <$> ps.
Proof.
  intros Hi H. revert last lastRef Hi. induction H as [|p ps Hp H IH]; intros last lastRef Hi; [done|].
  cbn [encodes fmap list_fmap]. unfold encode, shown at 1. destruct (Z.eqb_spec p 0) as [->|Hne].
  { specialize (IH last lastRef Hi). destruct (encodes obj inside last ps). cbn in *. by rewrite IH. }
  destruct Hp as [|Hp]; [done|]. destruct inside.
  2:{ specialize (IH last (s64 (obj - p) ÷ heapWordSize) ltac:(done)). destruct (encodes obj false last ps). cbn in *. by rewrite IH. }
  destruct (Hi eq_refl) as [Ho Hs]. pose proof (delta_referent obj p Ho Hp) as Hd.
  destruct Ho as [Ho Hom]. destruct Hp as [Hp Hpm]. set (off := EventPointers.pointer_delta obj p) in *.
  specialize (IH off ((obj - p) / 8) ltac:(done)). destruct (encodes obj true off ps) as [es last']. cbn [fst] in *.
  assert ((obj - p) / 8 * 8 = obj - p) as Hx by (Z.to_euclidean_division_equations; lia).
  destruct (small_distance (off - last)) eqn:Hsm; cbn [decoded]; unfold heapWordSize in *.
  - rewrite (same_step last lastRef off ((obj - p) / 8) Hs Hd Hsm).
    destruct Hd as [_ Hd]. rewrite (swrap_small 64 ((obj - p) / 8)) by lia. rewrite Hx, (swrap_small 64 (obj - p)) by lia.
    rewrite swrap_small by lia. rewrite IH. f_equal. lia.
  - rewrite (swrap_small 64 (obj - p)) by lia. rewrite <- Hx, Z.quot_mul by lia. by rewrite IH.
Qed.

(** The test for a small distance. *)
Lemma distance_test d :
  - 2 ^ 62 <= d < 2 ^ 62 ->
  ((if d <? 0 then s64 (Z.lnot d + 1) else d) .& 18446744071562067968 =? 0) = small_distance d.
Proof.
  intros Hd. set (x := if d <? 0 then _ else _). assert (0 <= x < 2 ^ 63 /\ (x < 2 ^ 31 <-> - 2 ^ 31 < d < 2 ^ 31)) as [Hx Hiff].
  { subst x. unfold Z.lnot. destruct (Z.ltb_spec d 0); [rewrite swrap_small by lia|]; lia. }
  clearbody x. change 18446744071562067968 with (Z.ones 64 .& Z.lnot (Z.ones 31)).
  rewrite Z.land_assoc, Z.land_ones, Z.mod_small, <- Z.ldiff_land, Z.ldiff_ones_r by lia.
  rewrite Z.shiftl_mul_pow2, Z.shiftr_div_pow2 by lia. unfold small_distance.
  destruct (Z.ltb_spec (- 2 ^ 31) d), (Z.ltb_spec d (2 ^ 31)); cbn [andb].
  1: rewrite Z.div_small by lia; done.
  all: apply Z.eqb_neq; intros E; assert (x / 2 ^ 31 = 0) as E' by lia; apply Z.div_small_iff in E'; lia.
Qed.

End PointerSpec.

(** ** Recording the pointers of an object *)

Module PointersTheorem.
Import EventType EventsRuntime TraceSlaveParser WordSpec EventsTheorems PointerSpec.

Section Pointers.
Variable anchors : bool.
Variable sites : Z -> option Z.
Variables types_isArray types_isMirror types_isClass : Z -> bool.
Variable move_target : Z -> Z -> Z.
(** [rel_addr_base], the same in writer and reader. *)
Variable base : Z.

(** The object, where it was, and the space it went to. *)
Variables (ev obj from space : Z) (inside : bool).

(** [s] collects the pointers of the object and holds [chunk]. *)
Record collects (s : EventPointers.pointers) (event : Z) (chunk : list Z) : Prop := {
  collects_event : EventPointers.event s = event;
  collects_obj : EventPointers.obj s = obj;
  collects_inside : EventPointers.obj_is_inside_heap s = inside;
  collects_clean : EventPointers.is_clean s = false;
  collects_meta : event = ev -> EventPointers.from_addr s = from /\ EventPointers.to_space s = space;
  collects_list : holds (EventPointers.ptr_list s) (encodes obj inside 0 chunk).1;
}.

(** The referent relative pointers start from. *)
Definition last_is (s : EventPointers.pointers) (chunk : list Z) : Prop :=
  inside = true -> EventPointers.last_referent s = (encodes obj inside 0 chunk).2.

Lemma collects_size s event chunk :
  collects s event chunk -> EventPointerList.get_size (EventPointers.ptr_list s) = Z.of_nat (length chunk).
Proof.
  intros H. unfold EventPointerList.get_size. rewrite (holds_top _ _ (collects_list _ _ _ H)). by rewrite encodes_length.
Qed.

Lemma add_ptr_collects s event chunk e last p :
  collects s event chunk -> Z.of_nat (length chunk) < 12 -> (inside = true -> EventPointers.last_referent s = last) ->
  encodes obj inside 0 (chunk ++ [p]) = ((encodes obj inside 0 chunk).1 ++ [e], last) ->
  exists s', EventPointers.add_ptr s (cell_of e) (kind_of e) = Some s' /\ collects s' event (chunk ++ [p]) /\ last_is s' (chunk ++ [p]).
Proof.
  intros H Hn Hl Hp. destruct H as [H1 H2 H3 H4 H5 H6].
  destruct (add_holds _ _ e H6) as (l' & Hl' & Hh); [by rewrite encodes_length|].
  unfold EventPointers.add_ptr. rewrite Hl'. cbn [mbind option_bind]. eexists. split; [reflexivity|].
  split; [constructor; cbn; try done|unfold last_is; cbn]; by rewrite Hp.
Qed.

Lemma delta_range p : 0 <= EventPointers.pointer_delta obj p < 2 ^ 61.
Proof.
  unfold EventPointers.pointer_delta, HeapWordSize. pose proof (wrap_range 64 (obj - p) ltac:(lia)).
  Z.to_euclidean_division_equations; lia.
Qed.

Lemma last_range last ps : 0 <= last < 2 ^ 61 -> 0 <= (encodes obj true last ps).2 < 2 ^ 61.
Proof.
  revert last. induction ps as [|p ps IH]; intros last Hl; [done|]. cbn [encodes]. unfold encode.
  destruct (p =? 0); [|pose proof (delta_range p) as Hd].
  - specialize (IH last Hl). by destruct (encodes obj true last ps).
  - specialize (IH _ Hd). by destruct (encodes obj true (EventPointers.pointer_delta obj p) ps).
Qed.

Lemma encode_ptr_collects s event chunk p :
  collects s event chunk -> last_is s chunk -> Z.of_nat (length chunk) < 12 ->
  exists s', EventPointers.encode_ptr s p = Some s' /\ collects s' event (chunk ++ [p]) /\ last_is s' (chunk ++ [p]).
Proof.
  intros H Hl Hn. pose proof (encodes_snoc obj inside 0 chunk p) as He.
  unfold EventPointers.encode_ptr. rewrite (collects_inside _ _ _ H), (collects_obj _ _ _ H).
  unfold last_is in Hl. unfold encode in He.
  destruct (encodes obj inside 0 chunk) as [es last] eqn:Ec. cbn [snd] in Hl. pose proof (f_equal fst Ec) as Ec1. cbn [fst] in Ec1.
  destruct (Z.eqb_spec p 0) as [->|Hp].
  { apply (add_ptr_collects s event chunk Nul last 0); [done|done|done|]. by rewrite He, Ec1. }
  assert (inside = true \/ inside = false) as [Hi|Hi] by (destruct inside; auto).
  2:{ rewrite Hi. apply (add_ptr_collects s event chunk (Abs p) last p); [done|done|done|]. by rewrite He, Ec1, Hi. }
  rewrite Hi. unfold EventPointers.set_new_referent. cbn [EventPointers.is_clean].
  rewrite (collects_clean _ _ _ H), (Hl Hi).
  set (off := EventPointers.pointer_delta obj p) in *. pose proof (delta_range p) as Hd. fold off in Hd.
  pose proof (last_range 0 chunk ltac:(lia)) as Hr. rewrite <- Hi, Ec in Hr. cbn [snd] in Hr.
  rewrite (swrap_small 64 off), (swrap_small 64 (off - last)) by lia. rewrite distance_test by lia. cbn [negb].
  set (s1 := EventPointers.Pointers _ _ _ _ _ _ _ off).
  assert (collects s1 event chunk) as H1 by (destruct H; by constructor).
  assert (encodes obj inside 0 (chunk ++ [p]) = ((encodes obj inside 0 chunk).1 ++
    [if small_distance (off - last) then Rel (off - last) else Abs p], off)) as He1 by by rewrite He, Ec1, Hi.
  destruct (small_distance (off - last)).
  - by apply (add_ptr_collects s1 event chunk (Rel (off - last)) off p).
  - by apply (add_ptr_collects s1 event chunk (Abs p) off p).
Qed.

(** *** The events *)

Abbreviation evaluate := (evaluateEvent anchors sites types_isArray types_isMirror types_isClass move_target).
Abbreviation body := (parseBody sites types_isArray types_isMirror types_isClass move_target).

Definition is_move (event : Z) : bool :=
  (event =? EVENTS_GC_MOVE_FAST) || (event =? EVENTS_GC_MOVE_SLOW) || (event =? EVENTS_GC_KEEP_ALIVE).

Definition fast_ptr_type : Z :=
  if (get_rel_addr base from 32).2 then EVENTS_GC_MOVE_FAST_PTR else EVENTS_GC_MOVE_FAST_WIDE_PTR.

(** What the analyzer does with a chunk of pointers. *)
Definition chunk_calls (event : Z) (ptrs : list Z) : list call :=
  if event =? EVENTS_GC_MOVE_FAST then
    [doGCMove fast_ptr_type from (-1) (Some space); doPtrEvent fast_ptr_type from obj ptrs]
  else if event =? EVENTS_GC_MOVE_SLOW then
    [doGCMove EVENTS_GC_MOVE_SLOW_PTR from obj None; doPtrEvent EVENTS_GC_MOVE_SLOW_PTR from obj ptrs]
  else if event =? EVENTS_GC_KEEP_ALIVE then
    [doKeepAlive EVENTS_GC_KEEP_ALIVE_PTR obj; doPtrEvent EVENTS_GC_KEEP_ALIVE_PTR obj obj ptrs]
  else [doPtrEvent event (-1) obj ptrs].

(** The first chunk is fired with the move, the others extend it. *)
Fixpoint all_calls (event : Z) (chunks : list (list Z)) : list (list call) :=
  match chunks with
  | [] => []
  | c :: chunks => chunk_calls event c :: all_calls (if is_move event then EVENTS_GC_PTR_EXTENSION else event) chunks
  end.

(** Objects inside of the heap have heap addresses, and the analyzer assigns
    a moved object the address it was moved to. *)
Record meta_ok : Prop := {
  meta_base : addr_ok base /\ base mod 8 = 0;
  meta_obj : heap_addr obj;
  meta_event : ev = EVENTS_GC_MOVE_FAST \/ ev = EVENTS_GC_MOVE_SLOW \/ ev = EVENTS_GC_KEEP_ALIVE \/
    ev = EVENTS_GC_PTR_EXTENSION \/ ev = EVENTS_GC_PTR_MULTITHREADED \/ ev = EVENTS_GC_UPDATE_PTR_PREMOVE \/
    ev = EVENTS_GC_UPDATE_PTR_POSTMOVE;
  meta_fast : ev = EVENTS_GC_MOVE_FAST -> heap_addr from /\ 0 <= space < 4 /\ move_target from space = obj;
  meta_slow : ev = EVENTS_GC_MOVE_SLOW -> addr_ok from;
}.

Hypothesis Hmeta : meta_ok.

Abbreviation reads e calls := (forall ws, evaluate base (stored e ++ ws) = Some (calls, base, ws)).

Lemma ptr_header t sp es :
  0 <= t < 64 -> 0 <= sp < 4 -> Z.of_nat (length es) <= 12 ->
  write_gc_ptr_event t sp (aligned es (12 - Z.of_nat (length es))) = [header t sp (aligned es (12 - Z.of_nat (length es)))] /\
  header_ok t sp (aligned es (12 - Z.of_nat (length es))).
Proof.
  intros Ht Hs Hl. pose proof (aligned_range es (12 - Z.of_nat (length es)) ltac:(lia) ltac:(lia)).
  split; [|done]. apply word_header; [fields|payload].
Qed.

Lemma chunk_read chunk :
  Z.of_nat (length chunk) <= 12 -> Forall ptr_ok chunk -> forall t sp, 0 <= t < 64 -> 0 <= sp < 4 ->
  let es := (encodes obj inside 0 chunk).1 in
  Z.of_nat (length es) <= 12 /\ Forall enc_ok es /\
  forall ws, parsePointers (header t sp (aligned es (12 - Z.of_nat (length es)))) obj (concat (words_of <$> es) ++ ws) =
    Some (shown <$> chunk, ws).
Proof.
  intros Hl Hp t sp Ht Hsp es. pose proof (encodes_length obj inside 0 chunk) as Hlen. fold es in Hlen.
  pose proof (encodes_ok obj inside 0 chunk Hp) as Ho. fold es in Ho. split_and!; [lia|done|]. intros ws.
  rewrite parsePointers_spec by (done || lia). do 2 f_equal. apply encodes_decoded; [|done].
  intros _. split; [exact (meta_obj Hmeta)|]. split; [done|lia].
Qed.

Lemma read_obj_ptr event l chunk :
  event = EVENTS_GC_PTR_EXTENSION \/ event = EVENTS_GC_PTR_MULTITHREADED \/ event = EVENTS_GC_UPDATE_PTR_PREMOVE \/
    event = EVENTS_GC_UPDATE_PTR_POSTMOVE ->
  holds l (encodes obj inside 0 chunk).1 -> Z.of_nat (length chunk) <= 12 -> Forall ptr_ok chunk ->
  exists e l', fire_gc_obj_ptr anchors event obj l = Some (e, l') /\
    EventPointerList.clear l' = EventPointerList.clear l /\ reads e (chunk_calls event (shown <$> chunk)).
Proof.
  intros Hev Hh Hl Hp. unfold fire_gc_obj_ptr, NO_TO_SPACE.
  assert (0 <= event < 64) as Ht by (revert Hev; event_types; lia).
  destruct (chunk_read chunk Hl Hp event 0 Ht ltac:(lia)) as (Hle & Ho & Hr). set (es := (encodes obj inside 0 chunk).1) in *.
  destruct (get_kinds_shows l es Hh) as (l' & -> & Hs & Hc). rewrite (fire_gc_ptr_spec l' es Hs Ho). cbn [mbind option_bind].
  destruct (ptr_header event 0 es Ht ltac:(lia) Hle) as [-> Hhd]. eexists _, l'. split_and!; [reflexivity|done|].
  assert (addr_ok obj) as Ha by (pose proof (meta_obj Hmeta) as [? _]; unfold addr_ok; lia).
  cbn [app]. apply evaluate_fire; [done|revert Hev; event_types; lia|revert Hev; event_types; lia|].
  intros ws. rewrite <- app_assoc. unfold chunk_calls.
  destruct Hev as [-> | [-> | [-> | ->]]]; dispatch; unfold parseGCObjPtr; rewrite next_addr by done; cbn [mbind option_bind];
    by rewrite Hr.
Qed.

Lemma read_slow_ptr event l chunk :
  event = EVENTS_GC_MOVE_SLOW /\ addr_ok from \/ event = EVENTS_GC_KEEP_ALIVE ->
  holds l (encodes obj inside 0 chunk).1 -> Z.of_nat (length chunk) <= 12 -> Forall ptr_ok chunk ->
  exists e l', fire_gc_move_slow_ptr anchors event from obj l = Some (e, l') /\
    EventPointerList.clear l' = EventPointerList.clear l /\ reads e (chunk_calls event (shown <$> chunk)).
Proof.
  intros Hev Hh Hl Hp. unfold fire_gc_move_slow_ptr, NO_TO_SPACE. set (t := if _ =? _ then _ else _).
  assert (0 <= t < 64) as Ht by (subst t; destruct (event =? _); event_types; lia).
  destruct (chunk_read chunk Hl Hp t 0 Ht ltac:(lia)) as (Hle & Ho & Hr). set (es := (encodes obj inside 0 chunk).1) in *.
  destruct (get_kinds_shows l es Hh) as (l' & -> & Hs & Hc). rewrite (fire_gc_ptr_spec l' es Hs Ho). cbn [mbind option_bind].
  destruct (ptr_header t 0 es Ht ltac:(lia) Hle) as [-> Hhd]. eexists _, l'. split_and!; [reflexivity|done|].
  assert (addr_ok obj) as Ha by (pose proof (meta_obj Hmeta) as [? _]; unfold addr_ok; lia).
  cbn [app]. apply evaluate_fire; [done|subst t; by destruct (event =? _)|subst t; by destruct (event =? _)|].
  intros ws. unfold chunk_calls. destruct Hev as [[-> Hf] | ->]; subst t; cbn [Z.eqb Pos.eqb] in *; rewrite <- !app_assoc;
    dispatch; [unfold parseGCMoveSlow|unfold parseGCKeepAlive]; cbn [app]; next; event_types; cbn [Z.eqb Pos.eqb]; by rewrite Hr.
Qed.

Lemma read_fast_ptr l chunk :
  ev = EVENTS_GC_MOVE_FAST ->
  holds l (encodes obj inside 0 chunk).1 -> Z.of_nat (length chunk) <= 12 -> Forall ptr_ok chunk ->
  exists e l', fire_gc_move_fast_ptr anchors base from space l = Some (e, l') /\
    EventPointerList.clear l' = EventPointerList.clear l /\ reads e (chunk_calls EVENTS_GC_MOVE_FAST (shown <$> chunk)).
Proof.
  intros Hev Hh Hl Hp. destruct (meta_fast Hmeta Hev) as ([Hf Hfm] & Hsp & Htarget). destruct (meta_base Hmeta) as [Hb Hbm].
  assert (addr_ok from) as Hfa by (unfold addr_ok; lia).
  unfold fire_gc_move_fast_ptr. pose proof (rel_addr_spec base from 32 Hb Hfa ltac:(lia)) as Hrel.
  unfold chunk_calls, fast_ptr_type. rewrite Hrel. cbn [snd Z.eqb Pos.eqb]. set (fits := (_ <=? _) && _) in *.
  set (t := if fits then EVENTS_GC_MOVE_FAST_PTR else EVENTS_GC_MOVE_FAST_WIDE_PTR).
  assert (0 <= t < 64) as Ht by (subst t; destruct fits; event_types; lia).
  destruct (chunk_read chunk Hl Hp t space Ht Hsp) as (Hle & Ho & Hr). set (es := (encodes obj inside 0 chunk).1) in *.
  destruct (get_kinds_shows l es Hh) as (l' & -> & Hs & Hc). rewrite (fire_gc_ptr_spec l' es Hs Ho). cbn [mbind option_bind].
  pose proof (ptr_header t space es Ht Hsp Hle) as [Hw Hhd]. eexists _, l'. split_and!; [reflexivity|done|].
  rewrite Z.eqb_refl. subst t. destruct fits eqn:Efits; rewrite Hw; cbn [app]; (apply evaluate_fire; [done|done|done|]); intros ws;
    dispatch; unfold parseGCMoveFast_WideOrNarrow_Ptr; event_types; cbn [Z.eqb Pos.eqb orb].
  - subst fits. apply andb_prop in Efits as [Hz1 Hz2]. zbool. unfold write_word. cbn [app getNextWord mbind option_bind].
    rewrite (create_rel base from Hb Hfa Hbm Hfm) by (try lia; rewrite wrap_swrap, wrap_idemp, wrap_small; lia).
    rewrite Htarget. by rewrite Hr.
  - next. rewrite Htarget. by rewrite Hr.
Qed.

(** *** Flushing a chunk *)

Abbreviation flush := (EventPointers.flush anchors base).

Lemma fresh_collects s event l l0 chunk :
  (event = ev -> EventPointers.from_addr s = from /\ EventPointers.to_space s = space) ->
  EventPointers.obj s = obj -> EventPointers.obj_is_inside_heap s = inside -> EventPointers.is_clean s = false ->
  holds l0 chunk -> EventPointerList.clear l = EventPointerList.clear l0 ->
  let s' := EventPointers.Pointers event (EventPointerList.clear l) (EventPointers.obj s) (EventPointers.from_addr s)
    (EventPointers.obj_is_inside_heap s) (EventPointers.to_space s) (EventPointers.is_clean s) 0 in
  collects s' event [] /\ last_is s' [].
Proof.
  intros Hm Ho Hi Hc Hh Hl s'. split; [|done]. constructor; try done. cbn. rewrite Hl. by apply (clear_holds _ chunk).
Qed.

Lemma flush_move s chunk :
  is_move ev = true -> collects s ev chunk -> Z.of_nat (length chunk) <= 12 -> Forall ptr_ok chunk ->
  exists s' e, flush s = Some (s', [e]) /\ collects s' EVENTS_GC_PTR_EXTENSION [] /\ last_is s' [] /\
    reads e (chunk_calls ev (shown <$> chunk)).
Proof.
  intros Hmv [He Ho Hi Hc Hm Hh] Hl Hp. destruct (Hm eq_refl) as [Hf Ht]. unfold EventPointers.flush. rewrite He.
  fold (is_move ev). rewrite Hmv. unfold EventsGCRuntimePtr.fire_gc_move_ptr. rewrite Ho, Hf, Ht.
  assert (exists e l', (if ev =? EVENTS_GC_MOVE_FAST then fire_gc_move_fast_ptr anchors base from space (EventPointers.ptr_list s)
    else fire_gc_move_slow_ptr anchors ev from obj (EventPointers.ptr_list s)) = Some (e, l') /\
    EventPointerList.clear l' = EventPointerList.clear (EventPointers.ptr_list s) /\ reads e (chunk_calls ev (shown <$> chunk)))
    as (e & l' & -> & Hcl & Hr).
  { unfold is_move in Hmv. destruct (Z.eqb_spec ev EVENTS_GC_MOVE_FAST) as [E|E]; [rewrite E; by apply read_fast_ptr|].
    apply read_slow_ptr; [|done..]. destruct (Z.eqb_spec ev EVENTS_GC_MOVE_SLOW) as [E'|E']; [left; split; [done|by apply (meta_slow Hmeta)]|].
    right. cbn in Hmv. by apply Z.eqb_eq in Hmv. }
  cbn [mbind option_bind]. eexists _, e. split; [reflexivity|]. cbn [EventPointers.event EventPointers.ptr_list EventPointers.obj
    EventPointers.from_addr EventPointers.obj_is_inside_heap EventPointers.to_space EventPointers.is_clean].
  split_and!; [|done|done]. constructor; cbn; try done.
  - intros <-. done.
  - rewrite Hcl. by eapply clear_holds.
Qed.

Lemma flush_other s event chunk :
  is_move event = false -> event = ev \/ event = EVENTS_GC_PTR_EXTENSION ->
  collects s event chunk -> Z.of_nat (length chunk) <= 12 -> Forall ptr_ok chunk ->
  exists s' es, flush s = Some (s', es) /\ collects s' event [] /\ last_is s' [] /\
    (chunk = [] /\ es = [] \/ exists e, es = [e] /\ reads e (chunk_calls event (shown <$> chunk))).
Proof.
  intros Hmv Hor H Hl Hp. pose proof (collects_size _ _ _ H) as Hsz. destruct H as [He Ho Hi Hc Hm Hh].
  unfold EventPointers.flush. rewrite He. fold (is_move event). rewrite Hmv, Hsz. unfold EventsGCRuntimePtr.fire_gc_ptr.
  rewrite Ho. destruct (Z.ltb_spec 0 (Z.of_nat (length chunk))).
  - destruct (read_obj_ptr event (EventPointers.ptr_list s) chunk) as (e & l' & -> & Hcl & Hr); [|done..|].
    { pose proof (meta_event Hmeta) as Hcases. unfold is_move in Hmv. destruct Hor as [-> | ->]; [|by left].
      destruct Hcases as [E|[E|[E|E]]]; [rewrite E in Hmv; done..|done]. }
    cbn [mbind option_bind]. eexists _, [e]. split; [reflexivity|].
    destruct (fresh_collects s event l' (EventPointers.ptr_list s) _ Hm Ho Hi Hc Hh Hcl) as [H1 H2].
    unfold EventPointers.set_list. cbn. rewrite He. split_and!; [done|done|]. right. by exists e.
  - cbn [mbind option_bind]. eexists _, []. split; [reflexivity|].
    destruct (fresh_collects s event _ (EventPointers.ptr_list s) _ Hm Ho Hi Hc Hh eq_refl) as [H1 H2].
    rewrite He. split_and!; [done|done|]. left. split; [|done]. destruct chunk; [done|simpl in *; lia].
Qed.

(** One flush, of the event of the object or of an extension of it. *)
Lemma flush_chunk s event chunk :
  event = ev \/ is_move event = false /\ event = EVENTS_GC_PTR_EXTENSION ->
  collects s event chunk -> Z.of_nat (length chunk) <= 12 -> Forall ptr_ok chunk ->
  let event' := if is_move event then EVENTS_GC_PTR_EXTENSION else event in
  exists s' es, flush s = Some (s', es) /\ collects s' event' [] /\ last_is s' [] /\
    (chunk = [] /\ es = [] \/ exists e, es = [e] /\ reads e (chunk_calls event (shown <$> chunk))).
Proof.
  intros Hor H Hl Hp. destruct (is_move event) eqn:Hmv; cbv zeta.
  - destruct Hor as [-> | [? _]]; [|done]. destruct (flush_move s chunk Hmv H Hl Hp) as (s' & e & Hf & Hc & Hla & Hr).
    exists s', [e]. split_and!; [done..|]. right. by exists e.
  - apply flush_other; try done. destruct Hor as [-> | [_ ->]]; auto.
Qed.

(** *** Any number of pointers *)

Lemma record_spec ps s event chunk :
  event = ev \/ is_move event = false /\ event = EVENTS_GC_PTR_EXTENSION ->
  collects s event chunk -> last_is s chunk -> Z.of_nat (length chunk) <= 12 -> Forall ptr_ok (chunk ++ ps) ->
  exists s' es chunks, EventPointers.record_pointers anchors base s ps = Some (s', es) /\
    holds (EventPointers.ptr_list s') [] /\ concat chunks = shown <$> (chunk ++ ps) /\
    Forall (fun c => (length c <= 12)%nat) chunks /\ Forall2 (fun e calls => reads e calls) es (all_calls event chunks).
Proof.
  revert s event chunk. induction ps as [|p ps IH]; intros s event chunk Hev Hc Hla Hl Hp.
  - rewrite app_nil_r in *. destruct (flush_chunk s event chunk Hev Hc Hl Hp) as (s' & es & Hf & Hc' & _ & Hr).
    unfold EventPointers.record_pointers. cbn [EventPointers.add_all mbind option_bind]. rewrite Hf. cbn [mbind option_bind app].
    pose proof (collects_list _ _ _ Hc') as Hh. destruct Hr as [[-> ->]|(e & -> & Hr)].
    + by exists s', [], [].
    + exists s', [e], [shown <$> chunk]. split_and!; [done|done|by cbn; rewrite app_nil_r| |by repeat constructor].
      apply Forall_singleton. rewrite length_fmap. lia.
  - unfold EventPointers.record_pointers. cbn [EventPointers.add_all]. unfold EventPointers.add.
    rewrite (collects_size _ _ _ Hc). unfold EventPointerList.MAX_CAPACITY. apply Forall_app in Hp as [Hp1 Hp2].
    destruct (Z.eqb_spec (Z.of_nat (length chunk)) 12) as [E|E].
    + destruct (flush_chunk s event chunk Hev Hc Hl Hp1) as (s1 & es1 & -> & Hc1 & Hla1 & Hr). cbn [mbind option_bind].
      destruct Hr as [[-> _]|(e & -> & Hr)]; [done|].
      destruct (encode_ptr_collects s1 _ [] p Hc1 Hla1) as (s2 & -> & Hc2 & Hla2); [simpl; lia|]. cbn [mbind option_bind].
      assert (forall x, x = (if is_move event then EVENTS_GC_PTR_EXTENSION else event) ->
        x = ev \/ is_move x = false /\ x = EVENTS_GC_PTR_EXTENSION) as Hev'.
      { intros x ->. destruct (is_move event) eqn:Hmv; [by right|rewrite Hmv; exact Hev]. }
      destruct (IH s2 _ [p] (Hev' _ eq_refl) Hc2 Hla2 ltac:(simpl; lia) Hp2) as (s' & es & chunks & Hrec & Hh & Hcat & Hlen & Hreads).
      unfold EventPointers.record_pointers in Hrec. destruct (EventPointers.add_all anchors base s2 ps) as [[s3 es2]|]; [|done].
      cbn [mbind option_bind] in Hrec |- *. destruct (flush s3) as [[s4 es3]|]; [|done]. cbn [mbind option_bind] in Hrec |- *.
      injection Hrec as <- <-. exists s4, (e :: es2 ++ es3), ((shown <$> chunk) :: chunks). split_and!; [done|done|..].
      * cbn [concat]. rewrite Hcat, <- fmap_app. done.
      * constructor; [rewrite length_fmap; lia|done].
      * by constructor.
    + cbn [mbind option_bind]. destruct (encode_ptr_collects s event chunk p Hc Hla) as (s2 & -> & Hc2 & Hla2); [lia|].
      cbn [mbind option_bind]. destruct (IH s2 event (chunk ++ [p]) Hev Hc2 Hla2) as (s' & es & chunks & Hrec & Hrest).
      { rewrite length_app. simpl. lia. }
      { rewrite <- app_assoc. by apply Forall_app. }
      exists s', es, chunks. rewrite <- app_assoc in Hrest. split; [|exact Hrest].
      unfold EventPointers.record_pointers in Hrec. destruct (EventPointers.add_all anchors base s2 ps) as [[s3 es2]|]; [|done].
      cbn [mbind option_bind app] in Hrec |- *. done.
Qed.

End Pointers.

(** The thread's collector between two objects. *)
Definition ready (s : EventPointers.pointers) : Prop := holds (EventPointers.ptr_list s) [].

(** C12: the pointers of an object, however many and wherever they point, are
    recovered by the analyzer: recording them returns, the events fired are
    read as the move of the object with the first twelve at most, followed by
    extensions of at most twelve, and the pointers of all these events are the
    pointers recorded, in order, with null pointers shown as such.  The list
    is ready for the next object. *)
Theorem pointers_roundtrip anchors sites isArray isMirror isClass move_target base s event obj inside from space ps :
  ready s -> meta_ok move_target base event obj from space -> Forall ptr_ok ps ->
  exists s' es chunks,
    EventPointers.record_pointers anchors base (EventPointers.set_meta s event obj inside from space false) ps = Some (s', es) /\
    ready s' /\ concat chunks = shown <$> ps /\ Forall (fun c => (length c <= 12)%nat) chunks /\
    Forall2 (fun e calls => forall ws,
      evaluateEvent anchors sites isArray isMirror isClass move_target base (stored e ++ ws) = Some (calls, base, ws))
      es (all_calls base obj from space event chunks).
Proof.
  intros Hr Hm Hp.
  apply (record_spec anchors sites isArray isMirror isClass move_target base event obj from space inside Hm ps _ event []);
    [by left| |done|done|done].
  by constructor.
Qed.

(** Thirteen pointers of a moved object: near, far, behind the object, null. *)
Definition demo_pointers : list Z := [4096; 8192; 0; 2 ^ 40; 2 ^ 40 + 8; 16384; 24; 4096; 8; 0; 2 ^ 46; 4104; 4112].

Lemma pointers_roundtrip_witness :
  exists s' es chunks,
    EventPointers.record_pointers true 4096 (EventPointers.set_meta EventPointers.make EVENTS_GC_MOVE_FAST 8192 true 4096 1 false) demo_pointers = Some (s', es) /\
    ready s' /\ concat chunks = shown <$> demo_pointers /\ Forall (fun c => (length c <= 12)%nat) chunks /\
    Forall2 (fun e calls => forall ws,
      evaluateEvent true (fun _ => None) (fun _ => false) (fun _ => false) (fun _ => false) (fun a _ => a + 4096) 4096 (stored e ++ ws) =
        Some (calls, 4096, ws))
      es (all_calls 4096 8192 4096 1 EVENTS_GC_MOVE_FAST chunks).
Proof.
  apply (pointers_roundtrip true (fun _ => None) (fun _ => false) (fun _ => false) (fun _ => false) (fun a _ => a + 4096) 4096
    EventPointers.make EVENTS_GC_MOVE_FAST 8192 true 4096 1 demo_pointers).
  - exact make_holds.
  - constructor; unfold heap_addr, addr_ok; try done; auto with lia.
  - unfold demo_pointers, ptr_ok, heap_addr. repeat (apply Forall_cons; split; [lia || (right; split; [lia|reflexivity])|]). done.
Defined.

End PointersTheorem.

(** ** Recording roots *)

Module RootsTheorem.
Import EventType EventsRuntime EventRoots TraceSlaveParser EventsTheorems.

Lemma words_sum l r : foldr Z.add 0 (l ++ [r]) = foldr Z.add 0 l + r.
Proof. induction l as [|x l IH]; cbn [app foldr]; [|rewrite IH]; lia. Qed.

Lemma add_root l p r :
  EventRootPointerList.add (add_roots l) p r =
    if (3 <=? length l)%nat then (add_roots [(p, r)], Some (add_roots l)) else (add_roots (l ++ [(p, r)]), None).
Proof.
  unfold EventRootPointerList.add, EventRootPointerList.MAX_ROOTS_CAPACITY, EventRootPointerList.get_size.
  cbn [add_roots EventRootPointerList.roots]. rewrite length_fmap.
  destruct (Nat.leb_spec 3 (length l)).
  - rewrite (proj2 (Z.leb_le _ _)) by lia. unfold add_roots, EventRootPointerList.clear. cbn. by rewrite Z.add_0_r.
  - rewrite (proj2 (Z.leb_gt _ _)) by lia. unfold add_roots. cbn [EventRootPointerList.roots EventRootPointerList.words].
    rewrite !fmap_app. cbn [fmap list_fmap fst snd]. by rewrite words_sum.
Qed.

Lemma flush_roots l :
  (EventRootPointerList.flush (add_roots l)).2 = match l with [] => None | _ => Some (add_roots l) end.
Proof. by destruct l. Qed.

(** The lists handed out hold the roots in order, at most three each. *)
Lemma add_all_roots_spec rs l :
  (length l <= 3)%nat ->
  exists l' parts, add_all_roots (add_roots l) rs = (add_roots l', add_roots <$> parts) /\
    concat parts ++ l' = l ++ rs /\ (length l' <= 3)%nat /\ Forall (fun part => (length part <= 3)%nat) parts.
Proof.
  revert l. induction rs as [|[p r] rs IH]; intros l Hl; cbn [add_all_roots fst snd].
  - exists l, []. rewrite app_nil_r. by split_and!.
  - rewrite add_root. destruct (Nat.leb_spec 3 (length l)).
    + destruct (IH [(p, r)]) as (l' & parts & -> & Hc & Hl' & Hp); [simpl; lia|]. exists l', (l :: parts).
      split_and!; [done| |done|by constructor]. cbn [concat]. by rewrite <- app_assoc, Hc.
    + destruct (IH (l ++ [(p, r)])) as (l' & parts & -> & Hc & Hl' & Hp); [rewrite length_app; simpl; lia|]. exists l', parts.
      split_and!; [done| |done|done]. by rewrite Hc, <- app_assoc.
Qed.



End RootsTheorem.
