(* ===== verification/GCTheorems.v ===== *)
(** * Guarantees of the events of a collection

    Merged moves, postponed space events, rotation, and the objects a
    synchronisation reports. *)

From S2P Require Import Prelude EventBuffer EventPointerList EventsRuntime EventPointers RootPointers ObjectStartArray EventsGC.
From S2P Require Import TraceSlaveParser EventsRoundtrip EventsTheorems PointersRoundtrip.
From Stdlib Require Import ZArith Lia.

(** ** Merged moves *)

Module GCMoveTheorem.
Import EventsRuntime GCMove.

(** Moves of adjacent objects by the same distance, ending at [f], [t]. *)
Fixpoint adjacent (part : list (Z * Z * Z)) (f t : Z) : Prop :=
  match part with
  | [] => True
  | (from, to, size) :: part =>
      from = f /\ to = t /\ adjacent part (f + size * HeapWordSize) (t + size * HeapWordSize)
  end.

Definition total (part : list (Z * Z * Z)) : Z := foldr (fun m n => m.2 + n) 0 part.

Lemma adjacent_snoc part f t m :
  adjacent part f t -> m.1.1 = f + total part * HeapWordSize -> m.1.2 = t + total part * HeapWordSize ->
  adjacent (part ++ [m]) f t.
Proof.
  destruct m as [[from to] size]. cbn [fst snd]. revert f t.
  induction part as [|[[from' to'] size'] part IH]; intros f t; cbn [adjacent app total foldr snd].
  - intros _ -> ->. lia.
  - fold (total part). intros (-> & -> & H) Hf Ht. split_and!; [done|done|]. apply IH; [done|lia|lia].
Qed.

Lemma total_snoc part m : total (part ++ [m]) = total part + m.2.
Proof. unfold total. induction part as [|x part IH]; cbn [app foldr]; lia. Qed.

(** A region stands for such moves. *)
Definition stands_for (r : region) (part : list (Z * Z * Z)) : Prop :=
  let '(f, t, n) := r in n = Z.of_nat (length part) /\ 0 < n /\ adjacent part f t.

(** The state holds the moves [part] not fired yet. *)
Definition pending (s : state) (part : list (Z * Z * Z)) : Prop :=
  match part with
  | [] => s = make
  | _ => stands_for (first_from s, first_to s, count s) part /\
      next_from s = first_from s + total part * HeapWordSize /\ next_to s = first_to s + total part * HeapWordSize
  end.

Lemma move_flush_spec s part :
  pending s part ->
  (flush s).1 = make /\
  match part with [] => (flush s).2 = [] | _ => exists r, (flush s).2 = [r] /\ stands_for r part end.
Proof.
  intros H. unfold flush. destruct part as [|m part].
  - by rewrite H.
  - destruct H as [(Hn & Hpos & Ha) _]. rewrite (proj2 (Z.ltb_lt 0 (count s))) by done. split; [done|].
    eexists. split; [reflexivity|]. by split_and!.
Qed.

(** A move: it extends the pending ones or starts over after a flush. *)
Lemma push_spec s part from to size :
  pending s part -> 0 < from -> Z.of_nat (length part) < 2 ^ 31 - 1 ->
  let joins := (next_from s =? from) && (next_to s =? to) in
  let s1 := if joins then s else State (count (flush s).1) from to from to in
  pending (State (s32 (count s1 + 1)) (first_from s1) (first_to s1) (next_from s1 + size * HeapWordSize) (next_to s1 + size * HeapWordSize))
    (if joins then part ++ [(from, to, size)] else [(from, to, size)]).
Proof.
  intros H Hf Hn. destruct ((next_from s =? from) && (next_to s =? to)) eqn:E; cbv zeta.
  - apply andb_prop in E as [E1 E2]. zbool. destruct part as [|m part]; [rewrite H in E1; cbn in E1; lia|].
    destruct H as [(Hc & Hpos & Ha) [Hnf Hnt]]. cbn [app]. rewrite app_comm_cons. set (l := m :: part) in *.
    assert (pending (State (s32 (count s + 1)) (first_from s) (first_to s) (next_from s + size * HeapWordSize)
      (next_to s + size * HeapWordSize)) (l ++ [(from, to, size)]) <->
      stands_for (first_from s, first_to s, s32 (count s + 1)) (l ++ [(from, to, size)]) /\
      next_from s + size * HeapWordSize = first_from s + total (l ++ [(from, to, size)]) * HeapWordSize /\
      next_to s + size * HeapWordSize = first_to s + total (l ++ [(from, to, size)]) * HeapWordSize) as -> by done.
    rewrite total_snoc. cbn [snd]. split; [|lia]. split; [|split; [|apply adjacent_snoc; cbn [fst snd]; [done|lia|lia]]].
    + rewrite length_app, swrap_small; cbn [length] in *; lia.
    + rewrite swrap_small; lia.
  - destruct (move_flush_spec s part H) as [-> _]. cbn. split_and!; done || lia.
Qed.

Definition one_part (part : list (Z * Z * Z)) : list (list (Z * Z * Z)) := match part with [] => [] | _ => [part] end.

Lemma concat_one_part part : concat (one_part part) = part.
Proof. destruct part; [done|]. cbn. by rewrite app_nil_r. Qed.

Lemma flush_parts s part :
  pending s part -> pending (flush s).1 [] /\ Forall2 stands_for (flush s).2 (one_part part).
Proof.
  intros H. destruct (move_flush_spec s part H) as [-> Hf]. split; [done|].
  destruct part as [|m part]; [by rewrite Hf|]. destruct Hf as (r & -> & Hr). by repeat constructor.
Qed.

Lemma fire_spec alot s part from to size :
  pending s part -> 0 < from -> Z.of_nat (length part) < 2 ^ 31 - 1 ->
  let '(s', out) := fire true alot s from to size in
  exists fired part', pending s' part' /\ concat fired ++ part' = part ++ [(from, to, size)] /\ Forall2 stands_for out fired.
Proof.
  intros H Hf Hn. pose proof (push_spec s part from to size H Hf Hn) as Hp. pose proof (flush_parts s part H) as [_ Hfl].
  unfold fire. destruct ((next_from s =? from) && (next_to s =? to)); cbv zeta in Hp.
  - set (s1 := State (s32 _) _ _ _ _) in *. destruct (_ && _).
    + destruct (flush_parts s1 _ Hp) as [H1 H2]. destruct (flush s1) as [s2 out]. cbn [fst snd] in *.
      eexists _, []. split; [exact H1|]. split; [|exact H2]. by rewrite app_nil_r, concat_one_part.
    + exists [], (part ++ [(from, to, size)]). by split_and!.
  - destruct (flush s) as [s0 out]. cbn [fst snd] in *. set (s1 := State (s32 _) _ _ _ _) in *.
    destruct (_ && _).
    + destruct (flush_parts s1 _ Hp) as [H1 H2]. destruct (flush s1) as [s2 out']. cbn [fst snd] in *.
      eexists _, []. split; [exact H1|]. split; [|exact (Forall2_app Hfl H2)].
      by rewrite app_nil_r, concat_app, !concat_one_part.
    + eexists _, [(from, to, size)]. split; [exact Hp|]. split; [|exact Hfl]. by rewrite concat_one_part.
Qed.

Lemma fire_all_spec alot moves s part :
  pending s part -> Forall (fun m => 0 < m.1.1) moves -> Z.of_nat (length part + length moves) < 2 ^ 31 ->
  exists parts, concat parts = part ++ moves /\ Forall2 stands_for (fire_all true alot s moves) parts.
Proof.
  revert s part. induction moves as [|[[from to] size] moves IH]; intros s part Hs Hm Hn; cbn [fire_all].
  - destruct (flush_parts s part Hs) as [_ H]. eexists. split; [|exact H]. by rewrite concat_one_part, app_nil_r.
  - apply Forall_cons in Hm as [Hf Hm]. cbn [fst length] in *. pose proof (fire_spec alot s part from to size Hs Hf ltac:(lia)) as Hfire.
    destruct (fire true alot s from to size) as [s' out]. destruct Hfire as (fired & part' & Hs' & Hc & Hout).
    destruct (IH s' part' Hs' Hm) as (parts & Hparts & Hall).
    { apply (f_equal length) in Hc. rewrite !length_app in Hc. cbn [length] in Hc. lia. }
    exists (fired ++ parts). split; [|by apply Forall2_app]. rewrite concat_app, Hparts, app_assoc, Hc, <- app_assoc. done.
Qed.

Lemma region_moves_adjacent size_of part f t :
  adjacent part f t -> Forall (fun m => size_of m.1.1 m.1.2 = m.2) part ->
  EventsGCRuntime.region_moves size_of (length part) f t = part.
Proof.
  revert f t. induction part as [|[[from to] size] part IH]; intros f t Ha Hs; [done|].
  destruct Ha as (-> & -> & Ha). apply Forall_cons in Hs as [Hs1 Hs]. cbn [fst snd] in Hs1.
  cbn [length EventsGCRuntime.region_moves]. rewrite Hs1. by rewrite IH.
Qed.

(** Merging moves into regions loses none: for any sequence of moves of
    a compaction, the regions fired, in order, cut the sequence into parts,
    and each region, expanded object by object with the sizes the objects
    have, gives the moves of its part. *)
Theorem regions_expand_to_moves alot moves :
  Forall (fun m => 0 < m.1.1) moves -> Z.of_nat (length moves) < 2 ^ 31 ->
  exists parts, concat parts = moves /\
    Forall2 (fun r part => r.2 = Z.of_nat (length part) /\
      forall size_of, Forall (fun m => size_of m.1.1 m.1.2 = m.2) part ->
        EventsGCRuntime.region_moves size_of (Z.to_nat r.2) r.1.1 r.1.2 = part)
      (fire_all true alot make moves) parts.
Proof.
  intros Hm Hn. destruct (fire_all_spec alot moves make [] eq_refl Hm ltac:(done)) as (parts & Hc & H).
  exists parts. split; [done|]. eapply Forall2_impl; [exact H|]. intros [[f t] n] part (-> & Hpos & Ha). cbn [fst snd].
  split; [done|]. intros size_of Hs. rewrite Nat2Z.id. by apply region_moves_adjacent.
Qed.

Definition demo_moves : list (Z * Z * Z) := [(4096, 1024, 2); (4112, 1040, 3); (8192, 1064, 2); (8208, 1080, 4)].

Lemma regions_expand_to_moves_witness :
  exists parts, concat parts = demo_moves /\
    Forall2 (fun r part => r.2 = Z.of_nat (length part) /\
      forall size_of, Forall (fun m => size_of m.1.1 m.1.2 = m.2) part ->
        EventsGCRuntime.region_moves size_of (Z.to_nat r.2) r.1.1 r.1.2 = part)
      (fire_all true 0 make demo_moves) parts.
Proof. apply (regions_expand_to_moves 0 demo_moves); [repeat constructor|reflexivity]. Defined.

End GCMoveTheorem.

(** ** A compaction of G1 with pointers *)

Module GCPointersTheorem.
Import EventType EventsRuntime TraceSlaveParser EventsTheorems PointerSpec PointersTheorem GCPointers GCMoveTheorem.

Section Compaction.
Variable anchors : bool.
Variable sites : Z -> option Z.
Variables types_isArray types_isMirror types_isClass : Z -> bool.
Variable move_target : Z -> Z -> Z.
Variable base : Z.
Variable obj_at : Z -> oop.
Variable layout_at : Z -> layout.
Variable heapOopSize : Z.
Variable decode_heap_oop : Z -> Z.
Variable load : oop -> bool -> Z.
Variable bitmap : option (Z * Z * (Z -> Z)).

Abbreviation pointers_of := (obj_pointers layout_at heapOopSize decode_heap_oop).

Definition size_for (from to : Z) : Z := match bitmap with Some b => b.2 from | None => size (obj_at to) end.

(** A move of an object of the size that the bit map or the object tells, to
    and with pointers to heap addresses. *)
Definition move_ok (m : Z * Z * Z) : Prop :=
  0 < m.1.1 /\ addr_ok m.1.1 /\ heap_addr m.1.2 /\ size_for m.1.1 m.1.2 = m.2 /\ Forall ptr_ok (pointers_of m.1.2).

Abbreviation reads e calls := (forall ws,
  evaluateEvent anchors sites types_isArray types_isMirror types_isClass move_target base (stored e ++ ws) = Some (calls, base, ws)).

(** Events that are read as the move and all pointers of its object. *)
Definition move_read (m : Z * Z * Z) (es : list event) : Prop :=
  exists chunks, concat chunks = shown <$> pointers_of m.1.2 /\ Forall (fun c => (length c <= 12)%nat) chunks /\
    Forall2 (fun e calls => reads e calls) es (all_calls base m.1.2 m.1.1 (-1) EVENTS_GC_MOVE_SLOW chunks).

Hypothesis Hbase : addr_ok base /\ base mod 8 = 0.

Lemma region_read part s f t :
  ready s -> adjacent part f t -> Forall move_ok part ->
  exists s' groups,
    flush_g1_pointers anchors base obj_at layout_at heapOopSize decode_heap_oop (snd <$> bitmap) (length part) s f t =
      Some (s', concat groups) /\ ready s' /\ Forall2 move_read part groups.
Proof.
  revert s f t. induction part as [|[[from to] sz] part IH]; intros s f t Hs Ha Hm; [by exists s, []|].
  destruct Ha as (-> & -> & Ha). apply Forall_cons in Hm as [(_ & Hf & Ht & Hsz & Hp) Hm]. cbn [fst snd] in *.
  cbn [length flush_g1_pointers]. replace (match snd <$> bitmap with Some _ => _ | None => _ end) with sz by (by rewrite <- Hsz; unfold size_for; destruct bitmap).
  assert (meta_ok move_target base EVENTS_GC_MOVE_SLOW t f (-1)) as Hmeta by (constructor; try done; auto).
  destruct (record_spec anchors sites types_isArray types_isMirror types_isClass move_target base EVENTS_GC_MOVE_SLOW t f (-1) true
    Hmeta (pointers_of t) (EventPointers.set_meta s EVENTS_GC_MOVE_SLOW t true f (-1) false) EVENTS_GC_MOVE_SLOW [])
    as (s1 & es & chunks & Hrec & Hs1 & Hc & Hlen & Hr); [by left|by constructor|done|done|done|].
  unfold EventPointers.record_pointers in Hrec. unfold add_obj_pointers.
  destruct (EventPointers.add_all _ _ _ _) as [[s2 e1]|]; [|done]. cbn [mbind option_bind] in Hrec |- *.
  destruct (EventPointers.flush _ _ s2) as [[s3 e2]|]; [|done]. cbn [mbind option_bind] in Hrec |- *. injection Hrec as -> <-.
  destruct (IH s1 _ _ Hs1 Ha Hm) as (s4 & groups & -> & Hs4 & Hg). cbn [mbind option_bind].
  exists s4, ((e1 ++ e2) :: groups). split_and!; [cbn [concat]; by rewrite <- app_assoc|done|]. constructor; [by exists chunks|done].
Qed.

Lemma regions_read rs parts s :
  ready s -> Forall2 stands_for rs parts -> Forall move_ok (concat parts) ->
  exists s' groups,
    fire_regions anchors base obj_at layout_at heapOopSize decode_heap_oop load true true false bitmap s rs = Some (s', concat groups) /\
    ready s' /\ Forall2 move_read (concat parts) groups.
Proof.
  intros Hs H. revert s Hs. induction H as [|[[f t] n] part rs parts (-> & _ & Ha) H IH]; intros s Hs Hm; [by exists s, []|].
  cbn [concat] in Hm. apply Forall_app in Hm as [Hm1 Hm2]. cbn [fire_regions]. unfold fire_region. cbn [andb fst snd]. rewrite Nat2Z.id.
  destruct (region_read part s f t Hs Ha Hm1) as (s1 & g1 & -> & Hs1 & Hr1). cbn [mbind option_bind].
  destruct (IH s1 Hs1 Hm2) as (s2 & g2 & -> & Hs2 & Hr2). cbn [mbind option_bind]. exists s2, (g1 ++ g2).
  split_and!; [by rewrite concat_app|done|]. by apply Forall2_app.
Qed.

End Compaction.

(** C20: a compaction of the G1 collector with pointers is recovered
    object by object: however the moves are merged into regions, walking the
    regions again and recording the pointers of every object fires, for each
    move in turn, events that the analyzer reads as this move with all
    pointers of the object, in order. *)
Theorem compaction_roundtrip anchors sites isArray isMirror isClass move_target base obj_at layout_at heapOopSize decode load bitmap
    alot s moves :
  addr_ok base /\ base mod 8 = 0 -> ready s -> Z.of_nat (length moves) < 2 ^ 31 ->
  Forall (move_ok obj_at layout_at heapOopSize decode bitmap) moves ->
  exists s' groups,
    fire_regions anchors base obj_at layout_at heapOopSize decode load true true false bitmap s (GCMove.fire_all true alot GCMove.make moves) =
      Some (s', concat groups) /\ ready s' /\
    Forall2 (move_read anchors sites isArray isMirror isClass move_target base layout_at heapOopSize decode) moves groups.
Proof.
  intros Hb Hs Hn Hm. destruct (fire_all_spec alot moves GCMove.make [] eq_refl) as (parts & Hc & Hp); [|done|].
  { eapply Forall_impl; [exact Hm|]. by intros m [? _]. }
  cbn [app] in Hc. subst moves. by apply regions_read.
Qed.

(** Two adjacent arrays of two references each, and an object with one. *)
Definition demo_layout (p : Z) : layout := if p =? 1088 then Instance [(8, 1)] else ObjArray (p + 16) 2.
Definition demo_decode (p : Z) : Z := if p mod 3 =? 0 then 0 else 4096 + p * 8.
Definition demo_object (p : Z) : oop := Oop p None false 9 4.
Definition demo_compaction : list (Z * Z * Z) := [(4096, 1024, 4); (4128, 1056, 4); (8192, 1088, 4)].

Lemma compaction_roundtrip_witness :
  exists s' groups,
    fire_regions true 4096 demo_object demo_layout 4 demo_decode (fun _ _ => 20) true true false None EventPointers.make
      (GCMove.fire_all true 0 GCMove.make demo_compaction) = Some (s', concat groups) /\ ready s' /\
    Forall2 (move_read true (fun _ => None) (fun _ => false) (fun _ => false) (fun _ => false) (fun a _ => a) 4096 demo_layout 4 demo_decode)
      demo_compaction groups.
Proof.
  apply (compaction_roundtrip true (fun _ => None) (fun _ => false) (fun _ => false) (fun _ => false) (fun a _ => a) 4096
    demo_object demo_layout 4 demo_decode (fun _ _ => 20) None 0 EventPointers.make demo_compaction).
  - unfold addr_ok. split; [lia|reflexivity].
  - exact make_holds.
  - reflexivity.
  - unfold demo_compaction. rewrite !Forall_cons, Forall_nil. unfold move_ok, addr_ok, heap_addr. cbn [fst snd].
    split_and!; try done; try lia; unfold ptr_ok, heap_addr;
      match goal with |- Forall _ ?l => let l' := eval vm_compute in l in change l with l' end;
      repeat (apply Forall_cons; split); try apply Forall_nil; try exact I;
      ((left; reflexivity) || (right; split; [lia|reflexivity])).
Defined.

End GCPointersTheorem.

(** ** Synchronising objects that the collection does not visit *)

Module SyncTasksTheorem.
Import EventsRuntime EventSynchronization ObjectStartArray EventsGCRuntime SyncTasks.

Section Heap.
Variable anchors : bool.
Variable obj_at : Z -> oop.
Variable load : oop -> bool -> Z.
Variable threads : list (Z * Z * list Z).

Let size_at (p : Z) : Z := size (obj_at p).

Lemma objects_tiled fuel a b l : tiled size_at a b l -> (length l <= fuel)%nat -> objects obj_at fuel a b = l.
Proof.
  intros H. revert fuel. induction H as [a|a b l Hs Ht IH]; intros fuel Hf.
  - destruct fuel; [done|]. cbn [objects]. by rewrite Z.ltb_irrefl.
  - destruct fuel as [|fuel]; cbn [length] in Hf; [lia|]. cbn [objects]. pose proof (tiled_le _ _ _ _ Ht) as Hle.
    unfold HeapWordSize, EventsRuntime.HeapWordSize in *. rewrite (proj2 (Z.ltb_lt a b)) by lia. f_equal. apply IH. lia.
Qed.

Lemma region_objects_tiled a b l : tiled size_at a b l -> region_objects obj_at a b = l.
Proof.
  intros H. unfold region_objects. apply objects_tiled; [done|]. apply tiled_le in H.
  unfold HeapWordSize, EventsRuntime.HeapWordSize in *. Z.to_euclidean_division_equations. lia.
Qed.

(** The object that contains an address of a suffix of the space is in it. *)
Lemma suffix_object bottom c top l1 l2 s next :
  tiled size_at bottom c l1 -> tiled size_at c top l2 -> s ∈ l1 ++ l2 -> c <= next ->
  next < s + size_at s * HeapWordSize -> s ∈ l2.
Proof.
  intros H1 _ Hin Hc Hn. apply elem_of_app in Hin as [Hin|Hin]; [|done].
  apply (tiled_bounds _ _ _ _ _ H1) in Hin. lia.
Qed.

Section Chunks.
Variables (a : array) (top step_size : Z) (l : list Z).
Hypothesis Htable : table_ok a l.
Hypothesis Htiled : tiled size_at (start a) top l.
Hypothesis Hend : top <= ObjectStartArray.end_ a.
Hypothesis Hstep : 0 < step_size.

(** The loop ends before the multiples of the step exceed the space, at an
    object after the first one. *)
Lemma chunk_top_spec fuel c l1 l2 multiplier :
  l = l1 ++ l2 -> tiled size_at (start a) c l1 -> tiled size_at c top l2 -> c < top ->
  0 < multiplier -> (multiplier - 1) * step_size * HeapWordSize < top - c ->
  (top - c) / HeapWordSize < Z.of_nat fuel + multiplier ->
  exists chunk lc lr, chunk_top obj_at fuel a c top step_size multiplier = Some chunk /\ l2 = lc ++ lr /\
    tiled size_at c chunk lc /\ tiled size_at chunk top lr /\ lc <> [].
Proof.
  intros Hl H1 H2 Hc. revert multiplier. pose proof (tiled_le _ _ _ _ H1) as Hs. pose proof (tiled_aligned _ _ _ _ H2) as Ha.
  unfold HeapWordSize, EventsRuntime.HeapWordSize in *. induction fuel as [|fuel IH]; intros multiplier Hm Hlt Hf.
  - exfalso. assert (multiplier - 1 <= (multiplier - 1) * step_size) by nia. Z.to_euclidean_division_equations. lia.
  - cbn [chunk_top]. destruct (top <=? _) eqn:E; zbool; cbn [mbind option_bind].
    + rewrite (proj2 (Z.eqb_neq top c)) by lia. exists top, l2, []. split_and!; [done|by rewrite app_nil_r|done|constructor|].
      intros ->. inversion H2; lia.
    + unfold HeapWordSize, EventsRuntime.HeapWordSize in *. assert (0 < multiplier * step_size) by nia.
      destruct (object_start_spec size_at a top l (c + multiplier * step_size * 8) Htable Htiled Hend ltac:(lia))
        as (s & Hos & Hin & Hb). fold size_at. rewrite Hos. cbn [mbind option_bind].
      destruct (Z.eqb_spec s c) as [->|Hne]; [apply IH; [lia|nia|lia]|].
      subst l. apply (suffix_object (start a) c top l1 l2 s (c + multiplier * step_size * 8)) in Hin; [|done|done|lia|].
      2: { exact (proj2 Hb). }
      destruct (tiled_split _ _ _ _ _ H2 Hin) as (lc & lr & -> & H3 & H4). exists s, lc, (s :: lr).
      split_and!; [done|done|done|done|]. intros ->. inversion H3; congruence.
Qed.

Definition object_task (r : Z * Z) : task := FireSyncEvents r.1 r.2 0.

Lemma chunks_spec fuel c l1 l2 :
  l = l1 ++ l2 -> tiled size_at (start a) c l1 -> tiled size_at c top l2 ->
  (top - c) / HeapWordSize <= Z.of_nat fuel ->
  exists rs, chunks obj_at fuel a c top step_size = Some (object_task <$> rs) /\
    concat ((fun r => region_objects obj_at r.1 r.2) <$> rs) = l2.
Proof.
  revert c l1 l2. induction fuel as [|fuel IH]; intros c l1 l2 Hl H1 H2 Hf; cbn [chunks];
    pose proof (tiled_le _ _ _ _ H2) as Hle; pose proof (tiled_aligned _ _ _ _ H2) as Ha;
    unfold HeapWordSize, EventsRuntime.HeapWordSize in *; destruct (Z.ltb_spec c top) as [Hc|Hc].
  1: { exfalso. Z.to_euclidean_division_equations. lia. }
  1, 3: destruct l2; cbn [length] in Hle; [by exists []|lia].
  destruct (chunk_top_spec (Z.to_nat ((top - c) / 8)) c l1 l2 1 Hl H1 H2 Hc) as (chunk & lc & lr & -> & -> & H3 & H4 & Hne);
    unfold HeapWordSize, EventsRuntime.HeapWordSize; [lia|lia|Z.to_euclidean_division_equations; lia|].
  assert (c < chunk) as Hlt.
  { apply tiled_le in H3. destruct lc; cbn [length] in H3; [done|]. unfold HeapWordSize, EventsRuntime.HeapWordSize in H3. lia. }
  assert (8 <= chunk - c).
  { pose proof (tiled_aligned _ _ _ _ H3). unfold HeapWordSize, EventsRuntime.HeapWordSize in *. Z.to_euclidean_division_equations. lia. }
  destruct (IH chunk (l1 ++ lc) lr) as (rs & Hrs & Hc'); [by rewrite <- app_assoc|by eapply tiled_app|done|Z.to_euclidean_division_equations; lia|].
  cbn [mbind option_bind]. rewrite Hrs. exists ((c, chunk) :: rs). split; [done|].
  cbn [fmap list_fmap concat fst snd]. by rewrite Hc', (region_objects_tiled c chunk lc).
Qed.

End Chunks.

Definition thread_events : list event := (fun th => fire_thread_alive anchors th.1.1 th.1.2 th.2) <$> threads.

Definition sync_event (p : Z) : event :=
  fire_sync_obj anchors (obj_at p) (s32 (size (obj_at p))) (load (obj_at p) true).

Lemma run_object_tasks rs ws :
  length ws = length rs ->
  run_queue anchors obj_at load threads (zip (object_task <$> rs) ws) =
  sync_event <$> concat ((fun r => region_objects obj_at r.1 r.2) <$> rs).
Proof.
  revert ws. induction rs as [|r rs IH]; intros [|w ws] H; try done. injection H as H.
  unfold run_queue in *. cbn [fmap list_fmap zip zip_with concat fst snd _do_it object_task]. rewrite IH by done.
  by rewrite fmap_app.
Qed.

Lemma object_tasks a top l workers :
  0 < workers -> table_ok a l -> tiled size_at (start a) top l -> top <= ObjectStartArray.end_ a ->
  exists rs, enqueue_synchronization_tasks_for_parallel_old_gc obj_at OnMinor false a (start a) top workers = Some (object_task <$> rs) /\
    concat ((fun r => region_objects obj_at r.1 r.2) <$> rs) = l.
Proof.
  intros Hw Ht Hl Hend. unfold enqueue_synchronization_tasks_for_parallel_old_gc. rewrite bool_decide_true by done.
  pose proof (tiled_le _ _ _ _ Hl) as Hle. unfold HeapWordSize, EventsRuntime.HeapWordSize in Hle.
  destruct (Z.eqb_spec ((top - start a) / HeapWordSize / (workers * 3)) 0) as [E|E].
  - exists [(start a, top)]. split; [done|]. cbn. rewrite app_nil_r. by apply region_objects_tiled.
  - destruct (chunks_spec a top ((top - start a) / HeapWordSize / (workers * 3)) l Ht Hl Hend) with
      (fuel := Z.to_nat ((top - start a) / HeapWordSize)) (c := start a) (l1 := @nil Z) (l2 := l) as (rs & -> & Hc);
      [|done|constructor|done| |by exists rs].
    + apply Z.le_neq. split; [|done]. apply Z.div_pos; [apply Z.div_pos|]; unfold HeapWordSize, EventsRuntime.HeapWordSize; lia.
    + unfold HeapWordSize, EventsRuntime.HeapWordSize. Z.to_euclidean_division_equations. lia.
Qed.

(** C25: the tasks of a minor synchronisation of the parallel collector
    report the old generation completely: the loop that cuts the old space
    into chunks terminates, and whichever worker gets which task, the tasks
    fire the events of the threads and then exactly one event for each object
    of the old space, in the order of the addresses. *)
Theorem parallel_sync_complete events a top l workers :
  0 < workers -> start a mod HeapWordSize = 0 -> tiled size_at (start a) top l -> top <= ObjectStartArray.end_ a ->
  exists ts,
    enqueue_synchronization_tasks_for_parallel_old_gc obj_at OnMinor events (allocate_all (reset a) l) (start a) top workers = Some ts /\
    forall ws, length ws = length ts ->
      run_queue anchors obj_at load threads (zip ts ws) = (if events then thread_events else []) ++ (sync_event <$> l).
Proof.
  intros Hw Ha Hl Hend. destruct (allocate_all_region (reset a) l) as [Hs He]. cbn [reset start ObjectStartArray.end_] in Hs, He.
  destruct (object_tasks (allocate_all (reset a) l) top l workers Hw) as (rs & Hrs & Hc);
    [by apply (allocated_ok size_at _ top)|by rewrite Hs|by rewrite He|]. rewrite Hs in Hrs.
  exists (thread_tasks OnMinor events ++ (object_task <$> rs)). split.
  - revert Hrs. unfold enqueue_synchronization_tasks_for_parallel_old_gc. destruct (if bool_decide _ then _ else _); [|done].
    cbn [mbind option_bind]. intros [= ->]. done.
  - intros ws Hws. destruct events.
    + destruct ws as [|w ws]; [done|]. injection Hws as Hws.
      change (thread_events ++ run_queue anchors obj_at load threads (zip (object_task <$> rs) ws) = thread_events ++ (sync_event <$> l)).
      rewrite run_object_tasks by (by rewrite length_fmap in Hws). by rewrite Hc.
    + change (run_queue anchors obj_at load threads (zip (object_task <$> rs) ws) = sync_event <$> l).
      change (length ws = length (object_task <$> rs)) in Hws.
      rewrite run_object_tasks by (by rewrite length_fmap in Hws). by rewrite Hc.
Qed.

(** ** The gang of the G1 collector *)

Lemma others_idle b t k ws :
  Forall (fun w => w <> k) ws -> 0 <= k -> concat (_do_it anchors obj_at load threads (FireSyncEvents b t (k + 1)) <$> ws) = [].
Proof.
  intros H Hk. induction H as [|w ws Hw _ IH]; [done|]. cbn [fmap list_fmap concat _do_it]. cbn [_do_it] in IH. rewrite IH.
  rewrite (proj2 (Z.ltb_lt 0 (k + 1))) by lia. rewrite (proj2 (Z.eqb_neq (k + 1 - 1) w)) by lia. done.
Qed.

Lemma one_worker b t k n :
  0 <= k < n -> run_task anchors obj_at load threads n (FireSyncEvents b t (k + 1)) = sync_event <$> region_objects obj_at b t.
Proof.
  intros Hk. unfold run_task. replace n with (k + (1 + (n - k - 1))) by lia. rewrite seqZ_app, Z.add_0_l by lia.
  rewrite (seqZ_app k 1) by lia. rewrite !fmap_app, !concat_app, others_idle by first [lia | apply Forall_seqZ; lia].
  change (seqZ k 1) with [Z.of_nat 0 + k]. cbn [fmap list_fmap concat _do_it]. rewrite app_nil_r.
  rewrite (proj2 (Z.eqb_eq (k + 1 - 1) (Z.of_nat 0 + k))) by lia. rewrite andb_false_r, others_idle by first [lia | apply Forall_seqZ; lia]. cbn [app]. by rewrite app_nil_r.
Qed.

Definition reported (r : region) : bool := negb (in_collection_set r) && negb (continuesHumongous r).

Lemma run_region_tasks n objs regions i :
  0 < n -> Forall (fun r => tiled size_at (bottom r) (top r) (objs r)) regions ->
  run_gang anchors obj_at load threads n (concat (imap (fun index r =>
    if reported r then [FireSyncEvents (bottom r) (top r) (Z.of_nat (i + index) mod n + 1)] else []) regions)) =
  sync_event <$> concat (objs <$> filter (fun r => reported r = true) regions).
Proof.
  intros Hn. revert i. induction regions as [|r regions IH]; intros i H; [done|]. apply Forall_cons in H as [Hr H].
  cbn [imap concat]. unfold run_gang in *. rewrite fmap_app, concat_app, Nat.add_0_r. unfold compose.
  erewrite imap_ext; [rewrite (IH (S i)) by done|intros; cbn; by rewrite Nat.add_succ_r].
  rewrite filter_cons. destruct (reported r) eqn:E.
  - rewrite decide_True by done. cbn [fmap list_fmap concat]. rewrite app_nil_r, one_worker by (apply Z.mod_pos_bound; lia).
    by rewrite (region_objects_tiled _ _ _ Hr), fmap_app.
  - by rewrite decide_False by done.
Qed.

(** C34: a minor synchronisation of the G1 collector reports the regions that
    are not collected completely: the gang, which has all workers execute
    every task, fires exactly one event for each object of these regions,
    but as many events for each thread as there are workers. *)
Theorem g1_sync_complete events n objs regions :
  0 < n -> Forall (fun r => tiled size_at (bottom r) (top r) (objs r)) regions ->
  run_gang anchors obj_at load threads n (enqueue_synchronization_tasks_for_g1_gc OnMinor events n regions) =
  (if events then concat (replicate (Z.to_nat n) thread_events) else []) ++
  (sync_event <$> concat (objs <$> filter (fun r => reported r = true) regions)).
Proof.
  intros Hn H. rewrite <- (run_region_tasks n objs regions 0 Hn H).
  unfold enqueue_synchronization_tasks_for_g1_gc, run_gang. rewrite fmap_app, concat_app. f_equal.
  destruct events; [|done]. change (concat (_do_it anchors obj_at load threads FireThreadAliveEvents <$> seqZ 0 n) ++ [] =
    concat (replicate (Z.to_nat n) thread_events)). rewrite app_nil_r. f_equal. unfold seqZ.
  apply list_eq_same_length with (n := Z.to_nat n); rewrite ?length_fmap, ?length_seq, ?length_replicate; try done.
  intros i x y Hi. rewrite lookup_replicate, !list_lookup_fmap. intros Hx [-> _].
  destruct (seq 0 (Z.to_nat n) !! i); by simplify_eq/=.
Qed.

End Heap.

(** *** Three objects, and two regions of G1 *)

Definition demo_obj (p : Z) : oop := Oop p None false 7 (demo_size p).

Lemma parallel_sync_complete_witness :
  exists ts,
    enqueue_synchronization_tasks_for_parallel_old_gc demo_obj OnMinor true
      (allocate_all (reset (Array 1024 4096 ∅)) [1024; 1040; 1680]) 1024 1704 2 = Some ts /\
    forall ws, length ws = length ts ->
      run_queue false demo_obj (fun _ _ => 20) [(4, 1, [109])] (zip ts ws) =
      thread_events false [(4, 1, [109])] ++ (sync_event false demo_obj (fun _ _ => 20) <$> [1024; 1040; 1680]).
Proof.
  apply (parallel_sync_complete false demo_obj (fun _ _ => 20) [(4, 1, [109])] true (Array 1024 4096 ∅) 1704 [1024; 1040; 1680] 2);
    [lia|reflexivity|exact demo_tiled|cbn; lia].
Defined.

Definition demo_regions : list region := [Region 1024 1704 false false; Region 8192 8216 true false; Region 8192 8216 false false].
Definition demo_region_objects (r : region) : list Z := if bottom r =? 1024 then [1024; 1040; 1680] else [8192].

Lemma g1_sync_complete_witness :
  run_gang false demo_obj (fun _ _ => 20) [(4, 1, [109])] 2 (enqueue_synchronization_tasks_for_g1_gc OnMinor true 2 demo_regions) =
  concat (replicate 2 (thread_events false [(4, 1, [109])])) ++
  (sync_event false demo_obj (fun _ _ => 20) <$> concat (demo_region_objects <$> filter (fun r => reported r = true) demo_regions)).
Proof.
  apply (g1_sync_complete false demo_obj (fun _ _ => 20) [(4, 1, [109])] true 2 demo_region_objects demo_regions); [lia|].
  unfold demo_regions. rewrite !Forall_cons, Forall_nil. split_and!; [exact demo_tiled| | |done]; (apply (tiled_cons _ 8192 8216 []); [reflexivity|apply tiled_nil]).
Defined.

End SyncTasksTheorem.

(** ** Start and end of collections *)

Module CollectionsTheorem.
Import EventType EventsRuntime EventSynchronization EventsGCRuntime.

(** Changes of spaces, in a block that postpones them or not. *)
Inductive change := Redefined (r : Z * Z * Z) | Destroyed (d : Z * Z).

Section Collections.
Variable anchors : bool.

Definition schedule (s : state) (c : change) : state * list output :=
  match c with
  | Redefined (index, bottom, end_) => schedule_space_redefine anchors s index bottom end_
  | Destroyed (index, count) => schedule_space_destroyed anchors s index count
  end.

Definition change_space (s : state) (c : bool * change) : state * list output :=
  if c.1 then postpone_space_events s (fun s => schedule s c.2) else schedule s c.2.

Fixpoint change_spaces (s : state) (cs : list (bool * change)) : state * list output :=
  match cs with
  | [] => (s, [])
  | c :: cs => let '(s, out) := change_space s c in let '(s, out') := change_spaces s cs in (s, out ++ out')
  end.

Definition redefines (cs : list (bool * change)) : list (Z * Z * Z) :=
  concat ((fun c => match c with (true, Redefined r) => [r] | _ => [] end) <$> cs).
Definition destroys (cs : list (bool * change)) : list (Z * Z) :=
  concat ((fun c => match c with (true, Destroyed d) => [d] | _ => [] end) <$> cs).
Definition immediate (cs : list (bool * change)) : list output :=
  concat ((fun c => match c with
    | (false, Redefined r) => [redefine anchors r]
    | (false, Destroyed d) => [destroyed anchors d]
    | _ => []
    end) <$> cs).

Lemma change_spaces_spec s cs :
  postpone_space s = false ->
  change_spaces s cs =
    (State (id s) (sync s) false (postponed_space_redefines s ++ redefines cs) (postponed_space_destroys s ++ destroys cs),
     immediate cs).
Proof.
  revert s. induction cs as [|[p c] cs IH]; intros s Hs; cbn [change_spaces].
  - rewrite !app_nil_r. destruct s; cbn in *. by subst.
  - assert (change_space s (p, c) = (State (id s) (sync s) false (postponed_space_redefines s ++ redefines [(p, c)])
      (postponed_space_destroys s ++ destroys [(p, c)]), immediate [(p, c)])) as ->.
    { destruct s as [i y b rs ds]. cbn in Hs. subst b. destruct p, c as [[[x1 x2] x3]|[x1 x2]]; cbn; by rewrite ?app_nil_r. }
    rewrite IH by done. unfold redefines, destroys, immediate. cbn [id sync postpone_space postponed_space_redefines postponed_space_destroys
      fmap list_fmap concat]. by rewrite !app_nil_r, !app_assoc.
Qed.

(** C28: space events that are postponed are fired exactly once, after the
    end event of the collection and in the order in which they were
    scheduled, redefinitions first; they follow a full synchronisation of the
    buffers. Events outside of postponing blocks are fired at once, and
    nothing remains for the next collection. *)
Theorem postponed_after_end s cs type gc_id cause failed gc_only millis c :
  postpone_space s = false -> postponed_space_redefines s = [] -> postponed_space_destroys s = [] ->
  let '(s1, during) := change_spaces s cs in
  let '(s2, at_end) := fire_gc_end anchors s1 type gc_id cause failed gc_only millis c in
  during = immediate cs /\
  at_end = FiredSync EventBuffer.Sync_Full gc_only
      (fire_gc_start_end anchors EVENTS_GC_END gc_id type cause false failed millis (compute_rel_addr_base c)) ::
    (if decide (redefines cs = [] /\ destroys cs = []) then [] else [FiredSync EventBuffer.Sync_Full false (fire_sync anchors)]) ++
    (redefine anchors <$> redefines cs) ++ (destroyed anchors <$> destroys cs) /\
  postponed_space_redefines s2 = [] /\ postponed_space_destroys s2 = [].
Proof.
  intros Hs Hr Hd. rewrite (change_spaces_spec s cs Hs), Hr, Hd. cbn [app]. unfold fire_gc_end, fire_postponed_space_events.
  cbn [postponed_space_redefines postponed_space_destroys sync]. split_and!; [done| |by destruct (is_synchronizing _)..].
  cbn [app]. f_equal. f_equal. destruct (redefines cs), (destroys cs); cbn [length];
    (destruct (decide _) as [[??]|Hn]; [done || by simplify_eq|]; try done; exfalso; by apply Hn).
Qed.

(** *** Rotation over many collections *)

Variable TraceObjectsMaxTraceSize max_file_count : Z.
Variable TraceObjectsMaxTraceSizeSynchronizeOnMinor TraceObjectsGCRoots : bool.

(** A collection: what the collector passes and the VM at the safepoint. *)
Record collection := Collection {
  gc_type : Z;
  gc_cause : Z;
  concurrent : bool;
  gc_only : bool;
  allow_rotation : bool;
  failed : bool;
  file_size : Z;
  start_millis : Z;
  end_millis : Z;
  used : collector;
  the_heap : heap;
  the_vm : RootPointers.vm;
  changes : list (bool * change);
}.

Definition started (s : state) (c : collection) : state * Z * list output :=
  fire_gc_start anchors TraceObjectsMaxTraceSize max_file_count TraceObjectsMaxTraceSizeSynchronizeOnMinor
    TraceObjectsGCRoots s (gc_type c) (gc_cause c) (concurrent c) (gc_only c) (allow_rotation c) (file_size c) (start_millis c)
    (used c) (the_heap c) (the_vm c).

Definition collect (s : state) (c : collection) : state * list output :=
  let '(s, id, out1) := started s c in
  let '(s, out2) := change_spaces s (changes c) in
  let '(s, out3) := fire_gc_end anchors s (gc_type c) id (gc_cause c) (failed c) (gc_only c) (end_millis c) (used c) in
  (s, out1 ++ out2 ++ out3).

(** Collections, and requests to rotate. *)
Fixpoint run (s : state) (ops : list (option collection)) : state * list (collection * list output) :=
  match ops with
  | [] => (s, [])
  | None :: ops => run (set_sync s (force_rotate (sync s))) ops
  | Some c :: ops =>
      let '(s, out) := collect s c in
      let '(s, outs) := run s ops in
      (s, (c, out) :: outs)
  end.

(** The promise: a collection begins a new file if it may, if one was asked
    for or the file is large, and if it visits all objects or is told to
    synchronise. A request lasts until then. *)
Definition rotates (forced : bool) (c : collection) : bool :=
  allow_rotation c &&
  (forced || ((0 <? TraceObjectsMaxTraceSize) && (u64 TraceObjectsMaxTraceSize / max_file_count <=? file_size c))) &&
  ((gc_type c =? GCType_Major) || (TraceObjectsMaxTraceSizeSynchronizeOnMinor && (gc_type c =? GCType_Minor))).

Fixpoint files (forced : bool) (ops : list (option collection)) : list bool :=
  match ops with
  | [] => []
  | None :: ops => files true ops
  | Some c :: ops => rotates forced c :: files (forced && negb (rotates forced c)) ops
  end.

Definition keeps_file (out : list output) : Prop := Forall (fun o => o <> ResetWriter) out.

(** A new file begins after all old events are written; first the spaces of
    the heap, then the start of the collection, with its type telling that all
    objects follow. *)
Definition begins_file (c : collection) (out : list output) : Prop :=
  exists id rest, out = [FlushAll; WaitForAllSerialized; ResetWriter] ++ announce_spaces anchors (the_heap c) ++
    FiredSync EventBuffer.Sync_Full (gc_only c) (fire_gc_start_end anchors EVENTS_GC_START id
      (if gc_type c =? GCType_Major then GCType_Major_Sync else GCType_Minor_Sync) (gc_cause c) (concurrent c) false
      (start_millis c) (compute_rel_addr_base (used c))) :: rest /\ keeps_file rest.

Lemma keeps_spaces h : keeps_file (announce_spaces anchors h).
Proof.
  destruct h as [| |? from to ?|? from to]; cbn [announce_spaces]; unfold generational; try (destruct (bottom from <? bottom to)); try by repeat constructor.
  apply Forall_forall. intros o Ho. apply list_elem_of_In, in_concat in Ho as (l & Hl & Ho).
  apply list_elem_of_In, elem_of_lookup_imap in Hl as (i & r & -> & _). apply list_elem_of_In in Ho.
  unfold announce_region in Ho. apply elem_of_cons in Ho as [->|Ho]; [done|]. destruct (region_type r.2) as [[m t]|]; [|by apply elem_of_nil in Ho].
  apply list_elem_of_singleton in Ho as ->. done.
Qed.

Lemma keeps_postponed s : keeps_file (fire_postponed_space_events anchors s).2.
Proof.
  unfold fire_postponed_space_events, keeps_file. cbn [snd]. apply Forall_app. split; [destruct (_ || _); by repeat constructor|].
  apply Forall_app. split; apply Forall_fmap, Forall_forall; [by intros [[??]?] _|done].
Qed.

Lemma keeps_changes s cs : keeps_file (change_spaces s cs).2.
Proof.
  revert s. induction cs as [|c cs IH]; intros s; cbn [change_spaces]; [constructor|].
  assert (forall x s, keeps_file (schedule s x).2) as Hsch.
  { intros [[[??]?]|[??]] s'; cbn; unfold schedule_space_redefine, schedule_space_destroyed; destruct (negb _); by repeat constructor. }
  assert (keeps_file (change_space s c).2) as Hc.
  { unfold change_space, postpone_space_events. destruct c.1; [|done]. specialize (Hsch c.2 (set_postpone s true)). by destruct (schedule _ _). }
  destruct (change_space s c) as [s1 out]. specialize (IH s1). destruct (change_spaces s1 cs). by apply Forall_app.
Qed.

Lemma change_spaces_sync s cs : sync (change_spaces s cs).1 = sync s.
Proof.
  revert s. induction cs as [|c cs IH]; intros s; cbn [change_spaces]; [done|].
  assert (forall x s, sync (schedule s x).1 = sync s) as Hsch.
  { intros [[[??]?]|[??]] s'; cbn; unfold schedule_space_redefine, schedule_space_destroyed; by destruct (negb _). }
  assert (sync (change_space s c).1 = sync s) as <-.
  { unfold change_space, postpone_space_events. destruct c.1; [|done]. specialize (Hsch c.2 (set_postpone s true)). by destruct (schedule _ _). }
  destruct (change_space s c) as [s1 out]. specialize (IH s1). by destruct (change_spaces s1 cs).
Qed.

Lemma gc_end_spec s type id cause fl only millis c :
  let '(s', out) := fire_gc_end anchors s type id cause fl only millis c in
  is_synchronizing (sync s') = false /\
  forced (sync s') = forced (sync s) && negb (is_synchronizing (sync s)) /\ keeps_file out.
Proof.
  unfold fire_gc_end. pose proof (keeps_postponed s) as Hk. destruct (fire_postponed_space_events anchors s) as [s1 out] eqn:E.
  assert (sync s1 = sync s) as <- by (unfold fire_postponed_space_events in E; by inversion E).
  destruct (is_synchronizing (sync s1)) eqn:Hy; cbn [set_sync sync stop_synchronization forced]; rewrite ?andb_true_r, ?andb_false_r;
    (split_and!; [done|done|by apply Forall_cons]).
Qed.

Lemma gc_start_spec s c :
  is_synchronizing (sync s) = false ->
  let '(s', id, out) := started s c in
  is_synchronizing (sync s') = rotates (forced (sync s)) c /\ forced (sync s') = forced (sync s) /\
  if rotates (forced (sync s)) c then begins_file c out else keeps_file out.
Proof.
  intros Hy. unfold started, fire_gc_start, should_rotate, rotates. rewrite Z.add_0_r. fold (forced (sync s)).
  assert (forall i y, keeps_file ((fire_postponed_space_events anchors (State i y (postpone_space s) (postponed_space_redefines s)
    (postponed_space_destroys s))).2 ++ (if TraceObjectsGCRoots then Fired <$> RootPointers.fire_root_pointers anchors (the_vm c) else []))) as Hk.
  { intros i y. apply Forall_app. split; [apply keeps_postponed|]. destruct TraceObjectsGCRoots; [|constructor].
    apply Forall_fmap, Forall_forall. done. }
  destruct (allow_rotation c); cbn [andb]; [|split_and!; [done|done|]; apply Forall_cons; split; [done|apply Hk]].
  destruct (_ || _ && _); cbn [andb]; [|split_and!; [done|done|]; apply Forall_cons; split; [done|apply Hk]].
  unfold rotation. destruct (gc_type c =? GCType_Major) eqn:E1; cbn [orb].
  - split_and!; [done|done|]. eexists _, _. rewrite E1. split; [reflexivity|]. apply Hk.
  - destruct (_ && _) eqn:E2.
    + split_and!; [done|done|]. eexists _, _. rewrite E1. split; [reflexivity|]. apply Hk.
    + split_and!; [done|done|]. apply Forall_app. split; [apply Forall_cons; split; [done|apply keeps_spaces]|]. apply Forall_cons. split; [done|apply Hk].
Qed.

Lemma collect_spec s c :
  is_synchronizing (sync s) = false ->
  let '(s', out) := collect s c in
  is_synchronizing (sync s') = false /\ forced (sync s') = forced (sync s) && negb (rotates (forced (sync s)) c) /\
  if rotates (forced (sync s)) c then begins_file c out else keeps_file out.
Proof.
  intros Hy. unfold collect. pose proof (gc_start_spec s c Hy) as H1. destruct (started s c) as [[s1 i] out1].
  destruct H1 as (H1 & H1' & Hout1). pose proof (change_spaces_sync s1 (changes c)) as H2. pose proof (keeps_changes s1 (changes c)) as Hout2.
  destruct (change_spaces s1 (changes c)) as [s2 out2]. cbn [fst snd] in *.
  pose proof (gc_end_spec s2 (gc_type c) i (gc_cause c) (failed c) (gc_only c) (end_millis c) (used c)) as H3.
  destruct (fire_gc_end _ _ _ _ _ _ _ _ _) as [s3 out3]. destruct H3 as (H3 & H3' & Hout3). rewrite H2, H1, H1' in H3'.
  split_and!; [done|done|]. destruct (rotates _ c).
  - destruct Hout1 as (i' & rest & -> & Hr). exists i', (rest ++ out2 ++ out3). split; [by rewrite <- !app_assoc|].
    apply Forall_app. split; [done|by apply Forall_app].
  - apply Forall_app. split; [done|by apply Forall_app].
Qed.

(** C26: trace files begin where they should: over any sequence of
    collections and requests to rotate, a new file is begun by exactly the
    collections that may do so when it was requested or the file is too
    large. Such a collection flushes and waits for all events of the old
    file first, and the new file begins with the spaces and the start of a
    synchronising collection. Synchronisation never outlasts its
    collection, and a request is kept until a file is begun. *)
Theorem files_begin_on_request s ops :
  is_synchronizing (sync s) = false ->
  let '(s', outs) := run s ops in
  is_synchronizing (sync s') = false /\
  Forall2 (fun co b => if b : bool then begins_file co.1 co.2 else keeps_file co.2) outs (files (forced (sync s)) ops).
Proof.
  revert s. induction ops as [|[c|] ops IH]; intros s Hy; cbn [run files]; [done| |].
  - pose proof (collect_spec s c Hy) as Hc. destruct (collect s c) as [s1 out]. destruct Hc as (Hy1 & Hf & Hout).
    specialize (IH s1 Hy1). destruct (run s1 ops) as [s2 outs]. destruct IH as [H1 H2]. rewrite Hf in H2.
    split; [done|]. by constructor.
  - exact (IH (set_sync s (force_rotate (sync s))) Hy).
Qed.

End Collections.

Definition demo_vm : RootPointers.vm := RootPointers.VM [] [] [] [] 0 [64] [] [] [] [72] [] [] [] [] [] [] 0.

Definition demo_collection (type : Z) : collection :=
  Collection type 2 false false true false 100 1000 1010 (UseParallelGC 4096)
    (ParallelHeap (Space 65536 131072) (Space 4096 8192) (Space 8192 12288) (Space 12288 16384)) demo_vm
    [(true, Redefined (1, 4096, 8000))].
Definition demo_ops : list (option collection) :=
  [Some (demo_collection GCType_Major); None; Some (demo_collection GCType_Minor); Some (demo_collection GCType_Major)].
Definition demo_state : state := State 0 (EventSynchronization.State NoSync false) false [] [].

(** Of the collections of [demo_ops] the last one begins a file. *)
Lemma files_begin_on_request_witness :
  let '(s', outs) := run false 0 4 false true demo_state demo_ops in
  is_synchronizing (sync s') = false /\
  Forall2 (fun co b => if b : bool then begins_file false co.1 co.2 else keeps_file co.2) outs [false; false; true].
Proof. exact (files_begin_on_request false 0 4 false true demo_state demo_ops eq_refl). Defined.

Lemma postponed_after_end_witness :
  let '(s1, during) := change_spaces false (State 3 (EventSynchronization.State NoSync false) false [] [])
    [(true, Redefined (0, 1024, 2048)); (false, Destroyed (4, 2)); (true, Destroyed (7, 1))] in
  let '(s2, at_end) := fire_gc_end false s1 0 4 2 false false 1000 (UseParallelGC 4096) in
  during = [destroyed false (4, 2)] /\
  at_end = FiredSync EventBuffer.Sync_Full false (fire_gc_start_end false EVENTS_GC_END 4 0 2 false false 1000 4096) ::
    [FiredSync EventBuffer.Sync_Full false (fire_sync false)] ++ [redefine false (0, 1024, 2048)] ++ [destroyed false (7, 1)] /\
  postponed_space_redefines s2 = [] /\ postponed_space_destroys s2 = [].
Proof.
  exact (postponed_after_end false (State 3 (EventSynchronization.State NoSync false) false [] [])
    [(true, Redefined (0, 1024, 2048)); (false, Destroyed (4, 2)); (true, Destroyed (7, 1))] 0 4 2 false false 1000
    (UseParallelGC 4096) eq_refl eq_refl eq_refl).
Defined.

End CollectionsTheorem.
